(* ===== verification/_CoqProject ===== *)
-Q . S2P
Prelude.v
Utils.v
ListpackCodec.v
Listpack.v
RadixTree.v
Stream.v
SortedSet.v
Geohash.v
Command.v
Parser.v
CommandParser.v
ParserProgress.v
Acl.v
World.v
DbString.v
DbList.v
DbStream.v
DbZset.v
Db.v
Invariant.v
Frame.v
Transactions.v
Sessions.v
Rdb.v
Connection.v
Replication.v
SlaveReplication.v
MasterConnection.v
Server.v
Lockstep.v
Convergence.v
Options.v
Process.v
