(* ===== verification/Prelude.v ===== *)
(** * A verification of CarrotDB

    CarrotDB is an in-memory data base that speaks the Redis protocol: a single
    thread waits in [epoll], reads commands from clients, executes them on the
    data, answers, and forwards writes to replicas.  This library models the
    program in [src/] (paths below are relative to that directory) as executable
    definitions and proves what the parts promise, up to the whole process.

    ** How the program is put together

    - [main.cpp], [server-config.cpp], [server.cpp]: options, set-up, the loop; a
      request goes from the connection's buffer through the command parser to the
      replication manager or, if it is not for it, to the data base, and then to
      the replicas; afterwards whoever has output is registered for writing.
    - [eventloop], [acceptor], [connection], [master-connection], [networking]:
      sockets and events.
    - [parser/]: RESP tokens, commands, and the text of a command for replicas.
    - [db/]: one handler per command, on a table of keys whose values are strings,
      listpacks, streams and sorted sets, a table of deadlines, lines of clients
      that wait on keys, watchers of transactions and subscribers of channels.
    - [listpack], [radix-tree], [stream], [sortedset], [geohash]: data structures.
    - [acl], [models/]: users, clients, contexts, configuration.
    - [replication], [slave-replication]: the two ends of replication.
    - [rdb], [io]: the snapshot file read at the start.

    ** Files of the library

    Shared: [Prelude] (outcomes, bytes, machine words, memory, decimal text), and
    [Utils] for [utils/utils.h].

    Data structures: [ListpackCodec] and [Listpack] (listpacks on flat memory),
    [RadixTree], [Stream] (against the interface [RangeIndex], which the radix tree
    implements), [SortedSet], [Geohash].

    Protocol: [Command] (classes of commands and [to_resp]), [Parser] (tokens),
    [CommandParser] (the parse functions and [parseCommand]), [ParserProgress]
    (reading ends).

    Data base: [World] (clients, contexts, tables, the monad [M] of handlers), [Acl],
    [DbString], [DbList], [DbStream], [DbZset] (handlers by type), [Db] (dispatch,
    transactions, publish/subscribe, users); [Invariant] ([keeps]), [Frame]
    ([frames]), [Transactions] ([agrees]) and [Lockstep] ([lockstep]) are four small
    logics over [M], each a property that composes along the monad and is
    established once per handler; [Sessions] has the properties of users and
    subscribers.

    Server: [Rdb] (the loader), [Connection] (the state [Server], its monad [SM],
    client connections), [Replication] (master), [SlaveReplication] and
    [MasterConnection] (replica), [Server] (requests, the clock, the sleep),
    [Options], [Process] (sockets, event loop, set-up, [main]), [Convergence] (master
    and replica together).

    ** How code is represented

    - Bytes and characters are integers in [Z]; a machine word is a [Z] with its
      wrap-around written out ([u32], [u64], [i64]); doubles are [spec_float] with
      53 bits.  A [std::unordered_map] or [std::map] by key is a [gmap]; where the
      order of a hash map matters it is that of [map_to_list].
    - [outcome]: [Done], or [Stuck] for a run that C++ gives no result for or that
      ends in an assertion.  [M] and [SM] thread the state and may be [Stuck]; what a
      handler wrote before it got stuck is lost, as the process is.
    - Shared objects (clients, users) live in heaps under references; a weak
      reference is a key that may be absent.
    - A command handler is one function on the state, with the branches and early
      returns of the C++ function of the same name.  Logging is left out.
    - What comes from outside is an argument: clocks, uninitialised memory, number
      formatting, trigonometry and SHA-256 are fields of [Env]; [std::stod] and the
      file system are parameters; answers of [read], [write], [accept], [socket]
      are lists or records given to the operation.
    - Loops are structural recursion, or have fuel.  Fuel: [parseCommand] the length
      of the buffer, each round dropping a byte at least ([parseCommand_terminates]
      shows that the limit is not met); the snapshot loops one more than the length
      of the file ([Rdb_terminates]); the replica's loop one more than its buffer
      ([process_loop_fuel]: more changes nothing); the loop over arguments their
      number; a walk over a listpack one unit per byte of it, a back length as many
      as it may have bytes; a descent in the radix tree one per byte of the key.

    ** What is proved

    - Data structures do what their contracts say: every listpack operation on its
      byte layout against a sequence of entries, with the round trips of the entry
      encodings; radix-tree insertion, lookup and pruned range search against a
      sorted list; streams against a log of entries; the two halves of a sorted set.
    - The parser reads back what [to_resp] prints, and always ends.
    - The handlers of strings, lists, streams, sorted sets and geo searches: their
      effect on the data and their replies, waiting clients included: who is served,
      who times out when, how long the loop sleeps (it looks at the head of each
      waiting line and at all WAIT clients).  PING, ECHO, KEYS, CONFIG GET,
      GEOADD and GEOPOS have no theorem of their own; like every command they are
      under the invariant and the frame.
    - EXEC is the sequential execution of its queue; what MULTI, DISCARD and EXEC do
      to a client, and which commands are queued.  Users and passwords; who gets a published message.
    - The data base's invariant and frame over every command.
    - Connections lose and repeat no output; an event runs one command and registers
      whoever it wrote to.  The snapshot loader terminates, and is exact on files of
      string keys without 64-bit lengths and compressed strings.
    - Replication: what is forwarded to whom; WAIT, its answers and its expiry; the
      handshake; a replica that reads what its master gave it ends with the master's
      data ([replica_converges], for any write but ACL SETUSER whose arguments the
      program prints without loss).  The master counts the bytes clients sent, the
      replica those it was sent, which are the same when clients write as the program
      prints.
    - The invariant of the whole process from [main] on, and the outcomes of start-up.

    Where the program does not do what it means to, the theorem states what it does
    (for example [late_rdb_hides_commands], [sorted_sets_fail_in_EXEC],
    [PUSH_wrong_type_aborts], [lpFirst_aborts_on_64_bit]).

    ** What is not modelled, and why

    - [Rdb::takesnapshot] (empty), [RIO::write] (never called), the handlers of
      [Acceptor] that do nothing, and destructors that run when the process ends.
    - Failures of [epoll_ctl], which are only logged, and of memory allocation.
    - Time inside a command: a handler takes one reading of each clock.
    - Log output.
*)
From Stdlib Require Export ZArith Lia Sorted.
From stdpp Require Export prelude gmap list strings.

#[global] Open Scope Z_scope.

(** * Outcomes

    [Stuck] is a run the C++ semantics gives no result for, or that ends the
    process: a failed [assert], an access outside an allocated array, a null
    dereference, a signed overflow. *)
Inductive outcome (A : Type) : Type :=
| Done (a : A)
| Stuck.
Arguments Done {A} a.
Arguments Stuck {A}.

#[global] Instance outcome_ret : MRet outcome := fun A a => Done a.
#[global] Instance outcome_bind : MBind outcome :=
  fun A B f m => match m with Done a => f a | Stuck => Stuck end.

Definition of_option {A} (o : option A) : outcome A :=
  match o with Some a => Done a | None => Stuck end.

(** [assert(b)] of <cassert>; the build files never define NDEBUG. *)
Definition assertb (b : bool) : outcome unit := if b then Done tt else Stuck.

Lemma bind_Done {A B} (a : A) (f : A -> outcome B) : (Done a ≫= f) = f a.
Proof. reflexivity. Qed.

Lemma bind_mret {A B} (a : A) (f : A -> outcome B) : (mret a ≫= f) = f a.
Proof. reflexivity. Qed.

Lemma bind_Stuck {A B} (f : A -> outcome B) : (Stuck ≫= f) = Stuck.
Proof. reflexivity. Qed.

Lemma bind_inv_Done {A B} (m : outcome A) (f : A -> outcome B) b :
  (m ≫= f) = Done b -> exists a, m = Done a /\ f a = Done b.
Proof. destruct m as [a|]; cbn; [eauto|discriminate]. Qed.

(** * Bytes *)
Abbreviation byte := Z (only parsing).
Abbreviation bytes := (list Z) (only parsing).

Definition is_byte (b : Z) : Prop := 0 <= b < 256.
#[global] Instance is_byte_dec b : Decision (is_byte b).
Proof. unfold is_byte. apply _. Defined.

(** A C++ string literal. *)
Definition lit (s : string) : list Z :=
  map (fun a => Z.of_N (Ascii.N_of_ascii a)) (String.list_ascii_of_string s).

(** A C++ character literal. *)
Definition chr (a : Ascii.ascii) : Z := Z.of_N (Ascii.N_of_ascii a).

Definition len {A} (l : list A) : Z := Z.of_nat (length l).

Lemma len_nil {A} : len (@nil A) = 0.
Proof. reflexivity. Qed.
Lemma len_cons {A} (a : A) l : len (a :: l) = 1 + len l.
Proof. unfold len. cbn [length]. lia. Qed.
Lemma len_app {A} (l k : list A) : len (l ++ k) = len l + len k.
Proof. unfold len. rewrite length_app. lia. Qed.
Lemma len_nonneg {A} (l : list A) : 0 <= len l.
Proof. unfold len. lia. Qed.
Lemma len_0 {A} (l : list A) : len l = 0 -> l = [].
Proof. destruct l; [done|]. unfold len; cbn; lia. Qed.

(** * Machine integers *)
Definition u8 (z : Z) : Z := z mod 2 ^ 8.
Definition u16 (z : Z) : Z := z mod 2 ^ 16.
Definition u32 (z : Z) : Z := z mod 2 ^ 32.
Definition u64 (z : Z) : Z := z mod 2 ^ 64.
Definition i32 (z : Z) : Z := (z + 2 ^ 31) mod 2 ^ 32 - 2 ^ 31.
Definition i64 (z : Z) : Z := (z + 2 ^ 63) mod 2 ^ 64 - 2 ^ 63.

Definition UINT16_MAX : Z := 65535.
Definition UINT32_MAX : Z := 4294967295.
Definition UINT64_MAX : Z := 18446744073709551615.
Definition INT64_MAX : Z := 9223372036854775807.
Definition INT64_MIN : Z := -9223372036854775808.

Definition is_i64 (z : Z) : Prop := INT64_MIN <= z <= INT64_MAX.
Definition is_u64 (z : Z) : Prop := 0 <= z <= UINT64_MAX.

Lemma u32_id z : 0 <= z < 2 ^ 32 -> u32 z = z.
Proof. apply Z.mod_small. Qed.
Lemma u64_id z : 0 <= z < 2 ^ 64 -> u64 z = z.
Proof. apply Z.mod_small. Qed.
Lemma i64_id z : is_i64 z -> i64 z = z.
Proof.
  unfold is_i64, INT64_MIN, INT64_MAX, i64. intros.
  rewrite Z.mod_small; lia.
Qed.
Lemma i64_range z : is_i64 (i64 z).
Proof.
  unfold is_i64, INT64_MIN, INT64_MAX, i64. pose proof (Z.mod_pos_bound (z + 2 ^ 63) (2 ^ 64)). lia.
Qed.
Lemma i64_add a b : i64 (i64 a + b) = i64 (a + b).
Proof.
  unfold i64. replace ((a + 2 ^ 63) mod 2 ^ 64 - 2 ^ 63 + b + 2 ^ 63) with ((a + 2 ^ 63) mod 2 ^ 64 + b) by lia.
  rewrite Zplus_mod_idemp_l. f_equal. f_equal. lia.
Qed.
Lemma i32_id z : - 2 ^ 31 <= z < 2 ^ 31 -> i32 z = z.
Proof. unfold i32. intros. rewrite Z.mod_small; lia. Qed.
Lemma u64_bound z : 0 <= u64 z < 2 ^ 64.
Proof. apply Z.mod_pos_bound. lia. Qed.
Lemma u32_bound z : 0 <= u32 z < 2 ^ 32.
Proof. apply Z.mod_pos_bound. lia. Qed.

(** A high part and a low part that do not overlap. *)
Lemma land_255 v : Z.land v 255 = v mod 256.
Proof. apply (Z.land_ones v 8). lia. Qed.

Lemma lor_high a k B : 0 <= k -> 0 <= B < 2 ^ k -> Z.lor (a * 2 ^ k) B = a * 2 ^ k + B.
Proof.
  intros Hk HB. rewrite <- Z.shiftl_mul_pow2 by lia.
  assert (Hd : Z.land (Z.shiftl a k) B = 0).
  { apply Z.bits_inj'. intros i Hi. rewrite Z.land_spec, Z.bits_0.
    destruct (Z.lt_ge_cases i k); [by rewrite Z.shiftl_spec_low by lia|].
    rewrite <- (Z.mod_small B (2 ^ k)), Z.mod_pow2_bits_high by lia. apply andb_false_r. }
  by rewrite <- Z.lxor_lor, <- Z.add_nocarry_lxor by done.
Qed.

(** * Flat memory: an array and offsets into it *)
Definition rd (m : list Z) (i : Z) : outcome Z :=
  if 0 <=? i then of_option (m !! Z.to_nat i) else Stuck.

Definition rdn (m : list Z) (i n : Z) : outcome (list Z) :=
  if (0 <=? i) && (0 <=? n) && (i + n <=? len m)
  then Done (take (Z.to_nat n) (drop (Z.to_nat i) m)) else Stuck.

Definition wr (m : list Z) (i : Z) (w : list Z) : outcome (list Z) :=
  if (0 <=? i) && (i + len w <=? len m)
  then Done (take (Z.to_nat i) m ++ w ++ drop (Z.to_nat (i + len w)) m) else Stuck.

(** [points m p X]: the array [m] holds the bytes [X] from offset [p] on. *)
Definition points (m : list Z) (p : Z) (X : list Z) : Prop :=
  exists A C, m = A ++ X ++ C /\ len A = p.

Lemma points_intro A X C : points (A ++ X ++ C) (len A) X.
Proof. exists A, C. done. Qed.

Lemma points_nonneg m p X : points m p X -> 0 <= p /\ p + len X <= len m.
Proof.
  intros (A & C & -> & <-). rewrite !len_app.
  pose proof (len_nonneg A). pose proof (len_nonneg C). lia.
Qed.

Lemma points_rd m p X (k : nat) b :
  points m p X -> X !! k = Some b -> rd m (p + Z.of_nat k) = Done b.
Proof.
  intros (A & C & -> & <-) Hk. unfold rd.
  pose proof (len_nonneg A). destruct (Z.leb_spec 0 (len A + Z.of_nat k)); [|lia].
  replace (Z.to_nat (len A + Z.of_nat k)) with (length A + k)%nat
    by (unfold len; lia).
  rewrite lookup_app_r by lia.
  replace (length A + k - length A)%nat with k by lia.
  by rewrite (lookup_app_l_Some _ _ _ _ Hk).
Qed.

Lemma points_rd0 m p b X : points m p (b :: X) -> rd m p = Done b.
Proof.
  intros H. rewrite <- (points_rd m p (b :: X) 0 b H eq_refl). f_equal. lia.
Qed.

Lemma points_rdn m p X n : points m p X -> n = len X -> rdn m p n = Done X.
Proof.
  intros Hp ->. pose proof (points_nonneg _ _ _ Hp). unfold rdn.
  pose proof (len_nonneg X).
  destruct (Z.leb_spec 0 p); [|lia]. destruct (Z.leb_spec 0 (len X)); [|lia].
  destruct (Z.leb_spec (p + len X) (len m)); [|lia]. cbn [andb]. f_equal.
  destruct Hp as (A & C & -> & <-). unfold len. rewrite !Nat2Z.id.
  by rewrite drop_app_length, take_app_length.
Qed.

Lemma points_app_l m p X Y : points m p (X ++ Y) -> points m p X.
Proof. intros (A & C & -> & <-). exists A, (Y ++ C). by rewrite <- app_assoc. Qed.

Lemma points_app_r m p X Y : points m p (X ++ Y) -> points m (p + len X) Y.
Proof.
  intros (A & C & -> & <-). exists (A ++ X), C.
  rewrite <- !app_assoc, len_app. done.
Qed.

Lemma points_cons m p b X : points m p (b :: X) -> points m (p + 1) X.
Proof. apply (points_app_r m p [b] X). Qed.

Lemma wr_app A Y C W :
  len W = len Y -> wr (A ++ Y ++ C) (len A) W = Done (A ++ W ++ C).
Proof.
  intros HW. unfold wr. rewrite !len_app.
  pose proof (len_nonneg A). pose proof (len_nonneg C).
  destruct (Z.leb_spec 0 (len A)); [|lia].
  destruct (Z.leb_spec (len A + len W) (len A + (len Y + len C))); [|lia].
  cbn [andb]. f_equal. rewrite HW.
  replace (Z.to_nat (len A + len Y)) with (length (A ++ Y))
    by (rewrite length_app; unfold len; lia).
  unfold len. rewrite Nat2Z.id. rewrite take_app_length. f_equal. f_equal.
  rewrite app_assoc. by rewrite drop_app_length.
Qed.

Lemma wr_at A Y C W p :
  p = len A -> len W = len Y -> wr (A ++ Y ++ C) p W = Done (A ++ W ++ C).
Proof. intros ->. apply wr_app. Qed.

(** * Lexicographic order of byte strings

    [std::string] comparison: [char_traits<char>::compare] orders characters
    as unsigned bytes and a proper prefix is smaller. *)
Fixpoint bcompare (a b : list Z) : comparison :=
  match a, b with
  | [], [] => Eq
  | [], _ :: _ => Lt
  | _ :: _, [] => Gt
  | x :: a', y :: b' =>
      match x ?= y with Eq => bcompare a' b' | c => c end
  end.

Definition blt (a b : list Z) : bool :=
  match bcompare a b with Lt => true | _ => false end.
Definition ble (a b : list Z) : bool :=
  match bcompare a b with Gt => false | _ => true end.

Lemma bcompare_refl a : bcompare a a = Eq.
Proof. induction a; cbn; [done|]. by rewrite Z.compare_refl. Qed.

Lemma bcompare_eq a b : bcompare a b = Eq <-> a = b.
Proof.
  split; [|intros ->; apply bcompare_refl].
  revert b. induction a as [|x a IH]; intros [|y b]; cbn; try done.
  destruct (Z.compare_spec x y); try done. intros ?%IH. congruence.
Qed.

Lemma bcompare_antisym a b : bcompare a b = CompOpp (bcompare b a).
Proof.
  revert b. induction a as [|x a IH]; intros [|y b]; cbn; try done.
  rewrite (Z.compare_antisym y x). destruct (y ?= x); cbn; auto.
Qed.

Lemma bcompare_app a b : length a = length b -> forall x y,
  bcompare (a ++ x) (b ++ y) = match bcompare a b with Eq => bcompare x y | c => c end.
Proof.
  revert b. induction a as [|u a IH]; intros [|w b]; try done. intros [= Hl] x y. cbn.
  destruct (u ?= w); [by apply IH|done|done].
Qed.

Lemma blt_trans a b c : blt a b = true -> blt b c = true -> blt a c = true.
Proof.
  unfold blt. revert b c. induction a as [|x a IH]; intros [|y b] [|z c]; cbn; try done.
  intros H1 H2.
  destruct (Z.compare_spec x y), (Z.compare_spec y z), (Z.compare_spec x z);
    (lia || done || eauto).
Qed.

Lemma blt_irrefl a : blt a a = false.
Proof. unfold blt. by rewrite bcompare_refl. Qed.

Lemma blt_ble a b : blt a b = negb (ble b a).
Proof. unfold blt, ble. rewrite (bcompare_antisym a b). by destruct (bcompare b a). Qed.

Lemma ble_lt_eq a b : ble a b = true <-> blt a b = true \/ a = b.
Proof.
  rewrite <- bcompare_eq. unfold ble, blt.
  destruct (bcompare a b); intuition congruence.
Qed.

Lemma ble_refl a : ble a a = true.
Proof. unfold ble. by rewrite bcompare_refl. Qed.

Lemma ble_trans a b c : ble a b = true -> ble b c = true -> ble a c = true.
Proof.
  rewrite !ble_lt_eq. intros [?| ->] [?| ->]; eauto using blt_trans.
Qed.

Lemma blt_ble_trans a b c : blt a b = true -> ble b c = true -> blt a c = true.
Proof. rewrite ble_lt_eq. intros ? [?| ->]; eauto using blt_trans. Qed.

Lemma ble_blt_trans a b c : ble a b = true -> blt b c = true -> blt a c = true.
Proof. rewrite ble_lt_eq. intros [?| ->] ?; eauto using blt_trans. Qed.

Lemma blt_total a b : blt a b = false -> blt b a = false -> a = b.
Proof.
  unfold blt. rewrite (bcompare_antisym b a). intros.
  apply bcompare_eq. by destruct (bcompare a b).
Qed.

Lemma blt_app p a b : blt (p ++ a) (p ++ b) = blt a b.
Proof. unfold blt. induction p; cbn; [done|]. by rewrite Z.compare_refl. Qed.

Lemma ble_app p a b : ble (p ++ a) (p ++ b) = ble a b.
Proof. unfold ble. induction p; cbn; [done|]. by rewrite Z.compare_refl. Qed.

(** * Decimal numbers

    [std::to_string] on integers, and the value of a digit string. *)
Fixpoint dec_digits (fuel : nat) (n : Z) (acc : list Z) : list Z :=
  match fuel with
  | O => acc
  | S f =>
      let acc' := (48 + n mod 10) :: acc in
      if n <? 10 then acc' else dec_digits f (n / 10) acc'
  end.

Definition udec (n : Z) : list Z := dec_digits (S (Z.to_nat (Z.log2 n))) n [].

Definition to_string (n : Z) : list Z :=
  if n <? 0 then 45 :: udec (- n) else udec n.

Definition isdigit (c : Z) : bool := (48 <=? c) && (c <=? 57).

Definition dec_step (v c : Z) : Z := v * 10 + (c - 48).
Definition dec_value (ds : list Z) : Z := fold_left dec_step ds 0.

Lemma isdigit_spec c : isdigit c = true <-> 48 <= c <= 57.
Proof. unfold isdigit. rewrite andb_true_iff, !Z.leb_le. done. Qed.

Lemma dec_digits_acc fuel n acc :
  dec_digits fuel n acc = dec_digits fuel n [] ++ acc.
Proof.
  revert n acc. induction fuel as [|f IH]; intros n acc; cbn; [done|].
  destruct (n <? 10); [done|].
  rewrite IH, (IH _ [_]). rewrite <- app_assoc. done.
Qed.

Lemma dec_digits_fuel f g n :
  0 < n -> n < 2 ^ Z.of_nat f -> n < 2 ^ Z.of_nat g ->
  dec_digits f n [] = dec_digits g n [].
Proof.
  revert g n. induction f as [|f IH]; intros g n H0 Hf Hg; [cbn in Hf; lia|].
  destruct g as [|g]; [cbn in Hg; lia|].
  cbn [dec_digits]. destruct (Z.ltb_spec n 10); [done|].
  rewrite dec_digits_acc, (dec_digits_acc g). f_equal.
  rewrite Nat2Z.inj_succ, Z.pow_succ_r in Hf, Hg by lia.
  apply IH; [apply Z.div_str_pos; lia| |];
    apply Z.div_lt_upper_bound; lia.
Qed.

Lemma udec_small n : 0 <= n < 10 -> udec n = [48 + n].
Proof.
  intros. unfold udec. cbn [dec_digits].
  destruct (Z.ltb_spec n 10); [|lia]. by rewrite Z.mod_small by lia.
Qed.

Lemma log2_fuel n : 0 < n -> n < 2 ^ Z.of_nat (S (Z.to_nat (Z.log2 n))).
Proof.
  intros. pose proof (Z.log2_spec n ltac:(lia)) as [_ Hn].
  pose proof (Z.log2_nonneg n).
  by replace (Z.of_nat (S (Z.to_nat (Z.log2 n)))) with (Z.succ (Z.log2 n)) by lia.
Qed.

Lemma udec_step n : 10 <= n -> udec n = udec (n / 10) ++ [48 + n mod 10].
Proof.
  intros. assert (Hd : 0 < n / 10) by (apply Z.div_str_pos; lia).
  unfold udec at 1. cbn [dec_digits].
  destruct (Z.ltb_spec n 10); [lia|].
  rewrite dec_digits_acc. f_equal. apply dec_digits_fuel; [done| |].
  - pose proof (log2_fuel n ltac:(lia)) as Hn.
    rewrite Nat2Z.inj_succ, Z.pow_succ_r in Hn by lia.
    apply Z.div_lt_upper_bound; lia.
  - by apply log2_fuel.
Qed.

(** Induction along the decimal digits of a number. *)
Lemma dec_ind (P : Z -> Prop) :
  (forall n, 0 <= n < 10 -> P n) ->
  (forall n, 10 <= n -> P (n / 10) -> P n) ->
  forall n, 0 <= n -> P n.
Proof.
  intros Hs Hst n Hn.
  refine (Z_lt_induction (fun n => 0 <= n -> P n) _ n Hn Hn). clear n Hn.
  intros n IH Hn. destruct (Z_lt_le_dec n 10) as [L|G]; [by apply Hs|].
  apply Hst; [done|]. pose proof (Z.div_lt n 10 ltac:(lia) ltac:(lia)).
  assert (0 <= n / 10) by (apply Z.div_pos; lia). apply IH; lia.
Qed.

Lemma isdigit_char n : 0 <= n < 10 -> isdigit (48 + n) = true.
Proof. rewrite isdigit_spec. lia. Qed.

Lemma udec_digits n : 0 <= n -> Forall (fun c => isdigit c = true) (udec n).
Proof.
  revert n. apply dec_ind; intros n Hn.
  - rewrite udec_small by done. repeat constructor. by apply isdigit_char.
  - intros IH. rewrite udec_step by done. apply Forall_app_2; [done|].
    repeat constructor. apply isdigit_char. by apply Z.mod_pos_bound.
Qed.

Lemma dec_value_snoc ds c : dec_value (ds ++ [c]) = dec_value ds * 10 + (c - 48).
Proof. unfold dec_value. by rewrite fold_left_app. Qed.

Lemma dec_value_udec n : 0 <= n -> dec_value (udec n) = n.
Proof.
  revert n. apply dec_ind; intros n Hn.
  - rewrite udec_small by done. unfold dec_value, dec_step. cbn. lia.
  - intros IH. rewrite udec_step, dec_value_snoc, IH by done.
    pose proof (Z.div_mod n 10). lia.
Qed.

(** A non-empty digit string without superfluous leading zero. *)
Definition canonical_dec (ds : list Z) : Prop :=
  Forall (fun c => isdigit c = true) ds /\ ds <> [] /\
  (forall ds', ds = 48 :: ds' -> ds' = []).

Lemma dec_value_nonneg ds :
  Forall (fun c => isdigit c = true) ds -> 0 <= dec_value ds.
Proof.
  induction ds as [|c ds IH] using rev_ind; [done|].
  intros [H1 H2]%Forall_app. apply Forall_singleton, isdigit_spec in H2.
  rewrite dec_value_snoc. specialize (IH H1). lia.
Qed.

Lemma dec_value_pos c ds :
  Forall (fun c => isdigit c = true) (c :: ds) -> c <> 48 -> 0 < dec_value (c :: ds).
Proof.
  intros H Hc. induction ds as [|d ds IH] using rev_ind.
  - apply Forall_singleton, isdigit_spec in H. unfold dec_value, dec_step. cbn. lia.
  - rewrite app_comm_cons in *. apply Forall_app in H as [H1 H2].
    apply Forall_singleton, isdigit_spec in H2.
    rewrite dec_value_snoc. specialize (IH H1). lia.
Qed.

Lemma udec_dec_value ds : canonical_dec ds -> udec (dec_value ds) = ds.
Proof.
  intros (Hd & Hn & Hz). induction ds as [|c ds IH] using rev_ind; [done|].
  apply Forall_app in Hd as [H1 H2]. apply Forall_singleton, isdigit_spec in H2.
  rewrite dec_value_snoc. destruct ds as [|d ds].
  - replace (dec_value [] * 10 + (c - 48)) with (c - 48) by (unfold dec_value; cbn; lia).
    rewrite udec_small by lia. cbn. f_equal. lia.
  - assert (d <> 48) by (intros ->; specialize (Hz _ eq_refl); by destruct ds).
    pose proof (dec_value_pos d ds H1 ltac:(done)).
    replace (dec_value (d :: ds) * 10 + (c - 48))
      with ((c - 48) + dec_value (d :: ds) * 10) by lia.
    rewrite udec_step by lia.
    rewrite Z.div_add, Z.mod_add, Z.div_small, Z.mod_small by lia.
    rewrite Z.add_0_l, IH; [f_equal; f_equal; lia|done|done|congruence].
Qed.

Lemma udec_nonempty n : 0 <= n -> udec n <> [].
Proof.
  intros Hn. destruct (Z_lt_le_dec n 10).
  - by rewrite udec_small.
  - rewrite udec_step by done. by destruct (udec _).
Qed.

Lemma udec_hd n : 0 < n -> forall c ds, udec n = c :: ds -> c <> 48.
Proof.
  intros Hn. assert (0 <= n) as H0 by lia. revert n H0 Hn.
  apply (dec_ind (fun n => 0 < n -> forall c ds, udec n = c :: ds -> c <> 48)); intros n Hn.
  - intros ? c ds. rewrite udec_small by lia. intros [=]. lia.
  - intros IH _ c ds. rewrite udec_step by done.
    assert (0 < n / 10) by (apply Z.div_str_pos; lia).
    pose proof (udec_nonempty (n / 10) ltac:(lia)).
    destruct (udec (n / 10)) as [|d l] eqn:E; [done|]. intros [= <- _]. by eapply IH.
Qed.

Lemma udec_canonical n : 0 <= n -> canonical_dec (udec n).
Proof.
  intros Hn. split; [by apply udec_digits|]. split; [by apply udec_nonempty|].
  intros ds' E. destruct (decide (n = 0)) as [->|].
  - by injection E as <-.
  - by apply udec_hd in E; [|lia].
Qed.

Lemma udec_inj a b : 0 <= a -> 0 <= b -> udec a = udec b -> a = b.
Proof. intros Ha Hb E. by rewrite <- (dec_value_udec a), E, dec_value_udec. Qed.

Lemma udec_length n k : 0 <= n < 10 ^ k -> 0 < k -> len (udec n) <= k.
Proof.
  intros [H0 H1] Hk. revert n H0 k H1 Hk.
  apply (dec_ind (fun n => forall k, n < 10 ^ k -> 0 < k -> len (udec n) <= k)); intros n Hn.
  - intros k ??. rewrite udec_small by done. unfold len. cbn. lia.
  - intros IH k H1 Hk. rewrite udec_step, len_app by done.
    destruct (decide (k = 1)) as [->|]; [lia|].
    replace k with (Z.succ (k - 1)) in H1 by lia. rewrite Z.pow_succ_r in H1 by lia.
    specialize (IH (k - 1) ltac:(apply Z.div_lt_upper_bound; lia) ltac:(lia)).
    rewrite len_cons, len_nil. lia.
Qed.

#[global] Arguments udec : simpl never.
#[global] Arguments to_string : simpl never.
#[global] Arguments dec_value : simpl never.

(** * Lists *)
Lemma elem_of_filter_list {A} (f : A -> bool) l x : x ∈ List.filter f l <-> x ∈ l /\ f x = true.
Proof. rewrite !list_elem_of_In. apply List.filter_In. Qed.

Lemma Forall_take_drop {A} (P : A -> Prop) n l :
  Forall P l -> Forall P (take n l) /\ Forall P (drop n l).
Proof. intros H. rewrite <- (take_drop n l) in H. by apply Forall_app in H. Qed.

Lemma lookup_middle {A} (a b : list A) x n :
  n = length a -> (a ++ x :: b) !! n = Some x.
Proof. intros ->. by rewrite list_lookup_middle. Qed.

Lemma split_at {A} (l : list A) i x :
  l !! i = Some x -> l = take i l ++ x :: drop (S i) l.
Proof. intros H. by rewrite take_drop_middle. Qed.

(** * Automation *)
Create HintDb carrot.
Create Rewrite HintDb len.
#[export] Hint Resolve len_nonneg ble_refl blt_trans ble_trans : carrot.
#[export] Hint Rewrite @len_app @len_cons @len_nil : len.

(** Lengths of concatenations, then linear arithmetic. *)
Ltac len_lia := unfold is_i64, is_u64, is_byte, INT64_MIN, INT64_MAX, UINT64_MAX in *;
  autorewrite with len in *;
  repeat match goal with
  | |- context [len ?l] => lazymatch goal with H : 0 <= len l |- _ => fail | _ => pose proof (len_nonneg l) end
  | H : context [len ?l] |- _ => lazymatch goal with H' : 0 <= len l |- _ => fail | _ => pose proof (len_nonneg l) end
  end; lia.

(** Case analysis on a boolean comparison of integers. *)
Ltac zcase :=
  match goal with
  | |- context [?a <? ?b] => destruct (Z.ltb_spec a b)
  | |- context [?a <=? ?b] => destruct (Z.leb_spec a b)
  | |- context [?a =? ?b] => destruct (Z.eqb_spec a b)
  | |- context [?a >? ?b] => rewrite (Z.gtb_ltb a b)
  | |- context [?a >=? ?b] => rewrite (Z.geb_leb a b)
  end.

(** Follow a monadic run: split every bind of a hypothesis [m = Done _]. *)
Ltac outcome_inv :=
  repeat match goal with
  | H : (_ ≫= _) = Done _ |- _ => apply bind_inv_Done in H as (? & ? & ?)
  | H : Stuck = Done _ |- _ => discriminate H
  | H : Done _ = Done _ |- _ => injection H as H; try subst
  | H : assertb ?b = Done _ |- _ => destruct b eqn:?; [clear H|discriminate H]
  end.

Lemma between_spec a v b :
  BoolSpec (a <= v <= b) (~ (a <= v <= b)) ((a <=? v) && (v <=? b)).
Proof.
  destruct (Z.leb_spec a v), (Z.leb_spec v b); cbn; constructor; lia.
Qed.
