(* ===== verification/Utils.v ===== *)
(** [src/utils/utils.h]: conversions between decimal strings and integers, the
    case-insensitive comparison, the RESP encoders and the password digest. *)
From S2P Require Import Prelude.

(** * Numbers *)

(** The number is stored through the reference even when the result is false. *)
Fixpoint convert_positive_loop (s : list Z) (number : Z) : bool * Z :=
  match s with
  | [] => (true, number)
  | x :: s =>
      if isdigit x then convert_positive_loop s (u64 (u64 (number * 10) + (x - 48)))
      else (false, number)
  end.

Definition convert_positive_string_to_number (s : list Z) : bool * Z :=
  convert_positive_loop s 0.

(** The digit loop: [None] on overflow, else the number and the unread rest. *)
Fixpoint convert_string_loop (number : Z) (s : list Z) : option (Z * list Z) :=
  match s with
  | [] => Some (number, [])
  | x :: s' =>
      if isdigit x then
        let currDigit := x - 48 in
        if UINT64_MAX / 10 <? number then None
        else
          let number := number * 10 in
          if UINT64_MAX - currDigit <? number then None
          else convert_string_loop (number + currDigit) s'
      else Some (number, s)
  end.

Definition convert_string_to_number (s : list Z) : option Z :=
  if (len s =? 1) && bool_decide (head s = Some 48) then Some 0
  else
    let isNegative := (1 <? len s) && bool_decide (head s = Some 45) in
    let s := if isNegative then tail s else s in
    match s with
    | [] => None
    | x :: s =>
        if isdigit x then
          match convert_string_loop (x - 48) s with
          | None => None
          | Some (number, rest) =>
              if negb (len rest =? 0) then None
              else if isNegative then
                if INT64_MAX + 1 <? number then None else Some (i64 (u64 (- number)))
              else
                if INT64_MAX <? number then None else Some number
          end
        else None
    end.

(** * Text *)
Definition tolower (c : Z) : Z := if (65 <=? c) && (c <=? 90) then c + 32 else c.

Fixpoint is_equal_loop (s1 s2 : list Z) : bool :=
  match s1, s2 with
  | x :: s1, y :: s2 => if negb (tolower x =? tolower y) then false else is_equal_loop s1 s2
  | _, _ => true
  end.

Definition is_equal (s1 s2 : list Z) : bool :=
  if negb (len s1 =? len s2) then false else is_equal_loop s1 s2.

(** * RESP encoders: each appends to the buffer it is given *)
Definition CRLF : list Z := [13; 10].

Definition encode_simple_string (buffer str : list Z) : list Z :=
  buffer ++ lit "+" ++ str ++ CRLF.
Definition encode_bulk_string (buffer str : list Z) : list Z :=
  buffer ++ lit "$" ++ to_string (len str) ++ CRLF ++ str ++ CRLF.
Definition encode_null_bulk_string (buffer : list Z) : list Z := buffer ++ lit "$-1" ++ CRLF.
Definition encode_empty_array (buffer : list Z) : list Z := buffer ++ lit "*0" ++ CRLF.
Definition encode_null_array (buffer : list Z) : list Z := buffer ++ lit "*-1" ++ CRLF.
Definition encode_integer (buffer : list Z) (value : Z) : list Z :=
  buffer ++ lit ":" ++ to_string value ++ CRLF.
Definition encode_error_type (buffer message errorType : list Z) : list Z :=
  buffer ++ lit "-" ++ errorType ++ lit " " ++ message ++ CRLF.
Definition encode_error (buffer message : list Z) : list Z :=
  encode_error_type buffer message (lit "ERR").
Definition encode_array_header (buffer : list Z) (count : Z) : list Z :=
  buffer ++ lit "*" ++ to_string count ++ CRLF.
Definition encode_bulk_string_array (buffer : list Z) (items : list (list Z)) : list Z :=
  fold_left encode_bulk_string items (encode_array_header buffer (len items)).

(** One bulk string, and the header of an array, as sent. *)
Definition bulk (s : list Z) : list Z := lit "$" ++ to_string (len s) ++ CRLF ++ s ++ CRLF.
Definition header (n : Z) : list Z := lit "*" ++ to_string n ++ CRLF.

(** * [hash_sha256]: the digest of the library printed with ["%02x"] *)
Section Digest.
Context (SHA256 : list Z -> list Z).

Definition hex_digit (d : Z) : Z := if d <? 10 then 48 + d else 87 + d.
Definition hash_sha256 (input : list Z) : list Z :=
  concat (map (fun b => [hex_digit (b / 16); hex_digit (b mod 16)]) (SHA256 input)).
End Digest.

(** * Lemmas *)
Lemma convert_positive_loop_digits ds : forall v,
  Forall (fun c => isdigit c = true) ds -> 0 <= v ->
  fold_left dec_step ds v <= UINT64_MAX ->
  convert_positive_loop ds v = (true, fold_left dec_step ds v).
Proof.
  assert (Hge : forall ds v, Forall (fun c => isdigit c = true) ds -> 0 <= v ->
    v <= fold_left dec_step ds v).
  { clear ds. intros ds. induction ds as [|c ds IH]; intros v Hd Hv; cbn; [lia|].
    inversion_clear Hd as [|?? Hc Hd']. apply isdigit_spec in Hc.
    etransitivity; [|apply IH; [done|unfold dec_step; lia]]. unfold dec_step. lia. }
  induction ds as [|c ds IH]; intros v Hd Hv Hm; cbn; [done|].
  inversion_clear Hd as [|?? Hc Hd']. rewrite Hc. apply isdigit_spec in Hc. cbn in Hm.
  pose proof (Hge ds (dec_step v c) Hd' ltac:(unfold dec_step; lia)) as H1.
  change (dec_step v c) with (v * 10 + (c - 48)) in *. unfold UINT64_MAX in *.
  rewrite (u64_id (v * 10)), u64_id by lia. apply IH; [done|lia|done].
Qed.

(** The conversion inverts [std::to_string] on 64-bit numbers. *)
Lemma convert_positive_udec n :
  0 <= n <= UINT64_MAX -> convert_positive_string_to_number (udec n) = (true, n).
Proof.
  intros Hn. unfold convert_positive_string_to_number.
  rewrite convert_positive_loop_digits; [|apply udec_digits; lia|lia|];
    fold (dec_value (udec n)); rewrite dec_value_udec by lia; [done|lia].
Qed.

Lemma convert_positive_loop_ok s : forall v, is_u64 v ->
  (convert_positive_loop s v).1 = true <-> Forall (fun c => isdigit c = true) s.
Proof.
  induction s as [|c s IH]; intros v Hv; cbn; [split; [constructor|done]|].
  destruct (isdigit c) eqn:Hc; cbn [fst].
  - rewrite IH; [|pose proof (u64_bound (u64 (v * 10) + (c - 48))); unfold is_u64, UINT64_MAX; lia].
    rewrite Forall_cons. tauto.
  - rewrite Forall_cons, Hc. intuition discriminate.
Qed.

Lemma fold_dec_step_mod ds : forall a,
  fold_left dec_step ds (u64 a) mod 2 ^ 64 = fold_left dec_step ds a mod 2 ^ 64.
Proof.
  assert (Haff : forall ds, exists p q, forall a, fold_left dec_step ds a = a * p + q).
  { clear. intros ds. induction ds as [|c ds (p & q & IH)]; [exists 1, 0; intros; cbn; lia|].
    exists (10 * p), ((c - 48) * p + q). intros a. cbn. rewrite IH. unfold dec_step. ring. }
  intros a. destruct (Haff ds) as (p & q & H). rewrite !H. unfold u64.
  rewrite (Zplus_mod (_ * _)), Z.mul_mod_idemp_l, <- Zplus_mod by lia. done.
Qed.

Lemma convert_positive_loop_mod ds : forall v,
  Forall (fun c => isdigit c = true) ds ->
  convert_positive_loop ds (u64 v) = (true, u64 (fold_left dec_step ds v)).
Proof.
  induction ds as [|c ds IH]; intros v Hd; cbn; [done|].
  apply Forall_cons in Hd as [Hc Hd]. rewrite Hc.
  replace (u64 (u64 (u64 v * 10) + (c - 48))) with (u64 (dec_step v c)).
  - rewrite IH by done. done.
  - unfold u64, dec_step. rewrite Z.mul_mod_idemp_l, Zplus_mod_idemp_l by lia. done.
Qed.

Lemma convert_positive_loop_bound s : forall v, is_u64 v -> is_u64 (convert_positive_loop s v).2.
Proof.
  induction s as [|c s IH]; intros v Hv; cbn; [done|]. destruct (isdigit c); [|done].
  apply IH. pose proof (u64_bound (u64 (v * 10) + (c - 48))). unfold is_u64, UINT64_MAX. lia.
Qed.

Lemma convert_positive_bound s : is_u64 (convert_positive_string_to_number s).2.
Proof. apply convert_positive_loop_bound. unfold is_u64, UINT64_MAX. lia. Qed.

Lemma is_equal_loop_map s1 : forall s2, length s1 = length s2 ->
  is_equal_loop s1 s2 = true <-> map tolower s1 = map tolower s2.
Proof.
  induction s1 as [|x s1 IH]; intros [|y s2]; cbn; try done. intros [= Hl].
  destruct (Z.eqb_spec (tolower x) (tolower y)) as [->|]; cbn [negb].
  - rewrite IH by done. split; congruence.
  - split; congruence.
Qed.

Lemma convert_string_loop_sound p : forall v v' rest,
  convert_string_loop v p = Some (v', rest) ->
  exists ds, p = ds ++ rest /\ Forall (fun c => isdigit c = true) ds /\
             v' = fold_left dec_step ds v.
Proof.
  induction p as [|c p IH]; cbn; intros v v' rest H.
  - injection H as <- <-. by exists [].
  - destruct (isdigit c) eqn:Hc.
    + repeat case_match; try done. apply IH in H as (ds & -> & Hd & ->).
      exists (c :: ds). split_and!; [done|by constructor|done].
    + injection H as <- <-. by exists [].
Qed.

(** The integer a text denotes: an optional minus sign and decimal digits. *)
Definition denotes (s : list Z) (v : Z) : Prop :=
  exists neg ds, s = (if neg : bool then [45] else []) ++ ds /\
    Forall (fun c => isdigit c = true) ds /\ ds <> [] /\
    v = if neg then - dec_value ds else dec_value ds.

Lemma dec_value_ge ds v :
  Forall (fun c => isdigit c = true) ds -> 0 <= v -> v <= fold_left dec_step ds v.
Proof.
  revert v. induction ds as [|c ds IH]; intros v Hd Hv; cbn; [lia|].
  inversion_clear Hd as [|?? Hc Hd']. apply isdigit_spec in Hc.
  etransitivity; [|apply IH; [done|unfold dec_step; lia]]. unfold dec_step. lia.
Qed.

Lemma convert_string_loop_complete ds : forall v,
  Forall (fun c => isdigit c = true) ds -> 0 <= v ->
  convert_string_loop v ds =
    if fold_left dec_step ds v <=? UINT64_MAX then Some (fold_left dec_step ds v, [])
    else if v <=? UINT64_MAX then None else convert_string_loop v ds.
Proof.
  induction ds as [|c ds IH]; intros v Hd Hv.
  - cbn. zcase; [done|]. by destruct (Z.leb_spec v UINT64_MAX); [lia|].
  - inversion_clear Hd as [|?? Hc Hd']. apply isdigit_spec in Hc as Hc'.
    destruct (Z.leb_spec v UINT64_MAX) as [Hv'|Hv'].
    2:{ pose proof (dec_value_ge (c :: ds) v ltac:(by constructor) Hv).
        destruct (Z.leb_spec (fold_left dec_step (c :: ds) v) UINT64_MAX); [lia|done]. }
    cbn [convert_string_loop fold_left]. rewrite Hc.
    pose proof (dec_value_ge ds (dec_step v c) Hd' ltac:(unfold dec_step; lia)) as Hge.
    change (dec_step v c) with (v * 10 + (c - 48)) in *.
    unfold UINT64_MAX in *. change (18446744073709551615 / 10) with 1844674407370955161.
    destruct (Z.ltb_spec 1844674407370955161 v) as [H1|H1].
    { by destruct (Z.leb_spec (fold_left dec_step ds (v * 10 + (c - 48))) 18446744073709551615); [lia|]. }
    destruct (Z.ltb_spec (18446744073709551615 - (c - 48)) (v * 10)) as [H2|H2].
    { by destruct (Z.leb_spec (fold_left dec_step ds (v * 10 + (c - 48))) 18446744073709551615); [lia|]. }
    rewrite IH by (done || lia).
    destruct (Z.leb_spec (fold_left dec_step ds (v * 10 + (c - 48))) 18446744073709551615); [done|].
    by destruct (Z.leb_spec (v * 10 + (c - 48)) 18446744073709551615); [|lia].
Qed.

Lemma i64_u64_neg n : 0 <= n <= INT64_MAX + 1 -> i64 (u64 (- n)) = - n.
Proof.
  intros Hn. unfold i64, u64. rewrite Zplus_mod_idemp_l.
  fold (i64 (- n)). apply i64_id. unfold is_i64, INT64_MIN, INT64_MAX in *. lia.
Qed.

Lemma convert_string_sound s v :
  convert_string_to_number s = Some v -> denotes s v /\ is_i64 v.
Proof.
  unfold convert_string_to_number.
  destruct ((len s =? 1) && _) eqn:H1.
  { intros [= <-]. apply andb_true_iff in H1 as [H1 H2]. apply Z.eqb_eq in H1.
    apply bool_decide_eq_true in H2. destruct s as [|c [|]]; [done| |len_lia].
    injection H2 as ->. split; [|len_lia]. exists false, [48]. by repeat constructor. }
  set (neg := (1 <? len s) && bool_decide (head s = Some 45)).
  assert (Hs : s = (if neg then [45] else []) ++ (if neg then tail s else s)).
  { subst neg. destruct (1 <? len s); cbn [andb]; [|done].
    destruct (bool_decide_reflect (head s = Some 45)) as [E|]; [|done].
    destruct s; cbn in *; congruence. }
  destruct (if neg then tail s else s) as [|x p]; [done|].
  destruct (isdigit x) eqn:Hx; [|done]. apply isdigit_spec in Hx as Hx'.
  destruct (convert_string_loop (x - 48) p) as [[n rest]|] eqn:E; [|done].
  apply convert_string_loop_sound in E as (ds & -> & Hds & Hn).
  destruct (Z.eqb_spec (len rest) 0) as [Hr|]; [|done]. cbn [negb].
  apply len_0 in Hr. subst rest. rewrite app_nil_r in *.
  change (fold_left dec_step ds (x - 48)) with (dec_value (x :: ds)) in Hn.
  assert (Hd : Forall (fun c => isdigit c = true) (x :: ds)) by (by constructor).
  pose proof (dec_value_nonneg _ Hd) as H0. rewrite <- Hn in H0.
  assert (Hden : forall w, n <= INT64_MAX + (if neg then 1 else 0) -> w = (if neg then - n else n) ->
    denotes s w /\ is_i64 w).
  { intros w Hw ->. split; [exists neg, (x :: ds); subst n; by destruct neg|].
    unfold is_i64, INT64_MIN, INT64_MAX in *. destruct neg; lia. }
  destruct neg; zcase; intros [= <-]; apply Hden; try lia.
  apply i64_u64_neg. lia.
Qed.

Lemma convert_string_complete s v :
  denotes s v /\ is_i64 v -> convert_string_to_number s = Some v.
Proof.
  unfold convert_string_to_number.
  intros [(neg & ds & -> & Hd & Hne & ->) Hb]. destruct ds as [|x ds]; [done|].
  apply Forall_cons in Hd as Hx. destruct Hx as [Hx Hds]. apply isdigit_spec in Hx as Hx'.
  pose proof (dec_value_nonneg _ Hd) as H0. set (n := dec_value (x :: ds)) in *.
  assert (Hn : n = fold_left dec_step ds (x - 48)) by done.
  assert (Hloop : n <= INT64_MAX + 1 -> convert_string_loop (x - 48) ds = Some (n, [])).
  { intros Hle. rewrite convert_string_loop_complete by (done || lia). rewrite <- Hn.
    destruct (Z.leb_spec n UINT64_MAX); [done|unfold UINT64_MAX, INT64_MAX in *; lia]. }
  unfold is_i64, INT64_MIN, INT64_MAX in *. destruct neg; cbn [app head tail].
  + rewrite (bool_decide_false (Some 45 = Some 48)) by done. rewrite andb_false_r.
    rewrite bool_decide_true by done.
    destruct (Z.ltb_spec 1 (len (45 :: x :: ds))); [|len_lia]. cbn [andb].
    rewrite Hx, Hloop by lia. change (negb (len [] =? 0)) with false. cbv iota.
    destruct (Z.ltb_spec (9223372036854775807 + 1) n); [lia|].
    rewrite i64_u64_neg; [done|unfold INT64_MAX; lia].
  + destruct ((len (x :: ds) =? 1) && bool_decide (Some x = Some 48)) eqn:H1.
    { apply andb_true_iff in H1 as [H1 H2]. apply Z.eqb_eq in H1.
      apply bool_decide_eq_true in H2. injection H2 as ->. destruct ds; [done|len_lia]. }
    rewrite (bool_decide_false (Some x = Some 45)) by (intros [=]; lia). rewrite andb_false_r.
    rewrite Hx, Hloop by lia. change (negb (len [] =? 0)) with false. cbv iota.
    by destruct (Z.ltb_spec 9223372036854775807 n); [lia|].
Qed.

(** A printed integer is read back. *)
Lemma convert_to_string n : is_i64 n -> convert_string_to_number (to_string n) = Some n.
Proof.
  intros Hn. apply convert_string_complete. split; [|done]. unfold to_string.
  destruct (Z.ltb_spec n 0).
  - exists true, (udec (- n)). split_and!; [done|apply udec_digits; lia|apply udec_nonempty; lia|].
    rewrite dec_value_udec; lia.
  - exists false, (udec n). split_and!; [done|apply udec_digits; lia|apply udec_nonempty; lia|].
    rewrite dec_value_udec; lia.
Qed.

(** * Properties *)

(** [convert_string_to_number] accepts exactly the texts that denote a
    64-bit integer (an optional minus sign and at least one digit, leading
    zeros allowed) and returns the number they denote; overflow, signs and
    stray characters are refused. *)
Theorem convert_string_to_number_exact s v :
  convert_string_to_number s = Some v <-> denotes s v /\ is_i64 v.
Proof. split; [apply convert_string_sound|apply convert_string_complete]. Qed.

(** [is_equal] is equality up to ASCII case, so it is an equivalence. *)
Theorem is_equal_spec s1 s2 :
  is_equal s1 s2 = bool_decide (map tolower s1 = map tolower s2).
Proof.
  unfold is_equal. destruct (Z.eqb_spec (len s1) (len s2)) as [Hl|Hl]; cbn [negb].
  - apply Bool.eq_iff_eq_true. rewrite bool_decide_eq_true. apply is_equal_loop_map.
    unfold len in Hl. lia.
  - symmetry. apply bool_decide_eq_false. intros E. apply (f_equal length) in E.
    rewrite !length_map in E. unfold len in Hl. lia.
Qed.

(** stream IDs and counts are parsed without an overflow check.  The
    parser accepts exactly the strings of digits, the empty one included, and
    yields their value modulo 2 to the 64. *)
Theorem convert_positive_wraps s :
  (convert_positive_string_to_number s).1 = bool_decide (Forall (fun c => isdigit c = true) s) /\
  (Forall (fun c => isdigit c = true) s ->
   convert_positive_string_to_number s = (true, u64 (dec_value s))).
Proof.
  split.
  - apply Bool.eq_iff_eq_true. rewrite bool_decide_eq_true.
    apply convert_positive_loop_ok. unfold is_u64, UINT64_MAX. lia.
  - intros Hd. apply (convert_positive_loop_mod s 0 Hd).
Qed.

Lemma convert_positive_wraps_witness :
  convert_positive_string_to_number (lit "18446744073709551617") = (true, 1).
Proof.
  rewrite (proj2 (convert_positive_wraps (lit "18446744073709551617")) ltac:(repeat constructor)).
  vm_compute. reflexivity.
Defined.
