(* ===== verification/ListpackCodec.v ===== *)
(** Encoding of one listpack entry ([src/listpack.h], first half of
    [src/listpack.cpp]): the header-byte tests, the conversion of a string to a
    64-bit integer, the integer and string encodings, the backward length, and
    the functions that read them back from memory.  The theorems say that the
    decoders invert the encoders and that the integer conversion loses no byte. *)
From S2P Require Import Prelude.

(** * Constants and header-byte tests of [listpack.h] *)
Definition LP_HEADER_SIZE : Z := 6.
Definition LP_HDR_NUMELE_UNKNOWN : Z := UINT16_MAX.
Definition LP_EOF : Z := 255.
Definition LISTPACK_MAX_SAFETY_SIZE : Z := 1073741824.
Definition MAX_LONG_INT_STR_LEN : Z := 21.

Definition LP_ENCODING_IS_7_BIT_UINT (b : Z) : bool := Z.land 128 b =? 0.
Definition LP_ENCODING_IS_13_BIT_INT (b : Z) : bool := Z.land 224 b =? 192.
Definition LP_ENCODING_IS_16_BIT_INT (b : Z) : bool := Z.land 255 b =? 241.
Definition LP_ENCODING_IS_24_BIT_INT (b : Z) : bool := Z.land 255 b =? 242.
Definition LP_ENCODING_IS_32_BIT_INT (b : Z) : bool := Z.land 255 b =? 243.
Definition LP_ENCODING_IS_64_BIT_INT (b : Z) : bool := Z.land 255 b =? 244.
Definition LP_ENCODING_IS_6_BIT_STR (b : Z) : bool := Z.land 192 b =? 128.
Definition LP_ENCODING_IS_12_BIT_STR (b : Z) : bool := Z.land 240 b =? 224.
Definition LP_ENCODING_IS_32_BIT_STR (b : Z) : bool := Z.land 255 b =? 240.

Definition LP_ENCODING_6_BIT_STR_LEN (m : list Z) (p : Z) : outcome Z :=
  b0 ← rd m p; mret (Z.land b0 63).

Definition LP_ENCODING_12_BIT_STR_LEN (m : list Z) (p : Z) : outcome Z :=
  b0 ← rd m p; b1 ← rd m (p + 1);
  mret (Z.lor (Z.shiftl (Z.land b0 15) 8) b1).

Definition LP_ENCODING_32_BIT_STR_LEN (m : list Z) (p : Z) : outcome Z :=
  b1 ← rd m (p + 1); b2 ← rd m (p + 2); b3 ← rd m (p + 3); b4 ← rd m (p + 4);
  mret (Z.lor (Z.lor (Z.lor b1 (u32 (Z.shiftl b2 8))) (u32 (Z.shiftl b3 16)))
          (u32 (Z.shiftl b4 24))).

(** * [lpStringToInt64] *)

(** The digit loop: [None] is the early [return 0] on overflow, otherwise the
    value and the unread rest. *)
Fixpoint lpDigits (v : Z) (p : list Z) : option (Z * list Z) :=
  match p with
  | [] => Some (v, [])
  | c :: p' =>
      if isdigit c then
        if UINT64_MAX / 10 <? v then None
        else
          let v := v * 10 in
          if UINT64_MAX - (c - 48) <? v then None
          else lpDigits (v + (c - 48)) p'
      else Some (v, p)
  end.

Definition lpStringToInt64 (s : list Z) : option Z :=
  if (len s =? 0) || (MAX_LONG_INT_STR_LEN <=? len s) then None
  else if (len s =? 1) && bool_decide (head s = Some 48) then Some 0
  else
    let isNegative := bool_decide (head s = Some 45) in
    let p := if isNegative then tail s else s in
    match p with
    | [] => None
    | c :: p' =>
        if (49 <=? c) && (c <=? 57) then
          match lpDigits (c - 48) p' with
          | None => None
          | Some (v, rest) =>
              if negb (len rest =? 0) then None
              else if isNegative then
                if INT64_MAX + 1 <? v then None else Some (i64 (u64 (- v)))
              else
                if INT64_MAX <? v then None else Some v
          end
        else None
    end.

(** * Encoders *)

(** [lpEncodeIntegerGetType]: the bytes stored in [intenc]; [*enclen] is their
    number.  Every store goes to an [unsigned char]. *)
Definition lpEncodeIntegerGetType (v : Z) : list Z :=
  if (0 <=? v) && (v <=? 127) then [u8 v]
  else if (-4096 <=? v) && (v <=? 4095) then
    let v := if v <? 0 then Z.shiftl 1 13 + v else v in
    [u8 (Z.lor (Z.shiftr v 8) 192); Z.land v 255]
  else if (-32768 <=? v) && (v <=? 32767) then
    let v := if v <? 0 then Z.shiftl 1 16 + v else v in
    [241; Z.land v 255; u8 (Z.shiftr v 8)]
  else if (-8388608 <=? v) && (v <=? 8388607) then
    let v := if v <? 0 then Z.shiftl 1 24 + v else v in
    [242; Z.land v 255; Z.land (Z.shiftr v 8) 255; u8 (Z.shiftr v 16)]
  else if (-2147483648 <=? v) && (v <=? 2147483647) then
    let v := if v <? 0 then Z.shiftl 1 32 + v else v in
    [243; Z.land v 255; Z.land (Z.shiftr v 8) 255; Z.land (Z.shiftr v 16) 255;
     u8 (Z.shiftr v 24)]
  else
    let uv := u64 v in
    [244; Z.land uv 255; Z.land (Z.shiftr uv 8) 255; Z.land (Z.shiftr uv 16) 255;
     Z.land (Z.shiftr uv 24) 255; Z.land (Z.shiftr uv 32) 255;
     Z.land (Z.shiftr uv 40) 255; Z.land (Z.shiftr uv 48) 255;
     u8 (Z.shiftr uv 56)].

Inductive lp_encoding := LP_ENCODING_INT | LP_ENCODING_STRING.

(** [lpEncodeGetType]: encoding kind, [intenc] (meaningful for an integer) and
    [*enclen]. *)
Definition lpEncodeGetType (ele : list Z) : lp_encoding * list Z * Z :=
  let size := len ele in
  match lpStringToInt64 ele with
  | Some v =>
      let intenc := lpEncodeIntegerGetType v in
      (LP_ENCODING_INT, intenc, len intenc)
  | None =>
      (LP_ENCODING_STRING, [],
       if size <? 64 then 1 + size
       else if size <? 4096 then 2 + size
       else 5 + size)
  end.

(** The bytes [lpEncodeString] writes at [buf]. *)
Definition lpEncodeString (s : list Z) : list Z :=
  let n := len s in
  if n <? 64 then u8 (Z.lor n 128) :: s
  else if n <? 4096 then
    u8 (Z.lor (Z.shiftr n 8) 224) :: Z.land n 255 :: s
  else
    240 :: Z.land n 255 :: Z.land (Z.shiftr n 8) 255 :: Z.land (Z.shiftr n 16) 255
      :: Z.land (Z.shiftr n 24) 255 :: s.

(** The bytes [lpEncodeBacklen] writes (its result is their number). *)
Definition lpEncodeBacklen (l : Z) : list Z :=
  if l <=? 127 then [u8 l]
  else if l <? 16383 then [u8 (Z.shiftr l 7); Z.lor (Z.land l 127) 128]
  else if l <? 2097151 then
    [u8 (Z.shiftr l 14); Z.lor (Z.land (Z.shiftr l 7) 127) 128; Z.lor (Z.land l 127) 128]
  else if l <? 268435455 then
    [u8 (Z.shiftr l 21); Z.lor (Z.land (Z.shiftr l 14) 127) 128;
     Z.lor (Z.land (Z.shiftr l 7) 127) 128; Z.lor (Z.land l 127) 128]
  else
    [u8 (Z.shiftr l 28); Z.lor (Z.land (Z.shiftr l 21) 127) 128;
     Z.lor (Z.land (Z.shiftr l 14) 127) 128; Z.lor (Z.land (Z.shiftr l 7) 127) 128;
     Z.lor (Z.land l 127) 128].

Definition lpEncodeBacklenBytes (l : Z) : Z :=
  if l <=? 127 then 1
  else if l <? 16383 then 2
  else if l <? 2097151 then 3
  else if l <? 268435455 then 4
  else 5.

(** * Decoders *)

(** [lpDecodeBacklen], one unit of [fuel] per loop iteration: the loop leaves
    after the fifth byte at the latest, so five units are enough. *)
Fixpoint lpDecodeBacklen_loop (fuel : nat) (m : list Z) (p shift value : Z) : outcome Z :=
  match fuel with
  | O => mret UINT64_MAX
  | S fuel =>
      b ← rd m p;
      let value := Z.lor (u64 (Z.shiftl (Z.land b 127) shift)) value in
      if Z.land b 128 =? 0 then mret value
      else
        let shift := u8 (shift + 7) in
        if 28 <? shift then mret UINT64_MAX
        else lpDecodeBacklen_loop fuel m (p - 1) shift value
  end.

Definition lpDecodeBacklen (m : list Z) (p : Z) : outcome Z :=
  lpDecodeBacklen_loop 5 m p 0 0.

(** Bytes of header and payload of the entry at [p]; 0 when the header byte is
    no known encoding.  The result type is [uint32_t]. *)
Definition lpCurrentEncodedSizeUnsafe (m : list Z) (p : Z) : outcome Z :=
  b ← rd m p;
  if LP_ENCODING_IS_7_BIT_UINT b then mret 1
  else if LP_ENCODING_IS_13_BIT_INT b then mret 2
  else if LP_ENCODING_IS_16_BIT_INT b then mret 3
  else if LP_ENCODING_IS_24_BIT_INT b then mret 4
  else if LP_ENCODING_IS_32_BIT_INT b then mret 5
  else if LP_ENCODING_IS_64_BIT_INT b then mret 9
  else if LP_ENCODING_IS_6_BIT_STR b then
    n ← LP_ENCODING_6_BIT_STR_LEN m p; mret (u32 (1 + n))
  else if LP_ENCODING_IS_12_BIT_STR b then
    n ← LP_ENCODING_12_BIT_STR_LEN m p; mret (u32 (2 + n))
  else if LP_ENCODING_IS_32_BIT_STR b then
    n ← LP_ENCODING_32_BIT_STR_LEN m p; mret (u32 (5 + n))
  else if b =? LP_EOF then mret 1
  else mret 0.

(** Bytes of the header of the entry at [p] only. *)
Definition lpCurrentEncodedSizeBytes (m : list Z) (p : Z) : outcome Z :=
  b ← rd m p;
  mret (if LP_ENCODING_IS_7_BIT_UINT b then 1
        else if LP_ENCODING_IS_13_BIT_INT b then 1
        else if LP_ENCODING_IS_16_BIT_INT b then 1
        else if LP_ENCODING_IS_24_BIT_INT b then 1
        else if LP_ENCODING_IS_32_BIT_INT b then 1
        else if LP_ENCODING_IS_6_BIT_STR b then 1
        else if LP_ENCODING_IS_12_BIT_STR b then 2
        else if LP_ENCODING_IS_32_BIT_STR b then 5
        else if b =? LP_EOF then 1
        else 0).

(** The value branch at the end of [lpGetWithSize]: two's complement of the
    width given by [negstart] and [negmax]. *)
Definition lpIntResult (uval negstart negmax : Z) : Z :=
  if negstart <=? uval then - i64 (u64 (negmax - uval)) - 1 else i64 uval.

(** [lpGetWithSize]: the result pointer ([None] is [nullptr]), and the values
    stored through [count] and [entry_size] ([None]: not written). *)
Definition lpGetWithSize (m : list Z) (p : option Z)
  : outcome (option Z * option Z * option Z) :=
  match p with
  | None => mret (None, None, None)
  | Some p =>
      b0 ← rd m p;
      let int_res uval negstart negmax (size : option Z) :=
        mret (None, Some (lpIntResult uval negstart negmax), size) in
      if LP_ENCODING_IS_7_BIT_UINT b0 then
        int_res (Z.land b0 127) UINT64_MAX 0 (Some 2)
      else if LP_ENCODING_IS_6_BIT_STR b0 then
        n ← LP_ENCODING_6_BIT_STR_LEN m p;
        mret (Some (p + 1), Some n, Some (1 + n + lpEncodeBacklenBytes (n + 1)))
      else if LP_ENCODING_IS_13_BIT_INT b0 then
        b1 ← rd m (p + 1);
        int_res (Z.lor (Z.shiftl (Z.land b0 31) 8) b1) (Z.shiftl 1 12) 8191 (Some 3)
      else if LP_ENCODING_IS_16_BIT_INT b0 then
        b1 ← rd m (p + 1); b2 ← rd m (p + 2);
        int_res (Z.lor b1 (Z.shiftl b2 8)) (Z.shiftl 1 15) UINT16_MAX (Some 4)
      else if LP_ENCODING_IS_24_BIT_INT b0 then
        b1 ← rd m (p + 1); b2 ← rd m (p + 2); b3 ← rd m (p + 3);
        int_res (Z.lor (Z.lor b1 (Z.shiftl b2 8)) (Z.shiftl b3 16))
          (Z.shiftl 1 23) (Z.shiftr UINT32_MAX 8) (Some 5)
      else if LP_ENCODING_IS_32_BIT_INT b0 then
        b1 ← rd m (p + 1); b2 ← rd m (p + 2); b3 ← rd m (p + 3); b4 ← rd m (p + 4);
        int_res (Z.lor (Z.lor (Z.lor b1 (Z.shiftl b2 8)) (Z.shiftl b3 16)) (Z.shiftl b4 24))
          (Z.shiftl 1 31) UINT32_MAX (Some 6)
      else if LP_ENCODING_IS_64_BIT_INT b0 then
        b1 ← rd m (p + 1); b2 ← rd m (p + 2); b3 ← rd m (p + 3); b4 ← rd m (p + 4);
        b5 ← rd m (p + 5); b6 ← rd m (p + 6); b7 ← rd m (p + 7); b8 ← rd m (p + 8);
        int_res
          (Z.lor (Z.lor (Z.lor (Z.lor (Z.lor (Z.lor (Z.lor b1
            (Z.shiftl b2 8)) (Z.shiftl b3 16)) (Z.shiftl b4 24)) (Z.shiftl b5 32))
            (Z.shiftl b6 40)) (Z.shiftl b7 48)) (Z.shiftl b8 56))
          (Z.shiftl 1 63) UINT64_MAX (Some 10)
      else if LP_ENCODING_IS_12_BIT_STR b0 then
        n ← LP_ENCODING_12_BIT_STR_LEN m p;
        mret (Some (p + 2), Some n, Some (2 + n + lpEncodeBacklenBytes (n + 2)))
      else if LP_ENCODING_IS_32_BIT_STR b0 then
        n ← LP_ENCODING_32_BIT_STR_LEN m p;
        mret (Some (p + 5), Some n, Some (5 + n + lpEncodeBacklenBytes (n + 5)))
      else
        int_res (12345678900000000 + b0) UINT64_MAX 0 None
  end.

(** * Entries *)

(** What a listpack element holds: an integer, or a byte string that is not
    the decimal form of one. *)
Inductive entry := EInt (v : Z) | EStr (s : list Z).

#[global] Instance entry_eq_dec : EqDecision entry.
Proof. solve_decision. Defined.

Definition entry_encode (e : entry) : list Z :=
  match e with EInt v => lpEncodeIntegerGetType v | EStr s => lpEncodeString s end.

(** How [lpInsert] files a string. *)
Definition entry_of_bytes (s : list Z) : entry :=
  match lpStringToInt64 s with Some v => EInt v | None => EStr s end.

(** The string a command handler rebuilds from an element. *)
Definition entry_bytes (e : entry) : list Z :=
  match e with EInt v => to_string v | EStr s => s end.

Definition entry_wf (e : entry) : Prop :=
  match e with
  | EInt v => is_i64 v
  | EStr s => Forall is_byte s /\ len s + 5 < 2 ^ 32
  end.

(** Whole entry in memory: encoding followed by its backward length. *)
Definition entry_layout (e : entry) : list Z :=
  entry_encode e ++ lpEncodeBacklen (len (entry_encode e)).

(** * Header bytes, by exhaustion over the 256 values *)
Definition byte_range (lo : Z) (n : nat) : list Z := map (fun k => lo + Z.of_nat k) (seq 0 n).

Lemma byte_range_decide (P : Z -> Prop) {dec : forall b, Decision (P b)} lo n :
  forallb (fun b => bool_decide (P b)) (byte_range lo n) = true ->
  forall b, lo <= b < lo + Z.of_nat n -> P b.
Proof.
  intros H b Hb. rewrite forallb_forall in H. apply (bool_decide_eq_true_1 _), H.
  apply in_map_iff. exists (Z.to_nat (b - lo)). split; [lia|]. apply in_seq. lia.
Qed.

Definition header_tests (b : Z) : list bool :=
  [LP_ENCODING_IS_7_BIT_UINT b; LP_ENCODING_IS_13_BIT_INT b;
   LP_ENCODING_IS_16_BIT_INT b; LP_ENCODING_IS_24_BIT_INT b;
   LP_ENCODING_IS_32_BIT_INT b; LP_ENCODING_IS_64_BIT_INT b;
   LP_ENCODING_IS_6_BIT_STR b; LP_ENCODING_IS_12_BIT_STR b;
   LP_ENCODING_IS_32_BIT_STR b; b =? LP_EOF].

Definition only (i : nat) : list bool := map (fun k => bool_decide (k = i)) (seq 0 10).

Ltac by_bytes P lo n :=
  apply (byte_range_decide P lo n); [vm_compute; reflexivity | lia].

Lemma header_7bit v : 0 <= v <= 127 ->
  header_tests (u8 v) = only 0 /\ Z.land (u8 v) 127 = v.
Proof.
  intros. by_bytes (fun v => header_tests (u8 v) = only 0 /\ Z.land (u8 v) 127 = v) 0 128%nat.
Qed.

Lemma header_13bit h : 0 <= h <= 31 ->
  header_tests (u8 (Z.lor h 192)) = only 1 /\ Z.land (u8 (Z.lor h 192)) 31 = h.
Proof.
  intros. by_bytes (fun h => header_tests (u8 (Z.lor h 192)) = only 1 /\
                             Z.land (u8 (Z.lor h 192)) 31 = h) 0 32%nat.
Qed.

Lemma header_6str n : 0 <= n < 64 ->
  header_tests (u8 (Z.lor n 128)) = only 6 /\ Z.land (u8 (Z.lor n 128)) 63 = n.
Proof.
  intros. by_bytes (fun n => header_tests (u8 (Z.lor n 128)) = only 6 /\
                             Z.land (u8 (Z.lor n 128)) 63 = n) 0 64%nat.
Qed.

Lemma header_12str n : 0 <= n < 16 ->
  header_tests (u8 (Z.lor n 224)) = only 7 /\ Z.land (u8 (Z.lor n 224)) 15 = n.
Proof.
  intros. by_bytes (fun n => header_tests (u8 (Z.lor n 224)) = only 7 /\
                             Z.land (u8 (Z.lor n 224)) 15 = n) 0 16%nat.
Qed.

(** * Little-endian numbers *)
Fixpoint le_combine (bs : list Z) : Z :=
  match bs with [] => 0 | b :: r => b + 256 * le_combine r end.

Lemma lor_disjoint a b n :
  0 <= n -> 0 <= a < 2 ^ n -> Z.lor a (Z.shiftl b n) = a + b * 2 ^ n.
Proof.
  intros Hn Ha.
  assert (Hd : Z.land a (Z.shiftl b n) = 0).
  { apply Z.bits_inj'. intros k Hk. rewrite Z.land_spec, Z.bits_0.
    destruct (Z.lt_ge_cases k n).
    - rewrite Z.shiftl_spec_low by lia. apply andb_false_r.
    - rewrite <- (Z.mod_small a (2 ^ n)), Z.mod_pow2_bits_high by lia. done. }
  rewrite <- Z.lxor_lor, <- Z.add_nocarry_lxor by done.
  by rewrite Z.shiftl_mul_pow2.
Qed.

Lemma land_127 v : Z.land v 127 = v mod 128.
Proof. apply (Z.land_ones v 7). lia. Qed.

(** * Integers and strings: the conversion is exact *)
Lemma i64_u64 z : i64 (u64 z) = i64 z.
Proof. unfold i64, u64. by rewrite Zplus_mod_idemp_l. Qed.

Lemma fold_dec_ge ds v :
  Forall (fun c => isdigit c = true) ds -> 0 <= v -> v <= fold_left dec_step ds v.
Proof.
  revert v. induction ds as [|c ds IH]; intros v Hd Hv; cbn; [lia|].
  inversion_clear Hd as [|?? Hc Hd']. apply isdigit_spec in Hc.
  unfold dec_step at 2. etransitivity; [|apply IH; [done|lia]]. lia.
Qed.

Lemma lpDigits_sound p v v' rest :
  lpDigits v p = Some (v', rest) ->
  exists ds, p = ds ++ rest /\ Forall (fun c => isdigit c = true) ds /\
             v' = fold_left dec_step ds v.
Proof.
  revert v. induction p as [|c p IH]; cbn; intros v H.
  - injection H as <- <-. by exists [].
  - destruct (isdigit c) eqn:Hc.
    + repeat case_match; try done. apply IH in H as (ds & -> & Hd & ->).
      exists (c :: ds). split_and!; [done|by constructor|done].
    + injection H as <- <-. by exists [].
Qed.

Lemma lpDigits_complete ds v :
  Forall (fun c => isdigit c = true) ds -> 0 <= v ->
  fold_left dec_step ds v <= UINT64_MAX ->
  lpDigits v ds = Some (fold_left dec_step ds v, []).
Proof.
  revert v. induction ds as [|c ds IH]; intros v Hd Hv Hm; cbn; [done|].
  inversion_clear Hd as [|?? Hc Hd']. rewrite Hc. apply isdigit_spec in Hc.
  cbn in Hm.
  assert (v * 10 + (c - 48) <= fold_left dec_step ds (dec_step v c))
    by (apply fold_dec_ge; [done|unfold dec_step; lia]).
  unfold UINT64_MAX in *.
  change (18446744073709551615 / 10) with 1844674407370955161.
  destruct (Z.ltb_spec 1844674407370955161 v) as [Hlt|_]; [lia|].
  destruct (Z.ltb_spec (18446744073709551615 - (c - 48)) (v * 10)) as [Hlt|_]; [lia|].
  rewrite IH; unfold dec_step; (done || lia).
Qed.

Lemma dec_value_cons c ds : dec_value (c :: ds) = fold_left dec_step ds (c - 48).
Proof. unfold dec_value. cbn. f_equal. Qed.

Lemma lpStringToInt64_sound s v :
  lpStringToInt64 s = Some v -> to_string v = s /\ is_i64 v.
Proof.
  unfold lpStringToInt64. intros H.
  destruct ((len s =? 0) || _); [done|].
  destruct ((len s =? 1) && _) eqn:H1.
  { injection H as <-. apply andb_true_iff in H1 as [H1 H2].
    apply Z.eqb_eq in H1. apply bool_decide_eq_true in H2.
    destruct s as [|c [|]]; [done| |len_lia]. injection H2 as ->.
    split; [done|len_lia]. }
  set (neg := bool_decide (head s = Some 45)) in *.
  assert (Hs : s = if neg then 45 :: tail s else s).
  { subst neg. case_bool_decide as E; [|done]. destruct s; cbn in *; congruence. }
  destruct (if neg then tail s else s) as [|c p] eqn:Hp; [done|].
  destruct ((49 <=? c) && (c <=? 57)) eqn:Hc; [|done].
  apply andb_true_iff in Hc. rewrite !Z.leb_le in Hc.
  destruct (lpDigits (c - 48) p) as [[n rest]|] eqn:Hd; [|done].
  apply lpDigits_sound in Hd as (ds & -> & Hds & Hn).
  destruct (Z.eqb_spec (len rest) 0) as [Hr|]; [|done]. cbn in H.
  apply len_0 in Hr. subst rest. rewrite app_nil_r in *.
  rewrite <- dec_value_cons in Hn.
  assert (Hcd : Forall (fun c => isdigit c = true) (c :: ds))
    by (constructor; [apply isdigit_spec; lia|done]).
  pose proof (dec_value_pos c ds Hcd ltac:(lia)) as Hpos.
  assert (Hu : udec n = c :: ds).
  { subst n. apply udec_dec_value. split_and!; [done|done|]. intros ? [= -> _]. lia. }
  unfold INT64_MAX, to_string, is_i64, INT64_MIN in *.
  destruct neg; [destruct (Z.ltb_spec (9223372036854775807 + 1) n)
                |destruct (Z.ltb_spec 9223372036854775807 n)];
    try done; injection H as <-.
  - rewrite i64_u64, i64_id by (unfold is_i64, INT64_MIN, INT64_MAX; lia).
    destruct (Z.ltb_spec (- n) 0); [|lia].
    rewrite Z.opp_involutive, Hu, Hs, Hp. split; [done|unfold INT64_MAX; lia].
  - destruct (Z.ltb_spec n 0); [lia|]. rewrite Hu, <- Hp. split; [done|unfold INT64_MAX; lia].
Qed.

(** A positive number of at most 19 digits, read back by the digit loop. *)
Lemma udec_lpDigits a :
  0 < a <= INT64_MAX + 1 ->
  exists c ds, udec a = c :: ds /\ 49 <= c <= 57 /\ len ds <= 18 /\
               lpDigits (c - 48) ds = Some (a, []).
Proof.
  unfold INT64_MAX. intros Ha.
  pose proof (udec_length a 19 ltac:(lia) ltac:(lia)) as Hlen.
  pose proof (udec_digits a ltac:(lia)) as Hd.
  pose proof (dec_value_udec a ltac:(lia)) as Hval.
  pose proof (udec_hd a ltac:(lia)) as Hhd.
  pose proof (udec_nonempty a ltac:(lia)) as Hne.
  destruct (udec a) as [|c ds] eqn:E; [done|]. exists c, ds.
  inversion_clear Hd as [|?? Hc Hds]. apply isdigit_spec in Hc.
  specialize (Hhd _ _ eq_refl). rewrite len_cons in Hlen.
  split_and!; [done|lia|lia|lia|].
  rewrite dec_value_cons in Hval. rewrite <- Hval.
  apply lpDigits_complete; [done|lia|]. unfold UINT64_MAX. lia.
Qed.

Lemma lpStringToInt64_complete v :
  is_i64 v -> lpStringToInt64 (to_string v) = Some v.
Proof.
  intros Hv. destruct (decide (v = 0)) as [->|Hv0]; [done|].
  unfold lpStringToInt64, to_string, MAX_LONG_INT_STR_LEN.
  destruct (udec_lpDigits (Z.abs v)) as (c & ds & E & Hc & Hl & Hd).
  { unfold is_i64, INT64_MIN, INT64_MAX in *. lia. }
  pose proof (len_nonneg ds).
  destruct (Z.ltb_spec v 0); [rewrite Z.abs_neq in E, Hd by lia|rewrite Z.abs_eq in E, Hd by lia];
    rewrite E, !len_cons; cbn [head tail].
  - destruct (Z.eqb_spec (1 + (1 + len ds)) 0); [lia|].
    destruct (Z.leb_spec 21 (1 + (1 + len ds))); [lia|].
    destruct (Z.eqb_spec (1 + (1 + len ds)) 1); [lia|]. cbn [orb andb].
    rewrite bool_decide_true by done.
    destruct (Z.leb_spec 49 c); [|lia]. destruct (Z.leb_spec c 57); [|lia]. cbn [andb].
    rewrite Hd, len_nil. change (negb (0 =? 0)) with false. cbv iota.
    assert (Hb := Hv). unfold is_i64, INT64_MIN, INT64_MAX in Hb. unfold INT64_MAX.
    destruct (Z.ltb_spec (9223372036854775807 + 1) (- v)); [lia|].
    by rewrite Z.opp_involutive, i64_u64, i64_id.
  - destruct (Z.eqb_spec (1 + len ds) 0); [lia|].
    destruct (Z.leb_spec 21 (1 + len ds)); [lia|]. cbn [orb].
    rewrite (bool_decide_false (Some c = Some 48)) by (intros [=]; lia). rewrite andb_false_r.
    rewrite (bool_decide_false (Some c = Some 45)) by (intros [=]; lia).
    destruct (Z.leb_spec 49 c); [|lia]. destruct (Z.leb_spec c 57); [|lia]. cbn [andb].
    rewrite Hd, len_nil. change (negb (0 =? 0)) with false. cbv iota.
    unfold is_i64, INT64_MIN, INT64_MAX in *.
    destruct (Z.ltb_spec 9223372036854775807 v); [lia|done].
Qed.

(** * Integer payloads *)
Fixpoint le_split (n : nat) (v : Z) : list Z :=
  match n with O => [] | S n => v mod 256 :: le_split n (v / 256) end.

Lemma le_combine_split n v :
  0 <= v < 256 ^ Z.of_nat n -> le_combine (le_split n v) = v.
Proof.
  revert v. induction n as [|n IH]; intros v Hv; cbn.
  - cbn in Hv. lia.
  - rewrite Nat2Z.inj_succ, Z.pow_succ_r in Hv by lia.
    rewrite IH; [pose proof (Z.div_mod v 256); lia|].
    split; [apply Z.div_pos; lia|apply Z.div_lt_upper_bound; lia].
Qed.

Lemma le_split_bytes n v : Forall is_byte (le_split n v).
Proof.
  revert v. induction n as [|n IH]; intros v; cbn; constructor; [|done].
  apply Z.mod_pos_bound. lia.
Qed.

Lemma le_split_length n v : length (le_split n v) = n.
Proof. revert v. by induction n; intros; cbn; f_equal. Qed.

Lemma shiftr_div v n : 0 <= n -> Z.shiftr v n = v / 2 ^ n.
Proof. apply Z.shiftr_div_pow2. Qed.

(** Which of the six integer encodings a value gets. *)
Inductive int_encoding (v : Z) : list Z -> Prop :=
| int_7 : 0 <= v <= 127 -> int_encoding v [u8 v]
| int_13 h l : -4096 <= v <= 4095 -> 0 <= h <= 31 -> is_byte l ->
    h * 256 + l = v mod 8192 -> int_encoding v [u8 (Z.lor h 192); l]
| int_16 : - 2 ^ 15 <= v < 2 ^ 15 ->
    int_encoding v (241 :: le_split 2 (v mod 2 ^ 16))
| int_24 : - 2 ^ 23 <= v < 2 ^ 23 ->
    int_encoding v (242 :: le_split 3 (v mod 2 ^ 24))
| int_32 : - 2 ^ 31 <= v < 2 ^ 31 ->
    int_encoding v (243 :: le_split 4 (v mod 2 ^ 32))
| int_64 : is_i64 v -> ~ (- 2 ^ 31 <= v < 2 ^ 31) ->
    int_encoding v (244 :: le_split 8 (v mod 2 ^ 64)).

Lemma signed_wrap v n m : m = Z.succ n -> 0 <= n ->
  - 2 ^ n <= v < 2 ^ n -> (if v <? 0 then Z.shiftl 1 m + v else v) = v mod 2 ^ m.
Proof.
  intros -> Hn Hv. rewrite Z.shiftl_mul_pow2, Z.mul_1_l by lia.
  pose proof (Z.pow_succ_r 2 n Hn). destruct (Z.ltb_spec v 0).
  - apply Zmod_unique with (-1); lia.
  - by rewrite Z.mod_small by lia.
Qed.

(** Both sides of an encoding as divisions by powers of 256. *)
Ltac norm_bytes :=
  cbn [le_split]; rewrite ?land_255, ?shiftr_div by lia; unfold u8, u64;
  rewrite ?Z.div_div by lia; reflexivity.

Lemma lpEncodeIntegerGetType_spec v :
  is_i64 v -> int_encoding v (lpEncodeIntegerGetType v).
Proof.
  intros Hv. unfold lpEncodeIntegerGetType.
  destruct (between_spec 0 v 127); [by constructor|].
  destruct (between_spec (-4096) v 4095).
  { rewrite (signed_wrap v 12 13), shiftr_div, land_255 by lia.
    pose proof (Z.mod_pos_bound v (2 ^ 13) ltac:(lia)) as Hm.
    pose proof (Z.div_mod (v mod 2 ^ 13) (2 ^ 8) ltac:(lia)) as Hd.
    apply int_13; [lia| |apply Z.mod_pos_bound; lia|].
    - split; [apply Z.div_pos; lia|].
      apply Z.lt_succ_r, Z.div_lt_upper_bound; lia.
    - change 8192 with (2 ^ 13). change 256 with (2 ^ 8). lia. }
  destruct (between_spec (-32768) v 32767).
  { rewrite (signed_wrap v 15 16) by lia.
    replace [241; _; _] with (241 :: le_split 2 (v mod 2 ^ 16)); [constructor; lia|].
    norm_bytes. }
  destruct (between_spec (-8388608) v 8388607).
  { rewrite (signed_wrap v 23 24) by lia.
    replace [242; _; _; _] with (242 :: le_split 3 (v mod 2 ^ 24)); [constructor; lia|].
    norm_bytes. }
  destruct (between_spec (-2147483648) v 2147483647).
  { rewrite (signed_wrap v 31 32) by lia.
    replace [243; _; _; _; _] with (243 :: le_split 4 (v mod 2 ^ 32)); [constructor; lia|].
    norm_bytes. }
  replace [244; _; _; _; _; _; _; _; _] with (244 :: le_split 8 (v mod 2 ^ 64));
    [constructor; [done|lia]|].
  norm_bytes.
Qed.

Lemma lpIntResult_signed v n :
  0 <= n < 64 -> - 2 ^ n <= v < 2 ^ n ->
  lpIntResult (v mod 2 ^ Z.succ n) (Z.shiftl 1 n) (2 ^ Z.succ n - 1) = v.
Proof.
  intros Hn Hv. unfold lpIntResult. rewrite Z.shiftl_mul_pow2, Z.mul_1_l by lia.
  pose proof (Z.pow_succ_r 2 n ltac:(lia)) as Hp.
  assert (2 ^ n <= 2 ^ 63) by (apply Z.pow_le_mono_r; lia).
  destruct (Z.lt_ge_cases v 0).
  - assert (Hm : v mod 2 ^ Z.succ n = 2 ^ Z.succ n + v).
    { symmetry. apply Zmod_unique with (-1); lia. }
    rewrite Hm. destruct (Z.leb_spec (2 ^ n) (2 ^ Z.succ n + v)); [|lia].
    rewrite u64_id, i64_id by (unfold is_i64, INT64_MIN, INT64_MAX; lia). lia.
  - rewrite Z.mod_small by lia. destruct (Z.leb_spec (2 ^ n) v); [lia|].
    apply i64_id. unfold is_i64, INT64_MIN, INT64_MAX. lia.
Qed.

(** [p[1] | p[2] << 8 | ...] is the little-endian number. *)
Ltac bytes_bounds :=
  repeat match goal with
  | H : Forall is_byte (_ :: _) |- _ =>
      apply Forall_cons in H as [? H]
  end; unfold is_byte in *.

Ltac lor_to_add :=
  repeat match goal with
  | |- context [Z.lor ?a (Z.shiftl ?b ?n)] =>
      lazymatch a with
      | context [Z.lor _ _] => fail
      | _ => rewrite (lor_disjoint a b n) by (cbn; lia)
      end
  end.

Lemma le2 a b : Forall is_byte [a; b] ->
  Z.lor a (Z.shiftl b 8) = le_combine [a; b].
Proof. intros H. bytes_bounds. lor_to_add. cbn. lia. Qed.

Lemma le3 a b c : Forall is_byte [a; b; c] ->
  Z.lor (Z.lor a (Z.shiftl b 8)) (Z.shiftl c 16) = le_combine [a; b; c].
Proof. intros H. bytes_bounds. lor_to_add. cbn. lia. Qed.

Lemma le4 a b c d : Forall is_byte [a; b; c; d] ->
  Z.lor (Z.lor (Z.lor a (Z.shiftl b 8)) (Z.shiftl c 16)) (Z.shiftl d 24)
  = le_combine [a; b; c; d].
Proof. intros H. bytes_bounds. lor_to_add. cbn. lia. Qed.

Lemma le8 a b c d e f g h : Forall is_byte [a; b; c; d; e; f; g; h] ->
  Z.lor (Z.lor (Z.lor (Z.lor (Z.lor (Z.lor (Z.lor a
    (Z.shiftl b 8)) (Z.shiftl c 16)) (Z.shiftl d 24)) (Z.shiftl e 32))
    (Z.shiftl f 40)) (Z.shiftl g 48)) (Z.shiftl h 56)
  = le_combine [a; b; c; d; e; f; g; h].
Proof. intros H. bytes_bounds. lor_to_add. cbn. lia. Qed.

(** * Reading an entry back *)

(** Decide every header test of a byte [b] with [H : header_tests b = only i]. *)
Ltac header_rw H :=
  let T := fresh "T" in
  pose proof H as T; unfold header_tests in T;
  lazymatch type of T with _ = ?r => let r' := eval vm_compute in r in change r with r' in T end;
  injection T as ? ? ? ? ? ? ? ? ? ?;
  repeat match goal with E : ?f ?b = ?v |- context [?f ?b] =>
    match type of v with bool => rewrite E end end; cbv iota.

(** Decide every header test of a literal byte. *)
Ltac header_const b :=
  repeat match goal with |- context [if ?f b then _ else _] =>
    let r := eval vm_compute in (f b) in change (f b) with r; cbv iota end.

(** Which of the three string encodings a string gets. *)
Inductive str_encoding (s : list Z) : list Z -> Prop :=
| str_6 : len s < 64 -> str_encoding s (u8 (Z.lor (len s) 128) :: s)
| str_12 h l : 64 <= len s < 4096 -> 0 <= h < 16 -> is_byte l ->
    h * 256 + l = len s -> str_encoding s (u8 (Z.lor h 224) :: l :: s)
| str_32 : 4096 <= len s -> str_encoding s (240 :: le_split 4 (len s) ++ s).

Lemma lpEncodeString_spec s : str_encoding s (lpEncodeString s).
Proof.
  unfold lpEncodeString. pose proof (len_nonneg s).
  destruct (Z.ltb_spec (len s) 64); [by constructor|].
  destruct (Z.ltb_spec (len s) 4096).
  - rewrite land_255, shiftr_div by lia. change (2 ^ 8) with 256.
    pose proof (Z.div_mod (len s) 256 ltac:(lia)).
    apply str_12; [lia| |by apply Z.mod_pos_bound|lia].
    split; [apply Z.div_pos; lia|apply Z.div_lt_upper_bound; lia].
  - replace (240 :: _) with (240 :: le_split 4 (len s) ++ s); [by constructor|].
    cbn [le_split app]. rewrite ?land_255, ?shiftr_div by lia.
    by rewrite ?Z.div_div by lia.
Qed.

(** Replace every [rd] at an offset covered by a hypothesis [points]. *)
Ltac run_rd :=
  repeat (first
    [ match goal with Hp : points ?m ?p (?b :: ?X) |- context [rd ?m ?p] =>
        rewrite (points_rd0 m p b X Hp) end
    | match goal with Hp : points ?m ?p ?X |- context [rd ?m (?p + ?k)] =>
        let i := eval vm_compute in (Z.to_nat k) in
        let E := fresh in
        epose proof (points_rd m p X i _ Hp eq_refl) as E;
        change (Z.of_nat i) with k in E; rewrite E; clear E
      end ]; rewrite ?bind_Done).

Lemma str_len_6 m p n X : 0 <= n < 64 -> points m p (u8 (Z.lor n 128) :: X) ->
  LP_ENCODING_6_BIT_STR_LEN m p = Done n.
Proof.
  intros Hn Hp. unfold LP_ENCODING_6_BIT_STR_LEN. run_rd.
  by rewrite (proj2 (header_6str n Hn)).
Qed.

Lemma str_len_12 m p h l X : 0 <= h < 16 -> is_byte l ->
  points m p (u8 (Z.lor h 224) :: l :: X) ->
  LP_ENCODING_12_BIT_STR_LEN m p = Done (h * 256 + l).
Proof.
  intros Hh Hl Hp. unfold LP_ENCODING_12_BIT_STR_LEN. run_rd.
  rewrite (proj2 (header_12str h Hh)), Z.lor_comm, lor_disjoint by (unfold is_byte in *; lia).
  unfold mret, outcome_ret. f_equal. lia.
Qed.

Lemma str_len_32 m p n b X : 0 <= n < 2 ^ 32 ->
  points m p (b :: le_split 4 n ++ X) -> LP_ENCODING_32_BIT_STR_LEN m p = Done n.
Proof.
  intros Hn Hp. unfold LP_ENCODING_32_BIT_STR_LEN. cbn [le_split app] in Hp. run_rd.
  pose proof (le_split_bytes 4 n) as Hb. cbn [le_split] in Hb.
  pose proof (le_combine_split 4 n ltac:(cbn; lia)) as Hc. cbn [le_split] in Hc.
  rewrite <- (le4 _ _ _ _ Hb) in Hc. unfold mret, outcome_ret.
  rewrite <- Hc at 5. clear Hc. bytes_bounds.
  rewrite !u32_id; [done|rewrite Z.shiftl_mul_pow2; lia..].
Qed.

Theorem lpCurrentEncodedSizeUnsafe_entry m p e :
  entry_wf e -> points m p (entry_encode e) ->
  lpCurrentEncodedSizeUnsafe m p = Done (len (entry_encode e)).
Proof.
  intros Hw Hp. unfold lpCurrentEncodedSizeUnsafe. destruct e as [v|s]; cbn [entry_encode entry_wf] in *.
  - pose proof (lpEncodeIntegerGetType_spec v Hw) as HE. revert Hp.
    destruct HE as [Hv|h l Hv Hh Hl _|Hv|Hv|Hv|Hv _]; intros Hp; run_rd.
    + header_rw (proj1 (header_7bit v Hv)). done.
    + header_rw (proj1 (header_13bit h Hh)). done.
    + header_const 241. done.
    + header_const 242. done.
    + header_const 243. done.
    + header_const 244. done.
  - destruct Hw as [_ Hw]. pose proof (len_nonneg s). revert Hp.
    destruct (lpEncodeString_spec s) as [Hs|h l Hs Hh Hl E|Hs]; intros Hp; run_rd.
    + header_rw (proj1 (header_6str (len s) ltac:(lia))).
      rewrite (str_len_6 _ _ (len s) _ ltac:(lia) Hp), bind_Done, u32_id by lia. by rewrite len_cons.
    + header_rw (proj1 (header_12str h Hh)).
      rewrite (str_len_12 _ _ _ _ _ Hh Hl Hp), bind_Done, E, u32_id by lia.
      rewrite !len_cons. unfold mret, outcome_ret. f_equal. lia.
    + header_const 240.
      rewrite (str_len_32 _ _ (len s) _ _ ltac:(lia) Hp), bind_Done, u32_id by lia.
      cbn [le_split app]. rewrite !len_cons. unfold mret, outcome_ret. f_equal. lia.
Qed.

(** Only a 64-bit integer lacks a case in [lpCurrentEncodedSizeBytes]. *)
Definition entry_is_64 (e : entry) : bool :=
  match e with
  | EInt v => negb ((- 2 ^ 31 <=? v) && (v <=? 2 ^ 31 - 1))
  | EStr _ => false
  end.

Lemma lpCurrentEncodedSizeBytes_entry m p e :
  entry_wf e -> points m p (entry_encode e) ->
  exists n, lpCurrentEncodedSizeBytes m p = Done n /\
            if entry_is_64 e then n = 0 else 0 < n <= len (entry_encode e).
Proof.
  intros Hw Hp. unfold lpCurrentEncodedSizeBytes.
  destruct e as [v|s]; cbn [entry_encode entry_wf entry_is_64] in *.
  - pose proof (lpEncodeIntegerGetType_spec v Hw) as HE. revert Hp.
    destruct (between_spec (- 2 ^ 31) v (2 ^ 31 - 1)) as [Hb|Hb]; cbn [negb];
    destruct HE as [Hv|h l Hv Hh Hl _|Hv|Hv|Hv|Hv Hn]; try lia; intros Hp; run_rd.
    + header_rw (proj1 (header_7bit v Hv)). eexists. split; [done|]. len_lia.
    + header_rw (proj1 (header_13bit h Hh)). eexists. split; [done|]. len_lia.
    + header_const 241. eexists. split; [done|]. cbn [le_split]. len_lia.
    + header_const 242. eexists. split; [done|]. cbn [le_split]. len_lia.
    + header_const 243. eexists. split; [done|]. cbn [le_split]. len_lia.
    + header_const 244. by eexists.
  - destruct Hw as [_ Hw]. pose proof (len_nonneg s). revert Hp.
    destruct (lpEncodeString_spec s) as [Hs|h l Hs Hh Hl E|Hs]; intros Hp; run_rd.
    + header_rw (proj1 (header_6str (len s) ltac:(lia))).
      eexists. split; [done|]. len_lia.
    + header_rw (proj1 (header_12str h Hh)).
      eexists. split; [done|]. len_lia.
    + header_const 240. eexists. split; [done|]. cbn [le_split app]. len_lia.
Qed.

(** No encoding starts with the end marker. *)
Lemma entry_encode_hd e : entry_wf e ->
  exists b X, entry_encode e = b :: X /\ b <> LP_EOF.
Proof.
  assert (HX : forall b i, header_tests b = only i -> (i < 9)%nat -> b <> LP_EOF).
  { intros b i Hb Hi ->. apply (f_equal (fun l => l !! 9%nat)) in Hb.
    unfold only in Hb. rewrite list_lookup_fmap in Hb. cbn in Hb.
    injection Hb as Hb. symmetry in Hb. apply bool_decide_eq_true in Hb. lia. }
  intros Hw. destruct e as [v|s]; cbn [entry_encode entry_wf] in *.
  - destruct (lpEncodeIntegerGetType_spec v Hw) as [Hv|h l Hv Hh Hl _|Hv|Hv|Hv|Hv Hn];
      eexists _, _; (split; [reflexivity|]); try done.
    + eapply HX; [apply (header_7bit v Hv)|lia].
    + eapply HX; [apply (header_13bit h Hh)|lia].
  - pose proof (len_nonneg s).
    destruct (lpEncodeString_spec s) as [Hs|h l Hs Hh Hl E|Hs];
      eexists _, _; (split; [reflexivity|]); try done.
    + eapply HX; [apply (header_6str (len s)); lia|lia].
    + eapply HX; [apply (header_12str h Hh)|lia].
Qed.

Lemma entry_encode_bytes e : entry_wf e -> Forall is_byte (entry_encode e).
Proof.
  assert (Hu : forall z, is_byte (u8 z)) by (intros; apply Z.mod_pos_bound; lia).
  intros Hw. destruct e as [v|s]; cbn [entry_encode entry_wf] in *.
  - destruct (lpEncodeIntegerGetType_spec v Hw);
      repeat apply Forall_cons_2; try apply Hu; try done;
      try (unfold is_byte; lia); try apply le_split_bytes.
  - destruct Hw as [Hb _]. destruct (lpEncodeString_spec s);
      repeat apply Forall_cons_2; try apply Hu; try done; try (unfold is_byte; lia).
Qed.

(** [*enclen] is the number of bytes later written. *)
Lemma lpEncodeGetType_enclen s :
  let '(t, intenc, enclen) := lpEncodeGetType s in
  enclen = len (entry_encode (entry_of_bytes s)) /\
  match t with
  | LP_ENCODING_INT => exists v, lpStringToInt64 s = Some v /\
      intenc = lpEncodeIntegerGetType v
  | LP_ENCODING_STRING => lpStringToInt64 s = None
  end.
Proof.
  unfold lpEncodeGetType, entry_of_bytes. destruct (lpStringToInt64 s) as [v|] eqn:E.
  - split; [done|]. by exists v.
  - split; [|done]. cbn [entry_encode]. unfold lpEncodeString.
    destruct (len s <? 64); [by rewrite len_cons|].
    destruct (len s <? 4096); rewrite !len_cons; lia.
Qed.

Lemma entry_of_bytes_wf s :
  Forall is_byte s -> len s + 5 < 2 ^ 32 -> entry_wf (entry_of_bytes s).
Proof.
  intros. unfold entry_of_bytes. destruct (lpStringToInt64 s) as [v|] eqn:E; [|done].
  by apply lpStringToInt64_sound in E as [_ ?].
Qed.

(** Filing a string and rebuilding it from the element is the identity. *)
Lemma entry_bytes_of_bytes s : entry_bytes (entry_of_bytes s) = s.
Proof.
  unfold entry_of_bytes. destruct (lpStringToInt64 s) as [v|] eqn:E; [|done].
  by apply lpStringToInt64_sound in E as [? _].
Qed.

(** * Backward lengths *)
Lemma lpEncodeBacklen_len l : len (lpEncodeBacklen l) = lpEncodeBacklenBytes l.
Proof. unfold lpEncodeBacklen, lpEncodeBacklenBytes. by repeat zcase. Qed.

Lemma lpEncodeBacklenBytes_bounds l : 1 <= lpEncodeBacklenBytes l <= 5.
Proof. unfold lpEncodeBacklenBytes. repeat zcase; lia. Qed.

(** One continuation byte, and the first byte, of a backward length. *)
Lemma backlen_cont d : 0 <= d < 128 ->
  Z.land (Z.lor d 128) 127 = d /\ (Z.land (Z.lor d 128) 128 =? 0) = false.
Proof.
  intros. by_bytes (fun d => Z.land (Z.lor d 128) 127 = d /\
                             (Z.land (Z.lor d 128) 128 =? 0) = false) 0 128%nat.
Qed.

Lemma backlen_first d : 0 <= d < 128 ->
  Z.land (u8 d) 127 = d /\ (Z.land (u8 d) 128 =? 0) = true.
Proof.
  intros. by_bytes (fun d => Z.land (u8 d) 127 = d /\
                             (Z.land (u8 d) 128 =? 0) = true) 0 128%nat.
Qed.

Lemma decode_cont fuel m p d shift v :
  0 <= d < 128 -> 0 <= shift <= 21 -> 0 <= v < 2 ^ shift ->
  rd m p = Done (Z.lor d 128) ->
  lpDecodeBacklen_loop (S fuel) m p shift v =
  lpDecodeBacklen_loop fuel m (p - 1) (shift + 7) (v + d * 2 ^ shift).
Proof.
  intros Hd Hs Hv Hr. cbn [lpDecodeBacklen_loop]. rewrite Hr, bind_Done.
  destruct (backlen_cont d Hd) as [-> ->].
  assert (2 ^ shift <= 2 ^ 21) by (apply Z.pow_le_mono_r; lia).
  unfold u8. rewrite (Z.mod_small (shift + 7)) by lia.
  destruct (Z.ltb_spec 28 (shift + 7)); [lia|].
  rewrite u64_id, Z.lor_comm, lor_disjoint by (rewrite ?Z.shiftl_mul_pow2; nia). done.
Qed.

Lemma decode_first fuel m p d shift v :
  0 <= d < 128 -> 0 <= shift <= 28 -> 0 <= v < 2 ^ shift ->
  rd m p = Done (u8 d) ->
  lpDecodeBacklen_loop (S fuel) m p shift v = Done (v + d * 2 ^ shift).
Proof.
  intros Hd Hs Hv Hr. cbn [lpDecodeBacklen_loop]. rewrite Hr, bind_Done.
  destruct (backlen_first d Hd) as [-> ->].
  assert (2 ^ shift <= 2 ^ 28) by (apply Z.pow_le_mono_r; lia).
  rewrite u64_id, Z.lor_comm, lor_disjoint by (rewrite ?Z.shiftl_mul_pow2; nia). done.
Qed.

(** The base-128 digits of [l], from the last one up. *)
Fixpoint backlen_digits (k : nat) (l : Z) : list Z :=
  match k with
  | O => [u8 l]
  | S k => Z.lor (l mod 128) 128 :: backlen_digits k (l / 128)
  end.

Lemma lpEncodeBacklen_digits l :
  0 <= l < 2 ^ 35 ->
  exists k, (k <= 4)%nat /\ l < 128 ^ Z.of_nat (S k) /\
            lpEncodeBacklen l = reverse (backlen_digits k l).
Proof.
  intros Hl. unfold lpEncodeBacklen. rewrite !land_127, !shiftr_div by lia.
  destruct (Z.leb_spec l 127); [exists 0%nat|destruct (Z.ltb_spec l 16383);
    [exists 1%nat|destruct (Z.ltb_spec l 2097151); [exists 2%nat|
     destruct (Z.ltb_spec l 268435455); [exists 3%nat|exists 4%nat]]]];
    (split; [lia|]; split; [lia|]);
    unfold reverse; cbn [rev_append backlen_digits]; rewrite ?Z.div_div by lia; reflexivity.
Qed.

Lemma decode_digits k : forall fuel m p l shift v,
  (k < fuel)%nat -> 0 <= l < 128 ^ Z.of_nat (S k) ->
  0 <= shift -> shift + 7 * Z.of_nat k <= 28 -> 0 <= v < 2 ^ shift ->
  (forall (i : nat) b, backlen_digits k l !! i = Some b -> rd m (p - Z.of_nat i) = Done b) ->
  lpDecodeBacklen_loop fuel m p shift v = Done (v + l * 2 ^ shift).
Proof.
  induction k as [|k IH]; intros fuel m p l shift v Hf Hl Hs0 Hs Hv Hr;
    (destruct fuel as [|fuel]; [lia|]).
  - change (128 ^ Z.of_nat 1) with 128 in Hl. apply decode_first; [done|lia|done|].
    rewrite <- (Hr 0%nat (u8 l) eq_refl). f_equal. lia.
  - pose proof (Z.div_mod l 128 ltac:(lia)) as Hdm.
    pose proof (Z.mod_pos_bound l 128 ltac:(lia)) as Hm.
    assert (0 < 2 ^ shift) by (apply Z.pow_pos_nonneg; lia).
    rewrite (decode_cont fuel m p (l mod 128)); [|done|lia|done|].
    + rewrite (IH fuel m (p - 1) (l / 128)).
      * f_equal. rewrite (Z.pow_add_r 2 shift 7) by lia.
        change (2 ^ 7) with 128. rewrite Hdm at 3. ring.
      * lia.
      * rewrite Nat2Z.inj_succ, Z.pow_succ_r in Hl by lia.
        split; [apply Z.div_pos; lia|apply Z.div_lt_upper_bound; lia].
      * lia.
      * lia.
      * rewrite (Z.pow_add_r 2 shift 7) by lia. change (2 ^ 7) with 128. nia.
      * intros i b Hi. replace (p - 1 - Z.of_nat i) with (p - Z.of_nat (S i)) by lia.
        by apply Hr.
    + rewrite <- (Hr 0%nat _ eq_refl). f_equal. lia.
Qed.

(** The last byte of a backward length is where decoding starts. *)
Lemma lpDecodeBacklen_encode m p l :
  0 <= l < 2 ^ 35 -> points m p (lpEncodeBacklen l) ->
  lpDecodeBacklen m (p + lpEncodeBacklenBytes l - 1) = Done l.
Proof.
  intros Hl Hp. destruct (lpEncodeBacklen_digits l Hl) as (k & Hk & Hb & E).
  unfold lpDecodeBacklen. rewrite <- lpEncodeBacklen_len, E.
  rewrite (decode_digits k 5 m _ l); [f_equal; lia|lia|lia|lia|lia|lia|].
  intros i b Hi. rewrite E in Hp.
  pose proof (lookup_lt_Some _ _ _ Hi).
  unfold len. rewrite length_reverse.
  set (n := length (backlen_digits k l)) in *.
  replace (p + Z.of_nat n - 1 - Z.of_nat i) with (p + Z.of_nat (n - S i)) by lia.
  eapply points_rd; [exact Hp|].
  rewrite reverse_lookup by (subst n; lia). rewrite <- Hi. f_equal. subst n. lia.
Qed.

(** * [lpGetWithSize] *)
Lemma rd_split m p b n v X (k : nat) c :
  points m p (b :: le_split n v ++ X) -> le_split n v !! k = Some c ->
  rd m (p + Z.of_nat (S k)) = Done c.
Proof.
  intros Hp Hk. eapply points_rd; [exact Hp|]. cbn. by apply lookup_app_l_Some.
Qed.

Lemma entry_layout_len e :
  len (entry_layout e) = len (entry_encode e) + lpEncodeBacklenBytes (len (entry_encode e)).
Proof. unfold entry_layout. by rewrite len_app, lpEncodeBacklen_len. Qed.

(** What [lpGetWithSize] answers for an entry at [p]. *)
Definition entry_view (p : Z) (e : entry) : option Z * option Z :=
  match e with
  | EInt v => (None, Some v)
  | EStr s => (Some (p + (len (entry_encode e) - len s)), Some (len s))
  end.

(** Put a little-endian payload back together. *)
Ltac payload Hb Hc n v :=
  pose proof (le_split_bytes n v) as Hb;
  pose proof (le_combine_split n v) as Hc;
  cbn [le_split] in Hb, Hc.

Ltac view_eq :=
  match goal with |- Done (Some ?a, _, Some ?b) = Done (Some ?c, _, Some ?d) =>
    replace a with c by lia; replace b with d by lia; reflexivity end.

Lemma lpIntResult_at v n x start mx :
  0 <= n < 64 -> - 2 ^ n <= v < 2 ^ n ->
  x = v mod 2 ^ Z.succ n -> start = Z.shiftl 1 n -> mx = 2 ^ Z.succ n - 1 ->
  lpIntResult x start mx = v.
Proof. intros ?? -> -> ->. by apply lpIntResult_signed. Qed.

Lemma lpGetWithSize_entry m p e :
  entry_wf e -> points m p (entry_encode e) ->
  lpGetWithSize m (Some p) =
    Done (entry_view p e, Some (len (entry_layout e))).
Proof.
  intros Hw Hp. rewrite entry_layout_len. unfold lpGetWithSize, entry_view. cbv zeta beta.
  destruct e as [v|s]; cbn [entry_encode entry_wf] in *.
  - pose proof (lpEncodeIntegerGetType_spec v Hw) as HE. revert Hp.
    destruct HE as [Hv|h l Hv Hh Hl E|Hv|Hv|Hv|Hv _]; intros Hp; cbn [le_split] in *; run_rd.
    + header_rw (proj1 (header_7bit v Hv)).
      rewrite (proj2 (header_7bit v Hv)). unfold lpIntResult.
      destruct (Z.leb_spec UINT64_MAX v); [unfold UINT64_MAX in *; lia|].
      by rewrite i64_id.
    + header_rw (proj1 (header_13bit h Hh)). run_rd.
      rewrite (proj2 (header_13bit h Hh)), Z.lor_comm, lor_disjoint by (unfold is_byte in *; lia).
      rewrite (lpIntResult_at v 12); [done|lia|lia| |done|done].
      rewrite (Z.add_comm l). exact E.
    + header_const 241. run_rd. payload Hb Hc 2%nat (v mod 2 ^ 16).
      rewrite le2, Hc by (done || (apply Z.mod_pos_bound; lia)).
      by rewrite (lpIntResult_at v 15) by (reflexivity || lia).
    + header_const 242. run_rd. payload Hb Hc 3%nat (v mod 2 ^ 24).
      rewrite le3, Hc by (done || (apply Z.mod_pos_bound; lia)).
      by rewrite (lpIntResult_at v 23) by (reflexivity || lia).
    + header_const 243. run_rd. payload Hb Hc 4%nat (v mod 2 ^ 32).
      rewrite le4, Hc by (done || (apply Z.mod_pos_bound; lia)).
      by rewrite (lpIntResult_at v 31) by (reflexivity || lia).
    + header_const 244. run_rd. payload Hb Hc 8%nat (v mod 2 ^ 64).
      rewrite le8, Hc by (done || (apply Z.mod_pos_bound; lia)).
      unfold is_i64, INT64_MIN, INT64_MAX in Hv.
      by rewrite (lpIntResult_at v 63) by (reflexivity || lia).
  - destruct Hw as [_ Hw]. pose proof (len_nonneg s). revert Hp.
    destruct (lpEncodeString_spec s) as [Hs|h l Hs Hh Hl E|Hs]; intros Hp; run_rd.
    + header_rw (proj1 (header_6str (len s) ltac:(lia))).
      rewrite (str_len_6 _ _ (len s) _ ltac:(lia) Hp), bind_Done, len_cons.
      unfold mret, outcome_ret. rewrite (Z.add_comm (len s) 1).
      view_eq.
    + header_rw (proj1 (header_12str h Hh)).
      rewrite (str_len_12 _ _ _ _ _ Hh Hl Hp), bind_Done, E, !len_cons.
      unfold mret, outcome_ret. replace (len s + 2) with (1 + (1 + len s)) by lia.
      view_eq.
    + header_const 240.
      rewrite (str_len_32 _ _ (len s) _ _ ltac:(lia) Hp), bind_Done.
      cbn [le_split app]. rewrite !len_cons.
      unfold mret, outcome_ret.
      replace (len s + 5) with (1 + (1 + (1 + (1 + (1 + len s))))) by lia.
      view_eq.
Qed.

(** Where the payload of a string entry lies. *)
Lemma entry_view_str m p s :
  points m p (entry_encode (EStr s)) ->
  points m (p + (len (entry_encode (EStr s)) - len s)) s.
Proof.
  cbn [entry_encode]. intros Hp.
  assert (exists H, lpEncodeString s = H ++ s) as [H E].
  { destruct (lpEncodeString_spec s) as [?|h l|?];
      [by exists [u8 (Z.lor (len s) 128)]|by exists [u8 (Z.lor h 224); l]
      |by exists (240 :: le_split 4 (len s))]. }
  rewrite E in *. rewrite len_app. replace (len H + len s - len s) with (len H) by lia.
  by apply points_app_r in Hp.
Qed.

(** * Properties *)

(** [lpStringToInt64] is exact.  It succeeds with [v] precisely on the string
    [std::to_string] prints for a 64-bit [v]: no other spelling (sign [+],
    leading zeros, [-0], overflow, stray bytes) is taken for an integer, so
    filing a string as an integer loses no byte. *)
Theorem lpStringToInt64_exact s v :
  lpStringToInt64 s = Some v <-> is_i64 v /\ s = to_string v.
Proof.
  split.
  - by intros [<- ?]%lpStringToInt64_sound.
  - intros [? ->]. by apply lpStringToInt64_complete.
Qed.

(** an entry is read back as it was stored.  Wherever in memory the encoding and the
    backward length of an entry lie, [lpGetWithSize] yields its value (the integer
    itself, or the address and length of bytes equal to the string) and its full size,
    [lpCurrentEncodedSizeUnsafe] its encoded size, and
    [lpDecodeBacklen] recovers that size from the last byte. *)
Theorem entry_roundtrip m p e :
  entry_wf e -> points m p (entry_layout e) ->
  lpGetWithSize m (Some p) = Done (entry_view p e, Some (len (entry_layout e))) /\
  match e, entry_view p e with
  | EInt v, (None, Some v') => v' = v
  | EStr s, (Some q, Some n) => rdn m q n = Done s
  | _, _ => False
  end /\
  lpCurrentEncodedSizeUnsafe m p = Done (len (entry_encode e)) /\
  (len (entry_encode e) < 2 ^ 32 ->
   lpDecodeBacklen m (p + len (entry_layout e) - 1) = Done (len (entry_encode e))).
Proof.
  intros Hw Hp. pose proof (points_app_l _ _ _ _ Hp) as He. split_and!.
  - by apply lpGetWithSize_entry.
  - destruct e as [v|s]; cbn [entry_view]; [done|].
    by eapply points_rdn; [apply entry_view_str|].
  - by apply lpCurrentEncodedSizeUnsafe_entry.
  - intros Hl. rewrite entry_layout_len. rewrite Z.add_assoc.
    apply lpDecodeBacklen_encode; [len_lia|]. by apply points_app_r in Hp.
Qed.

Lemma entry_roundtrip_witness :
  lpGetWithSize [0; 242; 8; 123; 209; 4; 255] (Some 1) = Done (None, Some (- 3048696), Some 5).
Proof.
  refine (proj1 (entry_roundtrip _ 1 (EInt (- 3048696)) _ _)).
  - vm_compute. intuition discriminate.
  - exists [0], [255]. split; reflexivity.
Defined.
