(* ===== verification/Listpack.v ===== *)
(** The listpack operations of [src/listpack.cpp] on flat memory: the header
    accessors, validation, traversal in both directions, seek, length, and the
    insertion routine with its wrappers.  A listpack pointer is the base of the
    array [m]; an entry pointer is an offset into it, [None] being [nullptr].
    The relation [lp_rep m es] says that [m] holds the entries [es]; the
    theorems say that each operation does to [es] what its comment in
    [listpack.h] promises. *)
From S2P Require Import Prelude ListpackCodec.

(** * Header *)
Definition lpSetTotalBytes (m : list Z) (capacity : Z) : outcome (list Z) :=
  wr m 0 [Z.land capacity 255; Z.land (Z.shiftr capacity 8) 255;
          Z.land (Z.shiftr capacity 16) 255; Z.land (Z.shiftr capacity 24) 255].

Definition lpSetNumElements (m : list Z) (nums : Z) : outcome (list Z) :=
  wr m 4 [Z.land nums 255; Z.land (Z.shiftr nums 8) 255].

Definition lpGetTotalBytes (m : list Z) : outcome Z :=
  b0 ← rd m 0; b1 ← rd m 1; b2 ← rd m 2; b3 ← rd m 3;
  mret (Z.lor (Z.lor (Z.lor (Z.land b0 255) (Z.shiftl (Z.land b1 255) 8))
                     (Z.shiftl (Z.land b2 255) 16)) (Z.shiftl (Z.land b3 255) 24)).

Definition lpGetTotalNumElements (m : list Z) : outcome Z :=
  b4 ← rd m 4; b5 ← rd m 5;
  mret (Z.lor (Z.land b4 255) (Z.shiftl (Z.land b5 255) 8)).

Definition ASSERT_INTEGRITY (m : list Z) (p : Z) : outcome unit :=
  total ← lpGetTotalBytes m;
  assertb ((LP_HEADER_SIZE <=? p) && (p <? total)).

Definition ASSERT_INTEGRITY_LEN (m : list Z) (p n : Z) : outcome unit :=
  total ← lpGetTotalBytes m;
  assertb ((LP_HEADER_SIZE <=? p) && (p + n <? total)).

(** * Validation *)
Definition IS_OUT_OF_RANGE (lpbytes p : Z) : bool :=
  (p <? LP_HEADER_SIZE) || (lpbytes - 1 <? p).

(** [p] is a reference: the second result is its value afterwards. *)
Definition lpValidateNext (m : list Z) (lpbytes : Z) (p : option Z)
  : outcome (bool * option Z) :=
  match p with
  | None => mret (false, None)
  | Some p =>
      if IS_OUT_OF_RANGE lpbytes p then mret (false, Some p)
      else
        b ← rd m p;
        if b =? LP_EOF then mret (true, None)
        else
          lenbytes ← lpCurrentEncodedSizeBytes m p;
          if lenbytes =? 0 then mret (false, Some p)
          else if IS_OUT_OF_RANGE lpbytes (p + lenbytes) then mret (false, Some p)
          else
            enc ← lpCurrentEncodedSizeUnsafe m p;
            let encodedBacklen := lpEncodeBacklenBytes enc in
            let entrylen := enc + encodedBacklen in
            if IS_OUT_OF_RANGE lpbytes (p + entrylen) then mret (false, Some p)
            else
              prevbacklen ← lpDecodeBacklen m (p + entrylen - 1);
              if negb (u64 (prevbacklen + encodedBacklen) =? entrylen)
              then mret (false, Some p)
              else mret (true, Some (p + entrylen))
  end.

Definition lpAssertValidEntry (m : list Z) (lpbytes p : Z) : outcome unit :=
  r ← lpValidateNext m lpbytes (Some p); assertb (fst r).

(** The deep loop of [lpValidateIntegrity]: [None] is the early
    [return false]; otherwise the final [p] and [count].  Every iteration moves
    [p] forward or ends the loop, so one unit of fuel per byte is enough. *)
Fixpoint lpValidate_loop (fuel : nat) (m : list Z) (totalbytes : Z) (p : option Z)
    (count : Z) : outcome (option (option Z * Z)) :=
  match fuel with
  | O => Stuck
  | S fuel =>
      match p with
      | None => mret (Some (None, count))
      | Some q =>
          b ← rd m q;
          if b =? LP_EOF then mret (Some (Some q, count))
          else
            '(ok, p) ← lpValidateNext m totalbytes (Some q);
            if (ok : bool) then lpValidate_loop fuel m totalbytes p (u32 (count + 1))
            else mret None
      end
  end.

Definition lpValidateIntegrity (lp : option (list Z)) (size : Z) (deep : bool)
  : outcome bool :=
  match lp with
  | None => mret false
  | Some m =>
      if size <? LP_HEADER_SIZE + 1 then mret false
      else
        totalbytes ← lpGetTotalBytes m;
        if negb (totalbytes =? size) then mret false
        else
          e ← rd m (size - 1);
          if negb (e =? LP_EOF) then mret false
          else if negb deep then mret true
          else
            numelement ← lpGetTotalNumElements m;
            r ← lpValidate_loop (S (length m)) m totalbytes (Some LP_HEADER_SIZE) 0;
            match r with
            | None => mret false
            | Some (p, count) =>
                if negb (bool_decide (p = Some (size - 1))) then mret false
                else if negb (numelement =? LP_HDR_NUMELE_UNKNOWN) && negb (numelement =? count)
                then mret false
                else mret true
            end
  end.

(** * Traversal *)
Definition lpSkip (m : list Z) (p : Z) : outcome Z :=
  entrylen ← lpCurrentEncodedSizeUnsafe m p;
  mret (p + (entrylen + lpEncodeBacklenBytes entrylen)).

Definition lpNextWithBytes (m : list Z) (p : option Z) (lpbytes : Z) : outcome (option Z) :=
  match p with
  | None => Stuck
  | Some p =>
      p ← lpSkip m p;
      if IS_OUT_OF_RANGE lpbytes p then mret None
      else
        b ← rd m p;
        if b =? LP_EOF then mret None
        else
          total ← lpGetTotalBytes m;
          lpAssertValidEntry m total p;;
          mret (Some p)
  end.

Definition lpNext (m : list Z) (p : option Z) : outcome (option Z) :=
  match p with
  | None => mret None
  | Some p =>
      p ← lpSkip m p;
      total_bytes ← lpGetTotalBytes m;
      if IS_OUT_OF_RANGE total_bytes p then mret None
      else
        b ← rd m p;
        if b =? LP_EOF then mret None
        else
          lpAssertValidEntry m total_bytes p;;
          mret (Some p)
  end.

Definition lpPrev (m : list Z) (p : option Z) : outcome (option Z) :=
  match p with
  | None => mret None
  | Some p =>
      if p =? LP_HEADER_SIZE then mret None
      else
        let p := p - 1 in
        prevlen ← lpDecodeBacklen m p;
        let prevlen := u64 (prevlen + lpEncodeBacklenBytes prevlen) in
        let p := p - prevlen + 1 in
        total ← lpGetTotalBytes m;
        lpAssertValidEntry m total p;;
        mret (Some p)
  end.

Definition lpFirst (lp : option (list Z)) : outcome (option Z) :=
  match lp with
  | None => mret None
  | Some m =>
      b ← rd m LP_HEADER_SIZE;
      if b =? LP_EOF then mret None
      else
        total ← lpGetTotalBytes m;
        lpAssertValidEntry m total LP_HEADER_SIZE;;
        mret (Some LP_HEADER_SIZE)
  end.

Definition lpLast (lp : option (list Z)) : outcome (option Z) :=
  match lp with
  | None => mret None
  | Some m =>
      total ← lpGetTotalBytes m;
      lpPrev m (Some (total - 1))
  end.

(** [while (n steps left && ele) ele = step(ele)]. *)
Fixpoint lpSteps (step : option Z -> outcome (option Z)) (n : nat) (ele : option Z)
  : outcome (option Z) :=
  match n with
  | O => mret ele
  | S n =>
      match ele with
      | None => mret None
      | Some _ => ele ← step ele; lpSteps step n ele
      end
  end.

Definition lpSeek_scan (m : list Z) (forward : bool) (index : Z) : outcome (option Z) :=
  if forward then
    ele ← lpFirst (Some m);
    lpSteps (lpNext m) (Z.to_nat index) ele
  else
    ele ← lpLast (Some m);
    lpSteps (lpPrev m) (Z.to_nat (- 1 - index)) ele.

Definition lpSeek (m : list Z) (index : Z) : outcome (option Z) :=
  numele ← lpGetTotalNumElements m;
  if negb (numele =? LP_HDR_NUMELE_UNKNOWN) then
    let index := if index <? 0 then numele + index else index in
    if index <? 0 then mret None
    else if numele <=? index then mret None
    else if numele / 2 <? index then lpSeek_scan m false (index - numele)
    else lpSeek_scan m true index
  else lpSeek_scan m (negb (index <? 0)) index.

(** [while (p) { p = lpNext(lp, p); count++; }] *)
Fixpoint lpLength_loop (fuel : nat) (m : list Z) (p : option Z) (count : Z) : outcome Z :=
  match fuel with
  | O => Stuck
  | S fuel =>
      match p with
      | None => mret count
      | Some _ => p ← lpNext m p; lpLength_loop fuel m p (u32 (count + 1))
      end
  end.

(** The result and the memory, whose header the function may update. *)
Definition lpLength (m : list Z) : outcome (Z * list Z) :=
  num_element ← lpGetTotalNumElements m;
  if negb (num_element =? LP_HDR_NUMELE_UNKNOWN) then mret (num_element, m)
  else
    p ← lpFirst (Some m);
    count ← lpLength_loop (S (length m)) m p 0;
    m ← (if count <? LP_HDR_NUMELE_UNKNOWN then lpSetNumElements m count else mret m);
    mret (count, m).

(** * Insertion *)
Inductive lp_where := LP_BEFORE | LP_AFTER | LP_REPLACE.
#[global] Instance lp_where_eq_dec : EqDecision lp_where.
Proof. solve_decision. Defined.

Definition lpSafeToAdd (lp : option (list Z)) (add : Z) : outcome bool :=
  size ← (match lp with Some m => lpGetTotalBytes m | None => mret 0 end);
  mret (negb (LISTPACK_MAX_SAFETY_SIZE <? u64 (size + add))).

Section Allocation.
(** The contents of freshly allocated memory, which the code leaves
    uninitialised, by position.  Allocation itself is taken to succeed. *)
Context (junk : nat -> Z).

Definition alloc (n : Z) : list Z := map junk (seq 0 (Z.to_nat n)).

Definition lpNew (capacity : Z) : outcome (list Z) :=
  let capacity := if LP_HEADER_SIZE + 1 <? capacity then capacity else LP_HEADER_SIZE + 1 in
  m ← lpSetTotalBytes (alloc capacity) (LP_HEADER_SIZE + 1);
  m ← lpSetNumElements m 0;
  wr m LP_HEADER_SIZE [LP_EOF].

(** [new unsigned char[n]] followed by [memcpy] of the first [k] bytes. *)
Definition lpRealloc (m : list Z) (n k : Z) : outcome (list Z) :=
  w ← rdn m 0 k; wr (alloc n) 0 w.

Definition memmove (m : list Z) (dst src n : Z) : outcome (list Z) :=
  w ← rdn m src n; wr m dst w.

(** The middle of [lpInsert]: both reallocations and the move between them. *)
Definition lpInsert_room (m : list Z) (old new dst size replaced : Z) (w : lp_where)
  : outcome (list Z) :=
  m ← (if old <? new then lpRealloc m new old else mret m);
  m ← (match w with
       | LP_BEFORE => memmove m (dst + size) dst (old - dst)
       | _ => memmove m (dst + size) (dst + replaced) (old - dst - replaced)
       end);
  if new <? old then lpRealloc m new new else mret m.

(** [lpInsert].  [elestr] and [eleint] are the buffers with their sizes; the
    result is [None] for [NULL], else the new memory and [*newp]. *)
Definition lpInsert (m : list Z) (elestr eleint : option (list Z)) (p : Z) (w : lp_where)
  : outcome (option (list Z * option Z)) :=
  let isDeleteOperation :=
    match elestr, eleint with None, None => true | _, _ => false end in
  let w := if isDeleteOperation then LP_REPLACE else w in
  '(p, w) ← (match w with
             | LP_AFTER => p ← lpSkip m p; ASSERT_INTEGRITY m p;; mret (p, LP_BEFORE)
             | _ => mret (p, w)
             end);
  let '(enc, enclen) :=
    match elestr, eleint with
    | Some s, _ =>
        match lpEncodeGetType s with
        | (LP_ENCODING_INT, intenc, enclen) => (intenc, enclen)
        | (LP_ENCODING_STRING, _, enclen) => (lpEncodeString s, enclen)
        end
    | None, Some i => (i, len i)
    | None, None => ([], 0)
    end in
  let backlen := if isDeleteOperation then [] else lpEncodeBacklen enclen in
  old ← lpGetTotalBytes m;
  replaced_len ← (if bool_decide (w = LP_REPLACE) then
      r ← lpCurrentEncodedSizeUnsafe m p;
      let r := u32 (r + lpEncodeBacklenBytes r) in
      ASSERT_INTEGRITY_LEN m p r;; mret r
    else mret 0);
  let new := u64 (old + enclen + len backlen - replaced_len) in
  if UINT32_MAX <? new then mret None
  else
    m ← lpInsert_room m old new p (enclen + len backlen) replaced_len w;
    newp ← (if isDeleteOperation then
              b ← rd m p; mret (if b =? LP_EOF then None else Some p)
            else mret (Some p));
    m ← (if isDeleteOperation then mret m
         else m ← wr m p enc; wr m (p + enclen) backlen);
    m ← (if negb (bool_decide (w = LP_REPLACE)) || isDeleteOperation then
           n ← lpGetTotalNumElements m;
           if negb (n =? LP_HDR_NUMELE_UNKNOWN) then
             lpSetNumElements m (u32 (if isDeleteOperation then n - 1 else n + 1))
           else mret m
         else mret m);
    m ← lpSetTotalBytes m new;
    mret (Some (m, newp)).

Definition lpInsertString (m s : list Z) (p : Z) (w : lp_where) :=
  lpInsert m (Some s) None p w.

Definition lpInsertInteger (m : list Z) (lval p : Z) (w : lp_where) :=
  lpInsert m None (Some (lpEncodeIntegerGetType lval)) p w.

Definition lpAppend (m ele : list Z) : outcome (option (list Z)) :=
  listpack_bytes ← lpGetTotalBytes m;
  r ← lpInsert m (Some ele) None (listpack_bytes - 1) LP_BEFORE;
  mret (option_map fst r).

Definition lpAppendInteger (m : list Z) (lval : Z) : outcome (option (list Z)) :=
  listpack_bytes ← lpGetTotalBytes m;
  r ← lpInsertInteger m lval (listpack_bytes - 1) LP_BEFORE;
  mret (option_map fst r).

Definition lpPrepend (m s : list Z) : outcome (option (list Z)) :=
  p ← lpFirst (Some m);
  match p with
  | None => lpAppend m s
  | Some p => r ← lpInsert m (Some s) None p LP_BEFORE; mret (option_map fst r)
  end.

Definition lpDelete (m : list Z) (p : Z) : outcome (option (list Z * option Z)) :=
  lpInsert m None None p LP_REPLACE.

End Allocation.

(** * The representation relation *)
Definition body (es : list entry) : list Z := concat (map entry_layout es).

Definition total_bytes (es : list entry) : Z := LP_HEADER_SIZE + len (body es) + 1.

(** The offset just after the entries [es]. *)
Definition off (es : list entry) : Z := LP_HEADER_SIZE + len (body es).

(** [m] holds [es]: exact total in the header, the element count or the
    "unknown" mark, the laid-out entries, the end marker, and spare bytes. *)
Definition lp_rep (m : list Z) (es : list entry) : Prop :=
  Forall entry_wf es /\ total_bytes es <= UINT32_MAX /\
  exists num slack,
    m = le_split 4 (total_bytes es) ++ le_split 2 num ++ body es ++ [LP_EOF] ++ slack /\
    0 <= num <= UINT16_MAX /\ (num = LP_HDR_NUMELE_UNKNOWN \/ num = len es).

Lemma body_app es fs : body (es ++ fs) = body es ++ body fs.
Proof. unfold body. by rewrite map_app, concat_app. Qed.

Lemma body_cons e es : body (e :: es) = entry_layout e ++ body es.
Proof. done. Qed.

Lemma off_app es fs : off (es ++ fs) = off es + len (body fs).
Proof. unfold off. rewrite body_app, len_app. lia. Qed.

Lemma off_snoc es e : off (es ++ [e]) = off es + len (entry_layout e).
Proof. rewrite off_app. unfold body. cbn. by rewrite app_nil_r. Qed.

Lemma off_bounds es : LP_HEADER_SIZE <= off es.
Proof. unfold off. len_lia. Qed.

Lemma total_off es : total_bytes es = off es + 1.
Proof. done. Qed.

Lemma entry_encode_pos e : entry_wf e -> 0 < len (entry_encode e).
Proof. intros (b & X & E & _)%entry_encode_hd. rewrite E. len_lia. Qed.

Lemma entry_layout_bounds e :
  entry_wf e -> len (entry_encode e) < len (entry_layout e) <= len (entry_encode e) + 5.
Proof.
  intros He%entry_encode_pos. rewrite entry_layout_len.
  pose proof (lpEncodeBacklenBytes_bounds (len (entry_encode e))). lia.
Qed.

Lemma total_bytes_app L R :
  total_bytes (L ++ R) = off L + len (body R) + 1.
Proof. rewrite total_off, off_app. lia. Qed.

Lemma lp_rep_wf m es : lp_rep m es -> Forall entry_wf es.
Proof. by intros [? _]. Qed.

Lemma lp_rep_total m es : lp_rep m es -> total_bytes es <= UINT32_MAX.
Proof. by intros (_ & ? & _). Qed.

(** What lies at the offset of a split. *)
Lemma lp_rep_points m L R :
  lp_rep m (L ++ R) -> points m (off L) (body R ++ [LP_EOF]).
Proof.
  intros (_ & _ & num & slack & -> & _). rewrite body_app.
  exists (le_split 4 (total_bytes (L ++ R)) ++ le_split 2 num ++ body L), slack. split.
  - by rewrite <- !app_assoc.
  - rewrite !len_app. unfold off, LP_HEADER_SIZE, len. rewrite !le_split_length. lia.
Qed.

Lemma lp_rep_entry m L e R :
  lp_rep m (L ++ e :: R) -> points m (off L) (entry_layout e).
Proof.
  intros H%lp_rep_points. rewrite body_cons, <- app_assoc in H.
  by apply points_app_l in H.
Qed.

Lemma lp_rep_encode m L e R :
  lp_rep m (L ++ e :: R) -> points m (off L) (entry_encode e).
Proof. intros H%lp_rep_entry. by apply points_app_l in H. Qed.

Lemma lp_rep_end m es : lp_rep m es -> rd m (off es) = Done LP_EOF.
Proof.
  intros H. rewrite <- (app_nil_r es) in H. apply lp_rep_points in H.
  by apply points_rd0 in H.
Qed.

Lemma lp_rep_hd m L e R :
  lp_rep m (L ++ e :: R) -> exists b, rd m (off L) = Done b /\ (b =? LP_EOF) = false.
Proof.
  intros H. pose proof (lp_rep_wf _ _ H) as Hw.
  apply Forall_app in Hw as [_ Hw]. apply Forall_cons in Hw as [Hw _].
  apply entry_encode_hd in Hw as (b & X & E & Hb). exists b. split.
  - apply lp_rep_encode in H. rewrite E in H. by apply points_rd0 in H.
  - by apply Z.eqb_neq.
Qed.

Lemma lp_rep_wf_at m L e R : lp_rep m (L ++ e :: R) -> entry_wf e.
Proof.
  intros H%lp_rep_wf. apply Forall_app in H as [_ H]. by apply Forall_cons in H as [? _].
Qed.

(** * Header accessors *)
Lemma land_byte_255 b : is_byte b -> Z.land b 255 = b.
Proof. intros. rewrite land_255. apply Z.mod_small. done. Qed.

Lemma lpGetTotalBytes_rep m es : lp_rep m es -> lpGetTotalBytes m = Done (total_bytes es).
Proof.
  intros (_ & Ht & num & slack & E & _).
  assert (Hp : points m 0 (le_split 4 (total_bytes es) ++ [])).
  { rewrite app_nil_r, E. by exists [], (le_split 2 num ++ body es ++ [LP_EOF] ++ slack). }
  unfold lpGetTotalBytes.
  assert (Ht' : 0 <= total_bytes es < 256 ^ Z.of_nat 4).
  { unfold total_bytes, LP_HEADER_SIZE, UINT32_MAX in *. cbn. len_lia. }
  pose proof (le_split_bytes 4 (total_bytes es)) as Hb.
  pose proof (le_combine_split 4 _ Ht') as Hc.
  cbn [le_split app] in *. revert Hc Hb Hp. generalize (total_bytes es) as t. intros t Hc Hb Hp.
  rewrite <- Hc, <- (le4 _ _ _ _ Hb). clear Hc. bytes_bounds.
  rewrite (points_rd0 _ _ _ _ Hp), bind_Done.
  rewrite (points_rd _ _ _ 1 _ Hp eq_refl : rd m 1 = _), bind_Done.
  rewrite (points_rd _ _ _ 2 _ Hp eq_refl : rd m 2 = _), bind_Done.
  rewrite (points_rd _ _ _ 3 _ Hp eq_refl : rd m 3 = _), bind_Done.
  by rewrite !land_byte_255.
Qed.

Lemma lpGetTotalNumElements_rep m es :
  lp_rep m es ->
  exists num, lpGetTotalNumElements m = Done num /\ 0 <= num <= UINT16_MAX /\
              (num = LP_HDR_NUMELE_UNKNOWN \/ num = len es).
Proof.
  intros (_ & _ & num & slack & E & Hn & Hv). exists num. split; [|done].
  assert (Hp : points m 4 (le_split 2 num)).
  { rewrite E. exists (le_split 4 (total_bytes es)), (body es ++ [LP_EOF] ++ slack).
    split; [done|]. unfold len. by rewrite le_split_length. }
  unfold UINT16_MAX in Hn.
  pose proof (le_split_bytes 2 num) as Hb.
  pose proof (le_combine_split 2 num ltac:(cbn; lia)) as Hc.
  cbn [le_split] in *. unfold lpGetTotalNumElements.
  rewrite <- (le2 _ _ Hb) in Hc. bytes_bounds.
  rewrite (points_rd0 _ _ _ _ Hp), bind_Done.
  rewrite (points_rd _ _ _ 1 _ Hp eq_refl : rd m 5 = _), bind_Done.
  rewrite !land_byte_255 by done. by rewrite Hc.
Qed.

(** * One entry *)
Lemma in_range_entry m L R p :
  lp_rep m (L ++ R) -> off L <= p <= off (L ++ R) ->
  IS_OUT_OF_RANGE (total_bytes (L ++ R)) p = false.
Proof.
  intros _ Hp. pose proof (off_bounds L). unfold IS_OUT_OF_RANGE. rewrite total_off.
  destruct (Z.ltb_spec p LP_HEADER_SIZE); [lia|].
  destruct (Z.ltb_spec (off (L ++ R) + 1 - 1) p); [lia|done].
Qed.

Lemma lpSkip_rep m L e R :
  lp_rep m (L ++ e :: R) -> lpSkip m (off L) = Done (off (L ++ [e])).
Proof.
  intros H. unfold lpSkip.
  rewrite (lpCurrentEncodedSizeUnsafe_entry m _ e) by eauto using lp_rep_wf_at, lp_rep_encode.
  rewrite bind_Done, off_snoc, entry_layout_len. done.
Qed.

Lemma off_le L R : off L <= off (L ++ R).
Proof. rewrite off_app. len_lia. Qed.

Lemma off_mid L e R : off (L ++ [e]) <= off (L ++ e :: R).
Proof. replace (L ++ e :: R) with ((L ++ [e]) ++ R) by (by rewrite <- app_assoc). apply off_le. Qed.

(** Decoding the backward length that ends just before [off (L ++ [e])]. *)
Lemma lpDecodeBacklen_rep m L e R :
  lp_rep m (L ++ e :: R) ->
  lpDecodeBacklen m (off (L ++ [e]) - 1) = Done (len (entry_encode e)).
Proof.
  intros H. pose proof (lp_rep_total _ _ H) as Ht. pose proof (off_mid L e R) as Hm.
  rewrite off_snoc in *. rewrite total_off in Ht. pose proof (off_bounds L).
  pose proof (entry_layout_bounds e (lp_rep_wf_at _ _ _ _ H)).
  rewrite entry_layout_len, Z.add_assoc in *.
  apply lpDecodeBacklen_encode; [unfold UINT32_MAX, LP_HEADER_SIZE in *; len_lia|].
  apply lp_rep_entry in H. by apply points_app_r in H.
Qed.

Lemma lpValidateNext_rep m L e R :
  lp_rep m (L ++ e :: R) ->
  lpValidateNext m (total_bytes (L ++ e :: R)) (Some (off L)) =
    Done (if entry_is_64 e then (false, Some (off L)) else (true, Some (off (L ++ [e])))).
Proof.
  intros H. unfold lpValidateNext.
  pose proof (lp_rep_wf_at _ _ _ _ H) as Hw.
  pose proof (off_mid L e R) as Hm. pose proof (entry_layout_bounds e Hw) as Hl.
  pose proof (off_snoc L e) as Hs. pose proof (entry_encode_pos e Hw).
  rewrite (in_range_entry m L (e :: R)) by (done || lia).
  destruct (lp_rep_hd _ _ _ _ H) as (b & -> & Hb). rewrite bind_Done, Hb.
  destruct (lpCurrentEncodedSizeBytes_entry m (off L) e Hw) as (n & -> & Hn);
    [by eapply lp_rep_encode|]. rewrite bind_Done.
  destruct (entry_is_64 e); [by subst n|].
  destruct (Z.eqb_spec n 0); [lia|].
  rewrite (in_range_entry m L (e :: R)) by (done || lia).
  rewrite (lpCurrentEncodedSizeUnsafe_entry m _ e), bind_Done by eauto using lp_rep_encode.
  replace (off L + _) with (off (L ++ [e])) by (rewrite Hs, entry_layout_len; lia).
  rewrite (in_range_entry m L (e :: R)) by (done || lia).
  rewrite (lpDecodeBacklen_rep _ _ _ _ H), bind_Done.
  pose proof (lp_rep_total _ _ H) as Ht. rewrite total_off in Ht.
  rewrite <- entry_layout_len, u64_id, Z.eqb_refl; [done|].
  pose proof (off_bounds L). unfold UINT32_MAX, LP_HEADER_SIZE in *. lia.
Qed.

Lemma lpAssertValidEntry_rep m L e R :
  lp_rep m (L ++ e :: R) ->
  lpAssertValidEntry m (total_bytes (L ++ e :: R)) (off L) =
    (if entry_is_64 e then Stuck else Done tt).
Proof.
  intros H. unfold lpAssertValidEntry. rewrite lpValidateNext_rep by done.
  by destruct (entry_is_64 e).
Qed.

(** * Traversal *)

(** Result of landing on the entries [R] that follow [L]. *)
Definition landing (L R : list entry) : outcome (option Z) :=
  match R with
  | [] => Done None
  | e :: _ => if entry_is_64 e then Stuck else Done (Some (off L))
  end.

Lemma landing_at m L R :
  lp_rep m (L ++ R) ->
  (b ← rd m (off L);
   if b =? LP_EOF then mret None
   else lpAssertValidEntry m (total_bytes (L ++ R)) (off L);; mret (Some (off L)))
  = landing L R.
Proof.
  intros H. destruct R as [|e R]; cbn [landing].
  - rewrite app_nil_r in *. by rewrite (lp_rep_end _ _ H).
  - destruct (lp_rep_hd _ _ _ _ H) as (b & -> & Hb). rewrite bind_Done, Hb.
    rewrite lpAssertValidEntry_rep by done. by destruct (entry_is_64 e).
Qed.

Lemma lpFirst_rep m es : lp_rep m es -> lpFirst (Some m) = landing [] es.
Proof.
  intros H. rewrite <- (landing_at m [] es H). unfold lpFirst.
  change (off []) with LP_HEADER_SIZE.
  by rewrite (lpGetTotalBytes_rep _ _ H).
Qed.

Lemma lpNext_rep m L e R :
  lp_rep m (L ++ e :: R) -> lpNext m (Some (off L)) = landing (L ++ [e]) R.
Proof.
  intros H. unfold lpNext. rewrite (lpSkip_rep _ _ _ _ H), bind_Done.
  rewrite (lpGetTotalBytes_rep _ _ H), bind_Done.
  pose proof (off_mid L e R). pose proof (off_snoc L e).
  pose proof (entry_layout_bounds e (lp_rep_wf_at _ _ _ _ H)).
  pose proof (entry_encode_pos e (lp_rep_wf_at _ _ _ _ H)).
  rewrite (in_range_entry m L (e :: R)) by (done || lia).
  replace (L ++ e :: R) with ((L ++ [e]) ++ R) in * by (by rewrite <- app_assoc).
  by apply landing_at.
Qed.

Lemma lpPrev_rep m L e R :
  lp_rep m (L ++ e :: R) ->
  lpPrev m (Some (off (L ++ [e]))) =
    (if entry_is_64 e then Stuck else Done (Some (off L))).
Proof.
  intros H. unfold lpPrev. pose proof (off_snoc L e) as Hs.
  pose proof (entry_layout_bounds e (lp_rep_wf_at _ _ _ _ H)).
  pose proof (entry_encode_pos e (lp_rep_wf_at _ _ _ _ H)).
  pose proof (off_bounds L). pose proof (off_mid L e R).
  pose proof (lp_rep_total _ _ H) as Ht. rewrite total_off in Ht.
  destruct (Z.eqb_spec (off (L ++ [e])) LP_HEADER_SIZE); [lia|].
  rewrite (lpDecodeBacklen_rep _ _ _ _ H), bind_Done, <- entry_layout_len.
  rewrite u64_id by (unfold UINT32_MAX, LP_HEADER_SIZE in *; lia).
  replace (off (L ++ [e]) - 1 - len (entry_layout e) + 1) with (off L) by lia.
  rewrite (lpGetTotalBytes_rep _ _ H), bind_Done, lpAssertValidEntry_rep by done.
  by destruct (entry_is_64 e).
Qed.

Lemma lpPrev_first m : lpPrev m (Some (off [])) = Done None.
Proof. done. Qed.

Lemma lpLast_rep m es :
  lp_rep m es -> lpLast (Some m) = lpPrev m (Some (off es)).
Proof.
  intros H. unfold lpLast. rewrite (lpGetTotalBytes_rep _ _ H), bind_Done.
  do 3 f_equal. rewrite total_off. lia.
Qed.

(** * Seek and length *)

(** The pointer to element number [i], [nullptr] when there is none. *)
Definition ptr (es : list entry) (i : Z) : option Z :=
  if (0 <=? i) && (i <? len es) then Some (off (take (Z.to_nat i) es)) else None.

Definition no64 (es : list entry) : Prop := Forall (fun e => entry_is_64 e = false) es.

Lemma ptr_out es i : i < 0 \/ len es <= i -> ptr es i = None.
Proof.
  intros H. unfold ptr.
  destruct (Z.leb_spec 0 i), (Z.ltb_spec i (len es)); (done || lia).
Qed.

(** A valid index splits the list. *)
Lemma ptr_in es i : 0 <= i < len es ->
  exists L e R, es = L ++ e :: R /\ len L = i /\ ptr es i = Some (off L) /\
                es !! Z.to_nat i = Some e.
Proof.
  intros Hi. destruct (lookup_lt_is_Some_2 es (Z.to_nat i)) as [e He]; [unfold len in *; lia|].
  exists (take (Z.to_nat i) es), e, (drop (S (Z.to_nat i)) es). split_and!.
  - by apply split_at.
  - unfold len in *. rewrite length_take. lia.
  - unfold ptr. destruct (Z.leb_spec 0 i), (Z.ltb_spec i (len es)); (done || lia).
  - done.
Qed.

Lemma ptr_split L e R : ptr (L ++ e :: R) (len L) = Some (off L).
Proof.
  unfold ptr. destruct (Z.leb_spec 0 (len L)); [|len_lia].
  destruct (Z.ltb_spec (len L) (len (L ++ e :: R))); [|len_lia]. cbn [andb].
  unfold len. by rewrite Nat2Z.id, take_app_length.
Qed.

Lemma landing_ptr L R : no64 (L ++ R) -> landing L R = Done (ptr (L ++ R) (len L)).
Proof.
  intros H. destruct R as [|e R]; cbn [landing].
  - rewrite ptr_out; [done|]. rewrite app_nil_r. lia.
  - apply Forall_app in H as [_ H]. apply Forall_cons in H as [-> _]. by rewrite ptr_split.
Qed.

Section Traversal.
Context (m : list Z) (es : list entry) (Hrep : lp_rep m es) (H64 : no64 es).

Lemma lpFirst_ptr : lpFirst (Some m) = Done (ptr es 0).
Proof. rewrite (lpFirst_rep _ _ Hrep). by apply (landing_ptr [] es). Qed.

Lemma lpNext_ptr i : 0 <= i -> lpNext m (ptr es i) = Done (ptr es (i + 1)).
Proof using Hrep H64.
  intros Hi. destruct (Z.lt_ge_cases i (len es)).
  - destruct (ptr_in es i ltac:(lia)) as (L & e & R & E & <- & -> & _).
    rewrite E in Hrep, H64. rewrite (lpNext_rep _ _ _ _ Hrep).
    replace (L ++ e :: R) with ((L ++ [e]) ++ R) in H64 by (by rewrite <- app_assoc).
    rewrite landing_ptr by done. rewrite E, len_app, <- app_assoc. done.
  - by rewrite !ptr_out by lia.
Qed.

Lemma lpPrev_off L e R :
  es = L ++ e :: R -> lpPrev m (Some (off (L ++ [e]))) = Done (Some (off L)).
Proof using Hrep H64.
  intros E. rewrite E in Hrep, H64. rewrite (lpPrev_rep _ _ _ _ Hrep).
  apply Forall_app in H64 as [_ H64']. by apply Forall_cons in H64' as [-> _].
Qed.

Lemma lpPrev_end L R :
  es = L ++ R -> lpPrev m (Some (off L)) = Done (ptr es (len L - 1)).
Proof using Hrep H64.
  intros E. destruct L as [|e L _] using rev_ind.
  - rewrite ptr_out by (rewrite len_nil; lia). apply lpPrev_first.
  - rewrite (lpPrev_off L e R) by (by rewrite <- app_assoc in E).
    rewrite E, len_app, <- app_assoc. cbn [app].
    replace (len L + len [e] - 1) with (len L) by len_lia. by rewrite ptr_split.
Qed.

Lemma lpPrev_ptr i : i < len es -> lpPrev m (ptr es i) = Done (ptr es (i - 1)).
Proof using Hrep H64.
  intros Hi. destruct (Z.lt_ge_cases i 0); [by rewrite !ptr_out by lia|].
  destruct (ptr_in es i ltac:(lia)) as (L & e & R & E & <- & -> & _).
  by eapply lpPrev_end.
Qed.

Lemma lpLast_ptr : lpLast (Some m) = Done (ptr es (len es - 1)).
Proof using Hrep H64.
  rewrite (lpLast_rep _ _ Hrep). apply (lpPrev_end es []). by rewrite app_nil_r.
Qed.

Lemma lpSteps_next n i :
  0 <= i -> lpSteps (lpNext m) n (ptr es i) = Done (ptr es (i + Z.of_nat n)).
Proof using Hrep H64.
  revert i. induction n as [|n IH]; intros i Hi; cbn [lpSteps].
  - do 2 f_equal. lia.
  - pose proof (lpNext_ptr i Hi) as HN. destruct (ptr es i) eqn:E.
    + rewrite HN, bind_Done, IH by lia. do 2 f_equal. lia.
    + unfold mret, outcome_ret. rewrite ptr_out; [done|].
      destruct (Z.lt_ge_cases i (len es)); [|lia].
      destruct (ptr_in es i ltac:(lia)) as (?&?&?&?&?&?&?). congruence.
Qed.

Lemma lpSteps_prev n i :
  i < len es -> lpSteps (lpPrev m) n (ptr es i) = Done (ptr es (i - Z.of_nat n)).
Proof using Hrep H64.
  revert i. induction n as [|n IH]; intros i Hi; cbn [lpSteps].
  - do 2 f_equal. lia.
  - pose proof (lpPrev_ptr i Hi) as HN. destruct (ptr es i) eqn:E.
    + rewrite HN, bind_Done, IH by lia. do 2 f_equal. lia.
    + unfold mret, outcome_ret. rewrite ptr_out; [done|].
      destruct (Z.lt_ge_cases i 0); [lia|].
      destruct (ptr_in es i ltac:(lia)) as (?&?&?&?&?&?&?). congruence.
Qed.

Lemma lpSeek_scan_forward i : 0 <= i -> lpSeek_scan m true i = Done (ptr es i).
Proof using Hrep H64.
  intros Hi. cbn [lpSeek_scan]. rewrite lpFirst_ptr, bind_Done, lpSteps_next by lia.
  do 2 f_equal. lia.
Qed.

Lemma lpSeek_scan_backward i : i < 0 -> lpSeek_scan m false i = Done (ptr es (len es + i)).
Proof using Hrep H64.
  intros Hi. cbn [lpSeek_scan]. rewrite lpLast_ptr, bind_Done, lpSteps_prev by lia.
  do 2 f_equal. lia.
Qed.

Lemma lpSeek_ptr i :
  lpSeek m i = Done (ptr es (if i <? 0 then len es + i else i)).
Proof using Hrep H64.
  destruct (lpGetTotalNumElements_rep _ _ Hrep) as (num & Hnum & Hb & Hv).
  unfold lpSeek. rewrite Hnum, bind_Done. pose proof (len_nonneg es).
  destruct (Z.eqb_spec num LP_HDR_NUMELE_UNKNOWN) as [_|Hk]; cbn [negb].
  - destruct (Z.ltb_spec i 0); [by apply lpSeek_scan_backward|by apply lpSeek_scan_forward].
  - destruct Hv as [|Hv]; [done|]. subst num.
    set (j := if i <? 0 then len es + i else i).
    destruct (Z.ltb_spec j 0); [by rewrite ptr_out by lia|].
    destruct (Z.leb_spec (len es) j); [by rewrite ptr_out by lia|].
    destruct (Z.ltb_spec (len es / 2) j).
    + rewrite lpSeek_scan_backward by lia. do 2 f_equal. lia.
    + by apply lpSeek_scan_forward.
Qed.

Lemma lpLength_loop_ptr fuel i :
  0 <= i <= len es -> len es < 2 ^ 32 -> (Z.to_nat (len es - i) < fuel)%nat ->
  lpLength_loop fuel m (ptr es i) i = Done (len es).
Proof using Hrep H64.
  revert i. induction fuel as [|fuel IH]; intros i Hi Hn Hf; [lia|]. cbn [lpLength_loop].
  destruct (Z.lt_ge_cases i (len es)).
  - pose proof (lpNext_ptr i ltac:(lia)) as HN.
    destruct (ptr_in es i ltac:(lia)) as (L & e & R & E & ? & HP & _).
    rewrite HP in *. rewrite HN, bind_Done, u32_id by lia. apply IH; lia.
  - rewrite ptr_out by lia. unfold mret, outcome_ret. f_equal. lia.
Qed.
End Traversal.

Lemma body_length es : Forall entry_wf es -> 2 * len es <= len (body es).
Proof.
  induction 1 as [|e es He _ IH]; [done|]. rewrite body_cons.
  pose proof (entry_layout_bounds e He). pose proof (entry_encode_pos e He). len_lia.
Qed.

Lemma lp_rep_len m es : lp_rep m es -> 2 * len es < len m /\ len es < 2 ^ 31.
Proof.
  intros (Hw & Ht & num & slack & -> & _). apply body_length in Hw.
  unfold total_bytes, LP_HEADER_SIZE, UINT32_MAX in *. len_lia.
Qed.

(** * Header updates *)
Lemma le_split4_land t :
  [Z.land t 255; Z.land (Z.shiftr t 8) 255; Z.land (Z.shiftr t 16) 255;
   Z.land (Z.shiftr t 24) 255] = le_split 4 t.
Proof. cbn [le_split]. rewrite !land_255, !shiftr_div by lia. by rewrite !Z.div_div by lia. Qed.

Lemma le_split2_land t : [Z.land t 255; Z.land (Z.shiftr t 8) 255] = le_split 2 t.
Proof. cbn [le_split]. by rewrite !land_255, !shiftr_div by lia. Qed.

Lemma lpSetTotalBytes_mem a b X t :
  lpSetTotalBytes (le_split 4 a ++ le_split 2 b ++ X) t =
  Done (le_split 4 t ++ le_split 2 b ++ X).
Proof. unfold lpSetTotalBytes. rewrite le_split4_land. by apply (wr_at []). Qed.

Lemma lpSetNumElements_mem a b X n :
  lpSetNumElements (le_split 4 a ++ le_split 2 b ++ X) n =
  Done (le_split 4 a ++ le_split 2 n ++ X).
Proof. unfold lpSetNumElements. rewrite le_split2_land. by apply wr_at. Qed.

Lemma lpLength_rep m es :
  lp_rep m es -> no64 es ->
  exists m', lpLength m = Done (len es, m') /\ lp_rep m' es.
Proof.
  intros Hr H64. unfold lpLength.
  destruct (lpGetTotalNumElements_rep _ _ Hr) as (num & Hnum & Hb & Hv).
  rewrite Hnum, bind_Done. destruct (Z.eqb_spec num LP_HDR_NUMELE_UNKNOWN) as [_|Hk]; cbn [negb].
  - pose proof (lp_rep_len _ _ Hr) as Hl.
    rewrite (lpFirst_ptr m es) by done. rewrite bind_Done, (lpLength_loop_ptr m es) by
      (done || len_lia || (unfold len in *; lia)).
    rewrite bind_Done. destruct (Z.ltb_spec (len es) LP_HDR_NUMELE_UNKNOWN).
    + destruct Hr as (Hw & Ht & num' & slack & -> & _).
      rewrite lpSetNumElements_mem, bind_Done. eexists. split; [done|].
      split; [done|]. split; [done|]. exists (len es), slack. split; [done|].
      unfold LP_HDR_NUMELE_UNKNOWN in *. len_lia.
    + exists m. done.
  - exists m. destruct Hv as [|<-]; [done|]. done.
Qed.

(** * Insertion, deletion, replacement *)
Lemma rdn_app A X C n : n = len X -> rdn (A ++ X ++ C) (len A) n = Done X.
Proof. intros ->. eapply points_rdn; [apply points_intro|done]. Qed.

Lemma rd_app_hd A b Y : rd (A ++ b :: Y) (len A) = Done b.
Proof. apply (points_rd0 _ _ b []). by exists A, Y. Qed.

(** [wr] over a region given by its length only. *)
Lemma wr_region A B W :
  len W <= len B ->
  wr (A ++ B) (len A) W = Done (A ++ W ++ drop (length W) B).
Proof.
  intros H. rewrite <- (take_drop (length W) B) at 1.
  apply wr_app. unfold len in *. rewrite length_take. lia.
Qed.

Section Insertion.
Context (junk : nat -> Z).

Lemma alloc_len n : 0 <= n -> len (alloc junk n) = n.
Proof. intros. unfold alloc, len. rewrite length_map, length_seq. lia. Qed.

Lemma lpRealloc_grow A C n :
  len A <= n -> exists J, lpRealloc junk (A ++ C) n (len A) = Done (A ++ J) /\ len J = n - len A.
Proof.
  intros Hn. pose proof (len_nonneg A).
  unfold lpRealloc. rewrite (rdn_app [] A C), bind_Done by done.
  pose proof (alloc_len n ltac:(lia)) as Ha.
  exists (drop (length A) (alloc junk n)). split.
  - apply (wr_region [] (alloc junk n) A). lia.
  - unfold len in *. rewrite length_drop. lia.
Qed.

(** Moving the tail [T] to leave exactly [size] bytes after [A]. *)
Lemma memmove_tail A Y T C size :
  len T + size <= len Y + len T + len C -> 0 <= size ->
  exists B S, memmove (A ++ Y ++ T ++ C) (len A + size) (len A + len Y) (len T)
              = Done (A ++ B ++ T ++ S) /\ len B = size /\
              len S = len Y + len C - size.
Proof.
  intros Hs H0. unfold memmove.
  replace (len A + len Y) with (len (A ++ Y)) by len_lia.
  rewrite app_assoc, (rdn_app (A ++ Y) T C), bind_Done by done.
  set (X := Y ++ T ++ C). rewrite <- app_assoc. fold X.
  assert (HX : len X = len Y + len T + len C) by (subst X; len_lia).
  exists (take (Z.to_nat size) X), (drop (length T) (drop (Z.to_nat size) X)).
  assert (Hk : len (take (Z.to_nat size) X) = size)
    by (unfold len in *; rewrite length_take; lia).
  split_and!; [|done|unfold len in *; rewrite !length_drop; lia].
  rewrite <- (take_drop (Z.to_nat size) X) at 1.
  rewrite app_assoc. replace (len A + size) with (len (A ++ take (Z.to_nat size) X))
    by (rewrite len_app; lia).
  rewrite wr_region; [by rewrite <- !app_assoc|].
  unfold len in *. rewrite length_drop. lia.
Qed.

(** Both reallocations and the move: whatever the sizes, the bytes [A] before
    and the tail [T] after the hole survive, and nothing else is kept. *)
Lemma lpInsert_room_ok A Y T slack size w :
  let old := len A + len Y + len T in
  let new := len A + size + len T in
  0 <= size -> (w = LP_BEFORE -> Y = []) -> w <> LP_AFTER ->
  exists B S,
    lpInsert_room junk (A ++ Y ++ T ++ slack) old new (len A) size (len Y) w
    = Done (A ++ B ++ T ++ S) /\ len B = size.
Proof.
  intros old new Hs Hw Ha. unfold lpInsert_room.
  pose proof (len_nonneg A). pose proof (len_nonneg Y). pose proof (len_nonneg T).
  set (src := len A + len Y).
  assert (Hmv : forall m, (match w with
       | LP_BEFORE => memmove m (len A + size) (len A) (old - len A)
       | _ => memmove m (len A + size) (len A + len Y) (old - len A - len Y)
       end) = memmove m (len A + size) (len A + len Y) (len T)).
  { intros m. subst old. destruct w; [|done|f_equal; lia].
    rewrite Hw, len_nil by done. f_equal; lia. }
  destruct (Z.ltb_spec old new) as [Hg|Hg].
  - destruct (lpRealloc_grow (A ++ Y ++ T) slack new) as (J & EJ & HJ); [len_lia|].
    rewrite <- !app_assoc in EJ.
    replace (len (A ++ Y ++ T)) with old in EJ by (subst old; len_lia).
    rewrite EJ, bind_Done, Hmv.
    destruct (memmove_tail A Y T J size) as (B & S & -> & HB & HS); [len_lia|done|].
    rewrite bind_Done. destruct (Z.ltb_spec new old); [lia|]. by exists B, S.
  - rewrite bind_Done, Hmv.
    destruct (memmove_tail A Y T slack size) as (B & S & -> & HB & HS); [len_lia|done|].
    rewrite bind_Done. destruct (Z.ltb_spec new old) as [Hl|Hl]; [|by exists B, S].
    destruct (lpRealloc_grow (A ++ B ++ T) S new) as (J & EJ & HJ); [len_lia|].
    rewrite <- !app_assoc in EJ.
    replace (len (A ++ B ++ T)) with new in EJ by (subst new; len_lia).
    exists B, J. rewrite EJ. done.
Qed.

Lemma write_entry A B C X Y :
  len B = len X + len Y ->
  (m ← wr (A ++ B ++ C) (len A) X; wr m (len A + len X) Y) = Done (A ++ (X ++ Y) ++ C).
Proof.
  intros HB. rewrite wr_region, bind_Done by len_lia.
  rewrite (app_assoc A X). replace (len A + len X) with (len (A ++ X)) by len_lia.
  rewrite drop_app_le by (unfold len in *; lia).
  rewrite wr_app; [by rewrite <- !app_assoc|]. unfold len in *. rewrite length_drop. lia.
Qed.

(** A listpack with header [t], [num] around the entries and the marker. *)
Definition lp_mem (t num : Z) (X : list Z) : list Z :=
  le_split 4 t ++ le_split 2 num ++ X.

Lemma lp_mem_len t num X : len (lp_mem t num X) = LP_HEADER_SIZE + len X.
Proof. unfold lp_mem. rewrite !len_app. unfold len. by rewrite !le_split_length, Z.add_assoc. Qed.

Lemma lp_mem_app t num X Y : lp_mem t num X ++ Y = lp_mem t num (X ++ Y).
Proof. unfold lp_mem. by rewrite <- !app_assoc. Qed.

Lemma lpGetTotalNumElements_mem t num X : 0 <= num <= UINT16_MAX ->
  lpGetTotalNumElements (lp_mem t num X) = Done num.
Proof.
  intros Hn. assert (Hp : points (lp_mem t num X) 4 (le_split 2 num)).
  { exists (le_split 4 t), X. split; [done|]. unfold len. by rewrite le_split_length. }
  unfold UINT16_MAX in Hn.
  pose proof (le_split_bytes 2 num) as Hb.
  pose proof (le_combine_split 2 num ltac:(cbn; lia)) as Hc.
  cbn [le_split] in Hp, Hb, Hc. unfold lpGetTotalNumElements.
  rewrite <- (le2 _ _ Hb) in Hc. bytes_bounds.
  rewrite (points_rd0 _ _ _ _ Hp), bind_Done.
  rewrite (points_rd _ _ _ 1 _ Hp eq_refl : rd _ 5 = _), bind_Done.
  rewrite !land_byte_255 by done. by rewrite Hc.
Qed.

(** The element count after an insertion or a deletion. *)
Definition next_num (num d : Z) : Z :=
  if num =? LP_HDR_NUMELE_UNKNOWN then num else num + d.

Lemma lp_rep_intro num es t S :
  Forall entry_wf es -> t = total_bytes es -> t <= UINT32_MAX ->
  0 <= num <= UINT16_MAX -> num = LP_HDR_NUMELE_UNKNOWN \/ num = len es ->
  lp_rep (lp_mem t num (body es ++ [LP_EOF] ++ S)) es.
Proof. intros ? -> ???. split; [done|]. split; [done|]. by exists num, S. Qed.

(** The arguments of [lpInsert] that store the entry [e]. *)
Inductive stores : option (list Z) -> option (list Z) -> entry -> Prop :=
| stores_str s : stores (Some s) None (entry_of_bytes s)
| stores_int v : stores None (Some (lpEncodeIntegerGetType v)) (EInt v).

(** The outcome of storing: [None] when the listpack would outgrow 32 bits. *)
Definition stored (r : outcome (option (list Z * option Z))) (L R : list entry)
    (e : entry) : Prop :=
  if UINT32_MAX <? total_bytes (L ++ e :: R) then r = Done None
  else exists m', r = Done (Some (m', Some (off L))) /\ lp_rep m' (L ++ e :: R).

(** The same, with the element count the header then has. *)
Definition stored_num (num : Z) (r : outcome (option (list Z * option Z))) (L R : list entry)
    (e : entry) : Prop :=
  if UINT32_MAX <? total_bytes (L ++ e :: R) then r = Done None
  else exists m', r = Done (Some (m', Some (off L))) /\ lp_rep m' (L ++ e :: R) /\
                  lpGetTotalNumElements m' = Done num.

Lemma stored_num_forget num r L R e : stored_num num r L R e -> stored r L R e.
Proof. unfold stored_num, stored. destruct (_ <? _); [done|]. intros (m' & ? & ? & _). by exists m'. Qed.

Lemma stores_encoding elestr eleint e :
  stores elestr eleint e ->
  match elestr, eleint with None, None => true | _, _ => false end = false /\
  (match elestr, eleint with
   | Some s, _ =>
       match lpEncodeGetType s with
       | (LP_ENCODING_INT, intenc, enclen) => (intenc, enclen)
       | (LP_ENCODING_STRING, _, enclen) => (lpEncodeString s, enclen)
       end
   | None, Some i => (i, len i)
   | None, None => ([], 0)
   end) = (entry_encode e, len (entry_encode e)).
Proof.
  intros [s|v]; (split; [done|]); [|done].
  pose proof (lpEncodeGetType_enclen s) as H. unfold entry_of_bytes in *.
  destruct (lpEncodeGetType s) as [[[] intenc] enclen], H as [-> H].
  - destruct H as (v & -> & ->). done.
  - by rewrite H.
Qed.

Lemma rep_split m L Y R :
  lp_rep m (L ++ Y ++ R) ->
  exists num slack, m = lp_mem (total_bytes (L ++ Y ++ R)) num
      (body L ++ body Y ++ (body R ++ [LP_EOF]) ++ slack) /\
    0 <= num <= UINT16_MAX /\ (num = LP_HDR_NUMELE_UNKNOWN \/ num = len L + len Y + len R) /\
    lpGetTotalNumElements m = Done num.
Proof.
  intros (_ & _ & num & slack & -> & Hb & Hn). exists num, slack. split_and!; [|lia|lia| |].
  - unfold lp_mem. by rewrite !body_app, <- !app_assoc.
  - rewrite !len_app in Hn. destruct Hn; [by left|right; lia].
  - by apply lpGetTotalNumElements_mem.
Qed.

Lemma entry_replaced_len m L x R :
  lp_rep m (L ++ x :: R) ->
  (r ← lpCurrentEncodedSizeUnsafe m (off L);
   let r := u32 (r + lpEncodeBacklenBytes r) in
   ASSERT_INTEGRITY_LEN m (off L) r;; mret r) = Done (len (entry_layout x)).
Proof.
  intros H. rewrite (lpCurrentEncodedSizeUnsafe_entry m _ x), bind_Done
    by eauto using lp_rep_wf_at, lp_rep_encode. cbv zeta.
  pose proof (lp_rep_total _ _ H) as Ht. pose proof (off_mid L x R). pose proof (off_snoc L x).
  pose proof (off_bounds L). rewrite total_off in Ht.
  rewrite <- entry_layout_len, u32_id by (unfold UINT32_MAX, LP_HEADER_SIZE in *; len_lia).
  unfold ASSERT_INTEGRITY_LEN. rewrite (lpGetTotalBytes_rep _ _ H), bind_Done, total_off.
  destruct (Z.leb_spec LP_HEADER_SIZE (off L)); [|lia].
  destruct (Z.ltb_spec (off L + len (entry_layout x)) (off (L ++ x :: R) + 1)); [done|lia].
Qed.

(** Which bytes an insertion at [p] replaces. *)
Inductive hole : lp_where -> list entry -> Prop :=
| hole_before : hole LP_BEFORE []
| hole_replace x : hole LP_REPLACE [x].

Lemma total_bytes_hole L Y R :
  total_bytes (L ++ Y ++ R) = LP_HEADER_SIZE + len (body L) + len (body Y) + len (body R ++ [LP_EOF]).
Proof. unfold total_bytes. rewrite !body_app. len_lia. Qed.

(** The last two steps of [lpInsert]: header updates. *)
Lemma header_finish {A} num t0 t X d (f : list Z -> outcome A) :
  0 <= num <= UINT16_MAX -> 0 <= next_num num d <= UINT16_MAX ->
  (m ← (n ← lpGetTotalNumElements (lp_mem t0 num X);
        if negb (n =? LP_HDR_NUMELE_UNKNOWN)
        then lpSetNumElements (lp_mem t0 num X) (u32 (n + d))
        else mret (lp_mem t0 num X));
   m ← lpSetTotalBytes m t; f m) = f (lp_mem t (next_num num d) X).
Proof.
  intros Hn Hd.
  rewrite lpGetTotalNumElements_mem, bind_Done by done. unfold next_num in *.
  destruct (num =? LP_HDR_NUMELE_UNKNOWN); cbn [negb].
  - rewrite bind_Done. unfold lp_mem. by rewrite lpSetTotalBytes_mem.
  - rewrite u32_id by (unfold UINT16_MAX in *; lia). unfold lp_mem.
    by rewrite lpSetNumElements_mem, bind_Done, lpSetTotalBytes_mem.
Qed.

Lemma lpSetTotalBytes_finish {A} num t0 t X (f : list Z -> outcome A) :
  (m ← lpSetTotalBytes (lp_mem t0 num X) t; f m) = f (lp_mem t num X).
Proof. unfold lp_mem. by rewrite lpSetTotalBytes_mem. Qed.

Lemma next_num_ok num n d :
  0 <= num <= UINT16_MAX -> num = LP_HDR_NUMELE_UNKNOWN \/ num = n ->
  -1 <= d <= 1 -> 0 <= n + d ->
  0 <= next_num num d <= UINT16_MAX /\
  (next_num num d = LP_HDR_NUMELE_UNKNOWN \/ next_num num d = n + d).
Proof.
  unfold next_num, LP_HDR_NUMELE_UNKNOWN, UINT16_MAX. intros. destruct (Z.eqb_spec num 65535); lia.
Qed.

(** The room made for an entry of [size] bytes. *)
Lemma room_rep m L Y R w size :
  lp_rep m (L ++ Y ++ R) -> hole w Y -> 0 <= size ->
  exists num B S,
    lpInsert_room junk m (total_bytes (L ++ Y ++ R))
      (total_bytes (L ++ Y ++ R) + size - len (body Y)) (off L) size (len (body Y)) w
    = Done (lp_mem (total_bytes (L ++ Y ++ R)) num (body L ++ B ++ (body R ++ [LP_EOF]) ++ S)) /\
    len B = size /\ 0 <= num <= UINT16_MAX /\
    (num = LP_HDR_NUMELE_UNKNOWN \/ num = len L + len Y + len R) /\
    lpGetTotalNumElements m = Done num.
Proof.
  intros Hr Hh Hs. destruct (rep_split _ _ _ _ Hr) as (num & slack & -> & Hb & Hn & Hg).
  set (t := total_bytes (L ++ Y ++ R)).
  destruct (lpInsert_room_ok (lp_mem t num (body L)) (body Y) (body R ++ [LP_EOF]) slack size w)
    as (B & S & E & HB).
  - done.
  - by destruct Hh.
  - by destruct Hh.
  - rewrite !lp_mem_len, !lp_mem_app in E. fold (off L) in E.
    exists num, B, S. split; [|done]. rewrite <- E. subst t. rewrite total_bytes_hole.
    unfold off. f_equal; len_lia.
Qed.

Lemma entry_encode_lt e : entry_wf e -> len (entry_encode e) < 2 ^ 32 + 9.
Proof.
  destruct e as [v|s]; cbn [entry_wf entry_encode]; intros Hw.
  - destruct (lpEncodeIntegerGetType_spec v Hw); cbn [le_split]; len_lia.
  - destruct Hw as [_ Hw]. destruct (lpEncodeString_spec s); cbn [le_split]; len_lia.
Qed.

Lemma lpInsert_store_num m L Y R elestr eleint e w n :
  lp_rep m (L ++ Y ++ R) -> stores elestr eleint e -> entry_wf e -> hole w Y ->
  lpGetTotalNumElements m = Done n ->
  stored_num (match Y with [] => next_num n 1 | _ => n end) (lpInsert junk m elestr eleint (off L) w) L R e.
Proof.
  intros Hr Hst Hw Hh Hg. destruct (stores_encoding _ _ _ Hst) as [Hd He].
  pose proof (lp_rep_total _ _ Hr) as Ht. pose proof (lp_rep_wf _ _ Hr) as Hwf.
  assert (Hrep : (if bool_decide (w = LP_REPLACE) then
      r ← lpCurrentEncodedSizeUnsafe m (off L);
      let r := u32 (r + lpEncodeBacklenBytes r) in
      ASSERT_INTEGRITY_LEN m (off L) r;; mret r else mret 0) = Done (len (body Y))).
  { destruct Hh; [done|]. rewrite bool_decide_true by done.
    rewrite (entry_replaced_len m L x R Hr). unfold body. cbn. by rewrite app_nil_r. }
  assert (HT : total_bytes (L ++ e :: R) =
               total_bytes (L ++ Y ++ R) + len (entry_layout e) - len (body Y)).
  { change (L ++ e :: R) with (L ++ [e] ++ R). rewrite !total_bytes_hole.
    unfold body at 2. cbn [map concat]. rewrite app_nil_r. lia. }
  destruct (room_rep m L Y R w (len (entry_layout e)) Hr Hh (len_nonneg _))
    as (num & B & S & EB & HB & Hb & Hn & Hg').
  rewrite Hg' in Hg. injection Hg as <-.
  pose proof (entry_layout_bounds e Hw) as Hel. pose proof (entry_encode_pos e Hw) as Hpos.
  pose proof (entry_encode_lt e Hw) as Hlt.
  assert (H0 : 0 < total_bytes (L ++ e :: R) < 2 ^ 64).
  { split; [unfold total_bytes, LP_HEADER_SIZE; len_lia|]. unfold UINT32_MAX in Ht.
    rewrite HT. len_lia. }
  cbv zeta in Hrep. unfold lpInsert. rewrite Hd. cbv zeta iota.
  assert (HA : (match w with
             | LP_AFTER => p ← lpSkip m (off L); ASSERT_INTEGRITY m p;; mret (p, LP_BEFORE)
             | _ => mret (off L, w)
             end) = Done (off L, w)) by (by destruct Hh).
  rewrite HA, bind_Done, He, (lpGetTotalBytes_rep _ _ Hr), bind_Done, Hrep, bind_Done.
  rewrite lpEncodeBacklen_len, <- Z.add_assoc, <- entry_layout_len, <- HT, u64_id by lia.
  unfold stored_num. destruct (Z.ltb_spec UINT32_MAX (total_bytes (L ++ e :: R))) as [Hx|Hx]; [done|].
  rewrite HT, EB, !bind_Done. cbn [negb andb orb]. rewrite orb_false_r.
  pose proof (write_entry (lp_mem (total_bytes (L ++ Y ++ R)) num (body L)) B
    ((body R ++ [LP_EOF]) ++ S) (entry_encode e) (lpEncodeBacklen (len (entry_encode e)))) as HW.
  rewrite lpEncodeBacklen_len, <- entry_layout_len, !lp_mem_app, lp_mem_len in HW.
  fold (off L) (entry_layout e) in HW. rewrite HW, bind_Done by done. clear HW EB.
  assert (Hwf' : Forall entry_wf (L ++ e :: R)).
  { rewrite !Forall_app in Hwf. rewrite Forall_app, Forall_cons. tauto. }
  assert (Hbody : body L ++ entry_layout e ++ (body R ++ [LP_EOF]) ++ S
                  = body (L ++ e :: R) ++ [LP_EOF] ++ S)
    by (by rewrite body_app, body_cons, <- !app_assoc).
  pose proof (len_nonneg L). pose proof (len_nonneg R).
  destruct Hh; cbn [negb bool_decide]; rewrite Hbody, <- HT.
  - rewrite bool_decide_false by done. cbn [negb].
    rewrite len_nil, Z.add_0_r in Hn.
    destruct (next_num_ok num (len L + len R) 1) as [Hb' Hn']; [done..|lia|lia|].
    rewrite header_finish by done.
    eexists. split; [done|]. split; [|by apply lpGetTotalNumElements_mem]. apply lp_rep_intro; try done. len_lia.
  - rewrite bool_decide_true by done. cbn [negb]. rewrite bind_Done, lpSetTotalBytes_finish.
    eexists. split; [done|]. split; [|by apply lpGetTotalNumElements_mem]. apply lp_rep_intro; try done.
    change (len [x]) with 1 in Hn. len_lia.
Qed.

Lemma lpInsert_store m L Y R elestr eleint e w :
  lp_rep m (L ++ Y ++ R) -> stores elestr eleint e -> entry_wf e -> hole w Y ->
  stored (lpInsert junk m elestr eleint (off L) w) L R e.
Proof.
  intros Hr Hst Hw Hh. destruct (lpGetTotalNumElements_rep _ _ Hr) as (n & Hn & _).
  by eapply stored_num_forget, lpInsert_store_num.
Qed.

Lemma lpInsert_delete m L x R :
  lp_rep m (L ++ x :: R) ->
  exists m', lpInsert junk m None None (off L) LP_REPLACE
             = Done (Some (m', match R with [] => None | _ => Some (off L) end)) /\
             lp_rep m' (L ++ R).
Proof.
  intros Hr. pose proof (lp_rep_total _ _ Hr) as Ht. pose proof (lp_rep_wf _ _ Hr) as Hwf.
  assert (HT : total_bytes (L ++ R) = total_bytes (L ++ [x] ++ R) + 0 - len (body [x])).
  { change (L ++ R) with (L ++ [] ++ R) at 1. rewrite !total_bytes_hole.
    change (body []) with (@nil Z). len_lia. }
  change (L ++ x :: R) with (L ++ [x] ++ R) in Ht.
  destruct (room_rep m L [x] R LP_REPLACE 0 Hr (hole_replace x) ltac:(lia))
    as (num & B & S & EB & HB & Hb & Hn & _).
  assert (H0 : 0 < total_bytes (L ++ R) < 2 ^ 64).
  { split; [unfold total_bytes, LP_HEADER_SIZE; len_lia|]. unfold UINT32_MAX in Ht.
    rewrite HT. len_lia. }
  pose proof (entry_replaced_len m L x R Hr) as Hrep. cbv zeta in Hrep.
  assert (Hx : len (body [x]) = len (entry_layout x)) by (unfold body; cbn; by rewrite app_nil_r).
  unfold lpInsert. cbv zeta iota. rewrite bind_mret. cbv beta iota zeta.
  rewrite (lpGetTotalBytes_rep _ _ Hr), bind_Done.
  rewrite (bool_decide_true (LP_REPLACE = LP_REPLACE)) by done.
  rewrite Hrep, bind_Done, (@len_nil Z), !Z.add_0_r, <- Hx. rewrite Z.add_0_r in HT, EB.
  change (L ++ x :: R) with (L ++ [x] ++ R) in *. rewrite <- HT, u64_id by lia.
  destruct (Z.ltb_spec UINT32_MAX (total_bytes (L ++ R))) as [Hx'|Hle]; [len_lia|].
  rewrite HT, EB, bind_Done, <- HT.
  apply len_0 in HB. subst B. cbn [app].
  rewrite !Forall_app in Hwf.
  pose proof (len_nonneg L). pose proof (len_nonneg R). change (len [x]) with 1 in Hn.
  change (L ++ [x] ++ R) with (L ++ x :: R). set (t0 := total_bytes (L ++ x :: R)).
  assert (Hrd : (b ← rd (lp_mem t0 num (body L ++ (body R ++ [LP_EOF]) ++ S)) (off L);
                 mret (if b =? LP_EOF then None else Some (off L)))
                = Done (match R with [] => None | _ => Some (off L) end)).
  { unfold off. rewrite <- (lp_mem_len t0 num), <- lp_mem_app.
    destruct R as [|y R].
    - change (body [] ++ [LP_EOF]) with [LP_EOF].
      cbn [app]. by rewrite rd_app_hd, bind_Done.
    - destruct Hwf as (_ & _ & Hy). apply Forall_cons in Hy as [Hy _].
      apply entry_encode_hd in Hy as (b & X & E & Hb0).
      rewrite body_cons. unfold entry_layout. rewrite E. cbn [app].
      rewrite rd_app_hd, bind_Done.
      by rewrite (proj2 (Z.eqb_neq b LP_EOF) Hb0). }
  rewrite Hrd, bind_Done, bind_mret. cbn [negb orb].
  destruct (next_num_ok num (len L + (1 + len R)) (-1)) as [Hb' Hn']; [done|lia|lia|lia|].
  unfold Z.sub. rewrite header_finish by done. change (- (1)) with (-1). eexists. split; [done|].
  replace (body L ++ (body R ++ [LP_EOF]) ++ S) with (body (L ++ R) ++ [LP_EOF] ++ S)
    by (by rewrite body_app, <- !app_assoc).
  apply lp_rep_intro; try done; [rewrite Forall_app; tauto|len_lia..].
Qed.
End Insertion.

(** * The exported insertion routines *)
Lemma wr_region_at A B W p :
  p = len A -> len W <= len B -> wr (A ++ B) p W = Done (A ++ W ++ drop (length W) B).
Proof. intros ->. apply wr_region. Qed.

Lemma le_split_len n v : len (le_split n v) = Z.of_nat n.
Proof. unfold len. by rewrite le_split_length. Qed.

Lemma len_drop {A} n (l : list A) : Z.of_nat n <= len l -> len (drop n l) = len l - Z.of_nat n.
Proof. unfold len. rewrite length_drop. lia. Qed.

Section Wrappers.
Context (junk : nat -> Z).

Lemma lpNew_num capacity :
  exists m, lpNew junk capacity = Done m /\ lp_rep m [] /\ lpGetTotalNumElements m = Done 0.
Proof.
  unfold lpNew. set (c := if LP_HEADER_SIZE + 1 <? capacity then capacity else LP_HEADER_SIZE + 1).
  assert (Hc : 7 <= c) by (unfold c, LP_HEADER_SIZE; zcase; lia).
  pose proof (alloc_len junk c ltac:(lia)) as Ha. revert Ha.
  generalize (alloc junk c) as A. intros A Ha.
  unfold lpSetTotalBytes. rewrite le_split4_land. change (LP_HEADER_SIZE + 1) with 7.
  rewrite (wr_region_at [] A _ 0 : _ -> _ -> wr A 0 _ = _), bind_Done
    by (done || (rewrite le_split_len; lia)).
  unfold lpSetNumElements. rewrite le_split2_land. cbn [app].
  rewrite wr_region_at, bind_Done
    by (done || (rewrite !le_split_length, le_split_len, len_drop; lia)).
  rewrite !le_split_length, drop_drop, app_assoc. rewrite wr_region_at;
    [|done|rewrite len_drop, len_cons, len_nil by lia; lia].
  eexists. split; [done|]. rewrite <- app_assoc. split; [apply (lp_rep_intro 0 [])|apply lpGetTotalNumElements_mem];
    (done || lia || (unfold UINT16_MAX, UINT32_MAX; lia) || by right).
Qed.

Lemma lpNew_rep capacity : exists m, lpNew junk capacity = Done m /\ lp_rep m [].
Proof. destruct (lpNew_num capacity) as (m & ? & ? & _). by exists m. Qed.

(** [stored], for the routines that do not return [*newp]. *)
Definition stored_at (r : outcome (option (list Z))) (L R : list entry) (e : entry) : Prop :=
  if UINT32_MAX <? total_bytes (L ++ e :: R) then r = Done None
  else exists m', r = Done (Some m') /\ lp_rep m' (L ++ e :: R).

Lemma stored_forget r L R e :
  stored r L R e -> stored_at (r ← r; mret (option_map fst r)) L R e.
Proof.
  unfold stored, stored_at. destruct (UINT32_MAX <? _).
  - by intros ->.
  - intros (m' & -> & H). by exists m'.
Qed.

Lemma lpInsert_end m es elestr eleint e :
  lp_rep m es -> stores elestr eleint e -> entry_wf e ->
  stored (lpInsert junk m elestr eleint (total_bytes es - 1) LP_BEFORE) es [] e.
Proof.
  intros Hr Hs Hw. replace (total_bytes es - 1) with (off es) by (rewrite total_off; lia).
  apply (lpInsert_store junk m es [] []); [by rewrite app_nil_r|done..|constructor].
Qed.

Lemma lpAppend_rep m es s :
  lp_rep m es -> entry_wf (entry_of_bytes s) ->
  stored_at (lpAppend junk m s) es [] (entry_of_bytes s).
Proof.
  intros Hr Hw. unfold lpAppend. rewrite (lpGetTotalBytes_rep _ _ Hr), bind_Done.
  apply stored_forget, lpInsert_end; [done|constructor|done].
Qed.

Lemma lpAppendInteger_rep m es v :
  lp_rep m es -> is_i64 v -> stored_at (lpAppendInteger junk m v) es [] (EInt v).
Proof.
  intros Hr Hw. unfold lpAppendInteger. rewrite (lpGetTotalBytes_rep _ _ Hr), bind_Done.
  apply stored_forget, lpInsert_end; [done|constructor|done].
Qed.

Lemma lpPrepend_rep m es s :
  lp_rep m es -> no64 es -> entry_wf (entry_of_bytes s) ->
  stored_at (lpPrepend junk m s) [] es (entry_of_bytes s).
Proof.
  intros Hr H64 Hw. unfold lpPrepend. rewrite (lpFirst_rep _ _ Hr).
  destruct es as [|e es]; cbn [landing].
  - rewrite bind_Done. by apply lpAppend_rep.
  - apply Forall_cons in H64 as [-> _]. rewrite bind_Done.
    apply stored_forget, (lpInsert_store junk m [] [] (e :: es)); [done|constructor|done|constructor].
Qed.

(** The header counts one more, until it stops counting. *)
Lemma push_num m es s n m' (pre : bool) :
  lp_rep m es -> no64 es -> entry_wf (entry_of_bytes s) -> lpGetTotalNumElements m = Done n ->
  (if pre then lpPrepend junk m s else lpAppend junk m s) = Done (Some m') ->
  lpGetTotalNumElements m' = Done (next_num n 1).
Proof.
  intros Hr H64 Hw Hn E.
  assert (Hf : forall L R, es = L ++ R -> (r ← lpInsert junk m (Some s) None (off L) LP_BEFORE; mret (option_map fst r)) = Done (Some m') ->
             lpGetTotalNumElements m' = Done (next_num n 1)).
  { intros L R -> E'.
    pose proof (lpInsert_store_num junk m L [] R (Some s) None (entry_of_bytes s) LP_BEFORE n Hr (stores_str s) Hw hole_before Hn) as H.
    unfold stored_num in H. destruct (UINT32_MAX <? _); [by rewrite H in E'|].
    destruct H as (m1 & E1 & _ & H1). rewrite E1 in E'. injection E' as <-. exact H1. }
  assert (Ha : lpAppend junk m s = Done (Some m') -> lpGetTotalNumElements m' = Done (next_num n 1)).
  { unfold lpAppend. rewrite (lpGetTotalBytes_rep _ _ Hr), bind_Done.
    replace (total_bytes es - 1) with (off es) by (rewrite total_off; lia).
    apply (Hf es []). by rewrite app_nil_r. }
  destruct pre; [|by apply Ha]. unfold lpPrepend in E. rewrite (lpFirst_rep _ _ Hr) in E.
  destruct es as [|e es]; cbn [landing] in E; [rewrite bind_Done in E; by apply Ha|].
  apply Forall_cons in H64 as [He _]. rewrite He, bind_Done in E. by apply (Hf [] (e :: es)).
Qed.

Lemma lpInsert_after m L x R elestr eleint e :
  lp_rep m (L ++ x :: R) -> stores elestr eleint e -> entry_wf e ->
  stored (lpInsert junk m elestr eleint (off L) LP_AFTER) (L ++ [x]) R e.
Proof.
  intros Hr Hs Hw.
  assert (E : lpInsert junk m elestr eleint (off L) LP_AFTER =
              lpInsert junk m elestr eleint (off (L ++ [x])) LP_BEFORE).
  { unfold lpInsert. destruct (stores_encoding _ _ _ Hs) as [-> ->]. cbv zeta iota.
    rewrite (lpSkip_rep _ _ _ _ Hr), bind_Done. unfold ASSERT_INTEGRITY.
    rewrite (lpGetTotalBytes_rep _ _ Hr), !bind_Done, total_off.
    pose proof (off_mid L x R). pose proof (off_bounds (L ++ [x])).
    destruct (Z.leb_spec LP_HEADER_SIZE (off (L ++ [x]))); [|lia].
    destruct (Z.ltb_spec (off (L ++ [x])) (off (L ++ x :: R) + 1)); [|lia]. done. }
  rewrite E. apply (lpInsert_store junk m (L ++ [x]) [] R); [by rewrite <- app_assoc|done..|constructor].
Qed.
End Wrappers.

(** * Validation *)
Lemma lpValidate_loop_rep m L R fuel count :
  lp_rep m (L ++ R) -> no64 R -> (length R < fuel)%nat -> 0 <= count -> count + len R < 2 ^ 32 ->
  lpValidate_loop fuel m (total_bytes (L ++ R)) (Some (off L)) count =
  Done (Some (Some (off (L ++ R)), count + len R)).
Proof.
  revert L fuel count. induction R as [|e R IH]; intros L fuel count Hr H64 Hf H0 Hc;
    (destruct fuel as [|fuel]; [cbn in Hf; lia|]); cbn [lpValidate_loop].
  - rewrite app_nil_r in *. rewrite (lp_rep_end _ _ Hr), bind_Done, len_nil, Z.add_0_r. done.
  - destruct (lp_rep_hd _ _ _ _ Hr) as (b & -> & Hb). rewrite bind_Done, Hb.
    apply Forall_cons in H64 as [He H64].
    rewrite (lpValidateNext_rep _ _ _ _ Hr), He, bind_Done.
    rewrite len_cons in *. pose proof (len_nonneg R). rewrite u32_id by lia.
    replace (L ++ e :: R) with ((L ++ [e]) ++ R) in * by (by rewrite <- app_assoc).
    rewrite IH; [by rewrite Z.add_assoc|done|done|cbn in Hf; lia|lia|lia].
Qed.

(** Reads stay below [p + n]. *)
Lemma rd_in m p : 0 <= p < len m -> exists b, rd m p = Done b.
Proof.
  intros Hp. unfold rd. destruct (Z.leb_spec 0 p); [|lia].
  destruct (lookup_lt_is_Some_2 m (Z.to_nat p)) as [b ->]; [unfold len in *; lia|]. by exists b.
Qed.

(** Perform a read that is in bounds. *)
Ltac rd_step :=
  match goal with |- context [rd ?m ?p] =>
    let b := fresh "b" in let E := fresh "E" in
    destruct (rd_in m p) as [b E]; [lia|]; rewrite E, ?bind_Done
  end.

Lemma lpDecodeBacklen_loop_safe fuel m p shift v :
  Z.of_nat fuel <= p + 1 -> p < len m -> exists n, lpDecodeBacklen_loop fuel m p shift v = Done n.
Proof.
  revert p shift v. induction fuel as [|fuel IH]; intros p shift v Hf Hp; cbn [lpDecodeBacklen_loop].
  - by eexists.
  - rd_step. destruct (Z.land b 128 =? 0); [by eexists|].
    destruct (28 <? _); [by eexists|]. apply IH; lia.
Qed.

(** The header length tells how many bytes the size computation reads. *)
Lemma entry_size_safe m p n :
  lpCurrentEncodedSizeBytes m p = Done n -> n <> 0 -> 0 <= p -> p + n < len m ->
  exists k, lpCurrentEncodedSizeUnsafe m p = Done k /\ 0 <= k < 2 ^ 32.
Proof.
  intros H Hn Hp Hm. unfold lpCurrentEncodedSizeBytes in H.
  unfold lpCurrentEncodedSizeUnsafe, LP_ENCODING_6_BIT_STR_LEN, LP_ENCODING_12_BIT_STR_LEN,
    LP_ENCODING_32_BIT_STR_LEN.
  apply bind_inv_Done in H as (b & Hb & H). injection H as <-. rewrite Hb, !bind_Done.
  revert Hn Hm.
  repeat (case_match; [intros; by eexists; split; [done|lia] |]).
  destruct (LP_ENCODING_IS_64_BIT_INT b); [intros; by eexists; split; [done|lia] |].
  case_match; [intros; eexists; split; [reflexivity|apply u32_bound]|].
  case_match; [intros; do 1 rd_step; eexists; split; [reflexivity|apply u32_bound]|].
  case_match; [intros; do 4 rd_step; eexists; split; [reflexivity|apply u32_bound]|].
  case_match; intros; [eexists; split; [done|lia]|done].
Qed.

Lemma out_of_range_false size p :
  IS_OUT_OF_RANGE size p = false <-> LP_HEADER_SIZE <= p <= size - 1.
Proof.
  unfold IS_OUT_OF_RANGE.
  destruct (Z.ltb_spec p LP_HEADER_SIZE), (Z.ltb_spec (size - 1) p); cbn; split; (done || lia).
Qed.

Lemma lpValidateNext_safe m size p :
  size <= len m ->
  exists ok q, lpValidateNext m size p = Done (ok, q) /\
    match p, q with
    | Some p, Some q => ok = true -> p < q <= size - 1
    | None, _ => ok = false
    | Some _, None => True
    end.
Proof.
  intros Hs. destruct p as [p|]; cbn [lpValidateNext]; [|by exists false, None].
  destruct (IS_OUT_OF_RANGE size p) eqn:Hr; [by exists false, (Some p)|].
  apply out_of_range_false in Hr. unfold LP_HEADER_SIZE in Hr. rd_step.
  destruct (b =? LP_EOF); [by exists true, None|].
  destruct (lpCurrentEncodedSizeBytes m p) as [n|] eqn:En;
    [|unfold lpCurrentEncodedSizeBytes in En; by rewrite E in En].
  rewrite bind_Done. destruct (Z.eqb_spec n 0); [by exists false, (Some p)|].
  destruct (IS_OUT_OF_RANGE size (p + n)) eqn:Hr'; [by exists false, (Some p)|].
  apply out_of_range_false in Hr'.
  destruct (entry_size_safe m p n) as (k & -> & Hk); [done|done|lia|lia|].
  rewrite bind_Done. pose proof (lpEncodeBacklenBytes_bounds k).
  destruct (IS_OUT_OF_RANGE size (p + _)) eqn:Hr''; [by exists false, (Some p)|].
  apply out_of_range_false in Hr''.
  destruct (lpDecodeBacklen_loop_safe 5 m (p + (k + lpEncodeBacklenBytes k) - 1) 0 0)
    as [v Hv]; [lia|lia|].
  unfold lpDecodeBacklen. rewrite Hv, bind_Done.
  destruct (negb _); [by exists false, (Some p)|]. eexists true, _. split; [done|]. intros _. lia.
Qed.

Lemma lpValidate_loop_safe fuel m size p count :
  size <= len m -> match p with Some p => 0 <= p < size /\ size - p < Z.of_nat fuel | None => (0 < fuel)%nat end ->
  exists r, lpValidate_loop fuel m size p count = Done r.
Proof.
  intros Hs. revert p count. induction fuel as [|fuel IH]; intros p count Hp; [destruct p; lia|].
  destruct p as [p|]; cbn [lpValidate_loop]; [|by eexists].
  rd_step. destruct (b =? LP_EOF); [by eexists|].
  destruct (lpValidateNext_safe m size (Some p) Hs) as (ok & q & -> & Hq). rewrite bind_Done.
  destruct ok; [|by eexists]. apply IH. destruct q as [q|]; [|lia]. specialize (Hq eq_refl). lia.
Qed.

Lemma lpGetTotalBytes_safe m : 4 <= len m -> exists n, lpGetTotalBytes m = Done n.
Proof. intros. unfold lpGetTotalBytes. do 4 rd_step. by eexists. Qed.

Lemma lpGetTotalNumElements_safe m : 6 <= len m -> exists n, lpGetTotalNumElements m = Done n.
Proof. intros. unfold lpGetTotalNumElements. do 2 rd_step. by eexists. Qed.

(** * Properties *)

(** validation is safe on arbitrary bytes.  For any array at least as long as the size
    claimed, shallow or deep validation terminates without reading outside the
    array: it answers true or false. *)
Theorem lpValidateIntegrity_safe m size deep :
  size <= len m -> exists b, lpValidateIntegrity (Some m) size deep = Done b.
Proof.
  intros Hs. cbn [lpValidateIntegrity].
  destruct (Z.ltb_spec size (LP_HEADER_SIZE + 1)) as [|H7]; [by eexists|].
  unfold LP_HEADER_SIZE in H7.
  destruct (lpGetTotalBytes_safe m ltac:(lia)) as [t ->]. rewrite bind_Done.
  destruct (Z.eqb_spec t size) as [->|]; cbn [negb]; [|by eexists].
  rd_step. destruct (negb (b =? LP_EOF)); [by eexists|]. destruct deep; cbn [negb]; [|by eexists].
  destruct (lpGetTotalNumElements_safe m ltac:(lia)) as [n ->]. rewrite bind_Done.
  destruct (lpValidate_loop_safe (S (length m)) m size (Some LP_HEADER_SIZE) 0 Hs) as [r ->].
  { unfold LP_HEADER_SIZE, len in *. lia. }
  rewrite bind_Done. destruct r as [[p count]|]; [|by eexists].
  destruct (negb _); [by eexists|]. destruct (_ && _); by eexists.
Qed.

(** A listpack used by the examples below. *)
Definition sample_entries : list entry := [EStr (lit "carrot"); EInt 7; EInt (-300)].
Definition sample_lp : list Z :=
  le_split 4 (total_bytes sample_entries) ++ le_split 2 3 ++ body sample_entries ++ [LP_EOF].

Lemma sample_rep : lp_rep sample_lp sample_entries.
Proof.
  split; [repeat constructor; vm_compute; intuition discriminate|].
  split; [vm_compute; discriminate|]. exists 3, [].
  split; [reflexivity|]. split; [vm_compute; intuition discriminate|by right].
Defined.

(** C4: insertion refines list insertion.  Storing a string or an integer before,
    after or in place of an entry [x] yields a listpack holding exactly the
    list with the new entry at that place, and [*newp] points to it; the call
    returns [NULL] precisely when the result would exceed 32 bits. *)
Theorem lpInsert_refines junk m L x R elestr eleint e :
  lp_rep m (L ++ x :: R) -> stores elestr eleint e -> entry_wf e ->
  stored (lpInsert junk m elestr eleint (off L) LP_BEFORE) L (x :: R) e /\
  stored (lpInsert junk m elestr eleint (off L) LP_AFTER) (L ++ [x]) R e /\
  stored (lpInsert junk m elestr eleint (off L) LP_REPLACE) L R e.
Proof.
  intros Hr Hs Hw. split_and!.
  - apply (lpInsert_store junk m L [] (x :: R)); [done..|constructor].
  - by apply lpInsert_after.
  - apply (lpInsert_store junk m L [x] R); [done..|constructor].
Qed.

Lemma lpInsert_refines_witness :
  stored (lpInsert (fun _ => 0) sample_lp (Some (lit "12")) None (off [EStr (lit "carrot")]) LP_REPLACE)
    [EStr (lit "carrot")] [EInt (-300)] (EInt 12).
Proof.
  refine (proj2 (proj2 (lpInsert_refines (fun _ => 0) sample_lp [EStr (lit "carrot")] (EInt 7)
    [EInt (-300)] (Some (lit "12")) None (EInt 12) sample_rep (stores_str (lit "12")) _))).
  vm_compute. intuition discriminate.
Defined.

(** C22: deletion refines list deletion.  Deleting the entry at [off L] leaves
    the other entries in order, and [*newp] points to the entry that followed, or
    is [NULL] when the last one was deleted. *)
Theorem lpDelete_refines junk m L x R :
  lp_rep m (L ++ x :: R) ->
  exists m', lpDelete junk m (off L)
             = Done (Some (m', match R with [] => None | _ => Some (off L) end)) /\
             lp_rep m' (L ++ R).
Proof. apply lpInsert_delete. Qed.

Lemma lpDelete_refines_witness :
  exists m', lpDelete (fun _ => 0) sample_lp (off [EStr (lit "carrot")])
             = Done (Some (m', Some (off [EStr (lit "carrot")]))) /\
             lp_rep m' [EStr (lit "carrot"); EInt (-300)].
Proof. exact (lpDelete_refines (fun _ => 0) sample_lp [EStr (lit "carrot")] (EInt 7) [EInt (-300)] sample_rep). Defined.

(** a new listpack is empty, and appending or prepending a byte string adds
    its entry at the end or at the front; a string that is the decimal form of
    a 64-bit integer is filed as that integer. *)
Theorem lpAppend_lpPrepend_refine junk m es s :
  lp_rep m es -> no64 es -> Forall is_byte s -> len s + 5 < 2 ^ 32 ->
  stored_at (lpAppend junk m s) es [] (entry_of_bytes s) /\
  stored_at (lpPrepend junk m s) [] es (entry_of_bytes s) /\
  forall capacity, exists m0, lpNew junk capacity = Done m0 /\ lp_rep m0 [].
Proof.
  intros Hr H64 Hb Hl. pose proof (entry_of_bytes_wf s Hb Hl). split_and!.
  - by apply lpAppend_rep.
  - by apply lpPrepend_rep.
  - apply lpNew_rep.
Qed.

Lemma lpAppend_lpPrepend_refine_witness :
  stored_at (lpAppend (fun _ => 0) sample_lp (lit "x")) sample_entries [] (EStr (lit "x")).
Proof.
  refine (proj1 (lpAppend_lpPrepend_refine (fun _ => 0) sample_lp sample_entries (lit "x") sample_rep _ _ _)).
  - repeat constructor.
  - repeat constructor; vm_compute; intuition discriminate.
  - vm_compute. reflexivity.
Defined.

(** [lpSeek] followed by [lpGetWithSize] is indexing.  For every index,
    negative ones counting from the end, the result is [nullptr] exactly when the index is out
    of range, and otherwise the pointer at which [lpGetWithSize] reads that
    element and its full size. *)
Theorem lpSeek_get m es index :
  lp_rep m es -> no64 es ->
  let i := if index <? 0 then len es + index else index in
  if (0 <=? i) && (i <? len es) then
    exists p e, lpSeek m index = Done (Some p) /\ es !! Z.to_nat i = Some e /\
      lpGetWithSize m (Some p) = Done (entry_view p e, Some (len (entry_layout e)))
  else lpSeek m index = Done None.
Proof.
  intros Hr H64 i. rewrite (lpSeek_ptr m es Hr H64 index). fold i.
  destruct (Z.leb_spec 0 i); [destruct (Z.ltb_spec i (len es))|]; cbn [andb].
  - destruct (ptr_in es i ltac:(lia)) as (L & e & R & E & _ & -> & He).
    exists (off L), e. split_and!; [done|done|]. subst es.
    apply lpGetWithSize_entry; [by eapply lp_rep_wf_at|by eapply lp_rep_encode].
  - by rewrite ptr_out by lia.
  - by rewrite ptr_out by lia.
Qed.

Lemma lpSeek_get_witness :
  exists p e, lpSeek sample_lp (-1) = Done (Some p) /\ sample_entries !! 2%nat = Some e /\
    lpGetWithSize sample_lp (Some p) = Done (entry_view p e, Some (len (entry_layout e))).
Proof.
  exact (lpSeek_get sample_lp sample_entries (-1) sample_rep
    ltac:(repeat constructor)).
Defined.

(** traversal in both directions.  [lpFirst] and [lpLast] land on the two
    ends, and from element number [i] [lpNext] goes to [i + 1] and [lpPrev] to
    [i - 1], answering [nullptr] past either end. *)
Theorem lp_traversal m es i :
  lp_rep m es -> no64 es -> 0 <= i < len es ->
  lpFirst (Some m) = Done (ptr es 0) /\
  lpLast (Some m) = Done (ptr es (len es - 1)) /\
  lpNext m (ptr es i) = Done (ptr es (i + 1)) /\
  lpPrev m (ptr es i) = Done (ptr es (i - 1)).
Proof.
  intros Hr H64 Hi. split_and!.
  - by apply lpFirst_ptr.
  - by apply lpLast_ptr.
  - apply lpNext_ptr; (done || lia).
  - apply lpPrev_ptr; (done || lia).
Qed.

Lemma lp_traversal_witness :
  lpPrev sample_lp (ptr sample_entries 1) = Done (ptr sample_entries 0).
Proof.
  refine (proj2 (proj2 (proj2 (lp_traversal sample_lp sample_entries 1 sample_rep _ _)))).
  - repeat constructor.
  - vm_compute. intuition discriminate.
Defined.

(** [lpLength] is the number of entries, whether the header knows it or it
    has to be recounted, and only the count in the header may change. *)
Theorem lpLength_correct m es :
  lp_rep m es -> no64 es ->
  exists m', lpLength m = Done (len es, m') /\ lp_rep m' es.
Proof. apply lpLength_rep. Qed.

Lemma lpLength_correct_witness :
  exists m', lpLength sample_lp = Done (3, m') /\ lp_rep m' sample_entries.
Proof. exact (lpLength_correct sample_lp sample_entries sample_rep ltac:(repeat constructor)). Defined.

(** C38: deep validation accepts every well-formed listpack without 64-bit
    integers. *)
Theorem lpValidateIntegrity_complete m es deep :
  lp_rep m es -> no64 es ->
  lpValidateIntegrity (Some m) (total_bytes es) deep = Done true.
Proof.
  intros Hr H64. cbn [lpValidateIntegrity]. pose proof (off_bounds es).
  pose proof (lp_rep_len _ _ Hr). pose proof (len_nonneg es).
  destruct (Z.ltb_spec (total_bytes es) (LP_HEADER_SIZE + 1)); [rewrite total_off in *; lia|].
  rewrite (lpGetTotalBytes_rep _ _ Hr), bind_Done, Z.eqb_refl. cbn [negb].
  replace (total_bytes es - 1) with (off es) by (rewrite total_off; lia).
  rewrite (lp_rep_end _ _ Hr), bind_Done, Z.eqb_refl. destruct deep; cbn [negb]; [|done].
  destruct (lpGetTotalNumElements_rep _ _ Hr) as (num & -> & _ & Hn). rewrite bind_Done.
  rewrite (lpValidate_loop_rep m [] es) by (done || (unfold len in *; lia)).
  rewrite bind_Done, bool_decide_true by done. cbn [negb app].
  destruct (Z.eqb_spec num LP_HDR_NUMELE_UNKNOWN); cbn [negb andb]; [done|].
  destruct Hn as [| ->]; [done|]. by rewrite Z.eqb_refl.
Qed.

Lemma lpValidateIntegrity_complete_witness :
  lpValidateIntegrity (Some sample_lp) (total_bytes sample_entries) true = Done true.
Proof. exact (lpValidateIntegrity_complete _ _ true sample_rep ltac:(repeat constructor)). Defined.

(** the validator does not know the 64-bit integer encoding.  When the first
    entry is an integer outside the 32-bit range, the listpack is well formed
    and yet [lpFirst] ends the process in its assertion and deep validation
    answers false. *)
Theorem lpFirst_aborts_on_64_bit m v R :
  lp_rep m (EInt v :: R) -> v < - 2 ^ 31 \/ 2 ^ 31 <= v ->
  lpFirst (Some m) = Stuck /\
  lpValidateIntegrity (Some m) (total_bytes (EInt v :: R)) true = Done false.
Proof.
  intros Hr Hv. assert (H64 : entry_is_64 (EInt v) = true).
  { cbn. destruct (between_spec (- 2 ^ 31) v (2 ^ 31 - 1)); [lia|done]. }
  split; [by rewrite (lpFirst_rep _ _ Hr); cbn [landing]; rewrite H64|].
  cbn [lpValidateIntegrity]. pose proof (off_bounds (EInt v :: R)).
  destruct (Z.ltb_spec (total_bytes (EInt v :: R)) (LP_HEADER_SIZE + 1)); [rewrite total_off in *; lia|].
  rewrite (lpGetTotalBytes_rep _ _ Hr), bind_Done, Z.eqb_refl. cbn [negb].
  replace (total_bytes _ - 1) with (off (EInt v :: R)) by (rewrite total_off; lia).
  rewrite (lp_rep_end _ _ Hr), bind_Done, Z.eqb_refl. cbn [negb].
  destruct (lpGetTotalNumElements_rep _ _ Hr) as (num & -> & _). rewrite bind_Done.
  cbn [lpValidate_loop]. destruct (lp_rep_hd _ [] _ _ Hr) as (b & Hb & Hne).
  change (off []) with LP_HEADER_SIZE in Hb. rewrite Hb, bind_Done, Hne.
  pose proof (lpValidateNext_rep _ [] _ _ Hr) as HN. cbn [app] in HN.
  change (off []) with LP_HEADER_SIZE in HN. by rewrite HN, H64.
Qed.

Lemma lpFirst_aborts_on_64_bit_witness :
  let es := [EInt 9999999999] in
  lpFirst (Some (le_split 4 (total_bytes es) ++ le_split 2 1 ++ body es ++ [LP_EOF])) = Stuck.
Proof.
  refine (proj1 (lpFirst_aborts_on_64_bit _ 9999999999 [] _ _)).
  - split; [repeat constructor; vm_compute; intuition discriminate|].
    split; [vm_compute; discriminate|]. exists 1, [].
    split; [reflexivity|]. split; [vm_compute; intuition discriminate|by right].
  - right. vm_compute. discriminate.
Defined.
