(* ===== verification/RadixTree.v ===== *)
(** The radix tree of [src/radix-tree.cpp], the index behind streams.  A node
    keeps its children in a [std::map] from edge label to child, here the list
    of pairs in key order; iterators into it are positions.  The abstract view
    of a tree is the sorted list of its key/value pairs: insertion is insertion
    there, search is lookup, and the pruned range search is a plain filter.
    [RangeIndex] is what the tree promises to the stream. *)
From S2P Require Import Prelude.

(** * Definitions *)
Inductive node := Node {
  data : list Z;
  isDataPresent : bool;
  children : list (list Z * node)
}.

Definition emptyNode : node := Node [] false [].
Definition leaf (value : list Z) : node := Node value true [].

Fixpoint matchedLength (new_key existing_key : list Z) : nat :=
  match new_key, existing_key with
  | x :: a, y :: b => if x =? y then S (matchedLength a b) else O
  | _, _ => O
  end.

(** [std::map]: [emplace] keeps an existing binding, [operator[]] replaces it. *)
Fixpoint map_put {A} (overwrite : bool) (k : list Z) (n : A) (l : list (list Z * A)) :=
  match l with
  | [] => [(k, n)]
  | (k', n') :: r =>
      match bcompare k k' with
      | Lt => (k, n) :: l
      | Eq => if overwrite then (k', n) :: r else l
      | Gt => (k', n') :: map_put overwrite k n r
      end
  end.
Definition emplace {A} := @map_put A false.
Definition assign {A} := @map_put A true.

(** The loop of [insertImpl] over the children: the longest match and its
    position. *)
Fixpoint best_child {A} (key : list Z) (it : list (list Z * A)) (i bestMatchedLength : nat)
    (best_it : option nat) : nat * option nat :=
  match it with
  | [] => (bestMatchedLength, best_it)
  | (k, _) :: it =>
      let length := matchedLength key k in
      if (bestMatchedLength <? length)%nat then
        if (length =? List.length key)%nat then (length, Some i)
        else best_child key it (S i) length (Some i)
      else best_child key it (S i) bestMatchedLength best_it
  end.

(** [insertImpl]; every recursive call consumes at least one byte of the key,
    so a fuel above its length is enough. *)
Fixpoint insertImpl (fuel : nat) (n : node) (key value : list Z) : node :=
  match fuel with
  | O => n
  | S fuel =>
      match key with
      | [] => Node value true (children n)
      | _ :: _ =>
          let '(bestMatchedLength, best_it) := best_child key (children n) 0 0 None in
          match (if (bestMatchedLength =? 0)%nat then None else best_it) with
          | None => Node (data n) (isDataPresent n) (assign key (leaf value) (children n))
          | Some i =>
              match children n !! i with
              | None => n
              | Some (old_key, old_child) =>
                  if (bestMatchedLength =? length old_key)%nat then
                    Node (data n) (isDataPresent n)
                      (<[i := (old_key,
                          insertImpl fuel old_child (drop bestMatchedLength key) value)]>
                        (children n))
                  else
                    let split := emplace (drop bestMatchedLength old_key) old_child [] in
                    let split :=
                      if (bestMatchedLength =? length key)%nat then Node value true split
                      else Node [] false
                             (emplace (drop bestMatchedLength key) (leaf value) split) in
                    Node (data n) (isDataPresent n)
                      (emplace (take bestMatchedLength key) split (delete i (children n)))
              end
          end
      end
  end.

(** The first child whose whole label is a prefix of the remaining key. *)
Fixpoint search_child (remaining_key : list Z) (it : list (list Z * node))
  : option (list Z * node) :=
  match it with
  | [] => None
  | (existing_key, child) :: it =>
      let len := matchedLength remaining_key existing_key in
      if (len =? length existing_key)%nat then Some (drop len remaining_key, child)
      else search_child remaining_key it
  end.

(** The loop of [search], one unit of fuel per iteration and one for the exit. *)
Fixpoint search_loop (fuel : nat) (n : node) (remaining_key : list Z) : outcome (list Z) :=
  match fuel with
  | O => Stuck
  | S fuel =>
      match remaining_key with
      | [] => mret (if isDataPresent n then data n else [])
      | _ :: _ =>
          match search_child remaining_key (children n) with
          | Some (remaining_key, child) => search_loop fuel child remaining_key
          | None => mret []
          end
      end
  end.

Section Range.
Context (startKey endKey : list Z) (isExclusive : bool).

Definition is_prefix (p s : list Z) : bool := bool_decide (take (length p) s = p).

Fixpoint rangeSearchImpl (root : node) (currentKey : list Z) : list (list Z * list Z) :=
  let '(Node data isDataPresent children) := root in
  (if isDataPresent && (ble startKey currentKey && ble currentKey endKey)
      && negb (isExclusive && bool_decide (currentKey = startKey))
   then [(currentKey, data)] else []) ++
  (fix go (children : list (list Z * node)) : list (list Z * list Z) :=
    match children with
    | [] => []
    | (key, child) :: children =>
        let newKey := currentKey ++ key in
        if blt endKey newKey then []
        else
          let isPrefixStillExists :=
            (length newKey <=? length startKey)%nat && is_prefix newKey startKey in
          if ble newKey startKey && negb isPrefixStillExists then go children
          else rangeSearchImpl child newKey ++ go children
    end) children.
End Range.

(** The class: a null or an owned root. *)
Definition RadixTree := option node.

Definition insert (t : RadixTree) (key value : list Z) : RadixTree :=
  let root := match t with Some n => n | None => emptyNode end in
  Some (insertImpl (S (length key)) root key value).

Definition search (t : RadixTree) (key : list Z) : outcome (list Z) :=
  match t with
  | None => mret []
  | Some n => search_loop (S (length key)) n key
  end.

Definition rangeSearch (t : RadixTree) (startKey endKey : list Z) (isExclusive : bool)
  : list (list Z * list Z) :=
  match t with
  | None => []
  | Some n => rangeSearchImpl startKey endKey isExclusive n []
  end.

(** * The abstract view *)
Fixpoint entries (n : node) (p : list Z) : list (list Z * list Z) :=
  let '(Node data isDataPresent children) := n in
  (if isDataPresent then [(p, data)] else []) ++
  (fix go (children : list (list Z * node)) : list (list Z * list Z) :=
    match children with
    | [] => []
    | (key, child) :: children => entries child (p ++ key) ++ go children
    end) children.

Definition tree_entries (t : RadixTree) : list (list Z * list Z) :=
  match t with Some n => entries n [] | None => [] end.

(** Edge labels are non-empty and start with different bytes, in order. *)
Definition hd_lt (a b : list Z) : Prop :=
  match a, b with x :: _, y :: _ => x < y | _, _ => False end.

Inductive wf : node -> Prop :=
| wf_Node d b cs :
    Forall (fun kc => kc.1 <> []) cs -> StronglySorted hd_lt (map fst cs) ->
    Forall (fun kc => wf kc.2) cs -> wf (Node d b cs).

Definition tree_wf (t : RadixTree) : Prop :=
  match t with Some n => wf n | None => True end.

(** [k ↦ v] is stored below a node. *)
Inductive In_tree : node -> list Z -> list Z -> Prop :=
| in_here d cs : In_tree (Node d true cs) [] d
| in_child d b cs key c k v :
    (key, c) ∈ cs -> In_tree c k v -> In_tree (Node d b cs) (key ++ k) v.

Definition key_lt (a b : list Z * list Z) : Prop := blt a.1 b.1 = true.

Section NodeInd.
Context (P : node -> Prop).
Context (H : forall d b cs, Forall (fun kc => P kc.2) cs -> P (Node d b cs)).
Fixpoint node_ind' (n : node) : P n :=
  match n with
  | Node d b cs =>
      H d b cs ((fix go (l : list (list Z * node)) : Forall (fun kc => P kc.2) l :=
        match l with
        | [] => Forall_nil_2 _
        | kc :: l => Forall_cons_2 _ kc l (node_ind' kc.2) (go l)
        end) cs)
  end.
End NodeInd.

(** The loop of [entries] over the children. *)
Definition child_entries (p : list Z) (cs : list (list Z * node)) : list (list Z * list Z) :=
  concat (map (fun kc => entries kc.2 (p ++ kc.1)) cs).

Lemma entries_eq d b cs p :
  entries (Node d b cs) p = (if b then [(p, d)] else []) ++ child_entries p cs.
Proof.
  cbn [entries]. f_equal. unfold child_entries.
  induction cs as [|[k c] cs IH]; [done|]. cbn. by rewrite IH.
Qed.

Lemma elem_of_child_entries p cs x :
  x ∈ child_entries p cs <-> exists k c, (k, c) ∈ cs /\ x ∈ entries c (p ++ k).
Proof.
  unfold child_entries. rewrite list_elem_of_In, in_concat. split.
  - intros (l & Hl & Hx). apply in_map_iff in Hl as ([k c] & <- & Hk).
    exists k, c. by rewrite !list_elem_of_In.
  - intros (k & c & Hk & Hx). exists (entries c (p ++ k)).
    rewrite list_elem_of_In in Hx. split; [|done].
    apply in_map_iff. exists (k, c). by rewrite list_elem_of_In in Hk.
Qed.

Lemma entries_In n : forall p k v,
  (k, v) ∈ entries n p <-> exists k', k = p ++ k' /\ In_tree n k' v.
Proof.
  induction n as [d b cs IH] using node_ind'. intros p k v.
  rewrite entries_eq, elem_of_app, elem_of_child_entries. rewrite Forall_forall in IH. split.
  - intros [H|(key & c & Hc & H)].
    + destruct b; [|by apply not_elem_of_nil in H].
      apply list_elem_of_singleton in H as [= -> ->]. exists []. rewrite app_nil_r.
      split; [done|constructor].
    + apply (IH _ Hc) in H as (k' & -> & H). exists (key ++ k').
      rewrite <- app_assoc. split; [done|]. by econstructor.
  - intros (k' & -> & H). inversion H as [|? ? ? key c k2 ? Hc Hk]; subst.
    + left. rewrite app_nil_r. by apply list_elem_of_singleton.
    + right. exists key, c. split; [done|]. apply (IH _ Hc).
      exists k2. by rewrite <- app_assoc.
Qed.

(** * Order of keys *)
Lemma hd_lt_blt a b x y : hd_lt a b -> blt (a ++ x) (b ++ y) = true.
Proof.
  destruct a as [|u a], b as [|w b]; cbn; try done. intros H. unfold blt. cbn.
  by rewrite (proj2 (Z.compare_lt_iff u w) H).
Qed.

Lemma blt_prefix p a : a <> [] -> blt p (p ++ a) = true.
Proof. intros H. rewrite <- (app_nil_r p) at 1. rewrite blt_app. by destruct a. Qed.

Lemma ble_prefix p a : ble p (p ++ a) = true.
Proof.
  apply ble_lt_eq. destruct a; [right; by rewrite app_nil_r|left; by apply blt_prefix].
Qed.

Lemma StronglySorted_app {A} (R : A -> A -> Prop) l k :
  StronglySorted R l -> StronglySorted R k ->
  (forall x y, x ∈ l -> y ∈ k -> R x y) -> StronglySorted R (l ++ k).
Proof.
  induction 1 as [|a l Hl IH Ha]; intros Hk H; cbn; [done|]. constructor.
  - apply IH; [done|]. intros. apply H; [by constructor|done].
  - apply Forall_app. split; [done|]. apply Forall_forall. intros y Hy. apply H; [by left|done].
Qed.

Lemma entries_sorted n : wf n -> forall p, StronglySorted key_lt (entries n p).
Proof.
  induction n as [d b cs IH] using node_ind'. intros Hw p.
  inversion Hw as [? ? ? Hne Hs Hc]; subst. rewrite entries_eq.
  apply StronglySorted_app.
  - destruct b; repeat constructor.
  - clear Hw. induction cs as [|[k c] cs IHc]; [constructor|].
    apply Forall_cons in IH as [IH1 IH2], Hne as [_ Hne], Hc as [Hc1 Hc2].
    cbn in Hs. inversion Hs as [|? ? Hs' Hk]; subst.
    unfold child_entries. cbn [map concat]. apply StronglySorted_app; [by apply IH1|by apply IHc|].
    intros [x vx] [y vy] (x' & -> & _)%entries_In Hy.
    apply elem_of_child_entries in Hy as (k2 & c2 & Hin & (y' & -> & _)%entries_In).
    unfold key_lt. cbn. rewrite <- !app_assoc, blt_app. apply hd_lt_blt.
    rewrite Forall_forall in Hk. apply Hk. apply list_elem_of_fmap. by exists (k2, c2).
  - intros x y Hx Hy. destruct b; [|by apply not_elem_of_nil in Hx].
    apply list_elem_of_singleton in Hx as ->. destruct y as [y vy].
    apply elem_of_child_entries in Hy as (k & c & Hin & (y' & -> & _)%entries_In).
    unfold key_lt. cbn. rewrite <- app_assoc. apply blt_prefix.
    rewrite Forall_forall in Hne. specialize (Hne _ Hin). cbn in Hne. by destruct k.
Qed.

(** Two sorted lists of pairs with the same members are equal. *)
Lemma sorted_ext l k :
  StronglySorted key_lt l -> StronglySorted key_lt k ->
  (forall x, x ∈ l <-> x ∈ k) -> l = k.
Proof.
  revert k. induction l as [|a l IH]; intros k Hl Hk H.
  - destruct k as [|b k]; [done|]. assert (b ∈ @nil (list Z * list Z)) by (apply H; by left).
    by apply not_elem_of_nil in H0.
  - destruct k as [|b k].
    { assert (a ∈ @nil (list Z * list Z)) as H0 by (apply H; by left). by apply not_elem_of_nil in H0. }
    inversion Hl as [|? ? Hl' Ha]; inversion Hk as [|? ? Hk' Hb]; subst.
    rewrite Forall_forall in Ha, Hb.
    assert (E : a = b).
    { assert (Ha' : a ∈ b :: k) by (apply H; by left).
      assert (Hb' : b ∈ a :: l) by (apply H; by left).
      apply elem_of_cons in Ha' as [|Ha']; [done|]. apply elem_of_cons in Hb' as [|Hb']; [done|].
      specialize (Ha _ Hb'). specialize (Hb _ Ha'). unfold key_lt in *.
      pose proof (blt_trans _ _ _ Ha Hb) as Hx. by rewrite blt_irrefl in Hx. }
    subst b. f_equal. apply IH; [done|done|]. intros x. specialize (H x).
    rewrite !elem_of_cons in H. split; intros Hx.
    + destruct (proj1 H (or_intror Hx)) as [->|]; [|done].
      specialize (Ha _ Hx). unfold key_lt in Ha. by rewrite blt_irrefl in Ha.
    + destruct (proj2 H (or_intror Hx)) as [->|]; [|done].
      specialize (Hb _ Hx). unfold key_lt in Hb. by rewrite blt_irrefl in Hb.
Qed.

(** * Matching *)
Lemma matchedLength_split a b :
  exists m a' b', a = m ++ a' /\ b = m ++ b' /\ matchedLength a b = length m /\
                  (forall x y a2 b2, a' = x :: a2 -> b' = y :: b2 -> x <> y).
Proof.
  revert b. induction a as [|x a IH]; intros b.
  - exists [], [], b. split_and!; done.
  - destruct b as [|y b]; [exists [], (x :: a), []; split_and!; done|].
    cbn. destruct (Z.eqb_spec x y) as [->|Hn].
    + destruct (IH b) as (m & a' & b' & -> & -> & -> & Hd).
      exists (y :: m), a', b'. split_and!; done.
    + exists [], (x :: a), (y :: b). split_and!; try done. by intros ? ? ? ? [= -> ->] [= -> ->].
Qed.

Lemma matchedLength_full a b : matchedLength a b = length b <-> exists r, a = b ++ r.
Proof.
  split.
  - destruct (matchedLength_split a b) as (m & a' & b' & -> & -> & -> & _).
    rewrite length_app. intros. destruct b'; [|cbn in *; lia]. exists a'. by rewrite app_nil_r.
  - intros [r ->]. induction b as [|y b IH]; cbn; [by destruct r|]. by rewrite Z.eqb_refl, IH.
Qed.

(** Labels whose first byte is not [c]. *)
Definition other_hd {A} (c : Z) (cs : list (list Z * A)) : Prop :=
  Forall (fun kc => hd_error kc.1 <> Some c) cs.

Lemma other_matched c key k : hd_error k <> Some c -> matchedLength (c :: key) k = 0%nat.
Proof. destruct k as [|y k]; [done|]. cbn. intros H. destruct (Z.eqb_spec c y); [congruence|done]. Qed.

(** At most one label starts with a given byte. *)
Lemma heads_cases {A} c (cs : list (list Z * A)) :
  Forall (fun kc => kc.1 <> []) cs -> StronglySorted hd_lt (map fst cs) ->
  other_hd c cs \/
  exists l k n r, cs = l ++ (c :: k, n) :: r /\ other_hd c l /\ other_hd c r.
Proof.
  induction cs as [|[k n] cs IH]; cbn; intros Hne Hs; [left; constructor|].
  apply Forall_cons in Hne as [Hk Hne]. inversion Hs as [|? ? Hs' Hd]; subst.
  destruct k as [|x k]; [done|]. destruct (decide (x = c)) as [->|Hx].
  - right. exists [], k, n, cs. split_and!; [done|constructor|].
    rewrite Forall_map in Hd. eapply Forall_impl; [exact Hd|].
    intros [k' n']. cbn. destruct k' as [|y k']; [done|]. cbn. intros ? [= ->]. lia.
  - destruct (IH Hne Hs') as [Ho|(l & k' & n' & r & -> & Hl & Hr)].
    + left. constructor; [cbn; congruence|done].
    + right. exists ((x :: k, n) :: l), k', n', r. split_and!; [done|constructor; [cbn; congruence|done]|done].
Qed.

Lemma best_child_other {A} c key (cs : list (list Z * A)) i best bi :
  other_hd c cs -> best_child (c :: key) cs i best bi = (best, bi).
Proof.
  intros H. revert i. induction H as [|[k n] cs Hk _ IH]; intros i; cbn [best_child]; [done|].
  rewrite other_matched by done. destruct (Nat.ltb_spec best 0); [lia|]. apply IH.
Qed.

Lemma best_child_found {A} c key k (n : A) l r i :
  other_hd c l -> other_hd c r ->
  best_child (c :: key) (l ++ (c :: k, n) :: r) i 0 None
  = (matchedLength (c :: key) (c :: k), Some (i + length l)%nat).
Proof.
  intros Hl Hr. revert i. induction Hl as [|[k' n'] l Hk _ IH]; intros i.
  - cbn [app best_child]. rewrite Nat.add_0_r.
    assert (Hpos : (0 <? matchedLength (c :: key) (c :: k))%nat = true)
      by (cbn [matchedLength]; rewrite Z.eqb_refl; done).
    rewrite Hpos. destruct (_ =? _)%nat; [done|]. by apply best_child_other.
  - cbn [app best_child]. rewrite other_matched by done. cbn [Nat.ltb Nat.leb].
    rewrite IH. cbn [length]. do 2 f_equal. lia.
Qed.

(** Adding a label with a new first byte. *)
Lemma map_put_new {A} ow c k (n : A) cs :
  other_hd c cs -> map_put ow (c :: k) n cs ≡ₚ (c :: k, n) :: cs.
Proof.
  induction 1 as [|[k' n'] cs Hk _ IH]; cbn [map_put]; [done|].
  destruct (bcompare (c :: k) k') eqn:E.
  - apply bcompare_eq in E as <-. by cbn in Hk.
  - done.
  - rewrite IH. apply Permutation_swap.
Qed.

Lemma map_put_sorted {A} ow c k (n : A) cs :
  other_hd c cs -> Forall (fun kc => kc.1 <> []) cs -> StronglySorted hd_lt (map fst cs) ->
  StronglySorted hd_lt (map fst (map_put ow (c :: k) n cs)).
Proof.
  induction 1 as [|[k' n'] cs Hk Ho IH]; intros Hne Hs; cbn [map_put]; [repeat constructor|].
  apply Forall_cons in Hne as [Hk' Hne]. cbn in Hs. inversion Hs as [|? ? Hs' Hd]; subst.
  destruct k' as [|y k']; [done|]. cbn in Hk.
  cbn [bcompare]. destruct (Z.compare_spec c y) as [->|Hlt|Hgt]; [done| |].
  - cbn [map fst]. constructor; [by constructor|]. constructor; [done|].
    eapply Forall_impl; [exact Hd|]. intros [|z kz]; cbn; [done|lia].
  - cbn [map fst]. constructor; [by apply IH|].
    apply Forall_map. rewrite (map_put_new ow c k n cs Ho). constructor; [cbn; lia|].
    by rewrite Forall_map in Hd.
Qed.

(** * Members of a list of children *)
Definition In_children (cs : list (list Z * node)) (k v : list Z) : Prop :=
  exists key c k', (key, c) ∈ cs /\ k = key ++ k' /\ In_tree c k' v.

Lemma In_tree_eq d b cs k v :
  In_tree (Node d b cs) k v <-> (b = true /\ k = [] /\ v = d) \/ In_children cs k v.
Proof.
  split.
  - intros H. inversion H as [|? ? ? key c k2 ? Hc Hk]; subst; [by left|].
    right. by exists key, c, k2.
  - intros [(-> & -> & ->)|(key & c & k' & Hc & -> & H)]; [constructor|by econstructor].
Qed.

Lemma In_children_nil k v : ~ In_children [] k v.
Proof. intros (?&?&?&H&_). by apply not_elem_of_nil in H. Qed.

Lemma In_children_cons key c cs k v :
  In_children ((key, c) :: cs) k v <->
  (exists k', k = key ++ k' /\ In_tree c k' v) \/ In_children cs k v.
Proof.
  split.
  - intros (key' & c' & k' & H & -> & Hk). apply elem_of_cons in H as [[= -> ->]|H].
    + left. by exists k'.
    + right. by exists key', c', k'.
  - intros [(k' & -> & H)|(key' & c' & k' & H & -> & Hk)].
    + exists key, c, k'. split_and!; [by left|done|done].
    + exists key', c', k'. split_and!; [by right|done|done].
Qed.

#[global] Instance In_children_perm : Proper ((≡ₚ) ==> eq ==> eq ==> iff) In_children.
Proof.
  intros cs cs' H k ? <- v ? <-. unfold In_children. split; intros (key & c & k' & Hc & Hk);
    exists key, c, k'; (split; [|done]); [by rewrite <- H|by rewrite H].
Qed.

Lemma In_children_mid key c l r k v :
  In_children (l ++ (key, c) :: r) k v <->
  (exists k', k = key ++ k' /\ In_tree c k' v) \/ In_children (l ++ r) k v.
Proof. rewrite <- Permutation_middle. apply In_children_cons. Qed.

Lemma In_children_other c cs k v :
  other_hd c cs -> Forall (fun kc => kc.1 <> []) cs -> In_children cs k v ->
  exists x k', k = x :: k' /\ x <> c.
Proof.
  intros Ho Hne (key & n & k' & Hc & -> & _).
  unfold other_hd in Ho. rewrite Forall_forall in Ho, Hne. specialize (Ho _ Hc). specialize (Hne _ Hc).
  destruct key as [|x key]; [done|]. cbn in *. exists x, (key ++ k'). split; [done|congruence].
Qed.

Lemma In_leaf value k v : In_tree (leaf value) k v <-> k = [] /\ v = value.
Proof.
  unfold leaf. rewrite In_tree_eq. split.
  - intros [(_ & ? & ?)|H]; [done|]. by apply In_children_nil in H.
  - intros [-> ->]. by left.
Qed.

Lemma sorted_delete {A} (l r : list (list Z * A)) x :
  StronglySorted hd_lt (map fst (l ++ x :: r)) -> StronglySorted hd_lt (map fst (l ++ r)).
Proof.
  induction l as [|y l IH]; cbn; intros H; inversion H as [|? ? Hs Hd]; subst; [done|].
  constructor; [by apply IH|]. rewrite map_app, Forall_app in *. cbn in Hd.
  destruct Hd as [? Hd]. split; [done|]. by inversion Hd.
Qed.

Lemma Forall_mid {A} (P : A -> Prop) l x r :
  Forall P (l ++ x :: r) <-> P x /\ Forall P (l ++ r).
Proof. rewrite <- Permutation_middle. apply Forall_cons. Qed.

(** What insertion of [key ↦ value] does to the members. *)
Definition inserted (old new : list Z -> list Z -> Prop) (key value : list Z) : Prop :=
  forall k v, new k v <-> (k = key /\ v = value) \/ (k <> key /\ old k v).

(** The node created at the end of the common prefix [m]. *)
Lemma split_node n k2 key2 value :
  wf n -> k2 <> [] ->
  (forall x y a b, k2 = x :: a -> key2 = y :: b -> x <> y) ->
  let split := emplace k2 n [] in
  let s := if (length key2 =? 0)%nat then Node value true split
           else Node [] false (emplace key2 (leaf value) split) in
  wf s /\
  forall k v, In_tree s k v <-> (k = key2 /\ v = value) \/
                                (exists k', k = k2 ++ k' /\ In_tree n k' v).
Proof.
  intros Hw Hk2 Hd split s. subst s. change split with [(k2, n)].
  destruct key2 as [|y b]; cbn [length Nat.eqb].
  - split; [by repeat constructor|]. intros k v. rewrite In_tree_eq, In_children_cons.
    pose proof (In_children_nil k v). intuition.
  - destruct k2 as [|x a]; [done|]. specialize (Hd x y a b eq_refl eq_refl).
    assert (Ho : other_hd y [(x :: a, n)]) by (repeat constructor; cbn; congruence).
    split.
    + constructor.
      * unfold emplace. rewrite (map_put_new false y b (leaf value) _ Ho). by repeat constructor.
      * apply map_put_sorted; [done|by repeat constructor|repeat constructor].
      * unfold emplace. rewrite (map_put_new false y b (leaf value) _ Ho). by repeat constructor.
    + intros k v. rewrite In_tree_eq. unfold emplace. rewrite (map_put_new false y b (leaf value) _ Ho).
      rewrite !In_children_cons. pose proof (In_children_nil k v). split.
      * intros [(? & _)|[(k' & -> & [-> ->]%In_leaf)|[H'|?]]]; [done| |by right|done].
        left. by rewrite app_nil_r.
      * intros [[-> ->]|H']; right; [left|right; by left].
        exists []. rewrite app_nil_r. by rewrite In_leaf.
Qed.

(** Replacing one child of a node, possibly under a shorter label. *)
Lemma wf_replace d b cs l r c k n k' n' :
  wf (Node d b cs) -> cs = l ++ (c :: k, n) :: r -> other_hd c l -> other_hd c r -> wf n' ->
  wf (Node d b (emplace (c :: k') n' (l ++ r))).
Proof.
  intros Hw -> Hl Hr Hn. inversion Hw as [? ? ? Hne Hs Hc]; subst.
  apply Forall_mid in Hne as [_ Hne], Hc as [_ Hc].
  assert (Ho : other_hd c (l ++ r)) by (by apply Forall_app).
  constructor.
  - unfold emplace. rewrite (map_put_new false c k' n' _ Ho). by constructor.
  - apply map_put_sorted; [done|done|]. by eapply sorted_delete.
  - unfold emplace. rewrite (map_put_new false c k' n' _ Ho). by constructor.
Qed.

Lemma insert_mid {A} (l r : list A) x y : <[length l := y]> (l ++ x :: r) = l ++ y :: r.
Proof. induction l; cbn; [done|]. by f_equal. Qed.

(** Members of a node one of whose children changed. *)
Lemma inserted_mid d b l r old n old' n' cs' key value :
  key <> [] -> (forall k v, In_children (l ++ r) k v -> k <> key) ->
  cs' ≡ₚ (old', n') :: l ++ r ->
  inserted (fun k v => exists k', k = old ++ k' /\ In_tree n k' v)
           (fun k v => exists k', k = old' ++ k' /\ In_tree n' k' v) key value ->
  inserted (In_tree (Node d b (l ++ (old, n) :: r))) (In_tree (Node d b cs')) key value.
Proof.
  intros Hk Ho Hp Hi k v. rewrite !In_tree_eq, Hp, In_children_cons, In_children_mid.
  specialize (Hi k v). specialize (Ho k v). cbn beta in Hi. rewrite Hi. clear Hi Hp.
  assert (k = [] -> k <> key) by congruence. tauto.
Qed.

(** Insertion below an unchanged label. *)
Lemma inserted_below (old : list Z) (P P' : list Z -> list Z -> Prop) key value :
  inserted P P' key value ->
  inserted (fun k v => exists k', k = old ++ k' /\ P k' v)
           (fun k v => exists k', k = old ++ k' /\ P' k' v) (old ++ key) value.
Proof.
  intros H k v. split.
  - intros (k' & -> & [[-> ->]|[Hn Hk]]%H); [by left|].
    right. split; [|by exists k']. intros E. by apply app_inv_head in E.
  - intros [[-> ->]|(Hn & k' & -> & Hk)].
    + exists key. split; [done|]. apply H. by left.
    + exists k'. split; [done|]. apply H. right. split; [congruence|done].
Qed.

(** The key ends at this node. *)
Lemma insert_here d b cs value : wf (Node d b cs) ->
  wf (Node value true cs) /\ inserted (In_tree (Node d b cs)) (In_tree (Node value true cs)) [] value.
Proof.
  intros Hw. inversion Hw as [? ? ? Hne Hs Hc]; subst. split; [by constructor|].
  intros k v. rewrite !In_tree_eq. assert (In_children cs k v -> k <> []).
  { intros (k1 & c1 & k2 & Hin & -> & _). rewrite Forall_forall in Hne.
    specialize (Hne _ Hin). cbn in Hne. by destruct k1. }
  intuition congruence.
Qed.

(** No child shares a byte with the key: a leaf is added. *)
Lemma insert_new_child d b cs c key value : wf (Node d b cs) -> other_hd c cs ->
  let n' := Node d b (assign (c :: key) (leaf value) cs) in
  wf n' /\ inserted (In_tree (Node d b cs)) (In_tree n') (c :: key) value.
Proof.
  intros Hw Ho. inversion Hw as [? ? ? Hne Hs Hc]; subst. cbv zeta. unfold assign.
  pose proof (map_put_new true c key (leaf value) _ Ho) as Hp. split.
  - constructor; [rewrite Hp; by constructor|by apply map_put_sorted|].
    rewrite Hp. constructor; [repeat constructor|done].
  - intros k v. rewrite !In_tree_eq, Hp, In_children_cons.
    assert (In_children cs k v -> k <> c :: key).
    { intros (x & k' & -> & ?)%(In_children_other c); [congruence|done|done]. }
    assert ((exists k', k = (c :: key) ++ k' /\ In_tree (leaf value) k' v)
            <-> k = c :: key /\ v = value) as ->.
    { split.
      - intros (k' & -> & [-> ->]%In_leaf). by rewrite app_nil_r.
      - intros [-> ->]. exists []. by rewrite app_nil_r, In_leaf. }
    intuition congruence.
Qed.

(** A label [m ++ k2] is cut behind [m], the key going on with [key2]. *)
Lemma inserted_cut (m k2 key2 : list Z) (P Q : list Z -> list Z -> Prop) value :
  (forall x y a b, k2 = x :: a -> key2 = y :: b -> x <> y) -> k2 <> [] ->
  (forall k v, Q k v <-> (k = key2 /\ v = value) \/ exists z, k = k2 ++ z /\ P z v) ->
  inserted (fun k v => exists k', k = (m ++ k2) ++ k' /\ P k' v)
           (fun k v => exists k', k = m ++ k' /\ Q k' v) (m ++ key2) value.
Proof.
  intros Hd Hk2 HQ k v. setoid_rewrite HQ. split.
  - intros (y & -> & [[-> ->]|(z & -> & Hz)]); [by left|]. right. split.
    + intros E. apply app_inv_head in E. destruct k2 as [|x a]; [done|].
      destruct key2 as [|y b]; [done|]. eapply Hd; [done|done|]. by injection E as -> _.
    + exists z. by rewrite <- app_assoc.
  - intros [[-> ->]|(Hn & z & -> & Hz)]; [exists key2; split; [done|by left]|].
    exists (k2 ++ z). rewrite <- app_assoc. split; [done|]. right. by exists z.
Qed.

Lemma insertImpl_ok fuel : forall n key value,
  wf n -> (length key < fuel)%nat ->
  wf (insertImpl fuel n key value) /\
  inserted (In_tree n) (In_tree (insertImpl fuel n key value)) key value.
Proof.
  induction fuel as [|fuel IH]; intros n key value Hw Hf; [lia|].
  destruct n as [d b cs]. inversion Hw as [? ? ? Hne Hs Hc]; subst.
  destruct key as [|c key]; cbn [insertImpl children data isDataPresent]; [by apply insert_here|].
  destruct (heads_cases c cs Hne Hs) as [Ho|(l & k & n & r & E & Hl & Hr)].
  { rewrite best_child_other by done. by apply insert_new_child. }
  assert (Ho : other_hd c (l ++ r)) by (by apply Forall_app).
  rewrite E, best_child_found by done. cbn [Nat.add].
  destruct (matchedLength_split (c :: key) (c :: k)) as (m & key2 & k2 & Ek & Eo & EL & Hd).
  rewrite EL. destruct m as [|c' m]; [exfalso; cbn in Ek, Eo; subst key2 k2; by eapply Hd|].
  assert (c' = c) as -> by (cbn in Ek; congruence).
  cbn [length Nat.eqb]. rewrite list_lookup_middle by done.
  rewrite E in Hne, Hc. apply Forall_mid in Hne as [_ Hne'], Hc as [Hwn Hc']. cbn in Hwn.
  assert (Hoth : forall k' v, In_children (l ++ r) k' v -> k' <> c :: key).
  { intros k' v (x & k3 & -> & ?)%(In_children_other c); [congruence|done|done]. }
  assert (Hdrop : drop (S (length m)) (c :: key) = key2) by (rewrite Ek; apply (drop_app_length (c :: m))).
  assert (Hlen : length (c :: key) = (length (c :: m) + length key2)%nat) by (by rewrite Ek, length_app).
  change (S (length m)) with (length (c :: m)) in *.
  change (match length (c :: k) with 0%nat => false | S m' => _ end) with (length (c :: m) =? length (c :: k))%nat.
  change (length m =? length key)%nat with (length (c :: m) =? length (c :: key))%nat.
  rewrite Hdrop, delete_middle, insert_mid.
  destruct (Nat.eqb_spec (length (c :: m)) (length (c :: k))) as [Hfull|Hpart].
  - assert (k2 = []) as -> by (rewrite Eo, length_app in Hfull; destruct k2; [done|cbn in Hfull; lia]).
    rewrite app_nil_r in Eo. destruct (IH n key2 value Hwn) as [Hw' Hi]; [cbn in Hlen, Hf; lia|]. split.
    + subst cs. inversion Hw as [? ? ? Hne2 Hs2 Hc2]; subst. apply Forall_mid in Hne2 as [? ?].
      constructor; [by apply Forall_mid|by rewrite map_app in *|by apply Forall_mid].
    + eapply inserted_mid; [done|exact Hoth|by rewrite Permutation_middle|]. rewrite Ek, Eo. by apply inserted_below.
  - assert (Hk2 : k2 <> []) by (intros ->; rewrite app_nil_r in Eo; congruence).
    assert (Hd' : forall x y a b, k2 = x :: a -> key2 = y :: b -> x <> y) by (intros ????? ? ->; by eapply Hd).
    destruct (split_node n k2 key2 value Hwn Hk2 Hd') as [Hws His].
    replace (length (c :: m) =? length (c :: key))%nat with (length key2 =? 0)%nat
      by (rewrite Hlen; destruct key2; symmetry; [apply Nat.eqb_eq|apply Nat.eqb_neq]; cbn [length]; lia).
    replace (drop (length (c :: m)) (c :: k)) with k2 by (rewrite Eo; symmetry; apply drop_app_length).
    replace (take (length (c :: m)) (c :: key)) with (c :: m) by (rewrite Ek; symmetry; apply take_app_length).
    split; [by eapply wf_replace|]. eapply inserted_mid; [done|exact Hoth|by apply map_put_new|].
    rewrite Eo, Ek. by apply inserted_cut.
Qed.

(** * Search *)
Lemma In_tree_fun n k v v' : wf n -> In_tree n k v -> In_tree n k v' -> v = v'.
Proof.
  intros Hw H H'. pose proof (entries_sorted n Hw []) as Hs.
  assert (H1 : (k, v) ∈ entries n []) by (apply entries_In; by exists k).
  assert (H2 : (k, v') ∈ entries n []) by (apply entries_In; by exists k).
  revert H1 H2. induction Hs as [|a l Hs IH Ha]; [by intros ?%not_elem_of_nil|].
  rewrite Forall_forall in Ha. rewrite !elem_of_cons.
  intros [<-|H1] [E|H2]; [congruence| | |auto].
  - specialize (Ha _ H2). unfold key_lt in Ha. cbn in Ha. by rewrite blt_irrefl in Ha.
  - subst a. specialize (Ha _ H1). unfold key_lt in Ha. cbn in Ha. by rewrite blt_irrefl in Ha.
Qed.

Lemma search_child_other c key cs :
  other_hd c cs -> Forall (fun kc => kc.1 <> []) cs -> search_child (c :: key) cs = None.
Proof.
  induction 1 as [|[k n] cs Hk _ IH]; intros Hne; cbn [search_child]; [done|].
  apply Forall_cons in Hne as [Hk' Hne]. rewrite other_matched by done.
  destruct k; [done|]. by apply IH.
Qed.

Lemma search_child_found c key k n l r :
  other_hd c l -> other_hd c r -> Forall (fun kc => kc.1 <> []) (l ++ r) ->
  search_child (c :: key) (l ++ (c :: k, n) :: r) =
  (if (matchedLength (c :: key) (c :: k) =? length (c :: k))%nat
   then Some (drop (length (c :: k)) (c :: key), n) else None).
Proof.
  intros Hl Hr. induction Hl as [|[k' n'] l Hk _ IH]; intros Hne; cbn [app search_child].
  - destruct (Nat.eqb_spec (matchedLength (c :: key) (c :: k)) (length (c :: k))) as [->|]; [done|].
    by apply search_child_other.
  - apply Forall_cons in Hne as [Hk' Hne]. rewrite other_matched by done.
    destruct k'; [done|]. by apply IH.
Qed.

Lemma search_loop_ok fuel : forall n key,
  wf n -> (length key < fuel)%nat ->
  exists s, search_loop fuel n key = Done s /\
            (In_tree n key s \/ s = [] /\ forall v, ~ In_tree n key v).
Proof.
  induction fuel as [|fuel IH]; intros n key Hw Hf; [lia|].
  destruct n as [d b cs]. inversion Hw as [? ? ? Hne Hs Hc]; subst.
  destruct key as [|c key]; cbn [search_loop children data isDataPresent].
  { destruct b; eexists; (split; [done|]); [left; constructor|right; split; [done|]].
    intros v. rewrite In_tree_eq. intros [(? & _)|(k1 & c1 & k2 & Hin & E & _)]; [done|].
    rewrite Forall_forall in Hne. specialize (Hne _ Hin). by destruct k1. }
  destruct (heads_cases c cs Hne Hs) as [Ho|(l & k & n & r & -> & Hl & Hr)].
  - rewrite search_child_other by done. eexists. split; [done|]. right. split; [done|].
    intros v. rewrite In_tree_eq. intros [(_ & ? & _)|H]; [done|].
    apply (In_children_other c) in H as (x & k' & [= <- _] & ?); done.
  - apply Forall_mid in Hne as [_ Hne], Hc as [Hwn _]. cbn in Hwn.
    assert (Ho : other_hd c (l ++ r)) by (by apply Forall_app).
    assert (Hmem : forall v, In_tree (Node d b (l ++ (c :: k, n) :: r)) (c :: key) v <->
              exists k', c :: key = (c :: k) ++ k' /\ In_tree n k' v).
    { intros v. rewrite In_tree_eq, In_children_mid. split.
      - intros [(_ & ? & _)|[?|H]]; [done|done|].
        apply (In_children_other c) in H as (x & k' & [= <- _] & ?); done.
      - auto. }
    rewrite search_child_found by done.
    destruct (Nat.eqb_spec (matchedLength (c :: key) (c :: k)) (length (c :: k))) as [E|E].
    + apply matchedLength_full in E as [rest E]. rewrite E, drop_app_length.
      destruct (IH n rest Hwn) as (s & Hs' & Hin).
      { apply (f_equal length) in E. rewrite length_app in E. cbn in *. lia. }
      exists s. split; [done|]. destruct Hin as [Hin|[-> Hin]]; [left|right; split; [done|]].
      * rewrite <- E. apply Hmem. by exists rest.
      * intros v. rewrite <- E, Hmem. intros (k' & E' & Hk'). rewrite E in E'.
        apply app_inv_head in E' as <-. by apply Hin in Hk'.
    + eexists. split; [done|]. right. split; [done|]. intros v. rewrite Hmem.
      intros (k' & E' & _). apply E, matchedLength_full. by exists k'.
Qed.

(** * Range search *)
Definition in_range (startKey endKey : list Z) (isExclusive : bool) (kv : list Z * list Z) : bool :=
  (ble startKey kv.1 && ble kv.1 endKey) && negb (isExclusive && bool_decide (kv.1 = startKey)).

Lemma not_prefix_below p s y :
  ble p s = true ->
  ((length p <=? length s)%nat && is_prefix p s) = false -> blt (p ++ y) s = true.
Proof.
  revert s. induction p as [|x p IH]; intros s Hp Hn.
  - unfold is_prefix in Hn. cbn [length take Nat.leb andb] in Hn.
    by rewrite bool_decide_true in Hn.
  - destruct s as [|z s]; [done|]. unfold ble in Hp. cbn in Hp.
    unfold blt. cbn. destruct (Z.compare_spec x z) as [->|?|?]; [|done|done].
    apply IH; [done|]. cbn [length Nat.leb] in Hn. unfold is_prefix in *. cbn [length take] in Hn.
    destruct (_ <=? _)%nat; [|done]. cbn [andb] in *.
    apply bool_decide_eq_false in Hn. apply bool_decide_eq_false. congruence.
Qed.

Lemma filter_none {A} (f : A -> bool) l : (forall x, x ∈ l -> f x = false) -> List.filter f l = [].
Proof.
  induction l as [|a l IH]; intros H; cbn; [done|].
  rewrite (H a) by left. apply IH. intros. apply H. by right.
Qed.

Section RangeSpec.
Context (s e : list Z) (ex : bool).

Lemma in_range_above kv : blt e kv.1 = true -> in_range s e ex kv = false.
Proof.
  intros H. unfold in_range. rewrite blt_ble in H. apply negb_true_iff in H.
  by rewrite H, andb_false_r.
Qed.

Lemma in_range_below kv : blt kv.1 s = true -> in_range s e ex kv = false.
Proof.
  intros H. unfold in_range. rewrite blt_ble in H. apply negb_true_iff in H. by rewrite H.
Qed.

(** The loop of [rangeSearchImpl] over the children. *)
Fixpoint range_children (cur : list Z) (cs : list (list Z * node)) : list (list Z * list Z) :=
  match cs with
  | [] => []
  | (key, child) :: cs =>
      let newKey := cur ++ key in
      if blt e newKey then []
      else if ble newKey s && negb ((length newKey <=? length s)%nat && is_prefix newKey s)
      then range_children cur cs
      else rangeSearchImpl s e ex child newKey ++ range_children cur cs
  end.

Lemma rangeSearchImpl_eq d b cs cur :
  rangeSearchImpl s e ex (Node d b cs) cur =
  List.filter (in_range s e ex) (if b then [(cur, d)] else []) ++ range_children cur cs.
Proof.
  cbn [rangeSearchImpl]. f_equal.
  - destruct b; cbn [andb List.filter]; [|done]. unfold in_range. cbn [fst].
    by destruct (_ && _).
  - induction cs as [|[k c] cs IH]; cbn [range_children]; [done|]. by rewrite IH.
Qed.

Lemma rangeSearchImpl_filter n : wf n -> forall cur,
  rangeSearchImpl s e ex n cur = List.filter (in_range s e ex) (entries n cur).
Proof.
  induction n as [d b cs IH] using node_ind'. intros Hw cur.
  inversion Hw as [? ? ? Hne Hs Hc]; subst. rewrite rangeSearchImpl_eq, entries_eq, List.filter_app.
  f_equal. clear Hw d b. induction cs as [|[k c] cs IHc]; cbn [range_children]; [done|].
  apply Forall_cons in IH as [IH1 IH2], Hne as [Hk Hne], Hc as [Hc1 Hc2].
  cbn in Hs, IH1, Hc1. inversion Hs as [|? ? Hs' Hd]; subst.
  unfold child_entries. cbn [map concat]. fold (child_entries cur cs).
  rewrite List.filter_app, (IHc IH2 Hne Hs' Hc2).
  destruct (blt e (cur ++ k)) eqn:Hgt.
  - rewrite !filter_none; [done| |].
    + intros [x v] (k2 & c2 & Hin & (y & -> & _)%entries_In)%elem_of_child_entries.
      apply in_range_above. cbn. eapply blt_trans; [exact Hgt|].
      rewrite <- app_assoc, blt_app. rewrite <- (app_nil_r k). apply hd_lt_blt.
      rewrite Forall_forall in Hd. apply Hd, list_elem_of_fmap. by exists (k2, c2).
    + intros [x v] (y & -> & _)%entries_In. apply in_range_above. cbn.
      eapply blt_ble_trans; [exact Hgt|apply ble_prefix].
  - destruct (ble (cur ++ k) s && _) eqn:Hskip; [|by rewrite (IH1 Hc1)].
    apply andb_true_iff in Hskip as [Hle Hpre]. apply negb_true_iff in Hpre.
    rewrite (filter_none _ (entries c (cur ++ k))); [done|].
    intros [x v] (y & -> & _)%entries_In. apply in_range_below. by apply not_prefix_below.
Qed.
End RangeSpec.

(** * The interface of the index *)

(** Sorted association lists: insertion of a binding. *)
Definition assoc_insert (k v : list Z) (l : list (list Z * list Z)) : list (list Z * list Z) :=
  List.filter (fun kv => blt kv.1 k) l ++ (k, v) :: List.filter (fun kv => blt k kv.1) l.

Class RangeIndex (T : Type) := {
  index_empty : T;
  index_insert : T -> list Z -> list Z -> T;
  index_range : T -> list Z -> list Z -> bool -> list (list Z * list Z);
  index_entries : T -> list (list Z * list Z);
  index_inv : T -> Prop;
  index_empty_inv : index_inv index_empty;
  index_empty_entries : index_entries index_empty = [];
  index_insert_inv t k v : index_inv t -> index_inv (index_insert t k v);
  index_insert_entries t k v : index_inv t ->
    index_entries (index_insert t k v) = assoc_insert k v (index_entries t);
  index_sorted t : index_inv t -> StronglySorted key_lt (index_entries t);
  index_range_filter t s e ex : index_inv t ->
    index_range t s e ex = List.filter (in_range s e ex) (index_entries t)
}.

Lemma StronglySorted_filter {A} (R : A -> A -> Prop) f l :
  StronglySorted R l -> StronglySorted R (List.filter f l).
Proof.
  induction 1 as [|a l Hs IH Ha]; cbn; [constructor|]. destruct (f a); [|done].
  constructor; [done|]. rewrite Forall_forall in *. intros x Hx. apply Ha.
  rewrite list_elem_of_In in *. apply List.filter_In in Hx. tauto.
Qed.

Lemma elem_of_assoc_insert k v l x :
  x ∈ assoc_insert k v l <-> x = (k, v) \/ (x.1 <> k /\ x ∈ l).
Proof.
  unfold assoc_insert. rewrite elem_of_app, elem_of_cons, !elem_of_filter_list.
  assert (x.1 <> k <-> blt x.1 k = true \/ blt k x.1 = true) as ->; [|tauto].
  split.
  - intros Hn. destruct (blt x.1 k) eqn:E1, (blt k x.1) eqn:E2; auto.
    by pose proof (blt_total _ _ E1 E2).
  - intros [H|H] E; rewrite E, blt_irrefl in H; done.
Qed.

Lemma assoc_insert_sorted k v l :
  StronglySorted key_lt l -> StronglySorted key_lt (assoc_insert k v l).
Proof.
  intros Hs. unfold assoc_insert. apply StronglySorted_app.
  - by apply StronglySorted_filter.
  - constructor; [by apply StronglySorted_filter|]. apply Forall_forall.
    intros x Hx. by apply elem_of_filter_list in Hx as [_ ?].
  - intros x y [_ Hx]%elem_of_filter_list Hy. unfold key_lt.
    apply elem_of_cons in Hy as [->|[_ Hy]%elem_of_filter_list]; [done|].
    by eapply blt_trans.
Qed.

Lemma insert_tree_wf t k v : tree_wf t -> tree_wf (insert t k v).
Proof.
  intros Hw. cbn [tree_wf insert]. apply insertImpl_ok; [|lia].
  destruct t; [done|]. repeat constructor.
Qed.

Lemma insert_tree_entries t k v :
  tree_wf t -> tree_entries (insert t k v) = assoc_insert k v (tree_entries t).
Proof.
  intros Hw. set (n := match t with Some n => n | None => emptyNode end).
  assert (Hn : wf n) by (subst n; destruct t; [done|repeat constructor]).
  assert (He : tree_entries t = entries n []) by (by destruct t).
  destruct (insertImpl_ok (S (length k)) n k v Hn ltac:(lia)) as [Hw' Hi].
  rewrite He. cbn [tree_entries insert]. fold n. apply sorted_ext.
  - by apply entries_sorted.
  - by apply assoc_insert_sorted, entries_sorted.
  - intros [k' v']. rewrite elem_of_assoc_insert, !entries_In. cbn. split.
    + intros (k2 & -> & H). apply Hi in H as [[-> ->]|[Hne H]]; [by left|].
      right. split; [done|]. by exists k2.
    + intros [[= -> ->]|(Hne & k2 & -> & H)].
      * exists k. split; [done|]. apply Hi. by left.
      * exists k2. split; [done|]. apply Hi. by right.
Qed.

#[export] Program Instance radix_range_index : RangeIndex RadixTree := {|
  index_empty := None;
  index_insert := insert;
  index_range := rangeSearch;
  index_entries := tree_entries;
  index_inv := tree_wf
|}.
Next Obligation. done. Qed.
Next Obligation. done. Qed.
Next Obligation. intros. by apply insert_tree_wf. Qed.
Next Obligation. intros. by apply insert_tree_entries. Qed.
Next Obligation. intros [n|] ?; [by apply entries_sorted|constructor]. Qed.
Next Obligation. intros [n|] s e ex ?; [by apply rangeSearchImpl_filter|done]. Qed.

(** The tree of keys "ab", "abc" and "b", for the examples. *)
Definition sample_tree : RadixTree :=
  insert (insert (insert None (lit "abc") (lit "1")) (lit "b") (lit "2")) (lit "ab") (lit "3").

Lemma sample_tree_wf : tree_wf sample_tree.
Proof. unfold sample_tree. do 3 apply insert_tree_wf. done. Defined.

Lemma tree_member t k v : (k, v) ∈ tree_entries t <->
  match t with Some n => In_tree n k v | None => False end.
Proof.
  destruct t as [n|]; cbn; [|by rewrite elem_of_nil].
  rewrite entries_In. split; [by intros (? & -> & ?)|eauto].
Qed.

Lemma search_spec t k :
  tree_wf t ->
  exists s, search t k = Done s /\
    ((k, s) ∈ tree_entries t \/ s = [] /\ forall v, (k, v) ∉ tree_entries t).
Proof.
  intros Hw. setoid_rewrite tree_member. destruct t as [n|]; cbn [search].
  - by apply search_loop_ok; [|lia].
  - exists []. split; [done|]. right. split; [done|]. by intros v [].
Qed.

Lemma tree_entries_fun t k v v' :
  tree_wf t -> (k, v) ∈ tree_entries t -> (k, v') ∈ tree_entries t -> v = v'.
Proof. rewrite !tree_member. destruct t; [|done]. apply In_tree_fun. Qed.

(** * Properties *)

(** C9: insertion.  Inserting into a well-formed tree keeps it well formed and
    acts on its sorted list of key/value pairs as the insertion or replacement
    of one binding, whichever of the four cases of [insertImpl] (existing node,
    new leaf, descent, split) applies. *)
Theorem radix_insert_correct t k v :
  tree_wf t ->
  tree_wf (insert t k v) /\
  StronglySorted key_lt (tree_entries (insert t k v)) /\
  tree_entries (insert t k v) = assoc_insert k v (tree_entries t).
Proof.
  intros Hw. split_and!.
  - by apply insert_tree_wf.
  - exact (index_sorted (insert t k v) (insert_tree_wf t k v Hw)).
  - by apply insert_tree_entries.
Qed.

Lemma radix_insert_correct_witness :
  tree_entries (insert sample_tree (lit "aba") (lit "4")) =
  assoc_insert (lit "aba") (lit "4") (tree_entries sample_tree).
Proof. exact (proj2 (proj2 (radix_insert_correct sample_tree _ (lit "4") sample_tree_wf))). Defined.

(** lookup after insertion.  [search] terminates without a fault on a
    well-formed tree, finds the value just inserted under its key, and for any
    other key answers as before; on an empty tree it answers the empty string. *)
Theorem radix_search_insert t k v k' :
  tree_wf t ->
  search None k' = Done [] /\
  search (insert t k v) k' = (if bool_decide (k' = k) then Done v else search t k').
Proof.
  intros Hw. split; [done|].
  destruct (search_spec (insert t k v) k') as (s & -> & Hs); [by apply insert_tree_wf|].
  assert (Hmem : forall x, (k', x) ∈ tree_entries (insert t k v) <->
    (k', x) = (k, v) \/ (k' <> k /\ (k', x) ∈ tree_entries t)).
  { intros x. rewrite insert_tree_entries by done. apply elem_of_assoc_insert. }
  case_bool_decide as Hk.
  - subst k'. f_equal. assert (Hin : (k, v) ∈ tree_entries (insert t k v)) by (apply Hmem; by left).
    destruct Hs as [Hs|[_ Hs]]; [|by apply Hs in Hin].
    eapply tree_entries_fun; [|exact Hs|exact Hin]. by apply insert_tree_wf.
  - destruct (search_spec t k' Hw) as (s' & -> & Hs'). f_equal.
    destruct Hs as [[?|[_ Hs]]%Hmem|[-> Hs]]; [congruence| |].
    + destruct Hs' as [Hs'|[_ Hs']]; [|by apply Hs' in Hs]. by eapply tree_entries_fun.
    + destruct Hs' as [Hs'|[-> _]]; [|done].
      exfalso. apply (Hs s'). apply Hmem. by right.
Qed.

Lemma radix_search_insert_witness :
  search (insert sample_tree (lit "aba") (lit "4")) (lit "abc") = search sample_tree (lit "abc").
Proof. exact (proj2 (radix_search_insert sample_tree (lit "aba") (lit "4") (lit "abc") sample_tree_wf)). Defined.

(** C10: the pruned range search is exact.  On a well-formed tree it returns, in
    increasing key order, exactly the bindings whose key lies between the two
    bounds, without the lower one when it is exclusive: neither cutting off
    at the upper bound nor skipping subtrees below the lower one loses a key. *)
Theorem radix_rangeSearch_exact t startKey endKey isExclusive :
  tree_wf t ->
  rangeSearch t startKey endKey isExclusive =
    List.filter (in_range startKey endKey isExclusive) (tree_entries t) /\
  StronglySorted key_lt (rangeSearch t startKey endKey isExclusive).
Proof.
  intros Hw. assert (E : rangeSearch t startKey endKey isExclusive =
    List.filter (in_range startKey endKey isExclusive) (tree_entries t)).
  { destruct t as [n|]; [by apply rangeSearchImpl_filter|done]. }
  split; [done|]. rewrite E. apply StronglySorted_filter. exact (index_sorted t Hw).
Qed.

Lemma radix_rangeSearch_exact_witness :
  rangeSearch sample_tree (lit "ab") (lit "b") true = [(lit "abc", lit "1"); (lit "b", lit "2")].
Proof.
  rewrite (proj1 (radix_rangeSearch_exact sample_tree (lit "ab") (lit "b") true sample_tree_wf)).
  vm_compute. reflexivity.
Defined.
