(* ===== verification/Stream.v ===== *)
(** [src/stream.h] and [src/stream.cpp]: stream IDs, their big-endian binary
    form, and a stream kept as an index from binary IDs to entries.  The stream
    is written against the interface [RangeIndex]; the radix tree implements it.
    The abstract view is a log of (ID, entry) pairs in increasing ID order:
    [insert] appends to the log or refuses, [xrangeData] filters it. *)
From S2P Require Import Prelude Utils RadixTree.

(** * Stream IDs *)
Record StreamID := MkID { ms : Z; seq : Z }.

#[global] Instance StreamID_eq_dec : EqDecision StreamID.
Proof. solve_decision. Defined.

Definition zeroID : StreamID := MkID 0 0.

Definition toBinary (s : StreamID) : list Z :=
  [ Z.land (Z.shiftr (ms s) 56) 255; Z.land (Z.shiftr (ms s) 48) 255;
    Z.land (Z.shiftr (ms s) 40) 255; Z.land (Z.shiftr (ms s) 32) 255;
    Z.land (Z.shiftr (ms s) 24) 255; Z.land (Z.shiftr (ms s) 16) 255;
    Z.land (Z.shiftr (ms s) 8) 255; Z.land (ms s) 255;
    Z.land (Z.shiftr (seq s) 56) 255; Z.land (Z.shiftr (seq s) 48) 255;
    Z.land (Z.shiftr (seq s) 40) 255; Z.land (Z.shiftr (seq s) 32) 255;
    Z.land (Z.shiftr (seq s) 24) 255; Z.land (Z.shiftr (seq s) 16) 255;
    Z.land (Z.shiftr (seq s) 8) 255; Z.land (seq s) 255 ].

(** One big-endian 64-bit field at offset [i]. *)
Definition field64 (string : list Z) (i : Z) : outcome Z :=
  b0 ← rd string i; b1 ← rd string (i + 1); b2 ← rd string (i + 2); b3 ← rd string (i + 3);
  b4 ← rd string (i + 4); b5 ← rd string (i + 5); b6 ← rd string (i + 6);
  b7 ← rd string (i + 7);
  mret (Z.lor (Z.lor (Z.lor (Z.lor (Z.lor (Z.lor (Z.lor
    (Z.shiftl b0 56) (Z.shiftl b1 48)) (Z.shiftl b2 40)) (Z.shiftl b3 32))
    (Z.shiftl b4 24)) (Z.shiftl b5 16)) (Z.shiftl b6 8)) b7).

Definition fromBinary (string : list Z) : outcome StreamID :=
  assertb (16 <=? len string);;
  ms ← field64 string 0;
  seq ← field64 string 8;
  mret (MkID ms seq).

Definition isGreater (a other : StreamID) : bool :=
  if ms other <? ms a then true
  else if ms a <? ms other then false
  else seq other <? seq a.

Definition toString (s : StreamID) : list Z :=
  to_string (ms s) ++ lit "-" ++ to_string (seq s).

(** * Streams *)
Inductive StreamErrorType :=
| OK | INVALID_ID_FORMAT | ID_NOT_GREATER_THAN_LAST | NOT_GREATER_THAN_ZERO.

Record StreamStatus := MkStatus { error : StreamErrorType; streamid : list Z }.

(** [str.find(c)], then the parts before and after: [None] is [npos]. *)
Fixpoint split_at_char (c : Z) (str : list Z) : option (list Z * list Z) :=
  match str with
  | [] => None
  | x :: str =>
      if x =? c then Some ([], str)
      else match split_at_char c str with
           | Some (a, b) => Some (x :: a, b)
           | None => None
           end
  end.

Definition dash : Z := 45.

Section Stream.
Context {T : Type} `{RangeIndex T}.

Record Stream := MkStream {
  radixTreePtr : option T;
  lastInsertStreamID : StreamID
}.

Definition newStream : Stream := MkStream None zeroID.

(** [millisecond] is the reading of the system clock. *)
Definition fromString (st : Stream) (str : list Z) (millisecond : Z) : option StreamID :=
  if bool_decide (str = lit "*") then
    Some (MkID millisecond (if ms (lastInsertStreamID st) =? millisecond then 1 else 0))
  else
    match split_at_char dash str with
    | None => None
    | Some (msStr, seqStr) =>
        match convert_positive_string_to_number msStr with
        | (false, _) => None
        | (true, ms_val) =>
            if bool_decide (seqStr = lit "*") then
              Some (MkID ms_val
                     (if ms (lastInsertStreamID st) =? ms_val
                      then u64 (seq (lastInsertStreamID st) + 1) else 0))
            else
              match convert_positive_string_to_number seqStr with
              | (false, _) => None
              | (true, seq_val) => Some (MkID ms_val seq_val)
              end
        end
    end.

Definition insert (st : Stream) (streamId value : list Z) (millisecond : Z)
  : Stream * StreamStatus :=
  match fromString st streamId millisecond with
  | None => (st, MkStatus INVALID_ID_FORMAT [])
  | Some sid =>
      if (ms sid =? 0) && (seq sid =? 0) then (st, MkStatus NOT_GREATER_THAN_ZERO [])
      else
        let last := lastInsertStreamID st in
        if (negb (ms last =? 0) || negb (seq last =? 0)) && negb (isGreater sid last)
        then (st, MkStatus ID_NOT_GREATER_THAN_LAST [])
        else
          let tree := match radixTreePtr st with Some t => t | None => index_empty end in
          (MkStream (Some (index_insert tree (toBinary sid) value)) sid,
           MkStatus OK (toString sid))
  end.

Definition fromStringForSearch (str : list Z) (isEndKey : bool) : option StreamID :=
  if bool_decide (str = lit "-") then Some zeroID
  else if bool_decide (str = lit "+") then Some (MkID UINT64_MAX UINT64_MAX)
  else
    let '(msStr, seqStr) :=
      match split_at_char dash str with
      | Some p => p
      | None => (str, if isEndKey then to_string UINT64_MAX else lit "0")
      end in
    match convert_positive_string_to_number msStr with
    | (false, _) => None
    | (true, msVal) =>
        match convert_positive_string_to_number seqStr with
        | (false, _) => None
        | (true, seqVal) => Some (MkID msVal seqVal)
        end
    end.

(** The boolean result and what is appended to [result]. *)
Definition xrangeData (st : Stream) (startStreamId endStreamId : list Z) (isExclusive : bool)
  : bool * list (list Z * list Z) :=
  match fromStringForSearch startStreamId false with
  | None => (false, [])
  | Some startStreamID =>
      match fromStringForSearch endStreamId true with
      | None => (false, [])
      | Some endStreamID =>
          match radixTreePtr st with
          | None => (false, [])
          | Some t =>
              (true, index_range t (toBinary startStreamID) (toBinary endStreamID) isExclusive)
          end
      end
  end.
End Stream.
Arguments Stream : clear implicits.

(** * Big-endian fields *)
Fixpoint be_bytes (n : nat) (v : Z) : list Z :=
  match n with
  | O => []
  | S n => (v / 256 ^ Z.of_nat n) mod 256 :: be_bytes n v
  end.

Definition id_wf (s : StreamID) : Prop := is_u64 (ms s) /\ is_u64 (seq s).

Lemma be_bytes_8 v :
  be_bytes 8 v =
  [ Z.land (Z.shiftr v 56) 255; Z.land (Z.shiftr v 48) 255; Z.land (Z.shiftr v 40) 255;
    Z.land (Z.shiftr v 32) 255; Z.land (Z.shiftr v 24) 255; Z.land (Z.shiftr v 16) 255;
    Z.land (Z.shiftr v 8) 255; Z.land v 255 ].
Proof.
  rewrite !land_255, !Z.shiftr_div_pow2 by lia. cbn [be_bytes].
  change (256 ^ Z.of_nat 7) with (2 ^ 56). change (256 ^ Z.of_nat 6) with (2 ^ 48).
  change (256 ^ Z.of_nat 5) with (2 ^ 40). change (256 ^ Z.of_nat 4) with (2 ^ 32).
  change (256 ^ Z.of_nat 3) with (2 ^ 24). change (256 ^ Z.of_nat 2) with (2 ^ 16).
  change (256 ^ Z.of_nat 1) with (2 ^ 8). change (256 ^ Z.of_nat 0) with 1.
  by rewrite Z.div_1_r.
Qed.

Lemma toBinary_be s : toBinary s = be_bytes 8 (ms s) ++ be_bytes 8 (seq s).
Proof. by rewrite !be_bytes_8. Qed.

Lemma be_bytes_mod n v m : (n <= m)%nat -> be_bytes n (v mod 256 ^ Z.of_nat m) = be_bytes n v.
Proof.
  induction n as [|n IH]; intros Hm; cbn [be_bytes]; [done|]. rewrite IH by lia. f_equal.
  set (p := 256 ^ Z.of_nat n). assert (0 < p) by (apply Z.pow_pos_nonneg; lia).
  set (q := 256 ^ (Z.of_nat m - Z.of_nat (S n))).
  assert (E : 256 ^ Z.of_nat m = q * 256 * p).
  { subst p q. rewrite <- (Z.pow_1_r 256) at 3. rewrite <- !Z.pow_add_r by lia. f_equal. lia. }
  rewrite (Z.mod_eq v (256 ^ Z.of_nat m)) by (rewrite E; subst q; pose proof (Z.pow_pos_nonneg 256 (Z.of_nat m - Z.of_nat (S n))); nia).
  rewrite E. set (k := v / (q * 256 * p)).
  replace (v - q * 256 * p * k) with (v + (- (q * k) * 256) * p) by ring.
  rewrite Z.div_add by lia. by rewrite Z.mod_add by lia.
Qed.

Lemma bcompare_be n : forall a b,
  0 <= a < 256 ^ Z.of_nat n -> 0 <= b < 256 ^ Z.of_nat n ->
  bcompare (be_bytes n a) (be_bytes n b) = (a ?= b).
Proof.
  induction n as [|n IH]; intros a b Ha Hb.
  - cbn in *. symmetry. apply Z.compare_eq_iff. lia.
  - cbn [be_bytes bcompare]. rewrite Nat2Z.inj_succ, Z.pow_succ_r in Ha, Hb by lia.
    set (p := 256 ^ Z.of_nat n) in *. assert (0 < p) by (apply Z.pow_pos_nonneg; lia).
    assert (Hdiv : forall x, 0 <= x < 256 * p -> 0 <= x / p < 256).
    { intros x Hx. split; [apply Z.div_pos; lia|apply Z.div_lt_upper_bound; lia]. }
    rewrite (Z.mod_small (a / p)), (Z.mod_small (b / p)) by (apply Hdiv; done).
    pose proof (Z.div_mod a p ltac:(lia)) as Ea. pose proof (Z.div_mod b p ltac:(lia)) as Eb.
    pose proof (Z.mod_pos_bound a p ltac:(lia)) as Ma. pose proof (Z.mod_pos_bound b p ltac:(lia)) as Mb.
    rewrite <- (be_bytes_mod n a n), <- (be_bytes_mod n b n) by lia. fold p.
    rewrite IH by done.
    destruct (Z.compare_spec (a / p) (b / p)) as [Hq|Hq|Hq].
    + destruct (Z.compare_spec (a mod p) (b mod p)); symmetry;
        [apply Z.compare_eq_iff|apply Z.compare_lt_iff|apply Z.compare_gt_iff]; nia.
    + symmetry. apply Z.compare_lt_iff. nia.
    + symmetry. apply Z.compare_gt_iff. nia.
Qed.

Lemma be_bytes_length n v : length (be_bytes n v) = n.
Proof. induction n; cbn; congruence. Qed.

Lemma toBinary_compare a b : id_wf a -> id_wf b ->
  bcompare (toBinary a) (toBinary b) =
  match ms a ?= ms b with Eq => seq a ?= seq b | c => c end.
Proof.
  unfold id_wf, is_u64, UINT64_MAX. intros [??] [??].
  rewrite !toBinary_be, bcompare_app by (by rewrite !be_bytes_length).
  by rewrite !bcompare_be by (cbn; lia).
Qed.

Lemma toBinary_blt a b : id_wf a -> id_wf b -> blt (toBinary a) (toBinary b) = isGreater b a.
Proof.
  intros Ha Hb. unfold blt, isGreater. rewrite toBinary_compare by done.
  destruct (Z.compare_spec (ms a) (ms b)) as [E|E|E]; repeat zcase; try lia; try done.
  - rewrite (proj2 (Z.compare_lt_iff _ _)); done.
  - destruct (Z.compare_spec (seq a) (seq b)); (done || lia).
Qed.

Lemma toBinary_inj a b : id_wf a -> id_wf b -> toBinary a = toBinary b -> a = b.
Proof.
  intros Ha Hb E%bcompare_eq. rewrite toBinary_compare in E by done.
  destruct (Z.compare_spec (ms a) (ms b)) as [E1| |]; try done.
  apply Z.compare_eq in E. destruct a, b. cbn in *. congruence.
Qed.

Definition be_step (acc b : Z) : Z := acc * 256 + b.

Lemma be_combine n : forall v acc,
  fold_left be_step (be_bytes n v) acc = acc * 256 ^ Z.of_nat n + v mod 256 ^ Z.of_nat n.
Proof.
  induction n as [|n IH]; intros v acc; [cbn; rewrite Z.mod_1_r; lia|].
  cbn [be_bytes fold_left]. rewrite IH. unfold be_step.
  set (p := 256 ^ Z.of_nat n). assert (0 < p) by (apply Z.pow_pos_nonneg; lia).
  rewrite Nat2Z.inj_succ, Z.pow_succ_r by lia. fold p.
  rewrite (Z.mul_comm 256 p), (Z.rem_mul_r v p 256) by lia. ring.
Qed.

Lemma be_bytes_is_byte n v : Forall is_byte (be_bytes n v).
Proof. induction n; constructor; [by apply Z.mod_pos_bound|done]. Qed.

(** Put the next byte of a big-endian number into place. *)
Ltac regroup k j :=
  match goal with |- context [Z.lor (?a * 2 ^ k + ?b * 2 ^ j) _] =>
    replace (a * 2 ^ k + b * 2 ^ j) with ((a * 256 + b) * 2 ^ j) by ring end;
  rewrite lor_high by lia.

Lemma field64_be string i v :
  is_u64 v -> points string i (be_bytes 8 v) -> field64 string i = Done v.
Proof.
  unfold is_u64, UINT64_MAX. intros Hv Hp.
  pose proof (be_bytes_is_byte 8 v) as Hb. pose proof (be_combine 8 v 0) as Hc.
  rewrite Z.mod_small in Hc by (cbn; lia). cbn [be_bytes] in Hp, Hb, Hc.
  revert Hp Hb Hc. cbn [fold_left]. unfold be_step.
  repeat match goal with |- context [?x mod 256] => generalize (x mod 256); intros ? end.
  intros Hp Hb Hc. unfold field64.
  rewrite (points_rd0 _ _ _ _ Hp), bind_Done.
  do 7 (match goal with |- context [rd string (i + ?k)] =>
          let n := eval vm_compute in (Z.to_nat k) in
          rewrite (points_rd string i _ n _ Hp eq_refl : rd string (i + k) = _), bind_Done end).
  repeat match goal with H : Forall is_byte (_ :: _) |- _ => apply Forall_cons in H as [? H] end.
  unfold is_byte in *. rewrite !Z.shiftl_mul_pow2 by lia.
  rewrite lor_high by lia.
  regroup 56 48. regroup 48 40. regroup 40 32. regroup 32 24. regroup 24 16. regroup 16 8.
  unfold mret, outcome_ret. f_equal. lia.
Qed.

Lemma fromBinary_toBinary s : id_wf s -> fromBinary (toBinary s) = Done s.
Proof.
  intros [H1 H2]. unfold fromBinary. rewrite toBinary_be.
  assert (Hl : len (be_bytes 8 (ms s) ++ be_bytes 8 (seq s)) = 16)
    by (unfold len; by rewrite length_app, !be_bytes_length).
  rewrite Hl. change (assertb (16 <=? 16)) with (Done tt). rewrite bind_Done.
  rewrite (field64_be _ 0 (ms s)), bind_Done; [|done|by exists [], (be_bytes 8 (seq s))].
  rewrite (field64_be _ 8 (seq s)), bind_Done; [by destruct s|done|].
  exists (be_bytes 8 (ms s)), []. by rewrite app_nil_r.
Qed.

(** * The log *)
Definition id_lt (a b : StreamID) : Prop := isGreater b a = true.

Lemma isGreater_spec a b :
  isGreater a b = true <-> ms b < ms a \/ (ms a = ms b /\ seq b < seq a).
Proof.
  unfold isGreater. repeat zcase; split; intros; try lia; try done.
Qed.

Lemma id_lt_trans a b c : id_lt a b -> id_lt b c -> id_lt a c.
Proof. unfold id_lt. rewrite !isGreater_spec. lia. Qed.

Lemma id_wf_zero : id_wf zeroID.
Proof. split; unfold is_u64, UINT64_MAX; cbn; lia. Qed.
Lemma id_wf_max : id_wf (MkID UINT64_MAX UINT64_MAX).
Proof. split; unfold is_u64, UINT64_MAX; cbn; lia. Qed.

Lemma fromStringForSearch_wf s e i : fromStringForSearch s e = Some i -> id_wf i.
Proof.
  unfold fromStringForSearch. intros H.
  destruct (bool_decide _); [injection H as <-; apply id_wf_zero|].
  destruct (bool_decide _); [injection H as <-; apply id_wf_max|].
  destruct (match split_at_char dash s with Some p => p | None => _ end) as [a b].
  pose proof (convert_positive_bound a) as Ha. pose proof (convert_positive_bound b) as Hb.
  destruct (convert_positive_string_to_number a) as [[] ma]; [|done].
  destruct (convert_positive_string_to_number b) as [[] mb]; [|done].
  by injection H as <-.
Qed.

Section Log.
Context {T : Type} `{RangeIndex T}.
Implicit Types st : Stream T.

Definition log_entries (l : list (StreamID * list Z)) : list (list Z * list Z) :=
  map (fun iv => (toBinary iv.1, iv.2)) l.

Definition last_id (l : list (StreamID * list Z)) : StreamID :=
  match last l with Some iv => iv.1 | None => zeroID end.

(** The stream [st] holds the log [l]: well-formed non-zero IDs in strictly
    increasing order, the last one remembered, the index holding the pairs. *)
Definition stream_rep st (l : list (StreamID * list Z)) : Prop :=
  Forall (fun iv => id_wf iv.1 /\ iv.1 <> zeroID) l /\
  StronglySorted id_lt (map fst l) /\
  lastInsertStreamID st = last_id l /\
  match radixTreePtr st with
  | None => l = []
  | Some t => index_inv t /\ index_entries t = log_entries l
  end.

Lemma newStream_rep : stream_rep newStream [].
Proof. split_and!; [constructor|constructor|done|done]. Qed.

Lemma last_id_wf l : Forall (fun iv => id_wf iv.1 /\ iv.1 <> zeroID) l -> id_wf (last_id l).
Proof.
  intros Hl. unfold last_id. destruct (last l) as [iv|] eqn:E.
  - apply last_Some in E as [l' ->]. apply Forall_app in Hl as [_ Hl].
    apply Forall_cons in Hl as [Hl _]. by destruct Hl.
  - apply id_wf_zero.
Qed.

Lemma fromString_wf st str now sid :
  is_u64 now -> id_wf (lastInsertStreamID st) -> fromString st str now = Some sid -> id_wf sid.
Proof.
  intros Hn Hl. unfold fromString. destruct (bool_decide _).
  { intros [= <-]. split; [done|]. cbn. unfold is_u64, UINT64_MAX. destruct (_ =? _); lia. }
  destruct (split_at_char dash str) as [[a b]|]; [|done].
  pose proof (convert_positive_bound a) as Ha. pose proof (convert_positive_bound b) as Hb.
  destruct (convert_positive_string_to_number a) as [[] ma]; [|done].
  destruct (bool_decide (b = _)).
  - intros [= <-]. split; [done|]. cbn. unfold is_u64, UINT64_MAX.
    pose proof (u64_bound (seq (lastInsertStreamID st) + 1)). destruct (_ =? _); lia.
  - destruct (convert_positive_string_to_number b) as [[] mb]; [|done]. by intros [= <-].
Qed.

Lemma isGreater_zero s : id_wf s -> s <> zeroID -> isGreater s zeroID = true.
Proof.
  intros [H1 H2] Hne. apply isGreater_spec. cbn. unfold is_u64 in *.
  destruct (decide (ms s = 0)); [|lia]. right. split; [done|].
  assert (seq s <> 0); [|lia]. intros E. apply Hne. destruct s. cbn in *. by subst.
Qed.

Lemma log_below l sid :
  Forall (fun iv => id_wf iv.1 /\ iv.1 <> zeroID) l -> StronglySorted id_lt (map fst l) ->
  isGreater sid (last_id l) = true -> Forall (fun iv => id_lt iv.1 sid) l.
Proof.
  intros Hw Hs Hg. destruct l as [|iv l _] using rev_ind; [constructor|].
  unfold last_id in Hg. rewrite last_snoc in Hg.
  assert (Hall : Forall (fun jv => id_lt jv.1 iv.1) l).
  { clear Hw Hg. induction l as [|jv l IH]; [constructor|]. cbn in Hs.
    inversion Hs as [|? ? Hs' Hd]; subst. constructor; [|by apply IH].
    rewrite Forall_map in Hd. apply Forall_app in Hd as [_ Hd]. by apply Forall_cons in Hd as [Hd _]. }
  apply Forall_app. split; [|by constructor; [exact Hg|constructor]].
  eapply Forall_impl; [exact Hall|]. intros jv Hj. exact (id_lt_trans _ _ _ Hj Hg).
Qed.

(** Inserting above every key appends. *)
Lemma assoc_insert_above k v l :
  Forall (fun kv => blt kv.1 k = true) l -> assoc_insert k v l = l ++ [(k, v)].
Proof.
  intros Hl. unfold assoc_insert. f_equal.
  - induction Hl as [|kv l Hk _ IH]; [done|]. cbn. by rewrite Hk, IH.
  - f_equal. apply filter_none. intros x Hx. rewrite Forall_forall in Hl. specialize (Hl _ Hx).
    rewrite blt_ble. apply negb_false_iff, ble_lt_eq. by left.
Qed.

Lemma insert_rep st l streamId value now :
  stream_rep st l -> is_u64 now ->
  match fromString st streamId now with
  | None => insert st streamId value now = (st, MkStatus INVALID_ID_FORMAT [])
  | Some sid =>
      if bool_decide (sid = zeroID) then
        insert st streamId value now = (st, MkStatus NOT_GREATER_THAN_ZERO [])
      else if isGreater sid (last_id l) then
        exists st', insert st streamId value now = (st', MkStatus OK (toString sid)) /\
                    stream_rep st' (l ++ [(sid, value)])
      else insert st streamId value now = (st, MkStatus ID_NOT_GREATER_THAN_LAST [])
  end.
Proof.
  intros (Hw & Hs & Hlast & Ht) Hn. unfold insert.
  destruct (fromString st streamId now) as [sid|] eqn:E; [|done].
  apply fromString_wf in E as Hsid; [|done|rewrite Hlast; by apply last_id_wf].
  destruct (bool_decide_reflect (sid = zeroID)) as [->|Hne]; [done|].
  assert (Hz : ((ms sid =? 0) && (seq sid =? 0)) = false).
  { destruct (Z.eqb_spec (ms sid) 0), (Z.eqb_spec (seq sid) 0); try done.
    exfalso. apply Hne. destruct sid. cbn in *. by subst. }
  rewrite Hz, Hlast.
  assert (Hg : (negb (ms (last_id l) =? 0) || negb (seq (last_id l) =? 0))
               && negb (isGreater sid (last_id l)) = negb (isGreater sid (last_id l))).
  { destruct (Z.eqb_spec (ms (last_id l)) 0) as [E1|]; [|done].
    destruct (Z.eqb_spec (seq (last_id l)) 0) as [E2|]; [|done]. cbn [negb orb andb].
    assert (last_id l = zeroID) as -> by (destruct (last_id l); cbn in *; by subst).
    by rewrite isGreater_zero. }
  rewrite Hg. destruct (isGreater sid (last_id l)) eqn:Hgt; cbn [negb]; [|done].
  eexists. split; [done|].
  pose proof (log_below l sid Hw Hs Hgt) as Hbelow.
  assert (Ht' : index_inv (match radixTreePtr st with Some t => t | None => index_empty end) /\
    index_entries (match radixTreePtr st with Some t => t | None => index_empty end)
    = log_entries l).
  { destruct (radixTreePtr st); [done|]. subst l. split; [apply index_empty_inv|apply index_empty_entries]. }
  destruct Ht' as [Hinv Hent]. split_and!.
  - apply Forall_app. split; [done|]. by constructor; [|constructor].
  - rewrite map_app. apply StronglySorted_app; [done|repeat constructor|].
    intros x y (iv & -> & Hiv)%list_elem_of_fmap ->%list_elem_of_singleton.
    rewrite Forall_forall in Hbelow. by apply Hbelow.
  - cbn. unfold last_id. by rewrite last_snoc.
  - cbn. split; [by apply index_insert_inv|].
    rewrite index_insert_entries, Hent by done. unfold log_entries. rewrite map_app.
    apply assoc_insert_above. apply Forall_map. rewrite Forall_forall in *.
    intros iv Hiv. cbn. destruct (Hw _ Hiv) as [? _]. rewrite toBinary_blt by done. by apply Hbelow.
Qed.

(** Between two IDs, the lower one possibly excluded. *)
Definition id_in (a b : StreamID) (isExclusive : bool) (i : StreamID) : bool :=
  negb (isGreater a i) && negb (isGreater i b) && negb (isExclusive && bool_decide (i = a)).

Lemma in_range_id a b ex i v : id_wf a -> id_wf b -> id_wf i ->
  in_range (toBinary a) (toBinary b) ex (toBinary i, v) = id_in a b ex i.
Proof.
  intros Ha Hb Hi. unfold in_range, id_in. cbn [fst].
  rewrite <- (toBinary_blt i a), <- (toBinary_blt b i), !blt_ble, !negb_involutive by done.
  do 3 f_equal. apply bool_decide_ext. split; [by apply toBinary_inj|congruence].
Qed.

Lemma filter_map {A B} (f : A -> B) (p : B -> bool) (q : A -> bool) l :
  (forall a, a ∈ l -> p (f a) = q a) -> List.filter p (map f l) = map f (List.filter q l).
Proof.
  induction l as [|a l IH]; intros E; cbn; [done|].
  rewrite (E a) by left. rewrite IH by (intros; apply E; by right). by destruct (q a).
Qed.

Lemma xrangeData_rep st l s e ex :
  stream_rep st l -> l <> [] ->
  xrangeData st s e ex =
  match fromStringForSearch s false, fromStringForSearch e true with
  | Some a, Some b => (true, log_entries (List.filter (fun iv => id_in a b ex iv.1) l))
  | _, _ => (false, [])
  end.
Proof.
  intros (Hw & _ & _ & Ht) Hne. unfold xrangeData.
  destruct (fromStringForSearch s false) as [a|] eqn:Ea; [|done].
  destruct (fromStringForSearch e true) as [b|] eqn:Eb; [|done].
  apply fromStringForSearch_wf in Ea, Eb.
  destruct (radixTreePtr st) as [t|]; [|done]. destruct Ht as [Hinv Hent]. f_equal.
  rewrite index_range_filter, Hent by done. apply filter_map.
  intros iv Hiv. apply in_range_id; [done|done|]. rewrite Forall_forall in Hw. by apply Hw.
Qed.
End Log.

(** Splitting an ID whose parts are digits. *)
Lemma split_at_dash a b :
  Forall (fun c => isdigit c = true) a -> split_at_char dash (a ++ dash :: b) = Some (a, b).
Proof.
  induction 1 as [|x a Hx _ IH]; cbn [app split_at_char]; [by rewrite Z.eqb_refl|].
  apply isdigit_spec in Hx. destruct (Z.eqb_spec x dash); [unfold dash in *; lia|]. by rewrite IH.
Qed.

Lemma to_string_udec n : 0 <= n -> to_string n = udec n.
Proof. intros. unfold to_string. by destruct (Z.ltb_spec n 0); [lia|]. Qed.

Lemma udec_app_not_lit n c x : 0 <= n -> isdigit c = false -> udec n ++ x <> [c].
Proof.
  intros Hn Hc E. pose proof (udec_nonempty n Hn) as Hne. pose proof (udec_digits n Hn) as Hd.
  destruct (udec n) as [|d ds]; [done|]. injection E as -> _.
  apply Forall_cons in Hd as [Hd _]. congruence.
Qed.

Section Auto.
Context {T : Type} `{RangeIndex T}.

Lemma fromString_explicit (st : Stream T) i now :
  id_wf i -> fromString st (toString i) now = Some i.
Proof.
  destruct i as [m s]. intros [Hm Hs]. unfold is_u64, UINT64_MAX in *. cbn in Hm, Hs.
  unfold fromString, toString. cbn [ms seq]. rewrite !to_string_udec by lia.
  change (lit "-" ++ udec s) with (dash :: udec s).
  rewrite bool_decide_false by (apply udec_app_not_lit; [lia|done]).
  rewrite split_at_dash by (apply udec_digits; lia).
  rewrite convert_positive_udec by (unfold UINT64_MAX; lia).
  rewrite bool_decide_false
    by (rewrite <- (app_nil_r (udec s)); apply udec_app_not_lit; [lia|done]).
  by rewrite convert_positive_udec by (unfold UINT64_MAX; lia).
Qed.

Lemma fromString_auto_seq (st : Stream T) m now :
  is_u64 m ->
  fromString st (to_string m ++ lit "-*") now =
    Some (MkID m (if ms (lastInsertStreamID st) =? m
                  then u64 (seq (lastInsertStreamID st) + 1) else 0)).
Proof.
  unfold is_u64, UINT64_MAX. intros Hm. unfold fromString. rewrite to_string_udec by lia.
  rewrite bool_decide_false by (apply udec_app_not_lit; [lia|done]).
  change (lit "-*") with (dash :: lit "*").
  rewrite split_at_dash by (apply udec_digits; lia).
  by rewrite convert_positive_udec by (unfold UINT64_MAX; lia).
Qed.
End Auto.

(** * Properties *)

(** the binary form of stream IDs.  Decoding inverts encoding, the codes
    have 16 bytes, and their order as byte strings is the order of the IDs, so
    that the index keeps entries in ID order. *)
Theorem StreamID_binary a b :
  id_wf a -> id_wf b ->
  fromBinary (toBinary a) = Done a /\ len (toBinary a) = 16 /\
  blt (toBinary a) (toBinary b) = isGreater b a /\
  (toBinary a = toBinary b -> a = b).
Proof.
  intros Ha Hb. split_and!.
  - by apply fromBinary_toBinary.
  - done.
  - by apply toBinary_blt.
  - by apply toBinary_inj.
Qed.

Lemma StreamID_binary_witness :
  fromBinary (toBinary (MkID 1526919030474 55)) = Done (MkID 1526919030474 55).
Proof.
  refine (proj1 (StreamID_binary (MkID 1526919030474 55) (MkID 0 0) _ _));
    split; vm_compute; intuition discriminate.
Defined.

(** C8: [Stream::insert] refines appending to a log.  For any index that meets
    the interface, an ID that does not parse, the zero ID, and an ID not
    greater than the last one are refused with their status and leave the
    stream unchanged; any other ID is accepted, reported in text form, and the
    stream then holds the log extended by the new entry. *)
Theorem Stream_insert_refines {T} `{RangeIndex T} (st : Stream T) l streamId value now :
  stream_rep st l -> is_u64 now ->
  match fromString st streamId now with
  | None => insert st streamId value now = (st, MkStatus INVALID_ID_FORMAT [])
  | Some sid =>
      if bool_decide (sid = zeroID) then
        insert st streamId value now = (st, MkStatus NOT_GREATER_THAN_ZERO [])
      else if isGreater sid (last_id l) then
        exists st', insert st streamId value now = (st', MkStatus OK (toString sid)) /\
                    stream_rep st' (l ++ [(sid, value)])
      else insert st streamId value now = (st, MkStatus ID_NOT_GREATER_THAN_LAST [])
  end.
Proof. apply insert_rep. Qed.

Definition sample_stream : Stream RadixTree :=
  (insert (insert newStream (lit "5-1") (lit "a") 0).1 (lit "5-*") (lit "b") 0).1.
Definition sample_log : list (StreamID * list Z) := [(MkID 5 1, lit "a"); (MkID 5 2, lit "b")].

Lemma sample_stream_rep : stream_rep sample_stream sample_log.
Proof.
  split_and!.
  - repeat constructor; vm_compute; intuition discriminate.
  - repeat constructor.
  - reflexivity.
  - split; [|vm_compute; reflexivity].
    change (tree_wf (RadixTree.insert (RadixTree.insert None (toBinary (MkID 5 1)) (lit "a"))
                       (toBinary (MkID 5 2)) (lit "b"))).
    by do 2 apply insert_tree_wf.
Defined.

Lemma Stream_insert_refines_witness :
  insert sample_stream (lit "5-2") (lit "c") 7 = (sample_stream, MkStatus ID_NOT_GREATER_THAN_LAST []).
Proof. exact (Stream_insert_refines sample_stream sample_log (lit "5-2") (lit "c") 7 sample_stream_rep
  ltac:(vm_compute; intuition discriminate)). Defined.

(** C23: [Stream::xrangeData] is a filter on the log.  On a non-empty stream it
    fails exactly when a bound does not parse, and otherwise returns, in ID
    order and each under its binary ID, the entries between the two bounds,
    without the lower one for an exclusive search. *)
Theorem Stream_xrangeData_exact {T} `{RangeIndex T} (st : Stream T) l s e ex :
  stream_rep st l -> l <> [] ->
  xrangeData st s e ex =
  match fromStringForSearch s false, fromStringForSearch e true with
  | Some a, Some b => (true, log_entries (List.filter (fun iv => id_in a b ex iv.1) l))
  | _, _ => (false, [])
  end.
Proof. apply xrangeData_rep. Qed.

Lemma Stream_xrangeData_exact_witness :
  xrangeData sample_stream (lit "5-1") (lit "+") true = (true, [(toBinary (MkID 5 2), lit "b")]).
Proof.
  rewrite (Stream_xrangeData_exact sample_stream sample_log _ _ _ sample_stream_rep ltac:(discriminate)).
  vm_compute. reflexivity.
Defined.

(** the textual forms of an ID.  An explicit ID parses back to itself, "m-*"
    continues the sequence of millisecond m (wrapping at 64 bits), and both
    agree with what [insert] reports. *)
Theorem Stream_fromString_forms {T} `{RangeIndex T} (st : Stream T) i m now :
  id_wf i -> is_u64 m ->
  fromString st (toString i) now = Some i /\
  fromString st (to_string m ++ lit "-*") now =
    Some (MkID m (if ms (lastInsertStreamID st) =? m
                  then u64 (seq (lastInsertStreamID st) + 1) else 0)).
Proof. intros Hi Hm. split; [by apply fromString_explicit|by apply fromString_auto_seq]. Qed.

Lemma Stream_fromString_forms_witness :
  fromString sample_stream (to_string 5 ++ lit "-*") 0 = Some (MkID 5 3).
Proof.
  refine (proj2 (Stream_fromString_forms sample_stream zeroID 5 0 _ _));
    repeat split; vm_compute; intuition discriminate.
Defined.

(** the fully automatic ID reuses sequence number 1.  When the last entry is
    the second one of the current millisecond, "*" is refused as not greater
    than the last ID, instead of getting the next sequence number. *)
Theorem Stream_star_third_entry_refused {T} `{RangeIndex T} (st : Stream T) l value now :
  stream_rep st l -> last_id l = MkID now 1 -> is_u64 now ->
  insert st (lit "*") value now = (st, MkStatus ID_NOT_GREATER_THAN_LAST []).
Proof.
  intros Hr Hl Hn. pose proof (insert_rep st l (lit "*") value now Hr Hn) as Hi.
  destruct Hr as (_ & _ & Hlast & _). unfold fromString in Hi at 1.
  rewrite bool_decide_true, Hlast, Hl in Hi by done. cbn [ms] in Hi. rewrite Z.eqb_refl in Hi.
  rewrite bool_decide_false in Hi by (intros [=]).
  destruct (isGreater _ _) eqn:Hg in Hi; [|done].
  apply isGreater_spec in Hg. cbn in Hg. lia.
Qed.

Lemma Stream_star_third_entry_refused_witness :
  let st := (insert (insert newStream (lit "9-0") (lit "a") 9).1 (lit "*") (lit "b") 9).1
    : Stream RadixTree in
  insert st (lit "*") (lit "c") 9 = (st, MkStatus ID_NOT_GREATER_THAN_LAST []).
Proof.
  intros st.
  refine (Stream_star_third_entry_refused st [(MkID 9 0, lit "a"); (MkID 9 1, lit "b")] (lit "c") 9 _ eq_refl _).
  - split_and!.
    + repeat constructor; vm_compute; intuition discriminate.
    + repeat constructor.
    + reflexivity.
    + split; [|vm_compute; reflexivity].
      change (tree_wf (RadixTree.insert (RadixTree.insert None (toBinary (MkID 9 0)) (lit "a"))
                         (toBinary (MkID 9 1)) (lit "b"))).
      by do 2 apply insert_tree_wf.
  - vm_compute. intuition discriminate.
Defined.
