(* ===== verification/SortedSet.v ===== *)
(** [src/sortedset.h] and [src/sortedset.cpp]: a sorted set kept twice, as a
    map from member to score and as an ordered set of (score, member) pairs.
    Scores are IEEE doubles ([spec_float]).  A NaN makes the comparator of the
    [std::set] no strict weak order, for which C++ gives no result: inserting
    one is [Stuck].  The theorems say that the two structures never disagree
    and that rank and range count in the order of the pairs. *)
From Stdlib Require Import SpecFloat.
From S2P Require Import Prelude.

(** * Definitions *)
Definition is_nan (f : spec_float) : bool :=
  match f with S754_nan => true | _ => false end.

(** [operator<] of [std::pair<double, std::string>]. *)
Definition pair_ltb (x y : spec_float * list Z) : bool :=
  SFltb x.1 y.1 || (negb (SFltb y.1 x.1) && blt x.2 y.2).

(** [std::set]: insertion, erasure by key, and [std::distance(begin, find)]. *)
Fixpoint set_insert (x : spec_float * list Z) (l : list (spec_float * list Z)) :=
  match l with
  | [] => [x]
  | y :: r =>
      if pair_ltb x y then x :: l
      else if pair_ltb y x then y :: set_insert x r
      else l
  end.

Fixpoint set_erase (x : spec_float * list Z) (l : list (spec_float * list Z)) :=
  match l with
  | [] => []
  | y :: r =>
      if pair_ltb x y then l
      else if pair_ltb y x then y :: set_erase x r
      else r
  end.

Fixpoint set_find (x : spec_float * list Z) (l : list (spec_float * list Z)) : option nat :=
  match l with
  | [] => None
  | y :: r =>
      if pair_ltb x y then None
      else if pair_ltb y x then S <$> set_find x r
      else Some O
  end.

Record SortedSet := MkSortedSet {
  hashMap : gmap (list Z) spec_float;
  sets : list (spec_float * list Z);
  length_ : Z;
  isGeo : bool
}.

Definition newSortedSet : SortedSet := MkSortedSet ∅ [] 0 false.

Definition insert (ss : SortedSet) (key : list Z) (score : spec_float)
  : outcome (SortedSet * bool) :=
  if is_nan score then Stuck
  else
    let '(ss, alreadyExists) :=
      match hashMap ss !! key with
      | Some oldScore =>
          (MkSortedSet (delete key (hashMap ss)) (set_erase (oldScore, key) (sets ss))
             (length_ ss - 1) (isGeo ss), true)
      | None => (ss, false)
      end in
    mret (MkSortedSet (<[key := score]> (hashMap ss)) (set_insert (score, key) (sets ss))
            (length_ ss + 1) (isGeo ss), alreadyExists).

Definition remove (ss : SortedSet) (member : list Z) : SortedSet * bool :=
  match hashMap ss !! member with
  | None => (ss, false)
  | Some score =>
      (MkSortedSet (delete member (hashMap ss)) (set_erase (score, member) (sets ss))
         (length_ ss - 1) (isGeo ss), true)
  end.

Definition rank (ss : SortedSet) (member : list Z) : option nat :=
  match hashMap ss !! member with
  | None => None
  | Some score => set_find (score, member) (sets ss)
  end.

Definition size (ss : SortedSet) : Z := length_ ss.

Definition score (ss : SortedSet) (member : list Z) : option spec_float :=
  hashMap ss !! member.

Definition range (ss : SortedSet) (start stop : Z) : list (list Z) :=
  let sz := len (sets ss) in
  if sz =? 0 then []
  else
    let start := if start <? 0 then sz + start else start in
    let stop := if stop <? 0 then sz + stop else stop in
    let start := if start <? 0 then 0 else start in
    let stop := if sz <=? stop then sz - 1 else stop in
    if stop <? start then []
    else map snd (take (Z.to_nat (stop - start + 1)) (drop (Z.to_nat start) (sets ss))).

(** The order of an [unordered_map] is unspecified; the model's is that of
    [map_to_list]. *)
Definition getAllWithScores (ss : SortedSet) : list (list Z * spec_float) :=
  map_to_list (hashMap ss).

(** * The order of the pairs, as an order of byte strings *)
Definition score_key (f : spec_float) : list Z :=
  match f with
  | S754_nan => []
  | S754_infinity true => [-2; 0; 0]
  | S754_finite true m e => [-1; - e; - Zpos m]
  | S754_zero _ => [0; 0; 0]
  | S754_finite false m e => [1; e; Zpos m]
  | S754_infinity false => [2; 0; 0]
  end.

Definition pair_key (x : spec_float * list Z) : list Z := score_key x.1 ++ x.2.

Lemma SFcompare_key f g :
  is_nan f = false -> is_nan g = false ->
  SFcompare f g = Some (bcompare (score_key f) (score_key g)).
Proof.
  destruct f as [s| [] | |[] m e], g as [s'| [] | |[] m' e']; cbn; try done; intros _ _; f_equal.
  - rewrite !Z.compare_opp, (Z.compare_antisym e' e). cbn [Z.compare].
    change (PosDef.Pos.compare_cont Eq m m') with (Pos.compare m m').
    rewrite (Pos.compare_antisym m' m).
    destruct (e' ?= e); cbn; try done. by destruct (Pos.compare m' m).
  - destruct (e ?= e'); try done.
    change (PosDef.Pos.compare_cont Eq m m') with (Pos.compare m m'). by destruct (Pos.compare m m').
Qed.

Lemma score_key_length f : is_nan f = false -> length (score_key f) = 3%nat.
Proof. by destruct f as [s| [] | |[] m e]. Qed.

Lemma pair_ltb_key x y :
  is_nan x.1 = false -> is_nan y.1 = false -> pair_ltb x y = blt (pair_key x) (pair_key y).
Proof.
  intros Hx Hy. unfold pair_ltb, SFltb, pair_key, blt.
  rewrite !SFcompare_key, bcompare_app by (done || by rewrite !score_key_length).
  rewrite (bcompare_antisym (score_key y.1)). by destruct (bcompare (score_key x.1) (score_key y.1)).
Qed.

Lemma pair_key_member x y :
  is_nan x.1 = false -> is_nan y.1 = false -> pair_key x = pair_key y -> x.2 = y.2.
Proof.
  intros Hx Hy E. unfold pair_key in E. apply app_inj_1 in E as [_ ?]; [done|].
  by rewrite !score_key_length.
Qed.

(** * The ordered set *)
Definition pair_lt (x y : spec_float * list Z) : Prop := blt (pair_key x) (pair_key y) = true.
Definition not_nan (x : spec_float * list Z) : Prop := is_nan x.1 = false.

Lemma blt_asym a b : blt a b = true -> blt b a = false.
Proof.
  intros H. destruct (blt b a) eqn:E; [|done].
  pose proof (blt_trans _ _ _ H E) as Hx. by rewrite blt_irrefl in Hx.
Qed.

Lemma sorted_split {A} (R : A -> A -> Prop) a x b :
  StronglySorted R (a ++ x :: b) -> Forall (fun y => R y x) a /\ Forall (R x) b.
Proof.
  induction a as [|y a IH]; cbn; intros H; inversion H as [|? ? Hs Hd]; subst; [done|].
  destruct (IH Hs) as [Ha Hb]. split; [|done]. constructor; [|done].
  apply Forall_app in Hd as [_ Hd]. by apply Forall_cons in Hd as [? _].
Qed.

Section Walk.
Context (x : spec_float * list Z) (Hx : not_nan x).

Lemma set_find_split a b :
  Forall not_nan a -> Forall (fun y => pair_lt y x) a ->
  set_find x (a ++ x :: b) = Some (length a).
Proof using Hx.
  induction 1 as [|y a Hy Ha IH]; intros Hlt; cbn [app set_find].
  - by rewrite !pair_ltb_key, blt_irrefl by done.
  - apply Forall_cons in Hlt as [Hyx Hlt]. rewrite !pair_ltb_key by done.
    rewrite (blt_asym _ _ Hyx), Hyx, IH by done. done.
Qed.

Lemma set_erase_split a b :
  Forall not_nan a -> Forall (fun y => pair_lt y x) a -> set_erase x (a ++ x :: b) = a ++ b.
Proof using Hx.
  induction 1 as [|y a Hy Ha IH]; intros Hlt; cbn [app set_erase].
  - by rewrite !pair_ltb_key, blt_irrefl by done.
  - apply Forall_cons in Hlt as [Hyx Hlt]. rewrite !pair_ltb_key by done.
    by rewrite (blt_asym _ _ Hyx), Hyx, IH by done.
Qed.

(** Inserting a key that no element has. *)
Lemma set_insert_split l :
  Forall not_nan l -> StronglySorted pair_lt l -> (forall y, y ∈ l -> pair_key y <> pair_key x) ->
  exists a b, l = a ++ b /\ set_insert x l = a ++ x :: b /\
              Forall (fun y => pair_lt y x) a /\ Forall (pair_lt x) b.
Proof using Hx.
  induction 1 as [|y l Hy Hl IH]; intros Hs Hne; cbn [set_insert].
  - exists [], []. split_and!; constructor.
  - inversion Hs as [|? ? Hs' Hd]; subst. rewrite !pair_ltb_key by done.
    destruct (blt (pair_key x) (pair_key y)) eqn:E1.
    { exists [], (y :: l). split_and!; [done|done|constructor|]. constructor; [done|].
      eapply Forall_impl; [exact Hd|]. intros z Hz. exact (blt_trans _ _ _ E1 Hz). }
    destruct (blt (pair_key y) (pair_key x)) eqn:E2.
    + destruct IH as (a & b & -> & -> & Ha & Hb); [done|intros z Hz; apply Hne; by right|].
      exists (y :: a), b. split_and!; [done|done|by constructor|done].
    + exfalso. apply (Hne y); [by left|]. by apply blt_total.
Qed.
End Walk.

(** * The invariant *)
Record inv (ss : SortedSet) : Prop := {
  inv_nan : Forall not_nan (sets ss);
  inv_sorted : StronglySorted pair_lt (sets ss);
  inv_member s m : (s, m) ∈ sets ss <-> hashMap ss !! m = Some s;
  inv_length : length_ ss = len (sets ss)
}.

Lemma newSortedSet_inv : inv newSortedSet.
Proof.
  split; cbn; [constructor|constructor| |done].
  intros s m. by rewrite elem_of_nil, lookup_empty.
Qed.

(** An element of the map, located in the ordered set. *)
Lemma inv_split ss s m :
  inv ss -> hashMap ss !! m = Some s ->
  not_nan (s, m) /\ exists a b, sets ss = a ++ (s, m) :: b /\
    Forall not_nan a /\ Forall (fun y => pair_lt y (s, m)) a /\ Forall (pair_lt (s, m)) b.
Proof.
  intros Hi Hm. apply (inv_member _ Hi) in Hm.
  apply list_elem_of_split in Hm as (a & b & E).
  pose proof (inv_nan _ Hi) as Hn. pose proof (inv_sorted _ Hi) as Hs. rewrite E in Hn, Hs.
  apply sorted_split in Hs as [Ha Hb]. apply Forall_app in Hn as [Hna Hn].
  apply Forall_cons in Hn as [Hx _]. split; [done|]. by exists a, b.
Qed.

Lemma StronglySorted_app_inv {A} (R : A -> A -> Prop) a b :
  StronglySorted R (a ++ b) -> StronglySorted R a /\ StronglySorted R b /\
  (forall x y, x ∈ a -> y ∈ b -> R x y).
Proof.
  induction a as [|x a IH]; cbn; intros H.
  - split_and!; [constructor|done|]. by intros x y ?%not_elem_of_nil.
  - inversion H as [|? ? Hs Hd]; subst. destruct (IH Hs) as (Ha & Hb & Hab).
    apply Forall_app in Hd as [Hda Hdb]. split_and!; [by constructor|done|].
    intros u v Hu Hv. apply elem_of_cons in Hu as [->|Hu]; [|by apply Hab].
    rewrite Forall_forall in Hdb. by apply Hdb.
Qed.

Lemma StronglySorted_app_intro {A} (R : A -> A -> Prop) l k :
  StronglySorted R l -> StronglySorted R k ->
  (forall x y, x ∈ l -> y ∈ k -> R x y) -> StronglySorted R (l ++ k).
Proof.
  induction 1 as [|a l Hl IH Ha]; intros Hk H; cbn; [done|]. constructor.
  - apply IH; [done|]. intros. apply H; [by constructor|done].
  - apply Forall_app. split; [done|]. apply Forall_forall. intros y Hy. apply H; [by left|done].
Qed.

(** Dropping the element in the middle. *)
Lemma erase_inv ss s m : inv ss -> hashMap ss !! m = Some s ->
  inv (MkSortedSet (delete m (hashMap ss)) (set_erase (s, m) (sets ss)) (length_ ss - 1) (isGeo ss)).
Proof.
  intros Hi Hm. destruct (inv_split _ _ _ Hi Hm) as (Hx & a & b & E & Hna & Ha & Hb).
  pose proof (inv_nan _ Hi) as Hn. pose proof (inv_sorted _ Hi) as Hs.
  pose proof (inv_length _ Hi) as Hl. pose proof (inv_member _ Hi) as Hmem.
  rewrite E in Hn, Hs, Hl. rewrite E, set_erase_split by done.
  apply Forall_app in Hn as [_ Hn]. apply Forall_cons in Hn as [_ Hnb].
  apply StronglySorted_app_inv in Hs as (Hsa & Hsb & Hab). inversion Hsb as [|? ? Hsb' _]; subst.
  split; cbn [hashMap sets length_].
  - by apply Forall_app.
  - apply StronglySorted_app_intro; [done|done|]. intros x y Hin Hin'. apply Hab; [done|by right].
  - intros s' m'. rewrite elem_of_app. rewrite Forall_forall in Ha, Hb.
    destruct (decide (m' = m)) as [->|Hne].
    + rewrite lookup_delete_eq. split; [|done]. intros Hin. exfalso.
      assert ((s', m) ∈ sets ss) as Hin2 by (rewrite E, elem_of_app, elem_of_cons; tauto).
      apply Hmem in Hin2. rewrite Hm in Hin2. injection Hin2 as <-.
      destruct Hin as [Hin|Hin]; [apply Ha in Hin|apply Hb in Hin];
        unfold pair_lt in Hin; by rewrite blt_irrefl in Hin.
    + rewrite lookup_delete_ne, <- Hmem, E, elem_of_app, elem_of_cons by done.
      split; [tauto|]. intros [?|[[= -> ->]|?]]; tauto.
  - rewrite Hl. len_lia.
Qed.

(** Adding a member that is not there. *)
Lemma add_inv ss key s : inv ss -> hashMap ss !! key = None -> is_nan s = false ->
  inv (MkSortedSet (<[key := s]> (hashMap ss)) (set_insert (s, key) (sets ss))
         (length_ ss + 1) (isGeo ss)).
Proof.
  intros Hi Hk Hs0. pose proof (inv_nan _ Hi) as Hn. pose proof (inv_sorted _ Hi) as Hs.
  pose proof (inv_member _ Hi) as Hmem. pose proof (inv_length _ Hi) as Hl.
  destruct (set_insert_split (s, key) Hs0 (sets ss) Hn Hs) as (a & b & E & E' & Ha & Hb).
  { intros [s' m'] Hin Hkey. rewrite Forall_forall in Hn.
    apply (pair_key_member _ (s, key) (Hn _ Hin) Hs0) in Hkey. cbn in Hkey. subst m'.
    apply Hmem in Hin. congruence. }
  rewrite E'. rewrite E in Hn, Hs, Hl. apply Forall_app in Hn as [Hna Hnb].
  apply StronglySorted_app_inv in Hs as (Hsa & Hsb & Hab).
  split; cbn [hashMap sets length_].
  - apply Forall_app. split; [done|]. by constructor.
  - apply StronglySorted_app_intro; [done|by constructor|]. intros x y Hx Hy.
    apply elem_of_cons in Hy as [->|Hy]; [|by apply Hab]. rewrite Forall_forall in Ha. by apply Ha.
  - intros s' m'. rewrite elem_of_app, elem_of_cons. destruct (decide (m' = key)) as [->|Hne].
    + rewrite lookup_insert_eq. split.
      * assert (Hno : (s', key) ∈ a ++ b -> False).
        { intros Hin. rewrite <- E in Hin. apply Hmem in Hin. congruence. }
        rewrite elem_of_app in Hno. intros [?|[[= ->]|?]]; [tauto|done|tauto].
      * intros [= ->]. right. by left.
    + rewrite lookup_insert_ne, <- Hmem, E, elem_of_app by done.
      split; [|tauto]. intros [?|[[= -> ->]|?]]; tauto.
  - rewrite Hl. len_lia.
Qed.

Lemma insert_inv ss key s ss' b :
  inv ss -> insert ss key s = Done (ss', b) ->
  inv ss' /\ hashMap ss' = <[key := s]> (hashMap ss) /\
  b = bool_decide (is_Some (hashMap ss !! key)).
Proof.
  intros Hi. unfold insert. destruct (is_nan s) eqn:Hn; [done|].
  destruct (hashMap ss !! key) as [old|] eqn:Hk; intros [= <- <-].
  - split_and!; [|by cbn; rewrite insert_delete_eq|by rewrite bool_decide_true by eauto].
    apply (add_inv _ key s (erase_inv _ _ _ Hi Hk)); [apply lookup_delete_eq|done].
  - split_and!; [by apply add_inv|done|]. by rewrite bool_decide_false by (by intros [? ?]).
Qed.

Lemma remove_inv ss m :
  inv ss -> inv (remove ss m).1 /\ hashMap (remove ss m).1 = delete m (hashMap ss) /\
            (remove ss m).2 = bool_decide (is_Some (hashMap ss !! m)).
Proof.
  intros Hi. unfold remove. destruct (hashMap ss !! m) as [s|] eqn:Hm; cbn [fst snd].
  - split_and!; [by apply erase_inv|done|by rewrite bool_decide_true by eauto].
  - split_and!; [done|by rewrite delete_id|by rewrite bool_decide_false by (by intros [? ?])].
Qed.

(** * Ranks *)
Lemma rank_split ss m s : inv ss -> hashMap ss !! m = Some s ->
  exists n, rank ss m = Some n /\ sets ss !! n = Some (s, m) /\
            n = length (List.filter (fun y => pair_ltb y (s, m)) (sets ss)).
Proof.
  intros Hi Hm. destruct (inv_split _ _ _ Hi Hm) as (Hx & a & b & E & Hna & Ha & Hb).
  pose proof (inv_nan _ Hi) as Hn. rewrite E in Hn. apply Forall_app in Hn as [_ Hn].
  apply Forall_cons in Hn as [_ Hnb].
  exists (length a). unfold rank. rewrite Hm, E. split_and!.
  - by apply set_find_split.
  - by apply list_lookup_middle.
  - rewrite List.filter_app. cbn [List.filter]. rewrite pair_ltb_key, blt_irrefl by done.
    assert (Hfa : List.filter (fun y => pair_ltb y (s, m)) a = a).
    { clear E Hnb. induction Ha as [|y a Hy _ IH]; [done|]. apply Forall_cons in Hna as [Hny Hna].
      cbn. rewrite pair_ltb_key by done. unfold pair_lt in Hy. by rewrite Hy, IH. }
    assert (Hfb : List.filter (fun y => pair_ltb y (s, m)) b = []).
    { clear E. induction Hb as [|y b Hy _ IH]; [done|]. apply Forall_cons in Hnb as [Hny Hnb].
      cbn. rewrite pair_ltb_key by done. by rewrite (blt_asym _ _ Hy), IH. }
    rewrite Hfa, Hfb. by rewrite app_nil_r.
Qed.


(** * Ranges *)
Lemma elem_of_slice {A} (l : list A) k n x :
  x ∈ take n (drop k l) <-> exists i, (k <= i < k + n)%nat /\ l !! i = Some x.
Proof.
  rewrite list_elem_of_lookup. split.
  - intros [j Hj]. apply lookup_take_Some in Hj as [Hj Hn]. rewrite lookup_drop in Hj.
    exists (k + j)%nat. split; [lia|done].
  - intros (i & Hi & Hl). exists (i - k)%nat. apply lookup_take_Some.
    rewrite lookup_drop. split; [|lia]. by replace (k + (i - k))%nat with i by lia.
Qed.

Lemma member_index ss i s m : inv ss -> sets ss !! i = Some (s, m) -> rank ss m = Some i.
Proof.
  intros Hi Hl. assert (Hin : (s, m) ∈ sets ss) by (apply list_elem_of_lookup; eauto).
  apply (inv_member _ Hi) in Hin. destruct (inv_split _ _ _ Hi Hin) as (Hx & a & b & E & Hna & Ha & Hb).
  unfold rank. rewrite Hin, E, set_find_split by done. f_equal.
  rewrite E in Hl. destruct (lt_eq_lt_dec i (length a)) as [[Hlt| ->]|Hgt]; [|done|].
  - rewrite lookup_app_l in Hl by done. apply list_elem_of_lookup_2 in Hl.
    rewrite Forall_forall in Ha. apply Ha in Hl. unfold pair_lt in Hl. by rewrite blt_irrefl in Hl.
  - rewrite lookup_app_r in Hl by lia. destruct (i - length a)%nat eqn:E2; [lia|]. cbn in Hl.
    apply list_elem_of_lookup_2 in Hl. rewrite Forall_forall in Hb. apply Hb in Hl.
    unfold pair_lt in Hl. by rewrite blt_irrefl in Hl.
Qed.

Definition flip_pair (x : spec_float * list Z) : list Z * spec_float := (x.2, x.1).

(** An index counted from the end when negative. *)
Definition from_end (n i : Z) : Z := if i <? 0 then n + i else i.

Lemma elem_of_range ss start stop m :
  m ∈ range ss start stop <->
  exists i s, sets ss !! i = Some (s, m) /\
    from_end (len (sets ss)) start <= Z.of_nat i <= from_end (len (sets ss)) stop.
Proof.
  unfold range, from_end. pose proof (len_nonneg (sets ss)).
  destruct (Z.eqb_spec (len (sets ss)) 0) as [E|E].
  { apply len_0 in E. rewrite E. split; [by intros ?%not_elem_of_nil|]. by intros (i & s & ? & _). }
  cbv zeta. set (lo := if start <? 0 then len (sets ss) + start else start).
  set (hi := if stop <? 0 then len (sets ss) + stop else stop).
  set (lo' := if lo <? 0 then 0 else lo).
  set (hi' := if len (sets ss) <=? hi then len (sets ss) - 1 else hi).
  assert (Hlo : 0 <= lo' /\ (lo = lo' \/ lo < 0 /\ lo' = 0)) by (subst lo'; zcase; lia).
  assert (Hhi : hi' <= len (sets ss) - 1 /\ (hi = hi' \/ (hi' = len (sets ss) - 1 /\ hi' <= hi)))
    by (subst hi'; zcase; lia).
  assert (Hidx : forall i s, sets ss !! i = Some (s, m) -> (Z.of_nat i < len (sets ss))).
  { intros i s Hl. apply lookup_lt_Some in Hl. unfold len. lia. }
  destruct (Z.ltb_spec hi' lo') as [Hlt|Hge].
  - split; [by intros ?%not_elem_of_nil|]. intros (i & s & Hl & Hr). specialize (Hidx _ _ Hl). lia.
  - rewrite list_elem_of_fmap. split.
    + intros ([s m'] & E2 & Hin). cbn in E2. subst m'.
      apply elem_of_slice in Hin as (i & Hi & Hl). exists i, s. split; [done|]. lia.
    + intros (i & s & Hl & Hr). specialize (Hidx _ _ Hl). exists (s, m). split; [done|].
      apply elem_of_slice. exists i. split; [lia|done].
Qed.

(** * Properties *)

(** C17: the two structures of a sorted set never disagree.  From any state in
    which they agree, adding a score and removing a member keep the map, the
    strictly ordered set of pairs and the length in agreement, change the map
    by exactly that binding, and report whether the member was there; adding
    fails only for a NaN. *)
Theorem SortedSet_sync ss key s :
  inv ss ->
  (is_nan s = false -> exists ss' b, insert ss key s = Done (ss', b) /\
     inv ss' /\ hashMap ss' = <[key := s]> (hashMap ss) /\
     b = bool_decide (is_Some (hashMap ss !! key))) /\
  inv (remove ss key).1 /\ hashMap (remove ss key).1 = delete key (hashMap ss) /\
  (remove ss key).2 = bool_decide (is_Some (hashMap ss !! key)).
Proof.
  intros Hi. split; [|by apply remove_inv]. intros Hn.
  destruct (insert ss key s) as [[ss' b]|] eqn:E.
  - exists ss', b. split; [done|]. by apply insert_inv.
  - unfold insert in E. rewrite Hn in E. by destruct (hashMap ss !! key).
Qed.

(** Scores 1, 2 and 3. *)
Definition f1 : spec_float := S754_finite false 4503599627370496 (-52).
Definition f2 : spec_float := S754_finite false 4503599627370496 (-51).
Definition f3 : spec_float := S754_finite false 6755399441055744 (-51).

Definition sample_set : SortedSet :=
  match insert newSortedSet (lit "b") f2 with
  | Done (ss, _) =>
      match insert ss (lit "a") f2 with
      | Done (ss, _) => match insert ss (lit "c") f1 with Done (ss, _) => ss | Stuck => ss end
      | Stuck => ss
      end
  | Stuck => newSortedSet
  end.

Lemma sample_set_inv : inv sample_set.
Proof.
  pose proof (add_inv _ (lit "b") f2 newSortedSet_inv eq_refl eq_refl) as H1.
  pose proof (add_inv _ (lit "a") f2 H1 eq_refl eq_refl) as H2.
  exact (add_inv _ (lit "c") f1 H2 eq_refl eq_refl).
Defined.

Lemma SortedSet_sync_witness :
  exists ss' b, insert sample_set (lit "b") f3 = Done (ss', b) /\ inv ss' /\
    hashMap ss' = <[lit "b" := f3]> (hashMap sample_set) /\
    b = bool_decide (is_Some (hashMap sample_set !! lit "b")).
Proof. exact (proj1 (SortedSet_sync sample_set (lit "b") f3 sample_set_inv) eq_refl). Defined.

(** ranks.  The rank of a member is the number of pairs (score, member)
    below its own, there is none for a member that is absent, [score] answers the map, and [size] counts
    the members. *)
Theorem SortedSet_rank_counts ss m :
  inv ss ->
  rank ss m = (s ← score ss m;
               Some (length (List.filter (fun y => pair_ltb y (s, m)) (sets ss)))) /\
  size ss = Z.of_nat (base.size (hashMap ss)).
Proof.
  intros Hi. split.
  - unfold score. destruct (hashMap ss !! m) as [s|] eqn:E.
    + destruct (rank_split _ _ _ Hi E) as (n & -> & _ & ->). done.
    + unfold rank. by rewrite E.
  - unfold size. rewrite (inv_length _ Hi). unfold len. f_equal.
    rewrite <- (length_map flip_pair (sets ss)), <- length_map_to_list.
    apply Permutation_length, NoDup_Permutation.
    + apply NoDup_alt. intros i j [m' s'] Hx Hy. rewrite list_lookup_fmap in Hx, Hy.
      destruct (sets ss !! i) as [[s1 m1]|] eqn:E1; [|done].
      destruct (sets ss !! j) as [[s2 m2]|] eqn:E2; [|done].
      injection Hx as -> ->. injection Hy as -> ->.
      apply (member_index _ _ _ _ Hi) in E1, E2. congruence.
    + apply NoDup_map_to_list.
    + intros [m' s']. rewrite elem_of_map_to_list, <- (inv_member _ Hi), list_elem_of_fmap.
      split; [by intros ([s1 m1] & [= -> ->] & ?)|intros ?; by exists (s', m')].
Qed.

Lemma SortedSet_rank_counts_witness : rank sample_set (lit "b") = Some 2%nat.
Proof.
  rewrite (proj1 (SortedSet_rank_counts sample_set (lit "b") sample_set_inv)).
  vm_compute. reflexivity.
Defined.

(** ranges agree with ranks.  A member belongs to [range start stop] exactly
    when its rank lies between the two indices, negative ones being counted
    from the end, and the whole range lists all members by increasing
    (score, member). *)
Theorem SortedSet_range_by_rank ss m n start stop :
  inv ss -> rank ss m = Some n ->
  (m ∈ range ss start stop <->
   from_end (size ss) start <= Z.of_nat n <= from_end (size ss) stop) /\
  range ss 0 (-1) = map snd (sets ss) /\ StronglySorted pair_lt (sets ss).
Proof.
  intros Hi Hr. split_and!.
  - rewrite elem_of_range. unfold size. rewrite (inv_length _ Hi). split.
    + intros (i & s & Hl & Hb). apply (member_index _ _ _ _ Hi) in Hl. congruence.
    + intros Hb. unfold rank in Hr. destruct (hashMap ss !! m) as [s|] eqn:Hm; [|done].
      destruct (rank_split _ _ _ Hi Hm) as (n' & Hn' & Hl & _).
      unfold rank in Hn'. rewrite Hm in Hn'. exists n, s. split; [congruence|done].
  - unfold range. pose proof (len_nonneg (sets ss)).
    destruct (Z.eqb_spec (len (sets ss)) 0) as [E|E]; [by apply len_0 in E as ->|].
    change (0 <? 0) with false. change (-1 <? 0) with true. cbv zeta iota. change (0 <? 0) with false. cbv iota.
    destruct (Z.leb_spec (len (sets ss)) (len (sets ss) + -1)); [lia|].
    destruct (Z.ltb_spec (len (sets ss) + -1) 0); [lia|]. rewrite drop_0. f_equal.
    apply take_ge. unfold len in *. lia.
  - by apply inv_sorted.
Qed.

Lemma SortedSet_range_by_rank_witness :
  lit "a" ∈ range sample_set 1 (-2).
Proof.
  apply (proj1 (SortedSet_range_by_rank sample_set (lit "a") 1 1 (-2) sample_set_inv eq_refl)).
  vm_compute. intuition discriminate.
Defined.
