(* ===== verification/Geohash.v ===== *)
(** [src/geohash.h] and [src/geohash.cpp]: geohash encoding.  The bit
    interleaving is on 64-bit integers; the scaling is IEEE double arithmetic
    with the rounding of [SpecFloat] (53 bits, exponent bound 1024).  The
    trigonometric functions of the C library are parameters. *)
From Stdlib Require Import SpecFloat.
From S2P Require Import Prelude.

(** * Doubles *)
Definition fsub := SFsub 53 1024.
Definition fadd := SFadd 53 1024.
Definition fmul := SFmul 53 1024.
Definition fdiv := SFdiv 53 1024.
Definition fsqrt := SFsqrt 53 1024.

(** Conversion of an integer, rounded to nearest. *)
Definition of_int (z : Z) : spec_float := binary_normalize 53 1024 z 0 false.

(** Conversion to [uint32_t]: truncation, no result outside the range. *)
Definition to_uint32 (f : spec_float) : outcome Z :=
  match f with
  | S754_zero _ => mret 0
  | S754_finite s m e =>
      let a := if 0 <=? e then Z.pos m * 2 ^ e else Z.pos m / 2 ^ (- e) in
      let v := if s then - a else a in
      if (0 <=? v) && (v <? 2 ^ 32) then mret v else Stuck
  | _ => Stuck
  end.

(** * Interleaving *)
Definition spread (x : Z) : Z :=
  let x := Z.land (Z.lor x (u64 (Z.shiftl x 16))) 0x0000FFFF0000FFFF in
  let x := Z.land (Z.lor x (u64 (Z.shiftl x 8))) 0x00FF00FF00FF00FF in
  let x := Z.land (Z.lor x (u64 (Z.shiftl x 4))) 0x0F0F0F0F0F0F0F0F in
  let x := Z.land (Z.lor x (u64 (Z.shiftl x 2))) 0x3333333333333333 in
  Z.land (Z.lor x (u64 (Z.shiftl x 1))) 0x5555555555555555.

Definition interleave64 (xlo ylo : Z) : Z :=
  Z.lor (spread xlo) (u64 (Z.shiftl (spread ylo) 1)).

Definition squash (x : Z) : Z :=
  let x := Z.land (Z.lor x (Z.shiftr x 0)) 0x5555555555555555 in
  let x := Z.land (Z.lor x (Z.shiftr x 1)) 0x3333333333333333 in
  let x := Z.land (Z.lor x (Z.shiftr x 2)) 0x0F0F0F0F0F0F0F0F in
  let x := Z.land (Z.lor x (Z.shiftr x 4)) 0x00FF00FF00FF00FF in
  let x := Z.land (Z.lor x (Z.shiftr x 8)) 0x0000FFFF0000FFFF in
  Z.land (Z.lor x (Z.shiftr x 16)) 0x00000000FFFFFFFF.

Definition deinterleave64 (interleaved : Z) : Z :=
  Z.lor (squash interleaved) (u64 (Z.shiftl (squash (Z.shiftr interleaved 1)) 32)).

(** * Geohashes *)
Record GeoHashRange := MkRange { min : spec_float; max : spec_float }.
Record GeoHashBits := MkBits { bits : Z; step : Z }.
Record GeoHashArea := MkArea {
  hashbits : GeoHashBits; longitude : GeoHashRange; latitude : GeoHashRange
}.
Record GeoHash := MkGeoHash { latRange : GeoHashRange; longRange : GeoHashRange }.

(** [None] is the result [false]; [1 << step] is an [int]. *)
Definition geoHashEncode (g : GeoHash) (longitude latitude : spec_float) (step : Z)
  : outcome (option GeoHashBits) :=
  if SFltb (max (longRange g)) longitude || SFltb longitude (min (longRange g))
     || SFltb (max (latRange g)) latitude || SFltb latitude (min (latRange g))
  then mret None
  else
    let lat_offset := fdiv (fsub latitude (min (latRange g)))
                           (fsub (max (latRange g)) (min (latRange g))) in
    let long_offset := fdiv (fsub longitude (min (longRange g)))
                            (fsub (max (longRange g)) (min (longRange g))) in
    let lat_offset := fmul lat_offset (of_int (Z.shiftl 1 step)) in
    let long_offset := fmul long_offset (of_int (Z.shiftl 1 step)) in
    x ← to_uint32 lat_offset;
    y ← to_uint32 long_offset;
    mret (Some (MkBits (interleave64 x y) step)).

(** One bound of the decoded area: [min + (offset * 1.0 / (1ull << step)) * scale]. *)
Definition decode_bound (lo : spec_float) (offset step : Z) (scale : spec_float) : spec_float :=
  fadd lo (fmul (fdiv (of_int offset) (of_int (u64 (Z.shiftl 1 step)))) scale).

Definition geoHashDecode (g : GeoHash) (hashBits : GeoHashBits) : GeoHashArea :=
  let deinterleavedBits := deinterleave64 (bits hashBits) in
  let latoffsetWithScale := u32 deinterleavedBits in
  let longoffsetWithScale := u32 (Z.shiftr deinterleavedBits 32) in
  let latScale := fsub (max (latRange g)) (min (latRange g)) in
  let longScale := fsub (max (longRange g)) (min (longRange g)) in
  let bound r o s := decode_bound (min r) o (step hashBits) s in
  MkArea hashBits
    (MkRange (bound (longRange g) longoffsetWithScale longScale)
             (bound (longRange g) (u32 (longoffsetWithScale + 1)) longScale))
    (MkRange (bound (latRange g) latoffsetWithScale latScale)
             (bound (latRange g) (u32 (latoffsetWithScale + 1)) latScale)).

Definition M_PI : spec_float := S754_finite false 7074237752028440 (-51).
Definition EarthRadius : spec_float := S754_finite false 6842739276976272 (-30).

Section Distance.
Context (sin cos : spec_float -> spec_float) (atan2 : spec_float -> spec_float -> spec_float).

Definition calculateDistance (area1 area2 : GeoHashArea) : spec_float :=
  let two := of_int 2 in
  let mid r := fdiv (fadd (min r) (max r)) two in
  let lon1 := mid (longitude area1) in
  let lat1 := mid (latitude area1) in
  let lon2 := mid (longitude area2) in
  let lat2 := mid (latitude area2) in
  let rad x := fdiv (fmul x M_PI) (of_int 180) in
  let lat1Rad := rad lat1 in
  let lat2Rad := rad lat2 in
  let dLat := rad (fsub lat2 lat1) in
  let dLon := rad (fsub lon2 lon1) in
  let a := fadd (fmul (sin (fdiv dLat two)) (sin (fdiv dLat two)))
                (fmul (fmul (fmul (cos lat1Rad) (cos lat2Rad)) (sin (fdiv dLon two)))
                      (sin (fdiv dLon two))) in
  let c := fmul two (atan2 (fsqrt a) (fsqrt (fsub (of_int 1) a))) in
  fmul EarthRadius c.
End Distance.

(** * Interleaving is undone *)

(** Functions that act bit by bit. *)
Definition lor_hom (f : Z -> Z) : Prop :=
  f 0 = 0 /\ forall a b, f (Z.lor a b) = Z.lor (f a) (f b).

Lemma lor_hom_comp f g : lor_hom f -> lor_hom g -> lor_hom (fun x => f (g x)).
Proof. intros [F0 F] [G0 G]. split; [by rewrite G0|]. intros a b. by rewrite G, F. Qed.

Lemma lor_hom_lor f g : lor_hom f -> lor_hom g -> lor_hom (fun x => Z.lor (f x) (g x)).
Proof.
  intros [F0 F] [G0 G]. split; [by rewrite F0, G0|]. intros a b. rewrite F, G.
  apply Z.bits_inj'. intros n _. rewrite !Z.lor_spec.
  destruct (Z.testbit (f a) n), (Z.testbit (f b) n), (Z.testbit (g a) n), (Z.testbit (g b) n); done.
Qed.

Lemma lor_hom_land m : lor_hom (fun x => Z.land x m).
Proof. split; [apply Z.land_0_l|]. intros a b. apply Z.land_lor_distr_l. Qed.

Lemma lor_hom_shiftl n : lor_hom (fun x => u64 (Z.shiftl x n)).
Proof.
  assert (E : forall x, u64 x = Z.land x (Z.ones 64)) by (intros; by rewrite Z.land_ones).
  split; [by rewrite Z.shiftl_0_l|]. intros a b. rewrite !E, Z.shiftl_lor. apply Z.land_lor_distr_l.
Qed.

Lemma lor_hom_shiftr n : lor_hom (fun x => Z.shiftr x n).
Proof. split; [by rewrite Z.shiftr_0_l|]. intros a b. apply Z.shiftr_lor. Qed.

Lemma lor_hom_id : lor_hom (fun x => x).
Proof. done. Qed.

(** One masking stage. *)
Lemma lor_hom_stage (s f : Z -> Z) m :
  lor_hom s -> lor_hom f -> lor_hom (fun x => Z.land (Z.lor (f x) (s (f x))) m).
Proof.
  intros Hs Hf. apply (lor_hom_comp (fun x => Z.land x m)); [apply lor_hom_land|].
  apply lor_hom_lor; [done|]. by apply (lor_hom_comp s).
Qed.

Lemma lor_hom_spread : lor_hom spread.
Proof.
  unfold spread. cbv zeta.
  do 5 (apply (lor_hom_stage (fun x => u64 (Z.shiftl x _))); [apply lor_hom_shiftl|]).
  apply lor_hom_id.
Qed.

Lemma lor_hom_squash : lor_hom squash.
Proof.
  unfold squash. cbv zeta.
  do 6 (apply (lor_hom_stage (fun x => Z.shiftr x _)); [apply lor_hom_shiftr|]).
  apply lor_hom_id.
Qed.

(** Two such functions that agree on single bits agree. *)
Lemma lor_hom_ext f g n :
  lor_hom f -> lor_hom g ->
  forallb (fun k => f (2 ^ Z.of_nat k) =? g (2 ^ Z.of_nat k)) (seq 0 n) = true ->
  forall x, 0 <= x < 2 ^ Z.of_nat n -> f x = g x.
Proof.
  intros Hf Hg. induction n as [|n IH]; intros Hb x Hx.
  - replace x with 0 by (cbn in Hx; lia). by rewrite (proj1 Hf), (proj1 Hg).
  - rewrite seq_S, forallb_app in Hb. apply andb_true_iff in Hb as [Hb Hn].
    cbn [forallb Nat.add] in Hn. rewrite andb_true_r in Hn. apply Z.eqb_eq in Hn.
    rewrite Nat2Z.inj_succ, Z.pow_succ_r in Hx by lia.
    set (p := 2 ^ Z.of_nat n) in *. assert (0 < p) by (apply Z.pow_pos_nonneg; lia).
    destruct (Z.lt_ge_cases x p) as [Hlt|Hge]; [apply IH; [done|lia]|].
    assert (E : x = Z.lor (x - p) p).
    { rewrite Z.lor_comm. pose proof (lor_high 1 (Z.of_nat n) (x - p)) as HL.
      rewrite Z.mul_1_l in HL. fold p in HL. rewrite HL; lia. }
    rewrite E, (proj2 Hf), (proj2 Hg), Hn, (IH Hb (x - p)); [done|lia].
Qed.

(** * Properties *)

(** interleaving loses nothing.  For all 32-bit latitude and longitude
    offsets, deinterleaving the interleaved bits gives the latitude in the low
    half and the longitude in the high half. *)
Theorem deinterleave_interleave x y :
  0 <= x < 2 ^ 32 -> 0 <= y < 2 ^ 32 ->
  deinterleave64 (interleave64 x y) = x + y * 2 ^ 32.
Proof.
  intros Hx Hy.
  assert (H1 : forall f : Z -> Z, lor_hom f -> f (interleave64 x y) =
    Z.lor (f (spread x)) (f (u64 (Z.shiftl (spread y) 1)))) by (intros f [_ Hf]; apply Hf).
  assert (Hsx : squash (spread x) = x).
  { apply (lor_hom_ext (fun x => squash (spread x)) (fun x => x) 32);
      [apply lor_hom_comp; [apply lor_hom_squash|apply lor_hom_spread]|done|by vm_compute|done]. }
  assert (Hsy : squash (u64 (Z.shiftl (spread y) 1)) = 0).
  { apply (lor_hom_ext (fun y => squash (u64 (Z.shiftl (spread y) 1))) (fun _ => 0) 32);
      [|done|by vm_compute|done].
    apply (lor_hom_comp squash); [apply lor_hom_squash|].
    apply (lor_hom_comp (fun x => u64 (Z.shiftl x 1))); [apply lor_hom_shiftl|apply lor_hom_spread]. }
  assert (Hrx : squash (Z.shiftr (spread x) 1) = 0).
  { apply (lor_hom_ext (fun x => squash (Z.shiftr (spread x) 1)) (fun _ => 0) 32);
      [|done|by vm_compute|done].
    apply (lor_hom_comp squash); [apply lor_hom_squash|].
    apply (lor_hom_comp (fun x => Z.shiftr x 1)); [apply lor_hom_shiftr|apply lor_hom_spread]. }
  assert (Hry : squash (Z.shiftr (u64 (Z.shiftl (spread y) 1)) 1) = y).
  { apply (lor_hom_ext (fun y => squash (Z.shiftr (u64 (Z.shiftl (spread y) 1)) 1)) (fun y => y) 32);
      [|done|by vm_compute|done].
    apply (lor_hom_comp squash); [apply lor_hom_squash|].
    apply (lor_hom_comp (fun x => Z.shiftr x 1)); [apply lor_hom_shiftr|].
    apply (lor_hom_comp (fun x => u64 (Z.shiftl x 1))); [apply lor_hom_shiftl|apply lor_hom_spread]. }
  unfold deinterleave64.
  rewrite (H1 squash lor_hom_squash), Hsx, Hsy, Z.lor_0_r.
  assert (Hs : lor_hom (fun z => squash (Z.shiftr z 1)))
    by (apply (lor_hom_comp squash); [apply lor_hom_squash|apply lor_hom_shiftr]).
  rewrite (H1 _ Hs), Hrx, Hry, Z.lor_0_l.
  rewrite u64_id by (rewrite Z.shiftl_mul_pow2; lia).
  rewrite Z.lor_comm, Z.shiftl_mul_pow2, lor_high by lia. lia.
Qed.

Lemma deinterleave_interleave_witness :
  deinterleave64 (interleave64 12345678 4000000000) = 12345678 + 4000000000 * 2 ^ 32.
Proof. apply deinterleave_interleave; lia. Defined.
