(* ===== verification/Command.v ===== *)
(** [src/parser/command.h]: the commands.  A command is its key, the bytes its
    parsing consumed and the fields of its class; the class determines the
    command type, whether it is a write command, and the RESP text used to
    replicate it, one definition per class. *)
From Stdlib Require Import SpecFloat.
From S2P Require Import Prelude Utils.

Inductive CommandType :=
| ECHO | PING | SET | GET | TYPE | RPUSH | LPUSH | LRANGE | LLEN | LPOP | BLPOP | XADD
| XRANGE | XREAD | INCR | UNKNOWN | MULTI | EXEC | DISCARD | INFO | REPLCONF | PSYNC | WAIT
| GETCONFIG | KEYS | SUBSCRIBE | PUBLISH | UNSUBSCRIBE | ZADD | ZRANK | ZRANGE | ZCARD
| ZSCORE | ZREM | GEOADD | GEOPOS | GEODIST | GEOSEARCH | ACL_WHOAMI | ACL_GETUSER
| ACL_SETUSER | AUTH.

#[global] Instance CommandType_eq_dec : EqDecision CommandType.
Proof. solve_decision. Defined.

Inductive ReplConfType := LISTENING_PORT | CAPA | GETACK | ACK.

#[global] Instance ReplConfType_eq_dec : EqDecision ReplConfType.
Proof. solve_decision. Defined.

(** The subclasses of [Command] with their own fields. *)
Inductive Args :=
| UnSubscribeCommand (channel_name : list Z)
| GeoAddCommand (longitude latitude score : spec_float) (member : list Z) (invalidLatLon : bool)
| GeoPosCommand (members : list (list Z))
| GeoDistCommand (member1 member2 : list Z)
| GeoSearchCommand (longitude latitude radius : spec_float)
| ZaddCommand (score_members : list (spec_float * list Z))
| SubscribeCommand (channel_name : list Z)
| PublishCommand (channel_name message : list Z)
| UnknowCommand
| PingCommand
| EchoCommand (message : list Z)
| ACLWhoamiCommand
| ACLGetUserCommand (username : list Z)
| ACLSetUserCommand (username : list Z) (password : option (list Z)) (flags : list (list Z))
| AuthCommand (username password : list Z)
| SetCommand (value : list Z) (ex px : option Z)
| GetCommand
| TypeCommand
| IncrCommand
| RpushCommand (values : list (list Z))
| LpushCommand (values : list (list Z))
| LrangeCommand (start stop : Z)
| LlenCommand
| LpopCommand (count : option Z)
| BlpopCommand (keys : list (list Z)) (timeout : spec_float)
| XaddCommand (stream_id : list Z) (field_values : list (list Z * list Z))
| XrangeCommand (start end_ : list Z)
| XreadCommand (block_timeout : option spec_float) (keys ids : list (list Z))
| MultiCommand
| ExecCommand
| DiscardCommand
| InfoCommand (isReplicationArgument : bool)
| ReplConfCommand (subcommand : ReplConfType) (listening_port capability : list Z) (ack_offset : Z)
| PsyncCommand (repl_id : list Z) (offset : Z)
| WaitCommand (num_replica timeout : Z)
| GetConfigCommand (parameters : list (list Z))
| KeysCommand (pattern : list Z)
| ZrankCommand (member : list Z)
| ZrangeCommand (start stop : Z)
| ZcardCommand
| ZscoreCommand (member : list Z)
| ZremCommand (members : list (list Z)).

(** The base class. *)
Record Command := MkCommand {
  key : list Z;
  bytes_processed : Z;
  args : Args
}.

(** The type each constructor sets. *)
Definition type_of (a : Args) : CommandType :=
  match a with
  | UnSubscribeCommand _ => UNSUBSCRIBE
  | GeoAddCommand _ _ _ _ _ => GEOADD
  | GeoPosCommand _ => GEOPOS
  | GeoDistCommand _ _ => GEODIST
  | GeoSearchCommand _ _ _ => GEOSEARCH
  | ZaddCommand _ => ZADD
  | SubscribeCommand _ => SUBSCRIBE
  | PublishCommand _ _ => PUBLISH
  | UnknowCommand => UNKNOWN
  | PingCommand => PING
  | EchoCommand _ => ECHO
  | ACLWhoamiCommand => ACL_WHOAMI
  | ACLGetUserCommand _ => ACL_GETUSER
  | ACLSetUserCommand _ _ _ => ACL_SETUSER
  | AuthCommand _ _ => AUTH
  | SetCommand _ _ _ => SET
  | GetCommand => GET
  | TypeCommand => TYPE
  | IncrCommand => INCR
  | RpushCommand _ => RPUSH
  | LpushCommand _ => LPUSH
  | LrangeCommand _ _ => LRANGE
  | LlenCommand => LLEN
  | LpopCommand _ => LPOP
  | BlpopCommand _ _ => BLPOP
  | XaddCommand _ _ => XADD
  | XrangeCommand _ _ => XRANGE
  | XreadCommand _ _ _ => XREAD
  | MultiCommand => MULTI
  | ExecCommand => EXEC
  | DiscardCommand => DISCARD
  | InfoCommand _ => INFO
  | ReplConfCommand _ _ _ _ => REPLCONF
  | PsyncCommand _ _ => PSYNC
  | WaitCommand _ _ => WAIT
  | GetConfigCommand _ => GETCONFIG
  | KeysCommand _ => KEYS
  | ZrankCommand _ => ZRANK
  | ZrangeCommand _ _ => ZRANGE
  | ZcardCommand => ZCARD
  | ZscoreCommand _ => ZSCORE
  | ZremCommand _ => ZREM
  end.

Definition type (c : Command) : CommandType := type_of (args c).

Definition is_write_command (c : Command) : bool :=
  match args c with
  | GeoAddCommand _ _ _ _ _ | ZaddCommand _ | ACLSetUserCommand _ _ _ | SetCommand _ _ _
  | IncrCommand | RpushCommand _ | LpushCommand _ | LpopCommand _ | XaddCommand _ _
  | ZremCommand _ => true
  | _ => false
  end.

Definition commandTypeToString (t : CommandType) : list Z :=
  match t with
  | ECHO => lit "echo" | PING => lit "ping" | SET => lit "set" | GET => lit "get"
  | TYPE => lit "type" | RPUSH => lit "rpush" | LPUSH => lit "lpush"
  | LRANGE => lit "lrange" | LLEN => lit "llen" | LPOP => lit "lpop"
  | BLPOP => lit "blpop" | XADD => lit "xadd" | XRANGE => lit "xrange"
  | XREAD => lit "xread" | INCR => lit "incr" | UNKNOWN => lit "unknown"
  | MULTI => lit "multi" | EXEC => lit "exec" | DISCARD => lit "discard"
  | INFO => lit "info" | REPLCONF => lit "replconf" | PSYNC => lit "psync"
  | WAIT => lit "wait" | GETCONFIG => lit "getconfig" | KEYS => lit "keys"
  | SUBSCRIBE => lit "subscribe" | UNSUBSCRIBE => lit "unsubscribe"
  | ZADD => lit "zadd" | ZRANK => lit "zrank" | ZRANGE => lit "zrange"
  | ZCARD => lit "zcard" | ZSCORE => lit "zscore" | ZREM => lit "zrem"
  | GEOPOS => lit "geopos" | GEODIST => lit "geodist" | GEOSEARCH => lit "geosearch"
  | ACL_WHOAMI => lit "acl_whoami" | ACL_GETUSER => lit "acl_getuser"
  | ACL_SETUSER => lit "acl_setuser"
  | PUBLISH | GEOADD | AUTH => lit "unknown"
  end.

(** * [to_resp], class by class *)

(** [static_cast<int64_t>(double)]: truncation; undefined in C++ outside the
    range, where the model's value has no meaning. *)
Definition double_to_int64 (f : spec_float) : Z :=
  match f with
  | S754_finite s m e =>
      let a := if 0 <=? e then Z.pos m * 2 ^ e else Z.pos m / 2 ^ (- e) in
      if s then - a else a
  | _ => 0
  end.

Section ToResp.
(** [std::to_string(double)], printf's "%f". *)
Context (double_to_string : spec_float -> list Z).

Definition to_resp_GeoAdd (key : list Z) (longitude latitude : spec_float) (member : list Z) :=
  lit "*5" ++ CRLF ++ bulk (lit "GEOADD") ++ bulk key ++ bulk (double_to_string longitude)
    ++ bulk (double_to_string latitude) ++ bulk member.

Definition to_resp_GeoPos (key : list Z) (members : list (list Z)) :=
  lit "*2" ++ CRLF ++ bulk (lit "GEOPOS") ++ bulk key ++ concat (map bulk members).

Definition to_resp_GeoDist (key member1 member2 : list Z) :=
  lit "*4" ++ CRLF ++ bulk (lit "GEODIST") ++ bulk key ++ bulk member1 ++ bulk member2.

Definition to_resp_Zadd (key : list Z) (score_members : list (spec_float * list Z)) :=
  header (2 + len score_members * 2) ++ bulk (lit "ZADD") ++ bulk key
    ++ concat (map (fun sm => bulk (double_to_string sm.1) ++ bulk sm.2) score_members).

Definition to_resp_Ping : list Z := lit "*1" ++ CRLF ++ bulk (lit "PING").

Definition to_resp_Echo (message : list Z) :=
  lit "*2" ++ CRLF ++ bulk (lit "ECHO") ++ bulk message.

Definition to_resp_ACLWhoami : list Z := lit "*2" ++ CRLF ++ bulk (lit "ACL") ++ bulk (lit "WHOAMI").
Definition to_resp_ACLGetUser : list Z := lit "*2" ++ CRLF ++ bulk (lit "ACL") ++ bulk (lit "GETUSER").
Definition to_resp_ACLSetUser : list Z := lit "*2" ++ CRLF ++ bulk (lit "ACL") ++ bulk (lit "SETUSER").
Definition to_resp_Auth : list Z := lit "*3" ++ CRLF ++ bulk (lit "AUTH").

Definition to_resp_Set (key value : list Z) (ex px : option Z) :=
  let initial_command_count := 3 in
  let initial_command_count :=
    match ex with Some _ => initial_command_count + 2 | None => initial_command_count end in
  let initial_command_count :=
    match px with Some _ => initial_command_count + 2 | None => initial_command_count end in
  header initial_command_count ++ bulk (lit "SET") ++ bulk key ++ bulk value
    ++ (match ex with Some e => bulk (lit "EX") ++ bulk (to_string e) | None => [] end)
    ++ (match px with Some p => bulk (lit "PX") ++ bulk (to_string p) | None => [] end).

Definition to_resp_Get (key : list Z) := lit "*2" ++ CRLF ++ bulk (lit "GET") ++ bulk key.
Definition to_resp_Type (key : list Z) := lit "*2" ++ CRLF ++ bulk (lit "TYPE") ++ bulk key.
Definition to_resp_Incr (key : list Z) := lit "*2" ++ CRLF ++ bulk (lit "INCR") ++ bulk key.

Definition to_resp_Rpush (key : list Z) (values : list (list Z)) :=
  header (2 + len values) ++ bulk (lit "RPUSH") ++ bulk key ++ concat (map bulk values).

Definition to_resp_Lpush (key : list Z) (values : list (list Z)) :=
  header (2 + len values) ++ bulk (lit "LPUSH") ++ bulk key ++ concat (map bulk values).

Definition to_resp_Lrange (key : list Z) (start stop : Z) :=
  lit "*4" ++ CRLF ++ bulk (lit "LRANGE") ++ bulk key ++ bulk (to_string start)
    ++ bulk (to_string stop).

Definition to_resp_Llen (key : list Z) := lit "*2" ++ CRLF ++ bulk (lit "LLEN") ++ bulk key.

Definition to_resp_Lpop (key : list Z) (count : option Z) :=
  header (match count with Some _ => 3 | None => 2 end) ++ bulk (lit "LPOP") ++ bulk key
    ++ (match count with Some n => bulk (to_string n) | None => [] end).

Definition to_resp_Blpop (keys : list (list Z)) (timeout : spec_float) :=
  header (1 + len keys + 1) ++ bulk (lit "BLPOP") ++ concat (map bulk keys)
    ++ bulk (to_string (double_to_int64 timeout)).

Definition to_resp_Xadd (key stream_id : list Z) (field_values : list (list Z * list Z)) :=
  header (3 + len field_values * 2) ++ bulk (lit "XADD") ++ bulk key ++ bulk stream_id
    ++ concat (map (fun fv => bulk fv.1 ++ bulk fv.2) field_values).

Definition to_resp_Xrange (key start end_ : list Z) :=
  lit "*4" ++ CRLF ++ bulk (lit "XRANGE") ++ bulk key ++ bulk start ++ bulk end_.

Definition to_resp_Xread (block_timeout : option spec_float) (keys ids : list (list Z)) :=
  header (i32 (2 + len keys + len ids) + match block_timeout with Some _ => 2 | None => 0 end)
    ++ bulk (lit "XREAD")
    ++ (match block_timeout with
        | Some t => bulk (lit "BLOCK") ++ bulk (to_string (double_to_int64 t))
        | None => []
        end)
    ++ bulk (lit "STREAMS") ++ concat (map bulk keys) ++ concat (map bulk ids).

Definition to_resp_Multi : list Z := lit "*1" ++ CRLF ++ bulk (lit "MULTI").
Definition to_resp_Exec : list Z := lit "*1" ++ CRLF ++ bulk (lit "EXEC").
Definition to_resp_Discard : list Z := lit "*1" ++ CRLF ++ bulk (lit "DISCARD").

Definition to_resp_Info (isReplicationArgument : bool) : list Z :=
  if isReplicationArgument
  then lit "*2" ++ CRLF ++ bulk (lit "INFO") ++ bulk (lit "replication")
  else lit "*1" ++ CRLF ++ bulk (lit "INFO").

Definition to_resp_ReplConf (subcommand : ReplConfType) (listening_port capability : list Z)
    (ack_offset : Z) : list Z :=
  let start := lit "*3" ++ CRLF ++ bulk (lit "REPLCONF") in
  match subcommand with
  | ACK => start ++ bulk (lit "ACK") ++ bulk (to_string ack_offset)
  | GETACK => start ++ bulk (lit "GETACK") ++ bulk (lit "*")
  | _ =>
      if negb (bool_decide (listening_port = []))
      then start ++ bulk (lit "listening-port") ++ bulk listening_port
      else if negb (bool_decide (capability = []))
      then start ++ bulk (lit "capa") ++ bulk capability
      else start
  end.

Definition to_resp_Psync (repl_id : list Z) (offset : Z) :=
  lit "*3" ++ CRLF ++ bulk (lit "PSYNC") ++ bulk repl_id ++ bulk (to_string offset).

Definition to_resp_Wait (num_replica timeout : Z) :=
  lit "*3" ++ CRLF ++ bulk (lit "WAIT") ++ bulk (to_string num_replica)
    ++ bulk (to_string timeout).

Definition to_resp_Zrank (key member : list Z) :=
  lit "*3" ++ CRLF ++ bulk (lit "ZRANK") ++ bulk key ++ bulk member.

Definition to_resp_Zrange (key : list Z) (start stop : Z) :=
  lit "*4" ++ CRLF ++ bulk (lit "ZRANGE") ++ bulk key ++ bulk (to_string start)
    ++ bulk (to_string stop).

Definition to_resp_Zcard (key : list Z) := lit "*2" ++ CRLF ++ bulk (lit "ZCARD") ++ bulk key.

Definition to_resp_Zscore (key member : list Z) :=
  lit "*3" ++ CRLF ++ bulk (lit "ZSCORE") ++ bulk key ++ bulk member.

Definition to_resp_Zrem (key : list Z) (members : list (list Z)) :=
  header (2 + len members) ++ bulk (lit "ZREM") ++ bulk key ++ concat (map bulk members).

(** The virtual call. *)
Definition to_resp (c : Command) : list Z :=
  match args c with
  | GeoAddCommand lon lat _ member _ => to_resp_GeoAdd (key c) lon lat member
  | GeoPosCommand members => to_resp_GeoPos (key c) members
  | GeoDistCommand m1 m2 => to_resp_GeoDist (key c) m1 m2
  | ZaddCommand sms => to_resp_Zadd (key c) sms
  | PingCommand => to_resp_Ping
  | EchoCommand message => to_resp_Echo message
  | ACLWhoamiCommand => to_resp_ACLWhoami
  | ACLGetUserCommand _ => to_resp_ACLGetUser
  | ACLSetUserCommand _ _ _ => to_resp_ACLSetUser
  | AuthCommand _ _ => to_resp_Auth
  | SetCommand value ex px => to_resp_Set (key c) value ex px
  | GetCommand => to_resp_Get (key c)
  | TypeCommand => to_resp_Type (key c)
  | IncrCommand => to_resp_Incr (key c)
  | RpushCommand values => to_resp_Rpush (key c) values
  | LpushCommand values => to_resp_Lpush (key c) values
  | LrangeCommand start stop => to_resp_Lrange (key c) start stop
  | LlenCommand => to_resp_Llen (key c)
  | LpopCommand count => to_resp_Lpop (key c) count
  | BlpopCommand keys timeout => to_resp_Blpop keys timeout
  | XaddCommand stream_id fvs => to_resp_Xadd (key c) stream_id fvs
  | XrangeCommand start end_ => to_resp_Xrange (key c) start end_
  | XreadCommand block keys ids => to_resp_Xread block keys ids
  | MultiCommand => to_resp_Multi
  | ExecCommand => to_resp_Exec
  | DiscardCommand => to_resp_Discard
  | InfoCommand r => to_resp_Info r
  | ReplConfCommand sub port capa ack => to_resp_ReplConf sub port capa ack
  | PsyncCommand id off => to_resp_Psync id off
  | WaitCommand n t => to_resp_Wait n t
  | ZrankCommand member => to_resp_Zrank (key c) member
  | ZrangeCommand start stop => to_resp_Zrange (key c) start stop
  | ZcardCommand => to_resp_Zcard (key c)
  | ZscoreCommand member => to_resp_Zscore (key c) member
  | ZremCommand members => to_resp_Zrem (key c) members
  | UnSubscribeCommand _ | GeoSearchCommand _ _ _ | SubscribeCommand _ | PublishCommand _ _
  | UnknowCommand | GetConfigCommand _ | KeysCommand _ => []
  end.
End ToResp.
