(* ===== verification/Parser.v ===== *)
(** [src/parser/parser.h], [src/parser/parser.cpp], [src/models/resp.h]: the
    RESP tokenizer that runs over a client's read buffer, and the two parsers
    used on replies.  The tokenizer's position only moves forward; it is state
    passed along, the buffer is fixed. *)
From S2P Require Import Prelude Utils.

(** * Tokens *)
Inductive TokenType := ARRAY | BULK_STRING | UNKNOWN.

#[global] Instance TokenType_eq_dec : EqDecision TokenType.
Proof. solve_decision. Defined.

Record ParsedToken := MkToken {
  type : TokenType; start_pos : nat; end_pos : nat; length_ : Z
}.

Definition unknown_token : ParsedToken := MkToken UNKNOWN 0 0 0.

(** ["\r"] and ["\n"]. *)
Definition CR : Z := 13.
Definition LF : Z := 10.

(** * Tokenizer *)
Section Tokenizer.
Context (read_buffer : list Z).

(** The digit loop of [calculate_length] on the unread part: the length and
    the number of bytes up to the ['\r'] or the end of the buffer; [None] with
    the bytes read when a byte is no digit. *)
Fixpoint length_loop (rest : list Z) (length : Z) : bool * Z * nat :=
  match rest with
  | [] => (true, length, O)
  | x :: rest =>
      if x =? CR then (true, length, O)
      else if isdigit x then
        let '(ok, l, n) := length_loop rest (u64 (u64 (length * 10) + (x - 48))) in
        (ok, l, S n)
      else (false, length, O)
  end.

(** Result, [length], and the new [current_read_position]. *)
Definition calculate_length (pos : nat) : bool * Z * nat :=
  let '(ok, length, n) := length_loop (drop pos read_buffer) 0 in
  if (ok : bool) then (true, length, pos + n + 2)%nat else (false, length, pos + n)%nat.

(** Bytes up to the next ['\r'] or the end. *)
Fixpoint to_CR (rest : list Z) : nat :=
  match rest with
  | [] => O
  | x :: rest => if x =? CR then O else S (to_CR rest)
  end.

Definition Parse (pos : nat) : ParsedToken * nat :=
  match read_buffer !! pos with
  | Some 42 =>
      let '(ok, length, pos) := calculate_length (S pos) in
      if (ok : bool) then (MkToken ARRAY 0 0 length, pos) else (unknown_token, pos)
  | Some 36 =>
      let '(ok, length, pos) := calculate_length (S pos) in
      if (ok : bool) then
        let start_pos := pos in
        let pos := (pos + to_CR (drop pos read_buffer))%nat in
        (MkToken BULK_STRING start_pos (pos - 1) length, pos + 2)%nat
      else (unknown_token, pos)
  | _ => (unknown_token, pos)
  end.

(** [std::string_view{data + start_pos, end_pos - start_pos + 1}]. *)
Definition token_text (t : ParsedToken) : list Z :=
  take (end_pos t + 1 - start_pos t) (drop (start_pos t) read_buffer).
End Tokenizer.

(** * Replies *)

(** Skip ['\r'] and ['\n']. *)
Fixpoint skip_crlf (raw : list Z) : list Z :=
  match raw with
  | x :: r => if (x =? CR) || (x =? LF) then skip_crlf r else raw
  | [] => []
  end.

(** The length loop of [parse_bulk_string_sequence]: [None] on a non-digit,
    else the value and the rest from the ['\r'] on. *)
Fixpoint sequence_length (raw : list Z) (len : Z) : option (Z * list Z) :=
  match raw with
  | [] => Some (len, [])
  | x :: r =>
      if x =? CR then Some (len, raw)
      else if isdigit x then sequence_length r (u64 (u64 (len * 10) + (x - 48)))
      else None
  end.

(** [raw.substr(pos)] starts with ["\r\n"]. *)
Definition at_crlf (raw : list Z) (pos : nat) : bool :=
  bool_decide (take 2 (drop pos raw) = [CR; LF]).

(** The outer loop of [parse_bulk_string_sequence]: the result and [out], which
    keeps the items read before a failure.  The additions [pos + len] and [pos += len] are 64-bit ones: a
    huge length sends [pos] back, so that nothing bounds the number of
    iterations in general; [Stuck] is a run longer than the fuel.  Lengths below 2^63
    move [pos] forward, and then a fuel above the length of [raw] is enough. *)
Fixpoint bulk_sequence (fuel : nat) (raw : list Z) (pos : nat) (out : list (list Z))
  : outcome (bool * list (list Z)) :=
  match fuel with
  | O => Stuck
  | S fuel =>
      let skipped := skip_crlf (drop pos raw) in
      match skipped with
      | [] => mret (true, out)
      | c :: rest =>
          if negb (c =? 36) then mret (false, out)
          else
            match rest with
            | [] => mret (false, out)
            | d :: _ =>
                if negb (isdigit d) then mret (false, out)
                else
                  match sequence_length rest 0 with
                  | None => mret (false, out)
                  | Some (n, after) =>
                      let pos := (length raw - length after)%nat in
                      if negb (at_crlf raw pos) then mret (false, out)
                      else
                        let pos := (pos + 2)%nat in
                        let next := u64 (Z.of_nat pos + n) in
                        if len raw <? next then mret (false, out)
                        else
                          let item := take (Z.to_nat n) (drop pos raw) in
                          let pos := Z.to_nat next in
                          if negb (at_crlf raw pos) then mret (false, out ++ [item])
                          else bulk_sequence fuel raw (pos + 2)%nat (out ++ [item])
                  end
            end
      end
  end.

Definition parse_bulk_string_sequence (raw : list Z) : outcome (bool * list (list Z)) :=
  bulk_sequence (S (length raw)) raw 0 [].

(** [parse_simple_string]: the result and [out] ([None]: not assigned). *)
Definition parse_simple_string (raw : list Z) : bool * option (list Z) :=
  match skip_crlf raw with
  | [] => (false, None)
  | c :: rest =>
      if negb (c =? 43) then (false, None)
      else
        let n := to_CR rest in
        let out := take n rest in
        match drop (S n) rest with
        | x :: _ => if negb (x =? LF) then (false, Some out) else (true, Some out)
        | [] => (false, Some out)
        end
  end.

(** * Lemmas: the tokenizer on well-formed input *)
Definition cr_free (s : list Z) : Prop := Forall (fun c => c <> CR) s.

Lemma length_loop_digits ds rest v :
  Forall (fun c => isdigit c = true) ds ->
  length_loop (ds ++ CR :: rest) v = (true, (convert_positive_loop ds v).2, length ds).
Proof.
  revert v. induction ds as [|c ds IH]; intros v Hd; cbn [app length_loop convert_positive_loop].
  - by rewrite Z.eqb_refl.
  - apply Forall_cons in Hd as [Hc Hd]. rewrite Hc. apply isdigit_spec in Hc.
    destruct (Z.eqb_spec c CR); [unfold CR in *; lia|]. by rewrite IH.
Qed.

Lemma to_CR_free s rest : cr_free s -> to_CR (s ++ CR :: rest) = length s.
Proof.
  induction 1 as [|c s Hc _ IH]; cbn; [done|]. destruct (Z.eqb_spec c CR); [done|]. by rewrite IH.
Qed.

Lemma udec_value n : 0 <= n <= UINT64_MAX -> (convert_positive_loop (udec n) 0).2 = n.
Proof. intros Hn. pose proof (convert_positive_udec n Hn) as E. unfold convert_positive_string_to_number in E. by rewrite E. Qed.

Lemma to_string_nonneg n : 0 <= n -> to_string n = udec n.
Proof. intros. unfold to_string. by destruct (Z.ltb_spec n 0); [lia|]. Qed.

(** A length prefix at position [pos]. *)
Lemma calculate_length_at A n C :
  0 <= n <= UINT64_MAX ->
  calculate_length (A ++ to_string n ++ CRLF ++ C) (length A)
  = (true, n, (length A + length (to_string n ++ CRLF))%nat).
Proof.
  intros Hn. unfold calculate_length. rewrite drop_app_length.
  rewrite to_string_nonneg by lia. change (CRLF ++ C) with (CR :: LF :: C).
  rewrite length_loop_digits by (apply udec_digits; lia). rewrite udec_value by done.
  rewrite length_app. cbn [CRLF length]. f_equal. lia.
Qed.

(** A bulk string whose text has no ['\r'], at position [length A]. *)
Definition bulk_token (A s : list Z) : ParsedToken :=
  let start := (length A + 1 + length (to_string (len s) ++ CRLF))%nat in
  MkToken BULK_STRING start (start + length s - 1) (len s).

Lemma to_string_len_nonempty (s : list Z) : (2 < length (to_string (len s) ++ CRLF))%nat.
Proof.
  rewrite to_string_nonneg by apply len_nonneg.
  pose proof (udec_nonempty (len s) (len_nonneg s)) as Hne.
  destruct (udec (len s)); [done|]. rewrite length_app. cbn. lia.
Qed.

Lemma Parse_bulk A s C :
  cr_free s -> len s <= UINT64_MAX ->
  Parse (A ++ bulk s ++ C) (length A) = (bulk_token A s, length (A ++ bulk s)).
Proof.
  intros Hs Hl. unfold Parse, bulk. change (lit "$") with [36].
  cbn [app]. rewrite list_lookup_middle by done.
  pose proof (calculate_length_at (A ++ [36]) (len s) (s ++ CRLF ++ C)
    ltac:(pose proof (len_nonneg s); lia)) as HC.
  rewrite length_app in HC. cbn [length] in HC. rewrite Nat.add_1_r in HC.
  assert (E : (A ++ [36]) ++ to_string (len s) ++ CRLF ++ s ++ CRLF ++ C
              = A ++ 36 :: (to_string (len s) ++ CRLF ++ s ++ CRLF) ++ C)
    by (by rewrite <- !app_assoc).
  rewrite E in HC. rewrite HC.
  set (k := (S (length A) + length (to_string (len s) ++ CRLF))%nat).
  assert (Hd : drop k (A ++ 36 :: (to_string (len s) ++ CRLF ++ s ++ CRLF) ++ C) = s ++ CRLF ++ C).
  { rewrite <- E. rewrite app_assoc, app_assoc.
    replace k with (length (((A ++ [36]) ++ to_string (len s)) ++ CRLF))
      by (subst k; rewrite !length_app; cbn; lia).
    rewrite <- (app_assoc (_ ++ to_string (len s))). rewrite app_assoc. apply drop_app_length. }
  rewrite Hd. change (CRLF ++ C) with (CR :: LF :: C). rewrite to_CR_free by done.
  f_equal; [|subst k; rewrite !length_app; cbn [length]; rewrite !length_app; cbn; lia].
  unfold bulk_token. f_equal; subst k; lia.
Qed.

Lemma token_text_bulk A s C : token_text (A ++ bulk s ++ C) (bulk_token A s) = s.
Proof.
  unfold token_text, bulk_token. cbn [start_pos end_pos].
  pose proof (to_string_len_nonempty s).
  set (k := (length A + 1 + length (to_string (len s) ++ CRLF))%nat) in *.
  replace (k + length s - 1 + 1 - k)%nat with (length s) by lia.
  unfold bulk. change (lit "$") with [36].
  replace (A ++ ([36] ++ to_string (len s) ++ CRLF ++ s ++ CRLF) ++ C)
    with ((A ++ [36] ++ to_string (len s) ++ CRLF) ++ s ++ CRLF ++ C) by (by rewrite <- !app_assoc).
  replace k with (length (A ++ [36] ++ to_string (len s) ++ CRLF))
    by (subst k; rewrite !length_app; cbn; lia).
  by rewrite drop_app_length, take_app_length.
Qed.

Lemma Parse_array A n C :
  0 <= n <= UINT64_MAX ->
  Parse (A ++ lit "*" ++ to_string n ++ CRLF ++ C) (length A)
  = (MkToken ARRAY 0 0 n, length (A ++ lit "*" ++ to_string n ++ CRLF)).
Proof.
  intros Hn. unfold Parse. change (lit "*") with [42]. cbn [app].
  rewrite list_lookup_middle by done.
  pose proof (calculate_length_at (A ++ [42]) n C Hn) as HC.
  rewrite length_app in HC. cbn [length] in HC. rewrite Nat.add_1_r in HC.
  rewrite <- app_assoc in HC. cbn [app] in HC. rewrite HC. f_equal.
  rewrite !length_app. cbn [length]. rewrite length_app. lia.
Qed.

Lemma sequence_length_digits ds rest v :
  Forall (fun c => isdigit c = true) ds ->
  sequence_length (ds ++ CR :: rest) v = Some ((convert_positive_loop ds v).2, CR :: rest).
Proof.
  revert v. induction ds as [|c ds IH]; intros v Hd; cbn [app sequence_length convert_positive_loop].
  - by rewrite Z.eqb_refl.
  - apply Forall_cons in Hd as [Hc Hd]. rewrite Hc. apply isdigit_spec in Hc.
    destruct (Z.eqb_spec c CR); [unfold CR in *; lia|]. by rewrite IH.
Qed.

Lemma at_crlf_app A B C : B = CR :: LF :: C -> at_crlf (A ++ B) (length A) = true.
Proof.
  intros ->. unfold at_crlf. rewrite drop_app_length. by rewrite bool_decide_true.
Qed.

(** One iteration on a well-formed item. *)
Lemma bulk_sequence_step fuel A s C out :
  len (A ++ bulk s ++ C) < 2 ^ 63 ->
  bulk_sequence (S fuel) (A ++ bulk s ++ C) (length A) out =
  bulk_sequence fuel (A ++ bulk s ++ C) (length (A ++ bulk s)) (out ++ [s]).
Proof.
  intros Hl. pose proof (len_nonneg s) as Hs.
  assert (Hlen : len s < 2 ^ 63) by (unfold bulk in Hl; rewrite !len_app in Hl; len_lia).
  set (raw := A ++ bulk s ++ C) in *.
  set (P := A ++ [36] ++ to_string (len s)).
  assert (E1 : raw = P ++ CRLF ++ s ++ CRLF ++ C).
  { subst raw P. unfold bulk. change (lit "$") with [36]. by rewrite <- !app_assoc. }
  cbn [bulk_sequence].
  assert (Hd : drop (length A) raw = 36 :: to_string (len s) ++ CR :: LF :: s ++ CRLF ++ C).
  { subst raw. rewrite drop_app_length. unfold bulk. by rewrite <- !app_assoc. }
  rewrite Hd. cbn [skip_crlf]. change ((36 =? CR) || (36 =? LF)) with false. cbv iota.
  change (negb (36 =? 36)) with false. cbv iota. rewrite to_string_nonneg in * by done.
  pose proof (udec_digits (len s) Hs) as Hdig. pose proof (udec_nonempty (len s) Hs) as Hne.
  destruct (udec (len s)) as [|d ds] eqn:Eu; [done|]. cbn [app].
  rewrite (Forall_inv Hdig). cbn [negb].
  change (d :: ds ++ CR :: LF :: s ++ CRLF ++ C) with ((d :: ds) ++ CR :: LF :: s ++ CRLF ++ C).
  rewrite sequence_length_digits, <- Eu, udec_value by (done || (unfold UINT64_MAX; lia)).
  assert (Hpos : (length raw - length (CR :: LF :: s ++ CRLF ++ C))%nat = length P).
  { rewrite E1. rewrite length_app. change (CRLF ++ s ++ CRLF ++ C) with (CR :: LF :: s ++ CRLF ++ C). lia. }
  rewrite Hpos, E1, at_crlf_app with (C := s ++ CRLF ++ C) by done. cbn [negb].
  assert (Hlr : len raw = len P + 2 + len s + 2 + len C) by (rewrite E1; unfold CRLF; len_lia).
  assert (Hp2 : (length P + 2)%nat = length (P ++ CRLF)) by (rewrite length_app; done).
  rewrite <- E1, u64_id by (unfold len in *; lia).
  destruct (Z.ltb_spec (len raw) (Z.of_nat (length P + 2) + len s)); [unfold len in *; lia|].
  assert (Hnext : Z.to_nat (Z.of_nat (length P + 2) + len s) = length (P ++ CRLF ++ s)).
  { rewrite !length_app. unfold len, CRLF. cbn [length]. lia. }
  rewrite Hnext. rewrite E1 at 1.
  replace (P ++ CRLF ++ s ++ CRLF ++ C) with ((P ++ CRLF ++ s) ++ CRLF ++ C) by (by rewrite <- !app_assoc).
  rewrite at_crlf_app with (C := C) by done. cbn [negb].
  f_equal.
  - subst P. unfold bulk. rewrite to_string_nonneg, Eu by done.
    change (lit "$") with [36]. rewrite !length_app. cbn [length CRLF]. lia.
  - do 2 f_equal. rewrite Hp2, E1.
    replace (P ++ CRLF ++ s ++ CRLF ++ C) with ((P ++ CRLF) ++ s ++ CRLF ++ C) by (by rewrite <- !app_assoc).
    rewrite drop_app_length. unfold len. by rewrite Nat2Z.id, take_app_length.
Qed.

Lemma bulk_sequence_items items : forall fuel A out,
  (length items < fuel)%nat -> len (A ++ concat (map bulk items)) < 2 ^ 63 ->
  bulk_sequence fuel (A ++ concat (map bulk items)) (length A) out = Done (true, out ++ items).
Proof.
  induction items as [|s items IH]; intros fuel A out Hf Hl; (destruct fuel as [|fuel]; [cbn in Hf; lia|]).
  - cbn [map concat]. rewrite !app_nil_r. cbn [bulk_sequence].
    by rewrite drop_all.
  - cbn [map concat] in *. rewrite bulk_sequence_step by done.
    rewrite app_assoc in *. rewrite IH; [by rewrite <- app_assoc|cbn in Hf; lia|done].
Qed.

Lemma parse_items items :
  len (concat (map bulk items)) < 2 ^ 63 ->
  parse_bulk_string_sequence (concat (map bulk items)) = Done (true, items).
Proof.
  intros Hl. unfold parse_bulk_string_sequence.
  apply (bulk_sequence_items items (S (length (concat (map bulk items)))) [] []); [|done].
  clear Hl. induction items as [|s items IH]; cbn [map concat length]; [lia|].
  rewrite length_app. unfold bulk at 1. change (lit "$") with [36]. cbn [app length]. lia.
Qed.

(** * Properties *)

(** the reply parser inverts the encoder.  On the concatenation of bulk
    strings with arbitrary contents (line breaks and dollar signs included),
    [parse_bulk_string_sequence] returns exactly those contents in order. *)
Theorem bulk_sequence_roundtrip items :
  len (concat (map bulk items)) < 2 ^ 63 ->
  parse_bulk_string_sequence (concat (map bulk items)) = Done (true, items).
Proof. apply parse_items. Qed.

Lemma bulk_sequence_roundtrip_witness :
  parse_bulk_string_sequence (concat (map bulk [[13; 10; 36]; []; lit "PING"])) =
  Done (true, [[13; 10; 36]; []; lit "PING"]).
Proof. apply bulk_sequence_roundtrip. vm_compute. reflexivity. Defined.

(** C39: the tokenizer reads a bulk string back.  A bulk string without carriage
    return at any position of the buffer is one token whose text is that
    string, and the position ends just behind it; an array header yields its
    count. *)
Theorem Parse_roundtrip A s n C :
  cr_free s -> len s <= UINT64_MAX -> 0 <= n <= UINT64_MAX ->
  (let '(t, pos) := Parse (A ++ bulk s ++ C) (length A) in
   type t = BULK_STRING /\ length_ t = len s /\
   token_text (A ++ bulk s ++ C) t = s /\ pos = length (A ++ bulk s)) /\
  Parse (A ++ header n ++ C) (length A) = (MkToken ARRAY 0 0 n, length (A ++ header n)).
Proof.
  intros Hs Hl Hn. split.
  - rewrite Parse_bulk by done. split_and!; [done|done|apply token_text_bulk|done].
  - unfold header. rewrite <- !app_assoc. by apply Parse_array.
Qed.

Lemma Parse_roundtrip_witness :
  Parse (header 1 ++ bulk (lit "PING")) 0 = (MkToken ARRAY 0 0 1, 4%nat).
Proof.
  refine (proj2 (Parse_roundtrip [] (lit "PING") 1 (bulk (lit "PING")) _ _ _)).
  - repeat constructor; discriminate.
  - vm_compute. discriminate.
  - unfold UINT64_MAX. lia.
Defined.

(** the tokenizer ignores the announced length.  A bulk string whose text contains
    a carriage return is cut there, whatever its length says, and the rest of
    the text is left to be taken for further input. *)
Theorem Parse_truncates_at_CR A a b C :
  cr_free a -> len (a ++ CR :: b) <= UINT64_MAX ->
  let buf := A ++ bulk (a ++ CR :: b) ++ C in
  let '(t, pos) := Parse buf (length A) in
  type t = BULK_STRING /\ token_text buf t = a /\
  (pos + length b <= length (A ++ bulk (a ++ CR :: b)))%nat.
Proof.
  intros Ha Hl buf. unfold Parse. subst buf. set (s := a ++ CR :: b) in *. unfold bulk.
  change (lit "$") with [36]. cbn [app]. rewrite list_lookup_middle by done.
  pose proof (calculate_length_at (A ++ [36]) (len s) (s ++ CRLF ++ C)
    ltac:(pose proof (len_nonneg s); lia)) as HC.
  rewrite length_app in HC. cbn [length] in HC. rewrite Nat.add_1_r in HC.
  assert (E : (A ++ [36]) ++ to_string (len s) ++ CRLF ++ s ++ CRLF ++ C
              = A ++ 36 :: (to_string (len s) ++ CRLF ++ s ++ CRLF) ++ C)
    by (by rewrite <- !app_assoc).
  rewrite E in HC. rewrite HC, <- E.
  set (Q := (A ++ [36]) ++ to_string (len s) ++ CRLF).
  assert (EQ : (A ++ [36]) ++ to_string (len s) ++ CRLF ++ s ++ CRLF ++ C = Q ++ s ++ CRLF ++ C)
    by (subst Q; by rewrite <- !app_assoc).
  replace (S (length A) + length (to_string (len s) ++ CRLF))%nat with (length Q)
    by (subst Q; rewrite !length_app; cbn; lia).
  rewrite EQ, drop_app_length. subst s. rewrite <- app_assoc. cbn [app].
  rewrite to_CR_free by done. split_and!; [done| |].
  - unfold token_text. cbn [start_pos end_pos]. rewrite drop_app_length.
    pose proof (to_string_len_nonempty (a ++ CR :: b)) as H2.
    assert (0 < length Q)%nat by (subst Q; rewrite !length_app in *; lia).
    replace (length Q + length a - 1 + 1 - length Q)%nat with (length a) by lia.
    apply take_app_length.
  - subst Q. rewrite !length_app. cbn [length]. rewrite !length_app. cbn [length CRLF]. lia.
Qed.

Lemma Parse_truncates_at_CR_witness :
  token_text (bulk [97; 13; 98]) (fst (Parse (bulk [97; 13; 98]) 0)) = [97].
Proof.
  pose proof (Parse_truncates_at_CR [] [97] [98] []) as H. cbv zeta in H.
  specialize (H ltac:(repeat constructor; discriminate) ltac:(vm_compute; discriminate)).
  vm_compute in H. exact (proj1 (proj2 H)).
Defined.

(** A simple string at the head of the buffer, whatever follows. *)
Lemma parse_simple_line s rest : cr_free s -> parse_simple_string (lit "+" ++ s ++ CRLF ++ rest) = (true, Some s).
Proof.
  intros Hs. unfold parse_simple_string.
  change (lit "+" ++ s ++ CRLF ++ rest) with (43 :: s ++ CR :: LF :: rest).
  cbn [skip_crlf]. change ((43 =? CR) || (43 =? LF)) with false. cbv iota.
  change (negb (43 =? 43)) with false. cbv iota zeta. rewrite to_CR_free by done.
  replace (S (length s)) with (length (s ++ [CR])) by (rewrite length_app; cbn; lia).
  replace (drop (length (s ++ [CR])) (s ++ CR :: LF :: rest)) with (LF :: rest).
  - rewrite take_app_length. done.
  - change (CR :: LF :: rest) with ([CR] ++ LF :: rest). by rewrite app_assoc, drop_app_length.
Qed.

(** a simple string without carriage return is read back. *)
Theorem simple_string_roundtrip s :
  cr_free s -> parse_simple_string (encode_simple_string [] s) = (true, Some s).
Proof. intros Hs. by apply (parse_simple_line s []). Qed.

Lemma simple_string_roundtrip_witness :
  parse_simple_string (encode_simple_string [] (lit "FULLRESYNC")) = (true, Some (lit "FULLRESYNC")).
Proof. apply simple_string_roundtrip. repeat constructor; discriminate. Defined.
