(* ===== verification/CommandParser.v ===== *)
(** [src/parser/command-parser.cpp]: from the read buffer to a command.  Each
    parser of a command class reads tokens from the fixed buffer and moves the
    position; [parseCommand] dispatches on the name and then removes what was
    read.  [std::stod] is a parameter, [None] being an exception. *)
From Stdlib Require Import SpecFloat.
From S2P Require Import Prelude Utils Command Parser Geohash.

(** * The parser monad: position in, position out *)
Definition P (A : Type) : Type := nat -> outcome (A * nat).

#[global] Instance P_ret : MRet P := fun A a pos => Done (a, pos).
#[global] Instance P_bind : MBind P :=
  fun A B f m pos => match m pos with Done (a, pos) => f a pos | Stuck => Stuck end.

Definition lift {A} (m : outcome A) : P A := fun pos => a ← m; mret (a, pos).

(** A parsed command: its key and its fields. *)
Definition parsed : Type := list Z * Args.
Definition unknown : parsed := ([], UnknowCommand).

(** [int - k]: no result on signed overflow. *)
Definition int_sub (t k : Z) : P Z := lift (if - 2 ^ 31 <=? t - k then mret (t - k) else Stuck).

Section Parsers.
Context (stod : list Z -> option spec_float) (read_buffer : list Z).

Definition token : P ParsedToken := fun pos => Done (Parse read_buffer pos).
Definition text (t : ParsedToken) : list Z := token_text read_buffer t.
Definition is_bulk (t : ParsedToken) : bool := bool_decide (Parser.type t = BULK_STRING).

(** Read one token; anything but a bulk string makes the command unknown. *)
Definition with_bulk (k : list Z -> P parsed) : P parsed :=
  t ← token; if is_bulk t then k (text t) else mret unknown.

(** [n] tokens, of which the bulk strings are collected. *)
Fixpoint values_loop (n : nat) : P (list (list Z)) :=
  match n with
  | O => mret []
  | S n =>
      t ← token;
      rest ← values_loop n;
      mret (if is_bulk t then text t :: rest else rest)
  end.

Definition parsePingCommand : P parsed := mret ([], PingCommand).

Definition parseEchoCommand : P parsed :=
  with_bulk (fun message => mret ([], EchoCommand message)).

(** The loop over the optional flags of SET; [total] arguments are left. *)
Fixpoint set_flags (total : nat) (ex px : option Z) : P (option Z * option Z) :=
  match total with
  | O => mret (ex, px)
  | S total' =>
      t ← token;
      if negb (is_bulk t) then mret (ex, px)
      else
        let flag := text t in
        match total' with
        | O => set_flags total' ex px
        | S total'' =>
            if is_equal flag (lit "EX") then
              t ← token;
              let ex := if is_bulk t then
                          match convert_positive_string_to_number (text t) with
                          | (true, ex_val) => Some ex_val
                          | (false, _) => ex
                          end
                        else ex in
              set_flags total'' ex px
            else if is_equal flag (lit "PX") then
              t ← token;
              let px := if is_bulk t then
                          match convert_positive_string_to_number (text t) with
                          | (true, px_val) => Some px_val
                          | (false, _) => px
                          end
                        else px in
              set_flags total'' ex px
            else set_flags total' ex px
        end
  end.

Definition parseSetCommand (total_commands : Z) : P parsed :=
  with_bulk (fun key => with_bulk (fun value =>
    total_commands ← int_sub total_commands 2;
    '(ex, px) ← set_flags (Z.to_nat total_commands) None None;
    mret (key, SetCommand value ex px))).

Definition parseGetCommand : P parsed := with_bulk (fun key => mret (key, GetCommand)).
Definition parseTypeCommand : P parsed := with_bulk (fun key => mret (key, TypeCommand)).
Definition parseIncrCommand : P parsed := with_bulk (fun key => mret (key, IncrCommand)).

Definition parseRpushCommand (total_commands : Z) : P parsed :=
  with_bulk (fun key =>
    total_commands ← int_sub total_commands 1;
    values ← values_loop (Z.to_nat total_commands);
    mret (key, RpushCommand values)).

Definition parseLpushCommand (total_commands : Z) : P parsed :=
  with_bulk (fun key =>
    total_commands ← int_sub total_commands 1;
    values ← values_loop (Z.to_nat total_commands);
    mret (key, LpushCommand values)).

Definition parseLrangeCommand : P parsed :=
  with_bulk (fun key => with_bulk (fun start_str => with_bulk (fun stop_str =>
    match convert_string_to_number start_str, convert_string_to_number stop_str with
    | Some start, Some stop => mret (key, LrangeCommand start stop)
    | _, _ => mret unknown
    end))).

Definition parseLlenCommand : P parsed := with_bulk (fun key => mret (key, LlenCommand)).

Definition parseLpopCommand (total_commands : Z) : P parsed :=
  with_bulk (fun key =>
    total_commands ← int_sub total_commands 1;
    if 0 <? total_commands then
      t ← token;
      mret (key, LpopCommand
        (if is_bulk t then
           match convert_positive_string_to_number (text t) with
           | (true, count_val) => Some (u32 count_val)
           | (false, _) => None
           end
         else None))
    else mret (key, LpopCommand None)).

(** [try { stod } catch (...) { 0.0 }]. *)
Definition stod_or_zero (s : list Z) : spec_float :=
  match stod s with Some f => f | None => S754_zero false end.

Definition parseBlpopCommand (total_commands : Z) : P parsed :=
  keys ← values_loop (Z.to_nat (total_commands - 1));
  if 0 <? total_commands then
    t ← token;
    mret ([], BlpopCommand keys (if is_bulk t then stod_or_zero (text t) else S754_zero false))
  else mret ([], BlpopCommand keys (S754_zero false)).

(** [n] pairs of tokens; a pair is kept when both are bulk strings. *)
Fixpoint pairs_loop (n : nat) : P (list (list Z * list Z)) :=
  match n with
  | O => mret []
  | S n =>
      f ← token;
      v ← token;
      rest ← pairs_loop n;
      mret (if is_bulk f && is_bulk v then (text f, text v) :: rest else rest)
  end.

Definition parseXaddCommand (total_commands : Z) : P parsed :=
  with_bulk (fun key => with_bulk (fun id =>
    total_commands ← int_sub total_commands 2;
    field_values ← pairs_loop (Z.to_nat (total_commands / 2));
    mret (key, XaddCommand id field_values))).

Definition parseXrangeCommand : P parsed :=
  with_bulk (fun key => with_bulk (fun start => with_bulk (fun end_ =>
    mret (key, XrangeCommand start end_)))).

(** Keys and IDs, split evenly. *)
Definition parse_streams (total_commands : Z) (block : option spec_float) : P parsed :=
  if negb (Z.rem total_commands 2 =? 0) then mret unknown
  else
    let num_streams := Z.to_nat (Z.quot total_commands 2) in
    keys ← values_loop num_streams;
    ids ← values_loop num_streams;
    mret ([], XreadCommand block keys ids).

Definition parseXreadCommand (total_commands : Z) : P parsed :=
  with_bulk (fun first_arg =>
    if is_equal first_arg (lit "BLOCK") then
      t ← token;
      let block := if is_bulk t then Some (stod_or_zero (text t)) else None in
      total_commands ← int_sub total_commands 2;
      streams_token ← token;
      total_commands ← int_sub total_commands 1;
      parse_streams total_commands block
    else if is_equal first_arg (lit "STREAMS") then
      total_commands ← int_sub total_commands 1;
      parse_streams total_commands None
    else mret unknown).

Definition parseMultiCommand : P parsed := mret ([], MultiCommand).
Definition parseExecCommand : P parsed := mret ([], ExecCommand).
Definition parseDiscardCommand : P parsed := mret ([], DiscardCommand).

Definition parseInfoCommand : P parsed :=
  with_bulk (fun info_section => mret ([], InfoCommand (is_equal info_section (lit "replication")))).

(** [listening_port = portInNumber] assigns one [char] to the string. *)
Definition parseReplConfCommand : P parsed :=
  with_bulk (fun confType =>
    if is_equal confType (lit "listening-port") then
      t ← token;
      let listening_port := match convert_positive_string_to_number (text t) with
                            | (true, portInNumber) => [u8 portInNumber]
                            | (false, _) => []
                            end in
      mret ([], ReplConfCommand LISTENING_PORT listening_port [] 0)
    else if is_equal confType (lit "capa") then
      t ← token;
      mret ([], ReplConfCommand CAPA [] (text t) 0)
    else if is_equal confType (lit "GETACK") then
      t ← token;
      mret ([], ReplConfCommand GETACK [] [] 0)
    else if is_equal confType (lit "ACK") then
      t ← token;
      let ack_offset := match convert_positive_string_to_number (text t) with
                        | (true, offset_val) => i64 offset_val
                        | (false, _) => 0
                        end in
      mret ([], ReplConfCommand ACK [] [] ack_offset)
    else mret ([], ReplConfCommand LISTENING_PORT [] [] 0)).

Definition parsePsyncCommand (total_commands : Z) : P parsed :=
  with_bulk (fun repl_id =>
    if 1 <? total_commands then
      with_bulk (fun offset_str =>
        let offset :=
          if bool_decide (offset_str = lit "-1") then -1
          else match convert_positive_string_to_number offset_str with
               | (true, temp_offset) => i64 temp_offset
               | (false, _) => -1
               end in
        mret ([], PsyncCommand repl_id offset))
    else mret ([], PsyncCommand repl_id 0)).

(** The number is stored even when the conversion fails. *)
Definition parseWaitCommand : P parsed :=
  with_bulk (fun num_replica =>
    t ← token;
    mret ([], WaitCommand (convert_positive_string_to_number num_replica).2
                (convert_positive_string_to_number (text t)).2)).

(** [while (total_commands > 0)]: [None] when a token is no bulk string. *)
Fixpoint parameters_loop (n : nat) : P (option (list (list Z))) :=
  match n with
  | O => mret (Some [])
  | S n =>
      t ← token;
      if negb (is_bulk t) then mret None
      else
        rest ← parameters_loop n;
        mret (match rest with Some ps => Some (text t :: ps) | None => None end)
  end.

Definition parseGetConfigCommand (total_commands : Z) : P parsed :=
  with_bulk (fun commandType =>
    if negb (is_equal commandType (lit "GET")) then mret unknown
    else
      total_commands ← int_sub total_commands 1;
      ps ← parameters_loop (Z.to_nat total_commands);
      mret (match ps with
            | Some parameters => ([], GetConfigCommand parameters)
            | None => unknown
            end)).

Definition parseKeysCommand : P parsed := with_bulk (fun pattern => mret ([], KeysCommand pattern)).

Definition parseSubScribeCommand : P parsed :=
  with_bulk (fun channel => mret ([], SubscribeCommand channel)).

Definition parsePublishCommand : P parsed :=
  with_bulk (fun channel => with_bulk (fun message => mret ([], PublishCommand channel message))).

Definition parseUnsubscribeCommand : P parsed :=
  with_bulk (fun channel => mret ([], UnSubscribeCommand channel)).

(** At most [n] score/member pairs, up to the first that is no bulk string. *)
Fixpoint scores_loop (n : nat) : P (list (spec_float * list Z)) :=
  match n with
  | O => mret []
  | S n =>
      s ← token;
      m ← token;
      if negb (is_bulk s) || negb (is_bulk m) then mret []
      else
        rest ← scores_loop n;
        mret ((stod_or_zero (text s), text m) :: rest)
  end.

Definition parseZaddCommand (total_commands : Z) : P parsed :=
  with_bulk (fun key =>
    total_commands ← int_sub total_commands 1;
    score_members ← scores_loop (Z.to_nat (total_commands / 2));
    mret (key, ZaddCommand score_members)).

Definition parseZrankCommand : P parsed :=
  with_bulk (fun key => with_bulk (fun member => mret (key, ZrankCommand member))).

Definition parseZrangeCommand : P parsed :=
  with_bulk (fun key => with_bulk (fun start_str => with_bulk (fun stop_str =>
    match convert_string_to_number start_str, convert_string_to_number stop_str with
    | Some start, Some stop => mret (key, ZrangeCommand start stop)
    | _, _ => mret unknown
    end))).

Definition parseZcardCommand : P parsed := with_bulk (fun key => mret (key, ZcardCommand)).

Definition parseZscoreCommand : P parsed :=
  with_bulk (fun key => with_bulk (fun member => mret (key, ZscoreCommand member))).

Definition parseZremCommand (total_commands : Z) : P parsed :=
  with_bulk (fun key =>
    total_commands ← int_sub total_commands 1;
    members ← values_loop (Z.to_nat total_commands);
    mret (key, ZremCommand members)).

Definition minAllowedLat : spec_float := S754_finite true 5984941123141376 (-46).
Definition maxAllowedLat : spec_float := S754_finite false 5984941123141376 (-46).
Definition minAllowedLon : spec_float := S754_finite true 6333186975989760 (-45).
Definition maxAllowedLon : spec_float := S754_finite false 6333186975989760 (-45).

Definition geoAddHash : GeoHash :=
  MkGeoHash (MkRange minAllowedLat maxAllowedLat) (MkRange minAllowedLon maxAllowedLon).

(** The fields of GEOADD, overwritten by each triple. *)
Record geo_fields := MkGeo {
  g_lon : spec_float; g_lat : spec_float; g_score : spec_float; g_member : list Z; g_invalid : bool
}.

Fixpoint geoadd_loop (n : nat) (g : geo_fields) : P geo_fields :=
  match n with
  | O => mret g
  | S n =>
      lon ← token;
      lat ← token;
      member ← token;
      if negb (is_bulk lon) || negb (is_bulk lat) || negb (is_bulk member) then mret g
      else
        let '(longitude, invalid) :=
          match stod (text lon) with Some f => (f, g_invalid g) | None => (g_lon g, true) end in
        let '(latitude, invalid) :=
          match stod (text lat) with Some f => (f, invalid) | None => (g_lat g, true) end in
        let invalid :=
          if negb invalid &&
             (SFltb longitude minAllowedLon || SFltb maxAllowedLon longitude
              || SFltb latitude minAllowedLat || SFltb maxAllowedLat latitude)
          then true else invalid in
        score ← (if negb invalid then
                   h ← lift (geoHashEncode geoAddHash longitude latitude 26);
                   mret (of_int (match h with Some h => bits h | None => 0 end))
                 else mret (g_score g));
        geoadd_loop n (MkGeo longitude latitude score (text member) invalid)
  end.

Definition parseGeoAddCommand (total_commands : Z) : P parsed :=
  with_bulk (fun key =>
    total_commands ← int_sub total_commands 1;
    g ← geoadd_loop (Z.to_nat (total_commands / 3))
          (MkGeo (S754_zero false) (S754_zero false) (S754_zero false) [] false);
    mret (key, GeoAddCommand (g_lon g) (g_lat g) (g_score g) (g_member g) (g_invalid g))).

Definition parseGeoPosCommand (total_commands : Z) : P parsed :=
  with_bulk (fun key =>
    total_commands ← int_sub total_commands 1;
    members ← values_loop (Z.to_nat total_commands);
    mret (key, GeoPosCommand members)).

Definition parseGeoDistCommand : P parsed :=
  with_bulk (fun key => with_bulk (fun member1 => with_bulk (fun member2 =>
    mret (key, GeoDistCommand member1 member2)))).

Definition parseGeoSearchCommand : P parsed :=
  with_bulk (fun key => with_bulk (fun _ => with_bulk (fun lon => with_bulk (fun lat =>
    with_bulk (fun _ => with_bulk (fun radius =>
      unit ← token;
      mret (match stod lon, stod lat, stod radius with
            | Some longitude, Some latitude, Some radius =>
                (key, GeoSearchCommand longitude latitude radius)
            | _, _, _ => unknown
            end))))))).

(** The arguments of ACL SETUSER after the name. *)
Fixpoint setuser_loop (n : nat) (password : option (list Z)) (flags : list (list Z))
  : P (option (list Z) * list (list Z)) :=
  match n with
  | O => mret (password, flags)
  | S n =>
      t ← token;
      if negb (is_bulk t) then mret (password, flags)
      else
        match text t with
        | 62 :: pw | 43 :: pw | 126 :: pw => setuser_loop n (Some pw) flags
        | arg => setuser_loop n password (flags ++ [arg])
        end
  end.

Definition parseACLCommand (total_commands : Z) : P parsed :=
  if total_commands <? 1 then mret unknown
  else
    with_bulk (fun cmd_name =>
      if is_equal cmd_name (lit "WHOAMI") then mret ([], ACLWhoamiCommand)
      else if is_equal cmd_name (lit "GETUSER") then
        let total_commands := total_commands - 1 in
        if 1 <? total_commands then mret unknown
        else if total_commands =? 1 then
          with_bulk (fun username => mret ([], ACLGetUserCommand username))
        else mret ([], ACLGetUserCommand [])
      else if is_equal cmd_name (lit "SETUSER") then
        let total_commands := total_commands - 1 in
        if total_commands <? 1 then mret unknown
        else
          with_bulk (fun username =>
            '(password, flags) ← setuser_loop (Z.to_nat (total_commands - 1)) None [];
            mret ([], ACLSetUserCommand username password flags))
      else mret unknown).

Definition parseAuthCommand : P parsed :=
  with_bulk (fun username => with_bulk (fun password => mret ([], AuthCommand username password))).

(** The dispatch of [parseCommand]; [None] is a name no branch knows. *)
Definition parse_named (cmd_name : list Z) (total_commands : Z) : option (P parsed) :=
  let named s := is_equal cmd_name (lit s) in
  let n := i32 (u64 (total_commands - 1)) in
  if named "PING"%string then Some parsePingCommand
  else if named "ECHO"%string then Some parseEchoCommand
  else if named "SET"%string then Some (parseSetCommand n)
  else if named "GET"%string then Some parseGetCommand
  else if named "TYPE"%string then Some parseTypeCommand
  else if named "INCR"%string then Some parseIncrCommand
  else if named "RPUSH"%string then Some (parseRpushCommand n)
  else if named "LPUSH"%string then Some (parseLpushCommand n)
  else if named "LRANGE"%string then Some parseLrangeCommand
  else if named "LLEN"%string then Some parseLlenCommand
  else if named "LPOP"%string then Some (parseLpopCommand n)
  else if named "BLPOP"%string then Some (parseBlpopCommand n)
  else if named "XADD"%string then Some (parseXaddCommand n)
  else if named "XRANGE"%string then Some parseXrangeCommand
  else if named "XREAD"%string then Some (parseXreadCommand n)
  else if named "MULTI"%string then Some parseMultiCommand
  else if named "EXEC"%string then Some parseExecCommand
  else if named "DISCARD"%string then Some parseDiscardCommand
  else if named "INFO"%string then Some parseInfoCommand
  else if named "REPLCONF"%string then Some parseReplConfCommand
  else if named "PSYNC"%string then Some (parsePsyncCommand n)
  else if named "WAIT"%string then Some parseWaitCommand
  else if named "CONFIG"%string then Some (parseGetConfigCommand n)
  else if named "KEYS"%string then Some parseKeysCommand
  else if named "SUBSCRIBE"%string then Some parseSubScribeCommand
  else if named "PUBLISH"%string then Some parsePublishCommand
  else if named "UNSUBSCRIBE"%string then Some parseUnsubscribeCommand
  else if named "ZADD"%string then Some (parseZaddCommand n)
  else if named "ZRANK"%string then Some parseZrankCommand
  else if named "ZRANGE"%string then Some parseZrangeCommand
  else if named "ZCARD"%string then Some parseZcardCommand
  else if named "ZSCORE"%string then Some parseZscoreCommand
  else if named "ZREM"%string then Some (parseZremCommand n)
  else if named "GEOADD"%string then Some (parseGeoAddCommand n)
  else if named "GEOPOS"%string then Some (parseGeoPosCommand n)
  else if named "GEODIST"%string then Some parseGeoDistCommand
  else if named "GEOSEARCH"%string then Some parseGeoSearchCommand
  else if named "ACL"%string then Some (parseACLCommand n)
  else if named "AUTH"%string then Some parseAuthCommand
  else None.
End Parsers.

(** The part of [ClientContext] that parsing uses. *)
Record ReadState := MkRead {
  read_buffer : list Z;
  current_read_position : nat;
  command_bytes : Z
}.

(** [parseCommand].  The recursive call happens after at least one byte was
    erased from the buffer, so a fuel above its length is enough. *)
Fixpoint parseCommand_loop (stod : list Z -> option spec_float) (fuel : nat) (c : ReadState)
  : outcome (Command * ReadState) :=
  match fuel with
  | O => Stuck
  | S fuel =>
      let start_position := current_read_position c in
      let buffer := read_buffer c in
      let '(t, pos) := Parse buffer start_position in
      match Parser.type t with
      | UNKNOWN =>
          mret (MkCommand [] 0 UnknowCommand, MkRead buffer pos (command_bytes c))
      | BULK_STRING =>
          parseCommand_loop stod fuel (MkRead (drop (end_pos t + 1) buffer) 0 (command_bytes c))
      | ARRAY =>
          let total_commands := length_ t in
          let '(t, pos) := Parse buffer pos in
          match parse_named stod buffer (token_text buffer t) total_commands with
          | Some parse =>
              '((key, args), pos) ← parse pos;
              let bytes_parsed := Z.of_nat pos - Z.of_nat start_position in
              mret (MkCommand key bytes_parsed args,
                    MkRead (drop (pos - start_position) buffer) 0 bytes_parsed)
          | None =>
              let bytes_parsed := Z.of_nat pos - Z.of_nat start_position in
              mret (MkCommand [] bytes_parsed UnknowCommand, MkRead [] 0 bytes_parsed)
          end
      end
  end.

Definition parseCommand (stod : list Z -> option spec_float) (c : ReadState)
  : outcome (Command * ReadState) :=
  parseCommand_loop stod (S (length (read_buffer c))) c.

(** * Lemmas: reading well-formed input *)

(** A text the tokenizer reads back. *)
Definition plain (s : list Z) : Prop := cr_free s /\ len s <= UINT64_MAX.

(** [X] is what is unread at position [pos]. *)
Definition unread (buf : list Z) (pos : nat) (X : list Z) : Prop :=
  (pos <= length buf)%nat /\ drop pos buf = X.

Lemma unread_app A X : unread (A ++ X) (length A) X.
Proof. split; [rewrite length_app; lia|apply drop_app_length]. Qed.

Lemma unread_split buf pos X :
  unread buf pos X -> exists A, buf = A ++ X /\ pos = length A.
Proof.
  intros [Hl <-]. exists (take pos buf). rewrite take_drop. split; [done|].
  rewrite length_take. lia.
Qed.

Lemma unread_skip buf pos X Y : unread buf pos (X ++ Y) -> unread buf (pos + length X) Y.
Proof.
  intros (A & -> & ->)%unread_split. rewrite app_assoc, <- length_app. apply unread_app.
Qed.

Lemma plain_digits n : 0 <= n <= UINT64_MAX -> plain (to_string n).
Proof.
  intros Hn. rewrite to_string_nonneg by lia. split.
  - eapply Forall_impl; [apply udec_digits; lia|]. intros c Hc%isdigit_spec. unfold CR. lia.
  - pose proof (udec_length n 20). unfold UINT64_MAX in *. lia.
Qed.

Lemma plain_to_string n : is_i64 n -> plain (to_string n).
Proof.
  intros Hn. unfold is_i64, INT64_MIN, INT64_MAX in *. destruct (Z.ltb_spec n 0).
  - unfold to_string. destruct (Z.ltb_spec n 0); [|lia].
    destruct (plain_digits (- n)) as [H1 H2]; [unfold UINT64_MAX; lia|].
    rewrite to_string_nonneg in * by lia. split.
    + constructor; [unfold CR; lia|done].
    + change ([45] ++ udec (- n)) with (45 :: udec (- n)).
      pose proof (udec_length (- n) 20). rewrite len_cons. unfold UINT64_MAX in *. lia.
  - apply plain_digits. unfold UINT64_MAX. lia.
Qed.

Lemma token_at buf pos s C :
  plain s -> unread buf pos (bulk s ++ C) ->
  exists t, token buf pos = Done (t, (pos + length (bulk s))%nat) /\ is_bulk t = true /\
    text buf t = s.
Proof.
  intros [H1 H2] (A & -> & ->)%unread_split. exists (bulk_token A s).
  unfold token, is_bulk, text. rewrite Parse_bulk, length_app by done.
  split_and!; [done|done|apply token_text_bulk].
Qed.

Lemma with_bulk_at buf pos s C k :
  plain s -> unread buf pos (bulk s ++ C) ->
  with_bulk buf k pos = k s (pos + length (bulk s))%nat.
Proof.
  intros Hs Hu. destruct (token_at _ _ _ _ Hs Hu) as (t & Ht & Hb & Hx).
  unfold with_bulk, mbind, P_bind. by rewrite Ht, Hb, Hx.
Qed.

Lemma values_loop_at buf C vs : forall pos,
  Forall plain vs -> unread buf pos (concat (map bulk vs) ++ C) ->
  values_loop buf (length vs) pos = Done (vs, (pos + length (concat (map bulk vs)))%nat).
Proof.
  induction vs as [|v vs IH]; intros pos Hvs Hu; cbn [length values_loop map concat].
  - by rewrite Nat.add_0_r.
  - apply Forall_cons in Hvs as [Hv Hvs]. cbn [map concat] in Hu. rewrite <- app_assoc in Hu.
    destruct (token_at _ _ _ _ Hv Hu) as (t & Ht & Hb & Hx).
    unfold mbind, P_bind. rewrite Ht. rewrite (IH _ Hvs (unread_skip _ _ _ _ Hu)), Hb, Hx.
    unfold mret, P_ret. rewrite length_app. do 2 f_equal. lia.
Qed.

Lemma pairs_loop_at buf C fvs : forall pos,
  Forall (fun fv => plain fv.1 /\ plain fv.2) fvs ->
  unread buf pos (concat (map (fun fv => bulk fv.1 ++ bulk fv.2) fvs) ++ C) ->
  pairs_loop buf (length fvs) pos
  = Done (fvs, (pos + length (concat (map (fun fv => bulk fv.1 ++ bulk fv.2) fvs)))%nat).
Proof.
  induction fvs as [|[f v] fvs IH]; intros pos Hvs Hu; cbn [length pairs_loop map concat fst snd] in *.
  - by rewrite Nat.add_0_r.
  - apply Forall_cons in Hvs as [[Hf Hv] Hvs]. cbn [fst snd] in *. rewrite <- !app_assoc in Hu.
    destruct (token_at _ _ _ _ Hf Hu) as (t & Ht & Hb & Hx). apply unread_skip in Hu.
    destruct (token_at _ _ _ _ Hv Hu) as (t2 & Ht2 & Hb2 & Hx2). apply unread_skip in Hu.
    unfold mbind, P_bind. rewrite Ht, Ht2, (IH _ Hvs Hu), Hb, Hx, Hb2, Hx2.
    unfold mret, P_ret. rewrite !length_app. do 2 f_equal. lia.
Qed.

Lemma scores_loop_at stod dts buf C sms : forall pos,
  Forall (fun sm => plain (dts sm.1) /\ stod (dts sm.1) = Some sm.1 /\ plain sm.2) sms ->
  unread buf pos (concat (map (fun sm => bulk (dts sm.1) ++ bulk sm.2) sms) ++ C) ->
  scores_loop stod buf (length sms) pos
  = Done (sms, (pos + length (concat (map (fun sm => bulk (dts sm.1) ++ bulk sm.2) sms)))%nat).
Proof.
  induction sms as [|[s m] sms IH]; intros pos Hvs Hu; cbn [length scores_loop map concat fst snd] in *.
  - by rewrite Nat.add_0_r.
  - apply Forall_cons in Hvs as [(Hf & Hd & Hv) Hvs]. cbn [fst snd] in *. rewrite <- !app_assoc in Hu.
    destruct (token_at _ _ _ _ Hf Hu) as (t & Ht & Hb & Hx). apply unread_skip in Hu.
    destruct (token_at _ _ _ _ Hv Hu) as (t2 & Ht2 & Hb2 & Hx2). apply unread_skip in Hu.
    unfold mbind, P_bind. rewrite Ht, Ht2, Hb, Hb2. cbn [negb orb].
    rewrite (IH _ Hvs Hu), Hx, Hx2. unfold stod_or_zero. rewrite Hd.
    unfold mret, P_ret. rewrite !length_app. do 2 f_equal. lia.
Qed.

Lemma int_sub_ok t k pos : - 2 ^ 31 <= t - k -> int_sub t k pos = Done (t - k, pos).
Proof. intros H. unfold int_sub, lift. by destruct (Z.leb_spec (- 2 ^ 31) (t - k)); [|lia]. Qed.

Lemma count_arg n : 1 <= n < 2 ^ 31 -> i32 (u64 (n - 1)) = n - 1.
Proof. intros. rewrite u64_id, i32_id; lia. Qed.

(** A command whose parser reads the text behind its name. *)
Lemma parseCommand_array stod n name body rest b parse k a :
  1 <= n < 2 ^ 31 -> plain name ->
  (forall buf pos, unread buf pos (body ++ rest) ->
     parse_named stod buf name n = Some (parse buf) /\
     parse buf pos = Done ((k, a), (pos + length body)%nat)) ->
  let cmd := header n ++ bulk name ++ body in
  parseCommand stod (MkRead (cmd ++ rest) 0 b)
  = Done (MkCommand k (len cmd) a, MkRead rest 0 (len cmd)).
Proof.
  intros Hn Hname Hparse cmd. unfold parseCommand. cbn [read_buffer parseCommand_loop].
  cbn [current_read_position command_bytes].
  set (buf := cmd ++ rest).
  assert (E1 : buf = [] ++ lit "*" ++ to_string n ++ CRLF ++ bulk name ++ body ++ rest).
  { subst buf cmd. unfold header. by rewrite <- !app_assoc. }
  assert (E2 : buf = header n ++ bulk name ++ body ++ rest).
  { subst buf cmd. by rewrite <- !app_assoc. }
  replace (Parse buf 0) with (MkToken ARRAY 0 0 n, length (header n)).
  2:{ rewrite E1 at 1. symmetry. apply (Parse_array []). unfold UINT64_MAX. lia. }
  cbn [Parser.type length_].
  replace (Parse buf (length (header n)))
    with (bulk_token (header n) name, length (header n ++ bulk name)).
  2:{ rewrite E2. symmetry. apply Parse_bulk; apply Hname. }
  rewrite E2 at 2. rewrite token_text_bulk.
  assert (Hu : unread buf (length (header n ++ bulk name)) (body ++ rest)).
  { rewrite E2, app_assoc. apply unread_app. }
  destruct (Hparse buf _ Hu) as [Hp Hr]. rewrite Hp, Hr. unfold mbind, outcome_bind, mret, outcome_ret.
  assert (El : (length (header n ++ bulk name) + length body)%nat = length cmd).
  { subst cmd. rewrite !length_app. lia. }
  rewrite El, Nat.sub_0_r. subst buf. rewrite drop_app_length.
  rewrite Z.sub_0_r. done.
Qed.

(** * Lemmas: each class of command is read back *)
Section RoundTrip.
Context (stod : list Z -> option spec_float) (dts : spec_float -> list Z).

(** The float is printed in a form that is read back. *)
Definition faithful (f : spec_float) : Prop := plain (dts f) /\ stod (dts f) = Some f.

(** [n] arguments fit the parser's [int]. *)
Definition fits (n : Z) : Prop := n < 2 ^ 31.

Definition u64_arg (o : option Z) : Prop := match o with Some v => 0 <= v <= UINT64_MAX | None => True end.

(** The commands whose text determines them: no carriage return in a string,
    numbers in the range of their fields, default values in unused fields. *)
Definition sendable (c : Command) : Prop :=
  match args c with
  | PingCommand | MultiCommand | ExecCommand | DiscardCommand => key c = []
  | EchoCommand m => key c = [] /\ plain m
  | GetCommand | TypeCommand | IncrCommand | LlenCommand | ZcardCommand => plain (key c)
  | SetCommand v ex px => plain (key c) /\ plain v /\ u64_arg ex /\ u64_arg px
  | RpushCommand vs | LpushCommand vs | ZremCommand vs =>
      plain (key c) /\ Forall plain vs /\ fits (2 + len vs)
  | LrangeCommand start stop | ZrangeCommand start stop =>
      plain (key c) /\ is_i64 start /\ is_i64 stop
  | LpopCommand count =>
      plain (key c) /\ match count with Some n => 0 <= n < 2 ^ 32 | None => True end
  | XaddCommand id fvs =>
      plain (key c) /\ plain id /\ Forall (fun fv => plain fv.1 /\ plain fv.2) fvs
      /\ fits (3 + len fvs * 2)
  | XrangeCommand start end_ => plain (key c) /\ plain start /\ plain end_
  | XreadCommand None keys ids =>
      key c = [] /\ Forall plain keys /\ Forall plain ids /\ length keys = length ids
      /\ fits (2 + len keys + len ids)
  | BlpopCommand keys timeout =>
      key c = [] /\ Forall plain keys /\ fits (1 + len keys + 1)
      /\ plain (to_string (double_to_int64 timeout))
      /\ stod (to_string (double_to_int64 timeout)) = Some timeout
  | InfoCommand r => key c = [] /\ r = true
  | ReplConfCommand sub port capa ack =>
      key c = [] /\ port = [] /\
      match sub with
      | LISTENING_PORT => False
      | CAPA => capa <> [] /\ plain capa /\ ack = 0
      | GETACK => capa = [] /\ ack = 0
      | ACK => capa = [] /\ 0 <= ack <= INT64_MAX
      end
  | PsyncCommand id off => key c = [] /\ plain id /\ - 1 <= off <= INT64_MAX
  | WaitCommand n t => key c = [] /\ 0 <= n <= UINT64_MAX /\ 0 <= t <= UINT64_MAX
  | ZaddCommand sms =>
      plain (key c) /\ Forall (fun sm => faithful sm.1 /\ plain sm.2) sms /\ fits (2 + len sms * 2)
  | ZrankCommand m | ZscoreCommand m => plain (key c) /\ plain m
  | GeoDistCommand m1 m2 => plain (key c) /\ plain m1 /\ plain m2
  | GeoAddCommand lon lat score member inv =>
      plain (key c) /\ faithful lon /\ faithful lat /\ plain member /\ inv = false /\
      SFltb lon minAllowedLon || SFltb maxAllowedLon lon
        || SFltb lat minAllowedLat || SFltb maxAllowedLat lat = false /\
      exists h, geoHashEncode geoAddHash lon lat 26 = Done (Some h) /\ score = of_int (bits h)
  | _ => False
  end.

(** Reading the text of a command, followed by anything, gives the command and
    leaves what follows. *)
Definition reads_back (c : Command) : Prop :=
  forall rest b,
    parseCommand stod (MkRead (to_resp dts c ++ rest) 0 b)
    = Done (MkCommand (key c) (len (to_resp dts c)) (args c),
            MkRead rest 0 (len (to_resp dts c))).
End RoundTrip.

Ltac plain :=
  match goal with
  | H : plain _ |- _ => exact H
  | |- plain (to_string _) =>
      first [ apply plain_digits; len_lia | apply plain_to_string; len_lia ]
  | |- plain _ => split; [repeat constructor; discriminate | vm_compute; discriminate]
  end.

(** Start on a command written as [header n ++ bulk name ++ body]. *)
Ltac command n name body :=
  intros rest b; cbn [to_resp args key];
  eapply (parseCommand_array _ n (lit name) body);
  [ unfold fits in *; len_lia | plain
  | intros buf pos Hu; split; [reflexivity|]; rewrite <- ?app_assoc in Hu;
    rewrite ?length_app, ?Nat.add_assoc ].

(** The next argument is a bulk string. *)
Ltac arg :=
  match goal with
  | H : unread ?buf ?pos (bulk ?s ++ _) |- context [with_bulk ?buf ?k ?pos] =>
      rewrite (with_bulk_at buf pos s _ k ltac:(plain) H); apply unread_skip in H
  end.

(** Decide the comparisons with keywords. *)
Ltac names :=
  repeat match goal with
  | |- context [is_equal (lit ?a) (lit ?b)] =>
      let r := eval vm_compute in (is_equal (lit a) (lit b)) in
      change (is_equal (lit a) (lit b)) with r; cbv iota
  end.

(** The next token, bound by a [bind] of the monad. *)
Ltac tok :=
  names; cbv beta;
  match goal with
  | H : unread ?buf ?pos (bulk ?s ++ _) |- context [token ?buf ?pos] =>
      let t := fresh "t" in let Ht := fresh "Ht" in let Hb := fresh "Hb" in let Hx := fresh "Hx" in
      destruct (token_at buf pos s _ ltac:(plain) H) as (t & Ht & Hb & Hx);
      apply unread_skip in H; rewrite Ht, ?Hb, ?Hx
  end.

Ltac unfold_P := unfold mbind, P_bind, mret, P_ret.

Section Classes.
Context (stod : list Z -> option spec_float) (dts : spec_float -> list Z).
Abbreviation reads_back := (reads_back stod dts).
Implicit Types (k : list Z) (x : Z).

Lemma read_ping x : reads_back (MkCommand [] x PingCommand).
Proof. command 1 "PING"%string (@nil Z). by rewrite Nat.add_0_r. Qed.
Lemma read_multi x : reads_back (MkCommand [] x MultiCommand).
Proof. command 1 "MULTI"%string (@nil Z). by rewrite Nat.add_0_r. Qed.
Lemma read_exec x : reads_back (MkCommand [] x ExecCommand).
Proof. command 1 "EXEC"%string (@nil Z). by rewrite Nat.add_0_r. Qed.
Lemma read_discard x : reads_back (MkCommand [] x DiscardCommand).
Proof. command 1 "DISCARD"%string (@nil Z). by rewrite Nat.add_0_r. Qed.

Lemma read_echo x m : plain m -> reads_back (MkCommand [] x (EchoCommand m)).
Proof. intros Hm. command 2 "ECHO"%string (bulk m). unfold parseEchoCommand. by arg. Qed.

Lemma read_get k x : plain k -> reads_back (MkCommand k x GetCommand).
Proof. intros Hk. command 2 "GET"%string (bulk k). unfold parseGetCommand. by arg. Qed.
Lemma read_type k x : plain k -> reads_back (MkCommand k x TypeCommand).
Proof. intros Hk. command 2 "TYPE"%string (bulk k). unfold parseTypeCommand. by arg. Qed.
Lemma read_incr k x : plain k -> reads_back (MkCommand k x IncrCommand).
Proof. intros Hk. command 2 "INCR"%string (bulk k). unfold parseIncrCommand. by arg. Qed.
Lemma read_llen k x : plain k -> reads_back (MkCommand k x LlenCommand).
Proof. intros Hk. command 2 "LLEN"%string (bulk k). unfold parseLlenCommand. by arg. Qed.
Lemma read_zcard k x : plain k -> reads_back (MkCommand k x ZcardCommand).
Proof. intros Hk. command 2 "ZCARD"%string (bulk k). unfold parseZcardCommand. by arg. Qed.

Lemma read_info x : reads_back (MkCommand [] x (InfoCommand true)).
Proof. command 2 "INFO"%string (bulk (lit "replication")). unfold parseInfoCommand. by arg. Qed.

Lemma read_zrank k x m : plain k -> plain m -> reads_back (MkCommand k x (ZrankCommand m)).
Proof. intros Hk Hm. command 3 "ZRANK"%string (bulk k ++ bulk m). unfold parseZrankCommand. by do 2 arg. Qed.
Lemma read_zscore k x m : plain k -> plain m -> reads_back (MkCommand k x (ZscoreCommand m)).
Proof. intros Hk Hm. command 3 "ZSCORE"%string (bulk k ++ bulk m). unfold parseZscoreCommand. by do 2 arg. Qed.

Lemma read_xrange k x s e : plain k -> plain s -> plain e -> reads_back (MkCommand k x (XrangeCommand s e)).
Proof.
  intros Hk Hs He. command 4 "XRANGE"%string (bulk k ++ bulk s ++ bulk e).
  unfold parseXrangeCommand. by do 3 arg.
Qed.

Lemma read_geodist k x s e : plain k -> plain s -> plain e -> reads_back (MkCommand k x (GeoDistCommand s e)).
Proof.
  intros Hk Hs He. command 4 "GEODIST"%string (bulk k ++ bulk s ++ bulk e).
  unfold parseGeoDistCommand. by do 3 arg.
Qed.

Lemma read_lrange k x s e : plain k -> is_i64 s -> is_i64 e -> reads_back (MkCommand k x (LrangeCommand s e)).
Proof.
  intros Hk Hs He. command 4 "LRANGE"%string (bulk k ++ bulk (to_string s) ++ bulk (to_string e)).
  unfold parseLrangeCommand. do 3 arg. by rewrite !convert_to_string.
Qed.

Lemma read_zrange k x s e : plain k -> is_i64 s -> is_i64 e -> reads_back (MkCommand k x (ZrangeCommand s e)).
Proof.
  intros Hk Hs He. command 4 "ZRANGE"%string (bulk k ++ bulk (to_string s) ++ bulk (to_string e)).
  unfold parseZrangeCommand. do 3 arg. by rewrite !convert_to_string.
Qed.

(** The keyword commands with a list of strings. *)
Lemma values_arg buf pos vs C n k a :
  Forall plain vs -> unread buf pos (concat (map bulk vs) ++ C) ->
  - 2 ^ 31 <= n - 1 -> n - 1 = len vs ->
  (total_commands ← int_sub n 1;
   values ← values_loop buf (Z.to_nat total_commands);
   mret (k, a values) : P parsed) pos
  = Done ((k, a vs), (pos + length (concat (map bulk vs)))%nat).
Proof.
  intros Hv Hu Hb Hn. unfold_P. rewrite int_sub_ok by done.
  rewrite Hn. unfold len. rewrite Nat2Z.id. by rewrite (values_loop_at _ _ _ _ Hv Hu).
Qed.

Lemma read_rpush k x vs :
  plain k -> Forall plain vs -> fits (2 + len vs) -> reads_back (MkCommand k x (RpushCommand vs)).
Proof.
  intros Hk Hv Hf. pose proof (len_nonneg vs).
  command (2 + len vs) "RPUSH"%string (bulk k ++ concat (map bulk vs)).
  unfold parseRpushCommand. arg. unfold fits in Hf. rewrite count_arg by lia.
  eapply values_arg; [done|done|lia|lia].
Qed.

Lemma read_lpush k x vs :
  plain k -> Forall plain vs -> fits (2 + len vs) -> reads_back (MkCommand k x (LpushCommand vs)).
Proof.
  intros Hk Hv Hf. pose proof (len_nonneg vs).
  command (2 + len vs) "LPUSH"%string (bulk k ++ concat (map bulk vs)).
  unfold parseLpushCommand. arg. unfold fits in Hf. rewrite count_arg by lia.
  eapply values_arg; [done|done|lia|lia].
Qed.

Lemma read_zrem k x vs :
  plain k -> Forall plain vs -> fits (2 + len vs) -> reads_back (MkCommand k x (ZremCommand vs)).
Proof.
  intros Hk Hv Hf. pose proof (len_nonneg vs).
  command (2 + len vs) "ZREM"%string (bulk k ++ concat (map bulk vs)).
  unfold parseZremCommand. arg. unfold fits in Hf. rewrite count_arg by lia.
  eapply values_arg; [done|done|lia|lia].
Qed.

Lemma read_xadd k x id fvs :
  plain k -> plain id -> Forall (fun fv => plain fv.1 /\ plain fv.2) fvs ->
  fits (3 + len fvs * 2) -> reads_back (MkCommand k x (XaddCommand id fvs)).
Proof.
  intros Hk Hi Hv Hf. pose proof (len_nonneg fvs).
  command (3 + len fvs * 2) "XADD"%string
    (bulk k ++ bulk id ++ concat (map (fun fv => bulk fv.1 ++ bulk fv.2) fvs)).
  unfold parseXaddCommand. do 2 arg. unfold fits in Hf. rewrite count_arg by lia.
  unfold_P. rewrite int_sub_ok by lia.
  replace ((3 + len fvs * 2 - 1 - 2) / 2) with (len fvs) by (apply Z.div_unique_exact; lia).
  unfold len. rewrite Nat2Z.id. by rewrite (pairs_loop_at _ _ _ _ Hv Hu).
Qed.

Lemma read_zadd k x sms :
  plain k -> Forall (fun sm => faithful stod dts sm.1 /\ plain sm.2) sms ->
  fits (2 + len sms * 2) -> reads_back (MkCommand k x (ZaddCommand sms)).
Proof.
  intros Hk Hv Hf. pose proof (len_nonneg sms).
  command (2 + len sms * 2) "ZADD"%string
    (bulk k ++ concat (map (fun sm => bulk (dts sm.1) ++ bulk sm.2) sms)).
  unfold parseZaddCommand. arg. unfold fits in Hf. rewrite count_arg by lia.
  unfold_P. rewrite int_sub_ok by lia.
  replace ((2 + len sms * 2 - 1 - 1) / 2) with (len sms) by (apply Z.div_unique_exact; lia).
  unfold len. rewrite Nat2Z.id. erewrite (scores_loop_at stod dts); [done| |exact Hu].
  eapply Forall_impl; [exact Hv|]. by intros sm [[? ?] ?].
Qed.

Lemma convert_positive_to_string n :
  0 <= n <= UINT64_MAX -> convert_positive_string_to_number (to_string n) = (true, n).
Proof. intros. rewrite to_string_nonneg by lia. by apply convert_positive_udec. Qed.

Lemma read_lpop k x n :
  plain k -> match n with Some n => 0 <= n < 2 ^ 32 | None => True end ->
  reads_back (MkCommand k x (LpopCommand n)).
Proof.
  intros Hk Hn. destruct n as [n|].
  - command 3 "LPOP"%string (bulk k ++ bulk (to_string n)).
    unfold parseLpopCommand. arg. change (i32 (u64 (3 - 1))) with 2. unfold_P.
    rewrite int_sub_ok by lia. change (0 <? 2 - 1) with true. cbv iota. tok.
    rewrite convert_positive_to_string by len_lia. by rewrite u32_id by lia.
  - command 2 "LPOP"%string (bulk k ++ []). unfold parseLpopCommand. arg.
    change (i32 (u64 (2 - 1))) with 1. unfold_P. rewrite int_sub_ok by lia. cbn. by rewrite Nat.add_0_r.
Qed.

Lemma read_wait x n t :
  0 <= n <= UINT64_MAX -> 0 <= t <= UINT64_MAX -> reads_back (MkCommand [] x (WaitCommand n t)).
Proof.
  intros Hn Ht. command 3 "WAIT"%string (bulk (to_string n) ++ bulk (to_string t)).
  unfold parseWaitCommand. arg. unfold_P. tok. by rewrite !convert_positive_to_string.
Qed.

Lemma read_psync x id off :
  plain id -> - 1 <= off <= INT64_MAX -> reads_back (MkCommand [] x (PsyncCommand id off)).
Proof.
  intros Hi Ho. command 3 "PSYNC"%string (bulk id ++ bulk (to_string off)).
  unfold parsePsyncCommand. arg. change (1 <? i32 (u64 (3 - 1))) with true. cbv iota. arg.
  destruct (decide (off = -1)) as [->|Hne]; [done|].
  rewrite bool_decide_false; [|].
  2:{ rewrite to_string_nonneg by lia. intros E.
      pose proof (udec_digits off ltac:(lia)) as Hd. rewrite E in Hd. by apply Forall_inv in Hd. }
  rewrite convert_positive_to_string by len_lia. rewrite i64_id by len_lia. done.
Qed.

Lemma read_replconf x sub capa ack :
  match sub with
  | LISTENING_PORT => False
  | CAPA => capa <> [] /\ plain capa /\ ack = 0
  | GETACK => capa = [] /\ ack = 0
  | ACK => capa = [] /\ 0 <= ack <= INT64_MAX
  end ->
  reads_back (MkCommand [] x (ReplConfCommand sub [] capa ack)).
Proof.
  destruct sub; [done| | |].
  - intros (Hne & Hc & ->). destruct capa as [|c0 capa]; [done|].
    command 3 "REPLCONF"%string (bulk (lit "capa") ++ bulk (c0 :: capa)).
    unfold parseReplConfCommand. arg. cbv iota zeta. unfold_P. by tok.
  - intros [-> ->]. command 3 "REPLCONF"%string (bulk (lit "GETACK") ++ bulk (lit "*")).
    unfold parseReplConfCommand. arg. unfold_P. by tok.
  - intros [-> Ha]. command 3 "REPLCONF"%string (bulk (lit "ACK") ++ bulk (to_string ack)).
    unfold parseReplConfCommand. arg. unfold_P. tok.
    rewrite convert_positive_to_string by len_lia. rewrite i64_id by len_lia. done.
Qed.

(** The optional flags of SET as printed. *)
Definition set_options (ex px : option Z) : list Z :=
  (match ex with Some e => bulk (lit "EX") ++ bulk (to_string e) | None => [] end)
  ++ (match px with Some p => bulk (lit "PX") ++ bulk (to_string p) | None => [] end).

Definition option_count (ex px : option Z) : nat :=
  ((if ex is Some _ then 2 else 0) + (if px is Some _ then 2 else 0))%nat.

Lemma set_flags_at buf ex px C pos :
  u64_arg ex -> u64_arg px -> unread buf pos (set_options ex px ++ C) ->
  set_flags buf (option_count ex px) None None pos
  = Done ((ex, px), (pos + length (set_options ex px))%nat).
Proof.
  intros He Hp Hu. unfold set_options in *. rewrite !length_app.
  destruct ex as [e|], px as [p|]; cbn [option_count Nat.add set_flags app u64_arg] in *;
    rewrite <- ?app_assoc in Hu; unfold_P; rewrite ?length_app, ?Nat.add_assoc, ?Nat.add_0_r;
    repeat (tok; cbn [negb]; names; rewrite ?convert_positive_to_string by done); done.
Qed.

Lemma read_set k x v ex px :
  plain k -> plain v -> u64_arg ex -> u64_arg px -> reads_back (MkCommand k x (SetCommand v ex px)).
Proof.
  intros Hk Hv He Hp.
  assert (Hn : exists n, (match px with Some _ => (match ex with Some _ => 3 + 2 | None => 3 end) + 2
                          | None => match ex with Some _ => 3 + 2 | None => 3 end end) = n
               /\ 3 <= n <= 7 /\ Z.to_nat (n - 1 - 2) = option_count ex px).
  { eexists. split; [done|]. destruct ex, px; split; done || lia. }
  destruct Hn as (n & En & Hb & Ec).
  intros rest b. cbn [to_resp args key]. unfold to_resp_Set. cbv zeta. rewrite En.
  fold (set_options ex px).
  apply (parseCommand_array _ n (lit "SET") (bulk k ++ bulk v ++ set_options ex px) rest b
           (fun buf => parseSetCommand buf (i32 (u64 (n - 1))))); [lia|plain|].
  intros buf pos Hu. split; [reflexivity|]. rewrite <- !app_assoc in Hu.
  rewrite !length_app, !Nat.add_assoc. rewrite count_arg by lia.
  unfold parseSetCommand. do 2 arg. unfold_P. rewrite int_sub_ok by lia. rewrite Ec.
  by rewrite (set_flags_at _ _ _ _ _ He Hp Hu).
Qed.

Lemma read_xread x ks ids :
  Forall plain ks -> Forall plain ids -> length ks = length ids ->
  fits (2 + len ks + len ids) -> reads_back (MkCommand [] x (XreadCommand None ks ids)).
Proof.
  intros Hk Hi Hl Hf. pose proof (len_nonneg ks). pose proof (len_nonneg ids). unfold fits in Hf.
  intros rest b. cbn [to_resp args key]. unfold to_resp_Xread. cbn [app].
  rewrite i32_id, Z.add_0_r by lia.
  eapply (parseCommand_array _ (2 + len ks + len ids) (lit "XREAD")
            (bulk (lit "STREAMS") ++ concat (map bulk ks) ++ concat (map bulk ids))); [lia|plain|].
  intros buf pos Hu. split; [reflexivity|]. rewrite <- !app_assoc in Hu.
  rewrite !length_app, !Nat.add_assoc. rewrite count_arg by lia.
  unfold parseXreadCommand. arg. names. unfold_P. rewrite int_sub_ok by lia.
  unfold parse_streams.
  replace (2 + len ks + len ids - 1 - 1) with (len ks * 2) by (unfold len in *; lia).
  rewrite Z.rem_mul, Z.quot_mul by lia. unfold len. rewrite Nat2Z.id. cbn [Z.eqb negb]. unfold_P.
  rewrite (values_loop_at _ _ _ _ Hk Hu). apply unread_skip in Hu.
  rewrite Hl. by rewrite (values_loop_at _ _ _ _ Hi Hu).
Qed.

Lemma read_blpop x ks t :
  Forall plain ks -> fits (1 + len ks + 1) -> plain (to_string (double_to_int64 t)) ->
  stod (to_string (double_to_int64 t)) = Some t -> reads_back (MkCommand [] x (BlpopCommand ks t)).
Proof.
  intros Hk Hf Ht Hs. pose proof (len_nonneg ks). unfold fits in Hf.
  command (1 + len ks + 1) "BLPOP"%string
    (concat (map bulk ks) ++ bulk (to_string (double_to_int64 t))).
  rewrite count_arg by lia. unfold parseBlpopCommand. unfold_P.
  replace (Z.to_nat (1 + len ks + 1 - 1 - 1)) with (length ks) by (unfold len; lia).
  rewrite (values_loop_at _ _ _ _ Hk Hu). apply unread_skip in Hu.
  destruct (Z.ltb_spec 0 (1 + len ks + 1 - 1)); [|lia].
  tok. unfold stod_or_zero. by rewrite Hs.
Qed.

Lemma read_geoadd k x lon lat score m h :
  plain k -> faithful stod dts lon -> faithful stod dts lat -> plain m ->
  SFltb lon minAllowedLon || SFltb maxAllowedLon lon
    || SFltb lat minAllowedLat || SFltb maxAllowedLat lat = false ->
  geoHashEncode geoAddHash lon lat 26 = Done (Some h) -> score = of_int (bits h) ->
  reads_back (MkCommand k x (GeoAddCommand lon lat score m false)).
Proof.
  intros Hk [Hlp Hls] [Hap Has] Hm Hr He ->.
  command 5 "GEOADD"%string (bulk k ++ bulk (dts lon) ++ bulk (dts lat) ++ bulk m).
  unfold parseGeoAddCommand. arg. change (i32 (u64 (5 - 1))) with 4. unfold_P.
  rewrite int_sub_ok by lia. change (Z.to_nat ((4 - 1) / 3)) with 1%nat. cbn [geoadd_loop]. unfold_P.
  do 3 tok. cbn [negb orb g_invalid g_lon g_lat g_score]. rewrite Hls, Has. cbn [negb andb].
  rewrite Hr. cbn [negb]. unfold lift. rewrite He. done.
Qed.
End Classes.

Lemma sendable_reads_back stod dts c : sendable stod dts c -> reads_back stod dts c.
Proof.
  destruct c as [k x a]; destruct a; unfold sendable; cbn [args key]; intros H;
    try match goal with o : option spec_float |- _ => destruct o; [done|] end;
    repeat match goal with H : _ /\ _ |- _ => destruct H | H : ex _ |- _ => destruct H end;
    first [done | subst].
  all: eauto using read_ping, read_multi, read_exec, read_discard, read_echo, read_get, read_type,
    read_incr, read_llen, read_zcard, read_info, read_zrank, read_zscore, read_xrange,
    read_geodist, read_lrange, read_zrange, read_rpush, read_lpush, read_zrem, read_xadd,
    read_zadd, read_lpop, read_wait, read_psync, read_replconf, read_set, read_xread,
    read_blpop, read_geoadd.
Qed.

(** * Properties *)



(** a command whose name is not known takes the whole buffer with it: what was
    read behind it, complete commands included, is thrown away. *)
Theorem unknown_name_clears_buffer stod n name body b :
  1 <= n < 2 ^ 31 -> plain name ->
  (forall buf, parse_named stod buf name n = None) ->
  exists k, parseCommand stod (MkRead (header n ++ bulk name ++ body) 0 b)
            = Done (MkCommand [] k UnknowCommand, MkRead [] 0 k).
Proof.
  intros Hn Hname Hu. unfold parseCommand. cbn [read_buffer parseCommand_loop].
  cbn [current_read_position command_bytes]. eexists.
  replace (Parse (header n ++ bulk name ++ body) 0) with (MkToken ARRAY 0 0 n, length (header n)).
  2:{ symmetry. unfold header. rewrite <- !app_assoc. apply (Parse_array []). unfold UINT64_MAX. lia. }
  cbn [Parser.type length_]. rewrite Parse_bulk, token_text_bulk, Hu by apply Hname. done.
Qed.

Lemma unknown_name_clears_buffer_witness :
  exists k, parseCommand (fun _ => None) (MkRead (header 1 ++ bulk (lit "FLUSHALL") ++ header 1 ++ bulk (lit "PING")) 0 0)
            = Done (MkCommand [] k UnknowCommand, MkRead [] 0 k).
Proof.
  apply unknown_name_clears_buffer; [lia| |reflexivity].
  split; [repeat constructor; discriminate|vm_compute; discriminate].
Defined.

(** a command that has not arrived completely is not kept for later.  When the
    read ends behind the key of a SET, the parser answers an unknown command
    and removes what arrived, so the value that follows starts a new input. *)
Theorem partial_set_is_lost stod k n b :
  plain k -> 3 <= n < 2 ^ 31 ->
  let buf := header n ++ bulk (lit "SET") ++ bulk k in
  parseCommand stod (MkRead buf 0 b)
  = Done (MkCommand [] (len buf) UnknowCommand, MkRead [] 0 (len buf)).
Proof.
  intros Hk Hn buf. replace (MkRead buf 0 b) with (MkRead (buf ++ []) 0 b) by (by rewrite app_nil_r).
  eapply (parseCommand_array _ n (lit "SET") (bulk k)); [lia|plain|].
  intros buf' pos Hu. split; [reflexivity|]. rewrite count_arg by lia. unfold parseSetCommand. arg.
  apply unread_split in Hu as (A & -> & Ep). rewrite app_nil_r in *.
  unfold with_bulk, mbind, P_bind, token, Parse. rewrite lookup_ge_None_2 by lia. done.
Qed.

Lemma partial_set_is_lost_witness :
  let buf := header 3 ++ bulk (lit "SET") ++ bulk (lit "k") in
  parseCommand (fun _ => None) (MkRead buf 0 0)
  = Done (MkCommand [] 20 UnknowCommand, MkRead [] 0 20).
Proof.
  refine (partial_set_is_lost (fun _ => None) (lit "k") 3 0 _ _); [|lia].
  split; [repeat constructor; discriminate|vm_compute; discriminate].
Defined.

(** input that starts with neither an array nor a bulk string is an unknown
    command and stays in the buffer, so that every later parse, whatever has
    been appended, sees the same first byte. *)
Theorem garbage_is_never_cleared stod x X b :
  x <> 42 -> x <> 36 ->
  parseCommand stod (MkRead (x :: X) 0 b)
  = Done (MkCommand [] 0 UnknowCommand, MkRead (x :: X) 0 b).
Proof.
  intros H1 H2.
  assert (HP : forall Y, Parse (x :: Y) 0 = (unknown_token, 0%nat)).
  { intros Y. unfold Parse. cbn. destruct x as [|p|p]; [done| |done].
    destruct p as [p|p|]; try done; repeat (destruct p as [p|p|]; try done). }
  unfold parseCommand. cbn [read_buffer length parseCommand_loop current_read_position app].
  by rewrite HP.
Qed.

Lemma garbage_is_never_cleared_witness :
  parseCommand (fun _ => None) (MkRead (lit "PING") 0 0)
  = Done (MkCommand [] 0 UnknowCommand, MkRead (lit "PING") 0 0).
Proof. apply (garbage_is_never_cleared (fun _ => None) 80 (lit "ING") 0); discriminate. Defined.
