(* ===== verification/ParserProgress.v ===== *)
(** Termination of reading: no parser moves its position backwards, a command
    always takes at least one byte from the buffer, and so the recursion of
    [parseCommand] ends whatever was received. *)
From Stdlib Require Import SpecFloat.
From S2P Require Import Prelude Utils Command Parser Geohash CommandParser.

Section Parsers.
Context (stod : list Z -> option spec_float) (buf : list Z).

Lemma Parse_forward pos : (pos <= (Parse buf pos).2)%nat /\
  (Parser.type (Parse buf pos).1 = ARRAY -> (pos < (Parse buf pos).2)%nat) /\
  (Parser.type (Parse buf pos).1 <> UNKNOWN -> is_Some (buf !! pos)).
Proof.
  assert (Hc : (S pos <= (calculate_length buf (S pos)).2)%nat).
  { unfold calculate_length. destruct (length_loop _ _) as [[[] l] n]; cbn; lia. }
  unfold Parse. destruct (buf !! pos) as [x|] eqn:E; [|split_and!; [done..|by intros []]].
  destruct (calculate_length buf (S pos)) as [[[] l] p]; cbn [snd] in Hc;
    repeat (case_match; cbn [fst snd Parser.type unknown_token];
            try (split_and!; intros; try done; try lia; by eexists)).
Qed.

(** A parser that never moves backwards. *)
Definition forward {A} (m : P A) : Prop := forall pos a pos', m pos = Done (a, pos') -> (pos <= pos')%nat.

Lemma forward_ret {A} (a : A) : forward (mret a).
Proof. by intros pos b pos' [= _ <-]. Qed.
Lemma forward_bind {A B} (m : P A) (f : A -> P B) : forward m -> (forall a, forward (f a)) -> forward (m ≫= f).
Proof.
  intros Hm Hf pos b pos' H. unfold mbind, P_bind in H. destruct (m pos) as [[a p]|] eqn:E; [|done].
  apply Hm in E. apply Hf in H. lia.
Qed.
Lemma forward_token : forward (token buf).
Proof. intros pos t pos' [= E]. pose proof (Parse_forward pos) as [H _]. rewrite E in H. exact H. Qed.
Lemma forward_lift {A} (m : outcome A) : forward (lift m).
Proof. intros pos a pos'. unfold lift. destruct m; [|done]. by intros [= _ <-]. Qed.
Lemma forward_int_sub t k : forward (int_sub t k).
Proof. apply forward_lift. Qed.

Create HintDb forward.
Hint Resolve forward_ret forward_token forward_lift forward_int_sub : forward.

Ltac forward :=
  lazymatch goal with
  | |- forward (with_bulk _ _) => unfold with_bulk; forward
  | |- forward (_ ≫= _) => apply forward_bind; [forward | intros; forward]
  | |- forward (let _ := _ in _) => cbv zeta; forward
  | |- forward (match ?x with _ => _ end) => destruct x; forward
  | |- _ => first [ solve [eauto with forward] | idtac ]
  end.

Lemma forward_values n : forward (values_loop buf n).
Proof. induction n; cbn [values_loop]; forward. Qed.
Lemma forward_pairs n : forward (pairs_loop buf n).
Proof. induction n; cbn [pairs_loop]; forward. Qed.
Lemma forward_parameters n : forward (parameters_loop buf n).
Proof. induction n; cbn [parameters_loop]; forward. Qed.
Lemma forward_scores n : forward (scores_loop stod buf n).
Proof. induction n; cbn [scores_loop]; forward. Qed.
Lemma forward_geoadd_loop n : forall g, forward (geoadd_loop stod buf n g).
Proof. induction n; intros g; cbn [geoadd_loop]; forward. Qed.
Lemma forward_setuser_loop n : forall p fl, forward (setuser_loop buf n p fl).
Proof. induction n; intros p fl; cbn [setuser_loop]; forward. Qed.

Lemma forward_set_flags n : forall ex px, forward (set_flags buf n ex px).
Proof.
  induction n as [n IH] using lt_wf_ind. intros ex px. destruct n as [|n]; cbn [set_flags]; [forward|].
  apply forward_bind; [forward|]. intros t. destruct (negb _); [forward|]. cbv zeta. destruct n as [|n].
  - apply IH. lia.
  - repeat (apply forward_bind || case_match || (intros; apply IH; lia) || intros; try solve [forward]).
Qed.
Hint Resolve forward_values forward_pairs forward_parameters forward_scores forward_geoadd_loop
  forward_setuser_loop forward_set_flags : forward.

Lemma forward_streams n block : forward (parse_streams buf n block).
Proof. unfold parse_streams. forward. Qed.
Hint Resolve forward_streams : forward.

Lemma forward_named name n parse : parse_named stod buf name n = Some parse -> forward parse.
Proof.
  unfold parse_named. cbv zeta.
  repeat (destruct (is_equal name _); [intros [= <-]|]); [..|done]; clear name.
  all: unfold parsePingCommand, parseEchoCommand, parseSetCommand, parseGetCommand, parseTypeCommand,
    parseIncrCommand, parseRpushCommand, parseLpushCommand, parseLrangeCommand, parseLlenCommand,
    parseLpopCommand, parseBlpopCommand, parseXaddCommand, parseXrangeCommand, parseXreadCommand,
    parseMultiCommand, parseExecCommand, parseDiscardCommand, parseInfoCommand, parseReplConfCommand,
    parsePsyncCommand, parseWaitCommand, parseGetConfigCommand, parseKeysCommand, parseSubScribeCommand,
    parsePublishCommand, parseUnsubscribeCommand, parseZaddCommand, parseZrankCommand, parseZrangeCommand,
    parseZcardCommand, parseZscoreCommand, parseZremCommand, parseGeoAddCommand, parseGeoPosCommand,
    parseGeoDistCommand, parseGeoSearchCommand, parseACLCommand, parseAuthCommand; forward.
Qed.
End Parsers.

(** [parseCommand] with any fuel that is enough gives the same. *)
Lemma parseCommand_loop_fuel stod n : forall c m,
  (length (read_buffer c) < n)%nat -> (n <= m)%nat ->
  parseCommand_loop stod m c = parseCommand_loop stod n c.
Proof.
  induction n as [|n IH]; intros [buf pos b] m Hn Hm; [lia|]. destruct m as [|m]; [lia|].
  cbn [parseCommand_loop CommandParser.read_buffer current_read_position command_bytes] in *.
  pose proof (Parse_forward buf pos) as (_ & _ & Hx). destruct (Parse buf pos) as [t p].
  destruct (Parser.type t) eqn:Et; [done| |done].
  apply IH; [|lia]. cbn [CommandParser.read_buffer]. destruct Hx as [x Hx]; [cbn; by rewrite Et|].
  apply lookup_lt_Some in Hx. rewrite length_drop. lia.
Qed.

(** A command that was understood is gone from the buffer. *)
Lemma parseCommand_loop_shrinks stod n : forall buf b cmd st,
  parseCommand_loop stod n (MkRead buf 0 b) = Done (cmd, st) ->
  Command.type cmd <> Command.UNKNOWN ->
  (length (read_buffer st) < length buf)%nat /\ current_read_position st = 0%nat.
Proof.
  induction n as [|n IH]; intros buf b cmd st; [done|].
  cbn [parseCommand_loop CommandParser.read_buffer current_read_position command_bytes].
  pose proof (Parse_forward buf 0) as (Hp & Ha & Hx). destruct (Parse buf 0) as [t p] eqn:Ep.
  cbn [fst snd] in *. destruct (Parser.type t) eqn:Et.
  - destruct Hx as [x Hx]; [done|]. apply lookup_lt_Some in Hx. specialize (Ha eq_refl).
    pose proof (Parse_forward buf p) as (Hp2 & _ & _). destruct (Parse buf p) as [t2 p2]. cbn [fst snd] in *.
    destruct (parse_named stod buf (token_text buf t2) (length_ t)) as [parse|] eqn:En.
    + destruct (parse p2) as [[[k a] p3]|] eqn:E3; [|done]. apply (forward_named _ _ _ _ _ En) in E3.
      intros [= <- <-] _. cbn [CommandParser.read_buffer current_read_position]. rewrite length_drop. lia.
    + intros [= <- <-]. done.
  - intros H Hc. apply IH in H as [H ?]; [|done]. rewrite length_drop in H.
    destruct Hx as [x Hx]; [done|]. apply lookup_lt_Some in Hx. split; [lia|done].
  - by intros [= <- <-].
Qed.

(** Bulk strings where a command should begin are skipped. *)
Inductive skips : list Z -> list Z -> Prop :=
| skips_nothing buf : skips buf buf
| skips_bulk buf rest :
    Parser.type (Parse buf 0).1 = BULK_STRING -> skips (drop (end_pos (Parse buf 0).1 + 1) buf) rest ->
    skips buf rest.

Lemma parseCommand_loop_skips stod n : forall buf b, (length buf < n)%nat ->
  exists rest, skips buf rest /\ Parser.type (Parse rest 0).1 <> BULK_STRING /\
    parseCommand_loop stod n (MkRead buf 0 b) = parseCommand_loop stod 1 (MkRead rest 0 b).
Proof.
  induction n as [|n IH]; intros buf b Hn; [lia|].
  destruct (decide (Parser.type (Parse buf 0).1 = BULK_STRING)) as [E|E].
  - pose proof (Parse_forward buf 0) as (_ & _ & Hx). destruct Hx as [x Hx]; [by rewrite E|].
    apply lookup_lt_Some in Hx.
    destruct (IH (drop (end_pos (Parse buf 0).1 + 1) buf) b) as (rest & H1 & H2 & H3).
    { rewrite length_drop. lia. }
    exists rest. split_and!; [by apply skips_bulk|done|]. rewrite <- H3.
    cbn [parseCommand_loop CommandParser.read_buffer current_read_position command_bytes].
    destruct (Parse buf 0) as [t p]. cbn [fst] in *. by rewrite E.
  - exists buf. split_and!; [constructor|done|].
    cbn [parseCommand_loop CommandParser.read_buffer current_read_position command_bytes].
    destruct (Parse buf 0) as [t p]. cbn [fst] in *. by destruct (Parser.type t).
Qed.

(** * Properties *)

(** C21: Reading ends.  Whatever bytes were received, [parseCommand] skips finitely
    many bulk strings, each shorter than the buffer it was found in, and then
    decides on one token without calling itself again; more fuel than one call
    per byte never changes anything.  And it makes progress: a command other than
    the unknown one has taken at least one byte from the buffer and leaves the
    position at its start. *)
Theorem parseCommand_terminates stod buf b :
  (exists rest, skips buf rest /\ Parser.type (Parse rest 0).1 <> BULK_STRING /\
     parseCommand stod (MkRead buf 0 b) = parseCommand_loop stod 1 (MkRead rest 0 b)) /\
  (forall fuel, (length buf < fuel)%nat ->
     parseCommand_loop stod fuel (MkRead buf 0 b) = parseCommand stod (MkRead buf 0 b)) /\
  (forall cmd st, parseCommand stod (MkRead buf 0 b) = Done (cmd, st) ->
     Command.type cmd <> Command.UNKNOWN ->
     (length (read_buffer st) < length buf)%nat /\ current_read_position st = 0%nat).
Proof.
  split_and!.
  - apply parseCommand_loop_skips. cbn. lia.
  - intros fuel H. apply parseCommand_loop_fuel; cbn; lia.
  - intros cmd st. apply parseCommand_loop_shrinks.
Qed.
