(* ===== verification/Acl.v ===== *)
(** [src/models/user.h], [src/acl.h], [src/acl.cpp]: users and the manager that
    finds them by name.  Users are shared objects: the manager's table, its
    default user and every logged-in client hold references to them, so they
    live in a heap and [setUser] changes the object all holders see. *)
From S2P Require Import Prelude.

(** * Users *)
Record User := MkUser {
  username : list Z;
  passwords : list (list Z);
  flags : list (list Z);
  is_enabled : bool;
  nopass : bool
}.

(** The two constructors. *)
Definition newUser_default : User := MkUser (lit "default") [] [lit "nopass"] true true.
Definition newUser (name : list Z) : User := MkUser name [] [] true false.

(** * The manager, with the heap of users ([shared_ptr] is an index) *)
Record ACLManager := MkAcl {
  heap : list User;
  users : gmap (list Z) nat;
  defaultUser : nat
}.

Definition newACLManager : ACLManager :=
  let u := newUser (lit "default") in
  let u := MkUser (username u) (passwords u) (flags u) (is_enabled u) true in
  let u := MkUser (username u) (passwords u) (flags u) true (nopass u) in
  let u := MkUser (username u) (passwords u) (flags u ++ [lit "nopass"]) (is_enabled u) (nopass u) in
  MkAcl [u] {[ lit "default" := 0%nat ]} 0.

Definition getDefaultUser (m : ACLManager) : nat := defaultUser m.

Definition getUser (m : ACLManager) (username : list Z) : option nat := users m !! username.

Definition deref (m : ACLManager) (user : nat) : option User := heap m !! user.

Definition addUser (m : ACLManager) (user : nat) : option ACLManager :=
  u ← deref m user; mret (MkAcl (heap m) (<[username u := user]> (users m)) (defaultUser m)).

(** The user object [setUser] works on: the one in the table, or a new one. *)
Definition find_or_create (m : ACLManager) (username : list Z) : ACLManager * nat :=
  match users m !! username with
  | Some user => (m, user)
  | None =>
      let user := length (heap m) in
      (MkAcl (heap m ++ [newUser username]) (<[username := user]> (users m)) (defaultUser m), user)
  end.

Definition set_fields (hashedPassword : list Z) (flags : list (list Z)) (u : User) : User :=
  let u := if negb (bool_decide (hashedPassword = []))
           then MkUser (username u) [hashedPassword] (Acl.flags u) (is_enabled u) false
           else u in
  MkUser (username u) (passwords u) flags (is_enabled u) (nopass u).

Definition setUser (m : ACLManager) (username hashedPassword : list Z) (flags : list (list Z))
  : ACLManager :=
  let '(m, user) := find_or_create m username in
  MkAcl (alter (set_fields hashedPassword flags) user (heap m)) (users m) (defaultUser m).

(** * Invariant *)

(** References are valid, each user is listed under its own name only, and the
    default user is the one listed as "default". *)
Record acl_wf (m : ACLManager) : Prop := {
  wf_names n u : users m !! n = Some u -> exists x, heap m !! u = Some x /\ username x = n;
  wf_default : users m !! lit "default" = Some (defaultUser m)
}.

Definition lookup_user (m : ACLManager) (n : list Z) : option User :=
  u ← getUser m n; deref m u.

Lemma set_fields_name h f u : username (set_fields h f u) = username u.
Proof. unfold set_fields. by destruct (negb _). Qed.

Lemma find_or_create_wf m n :
  acl_wf m ->
  let '(m', u) := find_or_create m n in
  acl_wf m' /\ users m' !! n = Some u /\
  lookup_user m' n = Some (default (newUser n) (lookup_user m n)) /\
  (forall n', n' <> n -> lookup_user m' n' = lookup_user m n') /\
  defaultUser m' = defaultUser m.
Proof.
  intros Hwf. unfold find_or_create, lookup_user, getUser, deref.
  destruct (users m !! n) as [u|] eqn:Hn.
  - destruct (wf_names _ Hwf _ _ Hn) as (x & Hx & _). rewrite Hn. cbn. rewrite Hx. done.
  - cbn [users heap defaultUser].
    assert (Hin : forall n' u', users m !! n' = Some u' -> (u' < length (heap m))%nat).
    { intros n' u' H. destruct (wf_names _ Hwf _ _ H) as (x & Hx & _). by eapply lookup_lt_Some. }
    split_and!.
    + split; cbn [users heap defaultUser].
      * intros n' u' H. destruct (decide (n' = n)) as [->|Hne].
        -- rewrite lookup_insert_eq in H. injection H as <-.
           exists (newUser n). split; [by rewrite list_lookup_middle|done].
        -- rewrite lookup_insert_ne in H by done. rewrite lookup_app_l by eauto.
           by apply (wf_names _ Hwf).
      * rewrite lookup_insert_ne; [apply Hwf|]. intros ->. pose proof (wf_default _ Hwf). congruence.
    + by rewrite lookup_insert_eq.
    + rewrite lookup_insert_eq. cbn. by rewrite list_lookup_middle.
    + intros n' Hne. rewrite lookup_insert_ne by done.
      destruct (users m !! n') as [u'|] eqn:E; [|done]. cbn. rewrite lookup_app_l by eauto. done.
    + done.
Qed.

Lemma alter_user_wf m u f :
  (forall x, username (f x) = username x) -> acl_wf m ->
  acl_wf (MkAcl (alter f u (heap m)) (users m) (defaultUser m)).
Proof.
  intros Hf Hwf. split; cbn [users heap defaultUser]; [|apply Hwf].
  intros n v Hv. destruct (wf_names _ Hwf _ _ Hv) as (x & Hx & Hn).
  destruct (decide (v = u)) as [->|Hne].
  - exists (f x). rewrite list_lookup_alter_eq, Hx, Hf. done.
  - exists x. by rewrite list_lookup_alter_ne.
Qed.

Lemma setUser_wf m n h fl : acl_wf m -> acl_wf (setUser m n h fl).
Proof.
  intros Hwf. unfold setUser. pose proof (find_or_create_wf m n Hwf) as H.
  destruct (find_or_create m n) as [m' u]. destruct H as (Hwf' & _).
  apply alter_user_wf; [apply set_fields_name|done].
Qed.

Lemma setUser_lookup m n h fl n' :
  acl_wf m ->
  lookup_user (setUser m n h fl) n' =
  if bool_decide (n' = n) then Some (set_fields h fl (default (newUser n) (lookup_user m n)))
  else lookup_user m n'.
Proof.
  intros Hwf. unfold setUser. pose proof (find_or_create_wf m n Hwf) as H.
  destruct (find_or_create m n) as [m' u]. destruct H as (Hwf' & Hu & Hl & Ho & _).
  unfold lookup_user, getUser, deref in *. cbn [users heap].
  destruct (bool_decide_reflect (n' = n)) as [->|Hne].
  - rewrite Hu in Hl |- *. cbn in *. rewrite list_lookup_alter_eq, Hl. done.
  - rewrite <- Ho by done. destruct (users m' !! n') as [u'|] eqn:E; [|done]. cbn.
    rewrite list_lookup_alter_ne; [done|]. intros ->.
    destruct (wf_names _ Hwf' _ _ E) as (x & Hx & Hn'). destruct (wf_names _ Hwf' _ _ Hu) as (y & Hy & Hn).
    congruence.
Qed.

Lemma newACLManager_wf : acl_wf newACLManager.
Proof.
  unfold newACLManager. split; cbn [users heap defaultUser].
  - intros n u [<- <-]%lookup_singleton_Some. eexists. by split.
  - apply lookup_singleton_eq.
Qed.

(** * Properties *)

(** [setUser] changes exactly the named user.  It creates the user when there
    is none; with a password hash that hash becomes the only password and
    password-less login ends, without one passwords stay as they were; the
    flags are replaced; every other user is untouched; and the manager stays
    well formed, so aliasing between names never arises. *)
Theorem setUser_spec m n h fl :
  acl_wf m ->
  let m' := setUser m n h fl in
  acl_wf m' /\
  (forall n', n' <> n -> lookup_user m' n' = lookup_user m n') /\
  exists u, lookup_user m' n = Some u /\ username u = n /\ flags u = fl /\
    (h <> [] -> passwords u = [h] /\ nopass u = false) /\
    (h = [] -> let old := default (newUser n) (lookup_user m n) in
               passwords u = passwords old /\ nopass u = nopass old).
Proof.
  intros Hwf m'. split_and!; [by apply setUser_wf| |].
  - intros n' Hne. unfold m'. rewrite setUser_lookup by done. by rewrite bool_decide_false.
  - unfold m'. rewrite setUser_lookup by done. rewrite bool_decide_true by done.
    eexists. split; [done|]. rewrite set_fields_name. split_and!.
    + unfold lookup_user, getUser, deref. destruct (users m !! n) as [u|] eqn:E; [|done].
      destruct (wf_names _ Hwf _ _ E) as (x & Hx & Hn). cbn. by rewrite Hx.
    + unfold set_fields. done.
    + intros Hh. unfold set_fields. by rewrite bool_decide_false.
    + intros ->. done.
Qed.

Lemma setUser_spec_witness :
  exists u, lookup_user (setUser newACLManager (lit "bob") (lit "h") []) (lit "bob") = Some u /\
            passwords u = [lit "h"] /\ nopass u = false.
Proof.
  destruct (setUser_spec newACLManager (lit "bob") (lit "h") [] newACLManager_wf)
    as (_ & _ & u & Hu & _ & _ & Hp & _).
  exists u. split; [exact Hu|]. apply Hp. discriminate.
Defined.
