(* ===== verification/World.v ===== *)
(** [src/models/client.h], [src/models/redisObject.h], [src/db/db.h]: the state
    the command handlers run on, and the monad they are written in.  Clients are
    shared objects: connections own them, the tables of the data base hold weak
    references, so they live in a heap and [lock] fails for one that is gone.
    [current_write_position] is always zero and is left out. *)
From Stdlib Require Import SpecFloat.
From S2P Require Import Prelude Utils Listpack RadixTree Stream SortedSet Command Acl Geohash.

(** * Stored values *)

(** A [RedisObject] of each type with the one pointer that type uses; a list's
    pointer can be null. *)
Inductive RedisObject :=
| StringObject (stringPtr : list Z)
| ListObject (listPack : option (list Z))
| StreamObject (streamPtr : Stream RadixTree)
| SortedSetObject (sortedSetPtr : SortedSet).

(** * Clients *)
Definition MULTI : Z := 1.
Definition DIRTY : Z := 2.
Definition PUBSUB : Z := 4.

(** A reference to a client. *)
Definition cid := nat.

Record Client := MkClient {
  read_buffer : list Z;
  write_buffer : list Z;
  flags : Z;
  queued_commands : list Command;
  fd : Z;
  isslave : bool;
  replica_offset : Z;
  total_subscribed_channels : Z;
  user : option nat;
  is_authenticated : bool
}.

Definition newClient (fd : Z) : Client := MkClient [] [] 0 [] fd false 0 0 None false.

Definition with_write_buffer (f : list Z -> list Z) (c : Client) : Client :=
  MkClient (read_buffer c) (f (write_buffer c)) (flags c) (queued_commands c) (fd c) (isslave c)
    (replica_offset c) (total_subscribed_channels c) (user c) (is_authenticated c).
Definition with_flags (f : Z -> Z) (c : Client) : Client :=
  MkClient (read_buffer c) (write_buffer c) (f (flags c)) (queued_commands c) (fd c) (isslave c)
    (replica_offset c) (total_subscribed_channels c) (user c) (is_authenticated c).
Definition with_queued (f : list Command -> list Command) (c : Client) : Client :=
  MkClient (read_buffer c) (write_buffer c) (flags c) (f (queued_commands c)) (fd c) (isslave c)
    (replica_offset c) (total_subscribed_channels c) (user c) (is_authenticated c).
Definition with_channels (f : Z -> Z) (c : Client) : Client :=
  MkClient (read_buffer c) (write_buffer c) (flags c) (queued_commands c) (fd c) (isslave c)
    (replica_offset c) (f (total_subscribed_channels c)) (user c) (is_authenticated c).
Definition with_user (u : option nat) (b : bool) (c : Client) : Client :=
  MkClient (read_buffer c) (write_buffer c) (flags c) (queued_commands c) (fd c) (isslave c)
    (replica_offset c) (total_subscribed_channels c) u b.

Definition resetFlags (c : Client) : Client := with_flags (fun _ => 0) c.
Definition addTransactionFlags (c : Client) : Client := with_flags (fun f => Z.lor f MULTI) c.
Definition isClientOnTransaction (c : Client) : bool := negb (Z.land (flags c) MULTI =? 0).
Definition isClientOnPubSub (c : Client) : bool := negb (Z.land (flags c) PUBSUB =? 0).
Definition setClientDirty (c : Client) : Client := with_flags (fun f => Z.lor f DIRTY) c.
Definition setClientPubSub (c : Client) : Client := with_flags (fun f => Z.lor f PUBSUB) c.

(** What one read event carries through the handlers. *)
Record ClientContext := MkContext {
  client : cid;
  client_fd : Z;
  isBlocked : bool;
  unblocked_client_fd : Z;
  command : option Command;
  ready_to_write_clients : list cid
}.

Definition newContext (c : cid) (fd : Z) (cmd : option Command) : ClientContext :=
  MkContext c fd false (-1) cmd [].

(** * Time: steady-clock readings in nanoseconds *)
Definition time_point_max : Z := INT64_MAX.

(** Signed 64-bit arithmetic: no result on overflow. *)
Definition checked (v : Z) : outcome Z :=
  if (INT64_MIN <=? v) && (v <=? INT64_MAX) then mret v else Stuck.

(** [now + duration], the duration being [n] units of [ns] nanoseconds. *)
Definition time_after (now n ns : Z) : outcome Z :=
  d ← checked (n * ns); checked (now + d).

(** [static_cast<long long>(double)], [static_cast<uint64_t>(double)]: undefined
    when the truncated value is out of range. *)
Definition to_int64 (f : spec_float) : outcome Z :=
  match f with
  | S754_zero _ => mret 0
  | S754_finite _ _ _ => checked (double_to_int64 f)
  | _ => Stuck
  end.
Definition to_uint64 (f : spec_float) : outcome Z :=
  match f with
  | S754_zero _ => mret 0
  | S754_finite _ _ _ =>
      let v := double_to_int64 f in if (0 <=? v) && (v <=? UINT64_MAX) then mret v else Stuck
  | _ => Stuck
  end.

Definition is_zero (f : spec_float) : bool := SFeqb f (S754_zero false).

Record BlockedClient := MkBlocked { bc_client : cid; bc_fd : Z; bc_timeout_at : Z }.

Definition newBlockedClient (now : Z) (c : cid) (fd : Z) (timeout_secs : spec_float)
  : outcome BlockedClient :=
  timeout_at ←
    (if is_zero timeout_secs then mret time_point_max
     else
       timeout_ms ← to_int64 (fmul timeout_secs (of_int 1000));
       time_after now timeout_ms 1000000);
  mret (MkBlocked c fd timeout_at).

Definition is_expired (now timeout_at : Z) : bool :=
  negb (timeout_at =? time_point_max) && (timeout_at <=? now).

Record BlockedXreadClient := MkBlockedXread {
  bx_client : cid; bx_fd : Z; bx_timeout_at : Z; bx_stream_id : list Z; bx_stream_key : list Z
}.

Definition newBlockedXreadClient (now : Z) (c : cid) (fd : Z) (timeout_ms : spec_float)
    (stream_id stream_key : list Z) : outcome BlockedXreadClient :=
  timeout_at ←
    (if is_zero timeout_ms then mret time_point_max
     else
       timeoutMs ← to_int64 timeout_ms;
       time_after now timeoutMs 1000000);
  mret (MkBlockedXread c fd timeout_at stream_id stream_key).

(** * The data base and everything around it *)
Record DB := MkDB {
  store : gmap (list Z) RedisObject;
  expiration : gmap (list Z) Z;
  blocked_keys : gmap (list Z) (list BlockedClient);
  blocked_xread_keys : gmap (list Z) (list BlockedXreadClient);
  watching_keys : gmap (list Z) (list cid);
  pubsub_clients : gmap (list Z) (list cid)
}.

Definition newDB : DB := MkDB ∅ ∅ ∅ ∅ ∅ ∅.

Definition set_store f (d : DB) : DB :=
  MkDB (f (store d)) (expiration d) (blocked_keys d) (blocked_xread_keys d) (watching_keys d)
    (pubsub_clients d).
Definition set_expiration f (d : DB) : DB :=
  MkDB (store d) (f (expiration d)) (blocked_keys d) (blocked_xread_keys d) (watching_keys d)
    (pubsub_clients d).
Definition set_blocked_keys f (d : DB) : DB :=
  MkDB (store d) (expiration d) (f (blocked_keys d)) (blocked_xread_keys d) (watching_keys d)
    (pubsub_clients d).
Definition set_blocked_xread_keys f (d : DB) : DB :=
  MkDB (store d) (expiration d) (blocked_keys d) (f (blocked_xread_keys d)) (watching_keys d)
    (pubsub_clients d).
Definition set_watching_keys f (d : DB) : DB :=
  MkDB (store d) (expiration d) (blocked_keys d) (blocked_xread_keys d) (f (watching_keys d))
    (pubsub_clients d).
Definition set_pubsub_clients f (d : DB) : DB :=
  MkDB (store d) (expiration d) (blocked_keys d) (blocked_xread_keys d) (watching_keys d)
    (f (pubsub_clients d)).

Record World := MkWorld {
  db : DB;
  clients : gmap cid Client;
  acl : ACLManager;
  ctx : ClientContext
}.

Definition with_db f (w : World) : World := MkWorld (f (db w)) (clients w) (acl w) (ctx w).
Definition with_clients f (w : World) : World := MkWorld (db w) (f (clients w)) (acl w) (ctx w).
Definition with_acl f (w : World) : World := MkWorld (db w) (clients w) (f (acl w)) (ctx w).
Definition with_ctx f (w : World) : World := MkWorld (db w) (clients w) (acl w) (f (ctx w)).

(** What the handlers take from outside the program: clock readings (one per
    command), uninitialised memory, printing of doubles ([std::to_string] and
    streams with fixed precision), the mathematical functions, SHA-256. *)
Record Env := MkEnv {
  steady_now : Z;
  system_now : Z;
  junk : nat -> Z;
  double_to_string : spec_float -> list Z;
  fixed : nat -> spec_float -> list Z;
  sin : spec_float -> spec_float;
  cos : spec_float -> spec_float;
  atan2 : spec_float -> spec_float -> spec_float;
  SHA256 : list Z -> list Z
}.

(** * The monad of handlers *)
Definition M (A : Type) : Type := World -> outcome (A * World).

#[global] Instance M_ret : MRet M := fun A a w => Done (a, w).
#[global] Instance M_bind : MBind M :=
  fun A B f m w => match m w with Done (a, w) => f a w | Stuck => Stuck end.

Definition lift {A} (m : outcome A) : M A := fun w => a ← m; mret (a, w).
Definition get {A} (f : World -> A) : M A := fun w => Done (f w, w).
Definition modify (f : World -> World) : M unit := fun w => Done (tt, f w).
Definition modify_db (f : DB -> DB) : M unit := modify (with_db f).
Definition modify_ctx (f : ClientContext -> ClientContext) : M unit := modify (with_ctx f).
Definition stuck {A} : M A := fun _ => Stuck.

Definition get_db {A} (f : DB -> A) : M A := get (fun w => f (db w)).
Definition find (key : list Z) : M (option RedisObject) := get_db (fun d => store d !! key).
Definition put (key : list Z) (o : RedisObject) : M unit := modify_db (set_store (<[key := o]>)).

(** [weak_ptr::lock]. *)
Definition lock (c : cid) : M (option Client) := get (fun w => clients w !! c).

(** Change a client that is known to be alive. *)
Definition update_client (c : cid) (f : Client -> Client) : M unit :=
  fun w => match clients w !! c with
           | Some _ => Done (tt, with_clients (alter f c) w)
           | None => Stuck
           end.

Definition write_to (c : cid) (f : list Z -> list Z) : M unit := update_client c (with_write_buffer f).

(** The client of the context, which the context keeps alive. *)
Definition self : M Client :=
  fun w => match clients w !! client (ctx w) with Some c => Done (c, w) | None => Stuck end.
Definition update_self (f : Client -> Client) : M unit :=
  c ← get (fun w => client (ctx w)); update_client c f.

(** Encode into the write buffer of the context's client. *)
Definition reply (f : list Z -> list Z) : M unit := update_self (with_write_buffer f).

Definition set_isBlocked (c : ClientContext) : ClientContext :=
  MkContext (client c) (client_fd c) true (unblocked_client_fd c) (command c) (ready_to_write_clients c).
Definition set_unblocked (fd : Z) (c : ClientContext) : ClientContext :=
  MkContext (client c) (client_fd c) (isBlocked c) fd (command c) (ready_to_write_clients c).
Definition set_command (cmd : option Command) (c : ClientContext) : ClientContext :=
  MkContext (client c) (client_fd c) (isBlocked c) (unblocked_client_fd c) cmd (ready_to_write_clients c).
Definition add_ready (r : cid) (c : ClientContext) : ClientContext :=
  MkContext (client c) (client_fd c) (isBlocked c) (unblocked_client_fd c) (command c)
    (ready_to_write_clients c ++ [r]).

(** [for (auto &x : l) f(x)]. *)
Fixpoint for_each {A} (f : A -> M unit) (l : list A) : M unit :=
  match l with
  | [] => mret tt
  | x :: l => f x;; for_each f l
  end.

(** [map[k].push_back(v)] and [map[k].push(v)]. *)
Definition push_at {A} (k : list Z) (v : A) (m : gmap (list Z) (list A)) : gmap (list Z) (list A) :=
  <[k := default [] (m !! k) ++ [v]]> m.

(** [DB::mark_watching_clients_dirty]. *)
Definition mark_watching_clients_dirty (key : list Z) : M unit :=
  watching ← get_db (fun d => watching_keys d !! key);
  match watching with
  | None => mret tt
  | Some l =>
      for_each (fun c => p ← lock c; match p with Some _ => update_client c setClientDirty | None => mret tt end) l
  end.

(** * Lemmas: what a handler did *)

(** The bytes waiting to be sent to a client. *)
Definition sent (w : World) (c : cid) : option (list Z) := write_buffer <$> clients w !! c.

Definition alive (w : World) : Prop := is_Some (clients w !! client (ctx w)).

(** From [w] to [w'] the data base became [d], the context's client was sent
    [f], and no other client was sent anything. *)
Record answers (w w' : World) (d : DB) (f : list Z -> list Z) : Prop := {
  ans_db : db w' = d;
  ans_acl : acl w' = acl w;
  ans_ctx : ctx w' = ctx w;
  ans_sent c : sent w' c = if decide (c = client (ctx w)) then f <$> sent w c else sent w c
}.

Lemma update_client_eq c f w x :
  clients w !! c = Some x -> update_client c f w = Done (tt, with_clients (alter f c) w).
Proof. intros H. unfold update_client. by rewrite H. Qed.

Lemma reply_eq f w :
  alive w ->
  reply f w = Done (tt, with_clients (alter (with_write_buffer f) (client (ctx w))) w).
Proof. intros [x Hx]. unfold reply, update_self, mbind, M_bind, get. by eapply update_client_eq. Qed.

Lemma reply_answers f w : alive w -> exists w', reply f w = Done (tt, w') /\ answers w w' (db w) f.
Proof.
  intros Ha. eexists. split; [by apply reply_eq|]. split; [done..|]. intros c. unfold sent.
  cbn [with_clients clients]. destruct (decide (c = client (ctx w))) as [->|Hne].
  - rewrite lookup_alter_eq. by destruct (clients w !! _).
  - by rewrite lookup_alter_ne.
Qed.

Lemma answers_alive w w' d f : answers w w' d f -> alive w -> alive w'.
Proof.
  intros [_ _ C S] [x Hx]. unfold alive. rewrite C. specialize (S (client (ctx w))).
  rewrite decide_True in S by done. unfold sent in S. rewrite Hx in S.
  destruct (clients w' !! _); [eauto|done].
Qed.

Lemma alive_alter f c w : alive w -> alive (with_clients (alter f c) w).
Proof.
  intros Ha. unfold alive. cbn [with_clients clients ctx]. by rewrite lookup_alter_is_Some.
Qed.

(** Marking clients changes flags only. *)
Lemma for_each_dirty l : forall w,
  alive w ->
  exists w', for_each (fun c => p ← lock c;
               match p with Some _ => update_client c setClientDirty | None => mret tt end) l w
             = Done (tt, w') /\
             alive w' /\ db w' = db w /\ acl w' = acl w /\ ctx w' = ctx w /\
             forall c, sent w' c = sent w c.
Proof.
  induction l as [|x l IH]; intros w Ha; cbn [for_each].
  - by exists w.
  - unfold mbind, M_bind, lock, get in *. destruct (clients w !! x) as [cl|] eqn:Ex.
    + rewrite (update_client_eq _ _ _ _ Ex).
      destruct (IH (with_clients (alter setClientDirty x) w)) as (w' & -> & Ha' & Hd & Hacl & Hc & Hs);
        [by apply alive_alter|].
      exists w'. split_and!; try done. intros c. rewrite Hs. unfold sent. cbn [with_clients clients].
      destruct (decide (c = x)) as [->|Hne]; [by rewrite lookup_alter_eq, Ex|by rewrite lookup_alter_ne].
    + destruct (IH w Ha) as (w' & H). by exists w'.
Qed.

Lemma mark_dirty_eq key w :
  alive w ->
  exists w', mark_watching_clients_dirty key w = Done (tt, w') /\
             alive w' /\ db w' = db w /\ acl w' = acl w /\ ctx w' = ctx w /\
             forall c, sent w' c = sent w c.
Proof.
  intros Ha. unfold mark_watching_clients_dirty, get_db, mbind, M_bind, get.
  destruct (watching_keys (db w) !! key) as [l|]; [by apply for_each_dirty|]. by exists w.
Qed.

(** The usual end of a handler that changed a key. *)
Lemma mark_reply key f w :
  alive w ->
  exists w', (mark_watching_clients_dirty key;; reply f) w = Done (tt, w') /\ answers w w' (db w) f.
Proof.
  intros Ha. destruct (mark_dirty_eq key w Ha) as (w1 & H1 & Ha1 & Hd & Hacl & Hc & Hs).
  unfold mbind, M_bind. rewrite H1. destruct (reply_answers f w1 Ha1) as (w' & Hw & [A1 A2 A3 A4]).
  exists w'. split; [done|]. split; [congruence..|]. intros c. rewrite A4, Hc, Hs. done.
Qed.

Lemma reply_mark key f w :
  alive w ->
  exists w', (reply f;; mark_watching_clients_dirty key) w = Done (tt, w') /\ answers w w' (db w) f.
Proof.
  intros Ha. destruct (reply_answers f w Ha) as (w1 & H1 & HA).
  pose proof (answers_alive _ _ _ _ HA Ha) as Ha1. destruct HA as [A1 A2 A3 A4].
  unfold mbind, M_bind. rewrite H1. destruct (mark_dirty_eq key w1 Ha1) as (w' & Hw & _ & Hd & Hacl & Hc & Hs).
  exists w'. split; [done|]. split; [congruence..|]. intros c. by rewrite Hs, A4.
Qed.

Lemma alive_with_db f w : alive w -> alive (with_db f w).
Proof. done. Qed.

Lemma answers_with_db g w w' d f : answers (with_db g w) w' d f -> answers w w' d f.
Proof. by intros []; split. Qed.

Ltac run_M := unfold find, put, get_db, modify_db, modify_ctx, modify, get, lift, mbind, M_bind, mret, M_ret; cbv beta iota.
