(* ===== verification/DbString.v ===== *)
(** [src/db/SET/set_db.cpp], [GET_TYPE/get_type_db.cpp], [INCR/incr_db.cpp] and
    the [DB::set], [DB::setWithExpiry] of [db.cpp]: string values and their
    expiration.  The theorems give each handler's effect on the store and its
    reply on every branch; undefined behaviour ([store.erase(end())], signed
    overflow) is [Stuck], and the theorems say when it cannot happen. *)
From S2P Require Import Prelude Utils Command World.

Section Handlers.
Context (env : Env).

Definition handle_set (key value : list Z) (ex px : option Z) : M unit :=
  match ex, px with
  | Some ex, _ =>
      t ← lift (time_after (steady_now env) (i64 ex) 1000000000);
      modify_db (set_expiration (<[key := t]>))
  | None, Some px =>
      t ← lift (time_after (steady_now env) (i64 px) 1000000);
      modify_db (set_expiration (<[key := t]>))
  | None, None => mret tt
  end;;
  put key (StringObject value);;
  mark_watching_clients_dirty key;;
  reply (fun b => encode_simple_string b (lit "OK")).

(** [store.erase(it)] is undefined for [it == end()]. *)
Definition handle_get_or_type (key : list Z) (isTypeCommand : bool) : M unit :=
  it ← find key;
  exp_it ← get_db (fun d => expiration d !! key);
  it ← match exp_it with
       | Some t =>
           if t <=? steady_now env then
             match it with
             | None => stuck
             | Some _ =>
                 modify_db (set_store (delete key));;
                 modify_db (set_expiration (delete key));;
                 mret None
             end
           else mret it
       | None => mret it
       end;
  match it with
  | Some (StringObject stringPtr) =>
      if isTypeCommand then reply (fun b => encode_simple_string b (lit "string"))
      else reply (fun b => encode_bulk_string b stringPtr)
  | Some (StreamObject _) =>
      if isTypeCommand then reply (fun b => encode_simple_string b (lit "stream")) else mret tt
  | Some _ => mret tt
  | None =>
      if isTypeCommand then reply (fun b => encode_simple_string b (lit "none"))
      else reply encode_null_bulk_string
  end.

(** A [std::string] seen through [data()], as a C string. *)
Fixpoint c_str (s : list Z) : list Z :=
  match s with
  | [] => []
  | x :: r => if x =? 0 then [] else x :: c_str r
  end.

Definition incr_error : list Z := lit "value is not an integer or out of range".

(** [value++] is undefined at the largest integer. *)
Definition handle_incr (key : list Z) : M unit :=
  it ← find key;
  match it with
  | None =>
      put key (StringObject (lit "1"));;
      mark_watching_clients_dirty key;;
      reply (fun b => encode_integer b 1)
  | Some (StringObject stringPtr) =>
      match convert_string_to_number (c_str stringPtr) with
      | Some value =>
          value ← lift (checked (value + 1));
          reply (fun b => encode_integer b value);;
          put key (StringObject (to_string value));;
          mark_watching_clients_dirty key
      | None => reply (fun b => encode_error b incr_error)
      end
  | Some _ => reply (fun b => encode_error b incr_error)
  end.

(** The two entry points of the RDB loader. *)
Definition set (key value : list Z) : M unit :=
  put key (StringObject value);;
  modify_db (set_expiration (delete key)).

Definition setWithExpiry (key value : list Z) (expiryTimestampMs : Z) : M unit :=
  set key value;;
  expirySystemTime ← lift (checked (i64 expiryTimestampMs * 1000000));
  durationToExpiry ← lift (checked (expirySystemTime - system_now env));
  t ← lift (checked (steady_now env + durationToExpiry));
  modify_db (set_expiration (<[key := t]>)).
End Handlers.

(** * Lemmas *)

(** The deadline a SET leaves: from its option, else the old one. *)
Definition deadline_after (env : Env) (old : option Z) (ex px : option Z) : option (option Z) :=
  match ex, px with
  | Some ex, _ => match time_after (steady_now env) (i64 ex) 1000000000 with Done t => Some (Some t) | Stuck => None end
  | None, Some px => match time_after (steady_now env) (i64 px) 1000000 with Done t => Some (Some t) | Stuck => None end
  | None, None => Some old
  end.

Definition set_deadline (key : list Z) (o : option Z) (m : gmap (list Z) Z) : gmap (list Z) Z :=
  match o with Some t => <[key := t]> m | None => delete key m end.

Lemma set_deadline_id key m : set_deadline key (m !! key) m = m.
Proof.
  unfold set_deadline. destruct (m !! key) eqn:E; [by apply insert_id|by apply delete_id].
Qed.

Lemma set_deadline_lookup key o m : set_deadline key o m !! key = o.
Proof. destruct o; cbn; [apply lookup_insert_eq|apply lookup_delete_eq]. Qed.

Lemma handle_set_eq env key value ex px w o :
  alive w -> deadline_after env (expiration (db w) !! key) ex px = Some o ->
  exists w', handle_set env key value ex px w = Done (tt, w') /\
    answers w w'
      (set_store (<[key := StringObject value]>) (set_expiration (set_deadline key o) (db w)))
      (fun b => encode_simple_string b (lit "OK")).
Proof.
  intros Ha Ho. unfold handle_set.
  set (K := (mark_watching_clients_dirty key;; reply (fun b => encode_simple_string b (lit "OK"))) : M unit).
  assert (HK : forall d, exists w', K (with_db (fun _ => d) w) = Done (tt, w') /\
    answers w w' d (fun b => encode_simple_string b (lit "OK"))).
  { intros d. destruct (mark_reply key (fun b => encode_simple_string b (lit "OK"))
                          (with_db (fun _ => d) w) Ha) as (w' & Hw & HA).
    exists w'. split; [done|]. by eapply answers_with_db. }
  unfold deadline_after in Ho. destruct ex as [ex|], px as [px|];
    try (destruct (time_after _ _ _) as [t|] eqn:Et; [|done]); injection Ho as <-;
    run_M; rewrite ?Et; unfold mbind, outcome_bind, mret, outcome_ret; try apply HK.
  replace (set_expiration (set_deadline key (expiration (db w) !! key)) (db w)) with (db w); [apply HK|].
  destruct (db w) as [s e b bx wk p]. unfold set_expiration. cbn. by rewrite set_deadline_id.
Qed.

(** The value of a key at a time, as GET and TYPE see it. *)
Definition live_object (now : Z) (d : DB) (key : list Z) : option RedisObject :=
  match expiration d !! key with
  | Some t => if t <=? now then None else store d !! key
  | None => store d !! key
  end.

(** The data base after GET or TYPE looked at a key. *)
Definition purge (now : Z) (key : list Z) (d : DB) : DB :=
  match expiration d !! key with
  | Some t =>
      if t <=? now then set_expiration (delete key) (set_store (delete key) d) else d
  | None => d
  end.

(** Every deadline belongs to a stored key. *)
Definition expiring (d : DB) : Prop := forall k, is_Some (expiration d !! k) -> is_Some (store d !! k).

Definition get_reply (isType : bool) (o : option RedisObject) (b : list Z) : list Z :=
  match o, isType with
  | Some (StringObject _), true => encode_simple_string b (lit "string")
  | Some (StringObject s), false => encode_bulk_string b s
  | Some (StreamObject _), true => encode_simple_string b (lit "stream")
  | Some _, _ => b
  | None, true => encode_simple_string b (lit "none")
  | None, false => encode_null_bulk_string b
  end.

Lemma answers_refl w d :
  db w = d -> answers w w d (fun b => b).
Proof.
  intros <-. split; [done..|]. intros c. destruct (decide _); [|done]. by destruct (sent w c).
Qed.

Lemma handle_get_or_type_eq env key isType w :
  alive w -> expiring (db w) ->
  exists w', handle_get_or_type env key isType w = Done (tt, w') /\
    answers w w' (purge (steady_now env) key (db w))
      (get_reply isType (live_object (steady_now env) (db w) key)).
Proof.
  intros Ha He. unfold handle_get_or_type.
  set (K := fun it : option RedisObject => match it with
    | Some (StringObject s) => if isType then reply (fun b => encode_simple_string b (lit "string"))
                               else reply (fun b => encode_bulk_string b s)
    | Some (StreamObject _) => if isType then reply (fun b => encode_simple_string b (lit "stream")) else mret tt
    | Some _ => mret tt
    | None => if isType then reply (fun b => encode_simple_string b (lit "none"))
              else reply encode_null_bulk_string end : M unit).
  assert (HK : forall o d, exists w', K o (with_db (fun _ => d) w) = Done (tt, w') /\
    answers w w' d (get_reply isType o)).
  { intros o d. set (w0 := with_db (fun _ => d) w). assert (Ha0 : alive w0) by done.
    assert (Hr : forall f, exists w', reply f w0 = Done (tt, w') /\ answers w w' d f).
    { intros f. destruct (reply_answers f w0 Ha0) as (w' & ? & HA). exists w'. split; [done|].
      by eapply answers_with_db. }
    assert (Hn : exists w', (mret tt : M unit) w0 = Done (tt, w') /\ answers w w' d (fun b => b)).
    { exists w0. split; [done|]. eapply answers_with_db. by apply answers_refl. }
    destruct o as [[]|]; destruct isType; cbn [K get_reply]; try apply Hr; apply Hn. }
  destruct w as [d cl ac cx]. cbn [db] in *. unfold live_object, purge. run_M. cbn [db]. specialize (He key).
  destruct (expiration d !! key) as [t|].
  - destruct (t <=? steady_now env).
    + destruct (store d !! key) eqn:Es; [|by destruct He].
      exact (HK None (set_expiration (delete key) (set_store (delete key) d))).
    + exact (HK (store d !! key) d).
  - exact (HK (store d !! key) d).
Qed.

(** What INCR does, and its reply; [None] is the undefined case. *)
Definition incr_result (o : option RedisObject) : option (option (list Z) * (list Z -> list Z)) :=
  match o with
  | None => Some (Some (lit "1"), fun b => encode_integer b 1)
  | Some (StringObject s) =>
      match convert_string_to_number (c_str s) with
      | Some v =>
          if v =? INT64_MAX then None
          else Some (Some (to_string (v + 1)), fun b => encode_integer b (v + 1))
      | None => Some (None, fun b => encode_error b incr_error)
      end
  | Some _ => Some (None, fun b => encode_error b incr_error)
  end.

Definition put_string (key : list Z) (s : option (list Z)) (d : DB) : DB :=
  match s with Some s => set_store (<[key := StringObject s]>) d | None => d end.

Lemma handle_incr_eq key w :
  alive w ->
  match incr_result (store (db w) !! key) with
  | Some (s, f) => exists w', handle_incr key w = Done (tt, w') /\ answers w w' (put_string key s (db w)) f
  | None => handle_incr key w = Stuck
  end.
Proof.
  intros Ha. unfold handle_incr, incr_result. run_M.
  assert (Herr : exists w', reply (fun b => encode_error b incr_error) w = Done (tt, w') /\
    answers w w' (db w) (fun b => encode_error b incr_error)) by (by apply reply_answers).
  destruct (store (db w) !! key) as [[s| | |]|] eqn:Es; try done.
  - destruct (convert_string_to_number (c_str s)) as [v|] eqn:Ev; [|done].
    apply convert_string_sound in Ev as [_ Hv]. unfold is_i64 in Hv. unfold checked.
    destruct (Z.eqb_spec v INT64_MAX) as [->|Hne]; [done|].
    destruct (Z.leb_spec INT64_MIN (v + 1)); [|lia]. destruct (Z.leb_spec (v + 1) INT64_MAX); [|lia].
    cbn [andb]. unfold mret, outcome_ret, mbind, outcome_bind.
    destruct (reply_answers (fun b => encode_integer b (v + 1)) w Ha) as (w1 & E1 & HA).
    pose proof (answers_alive _ _ _ _ HA Ha) as Ha1. destruct HA as [A1 A2 A3 A4].
    rewrite E1. set (w2 := with_db _ w1).
    destruct (mark_dirty_eq key w2 Ha1) as (w' & -> & _ & Hd & Hacl & Hc & Hs).
    exists w'. split; [done|]. split; [by rewrite Hd; cbn; rewrite A1|by rewrite Hacl|by rewrite Hc|].
    intros c. rewrite Hs. exact (A4 c).
  - set (w2 := with_db _ w). destruct (mark_reply key (fun b => encode_integer b 1) w2 Ha) as (w' & Hw & HA).
    exists w'. split; [exact Hw|]. by eapply answers_with_db.
Qed.

(** Undefined behaviour apart, [set] and [setWithExpiry] touch one key. *)
Lemma set_eq key value w :
  set key value w = Done (tt, with_db (fun d => set_expiration (delete key)
                                        (set_store (<[key := StringObject value]>) d)) w).
Proof. by destruct w. Qed.

Lemma expiring_set key o x d :
  expiring d -> expiring (set_store (<[key := o]>) (set_expiration (set_deadline key x) d)).
Proof.
  intros He k. cbn. unfold set_deadline. destruct (decide (k = key)) as [->|Hne].
  - intros _. rewrite lookup_insert_eq. eauto.
  - rewrite lookup_insert_ne by done. destruct x; [rewrite lookup_insert_ne by done|rewrite lookup_delete_ne by done]; apply He.
Qed.

Lemma expiring_purge now key d : expiring d -> expiring (purge now key d).
Proof.
  intros He. unfold purge. destruct (expiration d !! key); [|done]. destruct (_ <=? now); [|done].
  intros k. cbn. destruct (decide (k = key)) as [->|Hne].
  - rewrite lookup_delete_eq. by intros [].
  - rewrite !lookup_delete_ne by done. apply He.
Qed.

Lemma expiring_put key o d : expiring d -> expiring (set_store (<[key := o]>) d).
Proof.
  intros He k Hk. cbn. destruct (decide (k = key)) as [->|Hne].
  - rewrite lookup_insert_eq. eauto.
  - rewrite lookup_insert_ne by done. by apply He.
Qed.

(** * Properties *)

(** C14: GET after SET, at any later time.  SET answers OK and stores the value; a
    GET at time [now'] then answers that value while the key's deadline has not
    passed and the null bulk string afterwards, removing the key; the deadline
    is the one of EX or PX, and without either the deadline the key had before.
    Other keys are not touched. *)
Theorem SET_then_GET env env' key value ex px w o :
  alive w -> expiring (db w) ->
  deadline_after env (expiration (db w) !! key) ex px = Some o ->
  let dead := match o with Some t => t <=? steady_now env' | None => false end in
  exists w1 w2,
    handle_set env key value ex px w = Done (tt, w1) /\
    handle_get_or_type env' key false w1 = Done (tt, w2) /\
    sent w2 (client (ctx w)) =
      (fun b => get_reply false (if dead then None else Some (StringObject value))
                  (encode_simple_string b (lit "OK"))) <$> sent w (client (ctx w)) /\
    store (db w2) !! key = (if dead then None else Some (StringObject value)) /\
    (forall k, k <> key -> store (db w2) !! k = store (db w) !! k /\
                           expiration (db w2) !! k = expiration (db w) !! k).
Proof.
  intros Ha He Ho dead.
  destruct (handle_set_eq env key value ex px w o Ha Ho) as (w1 & E1 & HA).
  pose proof (answers_alive _ _ _ _ HA Ha) as Ha1. destruct HA as [D1 _ C1 S1].
  destruct (handle_get_or_type_eq env' key false w1 Ha1) as (w2 & E2 & [D2 _ C2 S2]).
  { rewrite D1. by apply expiring_set. }
  exists w1, w2. split_and!; [done|done| | |].
  - rewrite S2, C1, decide_True, S1, decide_True, D1 by done.
    destruct (sent w _); [|done]. cbn. do 2 f_equal. unfold live_object. cbn.
    rewrite set_deadline_lookup, lookup_insert_eq. by destruct o.
  - rewrite D2, D1. unfold purge. cbn. rewrite set_deadline_lookup. subst dead.
    destruct o as [t|]; [destruct (t <=? _)|]; cbn; by rewrite ?lookup_delete_eq, ?lookup_insert_eq.
  - intros k Hne. rewrite D2, D1. unfold purge. cbn. rewrite set_deadline_lookup.
    destruct o as [t|]; [destruct (t <=? _)|]; cbn;
      by rewrite ?lookup_delete_ne, ?lookup_insert_ne by done.
Qed.

Definition sample_env : Env :=
  MkEnv 1000 2000 (fun _ => 0) (fun _ => []) (fun _ _ => []) id id (fun x _ => x) id.

Definition sample_world : World :=
  MkWorld newDB {[ 1%nat := newClient 7 ]} Acl.newACLManager (newContext 1%nat 7 None).

Lemma sample_alive : alive sample_world.
Proof. by exists (newClient 7). Qed.

Lemma SET_then_GET_witness :
  exists w1 w2,
    handle_set sample_env (lit "k") (lit "v") None (Some 5) sample_world = Done (tt, w1) /\
    handle_get_or_type sample_env (lit "k") false w1 = Done (tt, w2) /\
    sent w2 1%nat = Some (encode_bulk_string (encode_simple_string [] (lit "OK")) (lit "v")).
Proof.
  destruct (SET_then_GET sample_env sample_env (lit "k") (lit "v") None (Some 5) sample_world
              (Some 5001000) sample_alive) as (w1 & w2 & H1 & H2 & H3 & _).
  - by intros k [x Hx].
  - reflexivity.
  - exists w1, w2. split; [exact H1|]. split; [exact H2|]. exact H3.
Defined.

(** SET without EX or PX keeps an old deadline.  A key whose deadline has
    passed is gone for the GET that follows the SET, although the SET was
    answered with OK; the loader's [set] drops the deadline instead. *)
Theorem SET_keeps_old_deadline env key value w t :
  alive w -> expiring (db w) -> expiration (db w) !! key = Some t -> t <= steady_now env ->
  (exists w1 w2,
     handle_set env key value None None w = Done (tt, w1) /\
     handle_get_or_type env key false w1 = Done (tt, w2) /\
     sent w2 (client (ctx w)) =
       (fun b => encode_null_bulk_string (encode_simple_string b (lit "OK"))) <$> sent w (client (ctx w))) /\
  (exists w1, set key value w = Done (tt, w1) /\ live_object (steady_now env) (db w1) key = Some (StringObject value)).
Proof.
  intros Ha He Ht Hle. split.
  - destruct (handle_set_eq env key value None None w (Some t) Ha) as (w1 & E1 & HA).
    { cbn. by rewrite Ht. }
    pose proof (answers_alive _ _ _ _ HA Ha) as Ha1. destruct HA as [D1 _ C1 S1].
    destruct (handle_get_or_type_eq env key false w1 Ha1) as (w2 & E2 & [_ _ _ S2]).
    { rewrite D1. by apply expiring_set. }
    exists w1, w2. split_and!; [done|done|]. rewrite S2, C1, decide_True, S1, decide_True, D1 by done.
    destruct (sent w _); [|done]. cbn. do 2 f_equal. unfold live_object. cbn.
    rewrite lookup_insert_eq. by destruct (Z.leb_spec t (steady_now env)); [|lia].
  - rewrite set_eq. eexists. split; [done|]. unfold live_object. cbn.
    by rewrite lookup_delete_eq, lookup_insert_eq.
Qed.

Definition sample_expired : World :=
  with_db (fun _ => MkDB {[ lit "k" := StringObject (lit "old") ]} {[ lit "k" := 10 ]} ∅ ∅ ∅ ∅) sample_world.

Lemma sample_expired_ok : expiring (db sample_expired).
Proof.
  intros k [x Hx]. cbn [sample_expired with_db db expiration] in Hx.
  apply lookup_singleton_Some in Hx as [<- _]. by eexists.
Qed.

Lemma SET_keeps_old_deadline_witness :
  exists w1 w2,
    handle_set sample_env (lit "k") (lit "v") None None sample_expired = Done (tt, w1) /\
    handle_get_or_type sample_env (lit "k") false w1 = Done (tt, w2) /\
    sent w2 1%nat = Some (lit "+OK" ++ CRLF ++ lit "$-1" ++ CRLF).
Proof.
  destruct (SET_keeps_old_deadline sample_env (lit "k") (lit "v") sample_expired 10)
    as [(w1 & w2 & H1 & H2 & H3) _].
  - exact sample_alive.
  - exact sample_expired_ok.
  - reflexivity.
  - cbn. lia.
  - exists w1, w2. split; [exact H1|]. split; [exact H2|]. exact H3.
Defined.

(** C36: INCR on every branch.  A missing key becomes 1; a string that denotes a
    64-bit integer below the maximum is replaced by its successor, which is the
    reply; any other string and any other type is refused and left as it is.
    The largest integer is the one case without a defined result. *)
Theorem INCR_spec key w :
  alive w ->
  match store (db w) !! key with
  | None =>
      exists w', handle_incr key w = Done (tt, w') /\
        answers w w' (set_store (<[key := StringObject (lit "1")]>) (db w)) (fun b => encode_integer b 1)
  | Some (StringObject s) =>
      match convert_string_to_number (c_str s) with
      | Some v =>
          (v < INT64_MAX -> exists w', handle_incr key w = Done (tt, w') /\
             answers w w' (set_store (<[key := StringObject (to_string (v + 1))]>) (db w))
               (fun b => encode_integer b (v + 1))) /\
          (v = INT64_MAX -> handle_incr key w = Stuck)
      | None => exists w', handle_incr key w = Done (tt, w') /\
                  answers w w' (db w) (fun b => encode_error b incr_error)
      end
  | Some _ => exists w', handle_incr key w = Done (tt, w') /\
                answers w w' (db w) (fun b => encode_error b incr_error)
  end.
Proof.
  intros Ha. pose proof (handle_incr_eq key w Ha) as H. unfold incr_result in H.
  destruct (store (db w) !! key) as [[s| | |]|]; try exact H.
  destruct (convert_string_to_number (c_str s)) as [v|]; [|exact H].
  destruct (Z.eqb_spec v INT64_MAX) as [Ev|Hne]; split; intros; (exact H || lia).
Qed.

Definition sample_number : World :=
  with_db (set_store (<[lit "n" := StringObject (lit "41")]>)) sample_world.

Lemma INCR_spec_witness :
  exists w', handle_incr (lit "n") sample_number = Done (tt, w') /\
    store (db w') !! lit "n" = Some (StringObject (lit "42")).
Proof.
  pose proof (INCR_spec (lit "n") sample_number sample_alive) as H.
  destruct H as [H _]. destruct (H ltac:(vm_compute; reflexivity)) as (w' & Hw & [Hd _ _ _]).
  exists w'. split; [exact Hw|]. rewrite Hd. reflexivity.
Defined.

(** a key loaded from a snapshot with an absolute expiry time is alive on the
    monotonic clock for exactly as long as the wall clock had to go: GET sees it
    after an elapsed time below the remaining time and not from then on. *)
Theorem setWithExpiry_lifetime env key value expiryMs w w' elapsed :
  setWithExpiry env key value expiryMs w = Done (tt, w') ->
  0 <= expiryMs <= INT64_MAX ->
  live_object (steady_now env + elapsed) (db w') key =
    (if expiryMs * 1000000 <=? system_now env + elapsed then None else Some (StringObject value)).
Proof.
  unfold setWithExpiry. run_M. rewrite set_eq. intros H Hb.
  rewrite i64_id in H by (unfold is_i64, INT64_MIN, INT64_MAX in *; lia).
  unfold checked in H.
  destruct ((_ <=? expiryMs * 1000000) && _); [|done].
  unfold mbind, mret, outcome_bind, outcome_ret in H.
  destruct ((_ <=? expiryMs * 1000000 - system_now env) && _); [|done].
  destruct ((_ <=? steady_now env + _) && _); [|done]. injection H as <-.
  unfold live_object. cbn. rewrite lookup_insert_eq, lookup_insert_eq.
  destruct (Z.leb_spec (steady_now env + (expiryMs * 1000000 - system_now env)) (steady_now env + elapsed)),
    (Z.leb_spec (expiryMs * 1000000) (system_now env + elapsed)); (done || lia).
Qed.

Lemma setWithExpiry_lifetime_witness :
  exists w', setWithExpiry sample_env (lit "k") (lit "v") 3 sample_world = Done (tt, w') /\
    live_object (1000 + 2000000) (db w') (lit "k") = Some (StringObject (lit "v")).
Proof.
  eexists. split; [reflexivity|].
  exact (setWithExpiry_lifetime sample_env (lit "k") (lit "v") 3 sample_world _ 2000000 eq_refl ltac:(split; discriminate)).
Defined.
