(* ===== verification/DbList.v ===== *)
(** [src/db/PUSH/push_db.cpp], [LLEN/llen_db.cpp], [LPOP/lpop_db.cpp],
    [LRANGE/lrange_db.cpp], [BLPOP/blpop_db.cpp] and the blocked-client parts of
    [db.cpp]: lists and the clients that wait for them.  A list is a listpack;
    the theorems relate every handler to the sequence of strings it holds. *)
From Stdlib Require Import SpecFloat.
From S2P Require Import Prelude Utils ListpackCodec Listpack Command World.

Definition LIST_PACK_INITIAL_CAPACITY : Z := 20.

(** The element at [p], as every list handler rebuilds it. *)
Definition read_value (m : list Z) (p : Z) : outcome (list Z) :=
  r ← lpGetWithSize m (Some p);
  let '(valuePtr, value_length, _) := r in
  n ← of_option value_length;
  match valuePtr with
  | Some q => rdn m q n
  | None => mret (to_string n)
  end.

Section Handlers.
Context (env : Env).
Abbreviation junk := (junk env).

(** [value_len] is a [uint32_t]. *)
Definition value_bytes (value : list Z) : list Z := take (Z.to_nat (u32 (len value))) value.

Definition create_new_list (key value : list Z) (is_prepend : bool) : M Z :=
  listpackptr ← lift (lpNew junk LIST_PACK_INITIAL_CAPACITY);
  listpackptr ← lift (if is_prepend then lpPrepend junk listpackptr value
                      else lpAppend junk listpackptr value);
  put key (ListObject listpackptr);;
  mret 1.

(** The assertion on the type, and the header read through the new pointer,
    have no result when they fail. *)
Definition append_to_existing_list (key : list Z) (redisObject : RedisObject) (value : list Z)
    (is_prepend : bool) : M Z :=
  match redisObject with
  | ListObject (Some m) =>
      listpackPtr ← lift (if is_prepend then lpPrepend junk m value else lpAppend junk m value);
      m ← lift (of_option listpackPtr);
      len ← lift (lpGetTotalNumElements m);
      put key (ListObject (Some m));;
      mret len
  | _ => stuck
  end.

Definition push_value_to_list (key value : list Z) (is_prepend : bool) : M Z :=
  let value := value_bytes value in
  it ← find key;
  match it with
  | None => create_new_list key value is_prepend
  | Some redisObject => append_to_existing_list key redisObject value is_prepend
  end.

(** The loop over the values; [len] is that of the last push. *)
Fixpoint push_values (key : list Z) (values : list (list Z)) (is_prepend : bool) (len : Z) : M Z :=
  match values with
  | [] => mret len
  | value :: values =>
      len ← push_value_to_list key value is_prepend;
      push_values key values is_prepend len
  end.

(** [queue.pop()] at a key, whose entry goes away with the last element. *)
Definition pop_blocked (key : list Z) (rest : list BlockedClient) (d : DB) : DB :=
  set_blocked_keys (fun b => match rest with [] => delete key b | _ => <[key := rest]> b end) d.

(** The waiting client, if it still exists, gets the key and the first value. *)
Definition serve (key first_value : list Z) (blocked_client : BlockedClient) : M unit :=
  p ← lock (bc_client blocked_client);
  match p with
  | Some _ =>
      write_to (bc_client blocked_client) (fun b => encode_bulk_string_array b [key; first_value]);;
      modify_ctx (set_unblocked (bc_fd blocked_client))
  | None => mret tt
  end.

Definition handle_push (key : list Z) (values : list (list Z)) (is_prepend : bool) : M unit :=
  blocked ← get_db (fun d => blocked_keys d !! key);
  match blocked, values with
  | Some (blocked_client :: rest), first_value :: remaining =>
      modify_db (pop_blocked key rest);;
      serve key first_value blocked_client;;
      push_values key remaining is_prepend 0;;
      reply (fun b => encode_integer b (len values))
  | _, _ =>
      n ← push_values key values is_prepend 0;
      mark_watching_clients_dirty key;;
      reply (fun b => encode_integer b n)
  end.

Definition handle_llen (key : list Z) : M unit :=
  it ← find key;
  match it with
  | Some (ListObject (Some m)) =>
      r ← lift (lpLength m);
      let '(list_length, m) := r in
      put key (ListObject (Some m));;
      reply (fun b => encode_integer b list_length)
  | _ => reply (fun b => encode_integer b 0)
  end.

(** The pops of LPOP: the strings and the listpack that is left. *)
Fixpoint pop_loop (total_count : nat) (listPack : option (list Z)) (result : list (list Z))
  : outcome (list (list Z) * option (list Z)) :=
  match total_count with
  | O => mret (result, listPack)
  | S total_count =>
      p ← lpFirst listPack;
      match p, listPack with
      | Some p, Some m =>
          value ← read_value m p;
          r ← lpDelete junk m p;
          pop_loop total_count (option_map fst r) (result ++ [value])
      | _, _ => mret (result, listPack)
      end
  end.

Definition pop_reply (result : list (list Z)) (b : list Z) : list Z :=
  match result with
  | [] => encode_null_bulk_string b
  | [value] => encode_bulk_string b value
  | _ => encode_bulk_string_array b result
  end.

Definition handle_lpop (key : list Z) (count : option Z) : M unit :=
  it ← find key;
  match it with
  | Some (ListObject (Some m)) =>
      r ← lift (pop_loop (Z.to_nat (default 1 count)) (Some m) []);
      let '(result, listPack) := r in
      put key (ListObject listPack);;
      (match result with [] => mret tt | _ => mark_watching_clients_dirty key end);;
      reply (pop_reply result)
  | _ => reply encode_null_bulk_string
  end.

(** [for (index = start; index <= end; index++)]. *)
Fixpoint range_loop (n : nat) (m : list Z) (index : Z) (result : list (list Z))
  : outcome (list (list Z)) :=
  match n with
  | O => mret result
  | S n =>
      p ← lpSeek m index;
      match p with
      | None => mret result
      | Some p => value ← read_value m p; range_loop n m (index + 1) (result ++ [value])
      end
  end.

Definition handle_lrange (key : list Z) (start stop : Z) : M unit :=
  it ← find key;
  match it with
  | Some (ListObject (Some m)) =>
      r ← lift (lpLength m);
      let '(list_length, m) := r in
      put key (ListObject (Some m));;
      let start_index := if start <? 0 then i64 (u64 (list_length + start)) else start in
      let end_index := if stop <? 0 then i64 (u64 (list_length + stop)) else stop in
      let start_index := if start_index <? 0 then 0 else start_index in
      if end_index <? 0 then reply encode_empty_array
      else if i64 list_length <=? start_index then reply encode_empty_array
      else
        let end_index := if i64 list_length <=? end_index then i64 (u64 (list_length - 1)) else end_index in
        result ← lift (range_loop (Z.to_nat (end_index - start_index + 1)) m start_index []);
        reply (fun b => encode_bulk_string_array b result)
  | _ => reply encode_empty_array
  end.

(** Queue the context's client at the end of the key's waiting line. *)
Definition block_on (key : list Z) (timeout : spec_float) : M unit :=
  c ← get ctx;
  modify_ctx set_isBlocked;;
  bc ← lift (newBlockedClient (steady_now env) (client c) (client_fd c) timeout);
  modify_db (set_blocked_keys (push_at key bc)).

Definition handle_blpop (keys : list (list Z)) (timeout : spec_float) : M unit :=
  let key := match keys with [] => [] | key :: _ => key end in
  it ← find key;
  match it with
  | None => block_on key timeout
  | Some (ListObject (Some m)) =>
      p ← lift (lpFirst (Some m));
      match p with
      | None => block_on key timeout
      | Some p =>
          value ← lift (read_value m p);
          r ← lift (lpDelete junk m p);
          put key (ListObject (option_map fst r));;
          reply (fun b => encode_bulk_string_array b [key; value])
      end
  | Some _ => reply encode_null_bulk_string
  end.

(** * Waiting clients of [db.cpp] *)

(** [signal_key_ready]. *)
Definition signal_key_ready (key : list Z) : M unit :=
  blocked ← get_db (fun d => blocked_keys d !! key);
  match blocked with
  | Some (blocked_client :: rest) =>
      modify_db (pop_blocked key rest);;
      p ← lock (bc_client blocked_client);
      match p with
      | Some _ => modify_ctx (set_unblocked (bc_fd blocked_client))
      | None => mret tt
      end
  | _ => mret tt
  end.

(** A timed-out client, if it still exists, is sent the null array. *)
Definition time_out (c : cid) (fd : Z) : M (list Z) :=
  p ← lock c;
  match p with
  | Some _ => write_to c encode_null_array;; mret [fd]
  | None => mret []
  end.

(** One queue of [check_and_expire_blocked_clients]: the clients that stay and
    the descriptors of those that were told. *)
Fixpoint expire_queue {A} (who : A -> cid) (fd timeout_at : A -> Z) (q : list A)
  : M (list A * list Z) :=
  match q with
  | [] => mret ([], [])
  | x :: q =>
      if is_expired (steady_now env) (timeout_at x) then
        told ← time_out (who x) (fd x);
        r ← expire_queue who fd timeout_at q;
        mret (r.1, told ++ r.2)
      else
        r ← expire_queue who fd timeout_at q;
        mret (x :: r.1, r.2)
  end.

(** All queues; [put_queue] replaces or removes one. *)
Fixpoint expire_queues {A} (who : A -> cid) (fd timeout_at : A -> Z)
    (put_queue : list Z -> list A -> DB -> DB) (queues : list (list Z * list A)) : M (list Z) :=
  match queues with
  | [] => mret []
  | (key, q) :: queues =>
      r ← expire_queue who fd timeout_at q;
      modify_db (put_queue key r.1);;
      fds ← expire_queues who fd timeout_at put_queue queues;
      mret (r.2 ++ fds)
  end.

Definition put_blocked (key : list Z) (q : list BlockedClient) : DB -> DB :=
  set_blocked_keys (fun b => match q with [] => delete key b | _ => <[key := q]> b end).
Definition put_blocked_xread (key : list Z) (q : list BlockedXreadClient) : DB -> DB :=
  set_blocked_xread_keys (fun b => match q with [] => delete key b | _ => <[key := q]> b end).

Definition check_and_expire_blocked_clients : M (list Z) :=
  blocked ← get_db (fun d => map_to_list (blocked_keys d));
  fds ← expire_queues bc_client bc_fd bc_timeout_at put_blocked blocked;
  blocked ← get_db (fun d => map_to_list (blocked_xread_keys d));
  fds' ← expire_queues bx_client bx_fd bx_timeout_at put_blocked_xread blocked;
  mret (fds ++ fds').

(** The smallest deadline at the front of a queue. *)
Definition min_front {A} (timeout_at : A -> Z) (queues : list (list Z * list A)) (min_timeout : Z) : Z :=
  fold_left (fun min_timeout kq => match kq.2 with
                                   | [] => min_timeout
                                   | x :: _ => if timeout_at x <? min_timeout then timeout_at x else min_timeout
                                   end) queues min_timeout.

(** [duration_cast<milliseconds>] truncates towards zero. *)
Definition get_next_timeout_ms (d : DB) : outcome Z :=
  let queues := map_to_list (blocked_keys d) in
  let xqueues := map_to_list (blocked_xread_keys d) in
  match queues, xqueues with
  | [], [] => mret (-1)
  | _, _ =>
      let min_timeout := min_front bx_timeout_at xqueues (min_front bc_timeout_at queues time_point_max) in
      if min_timeout =? time_point_max then mret (-1)
      else
        d ← checked (min_timeout - steady_now env);
        let duration := Z.quot d 1000000 in
        mret (if duration <=? 0 then 0 else i32 duration)
  end.
End Handlers.

(** * Lemmas: lists of strings *)

(** The entries that hold the strings [vs]. *)
Definition lst (vs : list (list Z)) : list entry := map entry_of_bytes vs.

(** A string the list handlers can hold: it fits one entry and is not filed as
    an integer beyond 32 bits, on which traversal aborts. *)
Definition storable (v : list Z) : Prop :=
  Forall is_byte v /\ len v + 5 < 2 ^ 32 /\ entry_is_64 (entry_of_bytes v) = false.

Definition list_rep (m : list Z) (vs : list (list Z)) : Prop :=
  lp_rep m (lst vs) /\ no64 (lst vs).

Definition holds (o : RedisObject) (vs : list (list Z)) : Prop :=
  match o with ListObject (Some m) => list_rep m vs | _ => False end.

(** A missing key is the empty list. *)
Definition list_at (s : gmap (list Z) RedisObject) (key : list Z) (vs : list (list Z)) : Prop :=
  match s !! key with Some o => holds o vs | None => vs = [] end.

Definition fits (vs : list (list Z)) : Prop := total_bytes (lst vs) <= UINT32_MAX.

Definition pushed (is_prepend : bool) (vs values : list (list Z)) : list (list Z) :=
  if is_prepend then rev values ++ vs else vs ++ values.

Lemma pushed_cons pre vs v values :
  pushed pre vs (v :: values) = pushed pre (pushed pre vs [v]) values.
Proof. destruct pre; cbn; by rewrite <- app_assoc. Qed.

Lemma fits_pushed pre vs values : fits (pushed pre vs values) -> fits vs.
Proof.
  unfold fits, pushed, lst, total_bytes. destruct pre; rewrite map_app, body_app, len_app.
  - pose proof (len_nonneg (body (map entry_of_bytes (rev values)))). lia.
  - pose proof (len_nonneg (body (map entry_of_bytes values))). lia.
Qed.

Lemma len_lst vs : len (lst vs) = len vs.
Proof. unfold len, lst. by rewrite length_map. Qed.

Lemma no64_pushed pre vs v : no64 (lst vs) -> storable v -> no64 (lst (pushed pre vs [v])).
Proof.
  intros H (_ & _ & Hv). unfold no64, lst, pushed in *. destruct pre; rewrite map_app, Forall_app; cbn; auto.
Qed.

Lemma value_bytes_id v : storable v -> value_bytes v = v.
Proof.
  intros (_ & H & _). unfold value_bytes. pose proof (len_nonneg v).
  rewrite u32_id by lia. unfold len. rewrite Nat2Z.id. by apply firstn_all.
Qed.

Lemma read_value_rep m L e R : lp_rep m (L ++ e :: R) -> read_value m (off L) = Done (entry_bytes e).
Proof.
  intros Hr. unfold read_value.
  rewrite (lpGetWithSize_entry m (off L) e) by (by eapply lp_rep_wf_at || by eapply lp_rep_encode).
  rewrite bind_Done. destruct e as [v|s]; cbn [entry_view of_option]; [done|]. rewrite bind_Done.
  cbn [entry_bytes]. eapply points_rdn; [|done]. apply entry_view_str.
  exact (lp_rep_encode _ _ _ _ Hr).
Qed.

(** The two ways of adding one string to a listpack. *)
Lemma push_rep junk m vs v (pre : bool) n :
  list_rep m vs -> storable v -> fits (pushed pre vs [v]) -> lpGetTotalNumElements m = Done n ->
  exists m', (if pre then lpPrepend junk m v else lpAppend junk m v) = Done (Some m') /\
             list_rep m' (pushed pre vs [v]) /\ lpGetTotalNumElements m' = Done (next_num n 1).
Proof.
  intros [Hr H64] Hv Hf Hn. pose proof Hv as (Hb & Hl & _).
  pose proof (entry_of_bytes_wf v Hb Hl) as Hw. pose proof (no64_pushed pre vs v H64 Hv) as H64'.
  unfold fits, list_rep, lst in *.
  assert (Hs : stored_at (if pre then lpPrepend junk m v else lpAppend junk m v)
                 (if pre then [] else lst vs) (if pre then lst vs else []) (entry_of_bytes v)).
  { destruct pre; [by apply lpPrepend_rep|by apply lpAppend_rep]. }
  unfold stored_at in Hs. replace (_ ++ _ :: _) with (map entry_of_bytes (pushed pre vs [v])) in Hs
    by (unfold lst, pushed; destruct pre; cbn; by rewrite ?map_app).
  destruct (Z.ltb_spec UINT32_MAX (total_bytes (map entry_of_bytes (pushed pre vs [v])))); [lia|].
  destruct Hs as (m' & E & Hm). exists m'. split; [done|]. split; [by split|]. apply (push_num junk m _ v n m' pre Hr H64 Hw Hn E).
Qed.

(** The header of the list at a key has stopped counting: it holds 65535, which
    stands for an unknown number, and stays so. *)
Definition stopped_counting (s : gmap (list Z) RedisObject) (key : list Z) : bool :=
  match s !! key with
  | Some (ListObject (Some m)) =>
      match lpGetTotalNumElements m with Done n => n =? LP_HDR_NUMELE_UNKNOWN | Stuck => false end
  | _ => false
  end.

(** What a push answers for a list that now has [n] elements. *)
Definition push_count (stopped : bool) (n : Z) : Z :=
  if stopped || (UINT16_MAX <=? n) then UINT16_MAX else n.

Lemma push_value_eq env key v pre vs w :
  list_at (store (db w)) key vs -> storable v -> fits (pushed pre vs [v]) ->
  exists o n, push_value_to_list env key v pre w = Done (n, with_db (set_store (<[key := o]>)) w) /\
    holds o (pushed pre vs [v]) /\
    n = push_count (stopped_counting (store (db w)) key) (len vs + 1) /\
    (forall s, stopped_counting (<[key := o]> s) key = (n =? UINT16_MAX)).
Proof.
  intros Hl Hv Hf. unfold push_value_to_list. rewrite value_bytes_id by done.
  unfold create_new_list, append_to_existing_list, list_at, stopped_counting, push_count in *. run_M.
  destruct (store (db w) !! key) as [o|].
  - destruct o as [|[m|]| |]; try done. cbn [holds] in Hl.
    destruct (lpGetTotalNumElements_rep _ _ (proj1 Hl)) as (n & En & Hb & Hn). rewrite len_lst in Hn.
    destruct (push_rep (junk env) m vs v pre n Hl Hv Hf En) as (m' & E & Hm & En').
    rewrite E. unfold outcome_bind, outcome_ret, of_option. rewrite En', En.
    exists (ListObject (Some m')), (next_num n 1). split; [done|]. split; [done|].
    split; [|intros s; rewrite lookup_insert_eq, En'; done].
    unfold next_num, LP_HDR_NUMELE_UNKNOWN, UINT16_MAX in *.
    destruct (Z.eqb_spec n 65535), (Z.leb_spec 65535 (len vs + 1)); cbn [orb]; lia.
  - subst vs. destruct (lpNew_num (junk env) LIST_PACK_INITIAL_CAPACITY) as (m & -> & Hm & En).
    unfold outcome_bind, outcome_ret.
    destruct (push_rep (junk env) m [] v pre 0) as (m' & E & Hm' & En'); [split; [done|constructor]|done..|].
    rewrite E. exists (ListObject (Some m')), 1. split; [done|]. split; [done|].
    split; [done|]. intros s. by rewrite lookup_insert_eq, En'.
Qed.

Lemma len_pushed pre vs values : len (pushed pre vs values) = len vs + len values.
Proof. unfold pushed, len. destruct pre; rewrite length_app, ?length_rev; lia. Qed.

Lemma push_count_again b n k : 0 <= k -> push_count (push_count b n =? UINT16_MAX) (n + k) = push_count b (n + k).
Proof.
  unfold push_count, UINT16_MAX. intros Hk. destruct b; cbn [orb]; [done|].
  destruct (Z.leb_spec 65535 n), (Z.leb_spec 65535 (n + k)); cbn; try lia; destruct (Z.eqb_spec n 65535); cbn; lia.
Qed.

Lemma push_values_eq env key pre values : forall vs w k,
  list_at (store (db w)) key vs -> Forall storable values -> fits (pushed pre vs values) ->
  values <> [] ->
  exists o, push_values env key values pre k w
            = Done (push_count (stopped_counting (store (db w)) key) (len (pushed pre vs values)),
                    with_db (set_store (<[key := o]>)) w) /\
    holds o (pushed pre vs values).
Proof.
  induction values as [|v values IH]; intros vs w k Hl Hv Hf Hne; [done|].
  apply Forall_cons in Hv as [Hv Hvs]. rewrite pushed_cons in Hf |- *.
  destruct (push_value_eq env key v pre vs w Hl Hv (fits_pushed _ _ _ Hf)) as (o & n & E & Ho & Hn & Hs).
  assert (L1 : len (pushed pre vs [v]) = len vs + 1) by apply len_pushed. rewrite <- L1 in Hn.
  cbn [push_values]. unfold mbind, M_bind. rewrite E.
  destruct (decide (values = [])) as [->|Hne'].
  - exists o. replace (pushed pre (pushed pre vs [v]) []) with (pushed pre vs [v])
      by (unfold pushed; destruct pre; cbn; by rewrite ?app_nil_r). by subst n.
  - set (w1 := with_db _ w).
    destruct (IH (pushed pre vs [v]) w1 n) as (o' & E' & Ho'); [|done|done|done|].
    { unfold list_at, w1. cbn. by rewrite lookup_insert_eq. }
    exists o'. split; [|done]. rewrite E'. f_equal. f_equal.
    + unfold w1. cbn [with_db db set_store store]. rewrite Hs, Hn, (len_pushed pre _ values).
      apply push_count_again, len_nonneg.
    + unfold w1, with_db, set_store. cbn. do 2 f_equal. apply insert_insert_eq.
Qed.

Lemma no_waiting_push env key values pre w :
  default [] (blocked_keys (db w) !! key) = [] ->
  handle_push env key values pre w =
  (n ← push_values env key values pre 0;
   mark_watching_clients_dirty key;;
   reply (fun b => encode_integer b n)) w.
Proof.
  intros Hb. unfold handle_push. unfold get_db, get, mbind, M_bind.
  by destruct (blocked_keys (db w) !! key) as [[|x q]|].
Qed.

Lemma lpLength_list m vs :
  list_rep m vs -> exists m', lpLength m = Done (len vs, m') /\ list_rep m' vs.
Proof.
  intros [Hr H64]. destruct (lpLength_rep m _ Hr H64) as (m' & E & Hm').
  rewrite len_lst in E. by exists m'.
Qed.

Lemma list_split (vs : list (list Z)) i : 0 <= i < len vs ->
  exists L v R, vs = L ++ v :: R /\ len L = i.
Proof.
  intros Hi. destruct (lookup_lt_is_Some_2 vs (Z.to_nat i)) as [v Hv]; [unfold len in *; lia|].
  exists (take (Z.to_nat i) vs), v, (drop (S (Z.to_nat i)) vs). split; [by apply split_at|].
  unfold len in *. rewrite length_take. lia.
Qed.

Lemma lst_app L v R : lst (L ++ v :: R) = lst L ++ entry_of_bytes v :: lst R.
Proof. unfold lst. by rewrite map_app. Qed.

Lemma ptr_list L v R : ptr (lst (L ++ v :: R)) (len L) = Some (off (lst L)).
Proof. rewrite lst_app, <- (len_lst L). apply ptr_split. Qed.

Lemma read_value_list m L v R : list_rep m (L ++ v :: R) -> read_value m (off (lst L)) = Done v.
Proof.
  intros [Hr _]. rewrite lst_app in Hr. by rewrite (read_value_rep _ _ _ _ Hr), entry_bytes_of_bytes.
Qed.

Lemma range_loop_eq m vs : list_rep m vs -> forall n i acc, 0 <= i ->
  range_loop n m i acc = Done (acc ++ take n (drop (Z.to_nat i) vs)).
Proof.
  intros [Hr H64]. induction n as [|n IH]; intros i acc Hi; cbn [range_loop].
  - by rewrite take_0, app_nil_r.
  - rewrite (lpSeek_ptr m _ Hr H64). destruct (Z.ltb_spec i 0); [lia|]. rewrite bind_Done.
    destruct (Z.ltb_spec i (len vs)).
    + destruct (list_split vs i ltac:(lia)) as (L & v & R & -> & HL). subst i.
      rewrite ptr_list, (read_value_list m L v R) by done. rewrite bind_Done, IH by lia.
      rewrite <- app_assoc. f_equal. f_equal.
      replace (Z.to_nat (len L + 1)) with (S (length L)) by (unfold len; lia).
      unfold len. rewrite Nat2Z.id, drop_app_length. cbn.
      rewrite drop_app_ge by lia. replace (S (length L) - length L)%nat with 1%nat by lia. done.
    + rewrite ptr_out by (rewrite len_lst; lia). rewrite drop_ge by (unfold len in *; lia).
      by rewrite take_nil, app_nil_r.
Qed.

Lemma delete_head junk m v R :
  list_rep m (v :: R) ->
  exists m', option_map fst <$> (match lpDelete junk m (off []) with Done r => Some r | Stuck => None end)
             = Some (Some m') /\ list_rep m' R.
Proof.
  intros [Hr H64]. destruct (lpInsert_delete junk m [] (entry_of_bytes v) (lst R) Hr) as (m' & E & Hm').
  exists m'. unfold lpDelete. rewrite E. split; [done|]. split; [done|]. by apply Forall_cons in H64 as [_ H64].
Qed.

Lemma pop_loop_eq env n : forall m vs acc, list_rep m vs ->
  exists m', pop_loop env n (Some m) acc = Done (acc ++ take n vs, Some m') /\ list_rep m' (drop n vs).
Proof.
  induction n as [|n IH]; intros m vs acc Hl; cbn [pop_loop].
  - exists m. by rewrite take_0, app_nil_r, drop_0.
  - rewrite (lpFirst_ptr m (lst vs)) by apply Hl. rewrite bind_Done. destruct vs as [|v R].
    + exists m. by rewrite take_nil, app_nil_r, drop_nil.
    + change (ptr (lst (v :: R)) 0) with (ptr (lst ([] ++ v :: R)) (len (@nil (list Z)))).
      rewrite ptr_list, (read_value_list m [] v R Hl), bind_Done.
      destruct (delete_head (junk env) m v R Hl) as (m' & E & Hm'). change (lst []) with (@nil entry).
      destruct (lpDelete (junk env) m (off [])) as [r|]; [|done]. injection E as E. rewrite bind_Done, E.
      destruct (IH m' R (acc ++ [v]) Hm') as (m'' & -> & H). exists m''. by rewrite <- app_assoc.
Qed.

(** The part of a list that [start] and [stop] select, counting from the end
    when negative and clamped to the list. *)
Definition slice (vs : list (list Z)) (start stop : Z) : list (list Z) :=
  let n := len vs in
  let s := Z.max 0 (if start <? 0 then n + start else start) in
  let e := Z.min (n - 1) (if stop <? 0 then n + stop else stop) in
  take (Z.to_nat (e - s + 1)) (drop (Z.to_nat s) vs).

Lemma reply_put key o f w :
  alive w -> exists w', (put key o;; reply f) w = Done (tt, w') /\
    answers w w' (set_store (<[key := o]>) (db w)) f.
Proof.
  intros Ha. set (w1 := with_db (set_store (<[key := o]>)) w).
  destruct (reply_answers f w1 Ha) as (w' & E & HA).
  exists w'. split; [exact E|]. by eapply answers_with_db.
Qed.

Lemma handle_lrange_eq key start stop vs m w :
  alive w -> store (db w) !! key = Some (ListObject (Some m)) -> list_rep m vs ->
  is_i64 start -> is_i64 stop -> 
  exists w' m', handle_lrange key start stop w = Done (tt, w') /\ list_rep m' vs /\
    answers w w' (set_store (<[key := ListObject (Some m')]>) (db w))
      (fun b => encode_bulk_string_array b (slice vs start stop)).
Proof.
  intros Ha Hk Hl Hs He. pose proof (lp_rep_len _ _ (proj1 Hl)) as [_ Hlen]. rewrite len_lst in Hlen.
  pose proof (len_nonneg vs). destruct (lpLength_list m vs Hl) as (m' & E & Hm').
  unfold handle_lrange. unfold find, get_db, get, mbind, M_bind. rewrite Hk. unfold World.lift at 1. rewrite E. unfold mbind, outcome_bind, mret, outcome_ret.
  assert (Hr : forall f, exists w', (put key (ListObject (Some m'));; reply f) w = Done (tt, w') /\
    answers w w' (set_store (<[key := ListObject (Some m')]>) (db w)) f) by (intros; by apply reply_put).
  assert (Hempty : slice vs start stop = [] -> exists w',
    (put key (ListObject (Some m'));; reply encode_empty_array) w = Done (tt, w') /\
    answers w w' (set_store (<[key := ListObject (Some m')]>) (db w))
      (fun b => encode_bulk_string_array b (slice vs start stop))).
  { intros ->. apply (Hr encode_empty_array). }
  unfold slice in Hempty |- *.
  assert (Hidx : forall i, is_i64 i -> (if i <? 0 then i64 (u64 (len vs + i)) else i) = if i <? 0 then len vs + i else i).
  { intros i Hi. destruct (Z.ltb_spec i 0); [|done]. unfold i64, u64. rewrite Zplus_mod_idemp_l.
    fold (i64 (len vs + i)). apply i64_id. unfold is_i64, INT64_MIN, INT64_MAX in *. lia. }
  rewrite !Hidx by done. clear Hidx.
  set (s := if start <? 0 then len vs + start else start) in *.
  set (e := if stop <? 0 then len vs + stop else stop) in *.
  replace (if s <? 0 then 0 else s) with (Z.max 0 s) by (destruct (Z.ltb_spec s 0); lia).
  rewrite (i64_id (len vs)) by len_lia.
  destruct (Z.ltb_spec e 0) as [He0|He0].
  { destruct (Hempty) as (w' & E1 & HA).
    { replace (Z.to_nat (Z.min (len vs - 1) e - Z.max 0 s + 1)) with 0%nat by lia. done. }
    exists w', m'. split; [exact E1|]. by split. }
  destruct (Z.leb_spec (len vs) (Z.max 0 s)) as [Hs0|Hs0].
  { destruct (Hempty) as (w' & E1 & HA).
    { rewrite drop_ge by (unfold len in *; lia). apply take_nil. }
    exists w', m'. split; [exact E1|]. by split. }
  rewrite u64_id, (i64_id (len vs - 1)) by (unfold is_i64, INT64_MIN, INT64_MAX; lia).
  replace (if len vs <=? e then len vs - 1 else e) with (Z.min (len vs - 1) e)
    by (destruct (Z.leb_spec (len vs) e); lia).
  destruct (Hr (fun b => encode_bulk_string_array b
    (take (Z.to_nat (Z.min (len vs - 1) e - Z.max 0 s + 1)) (drop (Z.to_nat (Z.max 0 s)) vs))))
    as (w' & E1 & HA).
  exists w', m'. split; [|by split].
  unfold World.lift. rewrite (range_loop_eq m' vs Hm') by lia. exact E1.
Qed.

Lemma handle_llen_eq key vs m w :
  alive w -> store (db w) !! key = Some (ListObject (Some m)) -> list_rep m vs ->
  exists w' m', handle_llen key w = Done (tt, w') /\ list_rep m' vs /\
    answers w w' (set_store (<[key := ListObject (Some m')]>) (db w)) (fun b => encode_integer b (len vs)).
Proof.
  intros Ha Hk Hl. destruct (lpLength_list m vs Hl) as (m' & E & Hm').
  destruct (reply_put key (ListObject (Some m')) (fun b => encode_integer b (len vs)) w Ha) as (w' & E' & HA).
  exists w', m'. split; [|by split]. unfold handle_llen. unfold find, get_db, get, mbind, M_bind.
  rewrite Hk. unfold World.lift. rewrite E. exact E'.
Qed.

Lemma mark_reply_put key o f w :
  alive w -> exists w', (put key o;; mark_watching_clients_dirty key;; reply f) w = Done (tt, w') /\
    answers w w' (set_store (<[key := o]>) (db w)) f.
Proof.
  intros Ha. set (w1 := with_db (set_store (<[key := o]>)) w).
  destruct (mark_reply key f w1 Ha) as (w' & E & HA).
  exists w'. split; [exact E|]. by eapply answers_with_db.
Qed.

Lemma handle_lpop_eq env key count vs m w :
  alive w -> store (db w) !! key = Some (ListObject (Some m)) -> list_rep m vs ->
  let n := Z.to_nat (default 1 count) in
  exists w' m', handle_lpop env key count w = Done (tt, w') /\ list_rep m' (drop n vs) /\
    answers w w' (set_store (<[key := ListObject (Some m')]>) (db w)) (pop_reply (take n vs)).
Proof.
  intros Ha Hk Hl n. destruct (pop_loop_eq env n m vs [] Hl) as (m' & E & Hm').
  assert (H : exists w', (put key (ListObject (Some m'));;
      (match take n vs with [] => mret tt | _ => mark_watching_clients_dirty key end);;
      reply (pop_reply (take n vs))) w = Done (tt, w') /\
      answers w w' (set_store (<[key := ListObject (Some m')]>) (db w)) (pop_reply (take n vs))).
  { destruct (take n vs) as [|v l].
    - apply (reply_put key (ListObject (Some m')) (pop_reply [])), Ha.
    - apply (mark_reply_put key (ListObject (Some m')) (pop_reply (v :: l))), Ha. }
  destruct H as (w' & E' & HA). exists w', m'. split; [|by split].
  unfold handle_lpop. unfold find, get_db, get, mbind, M_bind. rewrite Hk. unfold World.lift.
  fold n. rewrite E. exact E'.
Qed.

(** * Properties *)

(** C15: RPUSH and LPUSH.  Let a key be missing or hold a list, with nobody waiting on
    it, and push one or more values that fit their entries, are not decimal texts of
    integers beyond 32 bits (on those a later traversal aborts) and keep the
    listpack within 32 bits of size.  Then every value is added in order at the end,
    or one after the other at the front; a missing key becomes a list; the reply is
    the new length, except that it is 65535 when the length has reached 65535, or
    when the 16-bit count in the list's header had reached that value before and so
    has stopped counting; nothing else in the data base changes. *)
Theorem PUSH_spec env key values pre vs w :
  alive w -> list_at (store (db w)) key vs -> Forall storable values ->
  fits (pushed pre vs values) -> values <> [] ->
  default [] (blocked_keys (db w) !! key) = [] ->
  exists w' o,
    handle_push env key values pre w = Done (tt, w') /\
    holds o (pushed pre vs values) /\
    answers w w' (set_store (<[key := o]>) (db w))
      (fun b => encode_integer b
         (if stopped_counting (store (db w)) key || (UINT16_MAX <=? len (pushed pre vs values))
          then UINT16_MAX else len (pushed pre vs values))).
Proof.
  intros Ha Hl Hv Hf Hne Hb. rewrite no_waiting_push by done.
  destruct (push_values_eq env key pre values vs w 0 Hl Hv Hf Hne) as (o & E & Ho).
  set (n := push_count _ _) in E. set (w1 := with_db (set_store (<[key := o]>)) w) in *.
  destruct (mark_reply key (fun b => encode_integer b n) w1 Ha) as (w' & E' & HA).
  exists w', o. split_and!; [|done|by eapply answers_with_db].
  unfold mbind at 1, M_bind at 1. rewrite E. exact E'.
Qed.

(** LLEN and LRANGE read the list.  On a list holding [vs], LLEN answers its
    length and LRANGE the slice between the two indices, both included, counting
    from the end when negative and clamped to the list; neither changes what the
    list holds.  For a key that holds no list they answer 0 and the empty array. *)
Theorem LLEN_LRANGE_spec key vs start stop w :
  alive w -> is_i64 start -> is_i64 stop ->
  (forall m, store (db w) !! key = Some (ListObject (Some m)) -> list_rep m vs ->
    (exists w' m', handle_llen key w = Done (tt, w') /\ list_rep m' vs /\
       answers w w' (set_store (<[key := ListObject (Some m')]>) (db w))
         (fun b => encode_integer b (len vs))) /\
    (exists w' m', handle_lrange key start stop w = Done (tt, w') /\ list_rep m' vs /\
       answers w w' (set_store (<[key := ListObject (Some m')]>) (db w))
         (fun b => encode_bulk_string_array b (slice vs start stop)))) /\
  ((forall m, store (db w) !! key <> Some (ListObject (Some m))) ->
    (exists w', handle_llen key w = Done (tt, w') /\ answers w w' (db w) (fun b => encode_integer b 0)) /\
    (exists w', handle_lrange key start stop w = Done (tt, w') /\ answers w w' (db w) encode_empty_array)).
Proof.
  intros Ha Hs He. split.
  - intros m Hk Hl. split; [by eapply handle_llen_eq|by eapply handle_lrange_eq].
  - intros Hk. unfold handle_llen, handle_lrange. unfold find, get_db, get, mbind, M_bind.
    destruct (store (db w) !! key) as [[| [m|] | |]|];
      try (split; by apply reply_answers). by destruct (Hk m).
Qed.

(** LPOP removes from the front.  It answers the removed strings in order:
    the null bulk string for none, one bulk string for one, an array for more;
    what is left is the rest of the list. *)
Theorem LPOP_spec env key count vs w :
  alive w ->
  (forall m, store (db w) !! key = Some (ListObject (Some m)) -> list_rep m vs ->
    let n := Z.to_nat (default 1 count) in
    exists w' m', handle_lpop env key count w = Done (tt, w') /\ list_rep m' (drop n vs) /\
      answers w w' (set_store (<[key := ListObject (Some m')]>) (db w)) (pop_reply (take n vs))) /\
  ((forall m, store (db w) !! key <> Some (ListObject (Some m))) ->
    exists w', handle_lpop env key count w = Done (tt, w') /\ answers w w' (db w) encode_null_bulk_string).
Proof.
  intros Ha. split.
  - intros m Hk Hl. by eapply handle_lpop_eq.
  - intros Hk. unfold handle_lpop. unfold find, get_db, get, mbind, M_bind.
    destruct (store (db w) !! key) as [[| [m|] | |]|]; try by apply reply_answers. by destruct (Hk m).
Qed.

(** BLPOP.  On a non-empty list it answers the key and the first string and
    removes it; on a missing key or an empty list the client is put at the end
    of the key's waiting line with its deadline, and nothing is answered. *)
Theorem BLPOP_spec env key keys timeout vs w bc :
  alive w -> list_at (store (db w)) key vs ->
  newBlockedClient (steady_now env) (client (ctx w)) (client_fd (ctx w)) timeout = Done bc ->
  exists w', handle_blpop env (key :: keys) timeout w = Done (tt, w') /\
    match vs with
    | v :: R => exists m', list_rep m' R /\
        answers w w' (set_store (<[key := ListObject (Some m')]>) (db w))
          (fun b => encode_bulk_string_array b [key; v])
    | [] => db w' = set_blocked_keys (push_at key bc) (db w) /\ isBlocked (ctx w') = true /\
        clients w' = clients w
    end.
Proof.
  intros Ha Hl Hbc. unfold handle_blpop. unfold find, get_db, get, mbind at 1, M_bind at 1.
  assert (Hblock : exists w', block_on env key timeout w = Done (tt, w') /\
    db w' = set_blocked_keys (push_at key bc) (db w) /\ isBlocked (ctx w') = true /\ clients w' = clients w).
  { unfold block_on, World.lift. run_M. rewrite Hbc. eexists. by split. }
  unfold list_at in Hl. destruct (store (db w) !! key) as [o|] eqn:Hk.
  2:{ subst vs. exact Hblock. }
  destruct o as [|[m|]| |]; try done. cbn [holds] in Hl.
  unfold mbind at 1, M_bind at 1. unfold World.lift at 1.
  rewrite (lpFirst_ptr m (lst vs)) by apply Hl. unfold mbind at 1, outcome_bind, mret, outcome_ret.
  destruct vs as [|v R].
  - exact Hblock.
  - change (ptr (lst (v :: R)) 0) with (ptr (lst ([] ++ v :: R)) (len (@nil (list Z)))).
    rewrite ptr_list. destruct (delete_head (junk env) m v R Hl) as (m' & E & Hm').
    destruct (reply_put key (ListObject (Some m')) (fun b => encode_bulk_string_array b [key; v]) w Ha)
      as (w' & E' & HA).
    exists w'. split; [|by exists m'].
    unfold World.lift, mbind, M_bind. rewrite (read_value_list m [] v R Hl).
    unfold outcome_bind, mret, outcome_ret. change (off (lst [])) with (off []).
    destruct (lpDelete (junk env) m (off [])) as [r|]; [|done]. injection E as E.
    rewrite E. exact E'.
Qed.

Lemma push_values_any env key pre values vs w k :
  list_at (store (db w)) key vs -> Forall storable values -> fits (pushed pre vs values) ->
  exists n s', push_values env key values pre k w = Done (n, with_db (set_store (fun _ => s')) w) /\
    list_at s' key (pushed pre vs values) /\ forall k', k' <> key -> s' !! k' = store (db w) !! k'.
Proof.
  intros Hl Hv Hf. destruct (decide (values = [])) as [->|Hne].
  - exists k, (store (db w)). split_and!; [by destruct w as [[]]|by destruct pre; cbn; rewrite ?app_nil_r|done].
  - destruct (push_values_eq env key pre values vs w k Hl Hv Hf Hne) as (o & E & Ho).
    eexists _, (<[key := o]> (store (db w))). split_and!; [done| |].
    + unfold list_at. by rewrite lookup_insert_eq.
    + intros k' Hk. by rewrite lookup_insert_ne.
Qed.


(** pushing to a key that holds another type has no defined result: the
    assertion on the type stops the server instead of an error reply. *)
Theorem PUSH_wrong_type_aborts env key v values pre w o :
  store (db w) !! key = Some o -> (forall lp, o <> ListObject lp) ->
  default [] (blocked_keys (db w) !! key) = [] ->
  handle_push env key (v :: values) pre w = Stuck.
Proof.
  intros Hk Ho Hb. rewrite no_waiting_push by done. cbn [push_values].
  unfold push_value_to_list. run_M. rewrite Hk. destruct o as [|lp| |]; [done| |done|done]. by destruct (Ho lp).
Qed.

(** * Expiry of waiting clients *)
Section Expiry.
Context (env : Env).
Abbreviation now := (steady_now env).

(** Null arrays were appended, [cnt c] of them for client [c]; nothing else changed. *)
Definition timeouts_sent (w w' : World) (cnt : cid -> nat) : Prop :=
  acl w' = acl w /\ ctx w' = ctx w /\
  forall c, sent w' c = Nat.iter (cnt c) encode_null_array <$> sent w c.

Definition live_queue {A} (timeout_at : A -> Z) (q : list A) : list A :=
  base.filter (fun x => is_expired now (timeout_at x) = false) q.

Lemma sent_alive w w' (f : cid -> list Z -> list Z) c :
  (forall c, sent w' c = f c <$> sent w c) -> is_Some (clients w' !! c) <-> is_Some (clients w !! c).
Proof.
  intros H. specialize (H c). unfold sent in H.
  destruct (clients w !! c), (clients w' !! c); try discriminate H; split; intros [? ?]; eauto; done.
Qed.

Lemma write_null_array c w x :
  clients w !! c = Some x ->
  exists w', write_to c encode_null_array w = Done (tt, w') /\ db w' = db w /\
    timeouts_sent w w' (fun c' => if decide (c' = c) then 1%nat else 0%nat).
Proof.
  intros Hx. unfold write_to. rewrite (update_client_eq _ _ _ _ Hx). eexists. split; [done|].
  split; [done|]. split_and!; [done..|]. intros c'. unfold sent. cbn [with_clients clients].
  destruct (decide (c' = c)) as [->|Hne].
  - by rewrite lookup_alter_eq, Hx.
  - rewrite lookup_alter_ne by done. by destruct (clients w !! c').
Qed.

Lemma timeouts_trans w1 w2 w3 a b :
  timeouts_sent w1 w2 a -> timeouts_sent w2 w3 b -> timeouts_sent w1 w3 (fun c => (b c + a c)%nat).
Proof.
  intros (A1 & A2 & A3) (B1 & B2 & B3). split_and!; [congruence..|]. intros c. rewrite B3, A3.
  destruct (sent w1 c); [|done]. cbn [fmap option_fmap option_map]. by rewrite Nat.iter_add.
Qed.

Lemma timeouts_refl w : timeouts_sent w w (fun _ => 0%nat).
Proof. split_and!; [done..|]. intros c. by destruct (sent w c). Qed.

(** One client is answered, if it is still there. *)
Lemma time_out_eq (c0 : cid) (f : Z) w : exists w1 told cnt,
  time_out c0 f w = Done (told, w1) /\ db w1 = db w /\ timeouts_sent w w1 cnt /\
  (forall c, is_Some (clients w !! c) -> (cnt c <> 0%nat <-> c = c0)) /\
  told = if clients w !! c0 is Some _ then [f] else [].
Proof.
  unfold time_out, lock. run_M. destruct (clients w !! c0) as [y|] eqn:Ey.
  - destruct (write_null_array _ _ _ Ey) as (w1 & -> & Hd & Ht).
    eexists _, _, _. split_and!; [done|done|exact Ht| |done].
    intros c _. cbn. destruct (decide (c = c0)); split; (done || lia).
  - eexists _, _, _. split_and!; [done|done|apply timeouts_refl| |done].
    intros c [z Hz]. split; [lia|]. intros ->. congruence.
Qed.

(** The clients of a queue whose deadline has passed. *)
Definition expired_in {A} (who : A -> cid) (timeout_at : A -> Z) (q : list A) (c : cid) : Prop :=
  exists x, x ∈ q /\ who x = c /\ is_expired now (timeout_at x) = true.

Lemma expire_queue_eq {A} (who : A -> cid) fd timeout_at (q : list A) : forall w,
  exists w' fds cnt, expire_queue env who fd timeout_at q w = Done ((live_queue timeout_at q, fds), w') /\
    db w' = db w /\ timeouts_sent w w' cnt /\
    (forall c, is_Some (clients w !! c) -> (cnt c <> 0%nat <-> expired_in who timeout_at q c)) /\
    (forall f, f ∈ fds <-> exists x, x ∈ q /\ fd x = f /\ is_Some (clients w !! who x) /\
                                     is_expired now (timeout_at x) = true).
Proof.
  induction q as [|x q IH]; intros w; cbn [expire_queue].
  - exists w, [], (fun _ => 0%nat). split_and!; [done|done|apply timeouts_refl| |].
    + intros c _. split; [done|]. intros (y & Hy & _). by apply not_elem_of_nil in Hy.
    + intros f. split; [by intros ?%not_elem_of_nil|]. intros (y & Hy & _). by apply not_elem_of_nil in Hy.
  - unfold live_queue, expired_in. rewrite filter_cons.
    destruct (is_expired now (timeout_at x)) eqn:Ex.
    + rewrite decide_False by done.
      destruct (time_out_eq (who x) (fd x) w) as (w1 & told & cnt1 & E1 & Hd1 & Ht1 & Hc1 & Htold).
      destruct (IH w1) as (w2 & fds & cnt2 & E2 & Hd2 & Ht2 & Hc2 & Hf2).
      assert (Hal : forall c, is_Some (clients w1 !! c) <-> is_Some (clients w !! c)).
      { intros c. eapply (sent_alive w w1 (fun c => Nat.iter (cnt1 c) encode_null_array)). apply Ht1. }
      exists w2, (told ++ fds), (fun c => (cnt2 c + cnt1 c)%nat). split_and!.
      * run_M. by rewrite E1, E2.
      * congruence.
      * by eapply timeouts_trans.
      * intros c Hc. specialize (Hc1 c Hc). specialize (Hc2 c (proj2 (Hal c) Hc)). split.
        -- intros Hn. destruct (decide (cnt1 c = 0%nat)) as [H0|H0].
           ++ destruct (proj1 Hc2 ltac:(lia)) as (y & Hy & ? & ?). exists y. by split; [right|].
           ++ exists x. split; [left|]. split; [symmetry; by apply Hc1|done].
        -- intros (y & [->|Hy]%elem_of_cons & Hw & He).
           ++ pose proof (proj2 Hc1 (eq_sym Hw)). lia.
           ++ assert (cnt2 c <> 0%nat) by (apply Hc2; by exists y). lia.
      * intros f. rewrite elem_of_app, Hf2, Htold. split.
        -- intros [H|(y & Hy & Hfd & Hs & He)].
           ++ destruct (clients w !! who x) eqn:Ey; [|by apply not_elem_of_nil in H].
              apply list_elem_of_singleton in H as ->. exists x. split_and!; [left|done|eauto|done].
           ++ exists y. split_and!; [by right|done|by apply Hal|done].
        -- intros (y & [->|Hy]%elem_of_cons & Hfd & Hs & He).
           ++ left. destruct Hs as [z ->]. subst f. by left.
           ++ right. exists y. split_and!; [done|done|by apply Hal|done].
    + rewrite decide_True by done. destruct (IH w) as (w2 & fds & cnt2 & E2 & Hd2 & Ht2 & Hc2 & Hf2).
      exists w2, fds, cnt2. split_and!; [|done|done| |].
      * run_M. by rewrite E2.
      * intros c Hc. rewrite (Hc2 c Hc). split; intros (y & Hy & ? & ?).
        -- exists y. by split; [right|].
        -- apply elem_of_cons in Hy as [->|Hy]; [congruence|]. by exists y.
      * intros f. rewrite Hf2. split; intros (y & Hy & ? & ? & ?).
        -- exists y. by split; [right|].
        -- apply elem_of_cons in Hy as [->|Hy]; [congruence|]. by exists y.
Qed.

Lemma expire_queues_eq {A} (who : A -> cid) fd timeout_at put_queue (l : list (list Z * list A)) : forall w,
  exists w' fds cnt, expire_queues env who fd timeout_at put_queue l w = Done (fds, w') /\
    db w' = foldl (fun d kq => put_queue kq.1 (live_queue timeout_at kq.2) d) (db w) l /\
    timeouts_sent w w' cnt /\
    (forall c, is_Some (clients w !! c) ->
       (cnt c <> 0%nat <-> exists k q, (k, q) ∈ l /\ expired_in who timeout_at q c)) /\
    (forall f, f ∈ fds <-> exists k q x, (k, q) ∈ l /\ x ∈ q /\ fd x = f /\
       is_Some (clients w !! who x) /\ is_expired now (timeout_at x) = true).
Proof.
  induction l as [|[k q] l IH]; intros w; cbn [expire_queues foldl fst snd].
  - exists w, [], (fun _ => 0%nat). split_and!; [done|done|apply timeouts_refl| |].
    + intros c _. split; [done|]. intros (? & ? & Hy & _). by apply not_elem_of_nil in Hy.
    + intros f. split; [by intros ?%not_elem_of_nil|]. intros (? & ? & ? & Hy & _). by apply not_elem_of_nil in Hy.
  - destruct (expire_queue_eq who fd timeout_at q w) as (w1 & fds1 & cnt1 & E1 & Hd1 & Ht1 & Hc1 & Hf1).
    set (w2 := with_db (put_queue k (live_queue timeout_at q)) w1).
    destruct (IH w2) as (w3 & fds2 & cnt2 & E2 & Hd2 & Ht2 & Hc2 & Hf2).
    assert (Hal : forall c, is_Some (clients w2 !! c) <-> is_Some (clients w !! c)).
    { intros c. eapply (sent_alive w w2 (fun c => Nat.iter (cnt1 c) encode_null_array)). apply Ht1. }
    exists w3, (fds1 ++ fds2), (fun c => (cnt2 c + cnt1 c)%nat). split_and!.
    + run_M. rewrite E1. cbn [fst snd]. fold w2. by rewrite E2.
    + rewrite Hd2. cbn. by rewrite Hd1.
    + eapply timeouts_trans; [|exact Ht2]. exact Ht1.
    + intros c Hc. specialize (Hc1 c Hc). specialize (Hc2 c (proj2 (Hal c) Hc)). split.
      * intros Hn. destruct (decide (cnt1 c = 0%nat)).
        -- destruct (proj1 Hc2 ltac:(lia)) as (k' & q' & Hin & He). exists k', q'. by split; [right|].
        -- exists k, q. split; [left|by apply Hc1].
      * intros (k' & q' & [[= -> ->]|Hin]%elem_of_cons & He).
        -- pose proof (proj2 Hc1 He). lia.
        -- assert (cnt2 c <> 0%nat) by (apply Hc2; by exists k', q'). lia.
    + intros f. rewrite elem_of_app, Hf1, Hf2. split.
      * intros [(x & H1 & H2 & H3 & H4)|(k' & q' & x & H1 & H2 & H3 & H4 & H5)].
        -- exists k, q, x. split_and!; (done || left).
        -- exists k', q', x. split_and!; [by right|done|done|by apply Hal|done].
      * intros (k' & q' & x & [[= -> ->]|Hin]%elem_of_cons & H2 & H3 & H4 & H5).
        -- left. by exists x.
        -- right. exists k', q', x. split_and!; [done|done|done|by apply Hal|done].
Qed.

(** A queue as a map entry: none when empty. *)
Definition put_q {A} (k : list Z) (q : list A) (m : gmap (list Z) (list A)) :=
  match q with [] => delete k m | _ => <[k := q]> m end.

Definition entry_of {A} (q : list A) : option (list A) := match q with [] => None | _ => Some q end.

Lemma put_q_lookup {A} k (q : list A) m k' :
  put_q k q m !! k' = if decide (k' = k) then entry_of q else m !! k'.
Proof.
  destruct (decide (k' = k)) as [->|Hne]; destruct q; cbn;
    by rewrite ?lookup_delete_eq, ?lookup_insert_eq, ?lookup_delete_ne, ?lookup_insert_ne by done.
Qed.

Lemma put_all_lookup {A} (g : list A -> list A) (l : list (list Z * list A)) : forall m k,
  NoDup l.*1 ->
  (forall q, (k, q) ∈ l -> foldl (fun m kq => put_q kq.1 (g kq.2) m) m l !! k = entry_of (g q)) /\
  (k ∉ l.*1 -> foldl (fun m kq => put_q kq.1 (g kq.2) m) m l !! k = m !! k).
Proof.
  induction l as [|[k0 q0] l IH]; intros m k; cbn [foldl fst snd fmap list_fmap].
  - intros _. split; [by intros q ?%not_elem_of_nil|done].
  - intros [Hn Hd]%NoDup_cons. destruct (IH (put_q k0 (g q0) m) k Hd) as [I1 I2]. split.
    + intros q [[= -> ->]|Hin]%elem_of_cons; [|by apply I1].
      rewrite I2 by done. rewrite put_q_lookup. by rewrite decide_True.
    + intros [Hne Hnin]%not_elem_of_cons. rewrite I2 by done. rewrite put_q_lookup. by rewrite decide_False.
Qed.

Lemma put_all_map {A} (g : list A -> list A) (m : gmap (list Z) (list A)) k :
  foldl (fun m kq => put_q kq.1 (g kq.2) m) m (map_to_list m) !! k = q ← m !! k; entry_of (g q).
Proof.
  destruct (put_all_lookup g (map_to_list m) m k (NoDup_fst_map_to_list m)) as [H1 H2].
  destruct (m !! k) as [q|] eqn:E; cbn.
  - apply H1. by apply elem_of_map_to_list.
  - rewrite H2; [done|]. intros ([k' q] & -> & Hin)%list_elem_of_fmap.
    apply elem_of_map_to_list in Hin. cbn in *. congruence.
Qed.

Lemma fold_blocked l : forall d,
  foldl (fun d kq => put_blocked kq.1 (live_queue bc_timeout_at kq.2) d) d l =
  set_blocked_keys (fun b => foldl (fun m kq => put_q kq.1 (live_queue bc_timeout_at kq.2) m) b l) d.
Proof. induction l as [|[k q] l IH]; intros d; cbn [foldl]; [by destruct d|]. by rewrite IH. Qed.

Lemma fold_blocked_xread l : forall d,
  foldl (fun d kq => put_blocked_xread kq.1 (live_queue bx_timeout_at kq.2) d) d l =
  set_blocked_xread_keys (fun b => foldl (fun m kq => put_q kq.1 (live_queue bx_timeout_at kq.2) m) b l) d.
Proof. induction l as [|[k q] l IH]; intros d; cbn [foldl]; [by destruct d|]. by rewrite IH. Qed.

(** Somebody waits on a list or a stream past the deadline. *)
Definition expired_client (d : DB) (c : cid) : Prop :=
  (exists k q, blocked_keys d !! k = Some q /\ expired_in bc_client bc_timeout_at q c) \/
  (exists k q, blocked_xread_keys d !! k = Some q /\ expired_in bx_client bx_timeout_at q c).
End Expiry.

(** C30: expiry of waiting clients is exact.  After the pass every waiting line has
    lost exactly the entries whose deadline has passed, the others keep their
    order, and empty lines are gone; a client that is still connected is sent
    null arrays if and only if it had such an entry, and nobody is sent anything
    else; the stored data is untouched. *)
Theorem check_and_expire_spec env w :
  exists w' fds cnt,
    check_and_expire_blocked_clients env w = Done (fds, w') /\
    (forall k, blocked_keys (db w') !! k = q ← blocked_keys (db w) !! k; entry_of (live_queue env bc_timeout_at q)) /\
    (forall k, blocked_xread_keys (db w') !! k =
               q ← blocked_xread_keys (db w) !! k; entry_of (live_queue env bx_timeout_at q)) /\
    store (db w') = store (db w) /\ expiration (db w') = expiration (db w) /\
    timeouts_sent w w' cnt /\
    (forall c, is_Some (clients w !! c) -> (cnt c <> 0%nat <-> expired_client env (db w) c)).
Proof.
  destruct (expire_queues_eq env bc_client bc_fd bc_timeout_at put_blocked
              (map_to_list (blocked_keys (db w))) w) as (w1 & fds1 & cnt1 & E1 & Hd1 & Ht1 & Hc1 & _).
  destruct (expire_queues_eq env bx_client bx_fd bx_timeout_at put_blocked_xread
              (map_to_list (blocked_xread_keys (db w1))) w1) as (w2 & fds2 & cnt2 & E2 & Hd2 & Ht2 & Hc2 & _).
  rewrite fold_blocked in Hd1. rewrite fold_blocked_xread, Hd1 in Hd2. cbn in Hd2.
  assert (Hal : forall c, is_Some (clients w1 !! c) <-> is_Some (clients w !! c)).
  { intros c. eapply (sent_alive w w1 (fun c => Nat.iter (cnt1 c) encode_null_array)). apply Ht1. }
  exists w2, (fds1 ++ fds2), (fun c => (cnt2 c + cnt1 c)%nat). split_and!.
  - unfold check_and_expire_blocked_clients. run_M. by rewrite E1, E2.
  - intros k. rewrite Hd2. cbn. apply put_all_map.
  - intros k. rewrite Hd2. cbn. apply put_all_map.
  - by rewrite Hd2.
  - by rewrite Hd2.
  - by eapply timeouts_trans.
  - intros c Hc. specialize (Hc1 c Hc). specialize (Hc2 c (proj2 (Hal c) Hc)).
    setoid_rewrite elem_of_map_to_list in Hc1. setoid_rewrite elem_of_map_to_list in Hc2.
    rewrite Hd1 in Hc2. cbn in Hc2. unfold expired_client. rewrite <- Hc1, <- Hc2. lia.
Qed.

(** * The next wake-up *)
Definition fronts {A} (timeout_at : A -> Z) (queues : list (list Z * list A)) : list Z :=
  concat (map (fun kq => match kq.2 with [] => [] | x :: _ => [timeout_at x] end) queues).

Lemma min_front_eq {A} (timeout_at : A -> Z) queues : forall m0,
  min_front timeout_at queues m0 = fold_left Z.min (fronts timeout_at queues) m0.
Proof.
  unfold min_front, fronts.
  induction queues as [|[k [|x q]] queues IH]; intros m0; cbn [fold_left map concat fst snd app]; [done|apply IH|].
  rewrite IH. f_equal. destruct (Z.ltb_spec (timeout_at x) m0); lia.
Qed.

Lemma fold_min_spec l : forall m0,
  let m := fold_left Z.min l m0 in
  m <= m0 /\ (forall x, x ∈ l -> m <= x) /\ (m = m0 \/ m ∈ l).
Proof.
  induction l as [|x l IH]; intros m0; cbn.
  - split_and!; [lia|by intros x ?%not_elem_of_nil|by left].
  - destruct (IH (Z.min m0 x)) as (H1 & H2 & H3). split_and!; [lia| |].
    + intros y [->|Hy]%elem_of_cons; [lia|by apply H2].
    + destruct H3 as [H3|H3]; [|right; by right]. rewrite H3.
      destruct (Z.min_spec m0 x) as [[_ ->]|[_ ->]]; [by left|right; left].
Qed.

(** The deadlines at the heads of all waiting lines. *)
Definition deadlines (d : DB) : list Z :=
  fronts bc_timeout_at (map_to_list (blocked_keys d)) ++ fronts bx_timeout_at (map_to_list (blocked_xread_keys d)).

(** The answer [r] of [get_next_timeout_ms]: -1 without a finite deadline, else
    the whole milliseconds to the earliest one, 0 once it has passed. *)
Definition sleep_ok (env : Env) (d : DB) (r : Z) : Prop :=
  ((forall t, t ∈ deadlines d -> t = time_point_max) -> r = -1) /\
  (forall t, t ∈ deadlines d -> t <> time_point_max -> (forall t', t' ∈ deadlines d -> t <= t') ->
     t - steady_now env < 2 ^ 31 * 1000000 ->
     0 <= r /\ r * 1000000 <= Z.max 0 (t - steady_now env) < (r + 1) * 1000000).

(** the event loop's sleep is exact to the millisecond.  With finite deadlines
    at the heads of the waiting lines less than 2^31 ms away, the answer is the
    time to the earliest one in whole milliseconds, 0 once it has passed;
    without any it is -1, sleep without limit. *)
Theorem get_next_timeout_spec env d :
  0 <= steady_now env <= INT64_MAX -> (forall t, t ∈ deadlines d -> 0 <= t <= INT64_MAX) ->
  exists r, get_next_timeout_ms env d = Done r /\ sleep_ok env d r.
Proof.
  intros Hnow Hb. unfold get_next_timeout_ms. rewrite !min_front_eq, <- fold_left_app. fold (deadlines d).
  assert (Hd : match map_to_list (blocked_keys d), map_to_list (blocked_xread_keys d) with
               | [], [] => deadlines d = [] | _, _ => True end).
  { unfold deadlines. by destruct (map_to_list (blocked_keys d)), (map_to_list (blocked_xread_keys d)). }
  set (m := fold_left Z.min (deadlines d) time_point_max).
  destruct (fold_min_spec (deadlines d) time_point_max) as (H1 & H2 & H3). fold m in H1, H2, H3.
  assert (Hnone : m = time_point_max -> exists r, Done (-1) = Done r /\ sleep_ok env d r).
  { intros Hm. exists (-1). split; [done|]. unfold sleep_ok. split; [reflexivity|].
    intros t Ht Hne Hmin _. exfalso. apply Hne. specialize (H2 t Ht). specialize (Hb t Ht). unfold time_point_max in *. lia. }
  assert (Hsome : m <> time_point_max -> exists r,
    (d ← checked (m - steady_now env);
     mret (if Z.quot d 1000000 <=? 0 then 0 else i32 (Z.quot d 1000000))) = Done r /\ sleep_ok env d r).
  { intros Hm. destruct H3 as [|Hin]; [done|]. pose proof (Hb m Hin) as Hmb.
    unfold checked. destruct (between_spec INT64_MIN (m - steady_now env) INT64_MAX) as [_|?];
      [|unfold INT64_MIN, INT64_MAX in *; lia].
    eexists. split; [reflexivity|]. unfold sleep_ok. split.
    - intros Hall. by destruct (Hm (Hall m Hin)).
    - intros t Ht Hne Hmin Hlt. assert (t = m) as -> by (specialize (H2 t Ht); specialize (Hmin m Hin); lia).
      pose proof (Z.quot_rem' (m - steady_now env) 1000000) as Hq.
      destruct (Z.leb_spec (Z.quot (m - steady_now env) 1000000) 0) as [Hz|Hz].
      + destruct (Z.leb_spec 0 (m - steady_now env)).
        * pose proof (Z.rem_bound_pos (m - steady_now env) 1000000). pose proof (Z.quot_pos (m - steady_now env) 1000000). lia.
        * lia.
      + assert (0 <= m - steady_now env).
        { destruct (Z.leb_spec 0 (m - steady_now env)); [done|].
          pose proof (Z.quot_opp_l (m - steady_now env) 1000000).
          pose proof (Z.quot_pos (- (m - steady_now env)) 1000000). lia. }
        pose proof (Z.rem_bound_pos (m - steady_now env) 1000000).
        rewrite i32_id by lia. lia. }
  assert (Hall : exists r, (if m =? time_point_max then mret (-1) else
     d ← checked (m - steady_now env);
     mret (if Z.quot d 1000000 <=? 0 then 0 else i32 (Z.quot d 1000000))) = Done r /\ sleep_ok env d r).
  { destruct (Z.eqb_spec m time_point_max) as [E|E]; [by apply Hnone|by apply Hsome]. }
  destruct (map_to_list (blocked_keys d)), (map_to_list (blocked_xread_keys d)); try exact Hall.
  apply Hnone. subst m. by rewrite Hd.
Qed.

(** * Concrete inputs *)
Definition w0 : World :=
  MkWorld newDB {[ 1%nat := newClient 7; 2%nat := newClient 8 ]} Acl.newACLManager (newContext 1%nat 7 None).

Lemma w0_alive : alive w0.
Proof. by exists (newClient 7). Qed.

Definition e0 : Env := MkEnv 1000 2000 (fun _ => 0) (fun _ => []) (fun _ _ => []) id id (fun x _ => x) id.

Definition abc : list (list Z) := [lit "a"; lit "-12"; lit "c"].

Lemma abc_storable : Forall storable abc.
Proof.
  unfold storable. repeat (constructor; [split_and!; [repeat constructor; vm_compute; intuition discriminate
    |vm_compute; reflexivity|vm_compute; reflexivity]|]). constructor.
Qed.

Lemma PUSH_spec_witness :
  exists w' o, handle_push e0 (lit "l") abc false w0 = Done (tt, w') /\ holds o abc /\
    answers w0 w' (set_store (<[lit "l" := o]>) (db w0)) (fun b => encode_integer b 3).
Proof.
  apply (PUSH_spec e0 (lit "l") abc false [] w0 w0_alive); [reflexivity|exact abc_storable| |discriminate|reflexivity].
  vm_compute. discriminate.
Defined.

(** A world in which the list [l] holds [abc]. *)
Definition w_abc : World :=
  match handle_push e0 (lit "l") abc false w0 with Done (_, w) => w | Stuck => w0 end.

Definition m_abc : list Z :=
  match store (db w_abc) !! lit "l" with Some (ListObject (Some m)) => m | _ => [] end.

Lemma m_abc_rep : list_rep m_abc abc.
Proof.
  destruct (push_values_eq e0 (lit "l") false abc [] w0 0 eq_refl abc_storable) as (o & E & Ho);
    [vm_compute; discriminate|discriminate|].
  apply (f_equal (fun r => match r with Done (_, w) => store (db w) !! lit "l" | Stuck => None end)) in E.
  cbn [with_db set_store store db] in E. rewrite lookup_insert_eq in E.
  assert (E2 : Some (ListObject (Some m_abc)) = Some o) by (rewrite <- E; vm_compute; reflexivity).
  injection E2 as <-. exact Ho.
Qed.

Lemma w_abc_alive : alive w_abc.
Proof. vm_compute. eexists. reflexivity. Qed.

Lemma LLEN_LRANGE_spec_witness :
  exists w' m', handle_lrange (lit "l") 0 (-2) w_abc = Done (tt, w') /\ list_rep m' abc /\
    answers w_abc w' (set_store (<[lit "l" := ListObject (Some m')]>) (db w_abc))
      (fun b => encode_bulk_string_array b [lit "a"; lit "-12"]).
Proof.
  refine (proj2 (proj1 (LLEN_LRANGE_spec (lit "l") abc 0 (-2) w_abc w_abc_alive _ _) m_abc _ m_abc_rep)).
  - split; discriminate.
  - split; discriminate.
  - vm_compute. reflexivity.
Defined.

Lemma LPOP_spec_witness :
  exists w' m', handle_lpop e0 (lit "l") (Some 2) w_abc = Done (tt, w') /\ list_rep m' [lit "c"] /\
    answers w_abc w' (set_store (<[lit "l" := ListObject (Some m')]>) (db w_abc))
      (pop_reply [lit "a"; lit "-12"]).
Proof.
  refine (proj1 (LPOP_spec e0 (lit "l") (Some 2) abc w_abc w_abc_alive) m_abc _ m_abc_rep).
  vm_compute. reflexivity.
Defined.

Lemma BLPOP_spec_witness :
  exists w', handle_blpop e0 [lit "q"] (S754_zero false) w0 = Done (tt, w') /\
    db w' = set_blocked_keys (push_at (lit "q") (MkBlocked 1%nat 7 INT64_MAX)) (db w0) /\
    isBlocked (ctx w') = true /\ clients w' = clients w0.
Proof.
  exact (BLPOP_spec e0 (lit "q") [] (S754_zero false) [] w0 (MkBlocked 1%nat 7 INT64_MAX)
           w0_alive eq_refl eq_refl).
Defined.

(** Client 2 waits on [q] without a deadline. *)
Definition w_waiting : World :=
  with_db (set_blocked_keys (<[lit "q" := [MkBlocked 2%nat 8 INT64_MAX]]>)) w0.


Lemma PUSH_wrong_type_aborts_witness :
  handle_push e0 (lit "s") [lit "x"] false
    (with_db (set_store (<[lit "s" := StringObject (lit "v")]>)) w0) = Stuck.
Proof.
  apply (PUSH_wrong_type_aborts e0 (lit "s") (lit "x") [] false _ (StringObject (lit "v")));
    [reflexivity|discriminate|reflexivity].
Defined.

Lemma get_next_timeout_spec_witness :
  exists r, get_next_timeout_ms e0
              (set_blocked_keys (<[lit "q" := [MkBlocked 2%nat 8 5001000]]>) newDB) = Done r /\
            0 <= r /\ r * 1000000 <= Z.max 0 (5001000 - 1000) < (r + 1) * 1000000.
Proof.
  destruct (get_next_timeout_spec e0 (set_blocked_keys (<[lit "q" := [MkBlocked 2%nat 8 5001000]]>) newDB))
    as (r & E & _ & H).
  - split; discriminate.
  - intros t Ht. vm_compute in Ht. apply list_elem_of_singleton in Ht as ->. split; discriminate.
  - exists r. split; [exact E|]. apply H.
    + vm_compute. left.
    + discriminate.
    + intros t Ht. vm_compute in Ht. apply list_elem_of_singleton in Ht as ->. discriminate.
    + reflexivity.
Defined.
