(* ===== verification/DbStream.v ===== *)
(** [src/db/XADD/xadd_db.cpp], [XRANGE/xrange_db.cpp], [XREAD/xread_db.cpp]:
    streams and the clients that wait on them.  The entry payload is the RESP
    text of the fields; the theorems say that what XRANGE and XREAD send is what
    XADD was given, and which clients an insertion wakes. *)
From Stdlib Require Import SpecFloat.
From S2P Require Import Prelude Utils RadixTree Stream Parser Command World.

Section Handlers.
Context (env : Env).

(** The system clock in milliseconds. *)
Definition millisecond : Z := system_now env / 1000000.

Definition raw_value (field_values : list (list Z * list Z)) : list Z :=
  concat (map (fun fv => bulk fv.1 ++ bulk fv.2) field_values).

Definition entry_fields (rawPayload : list Z) : outcome (list (list Z)) :=
  r ← parse_bulk_string_sequence rawPayload; mret r.2.

(** One entry of a reply: the id and the fields. *)
Definition encode_entry (b : list Z) (e : list Z * list Z) : outcome (list Z) :=
  sid ← fromBinary e.1;
  fields ← entry_fields e.2;
  mret (encode_bulk_string_array (encode_bulk_string (encode_array_header b 2) (toString sid)) fields).

Fixpoint encode_entries (b : list Z) (entries : list (list Z * list Z)) : outcome (list Z) :=
  match entries with
  | [] => mret b
  | e :: entries => b ← encode_entry b e; encode_entries b entries
  end.

(** Append what [f] computes to a client's write buffer. *)
Definition write_outcome (c : cid) (f : list Z -> outcome (list Z)) : M unit :=
  p ← lock c;
  match p with
  | Some x => b ← lift (f (write_buffer x)); write_to c (fun _ => b)
  | None => stuck
  end.

(** Keys with their entries, as [handle_xread] replies. *)
Fixpoint encode_streams (b : list Z) (replies : list (list Z * list (list Z * list Z)))
  : outcome (list Z) :=
  match replies with
  | [] => mret b
  | (key, entries) :: replies =>
      let b := encode_bulk_string (encode_array_header b 2) key in
      b ← encode_entries (encode_array_header b (len entries)) entries;
      encode_streams b replies
  end.

Definition write_xread_response (c : cid) (key start_id : list Z) : M unit :=
  it ← find key;
  match it with
  | Some (StreamObject streamPtr) =>
      let actualStartId := if bool_decide (start_id = lit "$") then lit "0-0" else start_id in
      let '(ok, entries) := xrangeData streamPtr actualStartId (lit "+") true in
      if negb ok || bool_decide (entries = []) then write_to c encode_null_array
      else write_outcome c (fun b => encode_streams (encode_array_header b 1) [(key, entries)])
  | _ => write_to c encode_null_bulk_string
  end.

(** [handle_blocked_xread_clients]: everybody in the key's line is answered. *)
Fixpoint wake_all (q : list BlockedXreadClient) : M unit :=
  match q with
  | [] => mret tt
  | blocked_client :: q =>
      p ← lock (bx_client blocked_client);
      match p with
      | Some _ =>
          write_xread_response (bx_client blocked_client) (bx_stream_key blocked_client)
            (bx_stream_id blocked_client);;
          modify_ctx (set_unblocked (bx_fd blocked_client))
      | None => mret tt
      end;;
      wake_all q
  end.

Definition handle_blocked_xread_clients (key : list Z) : M unit :=
  blocked ← get_db (fun d => blocked_xread_keys d !! key);
  match blocked with
  | Some ((_ :: _) as q) =>
      wake_all q;;
      modify_db (set_blocked_xread_keys (delete key))
  | _ => mret tt
  end.

Definition xadd_error (e : StreamErrorType) (b : list Z) : list Z :=
  match e with
  | INVALID_ID_FORMAT => encode_error b (lit "Invalid stream ID format")
  | ID_NOT_GREATER_THAN_LAST =>
      encode_error b (lit "The ID specified in XADD is equal or smaller than the target stream top item")
  | NOT_GREATER_THAN_ZERO => encode_error b (lit "The ID specified in XADD must be greater than 0-0")
  | OK => b
  end.

Definition is_OK (e : StreamErrorType) : bool := match e with OK => true | _ => false end.

Definition handle_xadd (key stream_id : list Z) (field_values : list (list Z * list Z)) : M unit :=
  it ← find key;
  match it with
  | Some (StreamObject _) | None =>
      let streamPtr := match it with Some (StreamObject st) => st | _ => newStream end in
      let '(streamPtr, status) :=
        Stream.insert streamPtr stream_id (raw_value field_values) millisecond in
      put key (StreamObject streamPtr);;
      if negb (is_OK (error status)) then reply (xadd_error (error status))
      else
        reply (fun b => encode_bulk_string b (streamid status));;
        mark_watching_clients_dirty key;;
        handle_blocked_xread_clients key
  | Some _ => reply (fun b => encode_error b (lit "Key exists with different data type"))
  end.

Definition reply_outcome (f : list Z -> outcome (list Z)) : M unit :=
  c ← get (fun w => client (ctx w)); write_outcome c f.

Definition handle_xrange (key start end_ : list Z) : M unit :=
  it ← find key;
  match it with
  | Some (StreamObject streamPtr) =>
      let '(ok, entries) := xrangeData streamPtr start end_ false in
      if negb ok || bool_decide (entries = []) then reply encode_empty_array
      else reply_outcome (fun b => encode_entries (encode_array_header b (len entries)) entries)
  | _ => reply encode_empty_array
  end.

Definition mark_client_blocking (key stream_id : list Z) (expirationTime : spec_float) : M unit :=
  c ← get ctx;
  modify_ctx set_isBlocked;;
  bc ← lift (newBlockedXreadClient (steady_now env) (client c) (client_fd c) expirationTime stream_id key);
  modify_db (set_blocked_xread_keys (push_at key bc)).

(** The loop of [handle_xread]; [None]: the client was blocked and the handler
    returned.  A missing key of a non-blocking call is dereferenced after the
    empty array was written: no defined result. *)
Fixpoint xread_loop (block_timeout : option spec_float) (keys startIds : list (list Z))
    (replies : list (list Z * list (list Z * list Z)))
  : M (option (list (list Z * list (list Z * list Z)))) :=
  let isBlocking := if block_timeout is Some _ then true else false in
  let expirationTime := default (S754_zero false) block_timeout in
  match keys, startIds with
  | key :: keys, startId :: startIds =>
      it ← find key;
      if isBlocking && bool_decide (startId = lit "$") then
        let blockOnId := match it with
                         | Some (StreamObject st) => toString (lastInsertStreamID st)
                         | _ => startId
                         end in
        mark_client_blocking key blockOnId expirationTime;; mret None
      else
        match it with
        | None =>
            if isBlocking then mark_client_blocking key startId expirationTime;; mret None
            else stuck
        | Some (StreamObject streamPtr) =>
            let '(ok, entries) := xrangeData streamPtr startId (lit "+") true in
            if negb ok || bool_decide (entries = []) then
              if isBlocking then mark_client_blocking key startId expirationTime;; mret None
              else xread_loop block_timeout keys startIds replies
            else xread_loop block_timeout keys startIds (replies ++ [(key, entries)])
        | Some _ => xread_loop block_timeout keys startIds replies
        end
  | _, _ => mret (Some replies)
  end.

Definition handle_xread (block_timeout : option spec_float) (keys startIds : list (list Z)) : M unit :=
  if negb (length keys =? length startIds)%nat then reply encode_empty_array
  else
    r ← xread_loop block_timeout keys startIds [];
    match r with
    | None => mret tt
    | Some [] => reply encode_empty_array
    | Some replies => reply_outcome (fun b => encode_streams (encode_array_header b (len replies)) replies)
    end.
End Handlers.

(** * What a stream holds *)

Abbreviation log := (list (StreamID * list (list Z * list Z))).

(** The fields and values of an entry in the order in which they are sent. *)
Definition flat (fvs : list (list Z * list Z)) : list (list Z) :=
  concat (map (fun fv => [fv.1; fv.2]) fvs).

Definition raw_log (l : log) : list (StreamID * list Z) := map (fun iv => (iv.1, raw_value iv.2)) l.

(** The payload fits in a [size_t] with room to add two positions. *)
Definition addressable (fvs : list (list Z * list Z)) : Prop := len (raw_value fvs) < 2 ^ 63.

Definition stream_in (s : gmap (list Z) RedisObject) (key : list Z) : Stream RadixTree :=
  match s !! key with Some (StreamObject st) => st | _ => newStream end.

(** [key] holds the log [l]; a missing key holds the empty one. *)
Definition log_at (s : gmap (list Z) RedisObject) (key : list Z) (l : log) : Prop :=
  Forall (fun iv => addressable iv.2) l /\
  match s !! key with
  | None => l = []
  | Some (StreamObject st) => stream_rep st (raw_log l)
  | Some _ => False
  end.

(** The entries between two bounds, none when a bound does not parse. *)
Definition between (s e : list Z) (isExclusive : bool) (l : log) : log :=
  match fromStringForSearch s false, fromStringForSearch e true with
  | Some a, Some b => List.filter (fun iv => id_in a b isExclusive iv.1) l
  | _, _ => []
  end.

Definition entry_reply (b : list Z) (iv : StreamID * list (list Z * list Z)) : list Z :=
  encode_bulk_string_array (encode_bulk_string (encode_array_header b 2) (toString iv.1)) (flat iv.2).

Definition entries_reply (l : log) (b : list Z) : list Z :=
  fold_left entry_reply l (encode_array_header b (len l)).

(** What a reader that waited from [start] on is sent. *)
Definition read_reply (key start : list Z) (l : log) (b : list Z) : list Z :=
  match between (if bool_decide (start = lit "$") then lit "0-0" else start) (lit "+") true l with
  | [] => encode_null_array b
  | l => entries_reply l (encode_bulk_string (encode_array_header (encode_array_header b 1) 2) key)
  end.

Lemma raw_value_flat fvs : raw_value fvs = concat (map bulk (flat fvs)).
Proof.
  unfold raw_value, flat. induction fvs as [|fv fvs IH]; [done|].
  cbn [map concat app]. by rewrite IH, <- app_assoc.
Qed.

Lemma entry_fields_raw fvs : addressable fvs -> entry_fields (raw_value fvs) = Done (flat fvs).
Proof.
  unfold addressable, entry_fields. rewrite raw_value_flat. intros H.
  by rewrite parse_items by done.
Qed.

Lemma encode_entries_eq l : forall b,
  Forall (fun iv => addressable iv.2) l -> Forall (fun iv => id_wf iv.1) l ->
  encode_entries b (log_entries (raw_log l)) = Done (fold_left entry_reply l b).
Proof.
  induction l as [|[i fvs] l IH]; intros b Ha Hw; [done|].
  apply Forall_cons in Ha as [Ha Hal], Hw as [Hw Hwl].
  cbn [raw_log log_entries map encode_entries fold_left fst snd]. unfold encode_entry.
  cbn [fst snd] in *. rewrite fromBinary_toBinary, bind_Done by done.
  rewrite entry_fields_raw, bind_Done by done. by apply IH.
Qed.

Lemma raw_log_nil l : raw_log l = [] <-> l = [].
Proof. by destruct l. Qed.

Lemma log_entries_nil l : log_entries (raw_log l) = [] <-> l = [].
Proof. by destruct l. Qed.

Lemma filter_raw_log p (l : log) :
  List.filter (fun iv => p iv.1) (raw_log l) = raw_log (List.filter (fun iv => p iv.1) l).
Proof. unfold raw_log. by apply filter_map. Qed.

Lemma xrangeData_log st l s e ex :
  stream_rep st (raw_log l) ->
  exists ok, xrangeData st s e ex = (ok, log_entries (raw_log (between s e ex l))) /\
             negb ok || bool_decide (log_entries (raw_log (between s e ex l)) = [])
             = bool_decide (between s e ex l = []).
Proof.
  intros Hr. unfold between. destruct (decide (l = [])) as [->|Hne].
  - destruct Hr as (_ & _ & _ & Ht). unfold xrangeData.
    destruct (fromStringForSearch s false) as [a|]; [|by exists false].
    destruct (fromStringForSearch e true) as [b|]; [|by exists false].
    destruct (radixTreePtr st) as [t|]; [|by exists false]. destruct Ht as [Hi He].
    exists true. by rewrite index_range_filter, He by done.
  - rewrite (xrangeData_rep st (raw_log l)) by (rewrite ?raw_log_nil; done).
    destruct (fromStringForSearch s false) as [a|]; [|by exists false].
    destruct (fromStringForSearch e true) as [b|]; [|by exists false].
    exists true. rewrite filter_raw_log. split; [done|]. cbn [negb orb].
    apply bool_decide_ext, log_entries_nil.
Qed.

Lemma stream_rep_ids st l : stream_rep st (raw_log l) -> Forall (fun iv => id_wf iv.1) l.
Proof.
  intros [H _]. apply Forall_map in H. eapply Forall_impl; [exact H|]. by intros iv [].
Qed.

Lemma Forall_between (P : StreamID * list (list Z * list Z) -> Prop) s e ex l :
  Forall P l -> Forall P (between s e ex l).
Proof.
  intros H. unfold between. destruct (fromStringForSearch s false), (fromStringForSearch e true); try constructor.
  rewrite Forall_forall in *. intros x Hx. apply H. by apply elem_of_filter_list in Hx as [].
Qed.

(** * Handlers on a stream *)
Lemma encode_between st s e ex l b :
  stream_rep st (raw_log l) -> Forall (fun iv => addressable iv.2) l ->
  encode_entries b (log_entries (raw_log (between s e ex l)))
  = Done (fold_left entry_reply (between s e ex l) b).
Proof.
  intros Hr Ha. apply encode_entries_eq; apply Forall_between; [done|by eapply stream_rep_ids].
Qed.

Lemma encode_streams_one key st s e ex l b :
  stream_rep st (raw_log l) -> Forall (fun iv => addressable iv.2) l ->
  encode_streams (encode_array_header b 1) [(key, log_entries (raw_log (between s e ex l)))]
  = Done (entries_reply (between s e ex l)
            (encode_bulk_string (encode_array_header (encode_array_header b 1) 2) key)).
Proof.
  intros Hr Ha. cbn [encode_streams]. rewrite (encode_between st), bind_Done by done.
  unfold entries_reply, len, log_entries, raw_log. by rewrite !length_map.
Qed.

(** The client [c] is sent [f], and nothing else happens. *)
Definition sends (w w' : World) (c : cid) (f : list Z -> list Z) : Prop :=
  db w' = db w /\ acl w' = acl w /\ ctx w' = ctx w /\
  forall c', sent w' c' = if decide (c' = c) then f <$> sent w c' else sent w c'.

Lemma write_to_sends c f w b :
  sent w c = Some b -> exists w', write_to c f w = Done (tt, w') /\ sends w w' c f.
Proof.
  unfold sent. destruct (clients w !! c) as [x|] eqn:Hx; [|done]. intros _.
  unfold write_to. rewrite (update_client_eq _ _ _ _ Hx). eexists. split; [done|]. split_and!; [done..|].
  intros c'. unfold sent. cbn [with_clients clients].
  destruct (decide (c' = c)) as [->|Hne]; [by rewrite lookup_alter_eq, Hx|by rewrite lookup_alter_ne].
Qed.

Lemma write_outcome_sends c f g w :
  (forall b, f b = Done (g b)) -> is_Some (sent w c) ->
  exists w', write_outcome c f w = Done (tt, w') /\ sends w w' c g.
Proof.
  intros Hf [b Hb]. destruct (write_to_sends c (fun _ => g b) w b Hb) as (w' & E & H1 & H2 & H3 & H4).
  exists w'. unfold write_outcome, lock. run_M. unfold sent in Hb.
  destruct (clients w !! c) as [x|] eqn:Hx; [|done]. injection Hb as <-. rewrite Hf. split; [exact E|].
  split_and!; try done. intros c'. rewrite H4. destruct (decide (c' = c)) as [->|]; [|done].
  unfold sent. by rewrite Hx.
Qed.

Lemma write_xread_response_sends c key start l st w :
  store (db w) !! key = Some (StreamObject st) -> stream_rep st (raw_log l) ->
  Forall (fun iv => addressable iv.2) l -> is_Some (sent w c) ->
  exists w', write_xread_response c key start w = Done (tt, w') /\
             sends w w' c (read_reply key start l).
Proof.
  intros Hk Hr Ha [b Hb]. unfold write_xread_response. unfold find, get_db, get, mbind, M_bind.
  rewrite Hk. unfold read_reply.
  set (s := if bool_decide (start = lit "$") then lit "0-0" else start).
  destruct (xrangeData_log st l s (lit "+") true Hr) as (ok & -> & Hok). rewrite Hok.
  destruct (bool_decide_reflect (between s (lit "+") true l = [])) as [->|Hne].
  - by eapply write_to_sends.
  - destruct (write_outcome_sends c _ _ w
      (fun b => encode_streams_one key st s (lit "+") true l b Hr Ha)) as (w' & E & H); [by eexists|].
    exists w'. split; [exact E|]. by destruct (between s (lit "+") true l).
Qed.

(** The part of the waiting line that is the client [c], answered in turn. *)
Definition woken (key : list Z) (l : log) (q : list BlockedXreadClient) (c : cid) (b : list Z) : list Z :=
  fold_left (fun b bx => if decide (bx_client bx = c) then read_reply key (bx_stream_id bx) l b else b) q b.

(** The only descriptor the event loop is told to watch: that of the last one
    served. *)
Definition last_woken (w : World) (q : list BlockedXreadClient) (fd : Z) : Z :=
  fold_left (fun fd bx => if sent w (bx_client bx) is Some _ then bx_fd bx else fd) q fd.

Lemma last_woken_ext w w' q : (forall c, is_Some (sent w' c) <-> is_Some (sent w c)) ->
  forall fd, last_woken w' q fd = last_woken w q fd.
Proof.
  intros H. induction q as [|bx q IH]; intros fd; [done|]. unfold last_woken in *. cbn [fold_left].
  rewrite IH. f_equal. specialize (H (bx_client bx)).
  destruct (sent w' (bx_client bx)), (sent w (bx_client bx)); try done.
  - by destruct (proj1 H (ltac:(by eexists))).
  - by destruct (proj2 H (ltac:(by eexists))).
Qed.

Lemma wake_all_eq key l st q : forall w,
  store (db w) !! key = Some (StreamObject st) -> stream_rep st (raw_log l) ->
  Forall (fun iv => addressable iv.2) l -> Forall (fun bx => bx_stream_key bx = key) q ->
  exists w', wake_all q w = Done (tt, w') /\ db w' = db w /\ acl w' = acl w /\
    client (ctx w') = client (ctx w) /\
    unblocked_client_fd (ctx w') = last_woken w q (unblocked_client_fd (ctx w)) /\
    forall c, sent w' c = woken key l q c <$> sent w c.
Proof.
  induction q as [|bx q IH]; intros w Hk Hr Ha Hq; cbn [wake_all].
  { exists w. split_and!; try done. intros c. cbn. by destruct (sent w c). }
  apply Forall_cons in Hq as [Hbx Hq]. rewrite Hbx. unfold lock, get, mbind, M_bind.
  unfold last_woken, woken. cbn [fold_left].
  destruct (clients w !! bx_client bx) as [x|] eqn:Hx.
  - assert (Hs : sent w (bx_client bx) = Some (write_buffer x)) by (unfold sent; by rewrite Hx).
    destruct (write_xread_response_sends (bx_client bx) key (bx_stream_id bx) l st w)
      as (w1 & -> & D1 & A1 & C1 & S1); [done..|by eexists|].
    unfold modify_ctx, modify.
    destruct (IH (with_ctx (set_unblocked (bx_fd bx)) w1)) as (w' & -> & D & A & C & U & S);
      [by cbn; rewrite D1|done..|].
    cbn [with_ctx db acl ctx] in *. exists w'. rewrite Hs. split_and!; try congruence.
    + rewrite C. cbn. by rewrite C1.
    + rewrite U. apply last_woken_ext. intros c.
      change (sent (with_ctx (set_unblocked (bx_fd bx)) w1) c) with (sent w1 c).
      rewrite S1. destruct (decide _); [|done]. apply fmap_is_Some.
    + intros c. rewrite S. change (sent (with_ctx (set_unblocked (bx_fd bx)) w1) c) with (sent w1 c).
      rewrite S1. destruct (decide (c = bx_client bx)) as [->|Hne].
      * destruct (sent w (bx_client bx)); cbn; [|done]. by rewrite decide_True.
      * destruct (sent w c); cbn; [|done]. by rewrite decide_False.
  - assert (Hs : sent w (bx_client bx) = None) by (unfold sent; by rewrite Hx).
    unfold mret, M_ret.
    destruct (IH w Hk Hr Ha Hq) as (w' & -> & D & A & C & U & S).
    exists w'. rewrite Hs. split_and!; try done. intros c. rewrite S.
    destruct (decide (bx_client bx = c)) as [<-|]; [by rewrite Hs|done].
Qed.

Lemma log_at_rep s key l : log_at s key l -> stream_rep (stream_in s key) (raw_log l).
Proof.
  intros [_ H]. unfold stream_in. destruct (s !! key) as [[| | |]|]; try done.
  subst l. apply newStream_rep.
Qed.

Lemma log_at_insert s key l st :
  Forall (fun iv => addressable iv.2) l -> stream_rep st (raw_log l) ->
  log_at (<[key := StreamObject st]> s) key l.
Proof. intros Ha Hr. split; [done|]. by rewrite lookup_insert_eq. Qed.

(** The verdict on an ID: the status and the ID it stands for. *)
Definition xadd_outcome (env : Env) (s : gmap (list Z) RedisObject) (key id : list Z) (l : log)
  : StreamErrorType * StreamID :=
  match fromString (stream_in s key) id (millisecond env) with
  | None => (INVALID_ID_FORMAT, zeroID)
  | Some sid =>
      if bool_decide (sid = zeroID) then (NOT_GREATER_THAN_ZERO, sid)
      else if isGreater sid (last_id (raw_log l)) then (OK, sid)
      else (ID_NOT_GREATER_THAN_LAST, sid)
  end.

(** [handle_xadd] up to the insertion. *)
Lemma handle_xadd_eq env key id fvs l w :
  is_u64 (millisecond env) -> log_at (store (db w)) key l -> addressable fvs ->
  let '(e, sid) := xadd_outcome env (store (db w)) key id l in
  exists st', let w1 := with_db (set_store (<[key := StreamObject st']>)) w in
    stream_rep st' (raw_log (if is_OK e then l ++ [(sid, fvs)] else l)) /\
    handle_xadd env key id fvs w =
      if is_OK e then
        (reply (fun b => encode_bulk_string b (toString sid));;
         mark_watching_clients_dirty key;;
         handle_blocked_xread_clients key) w1
      else reply (xadd_error e) w1.
Proof.
  intros Hn Hl Hf. pose proof (log_at_rep _ _ _ Hl) as Hr. destruct Hl as [_ Hl].
  pose proof (insert_rep (stream_in (store (db w)) key) (raw_log l) id (raw_value fvs) (millisecond env) Hr Hn) as Hi.
  assert (Hh : handle_xadd env key id fvs w =
    (let '(streamPtr, status) := Stream.insert (stream_in (store (db w)) key) id (raw_value fvs) (millisecond env) in
     put key (StreamObject streamPtr);;
     if negb (is_OK (error status)) then reply (xadd_error (error status))
     else
       reply (fun b => encode_bulk_string b (streamid status));;
       mark_watching_clients_dirty key;;
       handle_blocked_xread_clients key) w).
  { unfold handle_xadd, stream_in. unfold find, get_db, get, mbind at 1, M_bind at 1.
    by destruct (store (db w) !! key) as [[| | |]|]. }
  rewrite Hh. clear Hh. unfold xadd_outcome.
  destruct (fromString _ _ _) as [sid|]; [destruct (bool_decide _); [|destruct (isGreater _ _)]|].
  - rewrite Hi. by exists (stream_in (store (db w)) key).
  - destruct Hi as (st' & -> & Hr'). exists st'. split; [|done].
    cbn [is_OK]. unfold raw_log in *. by rewrite map_app.
  - rewrite Hi. by exists (stream_in (store (db w)) key).
  - rewrite Hi. by exists (stream_in (store (db w)) key).
Qed.

(** Everybody who waits on [key] is answered from the log just written. *)
Lemma handle_blocked_xread_clients_eq key l st q w :
  store (db w) !! key = Some (StreamObject st) -> stream_rep st (raw_log l) ->
  Forall (fun iv => addressable iv.2) l -> Forall (fun bx => bx_stream_key bx = key) q ->
  default [] (blocked_xread_keys (db w) !! key) = q ->
  exists w', handle_blocked_xread_clients key w = Done (tt, w') /\
    store (db w') = store (db w) /\
    default [] (blocked_xread_keys (db w') !! key) = [] /\
    (forall k, k <> key -> blocked_xread_keys (db w') !! k = blocked_xread_keys (db w) !! k) /\
    unblocked_client_fd (ctx w') = last_woken w q (unblocked_client_fd (ctx w)) /\
    forall c, sent w' c = woken key l q c <$> sent w c.
Proof.
  intros Hk Hr Ha Hq Hb. unfold handle_blocked_xread_clients, get_db, get, mbind at 1, M_bind at 1.
  destruct (blocked_xread_keys (db w) !! key) as [[|bx q']|] eqn:E; cbn in Hb; subst q.
  - exists w. rewrite E. split_and!; try done. intros c. cbn. by destruct (sent w c).
  - destruct (wake_all_eq key l st (bx :: q') w Hk Hr Ha Hq) as (w1 & E1 & D & _ & _ & U & S).
    exists (with_db (set_blocked_xread_keys (delete key)) w1). unfold mbind, M_bind. rewrite E1.
    split_and!; try done; cbn.
    + by rewrite D.
    + by rewrite lookup_delete_eq.
    + intros k Hne. by rewrite lookup_delete_ne, D.
  - exists w. rewrite E. split_and!; try done. intros c. cbn. by destruct (sent w c).
Qed.

(** * Properties *)

Definition is_stream (o : RedisObject) : bool := match o with StreamObject _ => true | _ => false end.

(** C31: XADD on every branch.  A key that holds another type is answered that it
    exists with a different data type, and nothing in the data base changes.
    Otherwise, on a missing key or a stream whose entries fit memory: an ID that
    does not parse, that is 0-0 or that is not above the last one is refused with the
    matching error and leaves the log as it is (at a missing key, an empty one);
    any other ID has the entry put at the end of the log and is answered, every
    living client that waits on the key is sent the entries after the ID it waits
    on, each as often as it waits, and the line is dissolved; other keys are
    untouched, and the context keeps the descriptor of the last client served
    only. *)
Theorem XADD_spec env key id fvs w :
  alive w ->
  (forall o, store (db w) !! key = Some o -> is_stream o = false ->
     exists w', handle_xadd env key id fvs w = Done (tt, w') /\
       answers w w' (db w) (fun b => encode_error b (lit "Key exists with different data type"))) /\
  (forall l q, is_u64 (millisecond env) -> log_at (store (db w)) key l -> addressable fvs ->
  Forall (fun bx => bx_stream_key bx = key) q ->
  default [] (blocked_xread_keys (db w) !! key) = q ->
  let self := client (ctx w) in
  exists w', handle_xadd env key id fvs w = Done (tt, w') /\
    (forall k, k <> key -> store (db w') !! k = store (db w) !! k /\
                           blocked_xread_keys (db w') !! k = blocked_xread_keys (db w) !! k) /\
    match xadd_outcome env (store (db w)) key id l with
    | (OK, sid) =>
        let l' := l ++ [(sid, fvs)] in
        log_at (store (db w')) key l' /\ default [] (blocked_xread_keys (db w') !! key) = [] /\
        unblocked_client_fd (ctx w') = last_woken w q (unblocked_client_fd (ctx w)) /\
        forall c, sent w' c =
          (fun b => woken key l' q c
             (if decide (c = self) then encode_bulk_string b (toString sid) else b)) <$> sent w c
    | (e, _) =>
        log_at (store (db w')) key l /\ blocked_xread_keys (db w') = blocked_xread_keys (db w) /\
        forall c, sent w' c = if decide (c = self) then xadd_error e <$> sent w c else sent w c
    end).
Proof.
  intros Hal. split.
  { intros o Ho Hs. unfold handle_xadd, find, get_db, get. unfold mbind at 1, M_bind at 1. rewrite Ho.
    destruct o; try discriminate Hs; by apply reply_answers. }
  intros l q Hn Hl Hf Hq Hb self.
  pose proof (handle_xadd_eq env key id fvs l w Hn Hl Hf) as H.
  destruct (xadd_outcome env (store (db w)) key id l) as [e sid]. destruct H as (st' & Hr & ->).
  set (w1 := with_db (set_store (<[key := StreamObject st']>)) w) in *.
  assert (Ha1 : alive w1) by exact Hal. destruct Hl as [Hfs Hl].
  destruct (is_OK e) eqn:He.
  - destruct e; try done. assert (Hfs' : Forall (fun iv => addressable iv.2) (l ++ [(sid, fvs)])).
    { apply Forall_app. split; [done|]. by constructor; [|constructor]. }
    destruct (reply_mark key (fun b => encode_bulk_string b (toString sid)) w1 Ha1) as (w2 & E2 & [D2 _ C2 S2]).
    destruct (handle_blocked_xread_clients_eq key (l ++ [(sid, fvs)]) st' q w2)
      as (w' & E' & D' & B' & O' & U' & S'); try done.
    { rewrite D2. cbn. by rewrite lookup_insert_eq. }
    { by rewrite D2. }
    exists w'. split.
    { revert E2. unfold mbind, M_bind. destruct (reply _ w1) as [[[] w1']|]; [|done].
      intros ->. exact E'. }
    split; [|split_and!].
    + intros k Hne. rewrite D', (O' k Hne), D2. cbn. by rewrite lookup_insert_ne.
    + rewrite D', D2. by apply log_at_insert.
    + done.
    + rewrite U', C2. apply last_woken_ext. intros c. rewrite S2.
      change (sent w1 c) with (sent w c). destruct (decide _); [|done]. apply fmap_is_Some.
    + intros c. rewrite S', S2. change (client (ctx w1)) with self. change (sent w1 c) with (sent w c).
      destruct (decide (c = self)); by destruct (sent w c).
  - destruct (reply_answers (xadd_error e) w1 Ha1) as (w' & E' & [D' _ C' S']).
    exists w'. split; [exact E'|]. split.
    { intros k Hne. rewrite D'. cbn. by rewrite lookup_insert_ne. }
    assert (log_at (store (db w')) key l) by (rewrite D'; by apply log_at_insert).
    assert (blocked_xread_keys (db w') = blocked_xread_keys (db w)) by (by rewrite D').
    by destruct e.
Qed.

(** XRANGE answers exactly the entries between its bounds, in ID order, each
    with its ID in text form and the fields and values it was added with, byte
    for byte; a bound that does not parse, like an absent key, gives the empty
    array.  Nothing changes. *)
Theorem XRANGE_spec key s e l w :
  alive w -> log_at (store (db w)) key l ->
  exists w', handle_xrange key s e w = Done (tt, w') /\
             answers w w' (db w) (entries_reply (between s e false l)).
Proof.
  intros Ha Hl. unfold handle_xrange. unfold find, get_db, get, mbind at 1, M_bind at 1.
  assert (Hnone : l = [] -> exists w', reply encode_empty_array w = Done (tt, w') /\
    answers w w' (db w) (entries_reply (between s e false l))).
  { intros ->. destruct (reply_answers encode_empty_array w Ha) as (w' & E & H).
    exists w'. split; [exact E|]. unfold between.
    by destruct (fromStringForSearch s false), (fromStringForSearch e true). }
  destruct Hl as [Hf Hl].
  destruct (store (db w) !! key) as [[| |st|]|]; try done; [|by apply Hnone].
  destruct (xrangeData_log st l s e false Hl) as (ok & -> & Hok). rewrite Hok.
  destruct (bool_decide_reflect (between s e false l = [])) as [->|Hne].
  { apply (reply_answers encode_empty_array w Ha). }
  destruct Ha as [x Hx].
  destruct (write_outcome_sends (client (ctx w))
    (fun b => encode_entries (encode_array_header b (len (log_entries (raw_log (between s e false l)))))
                (log_entries (raw_log (between s e false l))))
    (entries_reply (between s e false l)) w) as (w' & E & D & A & C & S).
  { intros b. rewrite (encode_between st) by done. unfold entries_reply, len, log_entries, raw_log.
    by rewrite !length_map. }
  { unfold sent. rewrite Hx. by eexists. }
  exists w'. split; [|by split]. exact E.
Qed.

(** XREAD of one key.  With a timeout and "$" the client waits from the last ID
    of the log on, whatever the log holds; otherwise it is answered the entries after
    the given ID, and when there are none it waits from that ID on if it gave
    a timeout and is answered the empty array if not.  A waiting client is at
    the end of the key's line and is sent nothing. *)
Theorem XREAD_spec env block key start l bc w :
  alive w -> log_at (store (db w)) key l -> is_Some (store (db w) !! key) ->
  let wait_from := if bool_decide (start = lit "$") then toString (last_id (raw_log l)) else start in
  (forall t, block = Some t ->
     newBlockedXreadClient (steady_now env) (client (ctx w)) (client_fd (ctx w)) t wait_from key = Done bc) ->
  let after := between start (lit "+") true l in
  exists w', handle_xread env block [key] [start] w = Done (tt, w') /\
    if (if block is Some _ then true else false)
       && (bool_decide (start = lit "$") || bool_decide (after = []))
    then db w' = set_blocked_xread_keys (push_at key bc) (db w) /\ isBlocked (ctx w') = true /\
         clients w' = clients w
    else answers w w' (db w) (if bool_decide (after = []) then encode_empty_array else read_reply key start l).
Proof.
  intros Ha [Hf Hl] [o Ho] wait_from Hbc after. rewrite Ho in Hl. destruct o as [| |st|]; try done.
  unfold handle_xread. cbn [length Nat.eqb negb xread_loop].
  unfold find, get_db, get, mbind, M_bind. rewrite Ho.
  assert (Hblock : forall t, block = Some t -> exists w',
    mark_client_blocking env key wait_from t w = Done (tt, w') /\
    db w' = set_blocked_xread_keys (push_at key bc) (db w) /\ isBlocked (ctx w') = true /\ clients w' = clients w).
  { intros t Ht. unfold mark_client_blocking. run_M. cbn [with_ctx ctx client client_fd].
    rewrite (Hbc t Ht). eexists. by split. }
  subst wait_from. destruct (xrangeData_log st l start (lit "+") true Hl) as (ok & E & Hok).
  destruct (bool_decide_reflect (start = lit "$")) as [Hd|Hd].
  - destruct block as [t|]; cbn [andb orb].
    + destruct (Hblock t eq_refl) as (w' & Hw & H). exists w'. split; [|exact H].
      destruct Hl as (_ & _ & -> & _). change (default (S754_zero false) (Some t)) with t. by rewrite Hw.
    + rewrite E, Hok. subst start. change (between (lit "$") (lit "+") true l) with (@nil (StreamID * list (list Z * list Z))) in *.
      apply (reply_answers encode_empty_array w Ha).
  - cbn [orb]. rewrite andb_false_r, E, Hok. fold after.
    destruct (bool_decide_reflect (after = [])) as [Hn|Hn].
    + destruct block as [t|]; [|apply (reply_answers encode_empty_array w Ha)].
      destruct (Hblock t eq_refl) as (w' & Hw & H). exists w'. split; [|exact H].
      change (default (S754_zero false) (Some t)) with t. by rewrite Hw.
    + rewrite andb_false_r. destruct Ha as [x Hx].
      destruct (write_outcome_sends (client (ctx w)) _ _ w
        (fun b => encode_streams_one key st start (lit "+") true l b Hl Hf)) as (w' & Hw & D & A & C & S).
      { unfold sent. rewrite Hx. by eexists. }
      exists w'. split; [exact Hw|]. split; [done..|]. intros c. rewrite S. unfold read_reply.
      rewrite bool_decide_false by done. fold after. by destruct after.
Qed.

(** * Concrete inputs *)

Definition sample_fields : list (list Z * list Z) := [(lit "temp", lit "36"); (lit "hum", [13; 10])].
Definition log1 : log := [(MkID 5 1, sample_fields)].
Definition stream1 : Stream RadixTree := (Stream.insert newStream (lit "5-1") (raw_value sample_fields) 0).1.

Definition e_stream : Env :=
  MkEnv 1000 2000 (fun _ => 0) (fun _ => []) (fun _ _ => []) id id (fun x _ => x) id.

(** The stream [s] holds one entry, and client 2 waits for more. *)
Definition w_stream : World :=
  MkWorld (set_blocked_xread_keys (fun _ => {[ lit "s" := [MkBlockedXread 2%nat 8 INT64_MAX (lit "5-1") (lit "s")] ]})
             (set_store (fun _ => {[ lit "s" := StreamObject stream1 ]}) newDB))
    {[ 1%nat := newClient 7; 2%nat := newClient 8 ]} Acl.newACLManager (newContext 1%nat 7 None).

Lemma w_stream_alive : alive w_stream.
Proof. by exists (newClient 7). Qed.

Lemma w_stream_log : log_at (store (db w_stream)) (lit "s") log1.
Proof.
  split; [repeat constructor; vm_compute; reflexivity|].
  change (stream_rep stream1 (raw_log log1)).
  pose proof (insert_rep newStream [] (lit "5-1") (raw_value sample_fields) 0 newStream_rep) as H.
  destruct H as (st & E & Hr); [split; [done|vm_compute; discriminate]|].
  unfold stream1. rewrite E. exact Hr.
Qed.

Lemma XADD_spec_witness :
  exists w', handle_xadd e_stream (lit "s") (lit "5-*") sample_fields w_stream = Done (tt, w') /\
    log_at (store (db w')) (lit "s") (log1 ++ [(MkID 5 2, sample_fields)]) /\
    sent w' 1%nat = Some (encode_bulk_string [] (lit "5-2")) /\
    sent w' 2%nat = Some (read_reply (lit "s") (lit "5-1") (log1 ++ [(MkID 5 2, sample_fields)]) []).
Proof.
  destruct (proj2 (XADD_spec e_stream (lit "s") (lit "5-*") sample_fields w_stream w_stream_alive) log1
    [MkBlockedXread 2%nat 8 INT64_MAX (lit "5-1") (lit "s")]) as (w' & H1 & _ & H2).
  - vm_compute. split; discriminate.
  - exact w_stream_log.
  - vm_compute. reflexivity.
  - repeat constructor.
  - vm_compute. reflexivity.
  - destruct H2 as (H2 & _ & _ & H3). exists w'. split; [exact H1|]. split; [exact H2|].
    split; [exact (H3 1%nat)|exact (H3 2%nat)].
Defined.

Lemma XRANGE_spec_witness :
  exists w', handle_xrange (lit "s") (lit "-") (lit "+") w_stream = Done (tt, w') /\
             answers w_stream w' (db w_stream) (entries_reply log1).
Proof. exact (XRANGE_spec (lit "s") (lit "-") (lit "+") log1 w_stream w_stream_alive w_stream_log). Defined.

Lemma XREAD_spec_witness :
  exists w', handle_xread e_stream (Some (S754_zero false)) [lit "s"] [lit "$"] w_stream = Done (tt, w') /\
    db w' = set_blocked_xread_keys (push_at (lit "s") (MkBlockedXread 1%nat 7 INT64_MAX (lit "5-1") (lit "s")))
              (db w_stream) /\ isBlocked (ctx w') = true /\ clients w' = clients w_stream.
Proof.
  refine (XREAD_spec e_stream (Some (S754_zero false)) (lit "s") (lit "$") log1
            (MkBlockedXread 1%nat 7 INT64_MAX (lit "5-1") (lit "s")) w_stream w_stream_alive w_stream_log _ _).
  - by eexists.
  - intros t [= <-]. vm_compute. reflexivity.
Defined.
