(* ===== verification/DbZset.v ===== *)
(** [src/db/ZADD], [ZCARD], [ZRANGE], [ZRANK], [ZREM], [ZSCORE], [GEOADD],
    [GEODIST], [GEOPOS], [GEOSEARCH]: the handlers of sorted sets.  They read
    their arguments from the command of the context, not from the one they were
    called with, and refuse when its type is another one, as it is inside EXEC.
    The theorems: what ZADD and ZREM leave in the set and answer, and what the
    queries and searches answer. *)
From Stdlib Require Import SpecFloat.
From S2P Require Import Prelude Utils SortedSet Command CommandParser Geohash World.

Definition wrongtype : list Z :=
  lit "WRONGTYPE Operation against a key holding the wrong kind of value".
Definition invalid_command : list Z := lit "Invalid command type".

(** The tests [!c.command || c.command->type != T]. *)
Definition as_zadd (c : option Command) := match c with Some (MkCommand key _ (ZaddCommand a)) => Some (key, a) | _ => None end.
Definition as_zcard (c : option Command) := match c with Some (MkCommand key _ ZcardCommand) => Some key | _ => None end.
Definition as_zrange (c : option Command) := match c with Some (MkCommand key _ (ZrangeCommand s e)) => Some (key, s, e) | _ => None end.
Definition as_zrank (c : option Command) := match c with Some (MkCommand key _ (ZrankCommand m)) => Some (key, m) | _ => None end.
Definition as_zrem (c : option Command) := match c with Some (MkCommand key _ (ZremCommand ms)) => Some (key, ms) | _ => None end.
Definition as_zscore (c : option Command) := match c with Some (MkCommand key _ (ZscoreCommand m)) => Some (key, m) | _ => None end.

(** The command of the context through one of these views, or the error. *)
Definition with_command {A} (view : option Command -> option A) (k : A -> M unit) : M unit :=
  c ← get (fun w => view (command (ctx w)));
  match c with
  | Some a => k a
  | None => reply (fun b => encode_error b invalid_command)
  end.

(** The sorted set at a key; what happens without one and with another type. *)
Definition with_sorted_set (key : list Z) (missing : M unit) (k : SortedSet -> M unit) : M unit :=
  it ← find key;
  match it with
  | None => missing
  | Some (SortedSetObject sortedSet) => k sortedSet
  | Some _ => reply (fun b => encode_error b wrongtype)
  end.

Section Handlers.
Context (env : Env).

(** The insertions of ZADD: the set and how many members are new. *)
Fixpoint zadd_loop (sortedSet : SortedSet) (score_members : list (spec_float * list Z)) (added : Z)
  : outcome (SortedSet * Z) :=
  match score_members with
  | [] => mret (sortedSet, added)
  | (score, member) :: score_members =>
      r ← SortedSet.insert sortedSet member score;
      let '(sortedSet, wasKeyExisted) := r in
      zadd_loop sortedSet score_members (if (wasKeyExisted : bool) then added else added + 1)
  end.

Definition handle_zadd : M unit :=
  with_command as_zadd (fun '(key, score_members) =>
    let add sortedSet :=
      r ← lift (zadd_loop sortedSet score_members 0);
      let '(sortedSet, added) := r in
      put key (SortedSetObject sortedSet);;
      reply (fun b => encode_integer b added) in
    with_sorted_set key (add newSortedSet) add).

Definition handle_zcard : M unit :=
  with_command as_zcard (fun key =>
    with_sorted_set key (reply (fun b => encode_integer b 0)) (fun sortedSet =>
      reply (fun b => encode_integer b (size sortedSet)))).

Definition handle_zrange : M unit :=
  with_command as_zrange (fun '(key, start, stop) =>
    with_sorted_set key (reply encode_empty_array) (fun sortedSet =>
      reply (fun b => encode_bulk_string_array b (range sortedSet start stop)))).

Definition handle_zrank : M unit :=
  with_command as_zrank (fun '(key, member) =>
    with_sorted_set key (reply encode_null_bulk_string) (fun sortedSet =>
      match rank sortedSet member with
      | Some rank => reply (fun b => encode_integer b (Z.of_nat rank))
      | None => reply encode_null_bulk_string
      end)).

Fixpoint zrem_loop (sortedSet : SortedSet) (members : list (list Z)) (removed : Z) : SortedSet * Z :=
  match members with
  | [] => (sortedSet, removed)
  | member :: members =>
      let '(sortedSet, found) := remove sortedSet member in
      zrem_loop sortedSet members (if (found : bool) then removed + 1 else removed)
  end.

Definition handle_zrem : M unit :=
  with_command as_zrem (fun '(key, members) =>
    with_sorted_set key (reply (fun b => encode_integer b 0)) (fun sortedSet =>
      let '(sortedSet, removed) := zrem_loop sortedSet members 0 in
      put key (SortedSetObject sortedSet);;
      reply (fun b => encode_integer b removed))).

Definition handle_zscore : M unit :=
  with_command as_zscore (fun '(key, member) =>
    with_sorted_set key (reply encode_null_bulk_string) (fun sortedSet =>
      match score sortedSet member with
      | Some score =>
          score_str ← lift (if isGeo sortedSet then n ← to_uint64 score; mret (to_string n)
                            else mret (fixed env 14 score));
          reply (fun b => encode_bulk_string b score_str)
      | None => reply encode_null_bulk_string
      end)).

(** * Geo commands: members of a sorted set scored by their hash *)
Definition as_geoadd (c : option Command) :=
  match c with Some (MkCommand key _ (GeoAddCommand lon lat score member inv)) => Some (key, lon, lat, score, member, inv) | _ => None end.
Definition as_geodist (c : option Command) := match c with Some (MkCommand key _ (GeoDistCommand a b)) => Some (key, a, b) | _ => None end.
Definition as_geopos (c : option Command) := match c with Some (MkCommand key _ (GeoPosCommand ms)) => Some (key, ms) | _ => None end.
Definition as_geosearch (c : option Command) :=
  match c with Some (MkCommand key _ (GeoSearchCommand lon lat radius)) => Some (key, lon, lat, radius) | _ => None end.

Definition set_isGeo (ss : SortedSet) : SortedSet :=
  MkSortedSet (hashMap ss) (sets ss) (SortedSet.length_ ss) true.

(** The text of [snprintf] into 128 bytes. *)
Definition invalid_pair (longitude latitude : spec_float) : list Z :=
  take 127 (lit "invalid longitude,latitude pair " ++ double_to_string env longitude
            ++ lit "," ++ double_to_string env latitude).

Definition handle_geoadd : M unit :=
  with_command as_geoadd (fun '(key, longitude, latitude, score, member, invalidLatLon) =>
    if (invalidLatLon : bool) then reply (fun b => encode_error b (invalid_pair longitude latitude))
    else
      let add sortedSet :=
        r ← lift (SortedSet.insert (set_isGeo sortedSet) member score);
        let '(sortedSet, wasKeyExisted) := r in
        put key (SortedSetObject sortedSet);;
        reply (fun b => encode_integer b (if (wasKeyExisted : bool) then 0 else 1)) in
      with_sorted_set key (add newSortedSet) add).

(** The cell of a score, with 26 bits per coordinate. *)
Definition area_of (score : spec_float) : outcome GeoHashArea :=
  bits ← to_uint64 score; mret (geoHashDecode geoAddHash (MkBits bits 26)).

Definition handle_geodist : M unit :=
  with_command as_geodist (fun '(key, member1, member2) =>
    with_sorted_set key (reply encode_null_bulk_string) (fun sortedSet =>
      match score sortedSet member1, score sortedSet member2 with
      | Some score1, Some score2 =>
          area1 ← lift (area_of score1);
          area2 ← lift (area_of score2);
          let distance := calculateDistance (World.sin env) (World.cos env) (World.atan2 env) area1 area2 in
          reply (fun b => encode_bulk_string b (fixed env 4 distance))
      | _, _ => reply encode_null_bulk_string
      end)).

Definition midpoint (r : GeoHashRange) : spec_float := fdiv (fadd (min r) (max r)) (of_int 2).

Fixpoint geopos_loop (sortedSet : SortedSet) (members : list (list Z)) (b : list Z) : outcome (list Z) :=
  match members with
  | [] => mret b
  | member :: members =>
      match score sortedSet member with
      | None => geopos_loop sortedSet members (encode_null_array b)
      | Some score =>
          area ← area_of score;
          geopos_loop sortedSet members
            (encode_bulk_string
               (encode_bulk_string (encode_array_header b 2) (fixed env 14 (midpoint (longitude area))))
               (fixed env 14 (midpoint (latitude area))))
      end
  end.

Definition handle_geopos : M unit :=
  with_command as_geopos (fun '(key, members) =>
    with_sorted_set key
      (reply (fun b => fold_left (fun b _ => encode_null_array b) members (encode_array_header b (len members))))
      (fun sortedSet =>
        c ← self;
        b ← lift (geopos_loop sortedSet members (encode_array_header (write_buffer c) (len members)));
        reply (fun _ => b))).

(** The centre is hashed and decoded like a member; when it lies outside the
    allowed ranges, [geoHashEncode] leaves the hash 0. *)
Fixpoint geosearch_loop (centerArea : GeoHashArea) (radius : spec_float)
    (allMembers : list (list Z * spec_float)) (results : list (list Z)) : outcome (list (list Z)) :=
  match allMembers with
  | [] => mret results
  | (member, score) :: allMembers =>
      hashArea ← area_of score;
      let distance := calculateDistance (World.sin env) (World.cos env) (World.atan2 env) centerArea hashArea in
      geosearch_loop centerArea radius allMembers
        (if SFleb distance radius then results ++ [member] else results)
  end.

Definition handle_geosearch : M unit :=
  with_command as_geosearch (fun '(key, centerLon, centerLat, radius) =>
    with_sorted_set key (reply encode_empty_array) (fun sortedSet =>
      h ← lift (geoHashEncode geoAddHash centerLon centerLat 26);
      let centerHashBits := match h with Some h => h | None => MkBits 0 26 end in
      let centerArea := geoHashDecode geoAddHash centerHashBits in
      results ← lift (geosearch_loop centerArea radius (getAllWithScores sortedSet) []);
      reply (fun b => encode_bulk_string_array b results))).
End Handlers.

(** * What a sorted set holds *)

(** [key] holds the scores [m]; a missing key holds none. *)
Definition zset_at (s : gmap (list Z) RedisObject) (key : list Z) (m : gmap (list Z) spec_float) : Prop :=
  match s !! key with
  | None => m = ∅
  | Some (SortedSetObject ss) => inv ss /\ hashMap ss = m
  | Some _ => False
  end.

Definition add_all (score_members : list (spec_float * list Z)) (m : gmap (list Z) spec_float)
  : gmap (list Z) spec_float := fold_left (fun m sm => <[sm.2 := sm.1]> m) score_members m.

Definition remove_all (members : list (list Z)) (m : gmap (list Z) spec_float)
  : gmap (list Z) spec_float := fold_left (fun m x => delete x m) members m.

Abbreviation card m := (Z.of_nat (base.size (m : gmap (list Z) spec_float))).

Lemma zadd_loop_eq sms : forall ss k,
  inv ss -> Forall (fun sm => is_nan sm.1 = false) sms ->
  exists ss', zadd_loop ss sms k = Done (ss', k + card (hashMap ss') - card (hashMap ss)) /\
              inv ss' /\ hashMap ss' = add_all sms (hashMap ss).
Proof.
  induction sms as [|[s x] sms IH]; intros ss k Hi Hn; cbn [zadd_loop].
  - exists ss. split_and!; [|done|done]. unfold mret, outcome_ret. do 2 f_equal. lia.
  - apply Forall_cons in Hn as [Hs Hn]. cbn in Hs.
    destruct (insert ss x s) as [[ss1 b]|] eqn:E.
    2:{ unfold insert in E. rewrite Hs in E. by destruct (hashMap ss !! x). }
    destruct (insert_inv _ _ _ _ _ Hi E) as (Hi1 & Hm1 & Hb). rewrite bind_Done.
    destruct (IH ss1 (if b then k else k + 1) Hi1 Hn) as (ss' & -> & Hi' & Hm').
    exists ss'. split_and!; [|done|by rewrite Hm', Hm1]. do 2 f_equal. rewrite Hm1.
    subst b. destruct (hashMap ss !! x) as [old|] eqn:Hx.
    + rewrite bool_decide_true by eauto.
      rewrite map_size_insert_Some by eauto. lia.
    + rewrite bool_decide_false by (by intros [? ?]). rewrite map_size_insert_None by done. lia.
Qed.

Lemma zrem_loop_eq members : forall ss k,
  inv ss ->
  exists ss', zrem_loop ss members k = (ss', k + card (hashMap ss) - card (hashMap ss')) /\
              inv ss' /\ hashMap ss' = remove_all members (hashMap ss).
Proof.
  induction members as [|x members IH]; intros ss k Hi; cbn [zrem_loop].
  - exists ss. split_and!; [|done|done]. f_equal. lia.
  - destruct (remove_inv ss x Hi) as (Hi1 & Hm1 & Hb). destruct (remove ss x) as [ss1 b]. cbn in *.
    destruct (IH ss1 (if b then k + 1 else k) Hi1) as (ss' & -> & Hi' & Hm').
    exists ss'. split_and!; [|done|by rewrite Hm', Hm1]. f_equal. rewrite Hm1. subst b.
    destruct (hashMap ss !! x) as [old|] eqn:Hx.
    + rewrite bool_decide_true by eauto. rewrite map_size_delete_Some by eauto.
      assert (base.size (hashMap ss) <> 0%nat).
      { apply map_size_non_empty_iff. intros E. by rewrite E, lookup_empty in Hx. }
      lia.
    + rewrite bool_decide_false by (by intros [? ?]). rewrite map_size_delete_None by done. lia.
Qed.

Lemma put_reply key o f w :
  alive w ->
  exists w', (put key o;; reply f) w = Done (tt, w') /\
             answers w w' (set_store (<[key := o]>) (db w)) f.
Proof.
  intros Ha. destruct (reply_answers f (with_db (set_store (<[key := o]>)) w)) as (w' & E & H); [done|].
  exists w'. split; [exact E|]. by apply answers_with_db in H.
Qed.

(** * Properties *)

(** C32: ZADD and ZREM.  ZADD with scores that are numbers (a NaN is excluded: the
    comparison that orders the set is undefined for it) gives the members their
    scores from left to right and answers by how many the set has grown; ZREM takes
    the members out and answers by how many it has shrunk, and on a missing key it
    leaves the data base as it is, so that no key is created; the two structures of
    the set stay in agreement; both refuse a key that holds another type with
    WRONGTYPE and change nothing. *)
Theorem ZADD_ZREM_spec key n w :
  alive w ->
  (forall m sms, command (ctx w) = Some (MkCommand key n (ZaddCommand sms)) ->
     Forall (fun sm => is_nan sm.1 = false) sms -> zset_at (store (db w)) key m ->
     exists w' ss, handle_zadd w = Done (tt, w') /\ inv ss /\ hashMap ss = add_all sms m /\
       answers w w' (set_store (<[key := SortedSetObject ss]>) (db w))
         (fun b => encode_integer b (card (add_all sms m) - card m))) /\
  (forall m members, command (ctx w) = Some (MkCommand key n (ZremCommand members)) ->
     zset_at (store (db w)) key m ->
     exists w' d, handle_zrem w = Done (tt, w') /\ zset_at (store d) key (remove_all members m) /\
       (forall k, k <> key -> store d !! k = store (db w) !! k) /\
       (store (db w) !! key = None -> d = db w) /\
       answers w w' d (fun b => encode_integer b (card m - card (remove_all members m)))) /\
  (forall o, store (db w) !! key = Some o -> (forall ss, o <> SortedSetObject ss) ->
     (forall sms, command (ctx w) = Some (MkCommand key n (ZaddCommand sms)) ->
        exists w', handle_zadd w = Done (tt, w') /\
          answers w w' (db w) (fun b => encode_error b wrongtype)) /\
     (forall members, command (ctx w) = Some (MkCommand key n (ZremCommand members)) ->
        exists w', handle_zrem w = Done (tt, w') /\
          answers w w' (db w) (fun b => encode_error b wrongtype))).
Proof.
  intros Ha. split_and!.
  - intros m sms Hc Hn Hz.
    assert (Hadd : forall ss, inv ss -> hashMap ss = m -> exists w' ss',
      (r ← World.lift (zadd_loop ss sms 0);
       let '(sortedSet, added) := r in
       put key (SortedSetObject sortedSet);; reply (fun b => encode_integer b added)) w = Done (tt, w') /\
      inv ss' /\ hashMap ss' = add_all sms m /\
      answers w w' (set_store (<[key := SortedSetObject ss']>) (db w))
        (fun b => encode_integer b (card (add_all sms m) - card m))).
    { intros ss Hi <-. destruct (zadd_loop_eq sms ss 0 Hi Hn) as (ss' & E & Hi' & Hm').
      rewrite Hm' in E. edestruct (put_reply key (SortedSetObject ss')) as (w' & Hw & HA); [exact Ha|].
      exists w', ss'. split; [|done]. unfold World.lift, mbind at 1, M_bind at 1. rewrite E. exact Hw. }
    unfold handle_zadd, with_command, with_sorted_set, find, get_db, get.
    unfold mbind at 1, M_bind at 1. rewrite Hc. cbn [as_zadd]. unfold mbind at 1, M_bind at 1.
    unfold zset_at in Hz. destruct (store (db w) !! key) as [[| | |ss]|] eqn:Hk; try done.
    + destruct Hz as [Hi Hm]. exact (Hadd ss Hi Hm).
    + subst m. exact (Hadd newSortedSet newSortedSet_inv eq_refl).
  - intros m members Hc Hz.
    unfold handle_zrem, with_command, with_sorted_set, find, get_db, get.
    unfold mbind at 1, M_bind at 1. rewrite Hc. cbn [as_zrem]. unfold mbind at 1, M_bind at 1.
    unfold zset_at in Hz. destruct (store (db w) !! key) as [[| | |ss]|] eqn:Hk; try done.
    + destruct Hz as [Hi <-]. destruct (zrem_loop_eq members ss 0 Hi) as (ss' & -> & Hi' & Hm').
      edestruct (put_reply key (SortedSetObject ss')) as (w' & Hw & HA); [exact Ha|].
      exists w', (set_store (<[key := SortedSetObject ss']>) (db w)). split; [exact Hw|].
      rewrite <- Hm'. split_and!; [|intros k Hne; cbn; by rewrite lookup_insert_ne|done|exact HA].
      unfold zset_at. cbn. by rewrite lookup_insert_eq.
    + subst m. edestruct (reply_answers (fun b => encode_integer b 0) w Ha) as (w' & Hw & HA).
      assert (E : remove_all members ∅ = ∅).
      { clear. induction members; [done|]. unfold remove_all. cbn. by rewrite delete_empty. }
      exists w', (db w). split; [exact Hw|]. rewrite E, Z.sub_diag. split_and!; [|done|done|exact HA].
      unfold zset_at. by rewrite Hk.
  - intros o Hk Ho. split; intros l Hc; unfold handle_zadd, handle_zrem, with_command, with_sorted_set, find, get_db, get;
      unfold mbind at 1, M_bind at 1; rewrite Hc; cbn [as_zadd as_zrem]; unfold mbind at 1, M_bind at 1; rewrite Hk;
      destruct o as [| | |ss]; try (by apply reply_answers); by destruct (Ho ss).
Qed.

(** ** Queries *)

(** The end of a query: one answer, the data base as it was. *)
Lemma answer_only f w (m : M unit) : alive w -> m w = reply f w -> exists w', m w = Done (tt, w') /\ answers w w' (db w) f.
Proof. intros Ha ->. by apply reply_answers. Qed.

Ltac query Hc Hk :=
  apply answer_only; [done|];
  unfold with_command, with_sorted_set, find, get_db, get; unfold mbind at 1, M_bind at 1; rewrite Hc;
  cbn [as_zcard as_zscore as_zrank as_zrange as_geodist as_geosearch];
  unfold mbind at 1, M_bind at 1; rewrite Hk.

(** The queries on a sorted set that holds the scores [m]: ZCARD answers the number
    of members, ZSCORE the score or null, ZRANK the number of pairs below the
    member's own or null; none changes anything. *)
Theorem zset_queries_spec env key n ss w :
  alive w -> store (db w) !! key = Some (SortedSetObject ss) -> inv ss -> isGeo ss = false ->
  let m := hashMap ss in
  (command (ctx w) = Some (MkCommand key n ZcardCommand) ->
     exists w', handle_zcard w = Done (tt, w') /\ answers w w' (db w) (fun b => encode_integer b (card m))) /\
  (forall x, command (ctx w) = Some (MkCommand key n (ZscoreCommand x)) ->
     exists w', handle_zscore env w = Done (tt, w') /\
       answers w w' (db w) (match m !! x with
                            | Some s => fun b => encode_bulk_string b (fixed env 14 s)
                            | None => encode_null_bulk_string
                            end)) /\
  (forall x, command (ctx w) = Some (MkCommand key n (ZrankCommand x)) ->
     exists w', handle_zrank w = Done (tt, w') /\
       answers w w' (db w) (match m !! x with
                            | Some s => fun b => encode_integer b (len (List.filter (fun y => pair_ltb y (s, x)) (sets ss)))
                            | None => encode_null_bulk_string
                            end)).
Proof.
  intros Ha Hk Hi Hg m. split_and!.
  - intros Hc. unfold handle_zcard. query Hc Hk. by rewrite (proj2 (SortedSet_rank_counts ss [] Hi)).
  - intros x Hc. unfold handle_zscore. query Hc Hk. unfold score. subst m.
    destruct (hashMap ss !! x); [|done]. by rewrite Hg.
  - intros x Hc. unfold handle_zrank. query Hc Hk. rewrite (proj1 (SortedSet_rank_counts ss x Hi)). unfold score. subst m.
    by destruct (hashMap ss !! x).
Qed.

(** ** Geo queries *)

(** The distance of a member from the centre of a search, for a score that decodes. *)
Definition distance_from (env : Env) (centerArea : GeoHashArea) (score : spec_float) : option spec_float :=
  match area_of score with
  | Done a => Some (calculateDistance (World.sin env) (World.cos env) (World.atan2 env) centerArea a)
  | Stuck => None
  end.

Definition within_radius (env : Env) (centerArea : GeoHashArea) (radius : spec_float) (e : list Z * spec_float) : bool :=
  match distance_from env centerArea e.2 with Some d => SFleb d radius | None => false end.

Lemma geosearch_loop_eq env c radius l : forall results,
  Forall (fun e => exists a, area_of e.2 = Done a) l ->
  geosearch_loop env c radius l results = Done (results ++ map fst (List.filter (within_radius env c radius) l)).
Proof.
  induction l as [|[x s] l IH]; intros results H; cbn [geosearch_loop List.filter map]; [by rewrite app_nil_r|].
  apply Forall_cons in H as [[a Ha] H]. cbn in Ha. rewrite Ha, bind_Done. cbv zeta. rewrite IH by done.
  unfold within_radius at 2, distance_from. cbn [snd]. rewrite Ha.
  destruct (SFleb _ radius); cbn [map]; by rewrite <- ?app_assoc.
Qed.

(** GEOSEARCH and GEODIST.  On a set all of whose scores are geohashes, a search
    answers exactly the members whose cell is within the radius of the centre's
    cell, in the order of the set; the distance of two members is that of their
    cells, to four decimals, and null when one is missing. *)
Theorem GEOSEARCH_GEODIST_spec env key n ss w :
  alive w -> store (db w) !! key = Some (SortedSetObject ss) ->
  Forall (fun e => exists a, area_of e.2 = Done a) (getAllWithScores ss) ->
  (forall lon lat radius h, command (ctx w) = Some (MkCommand key n (GeoSearchCommand lon lat radius)) ->
     geoHashEncode geoAddHash lon lat 26 = Done (Some h) ->
     exists w', handle_geosearch env w = Done (tt, w') /\
       answers w w' (db w) (fun b => encode_bulk_string_array b
         (map fst (List.filter (within_radius env (geoHashDecode geoAddHash h) radius) (getAllWithScores ss))))) /\
  (forall x y, command (ctx w) = Some (MkCommand key n (GeoDistCommand x y)) ->
     (forall s, score ss x = Some s -> exists a, area_of s = Done a) ->
     (forall s, score ss y = Some s -> exists a, area_of s = Done a) ->
     exists w', handle_geodist env w = Done (tt, w') /\
       answers w w' (db w) (match score ss x, score ss y with
         | Some s1, Some s2 =>
             fun b => encode_bulk_string b
               (fixed env 4 (default f1 (a ← match area_of s1 with Done a => Some a | Stuck => None end; distance_from env a s2)))
         | _, _ => encode_null_bulk_string
         end)).
Proof.
  intros Ha Hk Hs. split.
  - intros lon lat radius h Hc Hh. unfold handle_geosearch. query Hc Hk. unfold World.lift at 1. rewrite Hh.
    unfold mbind, M_bind, outcome_bind, World.lift. cbn. by rewrite geosearch_loop_eq.
  - intros x y Hc Hx Hy. unfold handle_geodist. query Hc Hk.
    destruct (score ss x) as [s1|]; [|done]. destruct (score ss y) as [s2|]; [|done].
    destruct (Hx s1 eq_refl) as [a1 E1], (Hy s2 eq_refl) as [a2 E2]. unfold distance_from. rewrite E1, E2.
    unfold World.lift, mbind, M_bind. cbn. reflexivity.
Qed.

(** * Concrete inputs *)

(** The set [z] holds the members a, b and c, and client 1 asks for [args]. *)
Definition w_zset (args : Args) : World :=
  MkWorld (set_store (fun _ => {[ lit "z" := SortedSetObject sample_set ]}) newDB)
    {[ 1%nat := newClient 7 ]} Acl.newACLManager
    (newContext 1%nat 7 (Some (MkCommand (lit "z") 0 args))).

Lemma w_zset_alive args : alive (w_zset args).
Proof. by exists (newClient 7). Qed.

Lemma ZADD_ZREM_spec_witness :
  (exists w' ss, let w := w_zset (ZaddCommand [(f3, lit "b"); (f1, lit "d")]) in
     handle_zadd w = Done (tt, w') /\ inv ss /\ sent w' 1%nat = Some (encode_integer [] 1)) /\
  (exists w', let w := w_zset (ZremCommand [lit "a"; lit "x"]) in
     handle_zrem w = Done (tt, w') /\ sent w' 1%nat = Some (encode_integer [] 1)).
Proof.
  assert (Hz : forall args, zset_at (store (db (w_zset args))) (lit "z") (hashMap sample_set)).
  { intros args. exact (conj sample_set_inv eq_refl). }
  split.
  - destruct (proj1 (ZADD_ZREM_spec (lit "z") 0 (w_zset (ZaddCommand [(f3, lit "b"); (f1, lit "d")]))
      (w_zset_alive _)) _ _ eq_refl ltac:(repeat constructor) (Hz _)) as (w' & ss & H1 & H2 & _ & [_ _ _ H3]).
    exists w', ss. split; [exact H1|]. split; [exact H2|]. exact (H3 1%nat).
  - destruct (proj1 (proj2 (ZADD_ZREM_spec (lit "z") 0 (w_zset (ZremCommand [lit "a"; lit "x"]))
      (w_zset_alive _))) _ _ eq_refl (Hz _)) as (w' & d & H1 & _ & _ & _ & [_ _ _ H3]).
    exists w'. split; [exact H1|]. exact (H3 1%nat).
Defined.
