(* ===== verification/Db.v ===== *)
(** [src/db/db.cpp] and the handlers [MULTI], [EXEC], [DISCARD], [KEYS],
    [GET_CONFIG], [PUBSUB], [ACL]: dispatch, transactions, publish/subscribe,
    authentication.  [execute] is what the server calls with each parsed command. *)
From Stdlib Require Import SpecFloat.
From S2P Require Import Prelude Utils Acl Command World DbString DbList DbStream DbZset.

Section Handlers.
Context (env : Env).

Definition handle_ping : M unit :=
  c ← self;
  if isClientOnPubSub c then reply (fun b => encode_bulk_string b (lit "pong"))
  else reply (fun b => encode_simple_string b (lit "PONG")).

Definition handle_echo (message : list Z) : M unit := reply (fun b => encode_bulk_string b message).

Definition handle_acl_whoami : M unit :=
  c ← self;
  username ← match user c with
             | None => mret (lit "default")
             | Some u => x ← get (fun w => deref (acl w) u);
                         match x with Some x => mret (username x) | None => stuck end
             end;
  reply (fun b => encode_bulk_string b username).

(** The context's command through a view; the code casts without a test, so
    another type has no defined result. *)
Definition cast_command {A} (view : Command -> option A) : M A :=
  c ← get (fun w => command (ctx w));
  match c with
  | Some c => match view c with Some a => mret a | None => stuck end
  | None => stuck
  end.

Definition as_getuser (c : Command) := match args c with ACLGetUserCommand u => Some u | _ => None end.
Definition as_setuser (c : Command) := match args c with ACLSetUserCommand u p f => Some (u, p, f) | _ => None end.
Definition as_auth (c : Command) := match args c with AuthCommand u p => Some (u, p) | _ => None end.
Definition as_getconfig (c : Command) := match args c with GetConfigCommand ps => Some ps | _ => None end.
Definition as_keys (c : Command) := match args c with KeysCommand p => Some p | _ => None end.
Definition as_subscribe (c : Command) := match args c with SubscribeCommand ch => Some ch | _ => None end.
Definition as_unsubscribe (c : Command) := match args c with UnSubscribeCommand ch => Some ch | _ => None end.
Definition as_publish (c : Command) := match args c with PublishCommand ch m => Some (ch, m) | _ => None end.

(** The name in the command is not used: the reply describes the client's user. *)
Definition handle_acl_getuser : M unit :=
  _ ← cast_command as_getuser;
  c ← self;
  '(user_flags, passwords) ←
    match user c with
    | None => mret ([], [])
    | Some u => x ← get (fun w => deref (acl w) u);
                match x with Some x => mret (Acl.flags x, passwords x) | None => stuck end
    end;
  reply (fun b =>
    encode_bulk_string_array
      (encode_bulk_string
         (encode_bulk_string_array (encode_bulk_string (encode_array_header b 4) (lit "flags")) user_flags)
         (lit "passwords"))
      passwords).

Definition handle_acl_setuser : M unit :=
  '(username, password, _) ← cast_command as_setuser;
  let hashedPassword := match password with Some p => hash_sha256 (SHA256 env) p | None => [] end in
  modify (with_acl (fun m => setUser m username hashedPassword []));;
  reply (fun b => encode_simple_string b (lit "OK")).

Definition wrongpass (b : list Z) : list Z :=
  encode_error_type b (lit "invalid username-password pair or user is disabled") (lit "WRONGPASS").

Definition log_in (user : nat) : M unit :=
  update_self (with_user (Some user) true);;
  reply (fun b => encode_simple_string b (lit "OK")).

Definition handle_auth : M unit :=
  '(username, password) ← cast_command as_auth;
  found ← get (fun w => user ← getUser (acl w) username; x ← deref (acl w) user; mret (user, x));
  match found with
  | None => reply wrongpass
  | Some (user, x) =>
      if negb (is_enabled x) then reply wrongpass
      else if nopass x then log_in user
      else
        let hashedPassword := hash_sha256 (SHA256 env) password in
        let passwordMatch := existsb (fun stored => bool_decide (stored = hashedPassword)) (passwords x) in
        if negb passwordMatch then reply wrongpass else log_in user
  end.

Definition handle_multi : M unit :=
  update_self addTransactionFlags;;
  reply (fun b => encode_simple_string b (lit "OK")).

Definition handle_discard : M unit :=
  c ← self;
  if negb (isClientOnTransaction c) then reply (fun b => encode_error b (lit "DISCARD without MULTI"))
  else
    update_self (with_queued (fun _ => []));;
    update_self resetFlags;;
    reply (fun b => encode_simple_string b (lit "OK")).

(** Inside EXEC the context's command is no KEYS, and nothing is written. *)
Definition handleKeys : M unit :=
  c ← get (fun w => c ← command (ctx w); as_keys c);
  match c with
  | None => mret tt
  | Some pattern =>
      if bool_decide (pattern = lit "*") then
        keys ← get_db (fun d => map fst (map_to_list (store d)));
        reply (fun b => encode_bulk_string_array b keys)
      else reply encode_empty_array
  end.

(** [config->rdb_file_path] is an argument. *)
Definition handleGetConfig (rdb_file_path : list Z) : M unit :=
  parameters ← cast_command as_getconfig;
  for_each (fun p =>
    if is_equal p (lit "dir") then
      reply (fun b => encode_bulk_string (encode_bulk_string (encode_array_header b 2) (lit "dir")) rdb_file_path)
    else mret tt) parameters.

(** * Publish and subscribe *)
Definition publish_message (channel_name message b : list Z) : list Z :=
  encode_bulk_string_array b [lit "message"; channel_name; message].

(** The loop over a copy of the channel's subscribers. *)
Fixpoint publish_loop (channel_name message : list Z) (l : list cid) (active_subscribed_clients : Z) : M unit :=
  match l with
  | [] => reply (fun b => encode_integer b active_subscribed_clients)
  | client :: l =>
      p ← lock client;
      match p with
      | Some _ =>
          write_to client (publish_message channel_name message);;
          modify_ctx (add_ready client);;
          publish_loop channel_name message l (active_subscribed_clients + 1)
      | None =>
          modify_ctx (add_ready client);;
          publish_loop channel_name message l active_subscribed_clients
      end
  end.

Definition handlePublish : M unit :=
  '(channel_name, message) ← cast_command as_publish;
  subscribed_clients ← get_db (fun d => default [] (pubsub_clients d !! channel_name));
  modify_db (set_pubsub_clients (<[channel_name := subscribed_clients]>));;
  publish_loop channel_name message subscribed_clients 0.

(** The subscribers without the first one on descriptor [fd], and whether there
    was one.  The search dereferences every subscriber it passes: one that is
    gone has no defined result. *)
Fixpoint unsubscribe_loop (clients : gmap cid Client) (fd : Z) (l : list cid) : outcome (list cid * bool) :=
  match l with
  | [] => mret ([], false)
  | c :: l =>
      x ← of_option (clients !! c);
      if World.fd x =? fd then mret (l, true)
      else r ← unsubscribe_loop clients fd l; mret (c :: r.1, r.2)
  end.

Definition channel_reply (what channel_name : list Z) (total : Z) (b : list Z) : list Z :=
  encode_integer (encode_bulk_string (encode_bulk_string (encode_array_header b 3) what) channel_name) total.

Definition handleUnSubscribe : M unit :=
  channel_name ← cast_command as_unsubscribe;
  c ← self;
  w ← get id;
  r ← lift (unsubscribe_loop (clients w) (World.fd c) (default [] (pubsub_clients (db w) !! channel_name)));
  let '(subscribedClients, found) := r in
  modify_db (set_pubsub_clients (<[channel_name := subscribedClients]>));;
  (if (found : bool) then update_self (with_channels (fun n => u64 (n - 1))) else mret tt);;
  c ← self;
  reply (channel_reply (lit "unsubscribe") channel_name (i64 (total_subscribed_channels c))).

Definition handleSubscribe : M unit :=
  channel_name ← cast_command as_subscribe;
  self_ref ← get (fun w => client (ctx w));
  modify_db (set_pubsub_clients (push_at channel_name self_ref));;
  update_self setClientPubSub;;
  update_self (with_channels (fun n => u64 (n + 1)));;
  c ← self;
  reply (channel_reply (lit "subscribe") channel_name (i64 (total_subscribed_channels c))).

Definition formatError (t : CommandType) : list Z :=
  lit "Can't execute '" ++ commandTypeToString t
  ++ lit "': only (P|S)SUBSCRIBE / (P|S)UNSUBSCRIBE / PING / QUIT / RESET are allowed in this context".

(** * Dispatch *)

(** [call]; EXEC goes to [exec].  Commands without a case are answered like PING. *)
Definition call_with (exec : M unit) (cmd : Command) : M unit :=
  match args cmd with
  | PingCommand => handle_ping
  | EchoCommand message => handle_echo message
  | ACLWhoamiCommand => handle_acl_whoami
  | ACLGetUserCommand _ => handle_acl_getuser
  | SetCommand value ex px => handle_set env (key cmd) value ex px
  | GetCommand => handle_get_or_type env (key cmd) false
  | TypeCommand => handle_get_or_type env (key cmd) true
  | IncrCommand => handle_incr (key cmd)
  | RpushCommand values => handle_push env (key cmd) values false
  | LpushCommand values => handle_push env (key cmd) values true
  | LrangeCommand start stop => handle_lrange (key cmd) start stop
  | LlenCommand => handle_llen (key cmd)
  | LpopCommand count => handle_lpop env (key cmd) count
  | BlpopCommand keys timeout => handle_blpop env keys timeout
  | XaddCommand stream_id field_values => handle_xadd env (key cmd) stream_id field_values
  | XrangeCommand start end_ => handle_xrange (key cmd) start end_
  | XreadCommand block_timeout keys ids => handle_xread env block_timeout keys ids
  | MultiCommand => handle_multi
  | ExecCommand => exec
  | DiscardCommand => handle_discard
  | KeysCommand _ => handleKeys
  | SubscribeCommand _ => handleSubscribe
  | PublishCommand _ _ => handlePublish
  | ZaddCommand _ => handle_zadd
  | ZrankCommand _ => handle_zrank
  | ZrangeCommand _ _ => handle_zrange
  | ZcardCommand => handle_zcard
  | ZscoreCommand _ => handle_zscore env
  | ZremCommand _ => handle_zrem
  | GeoAddCommand _ _ _ _ _ => handle_geoadd env
  | GeoPosCommand _ => handle_geopos env
  | GeoDistCommand _ _ => handle_geodist env
  | GeoSearchCommand _ _ _ => handle_geosearch env
  | UnSubscribeCommand _ | UnknowCommand | ACLSetUserCommand _ _ _ | AuthCommand _ _
  | InfoCommand _ | ReplConfCommand _ _ _ _ | PsyncCommand _ _ | WaitCommand _ _
  | GetConfigCommand _ => handle_ping
  end.

(** The queue is run as it stands when EXEC arrives.  EXEC and DISCARD are never
    queued ([execute]), so a queued command cannot start another EXEC: that case
    is [stuck], and [exec_free] of [Invariant.v] is the invariant. *)
Definition handle_exec : M unit :=
  c ← self;
  if negb (isClientOnTransaction c) then reply (fun b => encode_error b (lit "EXEC without MULTI"))
  else
    reply (fun b => encode_array_header b (len (queued_commands c)));;
    for_each (call_with stuck) (queued_commands c);;
    update_self (with_queued (fun _ => []));;
    update_self resetFlags.

Definition call (cmd : Command) : M unit := call_with handle_exec cmd.

Definition handlePubSub (cmd : Command) : M unit :=
  match args cmd with
  | SubscribeCommand _ => handleSubscribe
  | UnSubscribeCommand _ => handleUnSubscribe
  | PingCommand =>
      reply (fun b => encode_array_header b 2);;
      call cmd;;
      reply (fun b => encode_bulk_string b [])
  | _ => reply (fun b => encode_error b (formatError (type cmd)))
  end.

Definition queue_command (cmd : Command) : M unit :=
  modify_ctx (set_command None);;
  update_self (with_queued (fun q => q ++ [cmd]));;
  self_ref ← get (fun w => client (ctx w));
  modify_db (set_watching_keys (push_at (key cmd) self_ref));;
  reply (fun b => encode_simple_string b (lit "QUEUED")).

Definition execute (rdb_file_path : list Z) : M unit :=
  cmd ← get (fun w => command (ctx w));
  c ← self;
  match cmd with
  | None => mret tt
  | Some cmd =>
      if bool_decide (type cmd = ACL_WHOAMI) && negb (is_authenticated c) then
        reply (fun b => encode_error_type b (lit "Authentication required.") (lit "NOAUTH"))
      else if isClientOnTransaction c && negb (bool_decide (type cmd = EXEC))
              && negb (bool_decide (type cmd = DISCARD)) then queue_command cmd
      else if isClientOnPubSub c then handlePubSub cmd
      else if bool_decide (type cmd = GETCONFIG) then handleGetConfig rdb_file_path
      else if bool_decide (type cmd = ACL_SETUSER) then handle_acl_setuser
      else if bool_decide (type cmd = AUTH) then handle_auth
      else call cmd
  end.
End Handlers.
