(* ===== verification/Invariant.v ===== *)
(** The invariant of the data base between two commands, and a small logic for
    it: [keeps m] says that every completed run of [m] preserves the invariant;
    it composes along the monad, so each handler is a structural proof. *)
From S2P Require Import Prelude Utils Acl Command World DbString DbList DbStream DbZset Db.

(** EXEC and DISCARD are never waiting in a queue. *)
Definition exec_free (cmd : Command) : Prop := type cmd <> EXEC /\ type cmd <> DISCARD.

(** Deadlines belong to stored keys, so that no lookup erases [end()]; users are
    well formed and every logged-in client refers to one; queues are exec-free. *)
Record Inv (w : World) : Prop := {
  inv_expiring : expiring (db w);
  inv_acl : acl_wf (acl w);
  inv_user c x u : clients w !! c = Some x -> user x = Some u -> is_Some (deref (acl w) u);
  inv_queue c x : clients w !! c = Some x -> Forall exec_free (queued_commands x)
}.

Definition keeps {A} (m : M A) : Prop := forall w a w', Inv w -> m w = Done (a, w') -> Inv w'.

(** * The monad *)
Lemma keeps_ret {A} (a : A) : keeps (mret a).
Proof. by intros w b w' Hw [= _ <-]. Qed.

Lemma keeps_bind {A B} (m : M A) (f : A -> M B) : keeps m -> (forall a, keeps (f a)) -> keeps (m ≫= f).
Proof.
  intros Hm Hf w b w' Hw H. unfold mbind, M_bind in H.
  destruct (m w) as [[a w1]|] eqn:E; [|done].
  eapply Hf; [|exact H]. by eapply Hm.
Qed.

Lemma keeps_get {A} (f : World -> A) : keeps (get f).
Proof. by intros w b w' Hw [= _ <-]. Qed.
Lemma keeps_lock c : keeps (lock c).
Proof. apply keeps_get. Qed.
Lemma keeps_find key : keeps (find key).
Proof. apply keeps_get. Qed.
Lemma keeps_get_db {A} (f : DB -> A) : keeps (get_db f).
Proof. apply keeps_get. Qed.
Lemma keeps_self : keeps self.
Proof. intros w b w' Hw. unfold self. destruct (clients w !! _); [|done]. by intros [= _ <-]. Qed.

Lemma keeps_lift {A} (m : outcome A) : keeps (lift m).
Proof.
  intros w b w' Hw. unfold lift, mbind, outcome_bind. destruct m; [|done]. by intros [= _ <-].
Qed.

Lemma keeps_stuck {A} : keeps (@stuck A).
Proof. by intros w b w' Hw. Qed.

Lemma keeps_ctx f : keeps (modify_ctx f).
Proof. intros w b w' [] [= _ <-]. by split. Qed.

(** A change of the data base other than its expirations and its keys. *)
Lemma keeps_db f :
  (forall d, expiring d -> expiring (f d)) -> keeps (modify_db f).
Proof. intros Hf w b w' [] [= _ <-]. split; cbn; auto. Qed.

Lemma keeps_put key o : keeps (put key o).
Proof. apply keeps_db. intros. by apply expiring_put. Qed.
Lemma keeps_blocked f : keeps (modify_db (set_blocked_keys f)).
Proof. by apply keeps_db. Qed.
Lemma keeps_blocked_xread f : keeps (modify_db (set_blocked_xread_keys f)).
Proof. by apply keeps_db. Qed.
Lemma keeps_watching f : keeps (modify_db (set_watching_keys f)).
Proof. by apply keeps_db. Qed.
Lemma keeps_pubsub f : keeps (modify_db (set_pubsub_clients f)).
Proof. by apply keeps_db. Qed.
Lemma keeps_pop_blocked key rest : keeps (modify_db (pop_blocked key rest)).
Proof. by apply keeps_db. Qed.

(** A change of a client that leaves its user and keeps its queue exec-free. *)
Lemma keeps_client c f :
  (forall x, user (f x) = user x) ->
  (forall x, Forall exec_free (queued_commands x) -> Forall exec_free (queued_commands (f x))) ->
  keeps (update_client c f).
Proof.
  intros Hu Hq w b w' [] H. unfold update_client in H. destruct (clients w !! c) eqn:Ec; [|done].
  injection H as _ <-. split; cbn; [done|done| |].
  - intros c' x u. destruct (decide (c' = c)) as [->|Hne].
    + rewrite lookup_alter_eq, Ec. intros [= <-]. rewrite Hu. by apply (inv_user0 c).
    + rewrite lookup_alter_ne by done. apply inv_user0.
  - intros c' x. destruct (decide (c' = c)) as [->|Hne].
    + rewrite lookup_alter_eq, Ec. intros [= <-]. by apply Hq, (inv_queue0 c).
    + rewrite lookup_alter_ne by done. apply inv_queue0.
Qed.

Lemma keeps_write c f : keeps (write_to c f).
Proof. by apply keeps_client. Qed.
Lemma keeps_dirty c : keeps (update_client c setClientDirty).
Proof. by apply keeps_client. Qed.

Lemma keeps_update_self f :
  (forall x, user (f x) = user x) ->
  (forall x, Forall exec_free (queued_commands x) -> Forall exec_free (queued_commands (f x))) ->
  keeps (update_self f).
Proof. intros. apply keeps_bind; [apply keeps_get|]. intros. by apply keeps_client. Qed.

Lemma keeps_reply f : keeps (reply f).
Proof. by apply keeps_update_self. Qed.

Lemma keeps_for_each {A} (f : A -> M unit) l : (forall x, x ∈ l -> keeps (f x)) -> keeps (for_each f l).
Proof.
  intros Hf. induction l as [|x l IH]; cbn; [apply keeps_ret|].
  apply keeps_bind; [apply Hf; left|]. intros _. apply IH. intros y Hy. apply Hf. by right.
Qed.

Create HintDb keeps.
#[export] Hint Resolve keeps_ret keeps_get keeps_lock keeps_find keeps_get_db keeps_self keeps_lift
  keeps_stuck keeps_ctx keeps_put keeps_blocked keeps_blocked_xread keeps_watching keeps_pubsub
  keeps_pop_blocked keeps_write keeps_dirty keeps_reply : keeps.

(** Walk through a handler: binds, branches, primitive steps. *)
Ltac keep :=
  lazymatch goal with
  | |- keeps (_ ≫= _) => apply keeps_bind; [keep | intros; keep]
  | |- keeps (let _ := _ in _) => cbv zeta; keep
  | |- keeps (match ?x with _ => _ end) => destruct x; keep
  | |- _ => first [ solve [eauto with keeps] | idtac ]
  end.

Lemma keeps_mark key : keeps (mark_watching_clients_dirty key).
Proof. unfold mark_watching_clients_dirty. keep. apply keeps_for_each. intros. keep. Qed.
#[export] Hint Resolve keeps_mark : keeps.

(** * The handlers *)
Section Handlers.
Context (env : Env).

Lemma keeps_set key value ex px : keeps (handle_set env key value ex px).
Proof.
  intros w a w' [] H. unfold handle_set in H.
  set (K := (mark_watching_clients_dirty key;; reply (fun b => encode_simple_string b (lit "OK"))) : M unit) in *.
  assert (HK : forall d, expiring d -> K (with_db (fun _ => d) w) = Done (a, w') -> Inv w').
  { intros d Hd. assert (HK : keeps K) by (unfold K; keep). apply HK. by split. }
  destruct w as [d cl ac cx]. cbn in inv_expiring0.
  assert (He : forall o, expiring (set_store (<[key := StringObject value]>) (set_expiration (set_deadline key o) d)))
    by (intros; by apply expiring_set).
  destruct ex as [ex|], px as [px|]; revert H; run_M; cbn [db]; intros H;
    try (destruct (time_after _ _ _) as [t|]; [|done]; unfold mbind, mret, outcome_bind, outcome_ret in H).
  - apply (HK _ (He (Some t)) H).
  - apply (HK _ (He (Some t)) H).
  - apply (HK _ (He (Some t)) H).
  - apply (HK (set_store (<[key := StringObject value]>) d)); [by apply expiring_put|exact H].
Qed.

Lemma keeps_get_or_type key b : keeps (handle_get_or_type env key b).
Proof.
  intros w a w' Hw H. pose proof Hw as [].
  unfold handle_get_or_type in H.
  set (K := fun it : option RedisObject => match it with
    | Some (StringObject s) => if b then reply (fun b => encode_simple_string b (lit "string"))
                               else reply (fun b => encode_bulk_string b s)
    | Some (StreamObject _) => if b then reply (fun b => encode_simple_string b (lit "stream")) else mret tt
    | Some _ => mret tt
    | None => if b then reply (fun b => encode_simple_string b (lit "none"))
              else reply encode_null_bulk_string end : M unit) in *.
  assert (HK : forall o, keeps (K o)) by (intros o; unfold K; keep).
  destruct w as [d cl ac cx]. cbn in inv_expiring0. revert H. run_M. cbn [db]. intros H.
  pose proof (expiring_purge (steady_now env) key d inv_expiring0) as Hp. unfold purge in Hp.
  destruct (expiration d !! key) as [t|]; [|by eapply HK, H].
  destruct (t <=? steady_now env); [|by eapply HK, H].
  destruct (store d !! key); [|done]. by eapply HK, H.
Qed.

Lemma keeps_incr key : keeps (handle_incr key).
Proof. unfold handle_incr. keep. Qed.

Lemma keeps_push_value key v b : keeps (push_value_to_list env key v b).
Proof. unfold push_value_to_list, create_new_list, append_to_existing_list. keep. Qed.

Hint Resolve keeps_push_value : keeps.

Lemma keeps_push_values key vs b : forall n, keeps (push_values env key vs b n).
Proof.
  induction vs as [|v vs IH]; intros n; cbn [push_values]; keep.
Qed.
Hint Resolve keeps_push_values : keeps.

Lemma keeps_push key vs b : keeps (handle_push env key vs b).
Proof. unfold handle_push, serve. keep. Qed.
Lemma keeps_llen key : keeps (handle_llen key).
Proof. unfold handle_llen. keep. Qed.
Lemma keeps_lpop key n : keeps (handle_lpop env key n).
Proof. unfold handle_lpop. keep. Qed.
Lemma keeps_lrange key s e : keeps (handle_lrange key s e).
Proof. unfold handle_lrange. keep. Qed.
Lemma keeps_blpop keys t : keeps (handle_blpop env keys t).
Proof. unfold handle_blpop, block_on. keep. Qed.

Lemma keeps_write_outcome c f : keeps (write_outcome c f).
Proof. unfold write_outcome. keep. Qed.
Hint Resolve keeps_write_outcome : keeps.

Lemma keeps_wake_all q : keeps (wake_all q).
Proof. induction q as [|x q IH]; cbn [wake_all]; unfold write_xread_response; keep. Qed.
Hint Resolve keeps_wake_all : keeps.

Lemma keeps_xadd key id fvs : keeps (handle_xadd env key id fvs).
Proof. unfold handle_xadd, handle_blocked_xread_clients. keep. Qed.
Lemma keeps_xrange key s e : keeps (handle_xrange key s e).
Proof. unfold handle_xrange, reply_outcome. keep. Qed.

Lemma keeps_xread_loop t keys : forall ids r, keeps (xread_loop env t keys ids r).
Proof.
  induction keys as [|k keys IH]; intros [|i ids] r; cbn [xread_loop];
    unfold mark_client_blocking; keep.
Qed.
Hint Resolve keeps_xread_loop : keeps.

Lemma keeps_xread t keys ids : keeps (handle_xread env t keys ids).
Proof. unfold handle_xread, reply_outcome. keep. Qed.

Lemma keeps_zadd : keeps handle_zadd.
Proof. unfold handle_zadd, with_command, with_sorted_set. keep. Qed.
Lemma keeps_zcard : keeps handle_zcard.
Proof. unfold handle_zcard, with_command, with_sorted_set. keep. Qed.
Lemma keeps_zrange : keeps handle_zrange.
Proof. unfold handle_zrange, with_command, with_sorted_set. keep. Qed.
Lemma keeps_zrank : keeps handle_zrank.
Proof. unfold handle_zrank, with_command, with_sorted_set. keep. Qed.
Lemma keeps_zrem : keeps handle_zrem.
Proof. unfold handle_zrem, with_command, with_sorted_set. keep. Qed.
Lemma keeps_zscore : keeps (handle_zscore env).
Proof. unfold handle_zscore, with_command, with_sorted_set. keep. Qed.
Lemma keeps_geoadd : keeps (handle_geoadd env).
Proof. unfold handle_geoadd, with_command, with_sorted_set. keep. Qed.
Lemma keeps_geodist : keeps (handle_geodist env).
Proof. unfold handle_geodist, with_command, with_sorted_set. keep. Qed.
Lemma keeps_geopos : keeps (handle_geopos env).
Proof. unfold handle_geopos, with_command, with_sorted_set. keep. Qed.
Lemma keeps_geosearch : keeps (handle_geosearch env).
Proof. unfold handle_geosearch, with_command, with_sorted_set. keep. Qed.
End Handlers.

#[export] Hint Resolve keeps_set keeps_get_or_type keeps_incr keeps_push keeps_llen keeps_lpop
  keeps_lrange keeps_blpop keeps_xadd keeps_xrange keeps_xread keeps_zadd keeps_zcard keeps_zrange
  keeps_zrank keeps_zrem keeps_zscore keeps_geoadd keeps_geodist keeps_geopos keeps_geosearch : keeps.

Lemma list_alter_is_Some {A} (f : A -> A) i (l : list A) j :
  is_Some (l !! j) -> is_Some (alter f i l !! j).
Proof.
  intros [x Hx]. destruct (decide (j = i)) as [->|Hne].
  - rewrite list_lookup_alter_eq, Hx. by eexists.
  - rewrite list_lookup_alter_ne by done. by eexists.
Qed.

Lemma setUser_deref m n h fl u : is_Some (deref m u) -> is_Some (deref (setUser m n h fl) u).
Proof.
  unfold setUser, find_or_create, deref. destruct (users m !! n); cbn [heap users]; intros [x Hx].
  - apply list_alter_is_Some. eauto.
  - apply list_alter_is_Some. rewrite lookup_app_l by (by eapply lookup_lt_Some). eauto.
Qed.

Lemma keeps_clear_queue : keeps (update_self (with_queued (fun _ => []))).
Proof. by apply keeps_update_self. Qed.
Lemma keeps_flags f : keeps (update_self (with_flags f)).
Proof. by apply keeps_update_self. Qed.
Lemma keeps_channels f : keeps (update_self (with_channels f)).
Proof. by apply keeps_update_self. Qed.
Lemma keeps_cast {A} (v : Command -> option A) : keeps (cast_command v).
Proof. unfold cast_command. keep. Qed.
#[export] Hint Resolve keeps_clear_queue keeps_flags keeps_channels keeps_cast : keeps.
#[export] Hint Extern 1 (keeps (update_self resetFlags)) => apply keeps_update_self; done : keeps.
#[export] Hint Extern 1 (keeps (update_self addTransactionFlags)) => apply keeps_update_self; done : keeps.
#[export] Hint Extern 1 (keeps (update_self setClientPubSub)) => apply keeps_update_self; done : keeps.

Section Dispatch.
Context (env : Env).

Lemma keeps_ping : keeps handle_ping.
Proof. unfold handle_ping. keep. Qed.
Lemma keeps_whoami : keeps handle_acl_whoami.
Proof. unfold handle_acl_whoami. keep. Qed.
Lemma keeps_getuser : keeps handle_acl_getuser.
Proof. unfold handle_acl_getuser. keep. Qed.

Lemma keeps_setUser n h fl : keeps (modify (with_acl (fun m => setUser m n h fl))).
Proof.
  intros w a w' [] [= _ <-]. split; cbn; [done|by apply setUser_wf| |done].
  intros c x u Hc Hu. apply setUser_deref. eauto.
Qed.
Hint Resolve keeps_setUser : keeps.

Lemma keeps_setuser : keeps (handle_acl_setuser env).
Proof. unfold handle_acl_setuser. keep. Qed.

Lemma keeps_auth : keeps (handle_auth env).
Proof.
  unfold handle_auth. apply keeps_bind; [keep|]. intros [username password].
  assert (Hlog : forall u w a w', is_Some (deref (acl w) u) -> Inv w -> log_in u w = Done (a, w') -> Inv w').
  { intros u w a0 w' Hu [] H. unfold log_in in H.
    assert (HK : keeps (reply (fun b => encode_simple_string b (lit "OK")))) by keep.
    revert H. unfold update_self, mbind, M_bind, get. unfold update_client.
    destruct (clients w !! client (ctx w)) as [x|] eqn:Ex; [|done]. apply HK. split; cbn; [done|done| |].
    - intros c y v. destruct (decide (c = client (ctx w))) as [->|Hne].
      + rewrite lookup_alter_eq, Ex. intros [= <-]. cbn. by intros [= <-].
      + rewrite lookup_alter_ne by done. apply inv_user0.
    - intros c y. destruct (decide (c = client (ctx w))) as [->|Hne].
      + rewrite lookup_alter_eq, Ex. intros [= <-]. cbn. by apply (inv_queue0 (client (ctx w))).
      + rewrite lookup_alter_ne by done. apply inv_queue0. }
  intros w b w' Hw H. unfold mbind, M_bind, get in H.
  destruct (getUser (acl w) username) as [u|] eqn:Eu; [|by eapply keeps_reply, H].
  cbn in H. destruct (deref (acl w) u) as [x|] eqn:Ed; [|by eapply keeps_reply, H]. cbn in H.
  revert H. destruct (negb (is_enabled x)); [intros H; by eapply keeps_reply, H|].
  destruct (nopass x); [intros H; eapply Hlog; eauto|].
  destruct (negb _); [intros H; by eapply keeps_reply, H|intros H; eapply Hlog; eauto].
Qed.

Lemma keeps_multi : keeps handle_multi.
Proof. unfold handle_multi. keep. Qed.
Lemma keeps_discard : keeps handle_discard.
Proof. unfold handle_discard. keep. Qed.
Lemma keeps_keys : keeps handleKeys.
Proof. unfold handleKeys. keep. Qed.
Lemma keeps_config path : keeps (handleGetConfig path).
Proof. unfold handleGetConfig. keep. apply keeps_for_each. intros. keep. Qed.

Lemma keeps_publish_loop ch m l : forall n, keeps (publish_loop ch m l n).
Proof. induction l as [|c l IH]; intros n; cbn [publish_loop]; keep. Qed.
Hint Resolve keeps_publish_loop : keeps.

Lemma keeps_publish : keeps handlePublish.
Proof. unfold handlePublish. keep. Qed.

Lemma keeps_unsubscribe : keeps handleUnSubscribe.
Proof. unfold handleUnSubscribe. keep. Qed.
Lemma keeps_subscribe : keeps handleSubscribe.
Proof. unfold handleSubscribe. keep. Qed.
Hint Resolve keeps_ping keeps_whoami keeps_getuser keeps_setuser keeps_auth keeps_multi keeps_discard
  keeps_keys keeps_config keeps_publish keeps_unsubscribe keeps_subscribe : keeps.

Lemma keeps_call_with exec cmd : keeps exec -> keeps (call_with env exec cmd).
Proof. intros He. unfold call_with, handle_echo. keep. Qed.

Lemma keeps_exec : keeps (handle_exec env).
Proof.
  unfold handle_exec. keep. apply keeps_for_each. intros. apply keeps_call_with. keep.
Qed.

Lemma keeps_call cmd : keeps (call env cmd).
Proof. apply keeps_call_with, keeps_exec. Qed.
Hint Resolve keeps_call : keeps.

Lemma keeps_pubsub_mode cmd : keeps (handlePubSub env cmd).
Proof. unfold handlePubSub. keep. Qed.

Lemma keeps_queue cmd : exec_free cmd -> keeps (queue_command cmd).
Proof.
  intros Hc. unfold queue_command. keep. apply keeps_update_self; [done|].
  intros x Hx. cbn. apply Forall_app. split; [done|]. by constructor.
Qed.

Lemma keeps_execute path : keeps (execute env path).
Proof.
  unfold execute. apply keeps_bind; [keep|]. intros cmd. apply keeps_bind; [keep|]. intros c.
  destruct cmd as [cmd|]; [|keep]. destruct (_ && negb (is_authenticated c)); [keep|].
  destruct (isClientOnTransaction c && _ && _) eqn:Ht.
  - apply keeps_queue. apply andb_true_iff in Ht as [[_ H1]%andb_true_iff H2].
    apply negb_true_iff, bool_decide_eq_false in H1, H2. by split.
  - destruct (isClientOnPubSub c); [apply keeps_pubsub_mode|]. keep.
Qed.
End Dispatch.

(** * Properties *)

(** C16: the data base's invariant holds between commands.  Whatever command the
    context carries and in whatever state the client is, a completed [execute]
    leaves every deadline on a stored key, the table of users well formed,
    every logged-in client with an existing user, and no EXEC or DISCARD in a
    transaction queue. *)
Theorem execute_preserves_Inv env path w w' :
  Inv w -> execute env path w = Done (tt, w') -> Inv w'.
Proof. intros Hw H. by eapply keeps_execute. Qed.

Definition w_start : World :=
  MkWorld newDB {[ 1%nat := newClient 7 ]} newACLManager
    (newContext 1%nat 7 (Some (MkCommand (lit "k") 0 (SetCommand (lit "v") None (Some 5))))).

Lemma w_start_Inv : Inv w_start.
Proof.
  split.
  - by intros k [x Hx].
  - apply newACLManager_wf.
  - intros c x u H. cbn [w_start clients] in H; apply lookup_singleton_Some in H as [<- <-]. discriminate.
  - intros c x H. cbn [w_start clients] in H; apply lookup_singleton_Some in H as [<- <-]. constructor.
Qed.

Lemma execute_preserves_Inv_witness :
  exists w', execute DbString.sample_env [] w_start = Done (tt, w') /\ Inv w'.
Proof.
  eexists. split; [reflexivity|].
  exact (execute_preserves_Inv DbString.sample_env [] w_start _ w_start_Inv eq_refl).
Defined.
