(* ===== verification/Frame.v ===== *)
(** What no command handler does: it neither makes nor destroys a client, nor
    touches a client's input, descriptor or place in replication, and it answers
    for one client only.  [frames m] composes along the monad like the invariant
    of [Invariant.v]; the server relies on it between parsing and flushing. *)
From S2P Require Import Prelude Utils Acl Command World DbString DbList DbStream DbZset Db Invariant.

(** The fields of a client that belong to connections and replication. *)
Definition fixed (x : Client) : list Z * Z * bool * Z :=
  (read_buffer x, fd x, isslave x, replica_offset x).

Record framed (w w' : World) : Prop := {
  fr_client : client (ctx w') = client (ctx w);
  fr_fd : client_fd (ctx w') = client_fd (ctx w);
  fr_command : command (ctx w') = command (ctx w) \/ command (ctx w') = None;
  fr_fixed c : fixed <$> clients w' !! c = fixed <$> clients w !! c;
  fr_users u : is_Some (deref (acl w) u) -> is_Some (deref (acl w') u)
}.

Lemma framed_refl w : framed w w.
Proof. by split; [..|left| |]. Qed.

Lemma framed_trans w1 w2 w3 : framed w1 w2 -> framed w2 w3 -> framed w1 w3.
Proof.
  intros [A1 B1 C1 D1 U1] [A2 B2 C2 D2 U2]. split; [congruence|congruence| | |].
  - destruct C2 as [->| ->]; [done|by right].
  - intros c. by rewrite D2.
  - auto.
Qed.

Definition frames {A} (m : M A) : Prop := forall w a w', m w = Done (a, w') -> framed w w'.

(** * The monad *)
Lemma frames_ret {A} (a : A) : frames (mret a).
Proof. intros w b w' [= _ <-]. apply framed_refl. Qed.

Lemma frames_bind {A B} (m : M A) (f : A -> M B) : frames m -> (forall a, frames (f a)) -> frames (m ≫= f).
Proof.
  intros Hm Hf w b w' H. unfold mbind, M_bind in H. destruct (m w) as [[a w1]|] eqn:E; [|done].
  eapply framed_trans; [by eapply Hm|by eapply Hf].
Qed.

Lemma frames_get {A} (f : World -> A) : frames (get f).
Proof. intros w b w' [= _ <-]. apply framed_refl. Qed.
Lemma frames_self : frames self.
Proof. intros w b w'. unfold self. destruct (clients w !! _); [|done]. intros [= _ <-]. apply framed_refl. Qed.
Lemma frames_lift {A} (m : outcome A) : frames (lift m).
Proof. intros w b w'. unfold lift. destruct m; [|done]. intros [= _ <-]. apply framed_refl. Qed.
Lemma frames_stuck {A} : frames (@stuck A).
Proof. by intros w b w'. Qed.
Lemma frames_db f : frames (modify_db f).
Proof. intros w b w' [= _ <-]. by split; [..|left| |]. Qed.
Lemma frames_setUser n h fl : frames (modify (with_acl (fun m => setUser m n h fl))).
Proof. intros w b w' [= _ <-]. split; [..|left| |]; try done. intros u. apply setUser_deref. Qed.

Lemma frames_ctx f :
  (forall c, client (f c) = client c /\ client_fd (f c) = client_fd c /\ (command (f c) = command c \/ command (f c) = None)) ->
  frames (modify_ctx f).
Proof. intros Hf w b w' [= _ <-]. destruct (Hf (ctx w)) as (? & ? & ?). by split. Qed.
Lemma frames_isBlocked : frames (modify_ctx set_isBlocked).
Proof. apply frames_ctx. intros c. split_and!; auto. Qed.
Lemma frames_unblocked n : frames (modify_ctx (set_unblocked n)).
Proof. apply frames_ctx. intros c. split_and!; auto. Qed.
Lemma frames_ready r : frames (modify_ctx (add_ready r)).
Proof. apply frames_ctx. intros c. split_and!; auto. Qed.
Lemma frames_queued : frames (modify_ctx (set_command None)).
Proof. apply frames_ctx. intros c. split_and!; auto. Qed.

Lemma frames_client c f : (forall x, fixed (f x) = fixed x) -> frames (update_client c f).
Proof.
  intros Hf w b w' H. unfold update_client in H. destruct (clients w !! c) eqn:Ec; [|done].
  injection H as _ <-. split; [done|done|by left| |done]. intros c'. cbn [with_clients clients].
  destruct (decide (c' = c)) as [->|Hne]; [|by rewrite lookup_alter_ne].
  rewrite lookup_alter_eq, Ec. cbn. by rewrite Hf.
Qed.
Lemma frames_write c f : frames (write_to c f).
Proof. by apply frames_client. Qed.
Lemma frames_update_self f : (forall x, fixed (f x) = fixed x) -> frames (update_self f).
Proof. intros. apply frames_bind; [apply frames_get|]. intros. by apply frames_client. Qed.
Lemma frames_reply f : frames (reply f).
Proof. by apply frames_update_self. Qed.

Lemma frames_for_each {A} (f : A -> M unit) l : (forall x, frames (f x)) -> frames (for_each f l).
Proof.
  intros Hf. induction l as [|x l IH]; cbn [for_each]; [apply frames_ret|].
  apply frames_bind; [apply Hf|]. by intros _.
Qed.

Create HintDb frames.
#[export] Hint Resolve frames_ret frames_get frames_self frames_lift frames_stuck frames_db frames_setUser
  frames_isBlocked frames_unblocked frames_ready frames_queued frames_write frames_reply : frames.
#[export] Hint Extern 1 (frames (update_client _ _)) => apply frames_client; done : frames.
#[export] Hint Extern 1 (frames (update_self _)) => apply frames_update_self; done : frames.
#[export] Hint Unfold lock find put get_db : frames.

Ltac frame :=
  lazymatch goal with
  | |- frames (_ ≫= _) => apply frames_bind; [frame | intros; frame]
  | |- frames (let _ := _ in _) => cbv zeta; frame
  | |- frames (match ?x with _ => _ end) => destruct x; frame
  | |- frames (for_each _ _) => apply frames_for_each; intros; frame
  | |- _ => first [ solve [eauto with frames] | idtac ]
  end.

(** * The handlers *)
Section Handlers.
Context (env : Env).

Lemma frames_mark key : frames (mark_watching_clients_dirty key).
Proof. unfold mark_watching_clients_dirty. frame. Qed.
Hint Resolve frames_mark : frames.

Lemma frames_set key value ex px : frames (handle_set env key value ex px).
Proof. unfold handle_set. frame. Qed.
Lemma frames_get_or_type key b : frames (handle_get_or_type env key b).
Proof. unfold handle_get_or_type. frame. Qed.
Lemma frames_incr key : frames (handle_incr key).
Proof. unfold handle_incr. frame. Qed.

Lemma frames_push_value key v b : frames (push_value_to_list env key v b).
Proof. unfold push_value_to_list, create_new_list, append_to_existing_list. frame. Qed.
Hint Resolve frames_push_value : frames.
Lemma frames_push_values key vs b : forall n, frames (push_values env key vs b n).
Proof. induction vs as [|v vs IH]; intros n; cbn [push_values]; frame. Qed.
Hint Resolve frames_push_values : frames.
Lemma frames_push key vs b : frames (handle_push env key vs b).
Proof. unfold handle_push, serve. frame. Qed.
Lemma frames_llen key : frames (handle_llen key).
Proof. unfold handle_llen. frame. Qed.
Lemma frames_lpop key n : frames (handle_lpop env key n).
Proof. unfold handle_lpop. frame. Qed.
Lemma frames_lrange key s e : frames (handle_lrange key s e).
Proof. unfold handle_lrange. frame. Qed.
Lemma frames_blpop keys t : frames (handle_blpop env keys t).
Proof. unfold handle_blpop, block_on. frame. Qed.

Lemma frames_write_outcome c f : frames (write_outcome c f).
Proof. unfold write_outcome. frame. Qed.
Hint Resolve frames_write_outcome : frames.
Lemma frames_wake_all q : frames (wake_all q).
Proof. induction q as [|x q IH]; cbn [wake_all]; unfold write_xread_response; frame. Qed.
Hint Resolve frames_wake_all : frames.
Lemma frames_xadd key id fvs : frames (handle_xadd env key id fvs).
Proof. unfold handle_xadd, handle_blocked_xread_clients. frame. Qed.
Lemma frames_xrange key s e : frames (handle_xrange key s e).
Proof. unfold handle_xrange, reply_outcome. frame. Qed.
Lemma frames_xread_loop t keys : forall ids r, frames (xread_loop env t keys ids r).
Proof.
  induction keys as [|k keys IH]; intros [|i ids] r; cbn [xread_loop]; unfold mark_client_blocking; frame.
Qed.
Hint Resolve frames_xread_loop : frames.
Lemma frames_xread t keys ids : frames (handle_xread env t keys ids).
Proof. unfold handle_xread, reply_outcome. frame. Qed.

Lemma frames_sorted_sets :
  frames handle_zadd /\ frames handle_zcard /\ frames handle_zrange /\ frames handle_zrank /\
  frames handle_zrem /\ frames (handle_zscore env) /\ frames (handle_geoadd env) /\
  frames (handle_geodist env) /\ frames (handle_geopos env) /\ frames (handle_geosearch env).
Proof.
  split_and!; unfold handle_zadd, handle_zcard, handle_zrange, handle_zrank, handle_zrem, handle_zscore,
    handle_geoadd, handle_geodist, handle_geopos, handle_geosearch, with_command, with_sorted_set; frame.
Qed.

(** * Dispatch *)
Lemma frames_cast {A} (v : Command -> option A) : frames (cast_command v).
Proof. unfold cast_command. frame. Qed.
Hint Resolve frames_cast : frames.
Lemma frames_acl_commands : frames handle_acl_whoami /\ frames handle_acl_getuser /\
  frames (handle_acl_setuser env) /\ frames (handle_auth env).
Proof.
  split_and!; unfold handle_acl_whoami, handle_acl_getuser, handle_acl_setuser, handle_auth, log_in; frame.
Qed.
Lemma frames_publish_loop ch m l : forall n, frames (publish_loop ch m l n).
Proof. induction l as [|c l IH]; intros n; cbn [publish_loop]; frame. Qed.
Hint Resolve frames_publish_loop : frames.
Lemma frames_pubsub : frames handlePublish /\ frames handleUnSubscribe /\ frames handleSubscribe.
Proof. split_and!; unfold handlePublish, handleUnSubscribe, handleSubscribe; frame. Qed.
Lemma frames_others path : frames handle_ping /\ frames handle_multi /\ frames handle_discard /\
  frames handleKeys /\ frames (handleGetConfig path).
Proof. split_and!; unfold handle_ping, handle_multi, handle_discard, handleKeys, handleGetConfig; frame. Qed.

Hint Resolve frames_set frames_get_or_type frames_incr frames_push frames_llen frames_lpop
  frames_lrange frames_blpop frames_xadd frames_xrange frames_xread : frames.
Hint Extern 1 (frames _) => apply frames_sorted_sets : frames.
Hint Extern 1 (frames _) => apply frames_acl_commands : frames.
Hint Extern 1 (frames _) => apply frames_pubsub : frames.
Hint Extern 1 (frames _) => apply (frames_others []) : frames.

Lemma frames_call_with exec cmd : frames exec -> frames (call_with env exec cmd).
Proof. intros He. unfold call_with, handle_echo. frame. Qed.
Lemma frames_exec : frames (handle_exec env).
Proof. unfold handle_exec. frame. apply frames_call_with. frame. Qed.
Lemma frames_call cmd : frames (call env cmd).
Proof. apply frames_call_with, frames_exec. Qed.
Hint Resolve frames_call : frames.

Lemma frames_execute path : frames (execute env path).
Proof.
  unfold execute, queue_command, handlePubSub. frame. apply (frames_others path).
Qed.

Lemma frames_expire_queue {A} who fd ta (q : list A) : frames (expire_queue env who fd ta q).
Proof. induction q as [|x q IH]; cbn [expire_queue]; unfold time_out; frame. Qed.
Hint Resolve frames_expire_queue : frames.
Lemma frames_expire_queues {A} who fd ta put (l : list (list Z * list A)) :
  frames (expire_queues env who fd ta put l).
Proof. induction l as [|[k q] l IH]; cbn [expire_queues]; frame. Qed.
Hint Resolve frames_expire_queues : frames.

Lemma frames_expire : frames (check_and_expire_blocked_clients env).
Proof. unfold check_and_expire_blocked_clients. frame. Qed.
End Handlers.

(** The clock's pass also keeps the invariant of the data base. *)
Lemma keeps_expire env : keeps (check_and_expire_blocked_clients env).
Proof.
  assert (Hq : forall A who fd ta (q : list A), keeps (expire_queue env who fd ta q)).
  { intros A who fd ta q. induction q as [|x q IH]; cbn [expire_queue]; unfold time_out; keep. }
  assert (Hqs : forall A who fd ta put (l : list (list Z * list A)),
    (forall k q, keeps (modify_db (put k q))) -> keeps (expire_queues env who fd ta put l)).
  { intros A who fd ta put l Hp. induction l as [|[k q] l IH]; cbn [expire_queues]; keep; auto. }
  unfold check_and_expire_blocked_clients, put_blocked, put_blocked_xread. keep.
Qed.

(** * Properties *)

(** C29: What every command leaves alone.  A completed [execute], whatever the command
    and whatever it wakes, leaves the same clients in existence, each with the
    same unread input, descriptor, replica flag and confirmed offset; the context
    still belongs to the same client and carries the same command, or none when
    the command was queued; no user ever goes away. *)
Theorem execute_frame env path w w' : execute env path w = Done (tt, w') -> framed w w'.
Proof. apply frames_execute. Qed.

Lemma execute_frame_witness :
  exists w', execute DbString.sample_env [] w_start = Done (tt, w') /\ framed w_start w'.
Proof.
  eexists. split; [reflexivity|]. exact (execute_frame DbString.sample_env [] w_start _ eq_refl).
Defined.
