(* ===== verification/Transactions.v ===== *)
(** Transactions.  Two runs of a handler that differ only in what a transaction
    changes about its client (flags, queue, the command of the context, what
    was already in the write buffer) do the same to the data base and append the
    same bytes: [agrees].  It composes like [keeps], and gives that EXEC is the
    sequential execution of the queue. *)
From S2P Require Import Prelude Utils Acl Stream Command World DbString DbList DbStream DbZset Db.

(** * The relation *)

(** The client of the context in the two worlds, with [P] and [Q] written before. *)
Record sim_client (P Q : list Z) (x1 x2 : Client) : Prop := {
  sc_buffer : exists b, write_buffer x1 = P ++ b /\ write_buffer x2 = Q ++ b;
  sc_read : read_buffer x1 = read_buffer x2;
  sc_fd : fd x1 = fd x2;
  sc_slave : isslave x1 = isslave x2;
  sc_offset : replica_offset x1 = replica_offset x2;
  sc_channels : total_subscribed_channels x1 = total_subscribed_channels x2;
  sc_user : user x1 = user x2;
  sc_auth : is_authenticated x1 = is_authenticated x2
}.

Record sim (r : cid) (P Q : list Z) (w1 w2 : World) : Prop := {
  sim_ref : client (ctx w1) = r;
  sim_db : db w1 = db w2;
  sim_acl : acl w1 = acl w2;
  sim_ctx : set_command None (ctx w1) = set_command None (ctx w2);
  sim_others c : c <> client (ctx w1) -> clients w1 !! c = clients w2 !! c;
  sim_self : exists x1 x2, clients w1 !! client (ctx w1) = Some x1 /\
                           clients w2 !! client (ctx w1) = Some x2 /\ sim_client P Q x1 x2
}.

Lemma sim_client_ref r P Q w1 w2 : sim r P Q w1 w2 -> client (ctx w1) = client (ctx w2).
Proof. intros []. by injection sim_ctx0. Qed.

Definition agrees {A} (m : M A) : Prop := forall r P Q w1 w2, sim r P Q w1 w2 ->
  match m w1, m w2 with
  | Done (a1, w1'), Done (a2, w2') => a1 = a2 /\ sim r P Q w1' w2'
  | Stuck, Stuck => True
  | _, _ => False
  end.

Lemma agrees_ret {A} (a : A) : agrees (mret a).
Proof. by intros r P Q w1 w2 H. Qed.

Lemma agrees_bind {A B} (m : M A) (f : A -> M B) :
  agrees m -> (forall a, agrees (f a)) -> agrees (m ≫= f).
Proof.
  intros Hm Hf r P Q w1 w2 H. specialize (Hm r P Q w1 w2 H). unfold mbind, M_bind.
  destruct (m w1) as [[a1 v1]|], (m w2) as [[a2 v2]|]; try done.
  destruct Hm as [<- Hs]. by apply Hf.
Qed.

Lemma agrees_stuck {A} : agrees (@stuck A).
Proof. by intros r P Q w1 w2 H. Qed.

Lemma agrees_lift {A} (m : outcome A) : agrees (lift m).
Proof. intros r P Q w1 w2 H. unfold lift. by destruct m. Qed.

Lemma agrees_get_db {A} (f : DB -> A) : agrees (get_db f).
Proof. intros r P Q w1 w2 []. unfold get_db, get. by rewrite sim_db0. Qed.
Lemma agrees_find key : agrees (find key).
Proof. apply agrees_get_db. Qed.

Lemma agrees_client_ref : agrees (get (fun w => client (ctx w))).
Proof. intros r P Q w1 w2 H. split; [by eapply sim_client_ref|done]. Qed.

Lemma agrees_db f : agrees (modify_db f).
Proof. intros r P Q w1 w2 []. split; [done|]. split; cbn; (done || congruence). Qed.
Lemma agrees_put key o : agrees (put key o).
Proof. apply agrees_db. Qed.

(** The context is used apart from its command. *)
Definition ignores_command {A} (k : ClientContext -> A) : Prop := forall c, k c = k (set_command None c).

Lemma agrees_get_ctx {A} (k : ClientContext -> M A) :
  ignores_command k -> (forall c, agrees (k c)) -> agrees (c ← get ctx; k c).
Proof.
  intros Hi Hk r P Q w1 w2 H. unfold mbind, M_bind, get. rewrite (Hi (ctx w1)), (Hi (ctx w2)), (sim_ctx _ _ _ _ _ H).
  by apply Hk.
Qed.

Lemma agrees_modify_ctx f :
  (forall c, client (f c) = client c) -> (forall c, set_command None (f c) = f (set_command None c)) ->
  agrees (modify_ctx f).
Proof.
  intros Hc Hf r P Q w1 w2 []. split; [done|]. split; cbn; try done.
  - by rewrite Hc.
  - by rewrite !Hf, sim_ctx0.
  - intros c. rewrite Hc. apply sim_others0.
  - by rewrite Hc.
Qed.

Lemma agrees_isBlocked : agrees (modify_ctx set_isBlocked).
Proof. by apply agrees_modify_ctx. Qed.
Lemma agrees_unblocked fd : agrees (modify_ctx (set_unblocked fd)).
Proof. by apply agrees_modify_ctx. Qed.

(** A change of clients that respects the relation. *)
Definition client_op (f : Client -> Client) : Prop :=
  forall P Q x1 x2, sim_client P Q x1 x2 -> sim_client P Q (f x1) (f x2).

Lemma sim_update_other r P Q w1 w2 c f :
  sim r P Q w1 w2 -> c <> client (ctx w1) ->
  sim r P Q (with_clients (alter f c) w1) (with_clients (alter f c) w2).
Proof.
  intros [] Hne. split; cbn; try done.
  - intros c' Hc'. destruct (decide (c' = c)) as [->|Hne'].
    + by rewrite !lookup_alter_eq, sim_others0.
    + rewrite !lookup_alter_ne by done. by apply sim_others0.
  - rewrite !lookup_alter_ne by done. done.
Qed.

Lemma agrees_update c f : client_op f -> agrees (update_client c f).
Proof.
  intros Hf r P Q w1 w2 Hw. pose proof Hw as []. destruct sim_self0 as (x1 & x2 & H1 & H2 & Hx).
  unfold update_client. destruct (decide (c = client (ctx w1))) as [->|Hne].
  - rewrite H1, H2. split; [done|]. split; cbn; try done.
    + intros c Hc. rewrite !lookup_alter_ne by done. by apply sim_others0.
    + rewrite !lookup_alter_eq, H1, H2. eexists _, _. split_and!; [done|done|by apply Hf].
  - rewrite <- (sim_others0 c Hne). destruct (clients w1 !! c) eqn:Ec; [|done].
    split; [done|]. by apply sim_update_other.
Qed.

Definition append_only (f : list Z -> list Z) : Prop := forall a b, f (a ++ b) = a ++ f b.

Lemma client_op_write f : append_only f -> client_op (with_write_buffer f).
Proof.
  intros Hf P Q x1 x2 []. destruct sc_buffer0 as (b & H1 & H2). split; cbn; try done.
  exists (f b). by rewrite H1, H2, !Hf.
Qed.

Lemma agrees_write c f : append_only f -> agrees (write_to c f).
Proof. intros. by apply agrees_update, client_op_write. Qed.
Lemma agrees_reply f : append_only f -> agrees (reply f).
Proof.
  intros. apply agrees_bind; [apply agrees_client_ref|]. intros. by apply agrees_update, client_op_write.
Qed.

Lemma agrees_dirty c : agrees (update_client c setClientDirty).
Proof. apply agrees_update. intros P Q x1 x2 []. by split. Qed.

(** [lock] is only used to see whether a client still exists. *)
Lemma agrees_lock {A} c (k : option Client -> M A) :
  (forall x y, k (Some x) = k (Some y)) -> (forall p, agrees (k p)) -> agrees (lock c ≫= k).
Proof.
  intros Hk Ha r P Q w1 w2 Hw. pose proof Hw as []. unfold mbind, M_bind, lock, get.
  destruct (decide (c = client (ctx w1))) as [->|Hne].
  - destruct sim_self0 as (x1 & x2 & E1 & E2 & _). rewrite E1, E2, (Hk x1 x2). by apply Ha.
  - rewrite <- (sim_others0 c Hne). by apply Ha.
Qed.

Lemma agrees_for_each {A} (f : A -> M unit) l : (forall x, x ∈ l -> agrees (f x)) -> agrees (for_each f l).
Proof.
  intros Hf. induction l as [|x l IH]; cbn; [apply agrees_ret|].
  apply agrees_bind; [apply Hf; left|]. intros _. apply IH. intros y Hy. apply Hf. by right.
Qed.

(** * Encoders only append *)
Lemma ao_simple s : append_only (fun b => encode_simple_string b s).
Proof. intros a b. unfold encode_simple_string. by rewrite <- app_assoc. Qed.
Lemma ao_bulk s : append_only (fun b => encode_bulk_string b s).
Proof. intros a b. unfold encode_bulk_string. by rewrite <- app_assoc. Qed.
Lemma ao_null : append_only encode_null_bulk_string.
Proof. intros a b. unfold encode_null_bulk_string. by rewrite <- app_assoc. Qed.
Lemma ao_null_array : append_only encode_null_array.
Proof. intros a b. unfold encode_null_array. by rewrite <- app_assoc. Qed.
Lemma ao_empty : append_only encode_empty_array.
Proof. intros a b. unfold encode_empty_array. by rewrite <- app_assoc. Qed.
Lemma ao_integer n : append_only (fun b => encode_integer b n).
Proof. intros a b. unfold encode_integer. by rewrite <- app_assoc. Qed.
Lemma ao_error s : append_only (fun b => encode_error b s).
Proof. intros a b. unfold encode_error, encode_error_type. by rewrite <- app_assoc. Qed.
Lemma ao_header n : append_only (fun b => encode_array_header b n).
Proof. intros a b. unfold encode_array_header. by rewrite <- app_assoc. Qed.
Lemma fold_bulk items : forall b, fold_left encode_bulk_string items b = b ++ concat (map bulk items).
Proof.
  induction items as [|s items IH]; intros b; cbn [fold_left map concat]; [by rewrite app_nil_r|].
  rewrite IH. unfold encode_bulk_string, bulk at 2. by rewrite <- !app_assoc.
Qed.
Lemma ao_array items : append_only (fun b => encode_bulk_string_array b items).
Proof.
  intros a b. unfold encode_bulk_string_array. rewrite !fold_bulk. unfold encode_array_header. by rewrite <- !app_assoc.
Qed.
Lemma ao_pop r : append_only (pop_reply r).
Proof. destruct r as [|v [|v' r]]; cbn; [apply ao_null|apply ao_bulk|apply ao_array]. Qed.
Lemma ao_xadd e : append_only (xadd_error e).
Proof. destruct e; try apply ao_error. by intros a b. Qed.

Create HintDb agrees.
#[export] Hint Resolve agrees_ret agrees_stuck agrees_lift agrees_get_db agrees_find agrees_client_ref agrees_db
  agrees_put agrees_isBlocked agrees_unblocked agrees_write agrees_reply agrees_dirty
  ao_simple ao_bulk ao_null ao_null_array ao_empty ao_integer ao_error ao_header ao_array ao_pop ao_xadd : agrees.

Ltac agree :=
  lazymatch goal with
  | |- agrees (lock _ ≫= _) => apply agrees_lock; [reflexivity | intros; agree]
  | |- agrees (_ ≫= _) => apply agrees_bind; [agree | intros; agree]
  | |- agrees (let _ := _ in _) => cbv zeta; agree
  | |- agrees (match ?x with _ => _ end) => destruct x; agree
  | |- _ => first [ solve [eauto with agrees] | idtac ]
  end.

(** Encoders that can fail. *)
Definition ao_outcome (f : list Z -> outcome (list Z)) : Prop :=
  forall a b, f (a ++ b) = match f b with Done r => Done (a ++ r) | Stuck => Stuck end.

Lemma agrees_write_outcome c f : ao_outcome f -> agrees (write_outcome c f).
Proof.
  intros Hf r P Q w1 w2 Hw. pose proof Hw as [].
  unfold write_outcome, lock, get, mbind, M_bind, lift, mbind, outcome_bind.
  assert (Hother : forall x, clients w1 !! c = Some x -> c <> client (ctx w1) -> clients w2 !! c = Some x).
  { intros x Hx Hne. by rewrite <- sim_others0. }
  destruct (decide (c = client (ctx w1))) as [->|Hne].
  - destruct sim_self0 as (x1 & x2 & H1 & H2 & Hx). rewrite H1, H2.
    destruct (sc_buffer _ _ _ _ Hx) as (b & E1 & E2). rewrite E1, E2, (Hf P b), (Hf Q b).
    destruct (f b) as [o|]; [|done]. unfold mret, outcome_ret, write_to.
    rewrite (update_client_eq _ _ _ _ H1), (update_client_eq _ _ _ _ H2).
    split; [done|]. split; cbn; try done.
    + intros c Hc. rewrite !lookup_alter_ne by done. by apply sim_others0.
    + rewrite !lookup_alter_eq, H1, H2. eexists _, _. split_and!; [done|done|].
      destruct Hx. split; cbn; try done. by exists o.
  - rewrite <- (sim_others0 c Hne). destruct (clients w1 !! c) as [x|] eqn:Ex; [|done].
    destruct (f (write_buffer x)) as [o|]; [|done]. unfold mret, outcome_ret.
    unfold write_to. rewrite (update_client_eq _ _ _ _ Ex).
    rewrite (update_client_eq c _ w2 x) by (by apply Hother).
    split; [done|]. by apply sim_update_other.
Qed.

Lemma ao_entry e : ao_outcome (fun b => encode_entry b e).
Proof.
  intros a b. unfold encode_entry, mbind, outcome_bind. destruct (fromBinary e.1); [|done].
  destruct (entry_fields e.2); [|done]. unfold mret, outcome_ret. f_equal.
  by rewrite <- ao_array, <- ao_bulk, <- ao_header.
Qed.

Lemma ao_entries es : ao_outcome (fun b => encode_entries b es).
Proof.
  induction es as [|e es IH]; intros a b; cbn [encode_entries]; [done|].
  unfold mbind, outcome_bind. rewrite (ao_entry e a b). destruct (encode_entry b e); [|done]. apply IH.
Qed.

Lemma ao_streams rs : ao_outcome (fun b => encode_streams b rs).
Proof.
  induction rs as [|[k es] rs IH]; intros a b; cbn [encode_streams]; [done|].
  unfold mbind, outcome_bind.
  rewrite (ao_header 2 a b : encode_array_header (a ++ b) 2 = _).
  rewrite (ao_bulk k a _ : encode_bulk_string (a ++ _) k = _).
  rewrite (ao_header (len es) a _ : encode_array_header (a ++ _) (len es) = _).
  rewrite (ao_entries es a _ : encode_entries (a ++ _) es = _).
  destruct (encode_entries _ es); [|done]. apply IH.
Qed.

Lemma ao_outcome_header n (f : list Z -> outcome (list Z)) :
  ao_outcome f -> ao_outcome (fun b => f (encode_array_header b n)).
Proof. intros Hf a b. by rewrite (ao_header n a b : encode_array_header (a ++ b) n = _), Hf. Qed.
Lemma ao_entries_header n es : ao_outcome (fun b => encode_entries (encode_array_header b n) es).
Proof. apply (ao_outcome_header n (fun b => encode_entries b es)), ao_entries. Qed.
Lemma ao_streams_header n rs : ao_outcome (fun b => encode_streams (encode_array_header b n) rs).
Proof. apply (ao_outcome_header n (fun b => encode_streams b rs)), ao_streams. Qed.
#[export] Hint Resolve agrees_write_outcome ao_entries_header ao_streams_header : agrees.

(** * The handlers *)
Lemma agrees_mark key : agrees (mark_watching_clients_dirty key).
Proof.
  unfold mark_watching_clients_dirty. agree. apply agrees_for_each. intros. agree.
Qed.
#[export] Hint Resolve agrees_mark : agrees.

Section Handlers.
Context (env : Env).

Lemma agrees_set key value ex px : agrees (handle_set env key value ex px).
Proof. unfold handle_set. agree. Qed.
Lemma agrees_get_or_type key b : agrees (handle_get_or_type env key b).
Proof. unfold handle_get_or_type. agree. Qed.
Lemma agrees_incr key : agrees (handle_incr key).
Proof. unfold handle_incr. agree. Qed.

Lemma agrees_push_value key v b : agrees (push_value_to_list env key v b).
Proof. unfold push_value_to_list, create_new_list, append_to_existing_list. agree. Qed.
Hint Resolve agrees_push_value : agrees.
Lemma agrees_push_values key vs b : forall n, agrees (push_values env key vs b n).
Proof. induction vs as [|v vs IH]; intros n; cbn [push_values]; agree. Qed.
Hint Resolve agrees_push_values : agrees.
Lemma agrees_push key vs b : agrees (handle_push env key vs b).
Proof. unfold handle_push, serve. agree. Qed.
Lemma agrees_llen key : agrees (handle_llen key).
Proof. unfold handle_llen. agree. Qed.
Lemma agrees_lpop key n : agrees (handle_lpop env key n).
Proof. unfold handle_lpop. agree. Qed.
Lemma agrees_lrange key s e : agrees (handle_lrange key s e).
Proof. unfold handle_lrange. agree. Qed.

Lemma agrees_block_on key t : agrees (block_on env key t).
Proof. unfold block_on. apply agrees_get_ctx; [done|]. intros c. agree. Qed.
Hint Resolve agrees_block_on : agrees.
Lemma agrees_blpop keys t : agrees (handle_blpop env keys t).
Proof. unfold handle_blpop. agree. Qed.

Lemma agrees_wake_all q : agrees (wake_all q).
Proof.
  induction q as [|x q IH]; cbn [wake_all]; unfold write_xread_response; agree.
Qed.
Hint Resolve agrees_wake_all : agrees.
Lemma agrees_xadd key id fvs : agrees (handle_xadd env key id fvs).
Proof. unfold handle_xadd, handle_blocked_xread_clients. agree. Qed.
Lemma agrees_xrange key s e : agrees (handle_xrange key s e).
Proof. unfold handle_xrange, reply_outcome. agree. Qed.
Lemma agrees_blocking key id t : agrees (mark_client_blocking env key id t).
Proof. unfold mark_client_blocking. apply agrees_get_ctx; [done|]. intros c. agree. Qed.
Hint Resolve agrees_blocking : agrees.
Lemma agrees_xread_loop t keys : forall ids r, agrees (xread_loop env t keys ids r).
Proof. induction keys as [|k keys IH]; intros [|i ids] r; cbn [xread_loop]; agree. Qed.
Hint Resolve agrees_xread_loop : agrees.
Lemma agrees_xread t keys ids : agrees (handle_xread env t keys ids).
Proof. unfold handle_xread, reply_outcome. agree. Qed.
End Handlers.

(** * Commands that act alike inside and outside a transaction *)

(** The commands whose handlers neither read the context's command nor the
    state of the transaction. *)
Definition ordinary (cmd : Command) : Prop :=
  match args cmd with
  | EchoCommand _ | SetCommand _ _ _ | GetCommand | TypeCommand | IncrCommand | RpushCommand _
  | LpushCommand _ | LrangeCommand _ _ | LlenCommand | LpopCommand _ | BlpopCommand _ _
  | XaddCommand _ _ | XrangeCommand _ _ | XreadCommand _ _ _ => True
  | _ => False
  end.

Lemma agrees_ordinary env exec cmd : ordinary cmd -> agrees (call_with env exec cmd).
Proof.
  unfold ordinary, call_with. destruct (args cmd); try done; intros _.
  - apply agrees_reply, ao_bulk.
  - apply agrees_set.
  - apply agrees_get_or_type.
  - apply agrees_get_or_type.
  - apply agrees_incr.
  - apply agrees_push.
  - apply agrees_push.
  - apply agrees_lrange.
  - apply agrees_llen.
  - apply agrees_lpop.
  - apply agrees_blpop.
  - apply agrees_xadd.
  - apply agrees_xrange.
  - apply agrees_xread.
Qed.

Lemma ordinary_exec env exec exec' cmd : ordinary cmd -> call_with env exec cmd = call_with env exec' cmd.
Proof. unfold ordinary, call_with. by destruct (args cmd) eqn:E. Qed.

Lemma for_each_ext {A} (f g : A -> M unit) l :
  (forall x, x ∈ l -> f x = g x) -> for_each f l = for_each g l.
Proof.
  intros H. induction l as [|x l IH]; cbn; [done|]. rewrite H by left. rewrite IH; [done|].
  intros y Hy. apply H. by right.
Qed.

(** The client as it is after the transaction: no flags, no queue. *)
Definition out_of_transaction (x : Client) : Client := resetFlags (with_queued (fun _ => []) x).

(** * Properties *)

(** C1: EXEC is the sequential execution of the queue.  For a queue of ordinary
    commands, EXEC leaves the data base, the users and what every other client
    is sent exactly as if the client had sent the commands one after the other
    outside a transaction; its own reply is the array header with the number of
    commands followed by exactly the replies it would have got; afterwards it
    is out of the transaction with an empty queue; and EXEC has no defined
    result exactly when one of the commands has none. *)
Theorem EXEC_is_sequential env w x :
  clients w !! client (ctx w) = Some x -> isClientOnTransaction x = true ->
  Forall ordinary (queued_commands x) ->
  let w0 := with_clients (alter out_of_transaction (client (ctx w))) w in
  match for_each (call env) (queued_commands x) w0 with
  | Done (_, w2) => exists w1 replies y,
      handle_exec env w = Done (tt, w1) /\
      db w1 = db w2 /\ acl w1 = acl w2 /\
      (forall c, c <> client (ctx w) -> sent w1 c = sent w2 c) /\
      sent w2 (client (ctx w)) = Some (write_buffer x ++ replies) /\
      sent w1 (client (ctx w)) = Some (write_buffer x ++ header (len (queued_commands x)) ++ replies) /\
      clients w1 !! client (ctx w) = Some y /\
      isClientOnTransaction y = false /\ queued_commands y = []
  | Stuck => handle_exec env w = Stuck
  end.
Proof.
  intros Hx Ht Ho w0. set (cmds := queued_commands x) in *.
  set (v := with_clients (alter (with_write_buffer (fun b => encode_array_header b (len cmds))) (client (ctx w))) w).
  assert (Hsim : sim (client (ctx w)) (write_buffer x ++ header (len cmds)) (write_buffer x) v w0).
  { split; cbn; try done.
    - intros c Hc. by rewrite !lookup_alter_ne.
    - rewrite !lookup_alter_eq, Hx. eexists _, _. split_and!; [done|done|]. split; cbn; try done.
      exists []. rewrite !app_nil_r. split; [|done]. unfold encode_array_header, header. done. }
  assert (Ha : agrees (for_each (call_with env stuck) cmds)).
  { apply agrees_for_each. intros c Hc. apply agrees_ordinary. by eapply Forall_forall in Ho. }
  assert (E : for_each (call env) cmds = for_each (call_with env stuck) cmds).
  { apply for_each_ext. intros c Hc. pose proof (proj1 (Forall_forall _ _) Ho c Hc) as H.
    exact (ordinary_exec env (handle_exec env) stuck c H). }
  specialize (Ha _ _ _ _ _ Hsim). rewrite E.
  assert (Hexec : handle_exec env w =
    match for_each (call_with env stuck) cmds v with
    | Done (_, v') => (update_self (with_queued (fun _ => []));; update_self resetFlags) v'
    | Stuck => Stuck
    end).
  { unfold handle_exec, self, mbind at 1, M_bind at 1. rewrite Hx, Ht. cbn [negb]. fold cmds.
    unfold mbind at 1, M_bind at 1. rewrite reply_eq by (by exists x). done. }
  rewrite Hexec. destruct (for_each (call_with env stuck) cmds v) as [[[] v1]|],
    (for_each (call_with env stuck) cmds w0) as [[[] w2]|]; try done.
  destruct Ha as [_ []]. destruct sim_self0 as (y1 & y2 & H1 & H2 & Hy).
  rewrite sim_ref0 in H1, H2. destruct (sc_buffer _ _ _ _ Hy) as (replies & B1 & B2).
  set (r := client (ctx w)) in *.
  eexists (with_clients (alter resetFlags r) (with_clients (alter (with_queued (fun _ => [])) r) v1)),
    replies, (resetFlags (with_queued (fun _ => []) y1)).
  split_and!; cbn.
  - unfold update_self, mbind, M_bind, get. rewrite sim_ref0, (update_client_eq _ _ _ _ H1).
    cbn [with_clients ctx]. rewrite sim_ref0. eapply update_client_eq. cbn. by rewrite lookup_alter_eq, H1.
  - done.
  - done.
  - intros c Hc. unfold sent. cbn. rewrite !lookup_alter_ne by done. rewrite sim_others0; [done|by rewrite sim_ref0].
  - unfold sent. by rewrite H2, <- B2.
  - unfold sent. cbn. rewrite !lookup_alter_eq, H1. cbn. by rewrite B1, <- app_assoc.
  - by rewrite !lookup_alter_eq, H1.
  - done.
  - done.
Qed.

Definition w_tx : World :=
  MkWorld newDB
    {[ 1%nat := MkClient [] [] MULTI
         [MkCommand (lit "n") 0 IncrCommand; MkCommand (lit "n") 0 GetCommand] 7 false 0 0 None false ]}
    newACLManager (newContext 1%nat 7 (Some (MkCommand [] 0 ExecCommand))).

Lemma EXEC_is_sequential_witness :
  exists w1, handle_exec DbString.sample_env w_tx = Done (tt, w1) /\
    sent w1 1%nat = Some (lit "*2" ++ CRLF ++ lit ":1" ++ CRLF ++ lit "$1" ++ CRLF ++ lit "1" ++ CRLF).
Proof.
  pose proof (EXEC_is_sequential DbString.sample_env w_tx _ eq_refl eq_refl
                ltac:(repeat constructor)) as H. cbv zeta in H.
  destruct (for_each _ _ _) as [[[] w2]|] eqn:E in H; [|exfalso; vm_compute in E; discriminate].
  destruct H as (w1 & replies & y & H1 & _ & _ & _ & H2 & H3 & _).
  exists w1. split; [exact H1|]. change (sent w1 1%nat) with (sent w1 (client (ctx w_tx))). rewrite H3.
  apply (f_equal (fun r => match r with Done (_, w) => sent w 1%nat | Stuck => None end)) in E.
  assert (Er : Some replies = Some (lit ":1" ++ CRLF ++ lit "$1" ++ CRLF ++ lit "1" ++ CRLF)).
  { etransitivity; [symmetry; exact H2|]. etransitivity; [symmetry; exact E|]. vm_compute. reflexivity. }
  injection Er as ->. reflexivity.
Defined.

Lemma on_transaction_added x f :
  isClientOnTransaction (with_write_buffer f (addTransactionFlags x)) = true.
Proof.
  unfold isClientOnTransaction. cbn. rewrite Z.land_lor_distr_l. rewrite negb_true_iff, Z.eqb_neq.
  intros [_ E]%Z.lor_eq_0_iff. discriminate E.
Qed.

Lemma execute_multi env path w x cmd :
  clients w !! client (ctx w) = Some x -> command (ctx w) = Some cmd -> type cmd = Command.MULTI ->
  isClientOnTransaction x = false -> isClientOnPubSub x = false ->
  execute env path w = handle_multi w.
Proof.
  intros Hx Hc Hm Ht Hp. unfold execute, get, mbind, M_bind, self. rewrite Hx, Hc, Ht, Hp.
  destruct cmd as [k b a]. destruct a; try discriminate Hm. reflexivity.
Qed.


(** A client that starts a transaction, and the same client in it. *)
Definition w_multi : World :=
  MkWorld newDB {[ 1%nat := newClient 7 ]} newACLManager (newContext 1%nat 7 (Some (MkCommand [] 0 MultiCommand))).


(** commands on sorted sets cannot run in a transaction.  Their handlers look
    at the context's command, which is EXEC while the queue is run, and answer
    an error without touching the data base. *)
Theorem sorted_sets_fail_in_EXEC env exec cmd w b :
  command (ctx w) = Some (MkCommand [] b ExecCommand) ->
  match type cmd with
  | ZADD | ZRANK | ZRANGE | ZCARD | ZSCORE | ZREM | GEOADD | GEOPOS | GEODIST | GEOSEARCH =>
      call_with env exec cmd w = reply (fun b => encode_error b invalid_command) w
  | _ => True
  end.
Proof.
  intros Hc. unfold type, call_with. destruct (args cmd); try exact I; cbn [type_of];
    unfold handle_zadd, handle_zrank, handle_zrange, handle_zcard, handle_zscore, handle_zrem,
      handle_geoadd, handle_geopos, handle_geodist, handle_geosearch, with_command;
    unfold mbind, M_bind, get; rewrite Hc; reflexivity.
Qed.

Lemma sorted_sets_fail_in_EXEC_witness :
  call_with DbString.sample_env stuck (MkCommand (lit "z") 0 ZcardCommand) w_tx
  = reply (fun b => encode_error b invalid_command) w_tx.
Proof. exact (sorted_sets_fail_in_EXEC DbString.sample_env stuck (MkCommand (lit "z") 0 ZcardCommand) w_tx 0 eq_refl). Defined.
