(* ===== verification/Sessions.v ===== *)
(** Properties of [AUTH], [ACL SETUSER], [PUBLISH], [SUBSCRIBE], [UNSUBSCRIBE]:
    who is let in, and who gets a message. *)
From S2P Require Import Prelude Utils Acl Command World Db.

(** * Authentication *)

(** What AUTH tests. *)
Definition accepts (env : Env) (u : User) (password : list Z) : bool :=
  is_enabled u && (nopass u || existsb (fun s => bool_decide (s = hash_sha256 (SHA256 env) password)) (passwords u)).

Lemma update_self_eq f w x :
  clients w !! client (ctx w) = Some x ->
  update_self f w = Done (tt, with_clients (alter f (client (ctx w))) w).
Proof. intros Hx. unfold update_self, mbind, M_bind, get. by eapply update_client_eq. Qed.

Lemma self_eq w x : clients w !! client (ctx w) = Some x -> self w = Done (x, w).
Proof. intros Hx. unfold self. by rewrite Hx. Qed.

Lemma bind_Done_M {A B} (m : M A) (f : A -> M B) w a w' :
  m w = Done (a, w') -> (m ≫= f) w = f a w'.
Proof. intros E. unfold mbind, M_bind. by rewrite E. Qed.

Lemma cast_eq {A} (v : Command -> option A) w c a :
  command (ctx w) = Some c -> v c = Some a -> cast_command v w = Done (a, w).
Proof. intros Hc Hv. unfold cast_command, mbind, M_bind, get. by rewrite Hc, Hv. Qed.

Lemma handle_auth_eq env w b u p x :
  clients w !! client (ctx w) = Some x ->
  command (ctx w) = Some (MkCommand [] b (AuthCommand u p)) ->
  handle_auth env w =
  match (i ← getUser (acl w) u; y ← deref (acl w) i; Some (i, y)) with
  | Some (i, y) => if accepts env y p then log_in i w else reply wrongpass w
  | None => reply wrongpass w
  end.
Proof.
  intros Hx Hc. unfold handle_auth. rewrite (bind_Done_M _ _ _ _ _ (cast_eq as_auth w _ _ Hc eq_refl)).
  cbv beta iota. unfold mbind at 1, M_bind, get. unfold mbind, option_bind, accepts.
  destruct (getUser (acl w) u) as [i|]; [|done]. destruct (deref (acl w) i) as [y|]; [|done].
  unfold mret, option_ret. destruct (is_enabled y); [|done]. cbn [negb andb]. destruct (nopass y); [done|]. cbn [orb].
  by destruct (existsb _ _).
Qed.

Lemma log_in_eq i w x :
  clients w !! client (ctx w) = Some x ->
  exists w', log_in i w = Done (tt, w') /\
    clients w' !! client (ctx w) =
      Some (with_write_buffer (fun b => encode_simple_string b (lit "OK")) (with_user (Some i) true x)) /\
    acl w' = acl w /\ db w' = db w /\ ctx w' = ctx w.
Proof.
  intros Hx. unfold log_in, reply, mbind, M_bind. rewrite (update_self_eq _ _ _ Hx).
  erewrite update_self_eq by (cbn; by rewrite lookup_alter_eq, Hx).
  eexists. split; [reflexivity|]. split_and!; try done. cbn. by rewrite !lookup_alter_eq, Hx.
Qed.

(** AUTH lets in exactly the enabled users that need no password or present
    one whose hash is stored.  Then the client is logged in as that user and
    answered OK; otherwise it is answered WRONGPASS and its login state does
    not change. *)
Theorem AUTH_spec env w b u p x :
  acl_wf (acl w) -> clients w !! client (ctx w) = Some x ->
  command (ctx w) = Some (MkCommand [] b (AuthCommand u p)) ->
  match lookup_user (acl w) u with
  | Some y =>
      if accepts env y p then
        exists w' i, handle_auth env w = Done (tt, w') /\ deref (acl w') i = Some y /\ username y = u /\
          clients w' !! client (ctx w) =
            Some (with_write_buffer (fun b => encode_simple_string b (lit "OK")) (with_user (Some i) true x))
      else
        exists w', handle_auth env w = Done (tt, w') /\
          clients w' !! client (ctx w) = Some (with_write_buffer wrongpass x)
  | None =>
      exists w', handle_auth env w = Done (tt, w') /\
        clients w' !! client (ctx w) = Some (with_write_buffer wrongpass x)
  end.
Proof.
  intros Hwf Hx Hc. rewrite (handle_auth_eq env w b u p x Hx Hc). unfold lookup_user, mbind, option_bind.
  assert (Hno : exists w', reply wrongpass w = Done (tt, w') /\
    clients w' !! client (ctx w) = Some (with_write_buffer wrongpass x)).
  { unfold reply. rewrite (update_self_eq _ _ _ Hx). eexists. split; [done|]. cbn. by rewrite lookup_alter_eq, Hx. }
  destruct (getUser (acl w) u) as [i|] eqn:Eu; [|exact Hno].
  destruct (wf_names _ Hwf _ _ Eu) as (y & Hy & Hn). assert (Hd : deref (acl w) i = Some y) by exact Hy.
  rewrite Hd. cbn [mret option_ret]. destruct (accepts env y p) eqn:Ea; [|exact Hno].
  destruct (log_in_eq i w x Hx) as (w' & E & Hcl & Ha & _). exists w', i. split_and!; [done| |done|done].
  by rewrite Ha.
Qed.

Definition w_auth : World :=
  MkWorld newDB {[ 1%nat := newClient 7 ]} newACLManager
    (newContext 1%nat 7 (Some (MkCommand [] 0 (AuthCommand (lit "default") (lit "x"))))).

Lemma AUTH_spec_witness :
  exists w' i, handle_auth DbString.sample_env w_auth = Done (tt, w') /\
    clients w' !! 1%nat = Some (with_write_buffer (fun b => encode_simple_string b (lit "OK"))
                                  (with_user (Some i) true (newClient 7))).
Proof.
  destruct (AUTH_spec DbString.sample_env w_auth 0 (lit "default") (lit "x") (newClient 7)
              newACLManager_wf eq_refl eq_refl) as (w' & i & H1 & _ & _ & H2).
  exists w', i. split; [exact H1|exact H2].
Defined.

Lemma hash_nonempty env s :
  (forall t, length (SHA256 env t) = 32%nat) -> hash_sha256 (SHA256 env) s <> [].
Proof.
  intros H E. apply (f_equal length) in E. revert E. unfold hash_sha256. specialize (H s).
  destruct (SHA256 env s); [done|]. done.
Qed.

(** C33: a password set with ACL SETUSER is the password.  SETUSER answers OK, and no
    other user changes.  Whenever, with the user table as it was left, a client
    sends AUTH for that user (enabled before, or new) with any password, the
    handler logs the client in as that user and answers OK if the password's hash
    is that of the one set, and otherwise answers WRONGPASS and leaves the client's
    login as it was; this also when the user could log in without a password before.
    SHA-256 is only taken to return 32 bytes. *)
Theorem SETUSER_then_AUTH env w b u pw fl x :
  (forall t, length (SHA256 env t) = 32%nat) ->
  acl_wf (acl w) -> clients w !! client (ctx w) = Some x ->
  command (ctx w) = Some (MkCommand [] b (ACLSetUserCommand u (Some pw) fl)) ->
  is_enabled (default (newUser u) (lookup_user (acl w) u)) = true ->
  exists w', handle_acl_setuser env w = Done (tt, w') /\ acl_wf (acl w') /\
    clients w' !! client (ctx w) = Some (with_write_buffer (fun b => encode_simple_string b (lit "OK")) x) /\
    (forall n, n <> u -> lookup_user (acl w') n = lookup_user (acl w) n) /\
    forall w2 b2 p z, acl w2 = acl w' -> clients w2 !! client (ctx w2) = Some z ->
      command (ctx w2) = Some (MkCommand [] b2 (AuthCommand u p)) ->
      exists w3, handle_auth env w2 = Done (tt, w3) /\
        if bool_decide (hash_sha256 (SHA256 env) pw = hash_sha256 (SHA256 env) p) then
          exists i y, deref (acl w3) i = Some y /\ username y = u /\
            clients w3 !! client (ctx w2) =
              Some (with_write_buffer (fun b => encode_simple_string b (lit "OK")) (with_user (Some i) true z))
        else clients w3 !! client (ctx w2) = Some (with_write_buffer wrongpass z).
Proof.
  intros Hsha Hwf Hx Hc He. unfold handle_acl_setuser.
  rewrite (bind_Done_M _ _ _ _ _ (cast_eq as_setuser w _ _ Hc eq_refl)). cbv beta iota zeta.
  unfold mbind, M_bind, modify, reply.
  rewrite (update_self_eq _ (with_acl _ w) x) by exact Hx.
  pose proof (hash_nonempty env pw Hsha) as Hne.
  set (y := set_fields (hash_sha256 (SHA256 env) pw) [] (default (newUser u) (lookup_user (acl w) u))).
  eexists. split; [reflexivity|]. cbn [acl with_clients with_acl clients ctx].
  assert (Hwf' : acl_wf (setUser (acl w) u (hash_sha256 (SHA256 env) pw) [])) by (by apply setUser_wf).
  assert (Hu : lookup_user (setUser (acl w) u (hash_sha256 (SHA256 env) pw) []) u = Some y)
    by (rewrite setUser_lookup by done; by rewrite bool_decide_true).
  assert (Hacc : forall p, accepts env y p = bool_decide (hash_sha256 (SHA256 env) pw = hash_sha256 (SHA256 env) p)).
  { intros p. unfold accepts, y, set_fields. rewrite bool_decide_false by done.
    cbn [negb is_enabled nopass passwords existsb]. by rewrite He, orb_false_r. }
  split_and!; [done|by rewrite lookup_alter_eq, Hx| |].
  - intros n Hn. rewrite setUser_lookup by done. by rewrite bool_decide_false.
  - intros w2 b2 p z Ha Hz Hp. pose proof (AUTH_spec env w2 b2 u p z) as H.
    rewrite Ha, Hu, Hacc in H. specialize (H Hwf' Hz Hp). destruct (bool_decide _).
    + destruct H as (w3 & i & E & Hd & Hn & Hcl). exists w3. split; [done|]. by exists i, y.
    + destruct H as (w3 & E & Hcl). by exists w3.
Qed.

Definition sha_env : Env :=
  MkEnv 0 0 (fun _ => 0) (fun _ => []) (fun _ _ => []) id id (fun x _ => x)
    (fun s => replicate 31 0 ++ [u8 (foldr Z.add 0 s)]).

Definition w_setuser : World :=
  MkWorld newDB {[ 1%nat := newClient 7 ]} newACLManager
    (newContext 1%nat 7 (Some (MkCommand [] 0 (ACLSetUserCommand (lit "bob") (Some (lit "pw")) [])))).

(** The same server when another client presents a password. *)
Definition w_login (p : list Z) : World :=
  match handle_acl_setuser sha_env w_setuser with
  | Done (_, w) => with_ctx (fun _ => newContext 1%nat 7 (Some (MkCommand [] 0 (AuthCommand (lit "bob") p)))) w
  | Stuck => w_setuser
  end.

Lemma SETUSER_then_AUTH_witness :
  (exists w3 i y, handle_auth sha_env (w_login (lit "pw")) = Done (tt, w3) /\ deref (acl w3) i = Some y /\
     username y = lit "bob" /\ user <$> clients w3 !! 1%nat = Some (Some i)) /\
  (exists w3, handle_auth sha_env (w_login (lit "no")) = Done (tt, w3) /\
     user <$> clients w3 !! 1%nat = user <$> clients w_setuser !! 1%nat).
Proof.
  destruct (SETUSER_then_AUTH sha_env w_setuser 0 (lit "bob") (lit "pw") [] (newClient 7)
              (fun t => eq_refl) newACLManager_wf eq_refl eq_refl eq_refl) as (w' & H1 & H2 & H3 & _ & H).
  assert (Ea : forall p, acl (w_login p) = acl w') by (intros p; unfold w_login; by rewrite H1).
  assert (Ez : forall p, clients (w_login p) !! 1%nat
                         = Some (with_write_buffer (fun b => encode_simple_string b (lit "OK")) (newClient 7)))
    by (intros p; unfold w_login; rewrite H1; exact H3).
  assert (Ec : forall p, ctx (w_login p) = newContext 1%nat 7 (Some (MkCommand [] 0 (AuthCommand (lit "bob") p))))
    by (intros p; unfold w_login; by rewrite H1).
  split.
  - destruct (H (w_login (lit "pw")) 0 (lit "pw") _ (Ea _) ltac:(rewrite Ec; exact (Ez _)) ltac:(by rewrite Ec))
      as (w3 & E & i & y & Hd & Hn & Hcl).
    assert (Hcl' : clients w3 !! 1%nat = Some (with_write_buffer (fun b => encode_simple_string b (lit "OK")) (with_user (Some i) true
       (with_write_buffer (fun b => encode_simple_string b (lit "OK")) (newClient 7))))).
    { rewrite Ec in Hcl. exact Hcl. }
    exists w3, i, y. split_and!; [exact E|exact Hd|exact Hn|]. rewrite Hcl'. reflexivity.
  - destruct (H (w_login (lit "no")) 0 (lit "no") _ (Ea _) ltac:(rewrite Ec; exact (Ez _)) ltac:(by rewrite Ec))
      as (w3 & E & Hcl).
    assert (Hcl' : clients w3 !! 1%nat = Some (with_write_buffer wrongpass
       (with_write_buffer (fun b => encode_simple_string b (lit "OK")) (newClient 7)))).
    { rewrite Ec in Hcl. exact Hcl. }
    exists w3. split; [exact E|]. rewrite Hcl'. reflexivity.
Defined.

(** * Publish and subscribe *)
Definition is_alive (w : World) (c : cid) : bool := if clients w !! c is Some _ then true else false.

Lemma publish_loop_eq ch m l : forall w n,
  alive w ->
  exists w', publish_loop ch m l n w = Done (tt, w') /\ db w' = db w /\
    client (ctx w') = client (ctx w) /\
    ready_to_write_clients (ctx w') = ready_to_write_clients (ctx w) ++ l /\
    forall c, sent w' c =
      (fun b => let b := Nat.iter (count_occ Nat.eq_dec l c) (publish_message ch m) b in
                if decide (c = client (ctx w))
                then encode_integer b (n + len (base.filter (fun c => is_alive w c = true) l)) else b)
      <$> sent w c.
Proof.
  induction l as [|x l IH]; intros w n Ha; cbn [publish_loop].
  - destruct (reply_answers (fun b => encode_integer b n) w Ha) as (w' & E & [H1 H2 H3 H4]).
    exists w'. split_and!; [done|done|by rewrite H3|by rewrite H3, app_nil_r|]. intros c. rewrite H4.
    cbn. rewrite Z.add_0_r. destruct (decide (c = client (ctx w))); destruct (sent w c); done.
  - rewrite filter_cons. unfold mbind, M_bind, lock, get, write_to.
    destruct (clients w !! x) as [y|] eqn:Ex.
    + rewrite (update_client_eq _ _ _ _ Ex), decide_True by (unfold is_alive; by rewrite Ex).
      unfold modify_ctx, modify.
      set (w1 := with_ctx _ _).
      destruct (IH w1 (n + 1)) as (w' & E & Hd & Hc & Hr & Hs); [exact (alive_alter _ x w Ha)|].
      exists w'. split_and!; [done|done|done|by rewrite Hr; cbn; rewrite <- app_assoc|].
      intros c. rewrite Hs. unfold w1, sent. cbn [with_ctx with_clients clients ctx add_ready client].
      rewrite len_cons.
      assert (El : base.filter (fun c => is_alive w1 c = true) l = base.filter (fun c => is_alive w c = true) l).
      { apply list_filter_iff. intros z. unfold is_alive, w1. cbn [with_ctx with_clients clients].
        destruct (decide (z = x)) as [->|Hne]; [by rewrite lookup_alter_eq, Ex|by rewrite lookup_alter_ne]. }
      fold w1. rewrite El.
      replace (n + 1 + len (base.filter (fun c => is_alive w c = true) l))
        with (n + (1 + len (base.filter (fun c => is_alive w c = true) l))) by lia.
      cbn [count_occ]. destruct (Nat.eq_dec x c) as [<-|Hne].
      * rewrite lookup_alter_eq, Ex. cbn [fmap option_fmap option_map with_write_buffer write_buffer].
        by rewrite Nat.iter_succ_r.
      * by rewrite lookup_alter_ne by done.
    + rewrite decide_False by (unfold is_alive; by rewrite Ex). unfold modify_ctx, modify. set (w1 := with_ctx _ _).
      destruct (IH w1 n) as (w' & E & Hd & Hc & Hr & Hs); [done|].
      exists w'. split_and!; [done|done|done|by rewrite Hr; cbn; rewrite <- app_assoc|].
      intros c. rewrite Hs. change (sent w1 c) with (sent w c). cbn [count_occ].
      destruct (Nat.eq_dec x c) as [<-|Hne]; [|done]. unfold sent. by rewrite Ex.
Qed.

(** C37: PUBLISH reaches every subscriber that still exists.  Each is sent the
    message once per subscription and is scheduled for writing; the publisher
    is answered the number of subscriptions served; nobody else is sent
    anything and no stored key changes. *)
Theorem PUBLISH_spec w k b ch m :
  alive w -> command (ctx w) = Some (MkCommand k b (PublishCommand ch m)) ->
  let l := default [] (pubsub_clients (db w) !! ch) in
  exists w', handlePublish w = Done (tt, w') /\ store (db w') = store (db w) /\
    ready_to_write_clients (ctx w') = ready_to_write_clients (ctx w) ++ l /\
    forall c, sent w' c =
      (fun b => let b := Nat.iter (count_occ Nat.eq_dec l c) (publish_message ch m) b in
                if decide (c = client (ctx w))
                then encode_integer b (len (base.filter (fun c => is_alive w c = true) l)) else b)
      <$> sent w c.
Proof.
  intros Ha Hc l. unfold handlePublish.
  rewrite (bind_Done_M _ _ _ _ _ (cast_eq as_publish w _ _ Hc eq_refl)). cbv beta iota.
  unfold get_db, modify_db, modify, mbind, M_bind, get. fold l. set (w1 := with_db _ w).
  destruct (publish_loop_eq ch m l w1 0 Ha) as (w' & E & Hd & _ & Hr & Hs).
  exists w'. split_and!; [done|by rewrite Hd|done|]. intros c. rewrite Hs. done.
Qed.

Definition w_pub : World :=
  MkWorld (set_pubsub_clients (<[lit "ch" := [2%nat; 3%nat]]>) newDB)
    {[ 1%nat := newClient 7; 2%nat := newClient 8 ]} newACLManager
    (newContext 1%nat 7 (Some (MkCommand [] 0 (PublishCommand (lit "ch") (lit "hi"))))).

Lemma PUBLISH_spec_witness :
  exists w', handlePublish w_pub = Done (tt, w') /\
    sent w' 2%nat = Some (publish_message (lit "ch") (lit "hi") []) /\
    sent w' 1%nat = Some (encode_integer [] 1).
Proof.
  destruct (PUBLISH_spec w_pub [] 0 (lit "ch") (lit "hi")) as (w' & H1 & _ & _ & H2);
    [by exists (newClient 7)|reflexivity|].
  exists w'. split; [exact H1|]. split; [exact (H2 2%nat)|exact (H2 1%nat)].
Defined.

(** UNSUBSCRIBE after another subscriber of the channel has gone away has no
    defined result: the search dereferences the missing client. *)
Theorem UNSUBSCRIBE_missing_subscriber w k b ch x c l :
  clients w !! client (ctx w) = Some x ->
  command (ctx w) = Some (MkCommand k b (UnSubscribeCommand ch)) ->
  pubsub_clients (db w) !! ch = Some (c :: l) -> clients w !! c = None ->
  handleUnSubscribe w = Stuck.
Proof.
  intros Hx Hc Hl Hg. unfold handleUnSubscribe.
  rewrite (bind_Done_M _ _ _ _ _ (cast_eq as_unsubscribe w _ _ Hc eq_refl)).
  rewrite (bind_Done_M _ _ _ _ _ (self_eq w x Hx)). unfold lift, mbind, M_bind, get, id.
  rewrite Hl. cbn [default from_option unsubscribe_loop]. by rewrite Hg.
Qed.

Definition w_unsub : World :=
  MkWorld (set_pubsub_clients (<[lit "ch" := [3%nat; 1%nat]]>) newDB)
    {[ 1%nat := newClient 7 ]} newACLManager
    (newContext 1%nat 7 (Some (MkCommand [] 0 (UnSubscribeCommand (lit "ch"))))).

Lemma UNSUBSCRIBE_missing_subscriber_witness : handleUnSubscribe w_unsub = Stuck.
Proof.
  exact (UNSUBSCRIBE_missing_subscriber w_unsub [] 0 (lit "ch") (newClient 7) 3%nat [1%nat]
           eq_refl eq_refl eq_refl eq_refl).
Defined.
