(* ===== verification/Rdb.v ===== *)
(** [src/rdb.h], [src/rdb.cpp], [src/io.cpp]: loading a snapshot file.  The file
    is a byte string with a read position; a read past its end marks the stream
    as failed and every later read gives nothing.  The keys found go to the data
    base through [DB::set] and [DB::setWithExpiry].  The theorems: the loader
    terminates on every file, and on a file in the documented format it makes
    exactly the calls the file describes, in order. *)
From S2P Require Import Prelude Utils ListpackCodec World DbString.

(** * The file *)

Record RIO := MkRIO { contents : list Z; getPos : nat; failed : bool }.

Definition open_file (contents : list Z) : RIO := MkRIO contents 0 false.

(** How a call of the loader ends: with a value; with an exception, which
    [Server::run] catches; without a defined result; out of fuel. *)
Inductive loaded (A : Type) : Type :=
| Loaded (a : A) (io : RIO) (w : World)
| Threw (w : World)
| Undefined
| Exhausted.
Arguments Loaded {A} _ _ _.
Arguments Threw {A} _.
Arguments Undefined {A}.
Arguments Exhausted {A}.

Definition L (A : Type) : Type := RIO -> World -> loaded A.

#[global] Instance L_ret : MRet L := fun A a io w => Loaded a io w.
#[global] Instance L_bind : MBind L := fun A B f m io w =>
  match m io w with
  | Loaded a io w => f a io w
  | Threw w => Threw w
  | Undefined => Undefined
  | Exhausted => Exhausted
  end.

Definition undefined {A} : L A := fun _ _ => Undefined.
Definition exhausted {A} : L A := fun _ _ => Exhausted.

(** A call on the data base. *)
Definition on_db (m : M unit) : L unit := fun io w =>
  match m w with Done (_, w) => Loaded tt io w | Stuck => Undefined end.

(** [RIO::read].  The buffer is a [std::vector] of the size asked for, whose
    constructor throws when that exceeds [max_size]. *)
Definition read (bytes : Z) : L (list Z) := fun io w =>
  if INT64_MAX <? bytes then Threw w
  else if failed io then Loaded [] io w
  else
    let rest := drop (getPos io) (contents io) in
    if bytes <=? len rest then
      Loaded (take (Z.to_nat bytes) rest)
        (MkRIO (contents io) (getPos io + Z.to_nat bytes) false) w
    else Loaded rest (MkRIO (contents io) (getPos io) true) w.

(** [RIO::seekBackRead]; [tellg] is -1 on a failed stream. *)
Definition seekBackRead (bytes : nat) : L unit := fun io w =>
  if failed io then Loaded tt io w
  else if (bytes <=? getPos io)%nat then
    Loaded tt (MkRIO (contents io) (getPos io - bytes) false) w
  else Loaded tt io w.

(** [io.read(1)[0]]: no test that there is a byte. *)
Definition read_byte : L Z :=
  b ← read 1;
  match b with x :: _ => mret x | [] => undefined end.

(** * Constants *)

Definition RDB_ENC_INT8 : Z := 192.
Definition RDB_ENC_INT16 : Z := 193.
Definition RDB_ENC_INT32 : Z := 194.
Definition RDB_ENC_LZF : Z := 195.
Definition RDB_OPCODE_AUX : Z := 250.
Definition RDB_OPCODE_RESIZEDB : Z := 251.
Definition RDB_OPCODE_EXPIRETIME_MS : Z := 252.
Definition RDB_OPCODE_EXPIRETIME : Z := 253.
Definition RDB_OPCODE_SELECTDB : Z := 254.
Definition RDB_OPCODE_EOF : Z := 255.
Definition RDB_TYPE_STRING : Z := 0.
Definition RDB_LENERR : Z := UINT64_MAX.

(** * Lengths and strings *)

(** The length and whether the byte announces a special encoding. *)
Definition getLength (byte : Z) : L (Z * bool) :=
  let lengthType := Z.land (Z.shiftr byte 6) 3 in
  if lengthType =? 0 then mret (Z.land byte 63, false)
  else if lengthType =? 1 then
    nextByte ← read 1;
    match nextByte with
    | x :: _ => mret (Z.lor (Z.shiftl (Z.land byte 63) 8) x, false)
    | [] => mret (RDB_LENERR, false)
    end
  else if lengthType =? 2 then
    nextBytes ← read 4;
    match nextBytes with
    | [b0; b1; b2; b3] =>
        mret (Z.lor (Z.lor (Z.lor (Z.shiftl b0 24) (Z.shiftl b1 16)) (Z.shiftl b2 8)) b3, false)
    | _ => mret (RDB_LENERR, false)
    end
  else mret (RDB_LENERR, true).

(** Two's complement at a width of [8 * n] bits. *)
Definition signed (n : nat) (v : Z) : Z :=
  let m := 2 ^ (8 * Z.of_nat n) in
  if v <? m / 2 then v else v - m.

(** Little-endian bytes. *)
Fixpoint little (bs : list Z) : Z :=
  match bs with [] => 0 | b :: bs => Z.lor b (Z.shiftl (little bs) 8) end.

(** The integer encodings, read as a signed integer of that many bytes. *)
Definition getInteger (n : nat) : L (list Z) :=
  data ← read (Z.of_nat n);
  mret (if (length data <? n)%nat then [] else to_string (signed n (little data))).

Definition getSpecialString (byte : Z) : L (list Z) :=
  if byte =? RDB_ENC_INT8 then getInteger 1
  else if byte =? RDB_ENC_INT16 then getInteger 2
  else if byte =? RDB_ENC_INT32 then getInteger 4
  else if byte =? RDB_ENC_LZF then mret []
  else mret [].

Definition parseNormalString (length : Z) : L (list Z) :=
  if length =? 0 then mret []
  else
    data ← read length;
    mret (if len data =? length then data else []).

Definition parseString : L (list Z) :=
  lengthBytes ← read 1;
  match lengthBytes with
  | [] => mret []
  | byte :: _ =>
      r ← getLength byte;
      let '(length, isEncType) := r in
      if (isEncType : bool) then getSpecialString byte else parseNormalString length
  end.

Definition parseExpiry (opcode : Z) : L Z :=
  if opcode =? RDB_OPCODE_EXPIRETIME_MS then
    expiryBytes ← read 8;
    mret (if (length expiryBytes <? 8)%nat then 0 else little expiryBytes)
  else if opcode =? RDB_OPCODE_EXPIRETIME then
    expiryBytes ← read 4;
    mret (if (length expiryBytes <? 4)%nat then 0 else little expiryBytes * 1000)
  else mret 0.

(** * The sections of the file *)

Definition parseHeader : L bool :=
  magicBytes ← read 5;
  if negb (length magicBytes =? 5)%nat then mret false
  else if negb (bool_decide (magicBytes = lit "REDIS")) then mret false
  else
    versionBytes ← read 4;
    mret (length versionBytes =? 4)%nat.

Fixpoint parseMetadata_loop (fuel : nat) : L unit :=
  match fuel with
  | O => exhausted
  | S fuel =>
      opcodeBytes ← read 1;
      match opcodeBytes with
      | [] => mret tt
      | opcode :: _ =>
          if opcode =? RDB_OPCODE_AUX then
            parseString;; parseString;; parseMetadata_loop fuel
          else seekBackRead 1
      end
  end.

(** Every iteration of a loop reads a byte of the file. *)
Definition with_fuel {A} (m : nat -> L A) : L A := fun io w => m (S (length (contents io))) io w.

Definition parseMetadata : L unit := with_fuel parseMetadata_loop.

Section Loader.
Context (env : Env).

Definition store_key (key value : list Z) (expiry : option Z) : M unit :=
  match expiry with
  | Some expiry => setWithExpiry env key value expiry
  | None => DbString.set key value
  end.

(** The keys of one data base. *)
Fixpoint parseKeys_loop (fuel : nat) : L bool :=
  match fuel with
  | O => exhausted
  | S fuel =>
      keyOpcodeBytes ← read 1;
      match keyOpcodeBytes with
      | [] => mret false
      | keyOpcode :: _ =>
          if (keyOpcode =? RDB_OPCODE_SELECTDB) || (keyOpcode =? RDB_OPCODE_EOF) then
            seekBackRead 1;; mret true
          else
            r ← (if (keyOpcode =? RDB_OPCODE_EXPIRETIME_MS) || (keyOpcode =? RDB_OPCODE_EXPIRETIME) then
                   expiry ← parseExpiry keyOpcode;
                   typeBytes ← read 1;
                   match typeBytes with
                   | [] => mret None
                   | t :: _ => mret (Some (t, Some expiry))
                   end
                 else mret (Some (keyOpcode, None)));
            match r with
            | None => mret false
            | Some (keyOpcode, expiry) =>
                if keyOpcode =? RDB_TYPE_STRING then
                  key ← parseString;
                  value ← parseString;
                  on_db (store_key key value expiry);;
                  parseKeys_loop fuel
                else mret false
            end
      end
  end.

(** The number of the data base and the sizes of its tables; a byte that
    announces no sizes is gone. *)
Definition select_db : L unit :=
  b ← read_byte;
  getLength b;;
  nextOpcode ← read 1;
  match nextOpcode with
  | x :: _ =>
      if x =? RDB_OPCODE_RESIZEDB then
        b ← read_byte;
        getLength b;;
        b ← read_byte;
        getLength b;;
        mret tt
      else mret tt
  | [] => mret tt
  end.

Definition parseDatabase : L bool :=
  opcodeBytes ← read 1;
  match opcodeBytes with
  | [] => mret false
  | opcode :: _ =>
      if opcode =? RDB_OPCODE_EOF then mret false
      else
        (if opcode =? RDB_OPCODE_SELECTDB then select_db else mret tt);;
        with_fuel parseKeys_loop
  end.

Fixpoint databases_loop (fuel : nat) : L unit :=
  match fuel with
  | O => exhausted
  | S fuel =>
      more ← parseDatabase;
      if (more : bool) then databases_loop fuel else mret tt
  end.

(** [Rdb::parse] on an open file. *)
Definition parse_file : L unit :=
  ok ← parseHeader;
  if (ok : bool) then parseMetadata;; with_fuel databases_loop else mret tt.

(** [Rdb::parse] as [Server::run] calls it: an exception ends the load, and what
    was stored until then stays. *)
Definition parse (file : list Z) : M unit := fun w =>
  match parse_file (open_file file) w with
  | Loaded _ _ w => Done (tt, w)
  | Threw w => Done (tt, w)
  | Undefined | Exhausted => Stuck
  end.
End Loader.

(** * Termination *)

(** The bytes that can still be read. *)
Definition remaining (io : RIO) : nat :=
  if failed io then 0 else length (contents io) - getPos io.

(** The call ends on the same file with no more left to read than [io] had. *)
Definition within {A} (io : RIO) (r : loaded A) : Prop :=
  match r with
  | Loaded _ io' _ => (remaining io' <= remaining io)%nat /\ contents io' = contents io
  | Exhausted => False
  | _ => True
  end.

Definition ends {A} (m : L A) : Prop := forall io w, within io (m io w).

Lemma within_trans {A} io io' (r : loaded A) :
  (remaining io' <= remaining io)%nat -> contents io' = contents io -> within io' r -> within io r.
Proof. destruct r; cbn; try done. intros ? ? []. split; [lia|congruence]. Qed.

Lemma within_bind {A B} (m : L A) (f : A -> L B) io w :
  within io (m io w) ->
  (forall a io' w', m io w = Loaded a io' w' -> within io (f a io' w')) ->
  within io ((m ≫= f) io w).
Proof. unfold mbind, L_bind. destruct (m io w) as [a io' w'| | |]; cbn; try done. intros _ H. by apply H. Qed.

Lemma ends_ret {A} (a : A) : ends (mret a).
Proof. by intros io w. Qed.

Lemma ends_undefined {A} : ends (@undefined A).
Proof. by intros io w. Qed.

Lemma ends_bind {A B} (m : L A) (f : A -> L B) : ends m -> (forall a, ends (f a)) -> ends (m ≫= f).
Proof.
  intros Hm Hf io w. apply within_bind; [apply Hm|]. intros a io' w' E.
  specialize (Hm io w). rewrite E in Hm. destruct Hm. eapply within_trans; [done|done|apply Hf].
Qed.

Lemma ends_read n : ends (read n).
Proof.
  intros io w. unfold read. destruct (_ <? n); [done|]. destruct (failed io) eqn:Hf; [by split|].
  destruct (n <=? _); unfold within, remaining; rewrite Hf; cbn; split; try done; lia.
Qed.

Lemma ends_on_db m : ends (on_db m).
Proof. intros io w. unfold on_db. by destruct (m w) as [[[] w']|]. Qed.

Create HintDb ends.
#[export] Hint Resolve ends_ret ends_undefined ends_read ends_on_db : ends.

(** Descend through the binds and tests of a loop-free parser. *)
Ltac ends_tac :=
  repeat first
    [ progress eauto with ends
    | apply ends_bind; [|intros]
    | match goal with
      | |- ends (if ?b then _ else _) => destruct b
      | |- ends (match ?x with _ => _ end) => destruct x
      | |- ends (let '_ := ?x in _) => destruct x
      end ].

Lemma ends_getLength byte : ends (getLength byte).
Proof. unfold getLength. ends_tac. Qed.
#[export] Hint Resolve ends_getLength : ends.

Lemma ends_parseString : ends parseString.
Proof. unfold parseString, parseNormalString, getSpecialString, getInteger. ends_tac. Qed.
#[export] Hint Resolve ends_parseString : ends.

Lemma ends_parseExpiry opcode : ends (parseExpiry opcode).
Proof. unfold parseExpiry. ends_tac. Qed.
#[export] Hint Resolve ends_parseExpiry : ends.

Lemma ends_parseHeader : ends parseHeader.
Proof. unfold parseHeader. ends_tac. Qed.

(** Reading one byte makes progress, and can be taken back. *)
Lemma read_one io w :
  (exists io', read 1 io w = Loaded [] io' w /\ within io (Loaded tt io' w)) \/
  (exists x io', read 1 io w = Loaded [x] io' w /\ S (remaining io') = remaining io /\
     contents io' = contents io /\ seekBackRead 1 io' w = Loaded tt io w).
Proof.
  destruct io as [c p f]. unfold read. change (INT64_MAX <? 1) with false. cbv iota. cbn [failed contents getPos].
  destruct f.
  - left. by eexists.
  - destruct (drop p c) as [|x rest] eqn:E.
    + left. eexists. split; [reflexivity|]. unfold within, remaining. cbn. split; [lia|done].
    + right. exists x, (MkRIO c (p + 1) false).
      assert (Hl : (p < length c)%nat).
      { destruct (Nat.lt_ge_cases p (length c)); [done|]. by rewrite drop_ge in E by done. }
      destruct (Z.leb_spec 1 (len (x :: rest))) as [H|H]; [|unfold len in H; cbn in H; lia].
      split_and!.
      * change (Z.to_nat 1) with 1%nat. cbn [take]. by rewrite take_0.
      * unfold remaining. cbn. lia.
      * done.
      * unfold seekBackRead. cbn [failed getPos contents]. destruct (Nat.leb_spec 1 (p + 1)); [|lia].
        by replace (p + 1 - 1)%nat with p by lia.
Qed.

(** One round of a loop: a byte is read, and the rest runs on less; at the end
    of the file the loop ends. *)
Lemma within_round {A} (f : list Z -> L A) (a : A) io w :
  (forall io', f [] io' w = Loaded a io' w) ->
  (forall x io', S (remaining io') = remaining io -> contents io' = contents io ->
     seekBackRead 1 io' w = Loaded tt io w -> within io (f [x] io' w)) ->
  within io ((read 1 ≫= f) io w).
Proof.
  intros H0 H1. unfold mbind, L_bind.
  destruct (read_one io w) as [(io' & -> & Hi)|(x & io' & -> & Hr & Hc & Hs)].
  - by rewrite H0.
  - by apply H1.
Qed.

Lemma within_refl {A} (a : A) io w : within io (Loaded a io w).
Proof. done. Qed.

(** A call that ends, in front of one that ends on less. *)
Lemma within_ends_bind {A B} (m : L A) (f : A -> L B) io io0 w :
  ends m -> (remaining io <= remaining io0)%nat -> contents io = contents io0 ->
  (forall a io' w', (remaining io' <= remaining io)%nat -> contents io' = contents io0 -> within io0 (f a io' w')) ->
  within io0 ((m ≫= f) io w).
Proof.
  intros Hm Hr Hc Hf. specialize (Hm io w). unfold mbind, L_bind.
  destruct (m io w) as [a io' w'| | |]; cbn in *; try done. destruct Hm. apply Hf; [done|congruence].
Qed.

Lemma metadata_within fuel : forall io w, (remaining io < fuel)%nat -> within io (parseMetadata_loop fuel io w).
Proof.
  induction fuel as [|fuel IH]; intros io w Hf; [lia|]. cbn [parseMetadata_loop].
  apply (within_round _ tt); [done|]. intros x io' Hr Hc Hs. destruct (x =? RDB_OPCODE_AUX).
  - apply within_ends_bind; [apply ends_parseString|lia|done|]. intros _ io1 w1 H1 C1.
    apply within_ends_bind; [apply ends_parseString|lia|done|]. intros _ io2 w2 H2 C2.
    eapply within_trans; [|exact C2|apply IH]; lia.
  - rewrite Hs. apply within_refl.
Qed.

Lemma keys_within env fuel : forall io w, (remaining io < fuel)%nat -> within io (parseKeys_loop env fuel io w).
Proof.
  induction fuel as [|fuel IH]; intros io w Hf; [lia|]. cbn [parseKeys_loop].
  apply (within_round _ false); [done|]. intros x io' Hr Hc Hs. destruct (_ || _).
  { unfold mbind, L_bind. rewrite Hs. apply within_refl. }
  apply within_ends_bind; [|lia|done|].
  { destruct (_ || _); ends_tac. }
  intros [[t e]|] io1 w1 H1 C1; [|split; [lia|done]].
  destruct (t =? RDB_TYPE_STRING); [|split; [lia|done]].
  apply within_ends_bind; [apply ends_parseString|lia|done|]. intros key io2 w2 H2 C2.
  apply within_ends_bind; [apply ends_parseString|lia|done|]. intros value io3 w3 H3 C3.
  apply within_ends_bind; [apply ends_on_db|lia|done|]. intros _ io4 w4 H4 C4.
  eapply within_trans; [|exact C4|apply IH]; lia.
Qed.

Lemma with_fuel_within {A} (m : nat -> L A) io w :
  (forall fuel io w, (remaining io < fuel)%nat -> within io (m fuel io w)) ->
  within io (with_fuel m io w).
Proof. intros H. apply H. unfold remaining. destruct (failed io); lia. Qed.

(** A data base section makes progress when it asks for another one. *)
Lemma round_progress (f : list Z -> L bool) io w :
  (forall io', f [] io' w = Loaded false io' w) -> (forall x io', within io' (f [x] io' w)) ->
  within io ((read 1 ≫= f) io w) /\
  forall io' w', (read 1 ≫= f) io w = Loaded true io' w' -> (remaining io' < remaining io)%nat.
Proof.
  intros H0 H1. unfold mbind, L_bind.
  destruct (read_one io w) as [(io' & -> & Hi)|(x & io' & -> & Hr & Hc & _)]; [by rewrite H0|].
  specialize (H1 x io'). split; [eapply within_trans; [| |exact H1]; [lia|done]|].
  intros io1 w1 E. rewrite E in H1. destruct H1. lia.
Qed.

Lemma database_within env io w :
  within io (parseDatabase env io w) /\
  forall io' w', parseDatabase env io w = Loaded true io' w' -> (remaining io' < remaining io)%nat.
Proof.
  apply round_progress; [done|]. intros x io'. destruct (x =? RDB_OPCODE_EOF); [apply within_refl|].
  apply within_ends_bind; [|done|done|].
  - unfold select_db, read_byte. ends_tac.
  - intros _ io1 w1 H1 C1. eapply within_trans; [exact H1|exact C1|].
    apply with_fuel_within, keys_within.
Qed.

Lemma databases_within env fuel : forall io w, (remaining io < fuel)%nat -> within io (databases_loop env fuel io w).
Proof.
  induction fuel as [|fuel IH]; intros io w Hf; [lia|]. cbn [databases_loop].
  destruct (database_within env io w) as [Hw Hp]. apply within_bind; [done|].
  intros [] io' w' E; rewrite E in Hw; destruct Hw; [|done].
  eapply within_trans; [done|done|]. apply IH. specialize (Hp _ _ E). lia.
Qed.

Lemma parse_file_within env io w : within io (parse_file env io w).
Proof.
  unfold parse_file. apply within_ends_bind; [apply ends_parseHeader|done|done|].
  intros [] io1 w1 H1 C1; [|by split]. eapply within_trans; [exact H1|exact C1|].
  pose proof (with_fuel_within _ io1 w1 metadata_within) as H. apply within_bind; [exact H|].
  intros [] io2 w2 E. unfold parseMetadata in E. rewrite E in H. destruct H as [H2 C2].
  eapply within_trans; [exact H2|exact C2|]. apply with_fuel_within, databases_within.
Qed.

(** * The file format *)

(** The encodings of a length that the loader understands: 6 bits, 14 bits, or 32
    bits in network order. *)
Inductive len_code : Z -> list Z -> Prop :=
| Len6 n : 0 <= n < 64 -> len_code n [n]
| Len14 n : 0 <= n < 2 ^ 14 -> len_code n [64 + n / 256; n mod 256]
| Len32 n : 0 <= n < 2 ^ 32 ->
    len_code n [128; n / 256 / 256 / 256; n / 256 / 256 mod 256; n / 256 mod 256; n mod 256].

Definition in_bytes (n : nat) (v : Z) : Prop :=
  - 2 ^ (8 * Z.of_nat n - 1) <= v < 2 ^ (8 * Z.of_nat n - 1).

(** The encodings of a string: the bytes after their length, or an integer in
    one, two or four bytes, which stands for its decimal text. *)
Inductive str_code : list Z -> list Z -> Prop :=
| StrBytes s c : len_code (len s) c -> str_code s (c ++ s)
| StrInt8 v : in_bytes 1 v -> str_code (to_string v) (RDB_ENC_INT8 :: le_split 1 (v mod 2 ^ 8))
| StrInt16 v : in_bytes 2 v -> str_code (to_string v) (RDB_ENC_INT16 :: le_split 2 (v mod 2 ^ 16))
| StrInt32 v : in_bytes 4 v -> str_code (to_string v) (RDB_ENC_INT32 :: le_split 4 (v mod 2 ^ 32)).

(** A string key with its value, and with its expiry time in milliseconds. *)
Inductive key_code : list Z * list Z * option Z -> list Z -> Prop :=
| KeyPlain k v ck cv : str_code k ck -> str_code v cv ->
    key_code (k, v, None) (RDB_TYPE_STRING :: ck ++ cv)
| KeyMs t k v ck cv : 0 <= t < 2 ^ 64 -> str_code k ck -> str_code v cv ->
    key_code (k, v, Some t) (RDB_OPCODE_EXPIRETIME_MS :: le_split 8 t ++ RDB_TYPE_STRING :: ck ++ cv)
| KeySeconds t k v ck cv : 0 <= t < 2 ^ 32 -> str_code k ck -> str_code v cv ->
    key_code (k, v, Some (t * 1000)) (RDB_OPCODE_EXPIRETIME :: le_split 4 t ++ RDB_TYPE_STRING :: ck ++ cv).

Inductive keys_code : list (list Z * list Z * option Z) -> list Z -> Prop :=
| NoKeys : keys_code [] []
| MoreKeys e es c cs : key_code e c -> keys_code es cs -> keys_code (e :: es) (c ++ cs).

(** The data bases: a number, the two table sizes, and the keys. *)
Inductive dbs_code : list (list Z * list Z * option Z) -> list Z -> Prop :=
| NoDbs : dbs_code [] []
| MoreDbs n size expires cn csize cexpires es cs es' cs' :
    len_code n cn -> len_code size csize -> len_code expires cexpires ->
    keys_code es cs -> dbs_code es' cs' ->
    dbs_code (es ++ es')
      (RDB_OPCODE_SELECTDB :: cn ++ RDB_OPCODE_RESIZEDB :: csize ++ cexpires ++ cs ++ cs').

Inductive aux_code : list Z -> Prop :=
| NoAux : aux_code []
| MoreAux k v ck cv rest : str_code k ck -> str_code v cv -> aux_code rest ->
    aux_code (RDB_OPCODE_AUX :: ck ++ cv ++ rest).

(** A snapshot with the string keys [es], without 64-bit lengths and compressed
    strings: magic, version, metadata, data bases, the end marker and whatever
    follows it. *)
Inductive snapshot : list Z -> list (list Z * list Z * option Z) -> Prop :=
| Snapshot version aux es dbs rest :
    length version = 4%nat -> aux_code aux -> dbs_code es dbs ->
    snapshot (lit "REDIS" ++ version ++ aux ++ dbs ++ RDB_OPCODE_EOF :: rest) es.

(** * Reading the format back *)

Definition at_pos (A C : list Z) : RIO := MkRIO (A ++ C) (length A) false.

(** [m] consumes exactly [X] and answers [a]. *)
Definition reads {A} (m : L A) (X : list Z) (a : A) : Prop :=
  forall P C w, m (at_pos P (X ++ C)) w = Loaded a (at_pos (P ++ X) C) w.

Lemma reads_ret {A} (a : A) : reads (mret a) [] a.
Proof. intros P C w. by rewrite app_nil_r. Qed.

Lemma reads_bind {A B} (m : L A) (f : A -> L B) X Y a b :
  reads m X a -> reads (f a) Y b -> reads (m ≫= f) (X ++ Y) b.
Proof.
  intros Hm Hf P C w. unfold mbind, L_bind. rewrite <- app_assoc, Hm, Hf. by rewrite app_assoc.
Qed.

Lemma reads_read X n : n = len X -> len X <= INT64_MAX -> reads (read n) X X.
Proof.
  intros -> Hl P C w. unfold read. destruct (Z.ltb_spec INT64_MAX (len X)); [lia|].
  unfold at_pos. cbn [failed contents getPos]. rewrite drop_app_length.
  rewrite len_app. pose proof (len_nonneg C). destruct (Z.leb_spec (len X) (len X + len C)); [|lia].
  unfold len. rewrite Nat2Z.id, take_app_length. f_equal. rewrite <- app_assoc. f_equal. by rewrite length_app.
Qed.

Lemma reads_byte_bind {B} (f : list Z -> L B) x Y b :
  reads (f [x]) Y b -> reads (read 1 ≫= f) (x :: Y) b.
Proof. intros H. apply (reads_bind _ _ [x] Y [x]); [by apply reads_read|exact H]. Qed.

(** A last read and what is made of it. *)
Lemma reads_map {A B} (m : L A) (f : A -> L B) X a b :
  reads m X a -> reads (f a) [] b -> reads (m ≫= f) X b.
Proof. intros Hm Hf. rewrite <- (app_nil_r X). by eapply reads_bind. Qed.

Lemma shl_lor hi lo k : 0 <= k -> 0 <= lo < 2 ^ k -> Z.lor (Z.shiftl hi k) lo = hi * 2 ^ k + lo.
Proof. intros. rewrite Z.lor_comm, lor_disjoint by done. lia. Qed.

Lemma length_type b : Z.land (Z.shiftr b 6) 3 = b / 64 mod 4.
Proof. rewrite Z.shiftr_div_pow2 by done. by apply (Z.land_ones _ 2). Qed.

Lemma land_63 b : Z.land b 63 = b mod 64.
Proof. by apply (Z.land_ones b 6). Qed.

Lemma network_order n : 0 <= n < 2 ^ 32 ->
  Z.lor (Z.lor (Z.lor (Z.shiftl (n / 256 / 256 / 256) 24) (Z.shiftl (n / 256 / 256 mod 256) 16))
           (Z.shiftl (n / 256 mod 256) 8)) (n mod 256) = n.
Proof.
  intros Hn. assert (Hb : forall x, 0 <= x mod 256 < 256) by (intros; by apply Z.mod_pos_bound).
  pose proof (Z.div_mod n 256 ltac:(lia)). pose proof (Z.div_mod (n / 256) 256 ltac:(lia)).
  pose proof (Z.div_mod (n / 256 / 256) 256 ltac:(lia)).
  pose proof (Hb n). pose proof (Hb (n / 256)). pose proof (Hb (n / 256 / 256)).
  rewrite <- !Z.lor_assoc.
  rewrite (shl_lor (n / 256 mod 256)) by lia. rewrite (shl_lor (n / 256 / 256 mod 256)) by lia.
  rewrite shl_lor by lia. lia.
Qed.

Lemma reads_getLength n b c : len_code n (b :: c) -> reads (getLength b) c (n, false).
Proof.
  inversion 1 as [? Hn|? Hn|? Hn]; subst; unfold getLength; rewrite length_type.
  - rewrite Z.div_small by lia. change (0 mod 4) with 0. rewrite land_63, Z.mod_small by lia. apply reads_ret.
  - assert (Hq : 0 <= n / 256 < 64) by (split; [apply Z.div_pos|apply Z.div_lt_upper_bound]; lia).
    replace ((64 + n / 256) / 64) with 1 by (apply Z.div_unique with (n / 256); lia).
    rewrite land_63. replace ((64 + n / 256) mod 64) with (n / 256) by (apply Z.mod_unique with 1; lia).
    change (1 mod 4) with 1. cbn [Z.eqb Pos.eqb].
    apply reads_byte_bind. rewrite shl_lor by (lia || by apply Z.mod_pos_bound).
    replace (n / 256 * 2 ^ 8 + n mod 256) with n by (pose proof (Z.div_mod n 256); lia).
    apply reads_ret.
  - change (128 / 64 mod 4) with 2. cbn [Z.eqb Pos.eqb].
    eapply reads_map; [by apply reads_read|]. cbv beta iota. rewrite network_order by done. apply reads_ret.
Qed.

Lemma little_combine bs : Forall is_byte bs -> little bs = le_combine bs.
Proof.
  induction 1 as [|b bs Hb _ IH]; [done|]. cbn [little le_combine].
  rewrite (lor_disjoint b _ 8), IH by (lia || exact Hb). lia.
Qed.

Lemma little_split n v : 0 <= v < 256 ^ Z.of_nat n -> little (le_split n v) = v.
Proof. intros. rewrite little_combine by apply le_split_bytes. by apply le_combine_split. Qed.

Lemma signed_mod n v : (0 < n)%nat -> in_bytes n v -> signed n (v mod 2 ^ (8 * Z.of_nat n)) = v.
Proof.
  intros Hn Hv. unfold in_bytes, signed in *. set (k := 8 * Z.of_nat n) in *.
  assert (E : 2 ^ k = 2 * 2 ^ (k - 1)) by (rewrite <- Z.pow_succ_r by lia; f_equal; lia).
  rewrite E in *. rewrite (Z.mul_comm 2), Z.div_mul by lia. pose proof (Z.pow_pos_nonneg 2 (k - 1)).
  destruct (Z.lt_ge_cases v 0) as [Hneg|Hpos].
  - replace (v mod (2 ^ (k - 1) * 2)) with (v + 2 ^ (k - 1) * 2) by (apply Z.mod_unique with (-1); lia).
    destruct (Z.ltb_spec (v + 2 ^ (k - 1) * 2) (2 ^ (k - 1))); lia.
  - rewrite Z.mod_small by lia. destruct (Z.ltb_spec v (2 ^ (k - 1))); lia.
Qed.

Lemma reads_getInteger n v :
  (0 < n <= 8)%nat -> in_bytes n v ->
  reads (getInteger n) (le_split n (v mod 2 ^ (8 * Z.of_nat n))) (to_string v).
Proof.
  intros Hn Hv. unfold getInteger.
  assert (Hl : len (le_split n (v mod 2 ^ (8 * Z.of_nat n))) = Z.of_nat n)
    by (unfold len; by rewrite le_split_length).
  eapply reads_map; [apply reads_read; [by rewrite Hl|unfold INT64_MAX; lia]|].
  assert (Hm : 0 <= v mod 2 ^ (8 * Z.of_nat n) < 256 ^ Z.of_nat n).
  { change 256 with (2 ^ 8). rewrite <- Z.pow_mul_r by lia. apply Z.mod_pos_bound. lia. }
  rewrite le_split_length, Nat.ltb_irrefl, little_split by exact Hm. rewrite signed_mod by (done || lia).
  apply reads_ret.
Qed.

Lemma len_code_bound n c : len_code n c -> 0 <= n < 2 ^ 32.
Proof. destruct 1; lia. Qed.

Lemma reads_parseString s c : str_code s c -> reads parseString c s.
Proof.
  destruct 1 as [s c Hc|v Hv|v Hv|v Hv]; unfold parseString.
  - assert (exists b c', c = b :: c') as (b & c' & ->) by (destruct Hc; eauto).
    cbn [app]. apply reads_byte_bind. eapply reads_bind; [by apply reads_getLength|].
    cbv beta iota. unfold parseNormalString. apply len_code_bound in Hc.
    destruct (Z.eqb_spec (len s) 0) as [E|E]; [apply len_0 in E as ->; apply reads_ret|].
    eapply reads_map; [apply reads_read; [done|unfold INT64_MAX; lia]|].
    rewrite Z.eqb_refl. apply reads_ret.
  - apply reads_byte_bind, (reads_bind _ _ [] _ (RDB_LENERR, true)); [apply reads_ret|].
    by apply (reads_getInteger 1); [lia|].
  - apply reads_byte_bind, (reads_bind _ _ [] _ (RDB_LENERR, true)); [apply reads_ret|].
    by apply (reads_getInteger 2); [lia|].
  - apply reads_byte_bind, (reads_bind _ _ [] _ (RDB_LENERR, true)); [apply reads_ret|].
    by apply (reads_getInteger 4); [lia|].
Qed.

Lemma reads_expiry op n t :
  (op, n) = (RDB_OPCODE_EXPIRETIME_MS, 8%nat) \/ (op, n) = (RDB_OPCODE_EXPIRETIME, 4%nat) ->
  0 <= t < 256 ^ Z.of_nat n ->
  reads (parseExpiry op) (le_split n t) (if (n =? 8)%nat then t else t * 1000).
Proof.
  assert (Hl : forall k v, len (le_split k v) = Z.of_nat k) by (intros; unfold len; by rewrite le_split_length).
  intros [[= -> ->]|[= -> ->]] Ht; unfold parseExpiry; cbn [Z.eqb Pos.eqb RDB_OPCODE_EXPIRETIME_MS RDB_OPCODE_EXPIRETIME Nat.eqb].
  - eapply reads_map; [apply reads_read; by rewrite Hl|]. rewrite le_split_length, little_split by done. apply reads_ret.
  - eapply reads_map; [apply reads_read; by rewrite Hl|]. rewrite le_split_length, little_split by done. apply reads_ret.
Qed.

(** What follows the metadata or the keys of a data base: a marker that is put
    back. *)
Lemma seek_back P x C w : seekBackRead 1 (at_pos (P ++ [x]) C) w = Loaded tt (at_pos P (x :: C)) w.
Proof.
  unfold seekBackRead, at_pos. cbn [failed getPos contents]. rewrite length_app. cbn [length].
  destruct (Nat.leb_spec 1 (length P + 1)); [|lia]. rewrite <- app_assoc. cbn [app].
  by replace (length P + 1 - 1)%nat with (length P) by lia.
Qed.

Lemma read_at P x C w : read 1 (at_pos P (x :: C)) w = Loaded [x] (at_pos (P ++ [x]) C) w.
Proof. by apply (reads_read [x] 1). Qed.

Lemma metadata_at aux : aux_code aux -> forall fuel P x C w,
  (length aux < fuel)%nat -> x <> RDB_OPCODE_AUX ->
  parseMetadata_loop fuel (at_pos P (aux ++ x :: C)) w = Loaded tt (at_pos (P ++ aux) (x :: C)) w.
Proof.
  induction 1 as [|k v ck cv rest Hk Hv _ IH]; intros fuel P x C w Hf Hx; (destruct fuel as [|fuel]; [lia|]);
    cbn [parseMetadata_loop app].
  - unfold mbind, L_bind. rewrite read_at. destruct (Z.eqb_spec x RDB_OPCODE_AUX); [done|].
    by rewrite seek_back, app_nil_r.
  - unfold mbind, L_bind. rewrite read_at, Z.eqb_refl. rewrite <- !app_assoc.
    rewrite (reads_parseString k ck Hk), (reads_parseString v cv Hv), IH; [|cbn in Hf; rewrite !length_app in Hf; lia|done].
    by rewrite <- !app_assoc.
Qed.

Section Keys.
Context (env : Env).

Definition store_entry (e : list Z * list Z * option Z) : M unit :=
  let '(k, v, t) := e in store_key env k v t.

(** After the bytes [X] the loader has made the calls for [es] and answers [a];
    when one of them has no defined result, neither has the loader. *)
Definition loads {A} (m : L A) (X : list Z) (C : list Z) (es : list (list Z * list Z * option Z)) (a : A) : Prop :=
  forall P w, m (at_pos P (X ++ C)) w =
    match for_each store_entry es w with
    | Done (_, w') => Loaded a (at_pos (P ++ X) C) w'
    | Stuck => Undefined
    end.

Lemma for_each_app {A} (f : A -> M unit) l1 l2 w :
  for_each f (l1 ++ l2) w =
  match for_each f l1 w with Done (_, w') => for_each f l2 w' | Stuck => Stuck end.
Proof.
  revert w. induction l1 as [|x l1 IH]; intros w; [done|]. cbn [app for_each]. unfold mbind, M_bind.
  destruct (f x w) as [[[] w1]|]; [apply IH|done].
Qed.

(** The key and the value of an entry, the call, and the rest of the loop. *)
Lemma key_value_at k v ck cv x fuel P C cs es w :
  str_code k ck -> str_code v cv -> loads (parseKeys_loop env fuel) cs C es true ->
  (key ← parseString; value ← parseString; on_db (store_key env key value x);; parseKeys_loop env fuel)
    (at_pos P (ck ++ cv ++ cs ++ C)) w =
  match for_each store_entry ((k, v, x) :: es) w with
  | Done (_, w') => Loaded true (at_pos (P ++ ck ++ cv ++ cs) C) w'
  | Stuck => Undefined
  end.
Proof.
  intros Hk Hv Hl. unfold mbind, L_bind. rewrite (reads_parseString k ck Hk), (reads_parseString v cv Hv).
  cbn [for_each]. unfold mbind, M_bind, on_db. cbn [store_entry].
  destruct (store_key env k v x w) as [[[] w1]|]; [|done]. rewrite Hl. by rewrite <- !app_assoc.
Qed.

(** An entry with an expiry time, in front of its type byte. *)
Lemma expiring_at op n t k v ck cv fuel P C cs es w :
  (op, n) = (RDB_OPCODE_EXPIRETIME_MS, 8%nat) \/ (op, n) = (RDB_OPCODE_EXPIRETIME, 4%nat) ->
  0 <= t < 256 ^ Z.of_nat n ->
  str_code k ck -> str_code v cv -> loads (parseKeys_loop env fuel) cs C es true ->
  parseKeys_loop env (S fuel) (at_pos P (op :: le_split n t ++ RDB_TYPE_STRING :: ck ++ cv ++ cs ++ C)) w =
  match for_each store_entry ((k, v, Some (if (n =? 8)%nat then t else t * 1000)) :: es) w with
  | Done (_, w') => Loaded true (at_pos (P ++ op :: le_split n t ++ RDB_TYPE_STRING :: ck ++ cv ++ cs) C) w'
  | Stuck => Undefined
  end.
Proof.
  intros Hop Ht Hk Hv Hl. cbn [parseKeys_loop]. unfold mbind at 1, L_bind at 1. rewrite read_at.
  assert (E : (op =? RDB_OPCODE_SELECTDB) || (op =? RDB_OPCODE_EOF) = false /\
              (op =? RDB_OPCODE_EXPIRETIME_MS) || (op =? RDB_OPCODE_EXPIRETIME) = true)
    by (by destruct Hop as [[= -> ->]|[= -> ->]]).
  destruct E as [-> ->]. unfold mbind at 1, L_bind at 1. unfold mbind at 1, L_bind at 1.
  rewrite (reads_expiry op n t Hop Ht). unfold mbind at 1, L_bind at 1. rewrite read_at.
  unfold mret at 1, L_ret at 1. cbn [Z.eqb RDB_TYPE_STRING].
  rewrite (key_value_at k v ck cv _ fuel _ C cs es w Hk Hv Hl). by rewrite <- !app_assoc.
Qed.

(** One entry in front of the others. *)
Lemma key_step e c fuel C es cs :
  key_code e c -> loads (parseKeys_loop env fuel) cs C es true ->
  loads (parseKeys_loop env (S fuel)) (c ++ cs) C (e :: es) true.
Proof.
  intros Hc Hl P w. destruct Hc as [k v ck cv Hk Hv|t k v ck cv Ht Hk Hv|t k v ck cv Ht Hk Hv].
  - cbn [parseKeys_loop app]. unfold mbind at 1, L_bind at 1. rewrite <- !app_assoc, read_at.
    cbn [Z.eqb RDB_TYPE_STRING RDB_OPCODE_SELECTDB RDB_OPCODE_EOF orb RDB_OPCODE_EXPIRETIME_MS RDB_OPCODE_EXPIRETIME].
    unfold mbind at 1, L_bind at 1. unfold mret at 1, L_ret at 1. cbn [Z.eqb RDB_TYPE_STRING].
    rewrite (key_value_at k v ck cv _ fuel _ C cs es w Hk Hv Hl). by rewrite <- !app_assoc.
  - pose proof (expiring_at _ 8 t k v ck cv fuel P C cs es w (or_introl eq_refl) Ht Hk Hv Hl) as E.
    cbn [app] in *. rewrite <- !app_assoc. cbn [app]. rewrite <- !app_assoc. exact E.
  - pose proof (expiring_at _ 4 t k v ck cv fuel P C cs es w (or_intror eq_refl) Ht Hk Hv Hl) as E.
    cbn [app] in *. rewrite <- !app_assoc. cbn [app]. rewrite <- !app_assoc. exact E.
Qed.

Lemma key_code_pos e c : key_code e c -> (0 < length c)%nat.
Proof. destruct 1; cbn; lia. Qed.

(** The keys of a data base up to the next marker. *)
Lemma keys_at es cs : keys_code es cs -> forall fuel x C,
  (length cs < fuel)%nat -> x = RDB_OPCODE_SELECTDB \/ x = RDB_OPCODE_EOF ->
  loads (parseKeys_loop env fuel) cs (x :: C) es true.
Proof.
  induction 1 as [|e es c cs Hc _ IH]; intros fuel x C Hf Hx; (destruct fuel as [|fuel]; [lia|]).
  - intros P w. cbn [parseKeys_loop app for_each]. unfold mbind, L_bind. rewrite read_at.
    assert ((x =? RDB_OPCODE_SELECTDB) || (x =? RDB_OPCODE_EOF) = true) as -> by (by destruct Hx as [-> | ->]).
    rewrite seek_back. by rewrite app_nil_r.
  - apply key_step; [done|]. apply IH; [|done]. pose proof (key_code_pos _ _ Hc).
    rewrite length_app in Hf. lia.
Qed.

Lemma with_fuel_loads {A} (m : nat -> L A) X C es a :
  (forall fuel, (length (X ++ C) < fuel)%nat -> loads (m fuel) X C es a) -> loads (with_fuel m) X C es a.
Proof.
  intros H P w. apply H. unfold at_pos. cbn [contents]. rewrite (length_app P). lia.
Qed.

Lemma reads_length_byte {B} (f : Z * bool -> L B) n c Y b :
  len_code n c -> reads (f (n, false)) Y b -> reads (x ← read_byte; r ← getLength x; f r) (c ++ Y) b.
Proof.
  intros Hc Hf. assert (exists x c', c = x :: c') as (x & c' & ->) by (destruct Hc; eauto).
  eapply (reads_bind _ _ [x] (c' ++ Y) x).
  - unfold read_byte. apply (reads_map _ _ _ [x]); [by apply reads_read|apply reads_ret].
  - eapply reads_bind; [by apply reads_getLength|exact Hf].
Qed.

Lemma reads_select_db n size expires cn csize cexpires :
  len_code n cn -> len_code size csize -> len_code expires cexpires ->
  reads select_db (cn ++ RDB_OPCODE_RESIZEDB :: csize ++ cexpires ++ []) tt.
Proof.
  intros Hn Hs He. unfold select_db. eapply (reads_length_byte _ n); [done|].
  apply reads_byte_bind. rewrite Z.eqb_refl. eapply (reads_length_byte _ size); [done|].
  eapply (reads_length_byte _ expires); [done|]. apply reads_ret.
Qed.

(** A section: its prologue, then its keys. *)
Lemma database_at n size expires cn csize cexpires es cs x C :
  len_code n cn -> len_code size csize -> len_code expires cexpires -> keys_code es cs ->
  x = RDB_OPCODE_SELECTDB \/ x = RDB_OPCODE_EOF ->
  loads (parseDatabase env) (RDB_OPCODE_SELECTDB :: cn ++ RDB_OPCODE_RESIZEDB :: csize ++ cexpires ++ cs)
    (x :: C) es true.
Proof.
  intros Hn Hs He Hk Hx P w. unfold parseDatabase. unfold mbind at 1, L_bind at 1. cbn [app]. rewrite read_at.
  cbn [Z.eqb RDB_OPCODE_SELECTDB RDB_OPCODE_EOF Pos.eqb].
  replace ((cn ++ RDB_OPCODE_RESIZEDB :: csize ++ cexpires ++ cs) ++ x :: C)
    with ((cn ++ RDB_OPCODE_RESIZEDB :: csize ++ cexpires ++ []) ++ cs ++ x :: C)
    by (rewrite app_nil_r, <- !app_assoc; cbn [app]; by rewrite <- !app_assoc).
  unfold mbind at 1, L_bind at 1. rewrite (reads_select_db n size expires cn csize cexpires Hn Hs He).
  rewrite (with_fuel_loads _ cs (x :: C) es true).
  - rewrite app_nil_r, <- !app_assoc. cbn [app]. by rewrite <- !app_assoc.
  - intros fuel Hf. apply keys_at; [done| |done]. rewrite length_app in Hf. lia.
Qed.

Lemma dbs_code_hd es cs C : dbs_code es cs ->
  exists x C', cs ++ RDB_OPCODE_EOF :: C = x :: C' /\ (x = RDB_OPCODE_SELECTDB \/ x = RDB_OPCODE_EOF).
Proof. destruct 1; cbn [app]; eauto. Qed.

(** All sections up to the end marker. *)
Lemma databases_at es cs : dbs_code es cs -> forall fuel P C w,
  (length cs < fuel)%nat ->
  databases_loop env fuel (at_pos P (cs ++ RDB_OPCODE_EOF :: C)) w =
  match for_each store_entry es w with
  | Done (_, w') => Loaded tt (at_pos (P ++ cs ++ [RDB_OPCODE_EOF]) C) w'
  | Stuck => Undefined
  end.
Proof.
  induction 1 as [|n size expires cn csize cexpires es cs es' cs' Hn Hs He Hk Hd IH]; intros fuel P C w Hf;
    (destruct fuel as [|fuel]; [lia|]); cbn [databases_loop].
  - unfold mbind, L_bind, parseDatabase. unfold mbind, L_bind. cbn [app]. rewrite read_at, Z.eqb_refl. done.
  - destruct (dbs_code_hd es' cs' C Hd) as (x & C' & E & Hx).
    set (X := RDB_OPCODE_SELECTDB :: cn ++ RDB_OPCODE_RESIZEDB :: csize ++ cexpires ++ cs).
    replace ((RDB_OPCODE_SELECTDB :: cn ++ RDB_OPCODE_RESIZEDB :: csize ++ cexpires ++ cs ++ cs')
               ++ RDB_OPCODE_EOF :: C) with (X ++ x :: C').
    2:{ unfold X. rewrite <- E. cbn [app]. rewrite <- !app_assoc. cbn [app]. by rewrite <- !app_assoc. }
    unfold mbind at 1, L_bind at 1.
    rewrite (database_at n size expires cn csize cexpires es cs x C' Hn Hs He Hk Hx), for_each_app.
    destruct (for_each store_entry es w) as [[[] w1]|]; [|done]. rewrite <- E, IH.
    + unfold X. rewrite <- !app_assoc. cbn [app]. rewrite <- !app_assoc. cbn [app]. by rewrite <- !app_assoc.
    + cbn in Hf. rewrite !length_app in Hf. cbn in Hf. rewrite !length_app in Hf. lia.
Qed.
End Keys.

(** * Properties *)

(** C20: The snapshot loader terminates.  On every file, well formed or not, the
    sections are read to an end: with an answer, with the exception that
    [Server::run] catches, or where the code has no defined result (a byte used
    that was not read, an expiry that overflows in [setWithExpiry]); the loops
    never run longer than the file is. *)
Theorem Rdb_terminates env file w : parse_file env (open_file file) w <> Exhausted.
Proof. intros E. pose proof (parse_file_within env (open_file file) w) as H. by rewrite E in H. Qed.

(** C7: Loading a snapshot of string keys is replaying it.  Take a file made of the
    magic, a version, any metadata pairs, any data bases and the end marker, where
    each data base gives its number, then the sizes of its two tables, then its
    keys, all of type string, each with no expiry time or with one in seconds or
    milliseconds; where lengths are in the 6-bit, 14-bit or 32-bit form and strings
    are given by their bytes or as integers of one, two or four bytes.  On such a
    file the loader calls [set] or [setWithExpiry] for exactly the keys of the
    file, in order, with their values and expiry times in milliseconds.  (Not
    covered, because the loader misreads them: the 64-bit lengths that the header's
    comment also lists, compressed strings, and a data base whose table sizes are
    left out.) *)
Theorem Rdb_parse_exact env file es w :
  snapshot file es -> parse env file w = for_each (store_entry env) es w.
Proof.
  destruct 1 as [version aux es dbs rest Hv Ha Hd]. unfold parse, parse_file, parseHeader, open_file.
  change (MkRIO ?f 0 false) with (at_pos [] f).
  assert (Hh : reads parseHeader (lit "REDIS" ++ version) true).
  { unfold parseHeader. eapply reads_bind; [by apply reads_read|].
    rewrite Nat.eqb_refl, bool_decide_true by done. cbn [negb].
    eapply reads_map; [apply reads_read; unfold len; by rewrite Hv|]. rewrite Hv. apply reads_ret. }
  unfold mbind at 1, L_bind at 1. rewrite app_assoc. fold parseHeader. rewrite Hh.
  unfold mbind at 1, L_bind at 1. unfold parseMetadata, with_fuel at 1.
  destruct (dbs_code_hd es dbs rest Hd) as (x & C & E & Hx). rewrite E.
  rewrite metadata_at; [|done| |by destruct Hx as [-> | ->]].
  2:{ unfold at_pos. cbn [contents]. rewrite !length_app. lia. }
  unfold with_fuel. rewrite <- E, (databases_at env es dbs Hd);
    [by destruct (for_each _ es w) as [[[] ?]|]|].
  unfold at_pos. cbn [contents]. rewrite !length_app. lia.
Qed.

(** A file with one metadata pair and two keys, one of which expires. *)
Definition sample_keys : list (list Z * list Z * option Z) :=
  [(lit "k", lit "v", None); (lit "n", to_string (-7), Some (3 * 1000))].

Definition sample_file : list Z :=
  lit "REDIS0011" ++ [250; 3] ++ lit "ver" ++ [3] ++ lit "7.2" ++
  [254; 0; 251; 2; 1] ++ [0; 1] ++ lit "k" ++ [1] ++ lit "v" ++
  [253; 3; 0; 0; 0; 0; 1] ++ lit "n" ++ [192; 249] ++ [255; 1; 2; 3].

Lemma sample_snapshot : snapshot sample_file sample_keys.
Proof.
  assert (Hstr : forall s, len s < 64 -> str_code s ([len s] ++ s)).
  { intros s Hs. apply StrBytes, Len6. split; [apply len_nonneg|done]. }
  set (c1 := RDB_TYPE_STRING :: ([len (lit "k")] ++ lit "k") ++ ([len (lit "v")] ++ lit "v")).
  set (c2 := RDB_OPCODE_EXPIRETIME :: le_split 4 3 ++ RDB_TYPE_STRING ::
               ([len (lit "n")] ++ lit "n") ++ (RDB_ENC_INT8 :: le_split 1 (-7 mod 2 ^ 8))).
  refine (Snapshot (lit "0011") (RDB_OPCODE_AUX :: ([len (lit "ver")] ++ lit "ver") ++ ([len (lit "7.2")] ++ lit "7.2") ++ [])
    sample_keys (RDB_OPCODE_SELECTDB :: [0] ++ RDB_OPCODE_RESIZEDB :: [2] ++ [1] ++ (c1 ++ c2 ++ []) ++ [])
    [1; 2; 3] eq_refl _ _).
  - apply (MoreAux (lit "ver") (lit "7.2")); [by apply Hstr..|constructor].
  - rewrite <- (app_nil_r sample_keys). refine (MoreDbs 0 2 1 [0] [2] [1] sample_keys _ [] [] _ _ _ _ NoDbs); try (by constructor).
    apply (MoreKeys _ _ c1); [apply KeyPlain; by apply Hstr|].
    apply (MoreKeys _ _ c2 []); [|constructor]. apply KeySeconds; [done|by apply Hstr|by apply StrInt8].
Defined.

(** The two gaps, on concrete bytes: of a length in the documented 64-bit form
    (here 1) half is read, and without table sizes the type byte of the first key is
    lost, so that the key is not loaded. *)
Example length64_is_misread :
  getLength 129 (open_file [0; 0; 0; 0; 0; 0; 0; 1]) sample_world
  = Loaded (0, false) (MkRIO [0; 0; 0; 0; 0; 0; 0; 1] 4 false) sample_world.
Proof. vm_compute. reflexivity. Qed.

Example missing_sizes_lose_the_key :
  parse sample_env (lit "REDIS0011" ++ [254; 0] ++ [0; 1] ++ lit "k" ++ [1] ++ lit "v" ++ [255]) sample_world
  = Done (tt, sample_world).
Proof. vm_compute. reflexivity. Qed.

Lemma Rdb_parse_exact_witness :
  exists w, parse sample_env sample_file sample_world = Done (tt, w) /\
    for_each (store_entry sample_env) sample_keys sample_world = Done (tt, w) /\
    store (db w) !! lit "n" = Some (StringObject (lit "-7")).
Proof.
  pose proof (Rdb_parse_exact sample_env sample_file sample_keys sample_world sample_snapshot) as H.
  rewrite H. eexists. split; [vm_compute; reflexivity|]. split; [vm_compute; reflexivity|]. vm_compute. reflexivity.
Defined.
