(* ===== verification/Connection.v ===== *)
(** [src/models/server-model.h], [src/server.h], [src/eventloop.h] and
    [src/connection.cpp]: the state of the server, the monad of what runs on it,
    and the connections.  A connection is named by its client, which it owns and
    which nothing else keeps alive between two events.  What the program asks of
    the kernel is written down: the [epoll_ctl] calls are appended to a list of
    the state, the bytes that [write] took are a result; what the kernel answers
    ([read], [write]) is an argument. *)
From S2P Require Import Prelude Utils Command Acl World.

(** * Configuration *)
Inductive ServerRole := MASTER | SLAVE.

#[global] Instance ServerRole_eq_dec : EqDecision ServerRole.
Proof. solve_decision. Defined.

Record ServerConfig := MkConfig {
  role : ServerRole;
  port : Z;
  master_host : list Z;
  master_port : Z;
  replication_id : list Z;
  offset : Z;
  rdb_file_path : list Z;
  rdb_file_name : list Z
}.

Definition newConfig : ServerConfig :=
  MkConfig MASTER 6379 [] 0 (lit "8371b4fb1155b71f4a04d3e1bc3e18c4a990aeeb") 0 [] [].

Definition set_offset (f : Z -> Z) (c : ServerConfig) : ServerConfig :=
  MkConfig (role c) (port c) (master_host c) (master_port c) (replication_id c) (f (offset c))
    (rdb_file_path c) (rdb_file_name c).

(** * The replication manager's state *)
Record BlockedWaitClient := MkBlockedWait {
  bw_client : cid; bw_fd : Z; bw_timeout_at : Z; num_replicas_needed : Z; master_offset : Z
}.

Definition newBlockedWaitClient (now : Z) (c : cid) (fd timeout_ms num_replicas offset : Z)
  : outcome BlockedWaitClient :=
  timeout_at ← (if timeout_ms =? 0 then mret time_point_max
                else time_after now (i64 timeout_ms) 1000000);
  mret (MkBlockedWait c fd timeout_at num_replicas offset).

Record ReplicationManager := MkManager {
  slave_connections : gmap Z cid;
  blocked_wait_clients : list BlockedWaitClient
}.

Definition newManager : ReplicationManager := MkManager ∅ [].

(** * The event loop *)
Definition EPOLLIN : Z := 1.
Definition EPOLLOUT : Z := 4.
Definition EPOLLET : Z := 2 ^ 31.
Definition READ_EVENT : Z := Z.lor EPOLLIN EPOLLET.
Definition WRITE_EVENT : Z := Z.lor EPOLLOUT EPOLLET.

(** [register_event_handler], [update_event_handler], [remove_event_handler]:
    the calls of [epoll_ctl], whose failures are only logged. *)
Inductive EpollCall :=
| Register (fd event : Z)
| Update (fd event : Z)
| Remove (fd : Z).

(** * The server *)

(** [next_ref] names the next client to be made. *)
Record Server := MkServer {
  world : World;
  manager : ReplicationManager;
  config : ServerConfig;
  active_connections : gmap Z cid;
  epoll_calls : list EpollCall;
  next_ref : cid
}.

Definition with_world f (s : Server) : Server :=
  MkServer (f (world s)) (manager s) (config s) (active_connections s) (epoll_calls s) (next_ref s).
Definition with_manager f (s : Server) : Server :=
  MkServer (world s) (f (manager s)) (config s) (active_connections s) (epoll_calls s) (next_ref s).
Definition with_config f (s : Server) : Server :=
  MkServer (world s) (manager s) (f (config s)) (active_connections s) (epoll_calls s) (next_ref s).
Definition with_connections f (s : Server) : Server :=
  MkServer (world s) (manager s) (config s) (f (active_connections s)) (epoll_calls s) (next_ref s).
Definition with_epoll f (s : Server) : Server :=
  MkServer (world s) (manager s) (config s) (active_connections s) (f (epoll_calls s)) (next_ref s).
Definition with_next_ref f (s : Server) : Server :=
  MkServer (world s) (manager s) (config s) (active_connections s) (epoll_calls s) (f (next_ref s)).

Definition SM (A : Type) : Type := Server -> outcome (A * Server).

#[global] Instance SM_ret : MRet SM := fun A a s => Done (a, s).
#[global] Instance SM_bind : MBind SM :=
  fun A B f m s => match m s with Done (a, s) => f a s | Stuck => Stuck end.

Definition gets {A} (f : Server -> A) : SM A := fun s => Done (f s, s).
Definition update (f : Server -> Server) : SM unit := fun s => Done (tt, f s).
Definition lift_s {A} (m : outcome A) : SM A := fun s => a ← m; mret (a, s).

(** A handler of the data base, on the world. *)
Definition on_world {A} (m : M A) : SM A := fun s =>
  match m (world s) with Done (a, w) => Done (a, with_world (fun _ => w) s) | Stuck => Stuck end.

Fixpoint for_each_s {A} (f : A -> SM unit) (l : list A) : SM unit :=
  match l with
  | [] => mret tt
  | x :: l => f x;; for_each_s f l
  end.

Definition epoll (call : EpollCall) : SM unit := update (with_epoll (fun l => l ++ [call])).

(** * Connections *)

(** [getClient] on the connection of [conn]: nothing when the connection has been
    destroyed, so that the pointer to it dangles; otherwise never null. *)
Definition getClient (conn : cid) : SM (option Client) := fun s =>
  match clients (world s) !! conn with Some x => Done (Some x, s) | None => Stuck end.

(** The member [client] of a connection. *)
Definition owner (conn : cid) : SM Client := fun s =>
  match clients (world s) !! conn with Some x => Done (x, s) | None => Stuck end.

Definition flush (conn : cid) : SM unit :=
  client ← owner conn;
  if bool_decide (write_buffer client = []) then mret tt
  else epoll (Update (fd client) (Z.lor READ_EVENT WRITE_EVENT)).

Definition send (conn : cid) (data : list Z) : SM unit :=
  if bool_decide (data = []) then mret tt
  else
    client ← owner conn;
    let was_empty := bool_decide (write_buffer client = []) in
    on_world (write_to conn (fun b => b ++ data));;
    if was_empty then epoll (Update (fd client) (Z.lor READ_EVENT WRITE_EVENT)) else mret tt.

Definition handleClose (conn : cid) : SM unit := client ← owner conn; epoll (Remove (fd client)).
Definition handleError (conn : cid) : SM unit := client ← owner conn; epoll (Remove (fd client)).

(** How a series of [read] calls ends: nothing more for now, an error, the end
    of the input. *)
Inductive ReadEnd := WouldBlock | Failed | Closed.

Definition with_read_buffer (f : list Z -> list Z) (c : Client) : Client :=
  MkClient (f (read_buffer c)) (write_buffer c) (flags c) (queued_commands c) (fd c) (isslave c)
    (replica_offset c) (total_subscribed_channels c) (user c) (is_authenticated c).

(** [handleRead]: the results of the reads up to the last one, and the last one. *)
Fixpoint handleRead (cb : cid -> SM unit) (conn : cid) (chunks : list (list Z)) (last : ReadEnd) : SM unit :=
  match chunks with
  | temp :: chunks =>
      on_world (update_client conn (with_read_buffer (fun b => b ++ temp)));;
      handleRead cb conn chunks last
  | [] =>
      match last with
      | WouldBlock => cb conn
      | Failed => handleError conn
      | Closed => handleClose conn
      end
  end.

(** What [write] answers: the number of bytes it took, [EAGAIN], another error. *)
Inductive WriteResult := Wrote (n : nat) | WriteBlocks | WriteFails.

Inductive WriteEnd := AllWritten | Blocked | WriteError.

(** The loop of [handleWrite]: [written_total] at its end and how it ended.  The
    results are those of the calls in order; [Stuck] when there are too few. *)
Fixpoint write_loop (size written_total : nat) (results : list WriteResult) : outcome (nat * WriteEnd) :=
  if (written_total <? size)%nat then
    match results with
    | Wrote n :: results => write_loop size (written_total + n) results
    | WriteBlocks :: _ => mret (written_total, Blocked)
    | WriteFails :: _ => mret (written_total, WriteError)
    | [] => Stuck
    end
  else mret (written_total, AllWritten).

(** [handleWrite]: the bytes that went out. *)
Definition handleWrite (conn : cid) (results : list WriteResult) : SM (list Z) :=
  client ← owner conn;
  (if bool_decide (write_buffer client = []) then epoll (Update (fd client) READ_EVENT) else mret tt);;
  let data := write_buffer client in
  r ← lift_s (write_loop (length data) 0 results);
  let '(written_total, e) := r in
  match e with
  | Blocked => on_world (write_to conn (fun b => drop written_total b))
  | WriteError => handleError conn
  | AllWritten =>
      on_world (write_to conn (fun _ => []));;
      epoll (Update (fd client) READ_EVENT)
  end;;
  mret (take written_total data).

(** * Lemmas *)
Lemma bind_Done_S {A B} (m : SM A) (f : A -> SM B) s a s' :
  m s = Done (a, s') -> (m ≫= f) s = f a s'.
Proof. intros H. unfold mbind, SM_bind. by rewrite H. Qed.

Lemma bind_Stuck_S {A B} (m : SM A) (f : A -> SM B) s : m s = Stuck -> (m ≫= f) s = Stuck.
Proof. intros H. unfold mbind, SM_bind. by rewrite H. Qed.

Lemma lift_eq {A} (m : outcome A) s a : m = Done a -> lift_s m s = Done (a, s).
Proof. by intros ->. Qed.

Lemma on_world_eq {A} (m : M A) s a w : m (world s) = Done (a, w) -> on_world m s = Done (a, with_world (fun _ => w) s).
Proof. intros H. unfold on_world. by rewrite H. Qed.

Lemma getClient_eq c s x : clients (world s) !! c = Some x -> getClient c s = Done (Some x, s).
Proof. intros H. unfold getClient. by rewrite H. Qed.

Lemma owner_eq c s x : clients (world s) !! c = Some x -> owner c s = Done (x, s).
Proof. intros H. unfold owner. by rewrite H. Qed.

(** The request [flush] makes for a client. *)
Definition wakeup (w : World) (c : cid) : list EpollCall :=
  match clients w !! c with
  | Some x => if bool_decide (write_buffer x = []) then [] else [Update (fd x) (Z.lor READ_EVENT WRITE_EVENT)]
  | None => []
  end.

Lemma flush_eq c s : is_Some (clients (world s) !! c) ->
  flush c s = Done (tt, with_epoll (fun l => l ++ wakeup (world s) c) s).
Proof.
  intros [x Hx]. unfold flush, wakeup. rewrite (bind_Done_S _ _ _ _ _ (owner_eq _ _ _ Hx)), Hx.
  destruct (bool_decide _); [|done]. destruct s. unfold with_epoll. cbn. by rewrite app_nil_r.
Qed.

Lemma write_loop_done size results : forall written,
  (written <= size)%nat ->
  forall n e, write_loop size written results = Done (n, e) ->
  (written <= n)%nat /\ (e = AllWritten -> size <= n)%nat /\ (e <> AllWritten -> (n < size)%nat).
Proof.
  induction results as [|r results IH]; intros written Hw n e; cbn [write_loop];
    destruct (Nat.ltb_spec written size); try (intros [= <- <-]; split_and!; intros; [lia..|done]); try done.
  - destruct r; [|intros [= <- <-]; split_and!; intros; done || lia..].
    intros E. destruct (decide (written + n0 <= size)%nat) as [Hle|Hgt].
    + destruct (IH _ Hle _ _ E) as (? & ? & ?). split_and!; auto; lia.
    + destruct results; cbn [write_loop] in E; destruct (Nat.ltb_spec (written + n0) size); try lia;
        injection E as <- <-; split_and!; intros; [lia..|done|lia|lia|done].
Qed.

Lemma write_loop_all results : forall size written,
  Forall (fun r => exists n, r = Wrote (S n)) results -> (size <= written + length results)%nat ->
  exists n, write_loop size written results = Done (n, AllWritten).
Proof.
  induction results as [|r results IH]; intros size written Hr Hl; cbn [write_loop length] in *;
    destruct (Nat.ltb_spec written size); try (by eexists); [lia|].
  apply Forall_cons in Hr as [[n ->] Hr]. apply IH; [done|lia].
Qed.

Lemma on_write_eq c f s x : clients (world s) !! c = Some x ->
  on_world (write_to c f) s = Done (tt, with_world (with_clients (alter (with_write_buffer f) c)) s).
Proof.
  intros H. unfold on_world, write_to. by rewrite (update_client_eq _ _ _ _ H).
Qed.

Lemma sent_alter c f w : sent (with_clients (alter (with_write_buffer f) c) w) c = f <$> sent w c.
Proof. unfold sent. cbn [with_clients clients]. rewrite lookup_alter_eq. by destruct (clients w !! c). Qed.

(** The reads of one event, one after the other, put together. *)
Lemma handleRead_eq cb conn last chunks : forall s x,
  clients (world s) !! conn = Some x ->
  handleRead cb conn chunks last s =
  handleRead cb conn [] last
    (with_world (with_clients (<[conn := with_read_buffer (fun b => b ++ concat chunks) x]>)) s).
Proof.
  induction chunks as [|chunk chunks IH]; intros s x Hx.
  - f_equal. destruct s as [[d cl a k] m c ac e n]. unfold with_world, with_clients. cbn in *. f_equal. f_equal.
    rewrite insert_id; [done|]. rewrite Hx. destruct x. unfold with_read_buffer. cbn. by rewrite app_nil_r.
  - cbn [handleRead]. unfold mbind, SM_bind, on_world at 1.
    rewrite (update_client_eq _ _ _ _ Hx). rewrite (IH _ (with_read_buffer (fun b => b ++ chunk) x)).
    2:{ cbn [with_world world with_clients clients]. by rewrite lookup_alter_eq, Hx. }
    f_equal. destruct s as [[d cl a k] m c ac e n]. unfold with_world, with_clients. cbn in *. f_equal. f_equal.
    apply map_eq. intros i. destruct (decide (i = conn)) as [->|Hne].
    + rewrite !lookup_insert_eq. destruct x. unfold with_read_buffer. cbn. by rewrite app_assoc.
    + by rewrite !lookup_insert_ne, lookup_alter_ne.
Qed.

(** * Properties *)


(** The state a completed run ends in. *)
Definition after {A} (m : SM A) (s : Server) : Server := match m s with Done (_, s') => s' | Stuck => s end.

Definition w_conn : Server :=
  MkServer (MkWorld newDB {[ 1%nat := with_write_buffer (fun _ => lit "+PONG") (newClient 9) ]} newACLManager
              (newContext 1%nat 9 None)) newManager newConfig {[ 9 := 1%nat ]} [] 2%nat.


(** A kernel that takes at least one byte at every call gets all of it. *)
Theorem handleWrite_completes conn results s x :
  clients (world s) !! conn = Some x ->
  Forall (fun r => exists n, r = Wrote (S n)) results -> (length (write_buffer x) <= length results)%nat ->
  exists s', handleWrite conn results s = Done (write_buffer x, s') /\ sent (world s') conn = Some [].
Proof.
  intros Hx Hr Hl. destruct (write_loop_all results (length (write_buffer x)) 0 Hr ltac:(lia)) as [n Ew].
  destruct (write_loop_done _ _ 0 ltac:(lia) _ _ Ew) as (_ & H & _). specialize (H eq_refl).
  unfold handleWrite. rewrite (bind_Done_S _ _ _ _ _ (owner_eq _ _ _ Hx)).
  set (s1 := if bool_decide (write_buffer x = []) then with_epoll (fun l => l ++ [Update (fd x) READ_EVENT]) s else s).
  rewrite (bind_Done_S _ _ s tt s1); [|by subst s1; destruct (bool_decide _)].
  assert (Hx1 : clients (world s1) !! conn = Some x) by (by subst s1; destruct (bool_decide _)).
  cbv zeta. rewrite (bind_Done_S _ _ _ _ _ (lift_eq _ s1 _ Ew)).
  unfold mbind, SM_bind. rewrite (on_write_eq _ _ _ _ Hx1). eexists. split.
  - cbn. by rewrite take_ge by lia.
  - change (world _) with (with_clients (alter (with_write_buffer (fun _ => [])) conn) (world s1)).
    rewrite sent_alter. unfold sent. by rewrite Hx1.
Qed.

Lemma handleWrite_completes_witness :
  exists s', handleWrite 1%nat [Wrote 1; Wrote 2; Wrote 1; Wrote 1; Wrote 1] w_conn = Done (lit "+PONG", s') /\
    sent (world s') 1%nat = Some [].
Proof.
  apply (handleWrite_completes 1%nat [Wrote 1; Wrote 2; Wrote 1; Wrote 1; Wrote 1] w_conn _ eq_refl).
  - repeat constructor; eexists; reflexivity.
  - vm_compute. repeat constructor.
Defined.
