(* ===== verification/Replication.v ===== *)
(** [src/replication.cpp]: the master's side of replication.  Replicas are kept
    by file descriptor as pointers to their connections; WAIT clients by weak
    reference.  The theorems: what a write command sends to whom, when WAIT is
    answered and what, and that no waiting client is forgotten. *)
From S2P Require Import Prelude Utils Command Acl World Db Connection.

(** * Replicas *)

Definition addSlaveConnection (fd : Z) (conn : cid) : SM unit :=
  update (with_manager (fun m => MkManager (<[fd := conn]> (slave_connections m)) (blocked_wait_clients m))).

Definition removeSlaveConnection (fd : Z) : SM unit :=
  update (with_manager (fun m => MkManager (delete fd (slave_connections m)) (blocked_wait_clients m))).

Definition set_blocked_wait (l : list BlockedWaitClient) : SM unit :=
  update (with_manager (fun m => MkManager (slave_connections m) l)).

(** The connections of the replicas, in the order of the hash map. *)
Definition slaves (s : Server) : list cid := map snd (map_to_list (slave_connections (manager s))).

(** The loop over the replicas that counts those at [off] or beyond. *)
Fixpoint count_acked (off : Z) (l : list cid) (acked_replicas : Z) : SM Z :=
  match l with
  | [] => mret acked_replicas
  | conn :: l =>
      slave ← getClient conn;
      match slave with
      | Some slave =>
          count_acked off l (if off <=? replica_offset slave then acked_replicas + 1 else acked_replicas)
      | None => count_acked off l acked_replicas
      end
  end.

Definition acked_replicas (off : Z) : SM Z := l ← gets slaves; count_acked off l 0.

Definition with_replica_offset (o : Z) (c : Client) : Client :=
  MkClient (read_buffer c) (write_buffer c) (flags c) (queued_commands c) (fd c) (isslave c) o
    (total_subscribed_channels c) (user c) (is_authenticated c).
Definition with_isslave (b : bool) (c : Client) : Client :=
  MkClient (read_buffer c) (write_buffer c) (flags c) (queued_commands c) (fd c) b
    (replica_offset c) (total_subscribed_channels c) (user c) (is_authenticated c).

Section Handlers.
Context (env : Env) (read_file : list Z -> option (list Z)).

(** ** INFO, REPLCONF, PSYNC *)

Definition handle_info : SM unit :=
  config ← gets config;
  let role_info :=
    if bool_decide (role config = MASTER) then
      lit "role:master" ++ CRLF ++ lit "master_replid:" ++ replication_id config ++ CRLF
        ++ lit "master_repl_offset:" ++ to_string (offset config) ++ CRLF
    else lit "role:slave" ++ CRLF in
  on_world (reply (fun b => encode_bulk_string b role_info)).

(** The waiting clients after the counts have changed; who is answered leaves. *)
Fixpoint check_loop (l : list BlockedWaitClient) : SM (list BlockedWaitClient) :=
  match l with
  | [] => mret []
  | it :: l =>
      blocked_client ← on_world (lock (bw_client it));
      match blocked_client with
      | None => check_loop l
      | Some _ =>
          acked ← acked_replicas (master_offset it);
          if num_replicas_needed it <=? acked then
            on_world (write_to (bw_client it) (fun b => encode_integer b acked));;
            on_world (modify_ctx (set_unblocked (bw_fd it)));;
            check_loop l
          else
            l ← check_loop l;
            mret (it :: l)
      end
  end.

Definition check_blocked_wait_clients : SM unit :=
  l ← gets (fun s => blocked_wait_clients (manager s));
  l ← check_loop l;
  set_blocked_wait l.

Definition as_replconf (c : Command) :=
  match args c with ReplConfCommand sub _ _ ack => Some (sub, ack) | _ => None end.

Definition handle_replconf : SM unit :=
  r ← on_world (cast_command as_replconf);
  let '(subcommand, ack_offset) := r in
  if bool_decide (subcommand = ACK) then
    on_world (update_self (with_replica_offset ack_offset));;
    check_blocked_wait_clients
  else on_world (reply (fun b => encode_simple_string b (lit "OK"))).

Definition empty_rdb : list Z :=
  [82; 69; 68; 73; 83; 48; 48; 49; 49; 255; 0; 0; 0; 0; 0; 0; 0; 0].

Definition read_rdb_file (filepath : list Z) : list Z := default empty_rdb (read_file filepath).

Definition handle_psync : SM unit :=
  config ← gets config;
  on_world (reply (fun b =>
    encode_simple_string b (lit "FULLRESYNC " ++ replication_id config ++ lit " 0")));;
  let rdb_content := read_rdb_file (rdb_file_path config) in
  on_world (reply (fun b => b ++ lit "$" ++ to_string (len rdb_content) ++ CRLF ++ rdb_content));;
  c ← on_world self;
  if isslave c then mret tt
  else
    on_world (update_self (with_isslave true));;
    ctx ← gets (fun s => ctx (world s));
    addSlaveConnection (client_fd ctx) (client ctx).

(** ** WAIT *)

Definition as_wait (c : Command) :=
  match args c with WaitCommand num_replica timeout => Some (num_replica, timeout) | _ => None end.

Definition getack_cmd : list Z :=
  lit "*3" ++ CRLF ++ bulk (lit "REPLCONF") ++ bulk (lit "GETACK") ++ bulk (lit "*").

(** A replica is sent something and registered for writing. *)
Definition send_to_slave (text : list Z) (conn : cid) : SM unit :=
  slave ← getClient conn;
  match slave with
  | Some _ => on_world (write_to conn (fun b => b ++ text));; flush conn
  | None => mret tt
  end.

Definition handle_wait : SM unit :=
  r ← on_world (cast_command as_wait);
  let '(num_replicas_needed, timeout_ms) := r in
  config ← gets config;
  if offset config =? 0 then
    n ← gets (fun s => len (slaves s));
    on_world (reply (fun b => encode_integer b n))
  else
    already_acked ← acked_replicas (i64 (offset config));
    if num_replicas_needed <=? already_acked then
      on_world (reply (fun b => encode_integer b already_acked))
    else
      l ← gets slaves;
      for_each_s (send_to_slave getack_cmd) l;;
      on_world (modify_ctx set_isBlocked);;
      ctx ← gets (fun s => ctx (world s));
      b ← lift_s (newBlockedWaitClient (steady_now env) (client ctx) (client_fd ctx)
                    timeout_ms num_replicas_needed (i64 (offset config)));
      l ← gets (fun s => blocked_wait_clients (manager s));
      set_blocked_wait (l ++ [b]).

(** [ReplicationManager::handle]: whether the command was one of the four. *)
Definition handle : SM bool :=
  cmd ← gets (fun s => command (ctx (world s)));
  match type <$> cmd with
  | Some INFO => handle_info;; mret true
  | Some REPLCONF => handle_replconf;; mret true
  | Some PSYNC => handle_psync;; mret true
  | Some WAIT => handle_wait;; mret true
  | _ => mret false
  end.

(** ** The clock *)

(** The waiting clients whose time is up, each answered the current count. *)
Fixpoint expire_loop (l : list BlockedWaitClient) : SM (list Z * list BlockedWaitClient) :=
  match l with
  | [] => mret ([], [])
  | it :: l =>
      if is_expired (steady_now env) (bw_timeout_at it) then
        blocked_client ← on_world (lock (bw_client it));
        match blocked_client with
        | Some _ =>
            acked ← acked_replicas (master_offset it);
            on_world (write_to (bw_client it) (fun b => encode_integer b acked));;
            r ← expire_loop l;
            mret (bw_fd it :: r.1, r.2)
        | None => expire_loop l
        end
      else
        r ← expire_loop l;
        mret (r.1, it :: r.2)
  end.

Definition check_and_expire_blocked_wait_clients : SM (list Z) :=
  l ← gets (fun s => blocked_wait_clients (manager s));
  r ← expire_loop l;
  set_blocked_wait r.2;;
  mret r.1.

(** The loop over the waiting clients; [min_timeout] is an [int]. *)
Fixpoint next_timeout_loop (l : list BlockedWaitClient) (min_timeout : Z) : outcome Z :=
  match l with
  | [] => mret min_timeout
  | blocked :: l =>
      if bw_timeout_at blocked =? time_point_max then next_timeout_loop l min_timeout
      else
        d ← checked (bw_timeout_at blocked - steady_now env);
        let remaining := Z.quot d 1000000 in
        if remaining <=? 0 then mret 0
        else
          next_timeout_loop l
            (if (min_timeout =? -1) || (remaining <? min_timeout) then i32 remaining else min_timeout)
  end.

Definition get_next_wait_timeout_ms (m : ReplicationManager) : outcome Z :=
  next_timeout_loop (blocked_wait_clients m) (-1).

(** ** Propagation *)

(** The loop over the replicas; the descriptors of those that are inactive. *)
Fixpoint propagate_loop (raw_resp_command : list Z) (l : list (Z * cid)) : SM (list Z) :=
  match l with
  | [] => mret []
  | (fd, conn) :: l =>
      p ← getClient conn;
      match p with
      | None => r ← propagate_loop raw_resp_command l; mret (fd :: r)
      | Some _ =>
          on_world (write_to conn (fun b => b ++ raw_resp_command));;
          propagate_loop raw_resp_command l
      end
  end.

Definition handle_propagate : SM bool :=
  l ← gets (fun s => map_to_list (slave_connections (manager s)));
  cmd ← gets (fun s => command (ctx (world s)));
  match l, cmd with
  | _ :: _, Some cmd =>
      if is_write_command cmd then
        let raw_resp_command := to_resp (double_to_string env) cmd in
        update (with_config (set_offset (fun o => u64 (o + bytes_processed cmd))));;
        inactive_fds ← propagate_loop raw_resp_command l;
        for_each_s removeSlaveConnection inactive_fds;;
        mret true
      else mret false
  | _, _ => mret false
  end.

(** A replica with something to be sent is registered for writing. *)
Definition notify (conn : cid) : SM unit :=
  p ← getClient conn;
  match p with
  | Some x => if bool_decide (write_buffer x = []) then mret tt else flush conn
  | None => mret tt
  end.

Definition propagateAndNotifySlaves : SM unit :=
  handle_propagate;;
  l ← gets slaves;
  for_each_s notify l.
End Handlers.

(** * Lemmas: what the loops do *)

(** No pointer to a replica's connection dangles. *)
Definition connected (s : Server) : Prop :=
  forall f c, slave_connections (manager s) !! f = Some c -> is_Some (clients (world s) !! c).

(** No connection is in the table twice. *)
Definition one_entry (s : Server) : Prop :=
  forall f g c, slave_connections (manager s) !! f = Some c -> slave_connections (manager s) !! g = Some c -> f = g.

Lemma connected_slaves s : connected s -> Forall (fun c => is_Some (clients (world s) !! c)) (slaves s).
Proof.
  intros H. apply Forall_forall. intros c ([f c'] & -> & Hi)%list_elem_of_fmap.
  apply elem_of_map_to_list in Hi. eauto.
Qed.

(** A replica has confirmed everything up to [off]; how many have. *)
Definition has_acked (w : World) (off : Z) (c : cid) : bool :=
  match clients w !! c with Some x => off <=? replica_offset x | None => false end.

Definition acked (s : Server) (off : Z) : Z := len (List.filter (has_acked (world s) off) (slaves s)).

Lemma count_acked_eq off s l : Forall (fun c => is_Some (clients (world s) !! c)) l ->
  forall n, count_acked off l n s = Done (n + len (List.filter (has_acked (world s) off) l), s).
Proof.
  induction 1 as [|c l [x Hx] _ IH]; intros n; cbn [count_acked List.filter].
  - by rewrite len_nil, Z.add_0_r.
  - rewrite (bind_Done_S _ _ _ _ _ (getClient_eq _ _ _ Hx)), IH. unfold has_acked at 2. rewrite Hx.
    destruct (off <=? replica_offset x); rewrite ?len_cons; do 2 f_equal; lia.
Qed.

Lemma acked_eq off s : connected s -> acked_replicas off s = Done (acked s off, s).
Proof.
  intros H. unfold acked_replicas. rewrite (bind_Done_S _ _ s (slaves s) s) by done.
  by rewrite count_acked_eq by (by apply connected_slaves).
Qed.

(** The bytes a client has in its buffer after every element of [l] that is
    about it has appended its own. *)
Definition told {A} (who : A -> cid) (what : A -> list Z -> list Z) (l : list A) (c : cid) (b : list Z)
  : list Z := fold_left (fun b x => if decide (who x = c) then what x b else b) l b.

Lemma told_ext {A} (who : A -> cid) what what' (l : list A) c b :
  (forall x b, what x b = what' x b) -> told who what l c b = told who what' l c b.
Proof.
  intros H. revert b. induction l as [|x l IH]; intros b; [done|]. unfold told in *. cbn [fold_left].
  rewrite IH. f_equal. by destruct (decide _); rewrite ?H.
Qed.

Lemma told_cons {A} (who : A -> cid) what x (l : list A) c (o : option (list Z)) :
  told who what (x :: l) c <$> o =
  told who what l c <$> (if decide (who x = c) then what x <$> o else o).
Proof. unfold told. cbn [fold_left]. destruct (decide _), o; done. Qed.

Lemma told_nil {A} (who : A -> cid) what c (o : option (list Z)) : told who what [] c <$> o = o.
Proof. by destruct o. Qed.

Lemma told_fmap_ext {A} (who : A -> cid) what what' (l : list A) c (o : option (list Z)) :
  (forall x b, what x b = what' x b) -> told who what l c <$> o = told who what' l c <$> o.
Proof. intros H. destruct o; [|done]. cbn. f_equal. by apply told_ext. Qed.

(** From [s] to [s'] only buffers, requests to the event loop and the context's
    notes changed. *)
Record quiet (s s' : Server) : Prop := {
  q_db : db (world s') = db (world s);
  q_acl : acl (world s') = acl (world s);
  q_self : client (ctx (world s')) = client (ctx (world s));
  q_fd : client_fd (ctx (world s')) = client_fd (ctx (world s));
  q_command : command (ctx (world s')) = command (ctx (world s));
  q_manager : manager s' = manager s;
  q_config : config s' = config s;
  q_connections : active_connections s' = active_connections s;
  q_next_ref : next_ref s' = next_ref s;
  q_clients c : with_write_buffer (fun _ => []) <$> clients (world s') !! c =
                with_write_buffer (fun _ => []) <$> clients (world s) !! c
}.

Lemma quiet_refl s : quiet s s.
Proof. by split. Qed.

Lemma quiet_offset s s' c : quiet s s' ->
  replica_offset <$> clients (world s') !! c = replica_offset <$> clients (world s) !! c.
Proof.
  intros Q. pose proof (q_clients _ _ Q c) as E.
  destruct (clients (world s') !! c), (clients (world s) !! c); try done. cbn in E |- *. f_equal. by injection E.
Qed.

Lemma quiet_trans s1 s2 s3 : quiet s1 s2 -> quiet s2 s3 -> quiet s1 s3.
Proof. intros [] []. split; intros; etrans; eauto. Qed.

Lemma quiet_alive s s' c : quiet s s' ->
  is_Some (clients (world s') !! c) <-> is_Some (clients (world s) !! c).
Proof.
  intros H. pose proof (q_clients _ _ H c) as E.
  destruct (clients (world s') !! c), (clients (world s) !! c); try done; split; intros; eauto.
Qed.

Lemma quiet_client s s' c x : quiet s s' -> clients (world s) !! c = Some x ->
  exists b, clients (world s') !! c = Some (with_write_buffer (fun _ => b) x).
Proof.
  intros H Hx. pose proof (q_clients _ _ H c) as E. rewrite Hx in E.
  destruct (clients (world s') !! c) as [y|]; [|done]. exists (write_buffer y). f_equal.
  destruct x, y. cbn in E. injection E as -> -> -> -> -> -> -> -> ->. done.
Qed.

Lemma quiet_connected s s' : quiet s s' -> connected s -> connected s'.
Proof.
  intros H C f c Hf. rewrite (q_manager _ _ H) in Hf. apply (quiet_alive _ _ _ H). eauto.
Qed.

Lemma quiet_acked s s' off : quiet s s' -> acked s' off = acked s off.
Proof.
  intros H. unfold acked, slaves. rewrite (q_manager _ _ H).
  rewrite (List.filter_ext (has_acked (world s') off) (has_acked (world s) off)); [done|].
  intros c. unfold has_acked. pose proof (q_clients _ _ H c) as E.
  destruct (clients (world s') !! c) as [y|], (clients (world s) !! c) as [x|]; try done.
  destruct x, y. cbn in E. injection E as -> -> -> -> -> -> -> -> ->. done.
Qed.

Lemma write_quiet c f s :
  is_Some (clients (world s) !! c) ->
  exists s', on_world (write_to c f) s = Done (tt, s') /\ quiet s s' /\ epoll_calls s' = epoll_calls s /\
    forall c', sent (world s') c' = if decide (c = c') then f <$> sent (world s) c' else sent (world s) c'.
Proof.
  intros [x Hx]. rewrite (on_write_eq _ _ _ _ Hx).
  eexists. split; [done|]. split_and!; [|done|].
  - split; try done. intros c'. cbn [with_world world with_clients clients].
    destruct (decide (c = c')) as [<-|Hne]; [by rewrite lookup_alter_eq, Hx|by rewrite lookup_alter_ne].
  - intros c'. unfold sent. cbn [with_world world with_clients clients].
    destruct (decide (c = c')) as [<-|Hne]; [by rewrite lookup_alter_eq, Hx|by rewrite lookup_alter_ne].
Qed.

Lemma lock_eq c s : on_world (lock c) s = Done (clients (world s) !! c, s).
Proof. by destruct s. Qed.

(** ** Flushing *)
Lemma epoll_quiet e s : quiet s (with_epoll e s).
Proof. by split. Qed.

Lemma notify_eq c s : is_Some (clients (world s) !! c) ->
  notify c s = Done (tt, with_epoll (fun l => l ++ wakeup (world s) c) s).
Proof.
  intros H. destruct H as [x Hx]. unfold notify. rewrite (bind_Done_S _ _ _ _ _ (getClient_eq _ _ _ Hx)).
  destruct (bool_decide _) eqn:Eb; [|by rewrite flush_eq].
  unfold wakeup. rewrite Hx, Eb. destruct s. unfold with_epoll. cbn. by rewrite app_nil_r.
Qed.

Lemma notify_all_eq l : forall s, Forall (fun c => is_Some (clients (world s) !! c)) l ->
  for_each_s notify l s = Done (tt, with_epoll (fun k => k ++ concat (map (wakeup (world s)) l)) s).
Proof.
  induction l as [|c l IH]; intros s Hl; cbn [for_each_s map concat].
  - destruct s. unfold with_epoll. cbn. by rewrite app_nil_r.
  - apply Forall_cons in Hl as [Hc Hl]. rewrite (bind_Done_S _ _ _ _ _ (notify_eq _ _ Hc)), IH by done.
    destruct s. unfold with_epoll. cbn. by rewrite app_assoc.
Qed.

(** ** Propagation *)
Lemma propagate_loop_eq raw l : forall s, Forall (fun e => is_Some (clients (world s) !! e.2)) l ->
  exists s', propagate_loop raw l s = Done ([], s') /\
    quiet s s' /\ epoll_calls s' = epoll_calls s /\
    forall c, sent (world s') c = told snd (fun _ b => b ++ raw) l c <$> sent (world s) c.
Proof.
  induction l as [|[f c] l IH]; intros s Hl; cbn [propagate_loop].
  - exists s. split_and!; [done|apply quiet_refl|done|]. intros c. by rewrite told_nil.
  - apply Forall_cons in Hl as [[x Hx] Hl]. rewrite (bind_Done_S _ _ _ _ _ (getClient_eq _ _ _ Hx)).
    destruct (write_quiet c (fun b => b ++ raw) s) as (s1 & E1 & Q1 & W1 & S1); [eauto|].
    rewrite (bind_Done_S _ _ _ _ _ E1).
    destruct (IH s1) as (s' & -> & Q & W & Hs).
    { eapply Forall_impl; [exact Hl|]. intros e He. by apply (quiet_alive _ _ _ Q1). }
    exists s'. split_and!; [done|by eapply quiet_trans|congruence|].
    intros c'. rewrite Hs, S1, told_cons. done.
Qed.

(** The command that goes to the replicas, if there is one. *)
Definition forwarded (s : Server) : option Command :=
  cmd ← command (ctx (world s));
  if is_write_command cmd && negb (bool_decide (slave_connections (manager s) = ∅)) then Some cmd else None.

Lemma handle_propagate_eq env s : connected s ->
  exists b s1, handle_propagate env s = Done (b, s1) /\ epoll_calls s1 = epoll_calls s /\
    match forwarded s with
    | Some cmd =>
        quiet (with_config (set_offset (fun o => u64 (o + bytes_processed cmd))) s) s1 /\
        forall c, sent (world s1) c =
          told snd (fun _ b => b ++ to_resp (double_to_string env) cmd)
            (map_to_list (slave_connections (manager s))) c <$> sent (world s) c
    | None => s1 = s
    end.
Proof.
  intros C. unfold handle_propagate, forwarded.
  rewrite (bind_Done_S _ _ s (map_to_list (slave_connections (manager s))) s) by done.
  rewrite (bind_Done_S _ _ s (command (ctx (world s))) s) by done.
  destruct (command (ctx (world s))) as [cmd|]; cbn [option_bind mbind].
  2:{ exists false, s. split; [by destruct (map_to_list _)|done]. }
  assert (Hl : Forall (fun e => is_Some (clients (world s) !! e.2)) (map_to_list (slave_connections (manager s)))).
  { apply Forall_forall. intros [f c] Hi%elem_of_map_to_list. by eapply C. }
  destruct (map_to_list (slave_connections (manager s))) as [|e l] eqn:El.
  { apply map_to_list_empty_iff in El. rewrite bool_decide_true by done.
    exists false, s. by rewrite andb_false_r. }
  rewrite bool_decide_false by (intros E; by rewrite E, map_to_list_empty in El). rewrite andb_true_r.
  destruct (is_write_command cmd); [|by exists false, s].
  cbv zeta. set (s0 := with_config _ s). rewrite (bind_Done_S _ _ s tt s0) by done.
  destruct (propagate_loop_eq (to_resp (double_to_string env) cmd) (e :: l) s0 Hl) as (s1 & E1 & Q1 & W1 & S1).
  rewrite (bind_Done_S _ _ _ _ _ E1). exists true, s1. by split_and!.
Qed.

(** * Properties *)

(** C11: Replication traffic.  A write command that was executed goes to the replicas
    in its [to_resp] form: every registered replica gets it appended to what it
    has yet to be sent, and the offset grows by the bytes the command took in the
    client's buffer; any other command, or a command that was queued, is not
    forwarded, and while no replica is registered nothing is forwarded and the offset
    stays.  Afterwards every replica with something to be sent, and nobody
    else, is registered for writing.  The data base and the table of replicas are
    not touched. *)
Theorem PROPAGATE_spec env s :
  connected s ->
  exists s', propagateAndNotifySlaves env s = Done (tt, s') /\
    db (world s') = db (world s) /\ manager s' = manager s /\
    epoll_calls s' = epoll_calls s ++ concat (map (wakeup (world s')) (slaves s')) /\
    match forwarded s with
    | Some cmd =>
        offset (config s') = u64 (offset (config s) + bytes_processed cmd) /\
        forall c, sent (world s') c =
          told snd (fun _ b => b ++ to_resp (double_to_string env) cmd)
            (map_to_list (slave_connections (manager s))) c <$> sent (world s) c
    | None => world s' = world s /\ config s' = config s
    end.
Proof.
  intros C. destruct (handle_propagate_eq env s C) as (b & s1 & E1 & W & H).
  assert (C1 : connected s1 /\ db (world s1) = db (world s) /\ manager s1 = manager s).
  { destruct (forwarded s); [|by subst]. destruct H as [Q _]. split_and!.
    - by eapply quiet_connected; [exact Q|].
    - apply (q_db _ _ Q).
    - apply (q_manager _ _ Q). }
  destruct C1 as (C1 & Hd & Hm).
  exists (with_epoll (fun k => k ++ concat (map (wakeup (world s1)) (slaves s1))) s1). split.
  { unfold propagateAndNotifySlaves. rewrite (bind_Done_S _ _ _ _ _ E1).
    rewrite (bind_Done_S _ _ s1 (slaves s1) s1) by done.
    by rewrite notify_all_eq by (by apply connected_slaves). }
  split_and!; [done|done|by rewrite <- W|].
  destruct (forwarded s) as [cmd|]; [|by subst s1].
  destruct H as [Q Hs]. split; [|done]. cbn [with_epoll config]. by rewrite (q_config _ _ Q).
Qed.

Definition s_prop : Server :=
  MkServer (MkWorld newDB (<[ 1%nat := newClient 9 ]> {[ 2%nat := newClient 8 ]}) newACLManager
    (newContext 1%nat 9 (Some (MkCommand (lit "k") 45 (SetCommand (lit "v") None None)))))
    (MkManager {[ 8 := 2%nat ]} []) newConfig {[ 8 := 2%nat ]} [] 3%nat.

Lemma s_prop_connected : connected s_prop.
Proof. intros f c H. cbn in H. apply lookup_singleton_Some in H as [<- <-]. eexists. reflexivity. Qed.

Lemma PROPAGATE_spec_witness :
  exists s', propagateAndNotifySlaves DbString.sample_env s_prop = Done (tt, s') /\
    offset (config s') = 45 /\
    sent (world s') 2%nat = Some (to_resp (double_to_string DbString.sample_env)
                                    (MkCommand (lit "k") 0 (SetCommand (lit "v") None None))).
Proof.
  destruct (PROPAGATE_spec DbString.sample_env s_prop s_prop_connected) as (s' & E & _ & _ & _ & H1 & H2).
  exists s'. split; [exact E|]. split; [rewrite H1; reflexivity|]. rewrite H2. reflexivity.
Defined.

(** * WAIT *)

(** A waiting client has enough confirmations; it still exists; its answer. *)
Definition satisfied (s : Server) (it : BlockedWaitClient) : bool :=
  num_replicas_needed it <=? acked s (master_offset it).

Definition is_alive (s : Server) (it : BlockedWaitClient) : bool :=
  bool_decide (is_Some (clients (world s) !! bw_client it)).

Definition wait_reply (s : Server) (it : BlockedWaitClient) (b : list Z) : list Z :=
  encode_integer b (acked s (master_offset it)).

Lemma wait_states s s' : quiet s s' ->
  (forall it, satisfied s' it = satisfied s it) /\ (forall it, is_alive s' it = is_alive s it) /\
  (forall it b, wait_reply s' it b = wait_reply s it b).
Proof.
  intros Q. split_and!; intros it; unfold satisfied, wait_reply.
  - by rewrite (quiet_acked _ _ _ Q).
  - by apply bool_decide_ext, quiet_alive.
  - intros b. by rewrite (quiet_acked _ _ _ Q).
Qed.

Lemma quiet_ctx fd s :
  exists s', on_world (modify_ctx (set_unblocked fd)) s = Done (tt, s') /\ quiet s s' /\
    epoll_calls s' = epoll_calls s /\ forall c, sent (world s') c = sent (world s) c.
Proof. eexists. split; [reflexivity|]. by split_and!. Qed.

(** Nobody who has gone is told anything. *)
Lemma told_gone s it what l c : is_alive s it = false ->
  told bw_client what (it :: l) c <$> sent (world s) c = told bw_client what l c <$> sent (world s) c.
Proof.
  intros H%bool_decide_eq_false. rewrite told_cons. destruct (decide (bw_client it = c)) as [<-|]; [|done].
  unfold sent. destruct (clients (world s) !! bw_client it); [|done]. by destruct H.
Qed.

(** The pass over the waiting clients after a confirmation. *)
Lemma check_loop_eq l : forall s, connected s ->
  exists s', check_loop l s = Done (List.filter (fun it => is_alive s it && negb (satisfied s it)) l, s') /\
    quiet s s' /\ epoll_calls s' = epoll_calls s /\
    forall c, sent (world s') c =
      told bw_client (wait_reply s) (List.filter (satisfied s) l) c <$> sent (world s) c.
Proof.
  induction l as [|it l IH]; intros s C; cbn [check_loop List.filter].
  - exists s. split_and!; [done|apply quiet_refl|done|]. intros c. by rewrite told_nil.
  - rewrite (bind_Done_S _ _ _ _ _ (lock_eq _ _)).
    destruct (is_alive s it) eqn:Ea; cbn [andb]; pose proof Ea as Ha.
    2:{ apply bool_decide_eq_false, eq_None_not_Some in Ha. rewrite Ha.
        destruct (IH s C) as (s' & -> & Q & W & Hs). exists s'. split_and!; [done|done|done|].
        intros c. rewrite Hs. destruct (satisfied s it); [|done]. by rewrite told_gone. }
    apply bool_decide_eq_true in Ha. destruct Ha as [x Hx]. rewrite Hx.
    rewrite (bind_Done_S _ _ _ _ _ (acked_eq _ _ C)).
    change (num_replicas_needed it <=? _) with (satisfied s it).
    destruct (satisfied s it); cbn [negb].
    + destruct (write_quiet (bw_client it) (wait_reply s it) s) as (s1 & E1 & Q1 & W1 & S1); [eauto|].
      rewrite (bind_Done_S _ _ _ _ _ E1).
      destruct (quiet_ctx (bw_fd it) s1) as (s2 & E2 & Q2 & W2 & S2). rewrite (bind_Done_S _ _ _ _ _ E2).
      pose proof (quiet_trans _ _ _ Q1 Q2) as Q12. destruct (wait_states _ _ Q12) as (X1 & X2 & X3).
      destruct (IH s2) as (s' & E & Q & W & Hs); [by eapply quiet_connected|]. exists s'. split_and!.
      * rewrite E. f_equal. f_equal. apply List.filter_ext. intros. by rewrite X1, X2.
      * by eapply quiet_trans.
      * congruence.
      * intros c. rewrite Hs, S2, S1, told_cons. rewrite (List.filter_ext _ _ X1). by apply told_fmap_ext.
    + destruct (IH s C) as (s' & E & Q & W & Hs). exists s'. split_and!; [|done|done|done].
      by rewrite (bind_Done_S _ _ _ _ _ E).
Qed.

(** The clients that are answered because their time is up. *)
Definition timed_out (env : Env) (s : Server) (it : BlockedWaitClient) : bool :=
  is_expired (steady_now env) (bw_timeout_at it) && is_alive s it.

Lemma expire_loop_eq env l : forall s, connected s ->
  exists s', expire_loop env l s =
      Done ((map bw_fd (List.filter (timed_out env s) l),
             List.filter (fun it => negb (is_expired (steady_now env) (bw_timeout_at it))) l), s') /\
    quiet s s' /\ epoll_calls s' = epoll_calls s /\
    forall c, sent (world s') c =
      told bw_client (wait_reply s) (List.filter (timed_out env s) l) c <$> sent (world s) c.
Proof.
  induction l as [|it l IH]; intros s C; cbn [expire_loop List.filter].
  - exists s. split_and!; [done|apply quiet_refl|done|]. intros c. by rewrite told_nil.
  - destruct (timed_out env s it) eqn:Et; pose proof Et as He; unfold timed_out in He;
      destruct (is_expired _ _) eqn:Ee; cbn [negb andb] in *; try done.
    + rewrite (bind_Done_S _ _ _ _ _ (lock_eq _ _)). apply bool_decide_eq_true in He. destruct He as [x Hx]. rewrite Hx.
      rewrite (bind_Done_S _ _ _ _ _ (acked_eq _ _ C)).
      destruct (write_quiet (bw_client it) (wait_reply s it) s) as (s1 & E1 & Q1 & W1 & S1); [eauto|].
      rewrite (bind_Done_S _ _ _ _ _ E1). destruct (wait_states _ _ Q1) as (X1 & X2 & X3).
      destruct (IH s1) as (s' & E & Q & W & Hs); [by eapply quiet_connected|].
      assert (Hf : List.filter (timed_out env s1) l = List.filter (timed_out env s) l).
      { apply List.filter_ext. intros. unfold timed_out. by rewrite X2. }
      rewrite Hf in E, Hs. exists s'. split_and!.
      * by rewrite (bind_Done_S _ _ _ _ _ E).
      * by eapply quiet_trans.
      * congruence.
      * intros c. rewrite Hs, S1, told_cons. by apply told_fmap_ext.
    + rewrite (bind_Done_S _ _ _ _ _ (lock_eq _ _)). apply bool_decide_eq_false, eq_None_not_Some in He.
      rewrite He. apply (IH s C).
    + destruct (IH s C) as (s' & E & Q & W & Hs). exists s'. split_and!; [|done|done|done].
      by rewrite (bind_Done_S _ _ _ _ _ E).
Qed.

(** ** Properties *)
Lemma on_cast_eq {A} (v : Command -> option A) s c a :
  command (ctx (world s)) = Some c -> v c = Some a -> on_world (cast_command v) s = Done (a, s).
Proof.
  intros Hc Hv. unfold on_world, cast_command, mbind, M_bind, get. rewrite Hc, Hv. by destruct s.
Qed.

Lemma set_blocked_wait_eq l s :
  set_blocked_wait l s = Done (tt, with_manager (fun m => MkManager (slave_connections m) l) s).
Proof. done. Qed.

(** C24: WAIT is answered as soon as enough replicas have confirmed.  A confirmation
    (REPLCONF ACK) is recorded as the offset of the replica that sent it, whether
    anybody waits or not, and of no other client; then, of the waiting
    clients, exactly those with enough confirmations are answered, each with its
    count; those who are still there and have not enough keep waiting, in the
    same order; nobody else is sent anything and the data base stays as it is. *)
Theorem ACK_spec s k b capa port ack x :
  connected s -> clients (world s) !! client (ctx (world s)) = Some x ->
  command (ctx (world s)) = Some (MkCommand k b (ReplConfCommand ACK port capa ack)) ->
  let s0 := with_world (with_clients (alter (with_replica_offset ack) (client (ctx (world s))))) s in
  exists s', handle_replconf s = Done (tt, s') /\
    db (world s') = db (world s) /\ config s' = config s /\
    (forall c, replica_offset <$> clients (world s') !! c =
       if decide (c = client (ctx (world s))) then Some ack else replica_offset <$> clients (world s) !! c) /\
    slave_connections (manager s') = slave_connections (manager s) /\
    blocked_wait_clients (manager s') =
      List.filter (fun it => is_alive s0 it && negb (satisfied s0 it)) (blocked_wait_clients (manager s)) /\
    forall c, sent (world s') c =
      told bw_client (wait_reply s0) (List.filter (satisfied s0) (blocked_wait_clients (manager s))) c
        <$> sent (world s) c.
Proof.
  intros C Hx Hc s0. unfold handle_replconf.
  rewrite (bind_Done_S _ _ _ _ _ (on_cast_eq as_replconf s _ _ Hc eq_refl)). cbn iota.
  rewrite bool_decide_true by done.
  rewrite (bind_Done_S _ _ s tt s0).
  2:{ unfold on_world, update_self, mbind, M_bind, get. by rewrite (update_client_eq _ _ _ _ Hx). }
  assert (C0 : connected s0).
  { intros f c Hf. subst s0. cbn. rewrite lookup_alter_is_Some. by eapply C. }
  assert (S0 : forall c, sent (world s0) c = sent (world s) c).
  { intros c. unfold sent. subst s0. cbn. destruct (decide (c = client (ctx (world s)))) as [->|Hne].
    - by rewrite lookup_alter_eq, Hx.
    - by rewrite lookup_alter_ne. }
  unfold check_blocked_wait_clients.
  rewrite (bind_Done_S _ _ s0 (blocked_wait_clients (manager s)) s0) by done.
  destruct (check_loop_eq (blocked_wait_clients (manager s)) s0 C0) as (s1 & E & Q & W & Hs).
  rewrite (bind_Done_S _ _ _ _ _ E), set_blocked_wait_eq. eexists. split; [done|].
  cbn [with_manager world config manager slave_connections blocked_wait_clients]. split_and!.
  - by rewrite (q_db _ _ Q).
  - by rewrite (q_config _ _ Q).
  - intros c. rewrite (quiet_offset _ _ c Q). subst s0. cbn.
    destruct (decide (c = client (ctx (world s)))) as [->|Hne].
    + by rewrite lookup_alter_eq, Hx.
    + by rewrite lookup_alter_ne.
  - by rewrite (q_manager _ _ Q).
  - done.
  - intros c. by rewrite Hs, S0.
Qed.

(** A replica (client 2) and a client waiting for it (client 1). *)
Definition s_ack : Server :=
  MkServer (MkWorld newDB (<[ 1%nat := newClient 9 ]> {[ 2%nat := newClient 8 ]}) newACLManager
    (newContext 2%nat 8 (Some (MkCommand [] 37 (ReplConfCommand ACK [] [] 45)))))
    (MkManager {[ 8 := 2%nat ]} [MkBlockedWait 1%nat 9 time_point_max 1 45]) newConfig
    {[ 8 := 2%nat ]} [] 3%nat.

Lemma s_ack_connected : connected s_ack.
Proof. intros f c H. cbn in H. apply lookup_singleton_Some in H as [<- <-]. eexists. reflexivity. Qed.

Lemma ACK_spec_witness :
  exists s', handle_replconf s_ack = Done (tt, s') /\
    replica_offset <$> clients (world s') !! 2%nat = Some 45 /\
    blocked_wait_clients (manager s') = [] /\ sent (world s') 1%nat = Some (lit ":1" ++ CRLF).
Proof.
  destruct (ACK_spec s_ack [] 37 [] [] 45 (newClient 8) s_ack_connected eq_refl eq_refl)
    as (s' & E & _ & _ & Ho & _ & H1 & H2).
  exists s'. split; [exact E|]. split; [rewrite Ho; reflexivity|].
  split; [rewrite H1; reflexivity|]. rewrite H2. reflexivity.
Defined.

Lemma send_to_slave_eq text l : text <> [] -> forall s, Forall (fun c => is_Some (clients (world s) !! c)) l ->
  exists s', for_each_s (send_to_slave text) l s = Done (tt, s') /\ quiet s s' /\
    (forall c, sent (world s') c = told id (fun _ b => b ++ text) l c <$> sent (world s) c) /\
    epoll_calls s' = epoll_calls s ++
      concat (map (fun c => if clients (world s) !! c is Some x
                            then [Update (fd x) (Z.lor READ_EVENT WRITE_EVENT)] else []) l).
Proof.
  intros Ht. induction l as [|c l IH]; intros s Hl; cbn [for_each_s map concat].
  - exists s. split_and!; [done|apply quiet_refl| |by rewrite app_nil_r]. intros c. by rewrite told_nil.
  - apply Forall_cons in Hl as [[x Hx] Hl].
    destruct (write_quiet c (fun b => b ++ text) s) as (s1 & E1 & Q1 & W1 & S1); [eauto|].
    destruct (quiet_client _ _ _ _ Q1 Hx) as [b Hb].
    assert (Hw : wakeup (world s1) c = [Update (fd x) (Z.lor READ_EVENT WRITE_EVENT)]).
    { specialize (S1 c). unfold sent in S1. rewrite Hb, Hx, decide_True in S1 by done. cbn in S1.
      injection S1 as ->. unfold wakeup. rewrite Hb. rewrite bool_decide_false; [by destruct x|].
      cbn. by intros [? ?]%app_eq_nil. }
    set (s2 := with_epoll (fun k => k ++ [Update (fd x) (Z.lor READ_EVENT WRITE_EVENT)]) s1).
    rewrite (bind_Done_S _ _ s tt s2).
    2:{ unfold send_to_slave. rewrite (bind_Done_S _ _ _ _ _ (getClient_eq _ _ _ Hx)), (bind_Done_S _ _ _ _ _ E1).
        rewrite flush_eq by eauto. by rewrite Hw. }
    assert (Q2 : quiet s s2) by (eapply quiet_trans; [exact Q1|apply epoll_quiet]).
    destruct (IH s2) as (s' & -> & Q & Hs & He).
    { eapply Forall_impl; [exact Hl|]. intros e Hi. by apply (quiet_alive _ _ _ Q2). }
    exists s'. split_and!; [done|by eapply quiet_trans| |].
    + intros c'. rewrite Hs, told_cons. by rewrite <- S1.
    + rewrite He. subst s2. cbn [with_epoll epoll_calls world]. rewrite W1, Hx, <- !app_assoc. do 3 f_equal.
      apply map_ext. intros d. pose proof (q_clients _ _ Q1 d) as Ed.
      destruct (clients (world s1) !! d) as [y|], (clients (world s) !! d) as [z|]; try done.
      destruct y, z. cbn in Ed. by injection Ed as -> -> -> -> -> -> -> -> ->.
Qed.

Lemma on_reply_quiet f s : alive (world s) ->
  exists s', on_world (reply f) s = Done (tt, s') /\ quiet s s' /\ epoll_calls s' = epoll_calls s /\
    forall c, sent (world s') c = if decide (client (ctx (world s)) = c) then f <$> sent (world s) c
                                  else sent (world s) c.
Proof.
  intros Ha. destruct (write_quiet (client (ctx (world s))) f s Ha) as (s' & E & H).
  exists s'. split; [|done]. rewrite <- E. unfold on_world. rewrite reply_eq by done.
  unfold write_to. destruct Ha as [x Hx]. by rewrite (update_client_eq _ _ _ _ Hx).
Qed.

(** C6: WAIT.  When nothing has been propagated the answer is the number of replicas.
    When enough replicas have confirmed the current offset the answer is their
    number, at once.  Otherwise nothing is answered: every replica is asked for
    its offset (GETACK) and registered for writing, the client joins the end of
    the waiting line with its deadline, the number it wants and the offset it
    waits for, and the context is marked blocked. *)
Theorem WAIT_spec env s k b n ms :
  connected s -> alive (world s) ->
  command (ctx (world s)) = Some (MkCommand k b (WaitCommand n ms)) ->
  let off := i64 (offset (config s)) in
  let answer v s' := manager s' = manager s /\ epoll_calls s' = epoll_calls s /\
    isBlocked (ctx (world s')) = isBlocked (ctx (world s)) /\
    forall c, sent (world s') c = if decide (client (ctx (world s)) = c)
                                  then (fun b => encode_integer b v) <$> sent (world s) c
                                  else sent (world s) c in
  if offset (config s) =? 0 then
    exists s', handle_wait env s = Done (tt, s') /\ answer (len (slaves s)) s'
  else if n <=? acked s off then
    exists s', handle_wait env s = Done (tt, s') /\ answer (acked s off) s'
  else
    forall it, newBlockedWaitClient (steady_now env) (client (ctx (world s))) (client_fd (ctx (world s))) ms n off
               = Done it ->
    exists s', handle_wait env s = Done (tt, s') /\ db (world s') = db (world s) /\
      isBlocked (ctx (world s')) = true /\
      slave_connections (manager s') = slave_connections (manager s) /\
      blocked_wait_clients (manager s') = blocked_wait_clients (manager s) ++ [it] /\
      (forall c, sent (world s') c = told id (fun _ b => b ++ getack_cmd) (slaves s) c <$> sent (world s) c) /\
      forall c x, c ∈ slaves s -> clients (world s) !! c = Some x ->
        Update (fd x) (Z.lor READ_EVENT WRITE_EVENT) ∈ epoll_calls s'.
Proof.
  intros C Ha Hc off answer.
  assert (Hans : forall v, exists s', on_world (reply (fun b => encode_integer b v)) s = Done (tt, s') /\ answer v s').
  { intros v. destruct (on_reply_quiet (fun b => encode_integer b v) s Ha) as (s' & E & Q & W & Hs).
    exists s'. split; [done|]. split_and!; [apply (q_manager _ _ Q)|done| |done].
    revert E. unfold on_world. rewrite reply_eq by done. by intros [= <-]. }
  unfold handle_wait. rewrite (bind_Done_S _ _ _ _ _ (on_cast_eq as_wait s _ _ Hc eq_refl)). cbn iota.
  rewrite (bind_Done_S _ _ s (config s) s) by done.
  destruct (offset (config s) =? 0).
  { rewrite (bind_Done_S _ _ s (len (slaves s)) s) by done. apply Hans. }
  rewrite (bind_Done_S _ _ _ _ _ (acked_eq _ _ C)). fold off.
  destruct (n <=? acked s off); [apply Hans|]. intros it Hit.
  rewrite (bind_Done_S _ _ s (slaves s) s) by done.
  destruct (send_to_slave_eq getack_cmd (slaves s) ltac:(done) s (connected_slaves _ C)) as (s1 & E1 & Q1 & S1 & W1).
  rewrite (bind_Done_S _ _ _ _ _ E1).
  set (s2 := with_world (with_ctx set_isBlocked) s1).
  rewrite (bind_Done_S _ _ s1 tt s2) by done. rewrite (bind_Done_S _ _ s2 (ctx (world s2)) s2) by done.
  change (client (ctx (world s2))) with (client (ctx (world s1))).
  change (client_fd (ctx (world s2))) with (client_fd (ctx (world s1))).
  rewrite (q_self _ _ Q1), (q_fd _ _ Q1). rewrite (bind_Done_S _ _ _ _ _ (lift_eq _ s2 _ Hit)).
  rewrite (bind_Done_S _ _ s2 (blocked_wait_clients (manager s2)) s2) by done.
  rewrite set_blocked_wait_eq. eexists. split; [done|].
  subst s2. cbn [with_manager with_world with_ctx world manager slave_connections blocked_wait_clients db ctx epoll_calls].
  rewrite (q_manager _ _ Q1). split_and!; try done; [apply (q_db _ _ Q1)|].
  intros c x Hi Hx. rewrite W1. apply elem_of_app. right. apply list_elem_of_In, in_concat.
  exists [Update (fd x) (Z.lor READ_EVENT WRITE_EVENT)]. split; [|by left]. apply in_map_iff. exists c. split; [by rewrite Hx|by apply list_elem_of_In].
Qed.

Definition s_wait : Server :=
  MkServer (MkWorld newDB (<[ 1%nat := newClient 9 ]> {[ 2%nat := newClient 8 ]}) newACLManager
    (newContext 1%nat 9 (Some (MkCommand [] 37 (WaitCommand 1 500)))))
    (MkManager {[ 8 := 2%nat ]} []) (set_offset (fun _ => 45) newConfig) {[ 8 := 2%nat ]} [] 3%nat.

Lemma s_wait_connected : connected s_wait.
Proof. intros f c H. cbn in H. apply lookup_singleton_Some in H as [<- <-]. eexists. reflexivity. Qed.

Lemma WAIT_spec_witness :
  exists s', handle_wait DbString.sample_env s_wait = Done (tt, s') /\
    sent (world s') 2%nat = Some getack_cmd /\ sent (world s') 1%nat = Some [] /\
    map num_replicas_needed (blocked_wait_clients (manager s')) = [1].
Proof.
  pose proof (WAIT_spec DbString.sample_env s_wait [] 37 1 500 s_wait_connected (ex_intro _ (newClient 9) eq_refl)
              eq_refl) as H.
  change (offset (config s_wait) =? 0) with false in H.
  replace (1 <=? acked s_wait (i64 (offset (config s_wait)))) with false in H by reflexivity.
  destruct (H _ eq_refl) as (s' & E & _ & _ & _ & H1 & H2 & _).
  exists s'. split; [exact E|]. split_and!; [rewrite H2; reflexivity|rewrite H2; reflexivity|rewrite H1; reflexivity].
Defined.

(** C25: No WAIT client waits past its deadline: the pass of the main loop answers
    exactly the clients whose time is up and who still exist, with the count of
    confirmations at that moment, returns their descriptors, and keeps everybody
    whose time is not up. *)
Theorem WAIT_expiry_spec env s :
  connected s ->
  exists s', check_and_expire_blocked_wait_clients env s =
      Done (map bw_fd (List.filter (timed_out env s) (blocked_wait_clients (manager s))), s') /\
    db (world s') = db (world s) /\ config s' = config s /\
    slave_connections (manager s') = slave_connections (manager s) /\
    blocked_wait_clients (manager s') =
      List.filter (fun it => negb (is_expired (steady_now env) (bw_timeout_at it))) (blocked_wait_clients (manager s)) /\
    forall c, sent (world s') c =
      told bw_client (wait_reply s) (List.filter (timed_out env s) (blocked_wait_clients (manager s))) c
        <$> sent (world s) c.
Proof.
  intros C. unfold check_and_expire_blocked_wait_clients.
  rewrite (bind_Done_S _ _ s (blocked_wait_clients (manager s)) s) by done.
  destruct (expire_loop_eq env (blocked_wait_clients (manager s)) s C) as (s1 & E & Q & W & Hs).
  rewrite (bind_Done_S _ _ _ _ _ E). cbn [fst snd]. unfold mbind, SM_bind. rewrite set_blocked_wait_eq.
  eexists. split; [done|]. cbn [with_manager world config manager slave_connections blocked_wait_clients].
  split_and!; [apply (q_db _ _ Q)|apply (q_config _ _ Q)|by rewrite (q_manager _ _ Q)|done|done].
Qed.

Definition s_late : Server :=
  with_manager (fun _ => MkManager ∅ [MkBlockedWait 1%nat 9 0 1 45; MkBlockedWait 2%nat 8 time_point_max 1 45]) s_wait.

Lemma WAIT_expiry_spec_witness :
  exists s', check_and_expire_blocked_wait_clients DbString.sample_env s_late = Done ([9], s') /\
    map bw_fd (blocked_wait_clients (manager s')) = [8] /\ sent (world s') 1%nat = Some (lit ":0" ++ CRLF).
Proof.
  destruct (WAIT_expiry_spec DbString.sample_env s_late) as (s' & E & _ & _ & _ & H1 & H2).
  { intros f c H. cbn in H. by rewrite lookup_empty in H. }
  exists s'. split; [exact E|]. split; [rewrite H1; reflexivity|]. rewrite H2. reflexivity.
Defined.

(** Milliseconds until a deadline. *)
Definition remaining (now : Z) (it : BlockedWaitClient) : Z := Z.quot (bw_timeout_at it - now) 1000000.

Definition has_deadline (it : BlockedWaitClient) : Prop := bw_timeout_at it <> time_point_max.

Lemma next_timeout_loop_eq env l : forall m,
  0 <= steady_now env <= INT64_MAX ->
  Forall (fun it => 0 <= bw_timeout_at it <= INT64_MAX /\ (has_deadline it -> remaining (steady_now env) it < 2 ^ 31)) l ->
  m = -1 \/ 0 < m ->
  exists r, next_timeout_loop env l m = Done r /\
    ((r = 0 /\ exists it, it ∈ l /\ has_deadline it /\ remaining (steady_now env) it <= 0) \/
     ((forall it, it ∈ l -> has_deadline it -> 0 < r <= remaining (steady_now env) it) /\
      (r = m \/ exists it, it ∈ l /\ has_deadline it /\ r = remaining (steady_now env) it) /\
      (0 < m -> 0 < r <= m))).
Proof.
  induction l as [|it l IH]; intros m Hn Hl Hm; cbn [next_timeout_loop].
  - exists m. split; [done|]. right. split_and!; [by intros ? ?%not_elem_of_nil|by left|lia].
  - apply Forall_cons in Hl as [[Ht Hr] Hl]. unfold has_deadline in Hr.
    destruct (Z.eqb_spec (bw_timeout_at it) time_point_max) as [E|E].
    + destruct (IH m Hn Hl Hm) as (r & -> & H). exists r. split; [done|].
      destruct H as [(-> & it' & ? & ?)|(H1 & H2 & H3)];
        [left; split; [done|]; exists it'; split; [by apply list_elem_of_further|done]|right].
      split_and!; [|destruct H2 as [->|(it' & ? & ? & ->)];
        [by left|right; exists it'; split_and!; [by apply list_elem_of_further|done|done]]|done]. intros it' [->|Hi]%elem_of_cons; [done|auto].
    + unfold checked. replace (_ && _) with true
        by (symmetry; apply andb_true_iff; unfold INT64_MIN, INT64_MAX in *; split; apply Z.leb_le; lia).
      unfold mret, outcome_ret. rewrite bind_Done. cbv beta zeta. fold (remaining (steady_now env) it).
      specialize (Hr E). destruct (Z.leb_spec (remaining (steady_now env) it) 0) as [H0|H0].
      { exists 0. split; [done|]. left. split; [done|]. exists it. split_and!; [by apply list_elem_of_here|done|done]. }
      set (m' := if _ || _ then _ else m).
      assert (Hm' : 0 < m' /\ m' <= remaining (steady_now env) it /\
                    (m' = m \/ m' = remaining (steady_now env) it) /\ (0 < m -> m' <= m)).
      { subst m'. destruct (Z.eqb_spec m (-1)); cbn [orb].
        - rewrite i32_id by lia. lia.
        - destruct (Z.ltb_spec (remaining (steady_now env) it) m); rewrite ?i32_id by lia; lia. }
      destruct Hm' as (P1 & P2 & P3 & P4).
      destruct (IH m' Hn Hl ltac:(lia)) as (r & -> & H). exists r. split; [done|].
      destruct H as [(-> & it' & ? & ?)|(H1 & H2 & H3)];
        [left; split; [done|]; exists it'; split; [by apply list_elem_of_further|done]|right].
      split_and!.
      * intros it' [->|Hi]%elem_of_cons; [lia|auto].
      * destruct H2 as [->|(it' & ? & ? & ->)];
          [|right; exists it'; split_and!; [by apply list_elem_of_further|done|done]].
        destruct P3 as [->| ->]; [by left|]. right. exists it. split_and!; [by apply list_elem_of_here|done|done].
      * intros. specialize (H3 P1). lia.
Qed.

(** How long the main loop may sleep for the sake of WAIT: forever (-1) only when
    nobody has a deadline, not at all when some deadline is less than a
    millisecond away, and otherwise exactly until the nearest one.  The deadlines
    are less than 2^31 milliseconds away, the range of the result. *)
Theorem next_wait_timeout_spec env m :
  0 <= steady_now env <= INT64_MAX ->
  Forall (fun it => 0 <= bw_timeout_at it <= INT64_MAX /\ (has_deadline it -> remaining (steady_now env) it < 2 ^ 31))
    (blocked_wait_clients m) ->
  exists r, get_next_wait_timeout_ms env m = Done r /\
    ((r = -1 /\ forall it, it ∈ blocked_wait_clients m -> ~ has_deadline it) \/
     (r = 0 /\ exists it, it ∈ blocked_wait_clients m /\ has_deadline it /\ remaining (steady_now env) it <= 0) \/
     (0 < r /\ (exists it, it ∈ blocked_wait_clients m /\ has_deadline it /\ r = remaining (steady_now env) it) /\
      forall it, it ∈ blocked_wait_clients m -> has_deadline it -> r <= remaining (steady_now env) it)).
Proof.
  intros Hn Hl. destruct (next_timeout_loop_eq env _ (-1) Hn Hl ltac:(by left)) as (r & E & H).
  exists r. split; [done|]. destruct H as [H|(H1 & H2 & _)]; [by right; left|].
  destruct H2 as [->|(it & Hi & Hd & ->)].
  - left. split; [done|]. intros it Hi Hd. specialize (H1 it Hi Hd). lia.
  - right; right. specialize (H1 it Hi Hd) as H0. split_and!; [lia|by exists it|].
    intros it' Hi' Hd'. by apply H1.
Qed.

Lemma next_wait_timeout_spec_witness :
  exists r, get_next_wait_timeout_ms DbString.sample_env
    (MkManager ∅ [MkBlockedWait 1%nat 9 time_point_max 1 0;
                  MkBlockedWait 1%nat 9 (steady_now DbString.sample_env + 5000000) 1 0]) = Done r /\ 0 <= r <= 5.
Proof.
  edestruct (next_wait_timeout_spec DbString.sample_env
    (MkManager ∅ [MkBlockedWait 1%nat 9 time_point_max 1 0;
                  MkBlockedWait 1%nat 9 (steady_now DbString.sample_env + 5000000) 1 0])) as (r & E & _).
  - vm_compute. split; discriminate.
  - repeat constructor; try (vm_compute; congruence).
  - exists r. split; [exact E|]. vm_compute in E. injection E as <-. split; discriminate.
Defined.

(** * PSYNC *)

(** What a master says to PSYNC: the identity of its stream and the snapshot. *)
Definition psync_reply (id rdb : list Z) : list Z :=
  lit "+" ++ (lit "FULLRESYNC " ++ id ++ lit " 0") ++ CRLF ++ lit "$" ++ to_string (len rdb) ++ CRLF ++ rdb.

(** PSYNC makes its sender a replica: it is sent the identity of the stream and
    the snapshot, is entered in the table of replicas under its descriptor unless
    it was one before, and is marked; nobody else is sent anything. *)
Theorem PSYNC_spec read_file s x :
  connected s -> clients (world s) !! client (ctx (world s)) = Some x ->
  exists s', handle_psync read_file s = Done (tt, s') /\ connected s' /\
    db (world s') = db (world s) /\ config s' = config s /\
    (exists y, clients (world s') !! client (ctx (world s)) = Some y /\ isslave y = true) /\
    blocked_wait_clients (manager s') = blocked_wait_clients (manager s) /\
    slave_connections (manager s') =
      (if isslave x then slave_connections (manager s)
       else <[client_fd (ctx (world s)) := client (ctx (world s))]> (slave_connections (manager s))) /\
    forall c, sent (world s') c =
      if decide (client (ctx (world s)) = c)
      then (fun b => b ++ psync_reply (replication_id (config s)) (read_rdb_file read_file (rdb_file_path (config s))))
             <$> sent (world s) c
      else sent (world s) c.
Proof.
  intros C Hx. unfold handle_psync. rewrite (bind_Done_S _ _ s (config s) s) by done.
  destruct (on_reply_quiet (fun b => encode_simple_string b (lit "FULLRESYNC " ++ replication_id (config s) ++ lit " 0"))
              s ltac:(by eexists)) as (s1 & E1 & Q1 & _ & S1).
  rewrite (bind_Done_S _ _ _ _ _ E1). cbv zeta. set (rdb := read_rdb_file _ _).
  destruct (quiet_client _ _ _ _ Q1 Hx) as [b1 H1].
  destruct (on_reply_quiet (fun b => b ++ lit "$" ++ to_string (len rdb) ++ CRLF ++ rdb) s1)
    as (s2 & E2 & Q2 & _ & S2); [unfold alive; rewrite (q_self _ _ Q1); by eexists|].
  rewrite (bind_Done_S _ _ _ _ _ E2). rewrite (q_self _ _ Q1) in S2.
  pose proof (quiet_trans _ _ _ Q1 Q2) as Q. destruct (quiet_client _ _ _ _ Q Hx) as [b2 H2].
  assert (Hs : forall c, sent (world s2) c = if decide (client (ctx (world s)) = c)
      then (fun b => b ++ psync_reply (replication_id (config s)) rdb) <$> sent (world s) c else sent (world s) c).
  { intros c. rewrite S2, S1. destruct (decide _); [|done]. destruct (sent (world s) c) as [b|]; [|done].
    unfold encode_simple_string, psync_reply. cbn [fmap option_fmap option_map]. by rewrite <- !app_assoc. }
  set (y := with_write_buffer (fun _ => b2) x) in *.
  rewrite (bind_Done_S _ _ s2 y s2).
  2:{ unfold on_world, self. rewrite (q_self _ _ Q), H2. by destruct s2. }
  change (isslave y) with (isslave x). destruct (isslave x) eqn:Ei.
  - exists s2. split_and!; [done|by eapply quiet_connected|apply (q_db _ _ Q)|apply (q_config _ _ Q)|exists y; by split|..|done];
      by rewrite (q_manager _ _ Q).
  - set (s3 := with_world (with_clients (alter (with_isslave true) (client (ctx (world s2))))) s2).
    rewrite (bind_Done_S _ _ s2 tt s3).
    2:{ unfold on_world, update_self, mbind, M_bind, get. rewrite (update_client_eq _ _ _ y); [done|].
        by rewrite (q_self _ _ Q). }
    rewrite (bind_Done_S _ _ s3 (ctx (world s3)) s3) by done. eexists. split; [reflexivity|].
    change (ctx (world s3)) with (ctx (world s2)). rewrite (q_self _ _ Q), (q_fd _ _ Q).
    assert (Hc : forall c, is_Some (clients (world s3) !! c) <-> is_Some (clients (world s) !! c)).
    { intros c. subst s3. cbn. rewrite lookup_alter_is_Some. by apply quiet_alive. }
    split_and!; cbn [with_manager world manager config slave_connections blocked_wait_clients].
    + intros f c Hf. apply Hc. revert Hf. cbn [with_manager manager slave_connections]. destruct (decide (f = client_fd (ctx (world s)))) as [->|Hne].
      * rewrite lookup_insert_eq. intros [= <-]. by eexists.
      * rewrite lookup_insert_ne by done. change (manager s3) with (manager s2).
        rewrite (q_manager _ _ Q). apply C.
    + apply (q_db _ _ Q).
    + apply (q_config _ _ Q).
    + exists (with_isslave true y). subst s3. cbn. rewrite (q_self _ _ Q), lookup_alter_eq, H2. done.
    + by rewrite <- (q_manager _ _ Q).
    + by rewrite <- (q_manager _ _ Q).
    + intros c. rewrite <- Hs. unfold sent. subst s3. cbn. rewrite (q_self _ _ Q).
      destruct (decide (c = client (ctx (world s)))) as [->|Hne]; [by rewrite lookup_alter_eq, H2|by rewrite lookup_alter_ne].
Qed.

Definition s_psync : Server :=
  MkServer (MkWorld newDB {[ 1%nat := newClient 9 ]} newACLManager
    (newContext 1%nat 9 (Some (MkCommand [] 37 (PsyncCommand (lit "?") (-1))))))
    newManager newConfig {[ 9 := 1%nat ]} [] 2%nat.

Lemma PSYNC_spec_witness :
  exists s', handle_psync (fun _ => None) s_psync = Done (tt, s') /\
    slave_connections (manager s') !! 9 = Some 1%nat /\
    sent (world s') 1%nat = Some (psync_reply (replication_id newConfig) empty_rdb).
Proof.
  destruct (PSYNC_spec (fun _ => None) s_psync (newClient 9)) as (s' & E & _ & _ & _ & _ & _ & H1 & H2).
  - intros f c H. cbn in H. by rewrite lookup_empty in H.
  - reflexivity.
  - exists s'. split; [exact E|]. split; [rewrite H1; reflexivity|]. rewrite H2. reflexivity.
Defined.
