(* ===== verification/SlaveReplication.v ===== *)
(** [src/slave-replication.h], [src/slave-replication.cpp]: the replica's end of
    replication, a client of the master: the handshake as a state machine over
    what has been read, and the commands that come after it.  A replica executes
    each command on behalf of itself; the reference the data base may keep to it
    expires with the command, so every command runs under a new one. *)
From Stdlib Require Import SpecFloat.
From S2P Require Import Prelude Utils Command Parser CommandParser ParserProgress.
From S2P Require Import Acl World Db Frame Connection Replication.

Inductive ReplicationStatus :=
| IDLE
| PING_SENT
| PING_SENT_SUCCESS
| REPLCONF_PORT_SENT
| REPLCONF_PORT_SUCCESS
| REPLCONF_CAPA_SENT
| REPLCONF_CAPA_SUCCESS
| PSYNC_SENT
| HANDSHAKE_SUCCESS.

#[global] Instance ReplicationStatus_eq_dec : EqDecision ReplicationStatus.
Proof. solve_decision. Defined.

(** [attached]: the pointers to the data base and the configuration are set. *)
Record SlaveReplicationClient := MkSlave {
  base : Client;
  replication_status : ReplicationStatus;
  slave_port : Z;
  is_handshake_completed : bool;
  repl_id : list Z;
  repl_offset : Z;
  processed : Z;
  attached : bool
}.

Definition newSlave (p : Z) : SlaveReplicationClient :=
  MkSlave (newClient 0) IDLE p false (lit "?") (-1) 0 false.

Definition with_base f (r : SlaveReplicationClient) : SlaveReplicationClient :=
  MkSlave (f (base r)) (replication_status r) (slave_port r) (is_handshake_completed r) (repl_id r)
    (repl_offset r) (processed r) (attached r).
Definition with_status st (r : SlaveReplicationClient) : SlaveReplicationClient :=
  MkSlave (base r) st (slave_port r) (is_handshake_completed r) (repl_id r)
    (repl_offset r) (processed r) (attached r).
Definition with_completed b (r : SlaveReplicationClient) : SlaveReplicationClient :=
  MkSlave (base r) (replication_status r) (slave_port r) b (repl_id r)
    (repl_offset r) (processed r) (attached r).
Definition with_processed f (r : SlaveReplicationClient) : SlaveReplicationClient :=
  MkSlave (base r) (replication_status r) (slave_port r) (is_handshake_completed r) (repl_id r)
    (repl_offset r) (f (processed r)) (attached r).

Definition set_db_and_config (r : SlaveReplicationClient) : SlaveReplicationClient :=
  MkSlave (base r) (replication_status r) (slave_port r) (is_handshake_completed r) (repl_id r)
    (repl_offset r) (processed r) true.

Definition has_data_to_write (r : SlaveReplicationClient) : bool :=
  negb (bool_decide (write_buffer (base r) = [])).

(** * The handshake *)

(** A request: an array of bulk strings at the end of the output. *)
Definition request (words : list (list Z)) (r : SlaveReplicationClient) : SlaveReplicationClient :=
  with_base (with_write_buffer (fun b => fold_left encode_bulk_string words (encode_array_header b (len words)))) r.

Definition prepare_handshake_write (r : SlaveReplicationClient) : SlaveReplicationClient :=
  match replication_status r with
  | IDLE => with_status PING_SENT (request [lit "PING"] r)
  | PING_SENT_SUCCESS =>
      with_status REPLCONF_PORT_SENT
        (request [lit "REPLCONF"; lit "listening-port"; to_string (slave_port r)] r)
  | REPLCONF_PORT_SUCCESS =>
      with_status REPLCONF_CAPA_SENT (request [lit "REPLCONF"; lit "capa"; lit "psync2"] r)
  | REPLCONF_CAPA_SUCCESS =>
      with_status PSYNC_SENT (request [lit "PSYNC"; repl_id r; to_string (repl_offset r)] r)
  | _ => r
  end.

(** [find("\r\n")] and [find("\r\n", from)]. *)
Fixpoint crlf_index (raw : list Z) : option nat :=
  match raw with
  | x :: (y :: _) as rest =>
      if (x =? CR) && (y =? LF) then Some 0%nat else S <$> crlf_index rest
  | _ => None
  end.
Definition find_crlf (raw : list Z) (from : nat) : option nat := Nat.add from <$> crlf_index (drop from raw).

Definition set_read_buffer (b : list Z) (r : SlaveReplicationClient) : SlaveReplicationClient :=
  with_base (with_read_buffer (fun _ => b)) r.

(** The snapshot behind the FULLRESYNC line: what is left behind it, or nothing
    when it is not all there yet. *)
Definition skip_rdb (buffer : list Z) : option (list Z) :=
  match buffer with
  | 36 :: _ =>
      length_end ← find_crlf buffer 1;
      let length_str := take (length_end - 1) (drop 1 buffer) in
      let '(ok, rdb_length) := convert_positive_string_to_number length_str in
      if (ok : bool) then
        let rdb_end := u64 (Z.of_nat (length_end + 2) + rdb_length) in
        if len buffer <? rdb_end then None else Some (drop (Z.to_nat rdb_end) buffer)
      else Some buffer
  | _ => Some buffer
  end.

Definition handle_handshake_read (r : SlaveReplicationClient) : SlaveReplicationClient :=
  let buffer := read_buffer (base r) in
  let '(status, response) := parse_simple_string buffer in
  let response := default [] response in
  if negb status then r
  else
    let answers st word := bool_decide (replication_status r = st) && is_equal response (lit word) in
    let advance st := set_read_buffer [] (prepare_handshake_write (set_read_buffer [] (with_status st r))) in
    if answers PING_SENT "PONG"%string then advance PING_SENT_SUCCESS
    else if answers REPLCONF_PORT_SENT "OK"%string then advance REPLCONF_PORT_SUCCESS
    else if answers REPLCONF_CAPA_SENT "OK"%string then advance REPLCONF_CAPA_SUCCESS
    else if bool_decide (replication_status r = PSYNC_SENT) then
      match find_crlf buffer 0 with
      | None => r
      | Some fullresync_end =>
          let buffer := drop (fullresync_end + 2) buffer in
          match skip_rdb buffer with
          | None => set_read_buffer buffer r
          | Some rest => with_completed true (with_status HANDSHAKE_SUCCESS (set_read_buffer rest r))
          end
      end
    else set_read_buffer [] r.

(** * The stream of commands *)
Section Commands.
Context (env : Env) (stod : list Z -> option spec_float).

(** One command, executed for the replica under a new reference.  The command is
    read again afterwards for its length; one that was queued is gone by then. *)
Definition execute_one (cmd : Command) (r : SlaveReplicationClient) : SM SlaveReplicationClient :=
  ref ← gets next_ref;
  update (with_next_ref S);;
  update (with_world (with_clients (<[ref := base r]>)));;
  update (with_world (with_ctx (fun _ => newContext ref (fd (base r)) (Some cmd))));;
  path ← gets (fun s => rdb_file_path (config s));
  on_world (execute env path);;
  client ← owner ref;
  cmd ← gets (fun s => command (ctx (world s)));
  cmd ← lift_s (of_option cmd);
  update (with_world (with_clients (delete ref)));;
  mret (with_base (fun _ => with_write_buffer (fun _ => []) client)
          (with_processed (fun n => i64 (n + bytes_processed cmd)) r)).

(** GETACK is answered with the bytes processed before it. *)
Definition acknowledge (cmd : Command) (r : SlaveReplicationClient) : SlaveReplicationClient :=
  with_processed (fun n => i64 (n + bytes_processed cmd))
    (request [lit "REPLCONF"; lit "ACK"; to_string (processed r)]
       (with_base (with_write_buffer (fun _ => [])) r)).

Definition is_getack (cmd : Command) : bool :=
  match args cmd with ReplConfCommand GETACK _ _ _ => true | _ => false end.

(** One command, already parsed. *)
Definition process_one (cmd : Command) (r : SlaveReplicationClient) : SM SlaveReplicationClient :=
  if is_getack cmd then mret (acknowledge cmd r) else execute_one cmd r.

(** Every iteration takes at least one byte from the buffer, so a fuel above its
    length is enough. *)
Fixpoint process_loop (fuel : nat) (r : SlaveReplicationClient) : SM SlaveReplicationClient :=
  match fuel with
  | O => fun _ => Stuck
  | S fuel =>
      if bool_decide (read_buffer (base r) = []) || negb (attached r) then mret r
      else
        p ← lift_s (parseCommand stod (MkRead (read_buffer (base r)) 0 0));
        let '(cmd, state) := p in
        let r := set_read_buffer (CommandParser.read_buffer state) r in
        if bool_decide (Command.type cmd = Command.UNKNOWN) then mret r
        else r ← process_one cmd r; process_loop fuel r
  end.

Definition process_commands (r : SlaveReplicationClient) : SM SlaveReplicationClient :=
  process_loop (S (length (read_buffer (base r)))) r.

Definition process_read_buffer (r : SlaveReplicationClient) : SM SlaveReplicationClient :=
  if negb (is_handshake_completed r) then
    let r := handle_handshake_read r in
    if is_handshake_completed r && negb (bool_decide (read_buffer (base r) = [])) then process_commands r
    else mret r
  else process_commands r.
End Commands.

(** * Lemmas: executing a command *)
Lemma execute_one_frame env cmd r s r' s' : execute_one env cmd r s = Done (r', s') ->
  read_buffer (base r') = read_buffer (base r) /\ attached r' = attached r /\
  processed r' = i64 (processed r + bytes_processed cmd).
Proof.
  unfold execute_one, gets, update, mbind, SM_bind.
  destruct (on_world _ _) as [[[] s1]|] eqn:E; [|done]. revert E. unfold on_world.
  set (s0 := with_world _ (with_world _ _)). destruct (execute env _ (world s0)) as [[[] w]|] eqn:E; [|done].
  intros [= <-]. apply frames_execute in E. unfold owner. cbn [with_world world].
  destruct (clients w !! next_ref s) as [x|] eqn:Ex; [|done].
  unfold lift_s, of_option. cbn. destruct (command (ctx w)) as [c|] eqn:Ec; cbn; [|done]. intros [= <- <-].
  cbn. split_and!; [|done|].
  - pose proof (fr_fixed _ _ E (next_ref s)) as F. rewrite Ex in F. subst s0. cbn in F.
    rewrite lookup_insert_eq in F. cbn in F. unfold fixed in F. by injection F.
  - destruct (fr_command _ _ E) as [F|F]; rewrite F in Ec; [|done]. subst s0. cbn in Ec. by injection Ec as ->.
Qed.

Lemma process_one_frame env cmd r s r' s' : process_one env cmd r s = Done (r', s') ->
  read_buffer (base r') = read_buffer (base r) /\ attached r' = attached r /\
  processed r' = i64 (processed r + bytes_processed cmd).
Proof.
  unfold process_one. destruct (is_getack cmd); [|apply execute_one_frame]. by intros [= <- <-].
Qed.

(** More fuel than bytes never changes the result. *)
Lemma process_loop_fuel env stod n : forall r s m,
  (length (read_buffer (base r)) < n)%nat -> (n <= m)%nat ->
  process_loop env stod m r s = process_loop env stod n r s.
Proof.
  induction n as [|n IH]; intros r s m Hn Hm; [lia|]. destruct m as [|m]; [lia|]. cbn [process_loop].
  destruct (_ || _); [done|].
  destruct (parseCommand stod _) as [[cmd st]|] eqn:E; [|done].
  rewrite 2!(bind_Done_S (lift_s (Done (cmd, st))) _ s (cmd, st) s eq_refl).
  destruct (decide (Command.type cmd = Command.UNKNOWN)) as [Eu|Eu];
    [by rewrite bool_decide_true|rewrite bool_decide_false by done]. unfold mbind, SM_bind.
  apply parseCommand_loop_shrinks in E as [E _]; [|done].
  destruct (process_one env cmd _ s) as [[r1 s1]|] eqn:E1; [|done].
  apply process_one_frame in E1 as (E1 & _). apply IH; [|lia]. rewrite E1. cbn. lia.
Qed.

(** * Lemmas: the stream of a master *)

Definition stream (dts : spec_float -> list Z) (cs : list Command) : list Z := concat (map (to_resp dts) cs).

(** A command as it arrives: the bytes it takes are those of its text. *)
Definition arrived (dts : spec_float -> list Z) (c : Command) : Command :=
  MkCommand (key c) (len (to_resp dts c)) (args c).

(** What a replica is meant to do: the commands one after the other, what is
    still unread being in its buffer. *)
Fixpoint run_stream (env : Env) (dts : spec_float -> list Z) (cs : list Command) (r : SlaveReplicationClient)
  : SM SlaveReplicationClient :=
  match cs with
  | [] => mret (set_read_buffer [] r)
  | c :: cs =>
      r ← process_one env (arrived dts c) (set_read_buffer (stream dts cs) r);
      run_stream env dts cs r
  end.

Lemma set_read_buffer_twice a b r : set_read_buffer a (set_read_buffer b r) = set_read_buffer a r.
Proof. by destruct r as [[]]. Qed.

Lemma set_read_buffer_id r : set_read_buffer (read_buffer (base r)) r = r.
Proof. by destruct r as [[]]. Qed.

Lemma sendable_known stod dts c : sendable stod dts c -> Command.type c <> Command.UNKNOWN.
Proof. destruct c as [k b a]; destruct a; try done; intros H; try done. Qed.

Lemma to_resp_nonempty stod dts c : sendable stod dts c -> to_resp dts c <> [].
Proof.
  intros H E. pose proof (sendable_reads_back _ _ _ H [] 0) as R. rewrite E in R.
  vm_compute in R. destruct c as [k b a]. injection R as _ <-. by apply sendable_known in H.
Qed.

Lemma process_loop_stream env stod dts cs : forall n r s,
  Forall (sendable stod dts) cs -> attached r = true -> (length (stream dts cs) < n)%nat ->
  process_loop env stod n (set_read_buffer (stream dts cs) r) s = run_stream env dts cs r s.
Proof.
  induction cs as [|c cs IH]; intros n r s Hcs Ha Hn; (destruct n as [|n]; [lia|]).
  - done.
  - apply Forall_cons in Hcs as [Hc Hcs]. cbn [process_loop run_stream].
    change (stream dts (c :: cs)) with (to_resp dts c ++ stream dts cs) in *.
    pose proof (to_resp_nonempty _ _ _ Hc) as Hne. cbn [set_read_buffer with_base base with_read_buffer read_buffer attached].
    rewrite bool_decide_false by (by intros [? _]%app_eq_nil). rewrite Ha. cbn [negb orb].
    rewrite (bind_Done_S _ _ s _ s (lift_eq _ _ _ (sendable_reads_back _ _ _ Hc _ _))).
    cbn [CommandParser.read_buffer]. rewrite bool_decide_false by (by apply (sendable_known stod dts)).
    fold (arrived dts c). rewrite set_read_buffer_twice. unfold mbind, SM_bind.
    destruct (process_one env (arrived dts c) _ s) as [[r1 s1]|] eqn:E; [|done].
    apply process_one_frame in E as (E & A & _). cbn in E. cbn in A.
    rewrite <- (IH n r1 s1 Hcs);
      [|congruence|rewrite length_app in Hn; destruct (to_resp dts c); [done|cbn in Hn; lia]].
    by rewrite <- E, set_read_buffer_id.
Qed.

Lemma run_stream_processed env dts cs : forall r s r' s',
  run_stream env dts cs r s = Done (r', s') -> is_i64 (processed r) ->
  read_buffer (base r') = [] /\ processed r' = i64 (processed r + len (stream dts cs)).
Proof.
  induction cs as [|c cs IH]; intros r s r' s'; cbn [run_stream].
  - intros [= <- <-] Hi. split; [done|]. cbn. by rewrite Z.add_0_r, i64_id.
  - unfold mbind, SM_bind. destruct (process_one _ _ _ s) as [[r1 s1]|] eqn:E; [|done].
    apply process_one_frame in E as (_ & _ & E). intros H Hi. apply IH in H as [H1 H2].
    + split; [done|]. rewrite H2, E. cbn [set_read_buffer with_base processed arrived bytes_processed].
      rewrite i64_add. change (stream dts (c :: cs)) with (to_resp dts c ++ stream dts cs).
      rewrite len_app. f_equal. lia.
    + rewrite E. apply i64_range.
Qed.

(** * Lemmas: the handshake *)
Lemma crlf_index_line s rest : cr_free s -> crlf_index (s ++ CRLF ++ rest) = Some (length s).
Proof.
  induction 1 as [|x s Hx Hs IH]; [done|]. cbn [app crlf_index length].
  destruct (s ++ CRLF ++ rest) as [|y l] eqn:E; [by destruct s|].
  rewrite IH. destruct (Z.eqb_spec x CR); [done|]. done.
Qed.

Lemma find_crlf_line a s rest : cr_free s ->
  find_crlf (a ++ s ++ CRLF ++ rest) (length a) = Some (length a + length s)%nat.
Proof. intros Hs. unfold find_crlf. by rewrite drop_app_length, crlf_index_line. Qed.

Lemma cr_free_app s t : cr_free s -> cr_free t -> cr_free (s ++ t).
Proof. apply Forall_app_2. Qed.

Lemma cr_free_digits n : 0 <= n <= UINT64_MAX -> cr_free (to_string n).
Proof. intros H. apply (plain_digits n H). Qed.

(** A whole snapshot is skipped; its bytes are not looked at. *)
Lemma skip_rdb_whole rdb rest : len rdb + 32 <= UINT64_MAX ->
  skip_rdb (lit "$" ++ to_string (len rdb) ++ CRLF ++ rdb ++ rest) = Some rest.
Proof.
  intros Hl. assert (H0 : 0 <= len rdb) by (unfold len; lia).
  assert (Hn : 0 <= len rdb <= UINT64_MAX) by (unfold UINT64_MAX in *; lia).
  set (n := to_string (len rdb)). set (buffer := lit "$" ++ n ++ CRLF ++ rdb ++ rest).
  unfold skip_rdb. change buffer with (36 :: n ++ CRLF ++ rdb ++ rest). cbv iota.
  change (36 :: n ++ CRLF ++ rdb ++ rest) with ([36] ++ n ++ CRLF ++ rdb ++ rest).
  change 1%nat with (length [36]) at 1. rewrite find_crlf_line by (by apply cr_free_digits).
  cbn [mbind option_bind length]. replace (1 + length n - 1)%nat with (length n) by lia.
  change (drop 1 ([36] ++ n ++ CRLF ++ rdb ++ rest)) with (n ++ CRLF ++ rdb ++ rest).
  rewrite take_app_length. subst n. rewrite convert_positive_to_string by done.
  set (n := to_string (len rdb)). assert (Hd : (length n <= 20)%nat).
  { subst n. rewrite to_string_nonneg by lia. pose proof (udec_length (len rdb) 20). unfold len, UINT64_MAX in *. lia. }
  rewrite u64_id by (unfold UINT64_MAX in *; lia).
  replace ([36] ++ n ++ CRLF ++ rdb ++ rest) with (([36] ++ n ++ CRLF ++ rdb) ++ rest) by (by rewrite <- !app_assoc).
  assert (E : Z.of_nat (1 + length n + 2) + len rdb = len ([36] ++ n ++ CRLF ++ rdb)).
  { rewrite !len_app. unfold len. cbn [length CRLF]. lia. }
  rewrite E. rewrite len_app. assert (0 <= len rest) by (unfold len; lia). destruct (Z.ltb_spec (len ([36] ++ n ++ CRLF ++ rdb) + len rest)
    (len ([36] ++ n ++ CRLF ++ rdb))); [lia|].
  unfold len at 1. by rewrite Nat2Z.id, drop_app_length.
Qed.

(** What a replica does with what it hears, and what it has written. *)
Definition hear (b : list Z) (r : SlaveReplicationClient) : SlaveReplicationClient :=
  handle_handshake_read (set_read_buffer (read_buffer (base r) ++ b) r).
Definition written (r : SlaveReplicationClient) : list Z := write_buffer (base r).

Definition line (s : list Z) : list Z := lit "+" ++ s ++ CRLF.
Definition array (words : list (list Z)) : list Z := header (len words) ++ concat (map bulk words).

Lemma fold_bulk_words words : forall b,
  fold_left encode_bulk_string words b = b ++ concat (map bulk words).
Proof.
  induction words as [|w words IH]; intros b; cbn [fold_left map concat]; [by rewrite app_nil_r|].
  rewrite IH, app_assoc. done.
Qed.

Lemma request_written words r : written (request words r) = written r ++ array words.
Proof.
  unfold written, request, array. cbn [with_base base with_write_buffer write_buffer].
  rewrite fold_bulk_words. unfold encode_array_header, header. by rewrite <- !app_assoc.
Qed.

Lemma hear_pong r : replication_status r = PING_SENT -> read_buffer (base r) = [] ->
  hear (line (lit "PONG")) r =
  with_status REPLCONF_PORT_SENT (request [lit "REPLCONF"; lit "listening-port"; to_string (slave_port r)] r).
Proof. destruct r as [[rb] st p c id off n a]. cbn [replication_status base read_buffer]. intros -> ->. reflexivity. Qed.

Lemma hear_port_ok r : replication_status r = REPLCONF_PORT_SENT -> read_buffer (base r) = [] ->
  hear (line (lit "OK")) r =
  with_status REPLCONF_CAPA_SENT (request [lit "REPLCONF"; lit "capa"; lit "psync2"] r).
Proof. destruct r as [[rb] st p c id off n a]. cbn [replication_status base read_buffer]. intros -> ->. reflexivity. Qed.

Lemma hear_capa_ok r : replication_status r = REPLCONF_CAPA_SENT -> read_buffer (base r) = [] ->
  hear (line (lit "OK")) r =
  with_status PSYNC_SENT (request [lit "PSYNC"; repl_id r; to_string (repl_offset r)] r).
Proof. destruct r as [[rb] st p c id off n a]. cbn [replication_status base read_buffer]. intros -> ->. reflexivity. Qed.

(** The FULLRESYNC line, followed by anything. *)
Lemma hear_fullresync r s rest : replication_status r = PSYNC_SENT -> read_buffer (base r) = [] -> cr_free s ->
  hear (line s ++ rest) r =
  match skip_rdb rest with
  | None => set_read_buffer rest r
  | Some rest => with_completed true (with_status HANDSHAKE_SUCCESS (set_read_buffer rest r))
  end.
Proof.
  intros Hst Hb Hs. unfold hear, handle_handshake_read. rewrite Hb.
  cbn [app set_read_buffer with_base base with_read_buffer read_buffer replication_status].
  assert (E : line s ++ rest = lit "+" ++ s ++ CRLF ++ rest) by (unfold line; by rewrite <- !app_assoc).
  rewrite E, parse_simple_line by done. rewrite Hst. cbn [negb].
  rewrite !(bool_decide_false (PSYNC_SENT = _)) by done. cbn [andb]. rewrite bool_decide_true by done.
  assert (Ef : find_crlf (lit "+" ++ s ++ CRLF ++ rest) 0 = Some (S (length s))).
  { rewrite app_assoc. apply (find_crlf_line [] (lit "+" ++ s)). by apply cr_free_app; [repeat constructor|]. }
  rewrite Ef. cbv iota.
  replace (drop _ _) with rest.
  2:{ symmetry. replace (lit "+" ++ s ++ CRLF ++ rest) with ((lit "+" ++ s ++ CRLF) ++ rest) by (by rewrite <- !app_assoc).
      apply drop_app_length'. rewrite !length_app. cbn. lia. }
  destruct (skip_rdb rest); by rewrite set_read_buffer_twice.
Qed.

(** * Properties *)

(** C13: The handshake completes.  Against a master that answers PONG, OK and OK, a
    replica that has sent PING goes through the states in order, writing the
    listening port, the capability and the PSYNC request and nothing else; and
    when the identity of the stream, the snapshot and any further bytes then
    arrive together, the handshake is complete, the snapshot is gone and exactly
    the further bytes are left for the command stream. *)
Theorem handshake_completes id rdb rest r0 :
  replication_status r0 = PING_SENT -> read_buffer (base r0) = [] ->
  cr_free id -> len rdb + 32 <= UINT64_MAX ->
  let r1 := hear (line (lit "PONG")) r0 in
  let r2 := hear (line (lit "OK")) r1 in
  let r3 := hear (line (lit "OK")) r2 in
  let r4 := hear (psync_reply id rdb ++ rest) r3 in
  written r1 = written r0 ++ array [lit "REPLCONF"; lit "listening-port"; to_string (slave_port r0)] /\
  written r2 = written r1 ++ array [lit "REPLCONF"; lit "capa"; lit "psync2"] /\
  written r3 = written r2 ++ array [lit "PSYNC"; repl_id r0; to_string (repl_offset r0)] /\
  replication_status r3 = PSYNC_SENT /\
  r4 = with_completed true (with_status HANDSHAKE_SUCCESS (set_read_buffer rest r3)).
Proof.
  intros Hst Hb Hid Hl r1 r2 r3 r4.
  assert (E1 : r1 = with_status REPLCONF_PORT_SENT
                      (request [lit "REPLCONF"; lit "listening-port"; to_string (slave_port r0)] r0))
    by (by apply hear_pong).
  assert (E2 : r2 = with_status REPLCONF_CAPA_SENT (request [lit "REPLCONF"; lit "capa"; lit "psync2"] r1))
    by (apply hear_port_ok; rewrite E1; [done|by destruct r0 as [[]]]).
  assert (E3 : r3 = with_status PSYNC_SENT (request [lit "PSYNC"; repl_id r0; to_string (repl_offset r0)] r2)).
  { subst r3. rewrite hear_capa_ok; rewrite E2, E1; [done..|by destruct r0 as [[]]]. }
  split_and!.
  - rewrite E1. apply (request_written _ r0).
  - rewrite E2. apply (request_written _ r1).
  - rewrite E3. apply (request_written _ r2).
  - by rewrite E3.
  - subst r4. unfold psync_reply.
    replace ((lit "+" ++ _) ++ rest) with (line (lit "FULLRESYNC " ++ id ++ lit " 0")
      ++ (lit "$" ++ to_string (len rdb) ++ CRLF ++ rdb ++ rest)) by (unfold line; by rewrite <- !app_assoc).
    rewrite hear_fullresync; [by rewrite skip_rdb_whole| | |].
    + by rewrite E3.
    + rewrite E3, E2, E1. by destruct r0 as [[]].
    + apply cr_free_app; [repeat constructor; done|]. apply cr_free_app; [done|repeat constructor; done].
Qed.

(** A new replica that has sent PING. *)
Definition r_ping : SlaveReplicationClient := prepare_handshake_write (set_db_and_config (newSlave 6380)).

Lemma handshake_completes_witness :
  let r3 := hear (line (lit "OK")) (hear (line (lit "OK")) (hear (line (lit "PONG")) r_ping)) in
  let r4 := hear (psync_reply (lit "8371") empty_rdb ++ lit "*1") r3 in
  is_handshake_completed r4 = true /\ read_buffer (base r4) = lit "*1".
Proof.
  destruct (handshake_completes (lit "8371") empty_rdb (lit "*1") r_ping eq_refl eq_refl
              ltac:(repeat constructor; discriminate) ltac:(vm_compute; discriminate)) as (_ & _ & _ & _ & E).
  cbv zeta. split; [exact (f_equal is_handshake_completed E)|exact (f_equal (fun r => read_buffer (base r)) E)].
Defined.

(** The replica runs what was sent to it.  If its buffer holds the texts of any
    commands of the printable classes, one after the other, [process_commands]
    does exactly what executing those commands in that order does, each counting
    the bytes of its text and GETACK being answered with the bytes before it; and
    when it completes the buffer is empty and the offset has grown by the length
    of the whole stream. *)
Theorem replica_runs_stream env stod dts cs r s :
  Forall (sendable stod dts) cs -> attached r = true -> is_i64 (processed r) ->
  process_commands env stod (set_read_buffer (stream dts cs) r) s = run_stream env dts cs r s /\
  forall r' s', process_commands env stod (set_read_buffer (stream dts cs) r) s = Done (r', s') ->
    read_buffer (base r') = [] /\ processed r' = i64 (processed r + len (stream dts cs)).
Proof.
  intros Hcs Ha Hi.
  assert (E : process_commands env stod (set_read_buffer (stream dts cs) r) s = run_stream env dts cs r s).
  { unfold process_commands. apply process_loop_stream; [done|done|]. cbn. lia. }
  split; [done|]. intros r' s'. rewrite E. intros H. by eapply run_stream_processed.
Qed.

Definition s_replica : Server :=
  MkServer (MkWorld newDB ∅ newACLManager (newContext 0%nat 0 None)) newManager newConfig ∅ [] 0%nat.
Definition r_ready : SlaveReplicationClient := with_completed true (with_status HANDSHAKE_SUCCESS r_ping).
Definition two_sets : list Command :=
  [MkCommand (lit "k") 0 (SetCommand (lit "v") None None); MkCommand (lit "k") 0 (SetCommand (lit "w") None None)].

Lemma two_sets_sendable stod dts : Forall (sendable stod dts) two_sets.
Proof.
  repeat constructor; try discriminate; vm_compute; discriminate.
Qed.

Lemma replica_runs_stream_witness :
  process_commands DbString.sample_env (fun _ => None) (set_read_buffer (stream (fun _ => []) two_sets) r_ready) s_replica
  = run_stream DbString.sample_env (fun _ => []) two_sets r_ready s_replica.
Proof.
  apply (replica_runs_stream DbString.sample_env (fun _ => None) (fun _ => []) two_sets r_ready s_replica).
  - apply two_sets_sendable.
  - reflexivity.
  - split; vm_compute; discriminate.
Defined.

(** * From the master to the replica *)
Lemma told_none {B} (raw : list Z) (l : list (B * cid)) c b : (forall f, (f, c) ∉ l) ->
  told snd (fun _ b => b ++ raw) l c b = b.
Proof.
  revert b. induction l as [|[f d] l IH]; intros b H; [done|]. unfold told in *. cbn [fold_left snd].
  destruct (decide (d = c)) as [->|]; [destruct (H f); by left|]. apply IH. intros g Hg. apply (H g). by right.
Qed.

Lemma told_once (raw : list Z) (l : list (Z * cid)) f c b : NoDup l -> (f, c) ∈ l ->
  (forall f', (f', c) ∈ l -> f' = f) -> told snd (fun _ b => b ++ raw) l c b = b ++ raw.
Proof.
  revert b. induction l as [|[g d] l IH]; intros b Hn Hi Hu; [set_solver|].
  apply NoDup_cons in Hn as [Hg Hn]. unfold told in *. cbn [fold_left snd].
  destruct (decide (d = c)) as [->|Hne].
  - apply told_none. intros f' Hf. assert (E1 : f' = f) by (apply Hu; by right).
    assert (E2 : g = f) by (apply Hu; by left). by subst.
  - apply elem_of_cons in Hi as [[= -> ->]|Hi]; [done|]. apply IH; [done|done|]. intros f' Hf. apply Hu. by right.
Qed.

(** A write command in the context: what one replica is given, and what stays. *)
Lemma propagate_write env cmd s f c b : connected s -> one_entry s -> command (ctx (world s)) = Some cmd ->
  slave_connections (manager s) !! f = Some c -> sent (world s) c = Some b -> is_write_command cmd = true ->
  exists s', propagateAndNotifySlaves env s = Done (tt, s') /\
    quiet (with_config (set_offset (fun o => u64 (o + bytes_processed cmd))) s) s' /\
    sent (world s') c = Some (b ++ to_resp (double_to_string env) cmd).
Proof.
  intros C U Hc Hf Hb Hw. destruct (handle_propagate_eq env s C) as (v & s1 & E1 & W1 & H).
  assert (Ef : forwarded s = Some cmd).
  { unfold forwarded. rewrite Hc. cbn. rewrite Hw, bool_decide_false; [done|]. intros E. by rewrite E, lookup_empty in Hf. }
  rewrite Ef in H. destruct H as [Q Hs].
  assert (C1 : connected s1) by (by eapply quiet_connected; [exact Q|]).
  exists (with_epoll (fun k => k ++ concat (map (wakeup (world s1)) (slaves s1))) s1). split_and!.
  - unfold propagateAndNotifySlaves. rewrite (bind_Done_S _ _ _ _ _ E1), (bind_Done_S _ _ s1 (slaves s1) s1) by done.
    by rewrite notify_all_eq by (by apply connected_slaves).
  - eapply quiet_trans; [exact Q|apply epoll_quiet].
  - cbn [with_epoll world]. rewrite Hs, Hb. cbn [fmap option_fmap option_map]. f_equal. apply (told_once _ _ f).
    + apply NoDup_map_to_list.
    + by apply elem_of_map_to_list.
    + intros g Hg%elem_of_map_to_list. by apply (U g f c).
Qed.

(** The master executes a write command, as far as replication goes. *)
Definition publish (env : Env) (cmd : Command) : SM unit :=
  update (with_world (with_ctx (set_command (Some cmd))));; propagateAndNotifySlaves env.

Lemma publish_eq env cmd s f c b : connected s -> one_entry s ->
  slave_connections (manager s) !! f = Some c -> sent (world s) c = Some b -> is_write_command cmd = true ->
  exists s', publish env cmd s = Done (tt, s') /\ connected s' /\ manager s' = manager s /\
    sent (world s') c = Some (b ++ to_resp (double_to_string env) cmd).
Proof.
  intros C U Hf Hb Hw. set (s0 := with_world (with_ctx (set_command (Some cmd))) s).
  destruct (propagate_write env cmd s0 f c b) as (s' & E & Q & S); [done..|].
  exists s'. split_and!; [done| |apply (q_manager _ _ Q)|done]. by eapply quiet_connected; [exact Q|].
Qed.

(** Replication end to end.  When a master executes any write commands of the
    printable classes one after the other, the bytes that every replica in its
    table has been given beyond what it was owed before are read by a replica
    whose handshake is complete as exactly those commands, in that order. *)
Theorem replication_end_to_end env renv stod cs s f c b :
  connected s -> one_entry s -> slave_connections (manager s) !! f = Some c -> sent (world s) c = Some b ->
  Forall (fun cmd => is_write_command cmd = true /\ sendable stod (double_to_string env) cmd) cs ->
  exists s' out, for_each_s (publish env) cs s = Done (tt, s') /\ sent (world s') c = Some (b ++ out) /\
    forall r sr, attached r = true ->
      process_commands renv stod (set_read_buffer out r) sr = run_stream renv (double_to_string env) cs r sr.
Proof.
  intros C U Hf Hb Hcs.
  assert (H : exists s', for_each_s (publish env) cs s = Done (tt, s') /\
            sent (world s') c = Some (b ++ stream (double_to_string env) cs)).
  { revert s b C U Hf Hb. induction Hcs as [|cmd cs [Hw _] _ IH]; intros s b C U Hf Hb; cbn [for_each_s].
    - exists s. by rewrite app_nil_r.
    - destruct (publish_eq env cmd s f c b C U Hf Hb Hw) as (s1 & E1 & C1 & M1 & S1).
      rewrite (bind_Done_S _ _ _ _ _ E1). destruct (IH s1 (b ++ to_resp (double_to_string env) cmd) C1) as (s' & E & S);
        [unfold one_entry; by rewrite M1|by rewrite M1|done|].
      exists s'. split; [done|]. rewrite S. by rewrite <- app_assoc. }
  destruct H as (s' & E & S). exists s', (stream (double_to_string env) cs). split_and!; [done|done|].
  intros r sr Ha. apply process_loop_stream; [|done|cbn; lia].
  eapply Forall_impl; [exact Hcs|]. by intros ? [].
Qed.

Lemma replication_end_to_end_witness :
  exists s' out, for_each_s (publish DbString.sample_env) two_sets s_prop = Done (tt, s') /\
    sent (world s') 2%nat = Some out /\
    process_commands DbString.sample_env (fun _ => None) (set_read_buffer out r_ready) s_replica
    = run_stream DbString.sample_env (double_to_string DbString.sample_env) two_sets r_ready s_replica.
Proof.
  destruct (replication_end_to_end DbString.sample_env DbString.sample_env (fun _ => None) two_sets s_prop 8 2%nat [])
    as (s' & out & E & S & H).
  - apply s_prop_connected.
  - intros f g c H1 H2. cbn in H1, H2. apply lookup_singleton_Some in H1 as [<- _].
    apply lookup_singleton_Some in H2 as [<- _]. reflexivity.
  - reflexivity.
  - reflexivity.
  - repeat constructor; try discriminate; vm_compute; discriminate.
  - exists s', out. split; [exact E|]. split; [exact S|]. apply H. reflexivity.
Defined.

(** * What goes wrong when the snapshot and its announcement are split *)
Lemma dollar_is_deaf r rest : read_buffer (base r) = 36 :: rest -> handle_handshake_read r = r.
Proof. intros E. unfold handle_handshake_read. rewrite E. done. Qed.

Lemma deaf_forever chunks : forall r rest,
  read_buffer (base r) = 36 :: rest -> is_handshake_completed r = false ->
  is_handshake_completed (fold_left (fun r b => hear b r) chunks r) = false.
Proof.
  induction chunks as [|b chunks IH]; intros r rest Hb Hc; cbn [fold_left]; [done|].
  assert (E : hear b r = set_read_buffer (36 :: rest ++ b) r).
  { unfold hear. rewrite Hb. by apply (dollar_is_deaf _ (rest ++ b)). }
  rewrite E. apply (IH _ (rest ++ b)); [done|exact Hc].
Qed.

(** The handshake can hang for good.  If the FULLRESYNC line comes with only the
    beginning of the snapshot, the line is removed and the rest is left for
    later; but whatever arrives later is then looked at as a reply that should
    begin with a plus sign, so that the handshake never completes. *)
Theorem partial_rdb_hangs r s part chunks :
  replication_status r = PSYNC_SENT -> read_buffer (base r) = [] -> is_handshake_completed r = false ->
  cr_free s -> skip_rdb (lit "$" ++ part) = None ->
  is_handshake_completed (fold_left (fun r b => hear b r) chunks (hear (line s ++ lit "$" ++ part) r)) = false.
Proof.
  intros Hst Hb Hc Hs Hp. rewrite hear_fullresync by done. rewrite Hp.
  by apply (deaf_forever chunks _ part).
Qed.

Definition r_psync : SlaveReplicationClient :=
  hear (line (lit "OK")) (hear (line (lit "OK")) (hear (line (lit "PONG")) r_ping)).

Lemma partial_rdb_hangs_witness :
  let '(first, second) := (line (lit "FULLRESYNC 8371 0") ++ lit "$18" ++ CRLF ++ take 4 empty_rdb, drop 4 empty_rdb) in
  is_handshake_completed (hear second (hear first r_psync)) = false.
Proof.
  exact (partial_rdb_hangs r_psync (lit "FULLRESYNC 8371 0") (lit "18" ++ CRLF ++ take 4 empty_rdb) [drop 4 empty_rdb]
           eq_refl eq_refl eq_refl ltac:(repeat constructor; discriminate) eq_refl).
Defined.

(** What arrives on the connection is put into the buffer and looked at, piece by
    piece. *)
Section Receive.
Context (env : Env) (stod : list Z -> option spec_float).

Definition receive (b : list Z) (r : SlaveReplicationClient) : SM SlaveReplicationClient :=
  process_read_buffer env stod (set_read_buffer (read_buffer (base r) ++ b) r).

Fixpoint receives (bs : list (list Z)) (r : SlaveReplicationClient) : SM SlaveReplicationClient :=
  match bs with
  | [] => mret r
  | b :: bs => r ← receive b r; receives bs r
  end.

(** A snapshot among the commands: it is skipped up to the first carriage return. *)
Lemma late_rdb_skipped r s n rdb digits rest :
  attached r = true -> 0 <= n <= UINT64_MAX -> cr_free rdb -> cr_free digits ->
  process_commands env stod
    (set_read_buffer (lit "$" ++ to_string n ++ CRLF ++ rdb ++ lit "*" ++ digits ++ CRLF ++ rest) r) s
  = Done (set_read_buffer (CRLF ++ rest) r, s).
Proof.
  intros Ha Hn Hr Hd. set (buf := lit "$" ++ to_string n ++ CRLF ++ rdb ++ lit "*" ++ digits ++ CRLF ++ rest).
  set (skip := (1 + length (to_string n ++ CRLF) + length (rdb ++ lit "*" ++ digits))%nat).
  assert (Hbuf : buf = ([36] ++ (to_string n ++ CRLF)) ++ (rdb ++ lit "*" ++ digits) ++ CR :: LF :: rest).
  { subst buf. change (CR :: LF :: rest) with (CRLF ++ rest). rewrite <- !app_assoc. done. }
  assert (Hp : Parse buf 0 = (MkToken BULK_STRING (1 + length (to_string n ++ CRLF)) (skip - 1) n, (skip + 2)%nat)).
  { unfold Parse. pose proof (calculate_length_at [36] n (rdb ++ lit "*" ++ digits ++ CRLF ++ rest) Hn) as Hc.
    change ([36] ++ to_string n ++ _) with buf in Hc. change (buf !! 0%nat) with (Some 36). cbv iota.
    change 1%nat with (length [36]) at 1. rewrite Hc. cbv zeta iota.
    assert (Ht : to_CR (drop (length [36] + length (to_string n ++ CRLF)) buf) = length (rdb ++ lit "*" ++ digits)).
    { rewrite Hbuf, drop_app_length' by done. apply to_CR_free.
      apply cr_free_app; [done|]. apply cr_free_app; [repeat constructor; discriminate|done]. }
    rewrite Ht. done. }
  assert (Hskip : drop (skip - 1 + 1) buf = CRLF ++ rest).
  { rewrite Hbuf, app_assoc. apply drop_app_length'. subst skip.
    rewrite (length_app _ (rdb ++ lit "*" ++ digits)), (length_app [36]). cbn [length].
    rewrite (length_app rdb), (length_app (lit "*")). change (length (lit "*")) with 1%nat. lia. }
  unfold process_commands. cbn [set_read_buffer with_base base with_read_buffer read_buffer process_loop attached].
  rewrite bool_decide_false by done. rewrite Ha. cbn [negb orb].
  assert (E : parseCommand stod (MkRead buf 0 0) = Done (MkCommand [] 0 UnknowCommand, MkRead (CRLF ++ rest) 0 0)).
  { unfold parseCommand. cbn [CommandParser.read_buffer]. change (length buf) with (S (length (tail buf))).
    cbn [parseCommand_loop CommandParser.read_buffer current_read_position command_bytes].
    rewrite Hp. cbn [Parser.type end_pos]. by rewrite Hskip. }
  rewrite (bind_Done_S _ _ s _ s (lift_eq _ _ _ E)). cbn [CommandParser.read_buffer].
  rewrite bool_decide_true by done. by rewrite set_read_buffer_twice.
Qed.

(** A buffer that starts with a carriage return is never understood. *)
Lemma CR_is_deaf r s chunks : forall rest,
  attached r = true -> is_handshake_completed r = true ->
  receives chunks (set_read_buffer (CRLF ++ rest) r) s
  = Done (set_read_buffer (CRLF ++ rest ++ concat chunks) r, s).
Proof.
  induction chunks as [|b chunks IH]; intros rest Ha Hc; cbn [receives concat]; [by rewrite app_nil_r|].
  rewrite (bind_Done_S _ _ s (set_read_buffer (CRLF ++ rest ++ b) r) s).
  - rewrite IH by done. by rewrite <- app_assoc.
  - unfold receive. rewrite set_read_buffer_twice. unfold process_read_buffer.
    cbn [set_read_buffer with_base base with_read_buffer read_buffer is_handshake_completed]. rewrite Hc. cbn [negb].
    rewrite <- app_assoc. unfold process_commands.
    cbn [set_read_buffer with_base base with_read_buffer read_buffer process_loop attached].
    rewrite bool_decide_false by done. rewrite Ha. cbn [negb orb].
    assert (E : forall l, parseCommand stod (MkRead (CRLF ++ l) 0 0)
                          = Done (MkCommand [] 0 UnknowCommand, MkRead (CRLF ++ l) 0 0)) by done.
    rewrite (bind_Done_S _ _ s _ s (lift_eq _ _ _ (E _))). cbn [CommandParser.read_buffer].
    rewrite bool_decide_true by done. by rewrite set_read_buffer_twice.
Qed.
End Receive.

(** C26: A snapshot that comes after the handshake hides everything behind it.  Let a
    replica that has asked for the stream receive the FULLRESYNC line alone: the
    handshake is then complete, with nothing left unread.  Let the next piece hold the
    snapshot, in which there is no carriage return, and the beginning of a command, at
    least its first line.  The snapshot and that line are skipped together, the buffer
    is left starting with a carriage return, and from then on, whatever else
    arrives, in whatever pieces, it is only added to the buffer: nothing is ever
    executed, answered or counted. *)
Theorem late_rdb_hides_commands env stod r s answer n rdb digits rest chunks :
  replication_status r = PSYNC_SENT -> read_buffer (base r) = [] -> is_handshake_completed r = false ->
  attached r = true -> cr_free answer -> 0 <= n <= UINT64_MAX -> cr_free rdb -> cr_free digits ->
  let late := lit "$" ++ to_string n ++ CRLF ++ rdb ++ lit "*" ++ digits ++ CRLF ++ rest in
  let r1 := with_completed true (with_status HANDSHAKE_SUCCESS r) in
  receive env stod (line answer) r s = Done (r1, s) /\
  receives env stod (line answer :: late :: chunks) r s
  = Done (set_read_buffer (CRLF ++ rest ++ concat chunks) r1, s).
Proof.
  intros Hst Hb Hc Ha Hl Hn Hr Hd late r1.
  assert (E1 : receive env stod (line answer) r s = Done (r1, s)).
  { unfold receive, process_read_buffer. cbn [set_read_buffer with_base is_handshake_completed]. rewrite Hc. cbn [negb].
    pose proof (hear_fullresync r answer [] Hst Hb Hl) as E. rewrite app_nil_r in E. unfold hear in E.
    fold (set_read_buffer (read_buffer (base r) ++ line answer) r). rewrite E. cbn [skip_rdb].
    subst r1. destruct r as [[]]. cbn in Hb |- *. by subst. }
  split; [done|]. cbn [receives]. rewrite (bind_Done_S _ _ _ _ _ E1).
  rewrite (bind_Done_S _ _ s (set_read_buffer (CRLF ++ rest) r1) s); [by apply CR_is_deaf|].
  unfold receive. replace (read_buffer (base r1)) with (@nil Z) by (by destruct r as [[]]). cbn [app].
  unfold process_read_buffer. cbn [set_read_buffer with_base is_handshake_completed r1 with_completed negb].
  by apply late_rdb_skipped.
Qed.

Lemma late_rdb_hides_commands_witness :
  let command := lit "*1" ++ CRLF ++ lit "$4" ++ CRLF ++ lit "PING" ++ CRLF in
  exists r', receives DbString.sample_env (fun _ => None)
      [line (lit "FULLRESYNC 8371 0"); lit "$18" ++ CRLF ++ empty_rdb ++ command; command] r_psync s_replica
    = Done (r', s_replica) /\
    read_buffer (base r') = CRLF ++ lit "$4" ++ CRLF ++ lit "PING" ++ CRLF ++ command /\ processed r' = 0.
Proof.
  cbv zeta. eexists. split; [|split].
  - refine (proj2 (late_rdb_hides_commands DbString.sample_env (fun _ => None) r_psync s_replica
             (lit "FULLRESYNC 8371 0") 18 empty_rdb (lit "1") (lit "$4" ++ CRLF ++ lit "PING" ++ CRLF)
             [lit "*1" ++ CRLF ++ lit "$4" ++ CRLF ++ lit "PING" ++ CRLF]
             eq_refl eq_refl eq_refl eq_refl _ _ _ _)); first [split; vm_compute; discriminate | repeat constructor; discriminate].
  - vm_compute. reflexivity.
  - vm_compute. reflexivity.
Defined.
