(* ===== verification/MasterConnection.v ===== *)
(** [src/master-connection.h], [src/master-connection.cpp]: a replica's connection
    to its master, between the event loop and the replication client.  What the
    kernel answers to [read] and [write] is an argument, as in [Connection.v]. *)
From Stdlib Require Import SpecFloat.
From S2P Require Import Prelude Utils Command Parser CommandParser.
From S2P Require Import Acl World Db Connection Replication SlaveReplication.

(** [disconnected]: the disconnect callback was called. *)
Record MasterConnection := MkMaster {
  slave_client : option SlaveReplicationClient;
  is_connected : bool;
  has_callback : bool;
  disconnected : bool
}.

Definition with_slave r (m : MasterConnection) : MasterConnection := MkMaster (Some r) (is_connected m) (has_callback m) (disconnected m).

Definition with_fd (f : Z) (c : Client) : Client :=
  MkClient (read_buffer c) (write_buffer c) (flags c) (queued_commands c) f (isslave c)
    (replica_offset c) (total_subscribed_channels c) (user c) (is_authenticated c).

(** The constructor; [sockfd] is what [connect_client] gave, if it succeeded. *)
Definition make (sockfd : option Z) (slave_port : Z) : SM MasterConnection :=
  match sockfd with
  | Some sockfd =>
      let slave := set_db_and_config (with_base (with_fd sockfd) (newSlave slave_port)) in
      epoll (Register sockfd WRITE_EVENT);;
      mret (MkMaster (Some (prepare_handshake_write slave)) true false false)
  | None => mret (MkMaster None false false false)
  end.

Definition getfd (m : MasterConnection) : Z := match slave_client m with Some r => fd (base r) | None => -1 end.

Definition setDisconnectCallback (m : MasterConnection) : MasterConnection := MkMaster (slave_client m) (is_connected m) true (disconnected m).

Definition handleClose (m : MasterConnection) : SM MasterConnection :=
  if negb (is_connected m) then mret m
  else
    epoll (Remove (getfd m));;
    mret (MkMaster (with_base (with_fd (-1)) <$> slave_client m) false (has_callback m)
             (disconnected m || has_callback m)).

Section Handlers.
Context (env : Env) (stod : list Z -> option spec_float).

(** [handleRead]: what was read, and how the last read ended. *)
Definition handleRead (chunks : list (list Z)) (last : ReadEnd) (m : MasterConnection) : SM MasterConnection :=
  match slave_client m with
  | None => mret m
  | Some r =>
      let r := set_read_buffer (read_buffer (base r) ++ concat chunks) r in
      match last with
      | Failed => handleClose (with_slave r m)
      | Closed => mret (with_slave r m)
      | WouldBlock =>
          r ← process_read_buffer env stod r;
          (if has_data_to_write r then epoll (Update (fd (base r)) WRITE_EVENT)
           else epoll (Update (fd (base r)) READ_EVENT));;
          mret (with_slave r m)
      end
  end.
End Handlers.

(** [handleWrite]: the bytes that went out. *)
Definition handleWrite (results : list WriteResult) (m : MasterConnection) : SM (list Z * MasterConnection) :=
  match slave_client m with
  | None => mret ([], m)
  | Some r =>
      let data := write_buffer (base r) in
      e ← lift_s (write_loop (length data) 0 results);
      let '(written_total, e) := e in
      let keep b := with_slave (with_base (with_write_buffer (fun _ => b)) r) m in
      match e with
      | Blocked => mret (take written_total data, keep (drop written_total data))
      | WriteError => mret (take written_total data, m)
      | AllWritten =>
          epoll (Update (fd (base r)) READ_EVENT);;
          mret (take written_total data, keep [])
      end
  end.

Definition send (data : list Z) (m : MasterConnection) : SM MasterConnection :=
  match slave_client m with
  | None => mret m
  | Some r =>
      if bool_decide (data = []) then mret m
      else
        epoll (Update (fd (base r)) (Z.lor READ_EVENT WRITE_EVENT));;
        mret (with_slave (with_base (with_write_buffer (fun b => b ++ data)) r) m)
  end.

(** * Properties *)

(** A replica that reads during the handshake is then registered for what it
    needs: for writing when the state machine has produced a request, for reading
    when it waits for more; the data base is not touched before the handshake is
    complete. *)
Theorem handshake_event env stod chunks m r s :
  slave_client m = Some r ->
  let r' := hear (concat chunks) r in
  is_handshake_completed r = false -> is_handshake_completed r' = false ->
  handleRead env stod chunks WouldBlock m s =
    Done (with_slave r' m,
          with_epoll (fun l => l ++ [Update (fd (base r'))
                                       (if bool_decide (write_buffer (base r') = []) then READ_EVENT else WRITE_EVENT)]) s).
Proof.
  intros Hr r' Hc Hc'. unfold handleRead. rewrite Hr.
  unfold process_read_buffer. change (is_handshake_completed (set_read_buffer _ r)) with (is_handshake_completed r).
  rewrite Hc. cbn [negb]. fold (hear (concat chunks) r). fold r'. rewrite Hc'. cbn [andb].
  rewrite (bind_Done_S (mret r') _ s r' s eq_refl). unfold has_data_to_write.
  by destruct (bool_decide _).
Qed.

Definition m_ping : MasterConnection := MkMaster (Some r_ping) true true false.

Lemma handshake_event_witness :
  exists m' s', handleRead DbString.sample_env (fun _ => None) [lit "+PO"; lit "NG" ++ CRLF] WouldBlock m_ping s_replica
                = Done (m', s') /\ epoll_calls s' = [Update 0 WRITE_EVENT].
Proof.
  eexists _, _. split.
  - exact (handshake_event DbString.sample_env (fun _ => None) [lit "+PO"; lit "NG" ++ CRLF] m_ping r_ping s_replica
             eq_refl eq_refl eq_refl).
  - reflexivity.
Defined.

(** An orderly close by the master is not noticed: the replica keeps what it had
    read without looking at it, stays connected, calls no one and asks the event
    loop for nothing.  Only a failed read ends the connection. *)
Theorem master_close_is_ignored env stod chunks m r s :
  slave_client m = Some r ->
  handleRead env stod chunks Closed m s =
    Done (with_slave (set_read_buffer (read_buffer (base r) ++ concat chunks) r) m, s) /\
  (is_connected m = true ->
   exists m' s', handleRead env stod chunks Failed m s = Done (m', s') /\
     is_connected m' = false /\ disconnected m' = disconnected m || has_callback m /\
     epoll_calls s' = epoll_calls s ++ [Remove (fd (base r))]).
Proof.
  intros Hr. unfold handleRead. rewrite Hr. split; [done|]. intros Hc.
  unfold handleClose. cbn [with_slave is_connected]. rewrite Hc. cbn [negb].
  eexists _, _. split; [reflexivity|]. by split_and!.
Qed.

Lemma master_close_is_ignored_witness :
  handleRead DbString.sample_env (fun _ => None) [lit "+PONG" ++ CRLF] Closed m_ping s_replica
  = Done (with_slave (set_read_buffer (lit "+PONG" ++ CRLF) r_ping) m_ping, s_replica).
Proof.
  exact (proj1 (master_close_is_ignored DbString.sample_env (fun _ => None) [lit "+PONG" ++ CRLF] m_ping r_ping
                  s_replica eq_refl)).
Defined.
