(* ===== verification/Server.v ===== *)
(** [src/server.cpp]: the server as a machine driven by the event loop: a new
    connection, a request from parsing to flushing, and the clock's pass over the
    blocked clients.  The invariant of the whole server and what a request does
    are proved here from the theorems of the parts. *)
From Stdlib Require Import SpecFloat.
From S2P Require Import Prelude Utils Rdb Command Parser CommandParser ParserProgress Acl.
From S2P Require Import World DbString DbList Db Invariant Frame Connection Replication.

Section Server.
Context (env : Env) (stod : list Z -> option spec_float) (read_file : list Z -> option (list Z)).

(** A client with the default user; [default_user] is the object it refers to. *)
Definition logged_in (default_user : nat) (u : User) (fd : Z) : Client :=
  with_user (Some default_user) (nopass u || bool_decide (passwords u = [])) (newClient fd).

(** The connection takes the descriptor's place in the table, which destroys a
    connection that was there. *)
Definition onNewConnection (fd : Z) : SM unit :=
  m ← gets (fun s => acl (world s));
  let default_user := getDefaultUser m in
  u ← lift_s (of_option (deref m default_user));
  ref ← gets next_ref;
  update (with_next_ref S);;
  old ← gets (fun s => active_connections s !! fd);
  update (with_world (with_clients (fun cs =>
    <[ref := logged_in default_user u fd]> (match old with Some c => delete c cs | None => cs end))));;
  update (with_connections (<[fd := ref]>));;
  epoll (Register fd READ_EVENT).

(** [active_connections[fd]], flushed when there is one. *)
Definition flush_fd (fd : Z) : SM unit :=
  conn ← gets (fun s => active_connections s !! fd);
  match conn with Some conn => flush conn | None => mret tt end.

Definition flush_ready (c : cid) : SM unit :=
  p ← on_world (lock c);
  match p with Some x => flush_fd (fd x) | None => mret tt end.

(** The context for a request, parsed: the command and the buffer behind it. *)
Definition read_command (conn : cid) (fd : Z) : SM unit :=
  update (with_world (with_ctx (fun _ => newContext conn fd None)));;
  x ← owner conn;
  p ← lift_s (parseCommand stod (MkRead (read_buffer x) 0 0));
  let '(cmd, state) := p in
  on_world (update_client conn (with_read_buffer (fun _ => CommandParser.read_buffer state)));;
  update (with_world (with_ctx (set_command (Some cmd)))).

Definition processClientRequest (conn : cid) : SM unit :=
  x ← owner conn;
  let fd := fd x in
  client ← gets (fun s => active_connections s !! fd);
  match client with
  | None => mret tt
  | Some client =>
      read_command client fd;;
      status ← handle env read_file;
      (if (status : bool) then mret tt
       else
         path ← gets (fun s => rdb_file_path (config s));
         on_world (execute env path);;
         propagateAndNotifySlaves env);;
      ctx ← gets (fun s => ctx (world s));
      (if negb (isBlocked ctx) then flush client else mret tt);;
      (if negb (unblocked_client_fd ctx =? -1) then flush_fd (unblocked_client_fd ctx) else mret tt);;
      for_each_s flush_ready (ready_to_write_clients ctx)
  end.

Definition handle_expired_blocked_clients : SM unit :=
  expired_fds ← on_world (check_and_expire_blocked_clients env);
  for_each_s flush_fd expired_fds;;
  expired_wait_fds ← check_and_expire_blocked_wait_clients env;
  for_each_s flush_fd expired_wait_fds.

(** How long the event loop may sleep. *)
Definition next_timeout (s : Server) : outcome Z :=
  timeout_ms ← get_next_timeout_ms env (db (world s));
  wait_timeout_ms ← get_next_wait_timeout_ms env (manager s);
  mret (if 0 <=? wait_timeout_ms then
          if timeout_ms <? 0 then wait_timeout_ms else Z.min timeout_ms wait_timeout_ms
        else timeout_ms).

(** What the event loop reports: a connection was accepted; there was input, or
    room for output, on a connection. *)
Inductive Event :=
| Accepted (fd : Z)
| Readable (conn : cid) (chunks : list (list Z)) (last : ReadEnd)
| Writable (conn : cid) (results : list WriteResult).

Definition handle_event (e : Event) : SM unit :=
  match e with
  | Accepted fd => onNewConnection fd
  | Readable conn chunks last => handleRead processClientRequest conn chunks last
  | Writable conn results => handleWrite conn results;; mret tt
  end.
End Server.

(** The beginning of [run]: the snapshot, when one is configured.  A file that
    does not exist is created empty. *)
Definition load_snapshot (env : Env) (read_file : list Z -> option (list Z)) : SM unit :=
  config ← gets config;
  if bool_decide (rdb_file_path config = []) || bool_decide (rdb_file_name config = []) then mret tt
  else on_world (Rdb.parse env (default [] (read_file (rdb_file_path config ++ lit "/" ++ rdb_file_name config)))).

(** One turn of [run]: the sleep, the events, each with the time it is handled
    at, and the clock's pass. *)
Definition turn (env : Env) (stod : list Z -> option spec_float) (read_file : list Z -> option (list Z))
    (events : list (Env * Event)) : SM unit :=
  timeout ← (fun s => t ← next_timeout env s; mret (t, s));
  for_each_s (fun e => handle_event e.1 stod read_file e.2) events;;
  handle_expired_blocked_clients env.

Definition newServer (config : ServerConfig) : Server :=
  MkServer (MkWorld newDB ∅ newACLManager (newContext 0%nat 0 None)) newManager config ∅ [] 1%nat.

(** * The invariant of the server *)

(** The world's invariant; the connection table and the heap of clients agree;
    replicas are connections under their own descriptors; the context's
    descriptor is its client's. *)
Record SInv (s : Server) : Prop := {
  si_world : Inv (world s);
  si_active f c : active_connections s !! f = Some c -> exists x, clients (world s) !! c = Some x /\ fd x = f;
  si_clients (c : cid) x : clients (world s) !! c = Some x ->
    active_connections s !! fd x = Some c /\ (c < next_ref s)%nat;
  si_slaves f c : slave_connections (manager s) !! f = Some c ->
    exists x, clients (world s) !! c = Some x /\ fd x = f;
  si_ctx x : clients (world s) !! client (ctx (world s)) = Some x -> fd x = client_fd (ctx (world s));
  si_ref : (client (ctx (world s)) < next_ref s)%nat
}.

Lemma SInv_connected s : SInv s -> connected s.
Proof. intros [] f c H. destruct (si_slaves0 f c H) as (x & -> & _). eauto. Qed.

(** The input of a client that it has not looked at yet. *)
Definition unread (s : Server) (c : cid) : option (list Z) := read_buffer <$> clients (world s) !! c.

(** Every completed run keeps the invariant, everybody's unread input and the
    users there are. *)
Record kept (s s' : Server) : Prop := {
  kept_inv : SInv s -> SInv s';
  kept_unread c : unread s' c = unread s c;
  kept_users u : is_Some (deref (acl (world s)) u) -> is_Some (deref (acl (world s')) u)
}.

Definition skeeps {A} (m : SM A) : Prop := forall s a s', m s = Done (a, s') -> kept s s'.

Lemma kept_refl s : kept s s.
Proof. by split. Qed.
Lemma kept_trans s1 s2 s3 : kept s1 s2 -> kept s2 s3 -> kept s1 s3.
Proof. intros [] []. split; [auto| |auto]. intros c. by rewrite kept_unread1. Qed.

Lemma skeeps_ret {A} (a : A) : skeeps (mret a).
Proof. intros s b s' [= _ <-]. apply kept_refl. Qed.
Lemma skeeps_bind {A B} (m : SM A) (f : A -> SM B) : skeeps m -> (forall a, skeeps (f a)) -> skeeps (m ≫= f).
Proof.
  intros Hm Hf s b s' E. unfold mbind, SM_bind in E. destruct (m s) as [[a s1]|] eqn:E1; [|done].
  eapply kept_trans; [by eapply Hm|by eapply Hf].
Qed.
Lemma skeeps_gets {A} (f : Server -> A) : skeeps (gets f).
Proof. intros s b s' [= _ <-]. apply kept_refl. Qed.
Lemma skeeps_lift {A} (m : outcome A) : skeeps (lift_s m).
Proof. intros s b s'. unfold lift_s. destruct m; [|done]. intros [= _ <-]. apply kept_refl. Qed.
Lemma skeeps_epoll e : skeeps (epoll e).
Proof. intros s b s' [= _ <-]. split; [|done|done]. intros []. by split. Qed.
Lemma skeeps_getClient c : skeeps (getClient c).
Proof. intros s b s'. unfold getClient. destruct (clients _ !! c); [|done]. intros [= _ <-]. apply kept_refl. Qed.
Lemma skeeps_owner c : skeeps (owner c).
Proof. intros s b s'. unfold owner. destruct (clients _ !! c); [|done]. intros [= _ <-]. apply kept_refl. Qed.

(** A change of the world that keeps its invariant and every descriptor. *)
Lemma SInv_world s w : SInv s -> Inv w ->
  client (ctx w) = client (ctx (world s)) -> client_fd (ctx w) = client_fd (ctx (world s)) ->
  (forall c, fd <$> clients w !! c = fd <$> clients (world s) !! c) ->
  SInv (with_world (fun _ => w) s).
Proof.
  intros [] Hw Hc Hf Hk.
  assert (Hd : forall c x, clients w !! c = Some x -> exists y, clients (world s) !! c = Some y /\ fd y = fd x).
  { intros c x Hx. specialize (Hk c). rewrite Hx in Hk. destruct (clients (world s) !! c) as [y|]; [|done].
    exists y. split; [done|]. by injection Hk. }
  assert (Hu : forall c x, clients (world s) !! c = Some x -> exists y, clients w !! c = Some y /\ fd y = fd x).
  { intros c x Hx. specialize (Hk c). rewrite Hx in Hk. destruct (clients w !! c) as [y|]; [|done].
    exists y. split; [done|]. by injection Hk. }
  split; cbn [with_world world manager active_connections next_ref]; [done|..].
  - intros f c H. destruct (si_active0 f c H) as (x & Hx & <-). destruct (Hu c x Hx) as (y & ? & ?). eauto.
  - intros c x Hx. destruct (Hd c x Hx) as (y & Hy & <-). by apply si_clients0.
  - intros f c H. destruct (si_slaves0 f c H) as (x & Hx & <-). destruct (Hu c x Hx) as (y & ? & ?). eauto.
  - intros x Hx. rewrite Hc in Hx. destruct (Hd _ x Hx) as (y & Hy & <-). rewrite Hf. by apply si_ctx0.
  - by rewrite Hc.
Qed.

Lemma skeeps_world {A} (m : M A) : keeps m -> frames m -> skeeps (on_world m).
Proof.
  intros Hk Hf s b s'. unfold on_world. destruct (m (world s)) as [[a w]|] eqn:E; [|done].
  intros [= _ <-]. pose proof (Hf _ _ _ E) as F. split.
  - intros H. apply SInv_world; [done| |apply F|apply F|]; [eapply Hk, E; apply H|].
    intros c. pose proof (fr_fixed _ _ F c) as G.
    destruct (clients w !! c), (clients (world s) !! c); try done. cbn in *. injection G as _ G _ _. by rewrite G.
  - intros c. unfold unread. cbn. pose proof (fr_fixed _ _ F c) as G.
    destruct (clients w !! c), (clients (world s) !! c); try done. cbn in *. injection G as G _ _ _. by rewrite G.
  - apply F.
Qed.

(** A change of one client's other fields. *)
Lemma SInv_client c f s w :
  (forall x, user (f x) = user x) -> (forall x, queued_commands (f x) = queued_commands x) ->
  (forall x, fd (f x) = fd x) -> update_client c f (world s) = Done (tt, w) ->
  SInv s -> SInv (with_world (fun _ => w) s).
Proof.
  intros Hu Hq Hf E H. assert (Hw : Inv w).
  { eapply (keeps_client c f Hu); [|apply H|exact E]. intros x. by rewrite Hq. }
  unfold update_client in E. destruct (clients (world s) !! c) eqn:Ec; [|done]. injection E as <-.
  apply SInv_world; [done|done|done|done|]. intros c'. cbn [with_clients clients].
  destruct (decide (c' = c)) as [->|Hne]; [|by rewrite lookup_alter_ne].
  rewrite lookup_alter_eq, Ec. cbn. by rewrite Hf.
Qed.

Lemma skeeps_client c f :
  (forall x, user (f x) = user x) -> (forall x, queued_commands (f x) = queued_commands x) ->
  (forall x, fd (f x) = fd x) -> (forall x, read_buffer (f x) = read_buffer x) ->
  skeeps (on_world (update_client c f)).
Proof.
  intros Hu Hq Hf Hr s b s'. unfold on_world.
  destruct (update_client c f (world s)) as [[[] w]|] eqn:E; [|done]. intros [= _ <-]. split.
  - by apply (SInv_client c f).
  - unfold update_client in E. destruct (clients (world s) !! c) eqn:Ec; [|done]. injection E as <-.
    intros c'. unfold unread. cbn. destruct (decide (c' = c)) as [->|Hne]; [|by rewrite lookup_alter_ne].
    rewrite lookup_alter_eq, Ec. cbn. by rewrite Hr.
  - unfold update_client in E. destruct (clients (world s) !! c); [|done]. by injection E as <-.
Qed.

Lemma skeeps_self f :
  (forall x, user (f x) = user x) -> (forall x, queued_commands (f x) = queued_commands x) ->
  (forall x, fd (f x) = fd x) -> (forall x, read_buffer (f x) = read_buffer x) ->
  skeeps (on_world (update_self f)).
Proof.
  intros Hu Hq Hf Hr s b s' E. apply (skeeps_client (client (ctx (world s))) f Hu Hq Hf Hr s b s').
  rewrite <- E. reflexivity.
Qed.

Lemma skeeps_reply f : skeeps (on_world (reply f)).
Proof. by apply skeeps_self. Qed.
Lemma skeeps_write c f : skeeps (on_world (write_to c f)).
Proof. by apply skeeps_client. Qed.
Lemma skeeps_lock c : skeeps (on_world (lock c)).
Proof. apply skeeps_world; [apply keeps_lock|apply frames_get]. Qed.
Lemma skeeps_cast {A} (v : Command -> option A) : skeeps (on_world (cast_command v)).
Proof. apply skeeps_world; [apply keeps_cast|apply frames_cast]. Qed.
Lemma skeeps_isBlocked : skeeps (on_world (modify_ctx set_isBlocked)).
Proof. apply skeeps_world; [apply keeps_ctx|apply frames_isBlocked]. Qed.
Lemma skeeps_unblocked n : skeeps (on_world (modify_ctx (set_unblocked n))).
Proof. apply skeeps_world; [apply keeps_ctx|apply frames_unblocked]. Qed.

Lemma skeeps_for_each {A} (f : A -> SM unit) l : (forall x, skeeps (f x)) -> skeeps (for_each_s f l).
Proof.
  intros Hf. induction l as [|x l IH]; cbn [for_each_s]; [apply skeeps_ret|]. apply skeeps_bind; [apply Hf|].
  by intros _.
Qed.

Lemma skeeps_blocked_wait l : skeeps (set_blocked_wait l).
Proof. intros s b s' [= _ <-]. split; [|done|done]. intros []. by split. Qed.
Lemma skeeps_config f : skeeps (update (with_config f)).
Proof. intros s b s' [= _ <-]. split; [|done|done]. intros []. by split. Qed.
Lemma skeeps_command cmd : skeeps (update (with_world (with_ctx (set_command cmd)))).
Proof.
  intros s b s' [= _ <-]. split; [|done|done]. intros H. destruct (world s) as [d cl ac k] eqn:Ew.
  pose proof H as []. rewrite Ew in *. split; cbn in *; try rewrite Ew in *; try done.
  destruct si_world0. by split.
Qed.
Lemma skeeps_remove f : skeeps (removeSlaveConnection f).
Proof.
  intros s b s' [= _ <-]. split; [|done|done]. intros []. split; try done.
  cbn. intros g c [_ H]%lookup_delete_Some. by apply si_slaves0.
Qed.

Create HintDb skeeps.
#[export] Hint Resolve skeeps_ret skeeps_gets skeeps_lift skeeps_epoll skeeps_getClient skeeps_owner
  skeeps_reply skeeps_write skeeps_lock skeeps_cast skeeps_isBlocked skeeps_unblocked skeeps_blocked_wait
  skeeps_config skeeps_command skeeps_remove : skeeps.

Ltac skeep :=
  lazymatch goal with
  | |- skeeps (_ ≫= _) => apply skeeps_bind; [skeep | intros; skeep]
  | |- skeeps (let _ := _ in _) => cbv zeta; skeep
  | |- skeeps (match ?x with _ => _ end) => destruct x; skeep
  | |- skeeps (for_each_s _ _) => apply skeeps_for_each; intros; skeep
  | |- _ => first [ solve [eauto with skeeps] | idtac ]
  end.

(** ** The loader *)

(** What every completed call of the loader does to the world. *)
Definition loader (R : World -> World -> Prop) {A} (m : L A) : Prop := forall io w,
  match m io w with Loaded _ _ w' => R w w' | Threw w' => R w w' | _ => True end.

Create HintDb loader.

Section Loader.
Context (env : Env) (R : World -> World -> Prop).
Context (R_refl : forall w, R w w) (R_trans : forall w1 w2 w3, R w1 w2 -> R w2 w3 -> R w1 w3).
Context (R_store : forall key value expiry w w', store_key env key value expiry w = Done (tt, w') -> R w w').
Abbreviation loader := (loader R).

Lemma loader_ret {A} (a : A) : loader (mret a).
Proof. intros io w. apply R_refl. Qed.
Lemma loader_undefined {A} : loader (@undefined A).
Proof. by intros io w. Qed.
Lemma loader_exhausted {A} : loader (@exhausted A).
Proof. by intros io w. Qed.
Lemma loader_bind {A B} (m : L A) (f : A -> L B) : loader m -> (forall a, loader (f a)) -> loader (m ≫= f).
Proof.
  intros Hm Hf io w. specialize (Hm io w). unfold mbind, L_bind. destruct (m io w) as [a io' w'|w'| |]; try done.
  specialize (Hf a io' w'). destruct (f a io' w'); try done; eauto.
Qed.
Lemma loader_read n : loader (read n).
Proof.
  intros io w. unfold read. destruct (_ <? n); [|destruct (failed io); [|destruct (n <=? _)]]; apply R_refl.
Qed.
Lemma loader_seek n : loader (seekBackRead n).
Proof. intros io w. unfold seekBackRead. destruct (failed io); [|destruct (n <=? _)%nat]; apply R_refl. Qed.
Lemma loader_store key value expiry : loader (on_db (store_key env key value expiry)).
Proof.
  intros io w. unfold on_db. destruct (store_key _ _ _ _ w) as [[[] w']|] eqn:E; [|done]. by eapply R_store.
Qed.
Lemma loader_fuel {A} (m : nat -> L A) : (forall n, loader (m n)) -> loader (with_fuel m).
Proof. intros H io w. apply H. Qed.
Hint Resolve loader_ret loader_undefined loader_exhausted loader_read loader_seek loader_store : loader.

Ltac load :=
  lazymatch goal with
  | |- loader (_ ≫= _) => apply loader_bind; [load | intros; load]
  | |- loader (let _ := _ in _) => cbv zeta; load
  | |- loader (match ?x with _ => _ end) => destruct x; load
  | |- _ => first [ solve [eauto with loader] | idtac ]
  end.

Lemma loader_getLength b : loader (getLength b).
Proof. unfold getLength. load. Qed.
Hint Resolve loader_getLength : loader.
Lemma loader_parseString : loader parseString.
Proof. unfold parseString, parseNormalString, getSpecialString, getInteger. load. Qed.
Hint Resolve loader_parseString : loader.

Lemma loader_parse_file : loader (parse_file env).
Proof.
  assert (H1 : forall n, loader (parseMetadata_loop n)) by (induction n; cbn [parseMetadata_loop]; load).
  assert (H2 : forall n, loader (parseKeys_loop env n))
    by (induction n; cbn [parseKeys_loop]; unfold parseExpiry; load).
  assert (H3 : forall n, loader (databases_loop env n)).
  { induction n; cbn [databases_loop]; unfold parseDatabase, select_db, read_byte; load. by apply loader_fuel. }
  unfold parse_file, parseHeader, parseMetadata. load; by apply loader_fuel.
Qed.

Lemma loader_parse file w w' : Rdb.parse env file w = Done (tt, w') -> R w w'.
Proof.
  unfold Rdb.parse. pose proof (loader_parse_file (open_file file) w) as H.
  destruct (parse_file env (open_file file) w); try done; by intros [= <-].
Qed.
End Loader.

Lemma frames_parse env file : frames (Rdb.parse env file).
Proof.
  intros w [] w' H. eapply (loader_parse env framed); [apply framed_refl|apply framed_trans| |exact H].
  intros key value expiry w1 w2. assert (K : frames (store_key env key value expiry)).
  { unfold store_key, setWithExpiry, DbString.set. frame. }
  apply K.
Qed.

Lemma keeps_parse env file : keeps (Rdb.parse env file).
Proof.
  intros w [] w' Hw H. revert Hw. eapply (loader_parse env (fun w w' => Inv w -> Inv w')); [auto|auto| |exact H].
  intros key value expiry w1 w2 E Hw. assert (K : keeps (DbString.set key value)).
  { unfold DbString.set. apply keeps_bind; [apply keeps_put|]. intros _. apply keeps_db.
    intros d He k [t Ht]. cbn in Ht. apply lookup_delete_Some in Ht as [_ Ht]. apply He. eauto. }
  destruct expiry as [e|]; cbn [store_key] in E; [|by eapply K].
  unfold setWithExpiry in E. unfold mbind at 1, M_bind at 1 in E.
  destruct (DbString.set key value w1) as [[[] w3]|] eqn:E3; [|done].
  assert (H3 : Inv w3) by (by eapply K).
  assert (Hk : is_Some (store (db w3) !! key)).
  { injection E3 as <-. cbn. rewrite lookup_insert_eq. eauto. }
  unfold World.lift, mbind, M_bind, outcome_bind, mret, outcome_ret in E.
  repeat match type of E with context [checked ?v] => destruct (checked v); [|done] end.
  injection E as <-. destruct H3. split; try done. intros k. cbn.
  destruct (decide (k = key)) as [->|Hne]; [done|]. rewrite lookup_insert_ne by done. apply inv_expiring.
Qed.

(** ** The parts *)
Section Parts.
Context (env : Env) (stod : list Z -> option spec_float) (read_file : list Z -> option (list Z)).

Lemma skeeps_flush c : skeeps (flush c).
Proof. unfold flush. skeep. Qed.
Hint Resolve skeeps_flush : skeeps.

Lemma skeeps_count off l : forall n, skeeps (count_acked off l n).
Proof. induction l as [|c l IH]; intros n; cbn [count_acked]; skeep. Qed.
Lemma skeeps_acked off : skeeps (acked_replicas off).
Proof. unfold acked_replicas. skeep. apply skeeps_count. Qed.
Hint Resolve skeeps_acked : skeeps.

Lemma skeeps_check_loop l : skeeps (check_loop l).
Proof. induction l as [|it l IH]; cbn [check_loop]; skeep. Qed.
Lemma skeeps_replconf : skeeps handle_replconf.
Proof.
  unfold handle_replconf, check_blocked_wait_clients. skeep; [by apply skeeps_self|apply skeeps_check_loop].
Qed.

Lemma skeeps_psync : skeeps (handle_psync read_file).
Proof.
  unfold handle_psync. do 3 (apply skeeps_bind; [skeep|intros ?; cbv zeta]).
  intros s b s' E.
  destruct (clients (world s) !! client (ctx (world s))) as [x|] eqn:Ex.
  2:{ rewrite bind_Stuck_S in E; [done|]. unfold on_world, self. by rewrite Ex. }
  rewrite (bind_Done_S _ _ s x s) in E by (unfold on_world, self; rewrite Ex; by destruct s).
  destruct (isslave x); [injection E as _ <-; apply kept_refl|].
  destruct (on_world (update_self (with_isslave true)) s) as [[u s1]|] eqn:E1;
    [|by rewrite (bind_Stuck_S _ _ _ E1) in E].
  rewrite (bind_Done_S _ _ _ _ _ E1) in E.
  assert (K : kept s s1) by (by eapply skeeps_self, E1). eapply kept_trans; [exact K|].
  injection E as _ <-. split; [|done|done]. intros [].
  unfold on_world, update_self, mbind, M_bind, get in E1. rewrite (update_client_eq _ _ _ _ Ex) in E1.
  injection E1 as _ <-. split; try done.
  cbn [with_manager manager slave_connections]. intros f c.
  destruct (decide (f = client_fd (ctx (world s)))) as [->|Hne]; cbn.
  - rewrite lookup_insert_eq. intros [= <-]. exists (with_isslave true x).
    split; [by rewrite lookup_alter_eq, Ex|]. apply si_ctx0. cbn. by rewrite lookup_alter_eq, Ex.
  - rewrite lookup_insert_ne by done. apply si_slaves0.
Qed.

Lemma skeeps_wait : skeeps (handle_wait env).
Proof. unfold handle_wait, send_to_slave. skeep. Qed.

Lemma skeeps_handle : skeeps (handle env read_file).
Proof.
  unfold handle, handle_info. skeep; auto using skeeps_replconf, skeeps_psync, skeeps_wait.
Qed.

Lemma skeeps_expire_loop l : skeeps (expire_loop env l).
Proof. induction l as [|it l IH]; cbn [expire_loop]; skeep. Qed.

Lemma skeeps_propagate_loop raw l : skeeps (propagate_loop raw l).
Proof. induction l as [|[f c] l IH]; cbn [propagate_loop]; skeep. Qed.
Lemma skeeps_propagate : skeeps (propagateAndNotifySlaves env).
Proof.
  unfold propagateAndNotifySlaves, handle_propagate, notify. skeep. apply skeeps_propagate_loop.
Qed.

Lemma skeeps_flush_fd f : skeeps (flush_fd f).
Proof. unfold flush_fd. skeep. Qed.
Hint Resolve skeeps_flush_fd : skeeps.

Lemma skeeps_load : skeeps (load_snapshot env read_file).
Proof. unfold load_snapshot. skeep. apply skeeps_world; [apply keeps_parse|apply frames_parse]. Qed.

Lemma skeeps_clock : skeeps (handle_expired_blocked_clients env).
Proof.
  unfold handle_expired_blocked_clients, check_and_expire_blocked_wait_clients. skeep.
  - apply skeeps_world; [apply keeps_expire|apply frames_expire].
  - apply skeeps_expire_loop.
Qed.
End Parts.

(** ** Requests and events *)

(** A context for the connection of a descriptor. *)
Lemma SInv_context s f c cmd : SInv s -> active_connections s !! f = Some c ->
  SInv (with_world (with_ctx (fun _ => newContext c f cmd)) s).
Proof.
  intros [] Hf. destruct (si_active0 f c Hf) as (x & Hx & Ef). split; try done.
  - destruct si_world0. by split.
  - intros y Hy. cbn in Hy. rewrite Hx in Hy. by injection Hy as <-.
  - apply (si_clients0 c x Hx).
Qed.

Lemma read_command_eq stod conn f s x cmd st :
  clients (world s) !! conn = Some x ->
  parseCommand stod (MkRead (read_buffer x) 0 0) = Done (cmd, st) ->
  read_command stod conn f s =
    Done (tt, with_world (fun w => with_ctx (fun _ => newContext conn f (Some cmd))
      (with_clients (alter (with_read_buffer (fun _ => CommandParser.read_buffer st)) conn) w)) s).
Proof.
  intros Hx Hp. unfold read_command.
  set (s1 := with_world (with_ctx (fun _ => newContext conn f None)) s).
  rewrite (bind_Done_S _ _ s tt s1) by done. rewrite (bind_Done_S _ _ s1 x s1) by (by apply owner_eq).
  rewrite (bind_Done_S _ _ _ _ _ (lift_eq _ s1 _ Hp)).
  unfold on_world. rewrite (bind_Done_S _ _ s1 tt
    (with_world (with_clients (alter (with_read_buffer (fun _ => CommandParser.read_buffer st)) conn)) s1)); [done|].
  cbn [world s1 with_world]. by rewrite (update_client_eq _ _ _ x).
Qed.

Lemma read_command_stuck stod conn f s x : clients (world s) !! conn = Some x ->
  parseCommand stod (MkRead (read_buffer x) 0 0) = Stuck -> read_command stod conn f s = Stuck.
Proof.
  intros Hx Hp. unfold read_command.
  set (s1 := with_world (with_ctx (fun _ => newContext conn f None)) s).
  rewrite (bind_Done_S _ _ s tt s1) by done. rewrite (bind_Done_S _ _ s1 x s1) by (by apply owner_eq).
  apply bind_Stuck_S. unfold lift_s. by rewrite Hp.
Qed.

Lemma read_command_SInv stod conn f s s' : SInv s -> active_connections s !! f = Some conn ->
  read_command stod conn f s = Done (tt, s') -> SInv s'.
Proof.
  intros H Hf E. destruct (si_active _ H _ _ Hf) as (x & Hx & _).
  destruct (parseCommand stod (MkRead (read_buffer x) 0 0)) as [[cmd st]|] eqn:Hp.
  - rewrite (read_command_eq _ _ _ _ _ _ _ Hx Hp) in E. injection E as <-.
    apply (SInv_context (with_world (with_clients (alter (with_read_buffer (fun _ => CommandParser.read_buffer st)) conn)) s));
      [|done].
    eapply (SInv_client conn (with_read_buffer (fun _ => CommandParser.read_buffer st)) s); [done..| |exact H].
    apply (update_client_eq _ _ _ _ Hx).
  - unfold read_command in E. set (s1 := with_world (with_ctx (fun _ => newContext conn f None)) s) in E.
    rewrite (bind_Done_S _ _ s tt s1) in E by done. rewrite (bind_Done_S _ _ s1 x s1) in E by (by apply owner_eq).
    rewrite bind_Stuck_S in E; [done|]. unfold lift_s. by rewrite Hp.
Qed.

Section Requests.
Context (env : Env) (stod : list Z -> option spec_float) (read_file : list Z -> option (list Z)).

(** A request once the command is parsed. *)
Definition after_parsing (client : cid) : SM unit :=
  status ← handle env read_file;
  (if (status : bool) then mret tt
   else
     path ← gets (fun s => rdb_file_path (config s));
     on_world (execute env path);;
     propagateAndNotifySlaves env);;
  ctx ← gets (fun s => ctx (world s));
  (if negb (isBlocked ctx) then flush client else mret tt);;
  (if negb (unblocked_client_fd ctx =? -1) then flush_fd (unblocked_client_fd ctx) else mret tt);;
  for_each_s flush_ready (ready_to_write_clients ctx).

Lemma skeeps_after_parsing c : skeeps (after_parsing c).
Proof.
  unfold after_parsing, flush_ready. skeep; auto using skeeps_handle, skeeps_propagate, skeeps_flush, skeeps_flush_fd.
  apply skeeps_world; [apply keeps_execute|apply frames_execute].
Qed.

Lemma request_eq conn s x c : clients (world s) !! conn = Some x -> active_connections s !! fd x = Some c ->
  processClientRequest env stod read_file conn s = (read_command stod c (fd x);; after_parsing c) s.
Proof.
  intros Hx Hc. unfold processClientRequest. rewrite (bind_Done_S _ _ _ _ _ (owner_eq _ _ _ Hx)). cbv zeta.
  rewrite (bind_Done_S _ _ s (active_connections s !! fd x) s) by done. by rewrite Hc.
Qed.

Lemma request_SInv conn s s' : SInv s -> processClientRequest env stod read_file conn s = Done (tt, s') -> SInv s'.
Proof.
  intros H E. destruct (clients (world s) !! conn) as [x|] eqn:Hx.
  2:{ unfold processClientRequest in E. rewrite bind_Stuck_S in E; [done|]. unfold owner. by rewrite Hx. }
  destruct (si_clients _ H _ _ Hx) as [Ha _]. rewrite (request_eq conn s x conn Hx Ha) in E.
  unfold mbind, SM_bind in E. destruct (read_command stod conn (fd x) s) as [[[] s1]|] eqn:E1; [|done].
  apply (kept_inv s1 s'); [by eapply skeeps_after_parsing|]. by eapply read_command_SInv.
Qed.

Lemma skeeps_handleWrite conn results : skeeps (handleWrite conn results).
Proof. unfold handleWrite, handleError. skeep. Qed.

Lemma handleRead_SInv conn last chunks s s' : SInv s ->
  handleRead (processClientRequest env stod read_file) conn chunks last s = Done (tt, s') -> SInv s'.
Proof.
  intros H E. destruct (clients (world s) !! conn) as [x|] eqn:Hx.
  - rewrite (handleRead_eq _ _ _ _ _ _ Hx) in E. set (s1 := with_world _ s) in E.
    assert (H1 : SInv s1).
    { eapply (SInv_client conn (with_read_buffer (fun b => b ++ concat chunks)) s); [done..| |exact H].
      rewrite (update_client_eq _ _ _ _ Hx). do 2 f_equal. unfold with_clients. f_equal.
      apply map_eq. intros i. destruct (decide (i = conn)) as [->|Hne].
      - by rewrite lookup_alter_eq, lookup_insert_eq, Hx.
      - by rewrite lookup_alter_ne, lookup_insert_ne. }
    destruct last; cbn [handleRead] in E.
    + by eapply request_SInv, E.
    + assert (K : skeeps (handleError conn)) by (unfold handleError; skeep). by apply (kept_inv s1); [eapply K, E|].
    + assert (K : skeeps (handleClose conn)) by (unfold handleClose; skeep). by apply (kept_inv s1); [eapply K, E|].
  - destruct chunks as [|b chunks].
    + destruct last; cbn [handleRead] in E; revert E;
        unfold processClientRequest, handleError, handleClose;
        rewrite bind_Stuck_S by (unfold owner; by rewrite Hx); done.
    + cbn [handleRead] in E. rewrite bind_Stuck_S in E; [done|]. unfold on_world, update_client. by rewrite Hx.
Qed.

(** The kernel never hands out a descriptor that is open. *)
Definition fresh (s : Server) (e : Event) : Prop :=
  match e with Accepted fd => active_connections s !! fd = None | _ => True end.

Lemma onNewConnection_SInv f s s' : SInv s -> active_connections s !! f = None ->
  onNewConnection f s = Done (tt, s') -> SInv s'.
Proof.
  intros H Hf E. unfold onNewConnection in E. rewrite (bind_Done_S _ _ s (acl (world s)) s) in E by done. cbv zeta in E.
  destruct (deref (acl (world s)) (getDefaultUser (acl (world s)))) as [u|] eqn:Eu.
  2:{ rewrite bind_Stuck_S in E; done. }
  rewrite (bind_Done_S _ _ s u s) in E by done. rewrite (bind_Done_S _ _ s (next_ref s) s) in E by done.
  rewrite (bind_Done_S _ _ s tt (with_next_ref S s)) in E by done.
  rewrite (bind_Done_S _ _ _ None (with_next_ref S s)) in E by (unfold gets; cbn; by rewrite Hf).
  injection E as <-. pose proof H as [].
  assert (Hn : clients (world s) !! next_ref s = None).
  { destruct (clients (world s) !! next_ref s) as [x|] eqn:Ex; [|done].
    destruct (si_clients0 _ _ Ex) as [_ ?]. lia. }
  assert (Hold : forall c y, clients (world s) !! c = Some y -> c <> next_ref s) by (intros c y Hy ->; congruence).
  split; cbn.
  - destruct si_world0. split; cbn; [done|done| |].
    + intros c y v. destruct (decide (c = next_ref s)) as [->|Hne].
      * rewrite lookup_insert_eq. intros [= <-]. cbn. intros [= <-]. by exists u.
      * rewrite lookup_insert_ne by done. apply inv_user.
    + intros c y. destruct (decide (c = next_ref s)) as [->|Hne].
      * rewrite lookup_insert_eq. intros [= <-]. constructor.
      * rewrite lookup_insert_ne by done. apply inv_queue.
  - intros g c. destruct (decide (g = f)) as [->|Hne].
    + rewrite lookup_insert_eq. intros [= <-]. eexists. by rewrite lookup_insert_eq.
    + rewrite lookup_insert_ne by done. intros Hg. destruct (si_active0 g c Hg) as (y & Hy & ?).
      exists y. by rewrite lookup_insert_ne by (by apply not_eq_sym, (Hold c y)).
  - intros c y. destruct (decide (c = next_ref s)) as [->|Hne].
    + rewrite lookup_insert_eq. intros [= <-]. cbn. rewrite lookup_insert_eq. split; [done|lia].
    + rewrite lookup_insert_ne by done. intros Hy. destruct (si_clients0 c y Hy) as [Ha ?].
      rewrite lookup_insert_ne by (intros ->; by rewrite Hf in Ha). split; [done|lia].
  - intros g c Hg. destruct (si_slaves0 g c Hg) as (y & Hy & ?). exists y.
    by rewrite lookup_insert_ne by (by apply not_eq_sym, (Hold c y)).
  - intros y. rewrite lookup_insert_ne by lia. apply si_ctx0.
  - lia.
Qed.

Lemma handle_event_SInv e s s' : SInv s -> fresh s e ->
  handle_event env stod read_file e s = Done (tt, s') -> SInv s'.
Proof.
  intros H Hf E. destruct e as [f|conn chunks last|conn results]; cbn [handle_event] in E.
  - by eapply onNewConnection_SInv.
  - by eapply handleRead_SInv.
  - apply (kept_inv s); [|done]. assert (K : skeeps (handleWrite conn results;; mret tt))
      by (skeep; apply skeeps_handleWrite). by eapply K.
Qed.
End Requests.

(** The states the server can be in: any configuration at the start, any snapshot
    file, events in any order with any input and at any time, the clock's pass at
    any time. *)
Inductive reachable : Server -> Prop :=
| reach_start config : reachable (newServer config)
| reach_event env stod read_file e s s' :
    reachable s -> fresh s e -> handle_event env stod read_file e s = Done (tt, s') -> reachable s'
| reach_load env read_file s s' :
    reachable s -> load_snapshot env read_file s = Done (tt, s') -> reachable s'
| reach_clock env s s' :
    reachable s -> handle_expired_blocked_clients env s = Done (tt, s') -> reachable s'.

(** * Properties *)
Lemma newServer_SInv config : SInv (newServer config).
Proof.
  split; cbn; try (intros; by rewrite lookup_empty in *); try lia.
  split; cbn; try (intros; by rewrite lookup_empty in *); [by intros k []|apply newACLManager_wf].
Qed.

(** The invariant of the whole server.  In every state that can be reached from
    the start, by any sequence of events, requests and passes of the clock that
    complete, the data base's invariant holds, the connection table and the set of
    clients correspond one to one by descriptor, every replica in the replication
    table is an existing connection under its own descriptor (no pointer kept
    there dangles, none is there twice), and the context is its client's. *)
Theorem server_invariant s : reachable s -> SInv s /\ connected s /\ one_entry s.
Proof.
  intros H. assert (I : SInv s).
  { induction H as [config|env stod rf e s s' _ IH Hf E|env rf s s' _ IH E|env s s' _ IH E].
    - apply newServer_SInv.
    - by eapply handle_event_SInv.
    - apply (kept_inv s); [by eapply skeeps_load|done].
    - apply (kept_inv s); [by eapply skeeps_clock|done]. }
  split_and!; [done|by apply SInv_connected|].
  intros f g c Hf Hg. destruct (si_slaves _ I f c Hf) as (x & Hx & <-).
  destruct (si_slaves _ I g c Hg) as (y & Hy & <-). congruence.
Qed.

(** A server with one connection that has PINGed. *)
Definition ping_text : list Z := to_resp (fun _ => []) (MkCommand [] 0 PingCommand).
Definition s_one : Server := after (onNewConnection 7) (newServer newConfig).
Definition s_pinged : Server :=
  after (handle_event DbString.sample_env (fun _ => None) (fun _ => None) (Readable 1%nat [ping_text] WouldBlock)) s_one.

Lemma s_one_reachable : reachable s_one.
Proof.
  apply (reach_event DbString.sample_env (fun _ => None) (fun _ => None) (Accepted 7) (newServer newConfig));
    [constructor|reflexivity|vm_compute; reflexivity].
Qed.

Lemma server_invariant_witness : SInv s_pinged /\ sent (world s_pinged) 1%nat = Some (lit "+PONG" ++ CRLF).
Proof.
  split; [|vm_compute; reflexivity].
  refine (proj1 (server_invariant s_pinged _)).
  apply (reach_event DbString.sample_env (fun _ => None) (fun _ => None) (Readable 1%nat [ping_text] WouldBlock) s_one);
    [exact s_one_reachable|exact I|vm_compute; reflexivity].
Defined.

(** The state a request runs its command in: the client keeps [rest] unread. *)
Definition parsed_state (conn : cid) (x : Client) (cmd : Command) (rest : list Z) (s : Server) : Server :=
  with_world (fun w => with_ctx (fun _ => newContext conn (fd x) (Some cmd))
    (with_clients (<[conn := with_read_buffer (fun _ => rest) x]>) w)) s.

Lemma read_event_eq env stod read_file conn chunks s x cmd st :
  clients (world s) !! conn = Some x -> active_connections s !! fd x = Some conn ->
  parseCommand stod (MkRead (read_buffer x ++ concat chunks) 0 0) = Done (cmd, st) ->
  handle_event env stod read_file (Readable conn chunks WouldBlock) s
  = after_parsing env read_file conn (parsed_state conn x cmd (CommandParser.read_buffer st) s).
Proof.
  intros Hx Ha Hp. cbn [handle_event]. rewrite (handleRead_eq _ _ _ _ _ _ Hx). set (s0 := with_world _ s).
  assert (Hx0 : clients (world s0) !! conn = Some (with_read_buffer (fun b => b ++ concat chunks) x))
    by (cbn; by rewrite lookup_insert_eq).
  cbn [handleRead]. rewrite (request_eq env stod read_file conn s0 _ conn Hx0) by done.
  rewrite (bind_Done_S _ _ _ _ _ (read_command_eq _ _ _ _ _ _ _ Hx0 Hp)). f_equal.
  destruct s as [[d cl a k] mg c ac e n]. unfold parsed_state, with_world, with_ctx, with_clients. cbn. f_equal. f_equal.
  apply map_eq. intros i. destruct (decide (i = conn)) as [->|Hne].
  - by rewrite lookup_alter_eq, !lookup_insert_eq.
  - by rewrite lookup_alter_ne, !lookup_insert_ne.
Qed.

(** C28: One event, one command.  When a connection becomes readable, however much is
    read and however many commands are in it, the parser is called once, on what
    earlier events left unread followed by what has just been read; the one command
    it answers is run, and what it left in the buffer is what is unread when the
    event is over, to be looked at when more input arrives.  If the input starts
    with the text of a well-formed command ([sendable]) then that command is run and
    everything behind it is left.  If it starts with a command whose name is not
    known then nothing is left: the commands behind it are lost. *)
Theorem request_takes_one_command env stod read_file conn chunks s s' x :
  clients (world s) !! conn = Some x -> active_connections s !! fd x = Some conn ->
  handle_event env stod read_file (Readable conn chunks WouldBlock) s = Done (tt, s') ->
  let input := read_buffer x ++ concat chunks in
  exists cmd st, parseCommand stod (MkRead input 0 0) = Done (cmd, st) /\
    after_parsing env read_file conn (parsed_state conn x cmd (CommandParser.read_buffer st) s) = Done (tt, s') /\
    unread s' conn = Some (CommandParser.read_buffer st) /\
    (forall dts c rest, sendable stod dts c -> input = to_resp dts c ++ rest ->
       cmd = MkCommand (key c) (len (to_resp dts c)) (args c) /\ unread s' conn = Some rest) /\
    (forall n name body, 1 <= n < 2 ^ 31 -> plain name -> (forall buf, parse_named stod buf name n = None) ->
       input = header n ++ bulk name ++ body ->
       args cmd = UnknowCommand /\ unread s' conn = Some []).
Proof.
  intros Hx Ha E input. destruct (parseCommand stod (MkRead input 0 0)) as [[cmd st]|] eqn:Hp.
  2:{ exfalso. cbn [handle_event] in E. rewrite (handleRead_eq _ _ _ _ _ _ Hx) in E. set (s0 := with_world _ s) in E.
      assert (Hx0 : clients (world s0) !! conn = Some (with_read_buffer (fun b => b ++ concat chunks) x))
        by (cbn; by rewrite lookup_insert_eq).
      cbn [handleRead] in E. rewrite (request_eq env stod read_file conn s0 _ conn Hx0), bind_Stuck_S in E; [done| |done].
      by apply (read_command_stuck _ _ _ _ _ Hx0). }
  rewrite (read_event_eq _ _ _ _ _ _ _ _ _ Hx Ha Hp) in E.
  assert (U : unread s' conn = Some (CommandParser.read_buffer st)).
  { pose proof (skeeps_after_parsing _ _ _ _ _ _ E) as K. rewrite (kept_unread _ _ K). unfold unread. cbn.
    by rewrite lookup_insert_eq. }
  exists cmd, st. split_and!; [done..| |].
  - intros dts c rest Hs Hi. pose proof (sendable_reads_back _ _ _ Hs rest 0) as P.
    rewrite <- Hi, Hp in P. injection P as -> ->. by rewrite U.
  - intros n name body Hn Hname Hu Hi.
    destruct (unknown_name_clears_buffer stod n name body 0 Hn Hname Hu) as [k P].
    rewrite <- Hi, Hp in P. injection P as -> ->. by rewrite U.
Qed.

Definition s_two_pings : Server :=
  after (on_world (update_client 1%nat (with_read_buffer (fun _ => ping_text ++ ping_text)))) s_one.

Lemma request_takes_one_command_witness :
  unread (after (handle_event DbString.sample_env (fun _ => None) (fun _ => None)
                   (Readable 1%nat [take 5 ping_text; drop 5 ping_text ++ ping_text] WouldBlock)) s_one) 1%nat
  = Some ping_text.
Proof.
  edestruct (request_takes_one_command DbString.sample_env (fun _ => None) (fun _ => None) 1%nat
            [take 5 ping_text; drop 5 ping_text ++ ping_text] s_one
            (after (handle_event DbString.sample_env (fun _ => None) (fun _ => None)
                   (Readable 1%nat [take 5 ping_text; drop 5 ping_text ++ ping_text] WouldBlock)) s_one)
            (default (newClient 0) (clients (world s_one) !! 1%nat))) as (cmd & st & _ & _ & _ & H & _).
  - vm_compute. reflexivity.
  - vm_compute. reflexivity.
  - vm_compute. reflexivity.
  - refine (proj2 (H (fun _ => []) (MkCommand [] 0 PingCommand) ping_text _ _)); [reflexivity|vm_compute; reflexivity].
Defined.

(** Nothing but requests to the event loop was added. *)
Definition epoll_only (s s' : Server) : Prop := exists l, s' = with_epoll (fun k => k ++ l) s.

Lemma epoll_only_refl s : epoll_only s s.
Proof. exists []. destruct s. unfold with_epoll. cbn. by rewrite app_nil_r. Qed.
Lemma epoll_only_trans s1 s2 s3 : epoll_only s1 s2 -> epoll_only s2 s3 -> epoll_only s1 s3.
Proof.
  intros [l ->] [k ->]. exists (l ++ k). destruct s1. unfold with_epoll. cbn. by rewrite app_assoc.
Qed.
Lemma epoll_only_in s s' e : epoll_only s s' -> e ∈ epoll_calls s -> e ∈ epoll_calls s'.
Proof. intros [l ->] H. cbn. apply elem_of_app. by left. Qed.
Lemma epoll_only_world s s' : epoll_only s s' -> world s' = world s /\ active_connections s' = active_connections s.
Proof. by intros [l ->]. Qed.

(** A client with output is registered for writing. *)
Definition scheduled (s : Server) (c : cid) : Prop :=
  forall x, clients (world s) !! c = Some x -> write_buffer x <> [] ->
    Update (fd x) (Z.lor READ_EVENT WRITE_EVENT) ∈ epoll_calls s.

Lemma scheduled_mono s s' c : epoll_only s s' -> scheduled s c -> scheduled s' c.
Proof.
  intros H Hs x Hx Hw. destruct (epoll_only_world _ _ H) as [E _]. rewrite E in Hx.
  eapply epoll_only_in; [exact H|]. by apply Hs.
Qed.

Lemma flush_scheduled c s s' : flush c s = Done (tt, s') -> epoll_only s s' /\ scheduled s' c.
Proof.
  intros E. destruct (clients (world s) !! c) as [x|] eqn:Hx.
  2:{ unfold flush in E. rewrite bind_Stuck_S in E; [done|]. unfold owner. by rewrite Hx. }
  rewrite flush_eq in E by eauto. injection E as <-. split; [by eexists|].
  intros y Hy Hw. cbn in Hy |- *. rewrite Hx in Hy. injection Hy as <-. unfold wakeup. rewrite Hx.
  rewrite bool_decide_false by done. set_solver.
Qed.

Lemma flush_fd_scheduled f s s' : flush_fd f s = Done (tt, s') ->
  epoll_only s s' /\ forall c, active_connections s !! f = Some c -> scheduled s' c.
Proof.
  unfold flush_fd. rewrite (bind_Done_S _ _ s (active_connections s !! f) s) by done.
  destruct (active_connections s !! f) as [c|].
  - intros [H1 H2]%flush_scheduled. split; [done|]. by intros ? [= <-].
  - intros [= <-]. split; [apply epoll_only_refl|done].
Qed.

Lemma flush_ready_scheduled c s s' : flush_ready c s = Done (tt, s') ->
  epoll_only s s' /\
  forall x d, clients (world s) !! c = Some x -> active_connections s !! fd x = Some d -> scheduled s' d.
Proof.
  unfold flush_ready. rewrite (bind_Done_S _ _ _ _ _ (lock_eq _ _)).
  destruct (clients (world s) !! c) as [x|].
  - intros [H1 H2]%flush_fd_scheduled. split; [done|]. intros y d [= <-]. apply H2.
  - intros [= <-]. split; [apply epoll_only_refl|done].
Qed.

Lemma flush_all_scheduled l : forall s s', for_each_s flush_ready l s = Done (tt, s') ->
  epoll_only s s' /\
  forall c x d, c ∈ l -> clients (world s) !! c = Some x -> active_connections s !! fd x = Some d -> scheduled s' d.
Proof.
  induction l as [|c l IH]; intros s s'; cbn [for_each_s].
  - intros [= <-]. split; [apply epoll_only_refl|]. by intros c x d Hc%not_elem_of_nil.
  - unfold mbind, SM_bind. destruct (flush_ready c s) as [[[] s1]|] eqn:E; [|done].
    apply flush_ready_scheduled in E as [O1 H1]. intros [O2 H2]%IH.
    split; [by eapply epoll_only_trans|]. intros d x e [->|Hd]%elem_of_cons Hx He.
    + eapply scheduled_mono; [exact O2|]. by eapply H1.
    + destruct (epoll_only_world _ _ O1) as [Ew Ea]. eapply H2; rewrite ?Ew, ?Ea; eauto.
Qed.

(** C27: Answers go out.  When a request is done, every connection the code knows it
    has written to and that has something to send is registered for writing: the
    client that asked, unless it is now blocked; the client that was unblocked;
    every subscriber that was published to. *)
Theorem request_schedules_output env stod read_file conn s s' x c :
  clients (world s) !! conn = Some x -> active_connections s !! fd x = Some c ->
  processClientRequest env stod read_file conn s = Done (tt, s') ->
  let k := ctx (world s') in
  (isBlocked k = false -> scheduled s' c) /\
  (forall u, unblocked_client_fd k <> -1 -> active_connections s' !! unblocked_client_fd k = Some u -> scheduled s' u) /\
  (forall r y d, r ∈ ready_to_write_clients k -> clients (world s') !! r = Some y ->
     active_connections s' !! fd y = Some d -> scheduled s' d).
Proof.
  intros Hx Ha E. rewrite (request_eq env stod read_file conn s x c Hx Ha) in E.
  unfold mbind at 1, SM_bind at 1 in E. destruct (read_command stod c (fd x) s) as [[[] s1]|]; [|done].
  unfold after_parsing in E. unfold mbind at 1, SM_bind at 1 in E.
  destruct (handle env read_file s1) as [[status s2]|]; [|done].
  unfold mbind at 1, SM_bind at 1 in E.
  match type of E with match ?m with _ => _ end = _ => destruct m as [[[] s3]|]; [|done] end.
  rewrite (bind_Done_S _ _ s3 (ctx (world s3)) s3) in E by done.
  set (k := ctx (world s3)) in E. unfold mbind at 1, SM_bind at 1 in E.
  match type of E with match ?m with _ => _ end = _ => destruct m as [[[] s4]|] eqn:E4; [|done] end.
  unfold mbind at 1, SM_bind at 1 in E.
  match type of E with match ?m with _ => _ end = _ => destruct m as [[[] s5]|] eqn:E5; [|done] end.
  apply flush_all_scheduled in E as [O6 H6].
  assert (O4 : epoll_only s3 s4 /\ (isBlocked k = false -> scheduled s4 c)).
  { destruct (isBlocked k); cbn [negb] in E4.
    - injection E4 as <-. split; [apply epoll_only_refl|done].
    - apply flush_scheduled in E4 as [? ?]. by split. }
  destruct O4 as [O4 H4].
  assert (O5 : epoll_only s4 s5 /\ (unblocked_client_fd k <> -1 ->
             forall u, active_connections s4 !! unblocked_client_fd k = Some u -> scheduled s5 u)).
  { destruct (Z.eqb_spec (unblocked_client_fd k) (-1)); cbn [negb] in E5.
    - injection E5 as <-. split; [apply epoll_only_refl|done].
    - apply flush_fd_scheduled in E5 as [? ?]. by split. }
  destruct O5 as [O5 H5].
  destruct (epoll_only_world _ _ O4) as [W4 A4], (epoll_only_world _ _ O5) as [W5 A5], (epoll_only_world _ _ O6) as [W6 A6].
  cbv zeta. rewrite W6, A6, W5, A5, W4, A4. fold k. split_and!.
  - intros Hb. eapply scheduled_mono; [exact O6|]. eapply scheduled_mono; [exact O5|]. by apply H4.
  - intros u Hu Hf. eapply scheduled_mono; [exact O6|]. apply H5; [done|]. by rewrite A4.
  - intros r y d Hr Hy Hd. eapply (H6 r y d); [done|..]; by rewrite ?W5, ?A5, ?W4, ?A4.
Qed.

Lemma request_schedules_output_witness :
  scheduled (after (processClientRequest DbString.sample_env (fun _ => None) (fun _ => None) 1%nat) s_two_pings) 1%nat.
Proof.
  refine (proj1 (request_schedules_output DbString.sample_env (fun _ => None) (fun _ => None) 1%nat s_two_pings _
            (default (newClient 0) (clients (world s_two_pings) !! 1%nat)) 1%nat _ _ _) _); vm_compute; reflexivity.
Defined.

(** ** The sleep of the event loop *)

(** Everything the process waits for: the clients at the heads of the waiting
    lines and the WAIT clients. *)
Definition watched_deadlines (s : Server) : list Z :=
  deadlines (db (world s)) ++ map bw_timeout_at (blocked_wait_clients (manager s)).

(** The whole milliseconds to a deadline, none once it has passed. *)
Definition ms_to (env : Env) (t : Z) : Z := Z.max 0 (t - steady_now env) / 1000000.

(** An answer for a list of deadlines: without limit if none is finite, else until
    the earliest. *)
Definition sleep_for (env : Env) (l : list Z) (r : Z) : Prop :=
  (Forall (eq time_point_max) l /\ r = -1) \/
  exists t, t ∈ l /\ t <> time_point_max /\ (forall t', t' ∈ l -> t <= t') /\ r = ms_to env t.

Lemma ms_to_nonneg env t : 0 <= ms_to env t.
Proof. apply Z.div_pos; lia. Qed.
Lemma ms_to_mono env t t' : t <= t' -> ms_to env t <= ms_to env t'.
Proof. intros H. apply Z.div_le_mono; lia. Qed.

Lemma earliest l : (forall t, t ∈ l -> t <= time_point_max) ->
  Forall (eq time_point_max) l \/ exists t, t ∈ l /\ t <> time_point_max /\ forall t', t' ∈ l -> t <= t'.
Proof.
  intros H. pose proof (fold_min_spec l time_point_max) as (H1 & H2 & H3). cbv zeta in *.
  set (m := fold_left Z.min l time_point_max) in *. destruct (decide (m = time_point_max)) as [E|Hne].
  - left. apply Forall_forall. intros t Ht. specialize (H t Ht). specialize (H2 t Ht). lia.
  - right. exists m. destruct H3 as [H3|H3]; [done|]. by split_and!.
Qed.

(** The two answers put together as [run] does it. *)
Lemma sleep_for_app env l k r u :
  (forall t, t ∈ l ++ k -> t <= time_point_max) -> sleep_for env l r -> sleep_for env k u ->
  sleep_for env (l ++ k) (if 0 <=? u then if r <? 0 then u else Z.min r u else r).
Proof.
  intros Hb [[Hl ->]|(t & Ht & Hn & Hm & ->)] [[Hk ->]|(v & Hv & Hnv & Hmv & ->)]; cbn.
  - left. split; [by apply Forall_app|done].
  - right. exists v. pose proof (ms_to_nonneg env v). destruct (Z.leb_spec 0 (ms_to env v)); [|lia].
    split_and!; [set_solver|done| |done]. intros t' [Ht'|Ht']%elem_of_app; [|by apply Hmv].
    rewrite Forall_forall in Hl. rewrite <- (Hl t' Ht'). apply Hb. set_solver.
  - right. exists t. split_and!; [set_solver|done| |done]. intros t' [Ht'|Ht']%elem_of_app; [by apply Hm|].
    rewrite Forall_forall in Hk. rewrite <- (Hk t' Ht'). apply Hb. set_solver.
  - right. exists (Z.min t v). pose proof (ms_to_nonneg env t). pose proof (ms_to_nonneg env v).
    destruct (Z.leb_spec 0 (ms_to env v)); [|lia]. destruct (Z.ltb_spec (ms_to env t) 0); [lia|].
    destruct (Z.min_spec t v) as [[Hlt ->]|[Hle ->]].
    + split_and!; [set_solver|done| |by rewrite Z.min_l by (apply ms_to_mono; lia)].
      intros t' [Ht'|Ht']%elem_of_app; [by apply Hm|]. specialize (Hmv t' Ht'). lia.
    + split_and!; [set_solver|done| |by rewrite Z.min_r by (by apply ms_to_mono)].
      intros t' [Ht'|Ht']%elem_of_app; [|by apply Hmv]. specialize (Hm t' Ht'). lia.
Qed.

(** What [get_next_wait_timeout_ms] answers is such an answer. *)
Lemma sleep_for_wait env l u :
  (forall t, t ∈ map bw_timeout_at l -> t <= time_point_max) ->
  (u = -1 /\ (forall it, it ∈ l -> ~ has_deadline it)) \/
  (u = 0 /\ exists it, it ∈ l /\ has_deadline it /\ remaining (steady_now env) it <= 0) \/
  (0 < u /\ (exists it, it ∈ l /\ has_deadline it /\ u = remaining (steady_now env) it) /\
   forall it, it ∈ l -> has_deadline it -> u <= remaining (steady_now env) it) ->
  sleep_for env (map bw_timeout_at l) u.
Proof.
  intros Hb H. destruct (earliest _ Hb) as [Hf|(t & Ht & Hn & Hm)].
  - assert (N : forall it, it ∈ l -> ~ has_deadline it).
    { intros it Hit Hd. apply Hd. rewrite Forall_forall in Hf. symmetry. by apply Hf, list_elem_of_fmap_2. }
    destruct H as [[-> _]|[(_ & it & Hit & Hd & _)|(_ & (it & Hit & Hd & _) & _)]]; [by left|by destruct (N it)..].
  - right. exists t. split_and!; [done..|]. apply list_elem_of_fmap in Ht as (it & -> & Hit).
    assert (R : forall it', it' ∈ l -> bw_timeout_at it <= bw_timeout_at it').
    { intros it' Hit'. by apply Hm, list_elem_of_fmap_2. }
    unfold ms_to. unfold remaining in H. set (d := bw_timeout_at it - steady_now env) in *.
    destruct H as [[_ N]|[(-> & it' & Hit' & _ & Hr)|(Hu & (it' & Hit' & _ & ->) & Hmin)]].
    + by destruct (N it Hit).
    + symmetry. apply Z.div_small. specialize (R it' Hit'). split; [lia|]. apply Z.max_lub_lt; [lia|].
      destruct (decide (d < 1000000)); [done|]. exfalso.
      assert (1 <= Z.quot (bw_timeout_at it' - steady_now env) 1000000); [|lia].
      rewrite Z.quot_div_nonneg by lia. apply Z.div_le_lower_bound; lia.
    + specialize (R it' Hit'). specialize (Hmin it Hit Hn). fold d in Hmin.
      pose proof (Z.quot_le_mono d (bw_timeout_at it' - steady_now env) 1000000).
      assert (Hd : 0 <= d). { destruct (decide (0 <= d)); [done|]. pose proof (Z.quot_le_mono d 0 1000000). rewrite Z.quot_0_l in *; lia. }
      rewrite Z.max_r by lia. rewrite <- Z.quot_div_nonneg by lia. lia.
Qed.

(** C35: The event loop sleeps until the next deadline it watches.  It watches the
    clients at the head of each waiting line for a list or a stream, and all WAIT
    clients; a client further back in a line is not looked at, even if its deadline
    is earlier.  Over these deadlines it sleeps without limit (-1) when none is
    finite, and otherwise the whole milliseconds to the earliest, none once it has
    passed.  The deadlines are less than 2^31 milliseconds away, the range of the
    result. *)
Theorem next_timeout_spec env s :
  0 <= steady_now env <= INT64_MAX ->
  (forall t, t ∈ watched_deadlines s -> 0 <= t <= INT64_MAX /\
     (t <> time_point_max -> t - steady_now env < 2 ^ 31 * 1000000)) ->
  exists r, next_timeout env s = Done r /\ sleep_for env (watched_deadlines s) r.
Proof.
  intros Hnow Hb. unfold watched_deadlines in Hb.
  assert (Hd : forall t, t ∈ deadlines (db (world s)) -> 0 <= t <= INT64_MAX /\
    (t <> time_point_max -> t - steady_now env < 2 ^ 31 * 1000000)) by (intros t Ht; apply Hb, elem_of_app; by left).
  destruct (get_next_timeout_spec env (db (world s)) Hnow) as (r & Er & R1 & R2); [intros t Ht; by apply Hd|].
  destruct (next_wait_timeout_spec env (manager s) Hnow) as (u & Eu & HU).
  { apply Forall_forall. intros it Hit.
    destruct (Hb (bw_timeout_at it)) as [H1 H2]; [apply elem_of_app; right; by apply list_elem_of_fmap_2|].
    split; [done|]. intros H3. specialize (H2 H3). unfold remaining.
    destruct (decide (0 <= bw_timeout_at it - steady_now env)).
    - rewrite Z.quot_div_nonneg by lia. apply Z.div_lt_upper_bound; lia.
    - pose proof (Z.quot_le_mono (bw_timeout_at it - steady_now env) 0 1000000). rewrite Z.quot_0_l in *; lia. }
  unfold next_timeout. rewrite Er, Eu. eexists. split; [reflexivity|]. apply sleep_for_app.
  - intros t Ht. apply (Hb t Ht).
  - destruct (earliest (deadlines (db (world s)))) as [Hf|(t & Ht & Hn & Hm)]; [intros t Ht; apply (Hd t Ht)| |].
    + left. split; [done|]. apply R1. intros t Ht. rewrite Forall_forall in Hf. by rewrite <- (Hf t Ht).
    + right. exists t. split_and!; [done..|]. destruct (R2 t Ht Hn Hm) as [H1 H2]; [by apply Hd|].
      unfold ms_to. apply (Z.div_unique _ _ _ (Z.max 0 (t - steady_now env) - r * 1000000)); lia.
  - apply sleep_for_wait; [|done]. intros t Ht. apply (Hb t), elem_of_app. by right.
Qed.

Definition s_waiting : Server :=
  with_manager (fun m => MkManager (slave_connections m) [MkBlockedWait 1%nat 7 (steady_now DbString.sample_env + 5000000) 1 9]) s_one.

Lemma next_timeout_spec_witness :
  exists r, next_timeout DbString.sample_env s_waiting = Done r /\ sleep_for DbString.sample_env (watched_deadlines s_waiting) r.
Proof.
  apply (next_timeout_spec DbString.sample_env s_waiting).
  - split; vm_compute; discriminate.
  - intros t Ht. apply (proj1 (list_elem_of_singleton t _)) in Ht as ->.
    split; [split; vm_compute; discriminate|]. intros _. vm_compute. reflexivity.
Defined.
