(* ===== verification/Lockstep.v ===== *)
(** Two servers on the same data.  [lockstep m] says that a handler run on two
    worlds that agree on the data (keys, deadlines, nobody waiting) and on the
    command, whoever the clients are, ends the same way on both and leaves them
    in agreement; on each side only the context's client is written to.  Like the
    logics of [Invariant.v] and [Frame.v] it composes along the monad; it holds
    of every handler whose command is forwarded to replicas. *)
From S2P Require Import Prelude Utils Acl Command World DbString DbList DbStream DbZset Db Frame.

(** The data two servers have in common; neither has a client waiting. *)
Record same_data (d1 d2 : DB) : Prop := {
  sd_store : store d1 = store d2;
  sd_expiration : expiration d1 = expiration d2;
  sd_blocked1 : blocked_keys d1 = ∅;
  sd_blocked2 : blocked_keys d2 = ∅;
  sd_xread1 : blocked_xread_keys d1 = ∅;
  sd_xread2 : blocked_xread_keys d2 = ∅
}.

(** A client in neither a transaction nor a subscription. *)
Definition idle (x : Client) : bool := negb (isClientOnTransaction x) && negb (isClientOnPubSub x).

(** The command as far as a replica gets to know it. *)
Definition said (c : Command) : list Z * Args := (key c, args c).

Record twins (w1 w2 : World) : Prop := {
  tw_data : same_data (db w1) (db w2);
  tw_self1 : is_Some (clients w1 !! client (ctx w1));
  tw_self2 : is_Some (clients w2 !! client (ctx w2));
  tw_command : said <$> command (ctx w1) = said <$> command (ctx w2)
}.

(** What one side of the pair goes through. *)
Record stays (w w' : World) : Prop := {
  st_ctx : ctx w' = ctx w;
  st_idle c : idle <$> clients w' !! c = idle <$> clients w !! c;
  st_sent c : c <> client (ctx w) -> sent w' c = sent w c
}.

Lemma stays_refl w : stays w w.
Proof. by split. Qed.

Lemma stays_trans w1 w2 w3 : stays w1 w2 -> stays w2 w3 -> stays w1 w3.
Proof.
  intros [A1 B1 C1] [A2 B2 C2]. split.
  - congruence.
  - intros c. by rewrite B2.
  - intros c Hc. rewrite C2; [by apply C1|by rewrite A1].
Qed.

Lemma stays_alive w w' : stays w w' -> is_Some (clients w !! client (ctx w)) -> is_Some (clients w' !! client (ctx w')).
Proof.
  intros [Hc Hi _] Ha. rewrite Hc. specialize (Hi (client (ctx w))). destruct Ha as [x Hx]. rewrite Hx in Hi.
  destruct (clients w' !! _); [eauto|done].
Qed.

Definition lockstep {A} (m : M A) : Prop := forall w1 w2, twins w1 w2 ->
  match m w1, m w2 with
  | Done (a, w1'), Done (b, w2') => a = b /\ twins w1' w2' /\ stays w1 w1' /\ stays w2 w2'
  | Stuck, Stuck => True
  | _, _ => False
  end.

(** * The monad *)
Lemma lockstep_ret {A} (a : A) : lockstep (mret a).
Proof. intros w1 w2 H. split_and!; [done|done|apply stays_refl..]. Qed.

Lemma lockstep_stuck {A} : lockstep (@stuck A).
Proof. done. Qed.

Lemma lockstep_bind {A B} (m : M A) (f : A -> M B) : lockstep m -> (forall a, lockstep (f a)) -> lockstep (m ≫= f).
Proof.
  intros Hm Hf w1 w2 H. specialize (Hm w1 w2 H). unfold mbind, M_bind.
  destruct (m w1) as [[a v1]|], (m w2) as [[b v2]|]; try done. destruct Hm as (<- & Ht & S1 & S2).
  specialize (Hf a v1 v2 Ht). destruct (f a v1) as [[c u1]|], (f a v2) as [[d u2]|]; try done.
  destruct Hf as (<- & Hu & T1 & T2). split_and!; [done|done|by eapply stays_trans..].
Qed.

Lemma lockstep_lift {A} (m : outcome A) : lockstep (lift m).
Proof. intros w1 w2 H. unfold lift. destruct m; cbn; [|done]. split_and!; [done|done|apply stays_refl..]. Qed.

(** What both sides see alike. *)
Lemma lockstep_get {A} (f : World -> A) : (forall w1 w2, twins w1 w2 -> f w1 = f w2) -> lockstep (get f).
Proof. intros Hf w1 w2 H. split_and!; [by apply Hf|done|apply stays_refl..]. Qed.

Lemma lockstep_find key : lockstep (find key).
Proof. apply lockstep_get. intros w1 w2 []. by rewrite (sd_store _ _ tw_data0). Qed.

(** A change of the keys or the deadlines. *)
Lemma lockstep_db f : (forall d1 d2, same_data d1 d2 -> same_data (f d1) (f d2)) -> lockstep (modify_db f).
Proof.
  intros Hf w1 w2 []. split_and!; [done| |by split..]. split; try done. by apply Hf.
Qed.

Lemma lockstep_put key o : lockstep (put key o).
Proof. apply lockstep_db. intros d1 d2 []. split; cbn; try done. by rewrite sd_store0. Qed.

Lemma lockstep_deadline key t : lockstep (modify_db (set_expiration (<[key := t]>))).
Proof. apply lockstep_db. intros d1 d2 []. split; cbn; try done. by rewrite sd_expiration0. Qed.

(** A handler that always completes and leaves the data alone. *)
Definition solo (m : M unit) : Prop := forall w, is_Some (clients w !! client (ctx w)) ->
  exists w', m w = Done (tt, w') /\ db w' = db w /\ stays w w'.

Lemma lockstep_solo m : solo m -> lockstep m.
Proof.
  intros Hm w1 w2 [Hd H1 H2 Hc]. destruct (Hm w1 H1) as (v1 & -> & D1 & S1), (Hm w2 H2) as (v2 & -> & D2 & S2).
  split_and!; [done| |done|done]. split.
  - by rewrite D1, D2.
  - by apply (stays_alive w1).
  - by apply (stays_alive w2).
  - by rewrite (st_ctx _ _ S1), (st_ctx _ _ S2).
Qed.

Lemma solo_ret : solo (mret tt).
Proof. intros w _. exists w. split_and!; [done|done|apply stays_refl]. Qed.

Lemma solo_bind m k : solo m -> solo k -> solo (m;; k).
Proof.
  intros Hm Hk w Hw. destruct (Hm w Hw) as (v & E & D & S). destruct (Hk v) as (u & F & D' & S').
  { by apply (stays_alive w). }
  exists u. unfold mbind, M_bind. rewrite E. split_and!; [done|congruence|by eapply stays_trans].
Qed.

Lemma solo_reply f : solo (reply f).
Proof.
  intros w Hw. destruct (reply_answers f w Hw) as (w' & E & [D _ C S]). exists w'. split_and!; [done|done|].
  rewrite (reply_eq f w Hw) in E. injection E as <-. split; [done| |].
  - intros c. cbn [with_clients clients]. destruct (decide (c = client (ctx w))) as [->|Hne];
      [|by rewrite lookup_alter_ne].
    rewrite lookup_alter_eq. by destruct (clients w !! _).
  - intros c Hc. by rewrite S, decide_False.
Qed.

(** Marking a client sets a flag that neither mode tests. *)
Lemma idle_dirty x : idle (setClientDirty x) = idle x.
Proof.
  assert (H : forall b, Z.land DIRTY b = 0 -> Z.land (flags (setClientDirty x)) b = Z.land (flags x) b).
  { intros b Hb. cbn. by rewrite Z.land_lor_distr_l, Hb, Z.lor_0_r. }
  unfold idle, isClientOnTransaction, isClientOnPubSub. by rewrite !H by reflexivity.
Qed.

Lemma solo_dirty c : solo (p ← lock c; match p with Some _ => update_client c setClientDirty | None => mret tt end).
Proof.
  intros w Hw. unfold mbind, M_bind, lock, get. destruct (clients w !! c) as [x|] eqn:Hx; [|by apply solo_ret].
  rewrite (update_client_eq _ _ _ _ Hx). eexists. split_and!; [done|done|]. split; [done| |].
  - intros c'. cbn [with_clients clients]. destruct (decide (c' = c)) as [->|Hne]; [|by rewrite lookup_alter_ne].
    rewrite lookup_alter_eq, Hx. cbn. by rewrite idle_dirty.
  - intros c' _. unfold sent. cbn [with_clients clients].
    destruct (decide (c' = c)) as [->|Hne]; [|by rewrite lookup_alter_ne].
    by rewrite lookup_alter_eq, Hx.
Qed.

Lemma solo_mark key : solo (mark_watching_clients_dirty key).
Proof.
  intros w Hw. unfold mark_watching_clients_dirty, get_db. unfold mbind at 1, M_bind at 1, get.
  destruct (watching_keys (db w) !! key) as [l|]; [|by apply solo_ret].
  revert w Hw. induction l as [|c l IH]; intros w Hw; cbn [for_each]; [by apply solo_ret|].
  by apply (solo_bind _ _ (solo_dirty c) IH).
Qed.

Lemma lockstep_reply f : lockstep (reply f).
Proof. apply lockstep_solo, solo_reply. Qed.
Lemma lockstep_mark key : lockstep (mark_watching_clients_dirty key).
Proof. apply lockstep_solo, solo_mark. Qed.

Create HintDb lockstep.
#[export] Hint Resolve lockstep_ret lockstep_stuck lockstep_lift lockstep_find lockstep_put lockstep_deadline
  lockstep_reply lockstep_mark : lockstep.

Ltac lockstep :=
  lazymatch goal with
  | |- lockstep (_ ≫= _) => apply lockstep_bind; [lockstep | intros; lockstep]
  | |- lockstep (let _ := _ in _) => cbv zeta; lockstep
  | |- lockstep (match ?x with _ => _ end) => destruct x; lockstep
  | |- _ => first [ solve [eauto with lockstep] | idtac ]
  end.

(** A handler may be replaced by what it comes to when nobody waits. *)
Lemma lockstep_nobody {A} (m k : M A) :
  (forall w, blocked_keys (db w) = ∅ -> blocked_xread_keys (db w) = ∅ -> m w = k w) -> lockstep k -> lockstep m.
Proof.
  intros Hm Hk w1 w2 H. destruct (tw_data _ _ H) as [_ _ B1 B2 X1 X2]. rewrite !Hm by done. by apply Hk.
Qed.

(** A handler of the context's command sees the same on both sides. *)
Lemma lockstep_command {A} (view : option Command -> option A) (k : A -> M unit) :
  (forall c1 c2, said <$> c1 = said <$> c2 -> view c1 = view c2) -> (forall a, lockstep (k a)) ->
  lockstep (with_command view k).
Proof.
  intros Hv Hk. unfold with_command. apply lockstep_bind.
  - apply lockstep_get. intros w1 w2 []. by apply Hv.
  - intros [a|]; [apply Hk|apply lockstep_reply].
Qed.

Lemma lockstep_set_command key missing k : lockstep missing -> (forall s, lockstep (k s)) ->
  lockstep (with_sorted_set key missing k).
Proof.
  intros Hm Hk. unfold with_sorted_set. apply lockstep_bind; [apply lockstep_find|].
  intros [[]|]; auto with lockstep.
Qed.

(** * The handlers of the commands that are forwarded *)
Section Handlers.
Context (env : Env).

Lemma lockstep_set key value ex px : lockstep (handle_set env key value ex px).
Proof. unfold handle_set. lockstep. Qed.

Lemma lockstep_incr key : lockstep (handle_incr key).
Proof. unfold handle_incr. lockstep. Qed.

Lemma lockstep_push_values key vs b : forall n, lockstep (push_values env key vs b n).
Proof.
  induction vs as [|v vs IH]; intros n; cbn [push_values]; lockstep.
  unfold push_value_to_list, create_new_list, append_to_existing_list. lockstep.
Qed.

Lemma lockstep_push key vs b : lockstep (handle_push env key vs b).
Proof.
  apply (lockstep_nobody _ (n ← push_values env key vs b 0;
                            mark_watching_clients_dirty key;; reply (fun b => encode_integer b n))).
  - intros w Hb _. unfold handle_push, get_db. unfold mbind at 1, M_bind at 1, get. by rewrite Hb, lookup_empty.
  - lockstep. apply lockstep_push_values.
Qed.

Lemma lockstep_lpop key n : lockstep (handle_lpop env key n).
Proof. unfold handle_lpop. lockstep. Qed.

Lemma lockstep_wake key : lockstep (handle_blocked_xread_clients key).
Proof.
  apply (lockstep_nobody _ (mret tt)); [|apply lockstep_ret].
  intros w _ Hx. unfold handle_blocked_xread_clients, get_db, mbind, M_bind, get. by rewrite Hx, lookup_empty.
Qed.

Lemma lockstep_xadd key id fvs : lockstep (handle_xadd env key id fvs).
Proof. unfold handle_xadd. pose proof (lockstep_wake key). lockstep. Qed.

Ltac views := intros [[k1 b1 a1]|] [[k2 b2 a2]|]; cbn; [intros [= <- <-]; by destruct a1|done..].

Lemma lockstep_zadd : lockstep handle_zadd.
Proof.
  unfold handle_zadd. apply lockstep_command; [views|]. intros [key sms]. apply lockstep_set_command; intros; lockstep.
Qed.

Lemma lockstep_zrem : lockstep handle_zrem.
Proof.
  unfold handle_zrem. apply lockstep_command; [views|]. intros [key ms]. apply lockstep_set_command; intros; lockstep.
Qed.

Lemma lockstep_geoadd : lockstep (handle_geoadd env).
Proof.
  unfold handle_geoadd. apply lockstep_command; [views|]. intros [[[[[key lon] lat] score] member] inv].
  destruct inv; [apply lockstep_reply|]. apply lockstep_set_command; intros; lockstep.
Qed.

(** ** Dispatch *)

(** Every write command but ACL SETUSER, whose handler is reached another way. *)
Definition is_data_write (c : Command) : bool :=
  is_write_command c && negb (bool_decide (type c = ACL_SETUSER)).

Lemma lockstep_call cmd : is_data_write cmd = true -> lockstep (call env cmd).
Proof.
  destruct cmd as [k b a]. destruct a; try done; intros _; unfold call, call_with; cbn [args key];
    auto using lockstep_set, lockstep_incr, lockstep_push, lockstep_lpop, lockstep_xadd, lockstep_zadd,
      lockstep_zrem, lockstep_geoadd.
Qed.

(** A write command of a client that is free to run it goes to its handler. *)
Lemma execute_write path cmd w x :
  command (ctx w) = Some cmd -> clients w !! client (ctx w) = Some x -> idle x = true -> is_data_write cmd = true ->
  execute env path w = call env cmd w.
Proof.
  intros Hc Hx Hi Hw. unfold execute. unfold mbind, M_bind, get, self. rewrite Hx, Hc.
  unfold idle in Hi. apply andb_prop in Hi as [H1 H2]. apply negb_true_iff in H1, H2. rewrite H1, H2.
  destruct cmd as [k b a]. destruct a; try discriminate Hw; reflexivity.
Qed.

(** The same write on two servers with the same data. *)
Lemma execute_lockstep path1 path2 c1 c2 w1 w2 x1 x2 w1' :
  twins w1 w2 -> command (ctx w1) = Some c1 -> command (ctx w2) = Some c2 -> is_data_write c1 = true ->
  clients w1 !! client (ctx w1) = Some x1 -> clients w2 !! client (ctx w2) = Some x2 ->
  idle x1 = true -> idle x2 = true ->
  execute env path1 w1 = Done (tt, w1') ->
  exists w2', execute env path2 w2 = Done (tt, w2') /\ twins w1' w2' /\ stays w1 w1' /\ stays w2 w2'.
Proof.
  intros Ht H1 H2 Hw Hx1 Hx2 Hi1 Hi2 E.
  assert (Hs : said c1 = said c2).
  { pose proof (tw_command _ _ Ht) as H. rewrite H1, H2 in H. cbn in H. congruence. }
  assert (Ec : call env c2 = call env c1).
  { destruct c1 as [k1 b1 a1], c2 as [k2 b2 a2]. injection Hs as <- <-. reflexivity. }
  assert (Hw2 : is_data_write c2 = true).
  { destruct c1 as [k1 b1 a1], c2 as [k2 b2 a2]. injection Hs as <- <-. exact Hw. }
  rewrite (execute_write path1 c1 w1 x1) in E by done. rewrite (execute_write path2 c2 w2 x2), Ec by done.
  pose proof (lockstep_call c1 Hw w1 w2 Ht) as L. rewrite E in L.
  destruct (call env c1 w2) as [[[] w2']|]; [|done]. exists w2'. split; [done|]. apply L.
Qed.
End Handlers.
