(* ===== verification/Convergence.v ===== *)
(** Master and replica: a write request on the master, through [server.cpp],
    [db.cpp] and [replication.cpp], and the same command read from the stream on a
    replica, through [slave-replication.cpp].  The theorem composes what the parser
    makes of the client's text, the parser's round trip on the forwarded text, the
    propagation, the replica's loop and the lockstep logic. *)
From Stdlib Require Import SpecFloat.
From S2P Require Import Prelude Utils Command Parser CommandParser Acl World Db Invariant Frame Connection.
From S2P Require Import Replication SlaveReplication Server Lockstep.

(** What a client sends: its text in the pieces in which it is read, and the
    command it stands for. *)
Record Request := MkRequest { sender : cid; pieces : list (list Z); meaning : Command }.

Section Pair.
Context (env : Env) (stod : list Z -> option spec_float) (read_file : list Z -> option (list Z)).
Abbreviation dts := (double_to_string env).

(** A client sends a text. *)
Definition issue (e : Request) : SM unit :=
  handle_event env stod read_file (Readable (sender e) (pieces e) WouldBlock).

(** The text is that of one command, however it is written (the case of the name,
    signs and leading zeros of numbers, what a client announces as lengths): the
    parser makes that command of it, counts its bytes and leaves nothing. *)
Definition understood (e : Request) : Prop :=
  exists n, parseCommand stod (MkRead (concat (pieces e)) 0 0) = Done (meaning e, MkRead [] 0 n).

(** It is the text the command prints itself as. *)
Definition canonical (e : Request) : Prop := concat (pieces e) = to_resp dts (meaning e).

(** A client that is free to run a write: connected, in no mode, nothing unread. *)
Definition free (s : Server) (m : cid) : Prop :=
  exists x, clients (world s) !! m = Some x /\ idle x = true /\ read_buffer x = [].

(** A write that replicas can read back. *)
Definition forwardable (cmd : Command) : Prop := is_data_write cmd = true /\ sendable stod dts cmd.

(** The bytes the master counts for some requests. *)
Definition counted (cs : list Request) : Z := foldr (fun e n => bytes_processed (meaning e) + n) 0 cs.

(** * The master's side *)
Lemma write_not_replication s cmd : command (ctx (world s)) = Some cmd -> is_data_write cmd = true ->
  handle env read_file s = Done (false, s).
Proof.
  intros Hc Hw. unfold handle. rewrite (bind_Done_S _ _ s (Some cmd) s) by (unfold gets; by rewrite Hc).
  destruct cmd as [k b a]. destruct a; try discriminate Hw; reflexivity.
Qed.

(** The requests to the event loop at the end of a request. *)
Lemma flushes_epoll_only c k s s' :
  ((if negb (isBlocked k) then flush c else mret tt);;
   (if negb (unblocked_client_fd k =? -1) then flush_fd (unblocked_client_fd k) else mret tt);;
   for_each_s flush_ready (ready_to_write_clients k)) s = Done (tt, s') -> epoll_only s s'.
Proof.
  unfold mbind, SM_bind. intros E.
  match type of E with match ?m with _ => _ end = _ => destruct m as [[[] s1]|] eqn:E1; [|done] end.
  match type of E with match ?m with _ => _ end = _ => destruct m as [[[] s2]|] eqn:E2; [|done] end.
  apply flush_all_scheduled in E as [O3 _]. eapply epoll_only_trans; [|eapply epoll_only_trans; [|exact O3]].
  - destruct (isBlocked k); cbn [negb] in E1; [injection E1 as <-; apply epoll_only_refl|].
    by apply flush_scheduled in E1 as [? _].
  - destruct (_ =? _); cbn [negb] in E2; [injection E2 as <-; apply epoll_only_refl|].
    by apply flush_fd_scheduled in E2 as [? _].
Qed.

(** Nobody waits: a write on its own leaves its world as one of a pair does. *)
Lemma execute_stays path cmd w x w' :
  same_data (db w) (db w) -> command (ctx w) = Some cmd -> is_data_write cmd = true ->
  clients w !! client (ctx w) = Some x -> idle x = true ->
  execute env path w = Done (tt, w') -> stays w w' /\ same_data (db w') (db w').
Proof.
  intros Hd Hc Hw Hx Hi E.
  assert (Ht : twins w w) by (split; eauto).
  destruct (execute_lockstep env path path cmd cmd w w x x w' Ht Hc Hc Hw Hx Hx Hi Hi E) as (v & E' & Ht' & S & _).
  rewrite E in E'. injection E' as <-. split; [done|]. apply Ht'.
Qed.

(** The world a write command runs in: the client's, its input taken. *)
Definition request_world (s : Server) (m : cid) (x : Client) (cmd : Command) : World :=
  with_ctx (fun _ => newContext m (fd x) (Some cmd)) (world s).

Lemma issue_parsed s m txt x cmd : SInv s -> clients (world s) !! m = Some x -> read_buffer x = [] ->
  understood (MkRequest m txt cmd) ->
  issue (MkRequest m txt cmd) s = after_parsing env read_file m (with_world (fun _ => request_world s m x cmd) s).
Proof.
  intros I Hx Hb [n Hs]. cbn [pieces meaning] in Hs. unfold issue. cbn [sender pieces].
  rewrite (read_event_eq _ _ _ _ _ _ x cmd (MkRead [] 0 n) Hx); [|apply (si_clients _ I _ _ Hx)|by rewrite Hb].
  f_equal. destruct s as [[d cl a k] mg c ac e n0].
  unfold parsed_state, with_world, request_world, with_ctx, with_clients. cbn in *. f_equal. f_equal.
  apply insert_id. rewrite Hx. destruct x. cbn in *. by subst.
Qed.

(** What a write request does on the master. *)
Lemma issue_write s s' m txt x cmd f c b :
  SInv s -> same_data (db (world s)) (db (world s)) ->
  clients (world s) !! m = Some x -> idle x = true -> read_buffer x = [] -> m <> c ->
  slave_connections (manager s) !! f = Some c -> sent (world s) c = Some b -> 
  is_data_write cmd = true -> understood (MkRequest m txt cmd) ->
  issue (MkRequest m txt cmd) s = Done (tt, s') ->
  exists path w, execute env path (request_world s m x cmd) = Done (tt, w) /\
    db (world s') = db w /\ SInv s' /\ manager s' = manager s /\
    sent (world s') c = Some (b ++ to_resp dts cmd) /\
    u64 (offset (config s')) = u64 (offset (config s) + bytes_processed cmd) /\
    (forall d, free s d -> free s' d).
Proof.
  intros I Hd Hx Hi Hb Hmc Hf Hs Hw Hsend E.
  assert (I' : SInv s') by (eapply (handle_event_SInv env stod read_file (Readable m _ _) s); [done|done|exact E]).
  rewrite (issue_parsed s m txt x cmd I Hx Hb Hsend) in E. set (s1 := with_world _ s) in E.
  unfold after_parsing in E.
  rewrite (bind_Done_S _ _ _ _ _ (write_not_replication s1 cmd eq_refl Hw)) in E. cbv iota in E.
  unfold mbind at 1, SM_bind at 1 in E.
  rewrite (bind_Done_S _ _ s1 (rdb_file_path (config s1)) s1) in E by done.
  unfold on_world at 1 in E. unfold mbind at 1, SM_bind at 1 in E.
  change (world s1) with (request_world s m x cmd) in E.
  destruct (execute env (rdb_file_path (config s1)) (request_world s m x cmd)) as [[[] w]|] eqn:Ex; [|done].
  set (s2 := with_world _ s1) in E.
  destruct (execute_stays _ cmd (request_world s m x cmd) x w Hd eq_refl Hw Hx Hi Ex) as [S Hd2].
  pose proof (frames_execute _ _ _ _ _ Ex) as F.
  destruct (propagate_write env cmd s2 f c b) as (s3 & E3 & Q & S3).
  - intros g d Hg. destruct (si_slaves _ I g d Hg) as (y & Hy & _). cbn.
    pose proof (fr_fixed _ _ F d) as G. cbn in G. rewrite Hy in G. destruct (clients w !! d); [eauto|done].
  - intros g h d Hg Hh. destruct (si_slaves _ I g d Hg) as (y & Hy & <-), (si_slaves _ I h d Hh) as (z & Hz & <-).
    congruence.
  - cbn. by rewrite (st_ctx _ _ S).
  - done.
  - cbn. rewrite (st_sent _ _ S) by (by apply not_eq_sym). done.
  - cbn in Hw. by apply andb_prop in Hw as [? _].
  - rewrite E3, (bind_Done_S _ _ s3 (ctx (world s3)) s3) in E by done.
    apply flushes_epoll_only in E as [l ->].
    exists (rdb_file_path (config s1)), w. split_and!; [done|apply (q_db _ _ Q)|done|apply (q_manager _ _ Q)|exact S3| |].
    + cbn [with_epoll config]. rewrite (q_config _ _ Q). cbn. unfold u64. by rewrite Z.mod_mod.
    + intros d (y & Hy & Hiy & Hby). cbn [with_epoll].
      pose proof (st_idle _ _ S d) as G1. pose proof (fr_fixed _ _ F d) as G2. cbn in G1, G2. rewrite Hy in G1, G2.
      destruct (clients w !! d) as [z|] eqn:Hz; [|done]. cbn in G1, G2. injection G1 as G1. injection G2 as G2 _ _ _.
      destruct (quiet_client _ s3 d z Q Hz) as (b' & Hb'). eexists. split; [exact Hb'|].
      split; [by rewrite <- Hiy, <- G1|]. by rewrite <- Hby, <- G2.
Qed.

(** * The replica's side *)

(** The same write, read from the stream. *)
Lemma replay_write path cmd x w w' r sr :
  same_data (db w) (db (world sr)) -> command (ctx w) = Some cmd -> is_data_write cmd = true ->
  clients w !! client (ctx w) = Some x -> idle x = true -> idle (base r) = true ->
  execute env path w = Done (tt, w') ->
  exists r' sr', process_one env (arrived dts cmd) r sr = Done (r', sr') /\
    same_data (db w') (db (world sr')) /\ idle (base r') = true.
Proof.
  intros Hd Hc Hw Hx Hi Hr E.
  assert (Hg : is_getack (arrived dts cmd) = false) by (destruct cmd as [k b a]; by destruct a).
  unfold process_one. rewrite Hg. unfold execute_one, gets, update, mbind, SM_bind.
  set (s0 := with_world _ (with_world _ _)).
  assert (Hb : clients (world s0) !! client (ctx (world s0)) = Some (base r)) by (cbn; by rewrite lookup_insert_eq).
  assert (Ht : twins w (world s0)).
  { split; [exact Hd|eauto|eauto|]. by rewrite Hc. }
  destruct (execute_lockstep env path (rdb_file_path (config s0)) cmd (arrived dts cmd) w (world s0)
              x (base r) w' Ht Hc eq_refl Hw Hx Hb Hi Hr E) as (v & Ev & Ht' & _ & S).
  unfold on_world. rewrite Ev. unfold owner. cbn [with_world world].
  assert (Hcv : ctx v = ctx (world s0)) by apply S. pose proof (st_idle _ _ S (next_ref sr)) as Hiv.
  change (clients (world s0) !! next_ref sr) with (clients (world s0) !! client (ctx (world s0))) in Hiv.
  rewrite Hb in Hiv. destruct (clients v !! next_ref sr) as [y|]; [|done]. cbn [with_world world]. cbn in Hcv. rewrite ?Hcv.
  do 2 eexists. split; [reflexivity|]. split; [apply Ht'|]. cbn in Hiv |- *. injection Hiv as Hiv. by rewrite <- Hr, <- Hiv.
Qed.

(** * Both sides *)

(** What a series of write requests leaves behind on the master, and what a
    replica does that reads the bytes it was given for them. *)
Lemma converges_loop cs : forall s r sr f c b s',
  SInv s -> slave_connections (manager s) !! f = Some c -> sent (world s) c = Some b ->
  same_data (db (world s)) (db (world sr)) -> idle (base r) = true ->
  Forall (fun e => sender e <> c /\ free s (sender e) /\ forwardable (meaning e) /\ understood e) cs ->
  for_each_s issue cs s = Done (tt, s') ->
  sent (world s') c = Some (b ++ stream dts (map meaning cs)) /\
  u64 (offset (config s')) = u64 (offset (config s) + counted cs) /\
  exists r' sr', run_stream env dts (map meaning cs) r sr = Done (r', sr') /\
    same_data (db (world s')) (db (world sr')).
Proof.
  induction cs as [|[m txt cmd] cs IH]; intros s r sr f c b s' I Hf Hs Hd Hr Hcs E; cbn [for_each_s map meaning run_stream] in *.
  - injection E as <-. change (stream dts []) with (@nil Z). change (counted []) with 0.
    rewrite app_nil_r, Z.add_0_r. split_and!; [done|done|]. by do 2 eexists.
  - apply Forall_cons in Hcs as [(Hmc & (x & Hx & Hi & Hb) & [Hw Hsd] & Hu) Hcs]. cbn [sender meaning] in *.
    unfold mbind at 1, SM_bind at 1 in E. destruct (issue (MkRequest m txt cmd) s) as [[[] s1]|] eqn:E1; [|done].
    assert (Hdd : same_data (db (world s)) (db (world s))) by (by destruct Hd; split).
    destruct (issue_write s s1 m txt x cmd f c b) as (path & w & Ew & Dw & I1 & M1 & S1 & O1 & F1); [done..|].
    destruct (replay_write path cmd x (request_world s m x cmd) w (set_read_buffer (stream dts (map meaning cs)) r) sr)
      as (r1 & sr1 & Er & D1 & R1); [done..|].
    destruct (IH s1 r1 sr1 f c (b ++ to_resp dts cmd) s') as (S & O & r' & sr' & Er' & D');
      [done|by rewrite M1|done|by rewrite Dw|done| |done|].
    { eapply Forall_impl; [exact Hcs|]. intros e (? & ? & ? & ?). split_and!; auto. }
    change (stream dts (cmd :: map meaning cs)) with (to_resp dts cmd ++ stream dts (map meaning cs)).
    split_and!.
    + by rewrite S, <- app_assoc.
    + change (counted (MkRequest m txt cmd :: cs)) with (bytes_processed cmd + counted cs).
      rewrite O, Z.add_assoc. unfold u64 in *. rewrite Z.add_mod, O1, <- Z.add_mod by done. done.
    + exists r', sr'. split; [|done]. by rewrite (bind_Done_S _ _ _ _ _ Er).
Qed.

(** When the clients write as the program prints, the bytes counted are those of
    the stream. *)
Lemma counted_canonical cs : Forall (fun e => forwardable (meaning e) /\ understood e) cs -> Forall canonical cs ->
  counted cs = len (stream dts (map meaning cs)).
Proof.
  intros H C. induction C as [|[m txt cmd] cs Hc _ IH]; [done|]. apply Forall_cons in H as [[[_ Hs] [n Hu]] H].
  cbn [pieces meaning map] in *. unfold canonical in Hc. cbn [pieces meaning] in Hc.
  change (stream dts (cmd :: map meaning cs)) with (to_resp dts cmd ++ stream dts (map meaning cs)).
  change (counted (MkRequest m txt cmd :: cs)) with (bytes_processed cmd + counted cs).
  rewrite len_app, IH by done. f_equal.
  pose proof (sendable_reads_back _ _ _ Hs [] 0) as P. rewrite app_nil_r, <- Hc, Hu in P.
  injection P as P _. rewrite P, Hc. by rewrite P at 1.
Qed.
End Pair.

(** * Properties *)

(** C2: A replica converges.  Let a replica whose handshake is complete have the data
    of its master, with no client waiting on either side, and let connected clients
    of the master, other than the replica itself, that are in no transaction or
    subscription and have nothing unread, send it write commands: any but ACL SETUSER, in any text that the
    parser understands as one command.  The arguments must be such that the
    program prints them without loss: no carriage return in a string, numbers in
    the range of their fields, and for ZADD and GEOADD doubles that the printed
    decimals read back as they were ([sendable]; a score such as 0.1234567 is not
    one, and the replica would get 0.123457).  If the master completes the
    requests, then what it has put into the replica's output is exactly a text
    which the replica, when it has read it, executes to the end, and which gives it
    the data the master now has: the same keys with the same values and deadlines.
    (The replica executes at the master's clock.)  The replica has advanced its
    offset by the length of that text; the master has advanced its own by the bytes
    the parser counted in what the clients sent, and the two agree when the clients
    write the commands the way the program prints them. *)
Theorem replica_converges env stod read_file cs s s' f c b r sr :
  SInv s -> slave_connections (manager s) !! f = Some c -> sent (world s) c = Some b ->
  same_data (db (world s)) (db (world sr)) ->
  attached r = true -> idle (base r) = true -> is_i64 (processed r) ->
  Forall (fun e => sender e <> c /\ free s (sender e) /\ forwardable env stod (meaning e) /\ understood stod e) cs ->
  for_each_s (issue env stod read_file) cs s = Done (tt, s') ->
  exists out r' sr', sent (world s') c = Some (b ++ out) /\
    process_commands env stod (set_read_buffer out r) sr = Done (r', sr') /\
    same_data (db (world s')) (db (world sr')) /\
    processed r' = i64 (processed r + len out) /\
    u64 (offset (config s')) = u64 (offset (config s) + counted cs) /\
    (Forall (canonical env) cs -> u64 (offset (config s')) = u64 (offset (config s) + len out)).
Proof.
  intros I Hf Hs Hd Ha Hr Hp Hcs E.
  destruct (converges_loop env stod read_file cs s r sr f c b s' I Hf Hs Hd Hr Hcs E) as (S & O & r' & sr' & Er & D).
  exists (stream (double_to_string env) (map meaning cs)), r', sr'. split_and!; [done| |done| |done|].
  - rewrite <- Er. apply process_loop_stream; [|done|cbn; lia]. apply Forall_map.
    eapply Forall_impl; [exact Hcs|]. by intros e (_ & _ & [_ ?] & _).
  - by eapply run_stream_processed.
  - intros C. rewrite O. f_equal. f_equal. apply (counted_canonical env stod); [|done].
    eapply Forall_impl; [exact Hcs|]. by intros e (_ & _ & ? & ?).
Qed.

(** A master with a client and a replica that has asked for everything. *)
Definition psync_text : list Z := to_resp (fun _ => []) (MkCommand [] 0 (PsyncCommand (lit "?") (-1))).
Definition nothing {A} : list Z -> option A := fun _ => None.
Definition pair_event (e : Event) : SM unit := handle_event DbString.sample_env nothing nothing e.
Definition s_two : Server := after (pair_event (Accepted 8)) s_one.
Definition s_pair : Server := after (pair_event (Readable 2%nat [psync_text] WouldBlock)) s_two.

(** The first request is not written the way the program prints it. *)
Definition issued : list Request :=
  [ MkRequest 1%nat [lit "*3" ++ CRLF ++ lit "$3" ++ CRLF ++ lit "sEt" ++ CRLF;
                     lit "$01" ++ CRLF ++ lit "k" ++ CRLF ++ lit "$1" ++ CRLF ++ lit "v" ++ CRLF]
      (MkCommand (lit "k") 28 (SetCommand (lit "v") None None));
    MkRequest 1%nat [to_resp (fun _ => []) (MkCommand (lit "n") 0 IncrCommand)]
      (MkCommand (lit "n") 21 IncrCommand) ].

Lemma s_pair_SInv : SInv s_pair.
Proof.
  assert (H1 : SInv s_one).
  { apply (handle_event_SInv DbString.sample_env nothing nothing (Accepted 7) (newServer newConfig));
      [apply newServer_SInv|reflexivity|vm_compute; reflexivity]. }
  assert (H2 : SInv s_two).
  { apply (handle_event_SInv DbString.sample_env nothing nothing (Accepted 8) s_one);
      [done|reflexivity|vm_compute; reflexivity]. }
  apply (handle_event_SInv DbString.sample_env nothing nothing (Readable 2%nat [psync_text] WouldBlock) s_two);
    [done|exact I|vm_compute; reflexivity].
Qed.

Lemma replica_converges_witness :
  exists out r' sr',
    process_commands DbString.sample_env nothing (set_read_buffer out r_ready) s_replica = Done (r', sr') /\
    same_data (db (world (after (for_each_s (issue DbString.sample_env nothing nothing) issued) s_pair))) (db (world sr')) /\
    processed r' = i64 (0 + len out) /\ len out = 48 /\
    offset (config (after (for_each_s (issue DbString.sample_env nothing nothing) issued) s_pair)) = 49.
Proof.
  destruct (replica_converges DbString.sample_env nothing nothing issued s_pair
              (after (for_each_s (issue DbString.sample_env nothing nothing) issued) s_pair)
              8 2%nat (default [] (sent (world s_pair) 2%nat)) r_ready s_replica) as (out & r' & sr' & So & E & D & P & _).
  - exact s_pair_SInv.
  - vm_compute. reflexivity.
  - vm_compute. reflexivity.
  - split; vm_compute; reflexivity.
  - reflexivity.
  - vm_compute. reflexivity.
  - split; vm_compute; discriminate.
  - repeat constructor; try discriminate;
      try (eexists; split; [vm_compute; reflexivity|split; vm_compute; reflexivity]);
      try (eexists; vm_compute; reflexivity); vm_compute; discriminate.
  - vm_compute. reflexivity.
  - exists out, r', sr'. split; [exact E|]. split; [exact D|]. split; [exact P|]. split; [|vm_compute; reflexivity].
    apply (f_equal (default [])) in So. rewrite <- (drop_app_length (default [] (sent (world s_pair) 2%nat)) out).
    change (default [] (Some ?l)) with l in So. rewrite <- So. vm_compute. reflexivity.
Defined.
