(* ===== verification/Options.v ===== *)
(** [src/server-config.cpp]: the command line.  [argv] is the list of arguments,
    the program's name first; [initialize] changes the configuration as it walks
    over it. *)
From S2P Require Import Prelude Utils Connection.

(** [atoi]: white space, a sign, digits; no result outside the range of [int]. *)
Definition isspace (c : Z) : bool := (c =? 32) || ((9 <=? c) && (c <=? 13)).

Fixpoint skip_space (s : list Z) : list Z :=
  match s with
  | c :: r => if isspace c then skip_space r else s
  | [] => []
  end.

Fixpoint leading_digits (s : list Z) (v : Z) : Z :=
  match s with
  | c :: r => if isdigit c then leading_digits r (v * 10 + (c - 48)) else v
  | [] => v
  end.

Definition atoi (s : list Z) : outcome Z :=
  let v := match skip_space s with
           | 45 :: r => - leading_digits r 0
           | 43 :: r => leading_digits r 0
           | r => leading_digits r 0
           end in
  if (- 2 ^ 31 <=? v) && (v <? 2 ^ 31) then mret v else Stuck.

Definition set_port (p : Z) (c : ServerConfig) : ServerConfig :=
  MkConfig (role c) p (master_host c) (master_port c) (replication_id c) (offset c) (rdb_file_path c) (rdb_file_name c).
Definition set_master (r : ServerRole) (h : list Z) (p : Z) (c : ServerConfig) : ServerConfig :=
  MkConfig r (port c) h p (replication_id c) (offset c) (rdb_file_path c) (rdb_file_name c).
Definition set_path (d : list Z) (c : ServerConfig) : ServerConfig :=
  MkConfig (role c) (port c) (master_host c) (master_port c) (replication_id c) (offset c) d (rdb_file_name c).
Definition set_name (f : list Z) (c : ServerConfig) : ServerConfig :=
  MkConfig (role c) (port c) (master_host c) (master_port c) (replication_id c) (offset c) (rdb_file_path c) f.

Definition valid_port (p : Z) : bool := (0 <? p) && (p <=? 65535).

(** [find(' ')]. *)
Fixpoint find_space (s : list Z) : option nat :=
  match s with
  | c :: r => if c =? 32 then Some 0%nat else S <$> find_space r
  | [] => None
  end.

Section Arguments.
Context (argv : list (list Z)).

Definition read_port (i : nat) (c : ServerConfig) : outcome (nat * ServerConfig) :=
  arg ← of_option (argv !! i);
  if bool_decide (arg = lit "--port") then
    match argv !! S i with
    | Some value =>
        port ← atoi value;
        mret (S i, if valid_port port then set_port port c else c)
    | None => mret (i, c)
    end
  else mret (i, c).

Definition read_replicaof (i : nat) (c : ServerConfig) : outcome (nat * ServerConfig) :=
  arg ← of_option (argv !! i);
  if is_equal arg (lit "--replicaof") then
    match argv !! S i with
    | Some replica_arg =>
        match find_space replica_arg with
        | Some space_pos =>
            master_port ← atoi (drop (space_pos + 1) replica_arg);
            mret (S i, set_master (if valid_port master_port then SLAVE else role c)
                         (take space_pos replica_arg) master_port c)
        | None => mret (i, c)
        end
    | None => mret (i, c)
    end
  else mret (i, c).

Definition read_file_options (i : nat) (c : ServerConfig) : outcome ServerConfig :=
  arg ← of_option (argv !! i);
  let c := if is_equal arg (lit "--dir") then
             match argv !! S i with Some value => set_path value c | None => c end
           else c in
  mret (if is_equal arg (lit "--dbfilename") then
          match argv !! S i with Some value => set_name value c | None => c end
        else c).

(** The loop; every iteration moves at least one argument forward. *)
Fixpoint initialize_loop (fuel i : nat) (c : ServerConfig) : outcome ServerConfig :=
  if (i <? length argv)%nat then
    match fuel with
    | O => Stuck
    | S fuel =>
        '(i, c) ← read_port i c;
        '(i, c) ← read_replicaof i c;
        c ← read_file_options i c;
        initialize_loop fuel (S i) c
    end
  else mret c.

Definition initialize (c : ServerConfig) : outcome ServerConfig :=
  if (1 <? len argv) && negb (Z.rem (len argv - 1) 2 =? 0) then mret c
  else initialize_loop (length argv) 1 c.
End Arguments.

(** * The options a user means *)
Inductive Setting :=
| Port (p : Z)
| ReplicaOf (host : list Z) (p : Z)
| Dir (d : list Z)
| DbFilename (f : list Z).

Definition write_setting (o : Setting) : list (list Z) :=
  match o with
  | Port p => [lit "--port"; to_string p]
  | ReplicaOf h p => [lit "--replicaof"; h ++ lit " " ++ to_string p]
  | Dir d => [lit "--dir"; d]
  | DbFilename f => [lit "--dbfilename"; f]
  end.

Definition apply_setting (c : ServerConfig) (o : Setting) : ServerConfig :=
  match o with
  | Port p => set_port p c
  | ReplicaOf h p => set_master SLAVE h p c
  | Dir d => set_path d c
  | DbFilename f => set_name f c
  end.

(** A value that is not taken for an option itself. *)
Definition no_option (s : list Z) : Prop :=
  s <> lit "--port" /\ is_equal s (lit "--replicaof") = false /\
  is_equal s (lit "--dir") = false /\ is_equal s (lit "--dbfilename") = false.

Definition proper (o : Setting) : Prop :=
  match o with
  | Port p => valid_port p = true
  | ReplicaOf h p => valid_port p = true /\ Forall (fun x => x <> 32) h
  | Dir d => no_option d
  | DbFilename f => no_option f
  end.

(** * Lemmas *)
Lemma leading_digits_value ds : forall v, Forall (fun c => isdigit c = true) ds ->
  leading_digits ds v = fold_left (fun v c => v * 10 + (c - 48)) ds v.
Proof.
  induction ds as [|c ds IH]; intros v H; [done|]. apply Forall_cons in H as [Hc H].
  cbn [leading_digits fold_left]. rewrite Hc. by apply IH.
Qed.

Lemma to_string_port p : valid_port p = true -> to_string p = udec p /\ 0 <= p < 2 ^ 31.
Proof.
  unfold valid_port. intros [H1%Z.ltb_lt H2%Z.leb_le]%andb_true_iff. split; [|lia].
  unfold to_string. by destruct (Z.ltb_spec p 0); [lia|].
Qed.

Lemma port_digits p : valid_port p = true -> exists c r, to_string p = c :: r /\ 48 <= c <= 57 /\
  Forall (fun c => isdigit c = true) (to_string p).
Proof.
  intros [-> Hp]%to_string_port. pose proof (udec_nonempty p ltac:(lia)) as Hne.
  pose proof (udec_digits p ltac:(lia)) as Hd. destruct (udec p) as [|c r]; [done|].
  exists c, r. split_and!; [done| | |done]; apply Forall_cons in Hd as [Hc%isdigit_spec _]; lia.
Qed.

Lemma atoi_port p : valid_port p = true -> atoi (to_string p) = Done p.
Proof.
  intros Hp. destruct (port_digits p Hp) as (c & r & E & Hc & Hd).
  destruct (to_string_port p Hp) as [Eu Hr].
  assert (Ev : leading_digits (to_string p) 0 = p).
  { rewrite leading_digits_value by done. rewrite Eu. apply (dec_value_udec p). lia. }
  unfold atoi. rewrite E in *. cbn [skip_space]. unfold isspace.
  replace (c =? 32) with false by (symmetry; apply Z.eqb_neq; lia).
  replace (c <=? 13) with false by (symmetry; apply Z.leb_gt; lia). rewrite andb_false_r. cbn [orb].
  replace (match c :: r with 45 :: r => - leading_digits r 0 | 43 :: r => leading_digits r 0
           | r => leading_digits r 0 end) with p.
  2:{ rewrite <- Ev. repeat (case_match; try lia). all: subst; lia || done. }
  replace (_ && _) with true; [done|]. symmetry. apply andb_true_iff. split; [apply Z.leb_le|apply Z.ltb_lt]; lia.
Qed.

(** A value that is no word with two dashes is no option. *)
Lemma is_equal_contains s t x : is_equal s t = true -> x ∈ s -> tolower x ∈ map tolower t.
Proof.
  unfold is_equal. destruct (Z.eqb_spec (len s) (len t)) as [El|]; [|done]. cbn [negb].
  intros E Hx. apply is_equal_loop_map in E; [|unfold len in El; lia]. rewrite <- E. by apply list_elem_of_fmap_2.
Qed.

Lemma not_equal_with s t x : x ∈ s -> (tolower x ∉ map tolower t) -> is_equal s t = false.
Proof.
  intros Hx Ht. destruct (is_equal s t) eqn:E; [|done]. destruct Ht. by eapply is_equal_contains.
Qed.

Lemma no_option_with s x : x ∈ s -> Forall (fun o => tolower x ∉ map tolower (lit o))
    ["--port"%string; "--replicaof"%string; "--dir"%string; "--dbfilename"%string] -> no_option s.
Proof.
  intros Hx Ho. repeat (apply Forall_cons in Ho as [? Ho]). split_and!; [|by eapply not_equal_with..].
  intros ->. by apply (list_elem_of_fmap_2 tolower) in Hx.
Qed.

Lemma no_option_port p : valid_port p = true -> no_option (to_string p).
Proof.
  intros Hp. destruct (port_digits p Hp) as (c & r & -> & Hc & _).
  apply (no_option_with _ c); [by left|].
  assert (H : c = 48 \/ c = 49 \/ c = 50 \/ c = 51 \/ c = 52 \/ c = 53 \/ c = 54 \/ c = 55 \/ c = 56 \/ c = 57) by lia.
  repeat constructor; repeat (destruct H as [->|H]; [by apply (bool_decide_unpack _); vm_compute|]); subst;
    by apply (bool_decide_unpack _); vm_compute.
Qed.

Lemma no_option_replica h p : no_option (h ++ lit " " ++ p).
Proof.
  apply (no_option_with _ 32); [set_solver|].
  repeat constructor; by apply (bool_decide_unpack _); vm_compute.
Qed.

Lemma find_space_at h r : Forall (fun x => x <> 32) h -> find_space (h ++ 32 :: r) = Some (length h).
Proof.
  induction 1 as [|x h Hx Hh IH]; [done|]. cbn [app find_space length]. rewrite IH.
  by destruct (Z.eqb_spec x 32).
Qed.

(** ** The loop *)
Section Loop.
Context (argv : list (list Z)).

Lemma at_drop i x rest : drop i argv = x :: rest -> argv !! i = Some x /\ drop (S i) argv = rest /\ (i < length argv)%nat.
Proof.
  intros E. assert (H : argv !! i = Some x).
  { rewrite <- (Nat.add_0_r i), <- lookup_drop, E. done. }
  split_and!; [done| |by eapply lookup_lt_Some]. 
  replace (S i) with (i + 1)%nat by lia. rewrite <- drop_drop, E. done.
Qed.

(** A value changes nothing. *)
Lemma step_value fuel i c x rest : drop i argv = x :: rest -> no_option x ->
  initialize_loop argv (S fuel) i c = initialize_loop argv fuel (S i) c.
Proof.
  intros E (N1 & N2 & N3 & N4). destruct (at_drop i x rest E) as (Hx & _ & Hl). cbn [initialize_loop].
  destruct (Nat.ltb_spec i (length argv)); [|lia].
  unfold read_port, read_replicaof, read_file_options. rewrite Hx. cbn [of_option]. rewrite !bind_Done.
  rewrite bool_decide_false by done. unfold mret, outcome_ret. rewrite bind_Done. cbv iota.
  rewrite Hx. cbn [of_option]. rewrite bind_Done, N2, bind_Done. cbv iota. rewrite Hx. cbn [of_option].
  by rewrite bind_Done, N3, N4, bind_Done.
Qed.

Lemma step_setting o : proper o -> exists k, (k <= 2)%nat /\ forall fuel i c rest,
  drop i argv = write_setting o ++ rest ->
  initialize_loop argv (k + fuel) i c = initialize_loop argv fuel (2 + i) (apply_setting c o).
Proof.
  intros Ho. exists (match o with Dir _ | DbFilename _ => 2 | _ => 1 end)%nat. split; [by destruct o; lia|].
  intros fuel i c rest E.
  destruct o as [p|h p|d|f]; cbn [write_setting app] in E;
    destruct (at_drop _ _ _ E) as (Hx & E' & Hl); destruct (at_drop _ _ _ E') as (Hy & E2 & Hl').
  - cbn [plus initialize_loop]. destruct (Nat.ltb_spec i (length argv)); [|lia].
    unfold read_port. rewrite Hx, Hy. cbn [of_option]. rewrite bind_Done, bool_decide_true by done.
    rewrite (atoi_port p Ho), bind_Done. unfold mret, outcome_ret. rewrite bind_Done. cbv iota.
    cbn in Ho. rewrite Ho. destruct (no_option_port p Ho) as (_ & N2 & N3 & N4).
    unfold read_replicaof, read_file_options. rewrite Hy. cbn [of_option]. rewrite !bind_Done, N2.
    unfold mret, outcome_ret. rewrite bind_Done. cbv iota. rewrite Hy. cbn [of_option]. by rewrite !bind_Done, N3, N4.
  - destruct Ho as [Hp Hh]. cbn [plus initialize_loop]. destruct (Nat.ltb_spec i (length argv)); [|lia].
    unfold read_port. rewrite Hx. cbn [of_option]. rewrite bind_Done, bool_decide_false by done.
    unfold mret, outcome_ret. rewrite bind_Done. cbv iota. unfold read_replicaof. rewrite Hx, Hy. cbn [of_option].
    rewrite bind_Done. change (is_equal (lit "--replicaof") (lit "--replicaof")) with true. cbv iota.
    change (h ++ lit " " ++ to_string p) with (h ++ 32 :: to_string p).
    rewrite find_space_at by done. replace (drop (length h + 1) _) with (to_string p).
    2:{ change (h ++ 32 :: to_string p) with (h ++ [32] ++ to_string p). rewrite app_assoc. symmetry.
        apply drop_app_length'. rewrite length_app. cbn. lia. }
    rewrite (atoi_port p Hp), bind_Done, Hp. unfold mret, outcome_ret. rewrite bind_Done. cbv iota.
    rewrite take_app_length. destruct (no_option_replica h (to_string p)) as (_ & _ & N3 & N4).
    unfold read_file_options. rewrite Hy. cbn [of_option]. by rewrite bind_Done, N3, N4, bind_Done.
  - change (2 + fuel)%nat with (S (S fuel)).
    transitivity (initialize_loop argv (S fuel) (S i) (set_path d c)); [|by eapply step_value].
    cbn [initialize_loop]. destruct (Nat.ltb_spec i (length argv)); [|lia].
    unfold read_port, read_replicaof, read_file_options. rewrite Hx, Hy. cbn [of_option]. rewrite bind_Done.
    rewrite bool_decide_false by done. unfold mret, outcome_ret. rewrite bind_Done. cbv iota. rewrite Hx. cbn [of_option].
    rewrite bind_Done. change (is_equal (lit "--dir") (lit "--replicaof")) with false. cbv iota. rewrite bind_Done. cbv iota.
    rewrite Hx. cbn [of_option]. rewrite Hy. by rewrite bind_Done.
  - change (2 + fuel)%nat with (S (S fuel)).
    transitivity (initialize_loop argv (S fuel) (S i) (set_name f c)); [|by eapply step_value].
    cbn [initialize_loop]. destruct (Nat.ltb_spec i (length argv)); [|lia].
    unfold read_port, read_replicaof, read_file_options. rewrite Hx, Hy. cbn [of_option]. rewrite bind_Done.
    rewrite bool_decide_false by done. unfold mret, outcome_ret. rewrite bind_Done. cbv iota. rewrite Hx. cbn [of_option].
    rewrite bind_Done. change (is_equal (lit "--dbfilename") (lit "--replicaof")) with false. cbv iota. rewrite bind_Done. cbv iota.
    rewrite Hx. cbn [of_option]. rewrite Hy. by rewrite bind_Done.
Qed.

Lemma loop_settings os : Forall proper os -> forall fuel i c,
  drop i argv = concat (map write_setting os) -> (2 * length os <= fuel)%nat ->
  initialize_loop argv fuel i c = Done (fold_left apply_setting os c).
Proof.
  induction 1 as [|o os Ho Hos IH]; intros fuel i c E Hf; cbn [map concat fold_left length] in *.
  - assert (length argv <= i)%nat.
    { apply (f_equal length) in E. rewrite length_drop in E. cbn in E. lia. }
    destruct fuel; cbn [initialize_loop]; destruct (Nat.ltb_spec i (length argv)); done || lia.
  - destruct (step_setting o Ho) as (k & Hk & Hs).
    replace fuel with (k + (fuel - k))%nat by lia. rewrite (Hs _ _ _ _ E). apply IH; [|lia].
    replace (2 + i)%nat with (i + 2)%nat by lia. rewrite <- drop_drop, E. by destruct o.
Qed.
End Loop.

(** * Properties *)

(** C34: The command line says what it means.  For any list of settings, in any order
    and with repetitions, written as flags with their values, [initialize] gives
    the configuration changed by each setting in turn, provided ports are in
    range, a host name has no blank, and a directory or file name is not itself
    one of the flags. *)
Theorem initialize_reads_settings program os c :
  Forall proper os ->
  initialize (program :: concat (map write_setting os)) c = Done (fold_left apply_setting os c).
Proof.
  intros Hos. assert (El : length (concat (map write_setting os)) = (2 * length os)%nat).
  { clear. induction os as [|o os IH]; [done|]. cbn [map concat length]. rewrite length_app, IH.
    destruct o; cbn; lia. }
  unfold initialize. replace (_ && _) with false.
  - apply loop_settings; [done|done|]. cbn [length]. rewrite El. lia.
  - symmetry. apply andb_false_iff. right. rewrite len_cons. unfold len. rewrite El.
    replace (1 + Z.of_nat (2 * length os) - 1) with (Z.of_nat (length os) * 2) by lia.
    by rewrite Z.rem_mul by lia.
Qed.

Lemma initialize_reads_settings_witness :
  initialize (lit "server" :: concat (map write_setting
    [Port 7000; ReplicaOf (lit "localhost") 6379; Dir (lit "/tmp")])) newConfig
  = Done (set_path (lit "/tmp") (set_master SLAVE (lit "localhost") 6379 (set_port 7000 newConfig))).
Proof.
  apply (initialize_reads_settings (lit "server") [Port 7000; ReplicaOf (lit "localhost") 6379; Dir (lit "/tmp")]).
  repeat constructor; try discriminate.
Defined.
