(* ===== verification/Process.v ===== *)
(** [src/acceptor.cpp], [src/networking.cpp], [src/eventloop.cpp], the set-up and
    the loop of [src/server.cpp], [src/main.cpp]: the process as a whole.  Every
    answer of the kernel is an argument; the descriptors the program closes and
    the [epoll_ctl] calls are recorded.  The theorems: every state the process can
    reach is sound, the master's connection included, and what start-up does in
    every case. *)
From Stdlib Require Import SpecFloat.
From S2P Require Import Prelude Utils Command Parser CommandParser Acl World DbString Db Invariant Frame.
From S2P Require Import Connection Replication SlaveReplication MasterConnection Server Options.

(** * Sockets *)

(** What the kernel answers to the calls that make a listening socket. *)
Record ListenAnswers := MkListen {
  la_socket : Z;
  la_nonblock : bool;
  la_reuseaddr : bool;
  la_address : bool;
  la_bind : bool;
  la_listen : bool
}.

(** The constructor of [Acceptor]: [listen_fd] and the descriptors closed. *)
Definition make_acceptor (k : ListenAnswers) : Z * list Z :=
  let listen_fd := la_socket k in
  if listen_fd <? 0 then (listen_fd, [])
  else if negb (la_nonblock k) then (-1, [listen_fd])
  else if negb (la_reuseaddr k) then (-1, [listen_fd])
  else if negb (la_address k) then (-1, [listen_fd])
  else if negb (la_bind k) then (-1, [listen_fd])
  else if negb (la_listen k) then (-1, [listen_fd])
  else (listen_fd, []).

Definition isValid (listen_fd : Z) : bool := negb (listen_fd =? -1).

(** [Acceptor::handleRead]: what each [accept] gives; the first failure ends the
    loop. *)
Fixpoint accept_loop (answers : list (option Z)) : SM unit :=
  match answers with
  | Some client_fd :: answers => onNewConnection client_fd;; accept_loop answers
  | None :: _ => mret tt
  | [] => fun _ => Stuck
  end.

(** The answers to the calls of [connect_client]; [inet_pton] has three. *)
Record ConnectAnswers := MkConnect { ca_socket : Z; ca_inet_pton : Z; ca_connect : Z }.

Definition connect_client (k : ConnectAnswers) : option Z :=
  if ca_socket k <? 0 then None
  else if ca_inet_pton k <? 0 then None
  else if ca_connect k <? 0 then None
  else Some (ca_socket k).

(** * The process *)

(** [exit_code] is set once the process has ended. *)
Record Process := MkProcess {
  server : Server;
  listen_fd : Z;
  master : option MasterConnection;
  closed_fds : list Z;
  exit_code : option Z
}.

Definition with_server (s : Server) (p : Process) : Process :=
  MkProcess s (listen_fd p) (master p) (closed_fds p) (exit_code p).
Definition with_master (m : option MasterConnection) (p : Process) : Process :=
  MkProcess (server p) (listen_fd p) m (closed_fds p) (exit_code p).
Definition exit (code : Z) (p : Process) : Process :=
  MkProcess (server p) (listen_fd p) (master p) (closed_fds p) (Some code).

Definition close_fds (l : list Z) (p : Process) : Process :=
  MkProcess (server p) (listen_fd p) (master p) (closed_fds p ++ l) (exit_code p).

Definition on_server {A} (m : SM A) (p : Process) : outcome (A * Process) :=
  r ← m (server p); mret (r.1, with_server r.2 p).

Definition Acceptor_handleClose (p : Process) : Process :=
  if listen_fd p =? -1 then p
  else
    close_fds [listen_fd p]
      (MkProcess (with_epoll (fun l => l ++ [Remove (listen_fd p)]) (server p)) (-1) (master p)
         (closed_fds p) (exit_code p)).

(** The descriptor that [MasterConnection::handleClose] closes. *)
Definition lost (m m' : MasterConnection) : list Z :=
  if is_connected m && negb (is_connected m') && bool_decide (is_Some (slave_client m)) then [getfd m] else [].

(** [handle_master_disconnection]: the connection object goes, then the process. *)
Definition handle_master_disconnection (p : Process) : Process := exit 1 (with_master None p).

(** ** The event loop *)

Inductive Handler :=
| AcceptorHandler
| ConnectionHandler (conn : cid)
| MasterHandler.

Definition EPOLLERR : Z := 8.
Definition EPOLLHUP : Z := 16.

(** One element of what [epoll_wait] filled in, with the answers to the system
    calls that its handling makes. *)
Record Ready := MkReady {
  handler : Handler;
  mask : Z;
  accepts : list (option Z);
  reads : list (list Z);
  last_read : ReadEnd;
  writes : list WriteResult
}.

Section Loop.
Context (env : Env) (stod : list Z -> option spec_float) (read_file : list Z -> option (list Z)).

Definition handle_read (e : Ready) (p : Process) : outcome Process :=
  match handler e with
  | AcceptorHandler => r ← on_server (accept_loop (accepts e)) p; mret r.2
  | ConnectionHandler conn =>
      r ← on_server (Connection.handleRead (processClientRequest env stod read_file) conn (reads e) (last_read e)) p;
      mret r.2
  | MasterHandler =>
      m ← of_option (master p);
      r ← on_server (MasterConnection.handleRead env stod (reads e) (last_read e) m) p;
      let p := with_master (Some r.1) (close_fds (lost m r.1) r.2) in
      mret (if disconnected r.1 then handle_master_disconnection p else p)
  end.

Definition handle_write (e : Ready) (p : Process) : outcome Process :=
  match handler e with
  | AcceptorHandler => mret p
  | ConnectionHandler conn => r ← on_server (Connection.handleWrite conn (writes e)) p; mret r.2
  | MasterHandler =>
      m ← of_option (master p);
      r ← on_server (MasterConnection.handleWrite (writes e) m) p;
      mret (with_master (Some r.1.2) r.2)
  end.

(** One turn of the loop of [EpollEventLoop::run]. *)
Definition dispatch (e : Ready) (p : Process) : outcome Process :=
  p ← (if negb (Z.land (mask e) (Z.lor EPOLLIN (Z.lor EPOLLHUP EPOLLERR)) =? 0) then handle_read e p else mret p);
  if bool_decide (exit_code p <> None) then mret p
  else if negb (Z.land (mask e) EPOLLOUT =? 0) then handle_write e p else mret p.
End Loop.

(** [EpollEventLoop::run], each event with the clock readings of its handling;
    nothing runs once the process has ended. *)
Fixpoint run_events (stod : list Z -> option spec_float) (read_file : list Z -> option (list Z))
    (events : list (Env * Ready)) (p : Process) : outcome Process :=
  match events with
  | [] => mret p
  | (env, e) :: events =>
      p ← dispatch env stod read_file e p;
      if bool_decide (exit_code p <> None) then mret p else run_events stod read_file events p
  end.

(** One turn of the loop of [Server::run]. *)
Definition iterate (env : Env) (stod : list Z -> option spec_float) (read_file : list Z -> option (list Z))
    (events : list (Env * Ready)) (p : Process) : outcome Process :=
  _ ← next_timeout env (server p);
  p ← run_events stod read_file events p;
  if bool_decide (exit_code p <> None) then mret p
  else r ← on_server (handle_expired_blocked_clients env) p; mret r.2.

(** * Start-up *)

(** [Server::setup]: what it returns and the process afterwards. *)
Definition setup (la : ListenAnswers) (ca : ConnectAnswers) (p : Process) : outcome (Z * Process) :=
  let '(fd, closed) := make_acceptor la in
  let p := close_fds closed (MkProcess (server p) fd (master p) (closed_fds p) (exit_code p)) in
  if negb (isValid fd) then mret (1, p)
  else
    r ← on_server (epoll (Register fd READ_EVENT)) p;
    let p := r.2 in
    let config := config (server p) in
    if bool_decide (role config = SLAVE) then
      r ← on_server (make (connect_client ca) (port config mod 2 ^ 16)) p;
      let '(m, p) := r in
      if negb (is_connected m) then mret (1, with_master (Some m) p)
      else mret (0, with_master (Some (setDisconnectCallback m)) p)
    else mret (0, p).

Definition newProcess (config : ServerConfig) : Process := MkProcess (newServer config) (-1) None [] None.

(** [main] up to the loop: the options, the set-up, the snapshot.  A failed set-up
    ends the process. *)
Definition start (env : Env) (read_file : list Z -> option (list Z)) (argv : list (list Z))
    (la : ListenAnswers) (ca : ConnectAnswers) : outcome Process :=
  config ← initialize argv newConfig;
  r ← setup la ca (newProcess config);
  let '(status, p) := r in
  if status =? 1 then mret (exit 1 p)
  else r ← on_server (load_snapshot env read_file) p; mret r.2.

(** * The invariant of the replica's client *)

(** A client that is about to be given a reference: its user exists and nothing
    in its queue ends a transaction. *)
Definition sound_client (s : Server) (x : Client) : Prop :=
  (forall u, user x = Some u -> is_Some (deref (acl (world s)) u)) /\ Forall exec_free (queued_commands x).

(** The handshake is over exactly when its state says so; the client knows its
    data base. *)
Record slave_ok (s : Server) (r : SlaveReplicationClient) : Prop := {
  so_client : sound_client s (base r);
  so_status : is_handshake_completed r = true <-> replication_status r = HANDSHAKE_SUCCESS;
  so_attached : attached r = true
}.

(** From [s] to [s'] the invariant was kept and no user was lost. *)
Definition grows (s s' : Server) : Prop :=
  forall u, is_Some (deref (acl (world s)) u) -> is_Some (deref (acl (world s')) u).

Lemma slave_ok_grows s s' r : grows s s' -> slave_ok s r -> slave_ok s' r.
Proof. intros G [[A B] C D]. split; [|done|done]. split; [|done]. intros u Hu. by apply G, A. Qed.

Lemma slave_ok_buffers s r r' :
  user (base r') = user (base r) -> queued_commands (base r') = queued_commands (base r) ->
  is_handshake_completed r' = is_handshake_completed r -> replication_status r' = replication_status r ->
  attached r' = attached r -> slave_ok s r -> slave_ok s r'.
Proof.
  intros E1 E2 E3 E4 E5 [[A B] C D]. split; [|by rewrite E3, E4|by rewrite E5]. split; [by rewrite E1|by rewrite E2].
Qed.

(** The world with the replica's client in it is sound. *)
Lemma Inv_with_client s ref x fd cmd : Inv (world s) -> sound_client s x ->
  Inv (with_ctx (fun _ => newContext ref fd cmd) (with_clients (<[ref := x]>) (world s))).
Proof.
  intros [] [Hu Hq]. split; cbn; [done|done| |]; intros c y.
  - intros v. destruct (decide (c = ref)) as [->|Hne]; [rewrite lookup_insert_eq|rewrite lookup_insert_ne by done].
    + intros [= <-]. apply Hu.
    + apply inv_user.
  - destruct (decide (c = ref)) as [->|Hne]; [rewrite lookup_insert_eq|rewrite lookup_insert_ne by done].
    + by intros [= <-].
    + apply inv_queue.
Qed.

Section Replica.
Context (env : Env) (stod : list Z -> option spec_float).

Lemma execute_one_sound cmd r s r' s' : SInv s -> slave_ok s r -> execute_one env cmd r s = Done (r', s') ->
  SInv s' /\ grows s s' /\ slave_ok s' r'.
Proof.
  intros I R. unfold execute_one, gets, update, mbind, SM_bind.
  destruct (on_world _ _) as [[[] s1]|] eqn:E; [|done]. revert E. unfold on_world.
  set (s0 := with_world _ (with_world _ _)). destruct (execute env _ (world s0)) as [[[] w]|] eqn:E; [|done].
  intros [= <-]. unfold owner. cbn [with_world world].
  destruct (clients w !! next_ref s) as [x|] eqn:Ex; [|done].
  unfold lift_s, of_option. cbn. destruct (command (ctx w)) as [c|]; cbn; [|done]. intros [= <- <-].
  assert (I0 : Inv (world s0)) by (apply (Inv_with_client s); [apply I|apply R]).
  assert (Iw : Inv w) by (by eapply keeps_execute).
  pose proof (frames_execute _ _ _ _ _ E) as F.
  assert (Hk : forall d, d <> next_ref s -> fd <$> clients w !! d = fd <$> clients (world s) !! d).
  { intros d Hd. pose proof (fr_fixed _ _ F d) as G. cbn in G. rewrite lookup_insert_ne in G by done.
    destruct (clients w !! d), (clients (world s) !! d); try done. cbn in *. injection G as _ G _ _. by rewrite G. }
  assert (Hn : forall d y, clients (world s) !! d = Some y -> d <> next_ref s).
  { intros d y Hy ->. destruct (si_clients _ I _ _ Hy). lia. }
  assert (Hu : forall d y, clients (world s) !! d = Some y ->
    exists z, delete (next_ref s) (clients w) !! d = Some z /\ fd z = fd y).
  { intros d y Hy. pose proof (Hn d y Hy) as Hd. rewrite lookup_delete_ne by done. specialize (Hk d Hd).
    rewrite Hy in Hk. destruct (clients w !! d) as [z|]; [|done]. exists z. split; [done|]. by injection Hk. }
  split_and!; [|exact (fr_users _ _ F)|].
  - destruct I. split; cbn.
    + destruct Iw. split; cbn; [done|done|..]; intros d y; [intros u|]; rewrite lookup_delete_Some; intros [_ Hy]; eauto.
    + intros f d Hf. destruct (si_active f d Hf) as (y & Hy & <-). by apply (Hu d y).
    + intros d y [Hd Hy]%lookup_delete_Some. specialize (Hk d (not_eq_sym Hd)). rewrite Hy in Hk.
      destruct (clients (world s) !! d) as [z|] eqn:Hz; [|done]. injection Hk as ->.
      destruct (si_clients d z Hz). split; [done|lia].
    + intros f d Hf. destruct (si_slaves f d Hf) as (y & Hy & <-). by apply (Hu d y).
    + intros y. rewrite (fr_client _ _ F). cbn. by rewrite lookup_delete_eq.
    + rewrite (fr_client _ _ F). cbn. lia.
  - destruct R as [_ C D]. split; [|done|done]. destruct Iw. split; cbn; [intros u; by eapply inv_user|by eapply inv_queue].
Qed.

Lemma process_loop_sound n : forall r s r' s', SInv s -> slave_ok s r ->
  process_loop env stod n r s = Done (r', s') -> SInv s' /\ grows s s' /\ slave_ok s' r'.
Proof.
  induction n as [|n IH]; intros r s r' s' I R; cbn [process_loop]; [done|].
  destruct (_ || _); [intros [= <- <-]; split_and!; [done|by intros u|done]|].
  unfold mbind, SM_bind. destruct (lift_s _ s) as [[[cmd st] s1]|] eqn:E; [|done].
  assert (s1 = s) as ->. { unfold lift_s in E. destruct (parseCommand stod _); [by injection E|done]. }
  assert (R1 : slave_ok s (set_read_buffer (CommandParser.read_buffer st) r)) by (by eapply slave_ok_buffers; [..|exact R]).
  destruct (bool_decide _); [intros [= <- <-]; split_and!; [done|by intros u|done]|].
  unfold process_one. destruct (is_getack cmd).
  - apply IH; [done|]. by eapply slave_ok_buffers; [..|exact R1].
  - destruct (execute_one env cmd _ s) as [[r2 s2]|] eqn:E2; [|done].
    apply execute_one_sound in E2 as (I2 & G2 & R2); [|done|done]. intros H.
    apply IH in H as (? & G & ?); [|done|done]. split_and!; [done| |done]. intros u Hu. by apply G, G2.
Qed.

Lemma handshake_sound s r : slave_ok s r -> is_handshake_completed r = false -> slave_ok s (handle_handshake_read r).
Proof.
  intros R Hc. unfold handle_handshake_read. destruct (parse_simple_string _) as [status response].
  destruct (negb status); [done|]. cbv zeta.
  assert (Hs : replication_status r <> HANDSHAKE_SUCCESS).
  { intros E. apply (so_status _ _ R) in E. congruence. }
  assert (P : forall st, st <> HANDSHAKE_SUCCESS ->
    slave_ok s (set_read_buffer [] (prepare_handshake_write (set_read_buffer [] (with_status st r))))).
  { intros st Hst. destruct R as [[A B] C D]. destruct r as [b q p done_ i o n a]. cbn in *. subst done_.
    destruct st; split; cbn; try done; by split. }
  repeat case_match; try (by apply P); try (by eapply slave_ok_buffers; [..|exact R]); try done.
  destruct R as [[A B] C D]. by split; [split| |].
Qed.

Lemma process_read_buffer_sound r s r' s' : SInv s -> slave_ok s r ->
  process_read_buffer env stod r s = Done (r', s') -> SInv s' /\ grows s s' /\ slave_ok s' r'.
Proof.
  intros I R. unfold process_read_buffer, process_commands.
  destruct (is_handshake_completed r) eqn:Hc; cbn [negb]; [by apply process_loop_sound|].
  pose proof (handshake_sound s r R Hc) as R1. cbv zeta. destruct (_ && _); [by apply process_loop_sound|].
  intros [= <- <-]. split_and!; [done|by intros u|done].
Qed.
End Replica.

(** * The invariant of the process *)

Definition growing {A} (m : SM A) : Prop := forall s a s', m s = Done (a, s') -> grows s s'.

Lemma grows_refl s : grows s s.
Proof. by intros u. Qed.
Lemma grows_trans s1 s2 s3 : grows s1 s2 -> grows s2 s3 -> grows s1 s3.
Proof. intros G1 G2 u Hu. by apply G2, G1. Qed.

Lemma growing_kept {A} (m : SM A) : skeeps m -> growing m.
Proof. intros K s a s' E. exact (kept_users _ _ (K _ _ _ E)). Qed.
Lemma growing_ret {A} (a : A) : growing (mret a).
Proof. intros s b s' [= _ <-]. apply grows_refl. Qed.
Lemma growing_bind {A B} (m : SM A) (f : A -> SM B) : growing m -> (forall a, growing (f a)) -> growing (m ≫= f).
Proof.
  intros Hm Hf s b s' E. unfold mbind, SM_bind in E. destruct (m s) as [[a s1]|] eqn:E1; [|done].
  eapply grows_trans; [by eapply Hm|by eapply Hf].
Qed.
Lemma growing_update f : (forall s, acl (world (f s)) = acl (world s)) -> growing (update f).
Proof. intros Hf s a s' [= _ <-] u. by rewrite Hf. Qed.
Lemma growing_gets {A} (f : Server -> A) : growing (gets f).
Proof. intros s a s' [= _ <-]. apply grows_refl. Qed.
Lemma growing_client c f : growing (on_world (update_client c f)).
Proof.
  intros s a s'. unfold on_world, update_client. destruct (clients (world s) !! c); [|done].
  intros [= _ <-]. by intros u.
Qed.
Lemma growing_lift {A} (m : outcome A) : growing (lift_s m).
Proof. apply growing_kept, skeeps_lift. Qed.
Lemma growing_owner c : growing (owner c).
Proof. apply growing_kept, skeeps_owner. Qed.
Lemma growing_epoll e : growing (epoll e).
Proof. apply growing_kept, skeeps_epoll. Qed.

Create HintDb growing.
#[export] Hint Resolve growing_ret growing_gets growing_client growing_lift growing_owner growing_epoll : growing.
#[export] Hint Extern 1 (growing (update _)) => by apply growing_update : growing.

Ltac grow :=
  lazymatch goal with
  | |- growing (_ ≫= _) => apply growing_bind; [grow | intros; grow]
  | |- growing (let _ := _ in _) => cbv zeta; grow
  | |- growing (match ?x with _ => _ end) => destruct x; grow
  | |- _ => first [ solve [eauto with growing] | idtac ]
  end.

Lemma growing_new_connection f : growing (onNewConnection f).
Proof. unfold onNewConnection. grow. Qed.

Lemma growing_request env stod read_file conn : growing (processClientRequest env stod read_file conn).
Proof.
  intros s a s' E. unfold processClientRequest in E. revert E.
  apply growing_bind; [grow|]. intros x. cbv zeta. apply growing_bind; [grow|]. intros [c|]; [|grow].
  apply growing_bind; [unfold read_command; grow|]. intros _. apply growing_kept, skeeps_after_parsing.
Qed.

Lemma growing_read env stod read_file conn last chunks :
  growing (Connection.handleRead (processClientRequest env stod read_file) conn chunks last).
Proof.
  induction chunks as [|b chunks IH]; cbn [Connection.handleRead].
  - destruct last; [apply growing_request|unfold handleError; grow|unfold Connection.handleClose; grow].
  - apply growing_bind; [grow|]. by intros _.
Qed.

(** What holds of every state of the process: the server is sound, so is the
    replica's client, and as long as the process runs a replica counts as
    connected to its master and would end with that connection. *)
Record PInv (p : Process) : Prop := {
  pi_server : SInv (server p);
  pi_slave m r : master p = Some m -> slave_client m = Some r -> slave_ok (server p) r;
  pi_master m : exit_code p = None -> master p = Some m ->
    is_connected m = true /\ has_callback m = true /\ disconnected m = false /\ is_Some (slave_client m)
}.

Lemma PInv_server p s : PInv p -> SInv s -> grows (server p) s -> PInv (with_server s p).
Proof.
  intros [A B C] H G. split; [done| |done]. intros m r Hm Hr. eapply slave_ok_grows; [exact G|]. by eapply B.
Qed.

(** The kernel never hands out a descriptor that is open, nor one twice. *)
Definition fresh_fds (s : Server) (l : list Z) : Prop :=
  NoDup l /\ Forall (fun f => active_connections s !! f = None) l.

Definition fresh_ready (p : Process) (e : Ready) : Prop :=
  match handler e with
  | AcceptorHandler => fresh_fds (server p) (omap id (accepts e))
  | _ => True
  end.

Lemma onNewConnection_active f s s' : onNewConnection f s = Done (tt, s') ->
  exists c, active_connections s' = <[f := c]> (active_connections s).
Proof.
  unfold onNewConnection. rewrite (bind_Done_S _ _ s (acl (world s)) s) by done. cbv zeta.
  destruct (deref _ _) as [u|]; [|done]. intros [= <-]. by eexists.
Qed.

Lemma accept_loop_sound l : forall s s', SInv s -> fresh_fds s (omap id l) -> accept_loop l s = Done (tt, s') ->
  SInv s' /\ grows s s'.
Proof.
  induction l as [|[f|] l IH]; intros s s' I [Hn Hf]; cbn [accept_loop]; [done| |].
  - cbn in Hn, Hf. apply NoDup_cons in Hn as [Hin Hn]. apply Forall_cons in Hf as [Hf Hl].
    unfold mbind, SM_bind. destruct (onNewConnection f s) as [[[] s1]|] eqn:E; [|done]. intros H.
    destruct (onNewConnection_active _ _ _ E) as [c Ha]. apply IH in H as [I' G].
    + split; [done|]. eapply grows_trans; [by eapply growing_new_connection|done].
    + by eapply onNewConnection_SInv.
    + split; [done|]. rewrite Forall_forall in Hl |- *. intros g Hg. rewrite Ha, lookup_insert_ne; [by apply Hl|].
      by intros <-.
  - intros [= <-]. split; [done|apply grows_refl].
Qed.

(** ** The master's connection *)

(** How a handler leaves the connection to the master: as it was, or with the
    disconnect callback called. *)
Record master_ok (s : Server) (m : MasterConnection) : Prop := {
  mo_slave r : slave_client m = Some r -> slave_ok s r;
  mo_connected : disconnected m = false -> is_connected m = true /\ has_callback m = true /\ is_Some (slave_client m)
}.

Lemma skeeps_keep {A} (m : SM A) s a s' : skeeps m -> SInv s -> m s = Done (a, s') -> SInv s' /\ grows s s'.
Proof. intros K I E. split; [by apply (kept_inv s s'); [eapply K, E|]|by eapply growing_kept, E]. Qed.

Lemma slave_ok_base s r f :
  (forall x, user (f x) = user x) -> (forall x, queued_commands (f x) = queued_commands x) ->
  slave_ok s r -> slave_ok s (with_base f r).
Proof. intros Hu Hq. by apply slave_ok_buffers; [apply Hu|apply Hq|..]. Qed.

Lemma master_close_sound s m s' m' : SInv s -> master_ok s m -> disconnected m = false ->
  MasterConnection.handleClose m s = Done (m', s') -> SInv s' /\ grows s s' /\ master_ok s' m'.
Proof.
  intros I [Hr Hc] Hd. destruct (Hc Hd) as (C & B & S). unfold MasterConnection.handleClose. rewrite C. cbn [negb].
  unfold mbind, SM_bind. destruct (epoll _ s) as [[[] s1]|] eqn:E; [|done]. intros [= <- <-].
  apply skeeps_keep in E as [I1 G]; [|apply skeeps_epoll|done]. split_and!; [done|done|].
  split; cbn; [|rewrite B, orb_true_r; done].
  intros r. destruct (slave_client m) as [r0|] eqn:Er; cbn; [|done]. intros [= <-].
  apply slave_ok_base; [done|done|]. eapply slave_ok_grows; [exact G|]. by apply Hr.
Qed.

Lemma master_read_sound env stod chunks last s m s' m' : SInv s -> master_ok s m -> disconnected m = false ->
  MasterConnection.handleRead env stod chunks last m s = Done (m', s') -> SInv s' /\ grows s s' /\ master_ok s' m'.
Proof.
  intros I O Hd. destruct (mo_connected _ _ O Hd) as (C & B & [r Hr]). unfold MasterConnection.handleRead.
  rewrite Hr. cbv zeta. set (r1 := set_read_buffer _ r).
  assert (R1 : slave_ok s r1) by (apply slave_ok_base; [done|done|by apply O]).
  assert (O1 : master_ok s (with_slave r1 m)) by (split; cbn; [by intros ? [= <-]|eauto]).
  destruct last.
  - unfold mbind, SM_bind. destruct (process_read_buffer env stod r1 s) as [[r2 s2]|] eqn:E; [|done].
    apply process_read_buffer_sound in E as (I2 & G2 & R2); [|done|done].
    set (k := if has_data_to_write r2 then _ else _). destruct (k s2) as [[[] s3]|] eqn:E; [|done]. intros [= <- <-].
    apply skeeps_keep in E as [I3 G3]; [|subst k; destruct (has_data_to_write r2); apply skeeps_epoll|done].
    split_and!; [done|by eapply grows_trans|]. split; cbn; [|eauto]. intros ? [= <-]. by eapply slave_ok_grows.
  - by apply master_close_sound.
  - intros [= <- <-]. split_and!; [done|apply grows_refl|done].
Qed.

Lemma master_write_sound results s m s' out m' : SInv s -> master_ok s m ->
  MasterConnection.handleWrite results m s = Done (out, m', s') -> SInv s' /\ grows s s' /\ master_ok s' m'.
Proof.
  intros I O. unfold MasterConnection.handleWrite. destruct (slave_client m) as [r|] eqn:Hr.
  2:{ intros [= _ <- <-]. split_and!; [done|apply grows_refl|done]. }
  cbv zeta. unfold mbind at 1, SM_bind at 1.
  destruct (lift_s _ s) as [[[n e] s1]|] eqn:E; [|done].
  assert (s1 = s) as -> by (unfold lift_s in E; destruct (write_loop _ _ _); [by injection E|done]).
  assert (K : forall b, master_ok s (with_slave (with_base (with_write_buffer (fun _ => b)) r) m)).
  { intros b. split; cbn; [|intros Hd; destruct (mo_connected _ _ O Hd) as (? & ? & ?); eauto].
    intros ? [= <-]. apply slave_ok_base; [done|done|by apply O]. }
  destruct e.
  - unfold mbind, SM_bind. destruct (epoll _ s) as [[[] s2]|] eqn:E2; [|done]. intros [= _ <- <-].
    apply skeeps_keep in E2 as [I2 G2]; [|apply skeeps_epoll|done]. split_and!; [done|done|].
    destruct (K []) as [A D]. split; [|exact D]. intros x Hx. eapply slave_ok_grows; [exact G2|by apply A].
  - intros [= _ <- <-]. split_and!; [done|apply grows_refl|apply K].
  - intros [= _ <- <-]. split_and!; [done|apply grows_refl|done].
Qed.

Lemma PInv_master p m : PInv p -> exit_code p = None -> master p = Some m -> master_ok (server p) m /\ disconnected m = false.
Proof.
  intros [A B C] He Hm. destruct (C m He Hm) as (C1 & C2 & C3 & C4). split; [|done].
  split; [by intros r; apply B|done].
Qed.

(** A new state of the connection to the master. *)
Lemma PInv_with_master p s m : PInv p -> SInv s -> grows (server p) s -> master_ok s m -> disconnected m = false ->
  PInv (with_master (Some m) (with_server s p)).
Proof.
  intros P I G O Hd. split; cbn; [done| |].
  - intros m' r [= <-]. apply O.
  - intros m' _ [= <-]. destruct (mo_connected _ _ O Hd) as (? & ? & ?). by split_and!.
Qed.

(** ** Events *)
Section Dispatch.
Context (env : Env) (stod : list Z -> option spec_float) (read_file : list Z -> option (list Z)).

Lemma on_server_eq {A} (m : SM A) p a p' : on_server m p = Done (a, p') ->
  exists s, m (server p) = Done (a, s) /\ p' = with_server s p.
Proof. unfold on_server. destruct (m (server p)) as [[b s]|]; [|done]. intros [= <- <-]. by exists s. Qed.

Lemma handle_read_PInv e p p' : PInv p -> exit_code p = None -> fresh_ready p e ->
  handle_read env stod read_file e p = Done p' -> PInv p'.
Proof.
  intros P He Hf. unfold handle_read. unfold fresh_ready in Hf. destruct (handler e) as [|conn|].
  - destruct (on_server _ p) as [[[] q]|] eqn:E; [|done]. intros [= <-]. cbn.
    apply on_server_eq in E as (s & E & ->). apply accept_loop_sound in E as [I G]; [|apply P|done].
    by apply PInv_server.
  - destruct (on_server _ p) as [[[] q]|] eqn:E; [|done]. intros [= <-]. cbn.
    apply on_server_eq in E as (s & E & ->). apply PInv_server; [done| |by eapply growing_read, E].
    by eapply handleRead_SInv, E; apply P.
  - destruct (master p) as [m|] eqn:Hm; [|done]. cbn [of_option]. unfold mbind, outcome_bind.
    destruct (on_server _ p) as [[m' q]|] eqn:E; [|done]. intros [= <-]. cbn [fst snd].
    apply on_server_eq in E as (s & E & ->). destruct (PInv_master p m P He Hm) as [O Hd].
    apply master_read_sound in E as (I & G & O'); [|apply P|done|done].
    destruct (disconnected m') eqn:Hd'.
    + by split; cbn.
    + destruct (PInv_with_master p s m' P I G O' Hd'). by split.
Qed.

Lemma handle_write_PInv e p p' : PInv p -> exit_code p = None -> handle_write e p = Done p' -> PInv p'.
Proof.
  intros P He. unfold handle_write. destruct (handler e) as [|conn|].
  - by intros [= <-].
  - destruct (on_server _ p) as [[b q]|] eqn:E; [|done]. intros [= <-]. cbn.
    apply on_server_eq in E as (s & E & ->).
    apply skeeps_keep in E as [I G]; [|apply skeeps_handleWrite|apply P]. by apply PInv_server.
  - destruct (master p) as [m|] eqn:Hm; [|done]. cbn [of_option]. unfold mbind, outcome_bind.
    destruct (on_server _ p) as [[[out m'] q]|] eqn:E; [|done]. intros [= <-]. cbn [fst snd].
    apply on_server_eq in E as (s & E & ->). destruct (PInv_master p m P He Hm) as [O Hd].
    pose proof E as E0. apply master_write_sound in E as (I & G & O'); [|apply P|done].
    apply PInv_with_master; try done. revert E0. unfold MasterConnection.handleWrite.
    destruct (slave_client m); [|by intros [= _ <- _]]. unfold mbind at 1, SM_bind at 1.
    destruct (lift_s _ _) as [[[n e'] s1]|]; [|done].
    destruct e'; [unfold mbind, SM_bind; destruct (epoll _ s1) as [[[] s2]|]; [|done]|..]; by intros [= _ <- _].
Qed.
End Dispatch.

Lemma dispatch_PInv env stod read_file e p p' : PInv p -> exit_code p = None -> fresh_ready p e ->
  dispatch env stod read_file e p = Done p' -> PInv p'.
Proof.
  intros P He Hf. unfold dispatch.
  assert (K : forall q, (if negb (Z.land (mask e) (Z.lor EPOLLIN (Z.lor EPOLLHUP EPOLLERR)) =? 0)
                         then handle_read env stod read_file e p else mret p) = Done q -> PInv q).
  { intros q. destruct (negb _); [by apply handle_read_PInv|]. by intros [= <-]. }
  destruct (if negb _ then _ else _) as [q|]; [|done]. specialize (K q eq_refl).
  unfold mbind, outcome_bind. destruct (bool_decide _) eqn:Hq; [by intros [= <-]|].
  apply bool_decide_eq_false, dec_stable in Hq. destruct (negb _); [by apply handle_write_PInv|]. by intros [= <-].
Qed.

(** The events of one wait, each with descriptors that are new at that moment. *)
Fixpoint fresh_run (stod : list Z -> option spec_float) (read_file : list Z -> option (list Z))
    (events : list (Env * Ready)) (p : Process) : Prop :=
  match events with
  | [] => True
  | (env, e) :: events =>
      fresh_ready p e /\
      forall p', dispatch env stod read_file e p = Done p' -> fresh_run stod read_file events p'
  end.

Lemma run_events_PInv stod read_file events : forall p p', PInv p -> exit_code p = None ->
  fresh_run stod read_file events p -> run_events stod read_file events p = Done p' -> PInv p'.
Proof.
  induction events as [|[env e] events IH]; intros p p' P He Hf; cbn [run_events]; [by intros [= <-]|].
  destruct Hf as [Hf Hr]. destruct (dispatch env stod read_file e p) as [q|] eqn:E; [|done].
  unfold mbind, outcome_bind. assert (Q : PInv q) by (by eapply dispatch_PInv).
  destruct (bool_decide _) eqn:Hq; [by intros [= <-]|]. apply bool_decide_eq_false, dec_stable in Hq.
  apply IH; [done|done|]. by apply Hr.
Qed.

Lemma iterate_PInv env stod read_file events p p' : PInv p -> exit_code p = None ->
  fresh_run stod read_file events p -> iterate env stod read_file events p = Done p' -> PInv p'.
Proof.
  intros P He Hf. unfold iterate. destruct (next_timeout env (server p)) as [t|]; [|done].
  unfold mbind, outcome_bind. destruct (run_events stod read_file events p) as [q|] eqn:E; [|done].
  assert (Q : PInv q) by (by eapply run_events_PInv).
  destruct (bool_decide _); [by intros [= <-]|].
  destruct (on_server _ q) as [[[] q']|] eqn:E'; [|done]. intros [= <-]. cbn.
  apply on_server_eq in E' as (s & E' & ->). apply skeeps_keep in E' as [I G]; [|apply skeeps_clock|apply Q].
  by apply PInv_server.
Qed.

(** ** Start-up *)
Lemma newProcess_PInv config : PInv (newProcess config).
Proof. split; [apply newServer_SInv|done|done]. Qed.

Lemma make_sound sockfd port s m s' : SInv s -> make sockfd port s = Done (m, s') ->
  SInv s' /\ grows s s' /\ (is_connected m = true -> master_ok s' (setDisconnectCallback m)) /\
  (forall r, slave_client m = Some r -> is_connected m = true) /\ disconnected m = false.
Proof.
  intros I. destruct sockfd as [f|]; cbn [make].
  - unfold mbind, SM_bind. destruct (epoll _ s) as [[[] s1]|] eqn:E; [|done]. intros [= <- <-].
    apply skeeps_keep in E as [I1 G]; [|apply skeeps_epoll|done].
    split_and!; [done|done| |done|done]. intros _. split; cbn; [|by eauto]. intros r [= <-].
    by split; [split| |].
  - intros [= <- <-]. split_and!; [done|apply grows_refl|done|done|done].
Qed.

Lemma setup_PInv la ca p st p' : PInv p -> exit_code p = None -> master p = None ->
  setup la ca p = Done (st, p') -> PInv (if st =? 1 then exit 1 p' else p').
Proof.
  intros P He Hm. unfold setup. destruct (make_acceptor la) as [f closed].
  set (q := close_fds _ _). assert (Q : PInv q /\ exit_code q = None /\ master q = None).
  { split_and!; [|done|done]. destruct P. by split. }
  clearbody q. destruct Q as (Q & Hq & Hmq). destruct (isValid f); cbn [negb].
  2:{ intros [= <- <-]. cbn. destruct Q. by split. }
  destruct (on_server _ q) as [[[] q1]|] eqn:E; [|done]. unfold mbind, outcome_bind. cbv zeta. cbn [snd].
  apply on_server_eq in E as (s & E & ->). apply skeeps_keep in E as [I G]; [|apply skeeps_epoll|apply Q].
  assert (Q1 : PInv (with_server s q)) by (by apply PInv_server).
  destruct (bool_decide _); [|by intros [= <- <-]].
  destruct (on_server _ (with_server s q)) as [[m q2]|] eqn:E2; [|done].
  apply on_server_eq in E2 as (s2 & E2 & ->). apply make_sound in E2 as (I2 & G2 & O & N & D); [|done].
  destruct (is_connected m) eqn:Hc; cbn [negb]; intros [= <- <-]; cbn [Z.eqb].
  - split; cbn; [done| |].
    + intros m' r [= <-]. by apply O.
    + intros m' _ [= <-]. destruct (O eq_refl) as [_ K]. destruct (K D) as (? & ? & ?). by split_and!.
  - split; cbn; [done| |done]. intros m' r [= <-] Hr. apply N in Hr. congruence.
Qed.

Lemma start_PInv env read_file argv la ca p : start env read_file argv la ca = Done p -> PInv p.
Proof.
  unfold start. destruct (initialize argv newConfig) as [config|]; [|done]. unfold mbind, outcome_bind.
  destruct (setup la ca (newProcess config)) as [[st q]|] eqn:E; [|done].
  apply setup_PInv in E; [|apply newProcess_PInv|done|done].
  destruct (st =? 1); [by intros [= <-]|]. destruct (on_server _ q) as [[[] q']|] eqn:E'; [|done]. intros [= <-]. cbn.
  apply on_server_eq in E' as (s & E' & ->). apply skeeps_keep in E' as [I G]; [|apply skeeps_load|apply E].
  by apply PInv_server.
Qed.

(** The states between two waits of the event loop: any command line, any answers
    of the kernel, any input, any times. *)
Inductive runs : Process -> Prop :=
| run_start env read_file argv la ca p : start env read_file argv la ca = Done p -> runs p
| run_turn env stod read_file events p p' :
    runs p -> exit_code p = None -> fresh_run stod read_file events p ->
    iterate env stod read_file events p = Done p' -> runs p'.

(** * Properties *)

(** C3: The invariant of the process.  In every state that the process can reach from
    [main], whatever the command line, the kernel's answers, the input of clients
    and of a master and the times, the server's invariant holds: deadlines belong
    to stored keys, every logged-in client's user exists, connections and clients
    correspond one to one by descriptor, no pointer to a replica dangles and none
    is there twice.  On a replica the client of the master has its data base, its
    user exists, and it has completed the handshake exactly when its state says
    so; and while the process runs, it counts as connected. *)
Theorem process_invariant p : runs p ->
  SInv (server p) /\ connected (server p) /\ one_entry (server p) /\
  forall m, master p = Some m ->
    (forall r, slave_client m = Some r -> slave_ok (server p) r) /\
    (exit_code p = None -> is_connected m = true /\ is_Some (slave_client m)).
Proof.
  intros H. assert (P : PInv p).
  { induction H as [env rf argv la ca p E|env stod rf events p p' _ IH He Hf E]; [by eapply start_PInv|].
    by eapply iterate_PInv. }
  destruct P as [A B C]. split_and!; [done|by apply SInv_connected| |].
  - intros f g c Hf Hg. destruct (si_slaves _ A f c Hf) as (x & Hx & <-), (si_slaves _ A g c Hg) as (y & Hy & <-).
    congruence.
  - intros m Hm. split; [by intros r; apply B|]. intros He. by destruct (C m He Hm) as (? & _ & _ & ?).
Qed.

(** A replica that has connected, accepted a client, and heard PONG. *)
Definition replica_argv : list (list Z) :=
  lit "server" :: concat (map write_setting [Port 6380; ReplicaOf (lit "127.0.0.1") 6379]).
Definition good_listen : ListenAnswers := MkListen 3 true true true true true.
Definition good_connect : ConnectAnswers := MkConnect 4 1 0.
Definition p_dead : Process := newProcess newConfig.
Definition p_replica : Process :=
  match start DbString.sample_env (fun _ => None) replica_argv good_listen good_connect with Done p => p | Stuck => p_dead end.
Definition replica_events : list (Env * Ready) :=
  [(DbString.sample_env, MkReady MasterHandler EPOLLOUT [] [] WouldBlock [Wrote 14]);
   (DbString.sample_env, MkReady AcceptorHandler EPOLLIN [Some 5; None] [] WouldBlock []);
   (DbString.sample_env, MkReady MasterHandler EPOLLIN [] [lit "+PONG" ++ CRLF] WouldBlock [])].
Definition p_ponged : Process :=
  match iterate DbString.sample_env (fun _ => None) (fun _ => None) replica_events p_replica with Done p => p | Stuck => p_dead end.

Lemma process_invariant_witness :
  SInv (server p_ponged) /\ is_connected <$> master p_ponged = Some true /\
  (replication_status <$> (m ← master p_ponged; slave_client m)) = Some REPLCONF_PORT_SENT.
Proof.
  split; [|split; vm_compute; reflexivity].
  refine (proj1 (process_invariant p_ponged _)).
  apply (run_turn DbString.sample_env (fun _ => None) (fun _ => None) replica_events p_replica).
  - apply (run_start DbString.sample_env (fun _ => None) replica_argv good_listen good_connect). vm_compute. reflexivity.
  - vm_compute. reflexivity.
  - split; [exact I|]. intros p1 H1. split.
    + vm_compute in H1. injection H1 as <-. split; [repeat constructor; set_solver|]. repeat constructor.
    + intros p2 _. split; [exact I|]. intros p3 _. exact I.
  - vm_compute. reflexivity.
Defined.

(** All the calls that make a listening socket succeed. *)
Definition listening (k : ListenAnswers) : bool :=
  (0 <=? la_socket k) && la_nonblock k && la_reuseaddr k && la_address k && la_bind k && la_listen k.

(** All the calls that make the connection to the master succeed.  [inet_pton] fails
    with a negative answer only; 0, for a text that is no address, is not noticed. *)
Definition connecting (k : ConnectAnswers) : bool :=
  (0 <=? ca_socket k) && (0 <=? ca_inet_pton k) && (0 <=? ca_connect k).

Lemma connect_client_eq k : connect_client k = if connecting k then Some (ca_socket k) else None.
Proof.
  unfold connect_client, connecting. rewrite !Z.ltb_antisym.
  by destruct (0 <=? ca_socket k), (0 <=? ca_inet_pton k), (0 <=? ca_connect k).
Qed.

(** C40: Start-up succeeds or fails as a whole.  If any call for the listening socket
    fails, [setup] answers 1, nothing is registered with the event loop, and the
    socket is closed if there was one.  Otherwise a master is ready with the
    listening socket registered for reading.  A replica is ready when the calls for
    its connection (socket, address, connect) have succeeded: the socket of that
    connection is then registered for writing with the PING of the handshake to be
    sent.  If any of the three fails, [setup] answers 1 and only the listening socket
    is registered. *)
Theorem setup_spec la ca config : -1 <= la_socket la ->
  exists st p, setup la ca (newProcess config) = Done (st, p) /\
    if listening la then
      listen_fd p = la_socket la /\ closed_fds p = [] /\
      match role config with
      | MASTER =>
          st = 0 /\ master p = None /\ epoll_calls (server p) = [Register (la_socket la) READ_EVENT]
      | SLAVE =>
          if (0 <=? ca_socket ca) && (0 <=? ca_inet_pton ca) && (0 <=? ca_connect ca) then
            st = 0 /\
            epoll_calls (server p) = [Register (la_socket la) READ_EVENT; Register (ca_socket ca) WRITE_EVENT] /\
            exists m r, master p = Some m /\ has_callback m = true /\ slave_client m = Some r /\
              fd (base r) = ca_socket ca /\ replication_status r = PING_SENT /\ written r = array [lit "PING"]
          else st = 1 /\ epoll_calls (server p) = [Register (la_socket la) READ_EVENT]
      end
    else
      st = 1 /\ listen_fd p = -1 /\ epoll_calls (server p) = [] /\
      closed_fds p = if la_socket la <? 0 then [] else [la_socket la].
Proof.
  intros H. fold (connecting ca). destruct la as [f nb ra ad bi li]. unfold setup, make_acceptor, listening, isValid. cbn in H.
  cbn [la_socket la_nonblock la_reuseaddr la_address la_bind la_listen].
  destruct (Z.ltb_spec f 0) as [Hf|Hf].
  - replace f with (-1) by lia. do 2 eexists. by split.
  - replace (0 <=? f) with true by lia.
    destruct nb; [|do 2 eexists; by split]. destruct ra; [|do 2 eexists; by split].
    destruct ad; [|do 2 eexists; by split]. destruct bi; [|do 2 eexists; by split].
    destruct li; [|do 2 eexists; by split]. cbn [negb andb].
    replace (f =? -1) with false by lia. cbn [negb]. cbn.
    destruct (role config); [rewrite bool_decide_false by done|rewrite bool_decide_true by done].
    + do 2 eexists. split; [reflexivity|]. by split_and!.
    + rewrite connect_client_eq. destruct (connecting ca); cbn; do 2 eexists; (split; [reflexivity|]); split_and!; try done.
      do 2 eexists. by split_and!.
Qed.

Definition replica_config : ServerConfig :=
  match initialize replica_argv newConfig with Done c => c | Stuck => newConfig end.

(** A bind that fails; a replica whose master refuses the connection; one that is
    accepted. *)
Lemma setup_spec_witness :
  (exists st p, setup (MkListen 3 true true true false true) good_connect (newProcess newConfig) = Done (st, p) /\
     st = 1 /\ closed_fds p = [3]) /\
  (exists st p, setup good_listen (MkConnect 4 1 (-1)) (newProcess replica_config) = Done (st, p) /\
     st = 1 /\ epoll_calls (server p) = [Register 3 READ_EVENT]) /\
  (exists st p, setup good_listen (MkConnect 4 1 0) (newProcess replica_config) = Done (st, p) /\
     st = 0 /\ epoll_calls (server p) = [Register 3 READ_EVENT; Register 4 WRITE_EVENT]).
Proof.
  split; [|split].
  - destruct (setup_spec (MkListen 3 true true true false true) good_connect newConfig) as (st & p & E & S & _ & _ & C);
      [vm_compute; discriminate|]. exists st, p. split_and!; [exact E|exact S|exact C].
  - destruct (setup_spec good_listen (MkConnect 4 1 (-1)) replica_config) as (st & p & E & _ & _ & S & C);
      [vm_compute; discriminate|]. exists st, p. split_and!; [exact E|exact S|exact C].
  - destruct (setup_spec good_listen (MkConnect 4 1 0) replica_config) as (st & p & E & _ & _ & S & C & _);
      [vm_compute; discriminate|]. exists st, p. split_and!; [exact E|exact S|exact C].
Defined.
